(* ===== verification/_CoqProject ===== *)
-Q . S2P
Prelude.v
Codec.v
ObjectStore.v
Blocks.v
Volume.v
Frame.v
Dns.v
Netd.v
Gateway.v
Paging.v
Sums.v
Db.v
Lifecycle.v
Quotas.v
Locks.v
Thermal.v
Replicated.v
Runs.v
ProjectImages.v
Page.v
Base.v
Indexed.v
Staging.v
IndexedCommit.v
IndexedApi.v
Repack.v
Nbd.v
Files.v
Local.v
LocalLog.v
LocalInv.v
LocalCompact.v
LocalImage.v
LocalSpec.v
LocalRun.v
LocalOpen.v
LocalSync.v
LocalFresh.v
LocalSystem.v
Evict.v
Lifetime.v
LocalRemote.v
LifetimeRemote.v
Owned.v
Mark.v
Fencing.v
Ownership.v
OwnerCrash.v
Collect.v
Cache.v
Discard.v
