(* ===== verification/Prelude.v ===== *)
(** * A verification of AgentHouse

    AgentHouse runs sandboxes (micro virtual machines) for coding agents.  The
    part modelled here is its Rust core under [src/rust/]: the volumes that
    sandboxes boot from and write to ([ahvm-volume]), the metadata store of the
    daemon ([ahvm-store]), the daemon's admission control ([ahvm-daemon]), the
    network daemon between a guest and the world ([ahvm-netd]) and the wire protocol
    to the guest agent ([ahvm-proto]).

    ** How the code is modelled

    A method that mutates its object or talks to a store is a function from the
    state before to a [Result] and the state after ([M], below); the state is
    returned on the error path too, so an early return keeps what was mutated
    before it.  Integers are [Z] with the wrap-around, the saturation or the
    check of the code written out; bytes are [list Z] with [is_byte].  Loops are
    structural or take fuel, and each loop with fuel has a lemma that the fuel
    given is enough.  Code that is not part of the repository is an interface: a
    class of operations and a class of laws, each with a concrete instance used in
    the witnesses ([Sha256], [Json], [ObjectStore]).  An object store may fail at
    every call, lose replies (a write that took effect may be reported as failed)
    and complete concurrent uploads in any order; the file system of a journal
    may fail at every call ([exists] by reading as absence), tear writes and lose what
    was not synced in a crash.

    ** Parts

    Volumes, [ahvm-volume/src/]:
    - [Codec] (lib.rs: errors, digests; hex and big-endian codecs), [ObjectStore]
      (the trait of lib.rs with its default methods, its laws, a toy store),
      [Blocks] (the abstract disk and the two chunked copy loops).
    - [Volume] (lib.rs): format-1 volumes.  A commit is atomic and durable, a
      reopened volume reads what was committed, a failed publication retires the
      handle, a reachable store always lets a usable handle commit.
    - [Page], [Base], [Indexed], [Staging], [IndexedCommit], [IndexedApi]
      (indexed.rs, base.rs): packed volumes with an index of pages over an optional
      base image.  [Indexed] holds the definitions; the others the invariants of
      page and root, the effect of staging and publishing, and the theorems:
      atomic commits (with the replication mark), durability, copies from a base
      image, round trip of the base catalog.
    - [Repack] (indexed.rs, [compact_packs]): a pass of pack compaction keeps the disk
      and the replication mark, stays in its budget and makes progress.
    - [Nbd] (nbd.rs): the block-device server.  It refines a service that performs
      whole requests in order, confines the client to aligned ranges of the disk,
      and terminates on every input.
    - [Files] (the calls of [std::fs] that local.rs makes), [Local] (local.rs: the
      local-durable disk), [LocalLog] (histories of records), [LocalInv] (the remote
      volume as an interface with laws; journal files and their images; loading a
      journal; crashes), [LocalCompact], [LocalImage] (writing, compacting,
      syncing), [LocalSpec] (the abstract disk with its durable part), [LocalRun]
      (read, write, flush, compaction and acceptance keep the invariant), [LocalOpen]
      (opening: fresh, and after a crash), [LocalSync] (replication, compaction of the
      remote volume), [LocalFresh] (opens that fail in a directory that never held
      anything), [LocalSystem] (process, directory and store as one system: every call
      is a step, and the steps whose proviso holds simulate the abstract disk),
      [LocalRemote] (the indexed volume satisfies the interface
      of the remote; hence the refinement of the abstract disk by the local disk
      over an indexed volume over any object store).
    - [Evict] (owned.rs: the owner's directory with its journal, opening a disk in it
      after a started eviction is finished, and giving the journal up), [Lifetime]
      (the owner's directory, process and store as one system; its whole life, with
      evictions that succeed, fail or are cut short, simulates one abstract disk),
      [LifetimeRemote] (the same over an indexed volume, the main theorem on local
      disks), [Discard] (the journal of a deleted disk is given up for good).
    - [Owned] (owned.rs: the envelope of a volume's head, the identity of a host
      directory, opening, release, enrollment, retirement, the owner's store),
      [Fencing] (the abstract machine of epochs, what each operation reads and sends),
      [Ownership] (many hosts and processes, crashes, late and repeated requests: the
      head follows the machine, and an owner whose epoch is over cannot write),
      [OwnerCrash] (an owner's directory opens again after a crash).
    - [Mark] (indexed.rs, [references]: the objects a root needs, and that a volume
      reads the same from any store that holds them), [Collect] (reclaim.rs and the
      offline collection of owned.rs: a pass deletes only garbage, repeated passes
      leave no garbage, sweeping a retired volume ends).
    - [Cache] (cache.rs, cache/metadata.rs): the cache of verified objects, its methods
      and the interleavings of its threads; it keeps its bounds and is transparent to
      the reader of a volume, but for objects whose deletion overtook a fetch.
    Metadata, [ahvm-store/src/]: [Paging], [Sums] (lemmas on ordered paging and on
    sums over maps), [Db] (lib.rs, entities.rs, events.rs, schema.rs: the tables and
    their queries), [Lifecycle] (operations.rs: receipts and fences), [Replicated]
    (replicated.rs: reservations and quotas), [Runs] (runs.rs, run_events.rs: managed
    runs and their event outbox), [ProjectImages] (project_images.rs).  A SQL table
    is a map from its primary key to its row; a statement with its constraints is a
    function on the tables, an error where SQLite reports one.
    Daemon, [ahvm-daemon/src/]: [Quotas] (quotas.rs: the holds that close the race
    between concurrent creates; the quota is respected along every run, up to what a
    hold smaller than the row of its name leaves uncounted), [Locks]
    (scheduler.rs: reclaimed per-sandbox locks with an identity epoch, stream caps),
    [Thermal] (thermal.rs: the activity tracker; use and idle stop exclude each other,
    recent activity delays a stop, but for a sweep in the middle of its first look).
    Their shared state is one record and their atomic
    steps, the sections under one mutex, are the events of a transition function.
    Network, [ahvm-netd/src/] and [ahvm-proto/src/]: [Netd] (the destination policy,
    [Bucket] for bandwidth.rs), [Dns] (dns.rs), [Gateway] (wire.rs, icmp.rs, and the
    decisions of gateway.rs), [Frame] (v2.rs and the private endpoints of lib.rs).

    ** Bounds

    Copy loops take one unit of fuel per byte, each pass copying at least one
    ([wp_read_loop], [wp_write_loop]).  The NBD loop takes the length of the client's
    input, each pass consuming a 28-byte header.  The replay of a journal takes one
    unit per record that fits in the file.  The cycles of collection and of sweeping
    take one unit per pass; one more pass than stored objects is enough.

    ** Not modelled

    The engine, the worker broker, the guest agent and the command line are calls to
    the operating system around little logic.  The daemon's HTTP handlers and the sweep
    of its thermal control are not modelled; of an owned disk the phases (its use by a
    server while it is released) and its export, of the indexed volume the batched
    commits, and the volume service above them are not either.
    The machines of the local disk make every call at any time; the refinement
    theorems are about runs whose steps satisfy a proviso each, and outside of which
    the code does lose data or refuse its journal: the [exists] of an open does not
    fail on a journal that is there ([LifetimeRemote], [missed_journal_is_lost]), a
    compaction of the remote volume that fails finds the mark of the journal in the
    remote head ([LocalSync], [stale_journal_refused]), no commit or compaction meets a
    digest collision, the identity drawn for a new journal is not that in the remote
    head.  Time enters as an argument.  Threads enter as the order in which their
    atomic steps happen, where a property depends on it ([Permit], [Cache], [Quotas],
    [Locks], [Thermal], [Ownership], the phases of replication).

    This file holds what all others share: the monad and its rule of consequence, the
    symbolic execution tactic [wp_step], machine integers, and slices. *)
From Corelib Require Export ssreflect.
From stdpp Require Export base gmap list strings sorting pretty.
#[export] Set Warnings "-rewrite-rw,-clear-no-such-hyp".
#[global] Open Scope general_if_scope.
#[global] Open Scope Z_scope.

(** ** Results and the state-and-error monad

    Rust's [Result<T, E>] and the effectful methods that return it.  A method
    that takes [&mut self] (or talks to a store) is a function from the state
    before to the result and the state after: the state is returned on the
    error path too, because the code keeps what it mutated before the [?]. *)
Inductive Result (E A : Type) : Type :=
| Ok (a : A)
| Err (e : E).
Arguments Ok {E A} a.
Arguments Err {E A} e.

Definition M (E St A : Type) : Type := St → Result E A * St.

#[export] Instance M_ret E St : MRet (M E St) := λ A a s, (Ok a, s).
#[export] Instance M_bind E St : MBind (M E St) := λ A B f m s,
  match m s with
  | (Ok a, s') => f a s'
  | (Err e, s') => (Err e, s')
  end.

Definition fail {E St A} (e : E) : M E St A := λ s, (Err e, s).
Definition get {E St} : M E St St := λ s, (Ok s, s).
Definition gets {E St A} (f : St → A) : M E St A := λ s, (Ok (f s), s).
Definition modify {E St} (f : St → St) : M E St unit := λ s, (Ok tt, f s).
Definition of_result {E St A} (r : Result E A) : M E St A := λ s, (r, s).
(** [guard_err b e]: [if !b { return Err(e) }]. *)
Definition guard_err {E St} (b : bool) (e : E) : M E St unit :=
  if b then mret tt else fail e.
Definition ok_or {E St A} (o : option A) (e : E) : M E St A :=
  match o with Some a => mret a | None => fail e end.
(** [try_ m]: run [m] and hand its [Result] to the caller, never failing. *)
Definition try_ {E St A} (m : M E St A) : M E St (Result E A) := λ s,
  let '(r, s') := m s in (Ok r, s').
Definition map_err {E St A} (f : E → E) (m : M E St A) : M E St A := λ s,
  let '(r, s') := m s in
  (match r with Ok a => Ok a | Err e => Err (f e) end, s').
(** Run an operation of a component of the state. *)
Definition zoom {E S T A} (prj : T → S) (upd : S → T → T) (m : M E S A) : M E T A :=
  λ t, let '(r, s') := m (prj t) in (r, upd s' t).

Definition is_ok {E A} (r : Result E A) : bool :=
  match r with Ok _ => true | Err _ => false end.

(** [for x in l { f(x)?; }] *)
Fixpoint for_each {E St A} (l : list A) (f : A → M E St unit) : M E St unit :=
  match l with
  | [] => mret tt
  | x :: l' => f x;; for_each l' f
  end.

(** [for x in l { acc = f(acc, x)?; }] *)
Fixpoint foldM {E St A B} (f : B → A → M E St B) (b : B) (l : list A) : M E St B :=
  match l with
  | [] => mret b
  | x :: l' => b' ← f b x; foldM f b' l'
  end.

(** ** Postconditions

    [wp m s Q]: running [m] from [s] ends in a result and a state that satisfy
    [Q].  All operations are total functions, so this is total correctness;
    the error results are results like any other. *)
Definition wp {E St A} (m : M E St A) (s : St) (Q : Result E A → St → Prop) : Prop :=
  Q (m s).1 (m s).2.

Create HintDb wp.

Section wp_rules.
Context {E St : Type}.
Implicit Types s : St.

Lemma wp_ret {A} (a : A) s (Q : Result E A → St → Prop) :
  Q (Ok a) s → wp (mret a) s Q.
Proof. done. Qed.

Lemma wp_fail {A} (e : E) s (Q : Result E A → St → Prop) :
  Q (Err e) s → wp (fail e) s Q.
Proof. done. Qed.

Lemma wp_gets {A} (f : St → A) s (Q : Result E A → St → Prop) :
  Q (Ok (f s)) s → wp (gets f) s Q.
Proof. done. Qed.

Lemma wp_modify (f : St → St) s (Q : Result E unit → St → Prop) :
  Q (Ok tt) (f s) → wp (modify f) s Q.
Proof. done. Qed.

Lemma wp_of_result {A} (r : Result E A) s Q : Q r s → wp (of_result r) s Q.
Proof. done. Qed.

Lemma wp_bind {A B} (m : M E St A) (f : A → M E St B) s Q :
  wp m s (λ r s', match r with Ok a => wp (f a) s' Q | Err e => Q (Err e) s' end) →
  wp (m ≫= f) s Q.
Proof. rewrite /wp /mbind /M_bind. by destruct (m s) as [[a|e] s']. Qed.

Lemma wp_mono {A} (m : M E St A) s (P Q : Result E A → St → Prop) :
  wp m s P → (∀ r s', P r s' → Q r s') → wp m s Q.
Proof. rewrite /wp. auto. Qed.

Lemma wp_and {A} (m : M E St A) s (P Q : Result E A → St → Prop) :
  wp m s P → wp m s Q → wp m s (λ r s', P r s' ∧ Q r s').
Proof. done. Qed.

Lemma wp_guard (b : bool) e s (Q : Result E unit → St → Prop) :
  (b = true → Q (Ok tt) s) → (b = false → Q (Err e) s) → wp (guard_err b e) s Q.
Proof. destruct b; rewrite /guard_err; auto using wp_ret, wp_fail. Qed.

Lemma wp_ok_or {A} (o : option A) e s (Q : Result E A → St → Prop) :
  (∀ a, o = Some a → Q (Ok a) s) → (o = None → Q (Err e) s) → wp (ok_or o e) s Q.
Proof. destruct o; rewrite /ok_or; auto using wp_ret, wp_fail. Qed.

Lemma wp_try {A} (m : M E St A) s Q :
  wp m s (λ r s', Q (Ok r) s') → wp (try_ m) s Q.
Proof. rewrite /wp /try_. by destruct (m s). Qed.

Lemma wp_map_err {A} f (m : M E St A) s Q :
  wp m s (λ r s', Q (match r with Ok a => Ok a | Err e => Err (f e) end) s') →
  wp (map_err f m) s Q.
Proof. rewrite /wp /map_err. by destruct (m s) as [[] ?]. Qed.

Lemma wp_true {A} (m : M E St A) s (Q : Result E A → St → Prop) : (∀ r s', Q r s') → wp m s Q.
Proof. intros H. apply H. Qed.

Lemma wp_run {A} (m : M E St A) s Q r s' : m s = (r, s') → wp m s Q → Q r s'.
Proof. rewrite /wp. by intros ->. Qed.

(** The run itself, kept beside a postcondition. *)
Lemma wp_self {A} (m : M E St A) s Q : wp m s Q → wp m s (λ r s', m s = (r, s') ∧ Q r s').
Proof. rewrite /wp. by destruct (m s). Qed.

Lemma wp_implied {A} (C : Prop) (m : M E St A) s Q : (C → wp m s Q) → wp m s (λ r s', C → Q r s').
Proof. rewrite /wp. by destruct (m s). Qed.

(** A loop invariant indexed by what is left to do. *)
Lemma wp_for_each {A} (l : list A) (f : A → M E St unit) s
    (I : list A → St → Prop) (Q : Result E unit → St → Prop) :
  I l s →
  (∀ x l' s, I (x :: l') s →
    wp (f x) s (λ r s', match r with Ok _ => I l' s' | Err e => Q (Err e) s' end)) →
  (∀ s, I [] s → Q (Ok tt) s) →
  wp (for_each l f) s Q.
Proof.
  intros HI Hstep Hend. revert s HI. induction l as [|x l IH]; intros s HI; simpl.
  - apply wp_ret. by apply Hend.
  - apply wp_bind. eapply wp_mono; [eapply Hstep, HI|].
    intros [[]|e] s' H; auto.
Qed.

Lemma wp_foldM {A B} (f : B → A → M E St B) (b : B) (l : list A) s
    (I : B → list A → St → Prop) (Q : Result E B → St → Prop) :
  I b l s →
  (∀ b x l' s, I b (x :: l') s →
    wp (f b x) s (λ r s', match r with Ok b' => I b' l' s' | Err e => Q (Err e) s' end)) →
  (∀ b s, I b [] s → Q (Ok b) s) →
  wp (foldM f b l) s Q.
Proof.
  intros HI Hstep Hend. revert b s HI. induction l as [|x l IH]; intros b s HI; simpl.
  - apply wp_ret. by apply Hend.
  - apply wp_bind. eapply wp_mono; [eapply Hstep, HI|].
    intros [b'|e] s' H; auto.
Qed.
End wp_rules.

Lemma wp_zoom {E S T A} (prj : T → S) (upd : S → T → T) (m : M E S A) t Q :
  wp m (prj t) (λ r s', Q r (upd s' t)) → wp (zoom prj upd m) t Q.
Proof. rewrite /wp /zoom. by destruct (m (prj t)). Qed.

#[export] Hint Resolve wp_ret wp_fail wp_gets wp_modify wp_of_result : wp.

(** One symbolic step through the head of a monadic program. *)
Ltac wp_step :=
  lazymatch goal with
  | |- wp (_ ≫= _) _ _ => apply wp_bind
  | |- wp (mret _) _ _ => apply wp_ret
  | |- wp (fail _) _ _ => apply wp_fail
  | |- wp (gets _) _ _ => apply wp_gets
  | |- wp (modify _) _ _ => apply wp_modify
  | |- wp (of_result _) _ _ => apply wp_of_result
  | |- wp (guard_err _ _) _ _ => apply wp_guard; intros ?
  | |- wp (ok_or _ _) _ _ => apply wp_ok_or; intros
  | |- wp (try_ _) _ _ => apply wp_try
  | |- wp (map_err _ _) _ _ => apply wp_map_err
  | |- wp (zoom _ _ _) _ _ => apply wp_zoom
  | |- wp (if ?b then _ else _) _ _ => destruct b eqn:?
  | |- wp (let '(_, _) := ?p in _) _ _ => destruct p eqn:?
  | |- wp (match ?x with _ => _ end) _ _ => destruct x eqn:?
  end.
(** Linear arithmetic with division and remainder. *)
Ltac dlia := Z.to_euclidean_division_equations; lia.

Ltac wp_steps := repeat (wp_step; cbn beta iota).

(** ** Machine integers *)
Definition u8_max : Z := 2 ^ 8 - 1.
Definition u16_max : Z := 2 ^ 16 - 1.
Definition u32_max : Z := 2 ^ 32 - 1.
Definition u64_max : Z := 2 ^ 64 - 1.
Definition u128_max : Z := 2 ^ 128 - 1.

(** [a.checked_add(b)] on [u64]. *)
Definition u64_checked_add (a b : Z) : option Z :=
  if a + b <=? u64_max then Some (a + b) else None.
(** [a.saturating_add(b)], [a.saturating_mul(b)] on an unsigned type with the
    given maximum, and [a.saturating_sub(b)] on any unsigned type. *)
Definition sat_add (max a b : Z) : Z := Z.min (a + b) max.
Definition sat_mul (max a b : Z) : Z := Z.min (a * b) max.
Definition sat_sub (a b : Z) : Z := Z.max (a - b) 0.
(** [a.div_ceil(b)] for a positive divisor. *)
Definition div_ceil (a b : Z) : Z := (a + b - 1) / b.
(** [a.is_multiple_of(b)] for a positive divisor. *)
Definition is_multiple_of (a b : Z) : bool := a mod b =? 0.

Definition is_u64 (x : Z) : Prop := 0 ≤ x ≤ u64_max.

Lemma u64_checked_add_Some a b c :
  u64_checked_add a b = Some c ↔ c = a + b ∧ a + b ≤ u64_max.
Proof. rewrite /u64_checked_add. case: Z.leb_spec => ?; split; intros; simplify_eq; try (split; lia); try done; destruct_and?; subst; try done; lia. Qed.

(** ** Slices of byte vectors

    [slice l at n] is [&l[at..at + n]] and [splice l at x] is
    [l[at..at + x.len()].copy_from_slice(x)].  The code guards every range it
    takes; the lemmas carry the guard as their hypothesis. *)
Definition Zlen {A} (l : list A) : Z := Z.of_nat (length l).
Definition slice {A} (l : list A) (at_ n : Z) : list A :=
  take (Z.to_nat n) (drop (Z.to_nat at_) l).
Definition splice {A} (l : list A) (at_ : Z) (x : list A) : list A :=
  take (Z.to_nat at_) l ++ x ++ drop (Z.to_nat at_ + length x) l.
Definition index (l : list Z) (i : Z) : Z := nth (Z.to_nat i) l 0.
Definition zeros (n : Z) : list Z := replicate (Z.to_nat n) 0.
(** [l.iter().all(|b| *b == 0)] *)
Definition all_zero (l : list Z) : bool := forallb (Z.eqb 0) l.

#[global] Arguments slice : simpl never.
#[global] Arguments splice : simpl never.
#[global] Arguments zeros : simpl never.
#[global] Arguments index : simpl never.
#[global] Arguments Zlen : simpl never.
#[global] Arguments all_zero : simpl never.

Section slices.
Implicit Types l x : list Z.

Lemma Zlen_nonneg {A} (l : list A) : 0 ≤ Zlen l.
Proof. rewrite /Zlen. lia. Qed.

Lemma Zlen_app {A} (l k : list A) : Zlen (l ++ k) = Zlen l + Zlen k.
Proof. rewrite /Zlen length_app. lia. Qed.

Lemma Zlen_nil {A} : Zlen (@nil A) = 0.
Proof. done. Qed.

Lemma Zlen_cons {A} (a : A) (l : list A) : Zlen (a :: l) = 1 + Zlen l.
Proof. rewrite /Zlen /=. lia. Qed.

Lemma Zlen_zeros n : 0 ≤ n → Zlen (zeros n) = n.
Proof. rewrite /Zlen /zeros length_replicate. lia. Qed.

Lemma Zlen_slice {A} (l : list A) at_ n :
  0 ≤ at_ → 0 ≤ n → at_ + n ≤ Zlen l → Zlen (slice l at_ n) = n.
Proof. rewrite /Zlen /slice length_take length_drop. lia. Qed.

Lemma Zlen_splice {A} (l : list A) at_ (x : list A) :
  0 ≤ at_ → at_ + Zlen x ≤ Zlen l → Zlen (splice l at_ x) = Zlen l.
Proof. rewrite /Zlen /splice !length_app length_take length_drop. lia. Qed.

Lemma index_lookup l i : index l i = default 0 (l !! Z.to_nat i).
Proof. by rewrite /index nth_lookup. Qed.

Lemma index_app l k i :
  0 ≤ i → index (l ++ k) i = if decide (i < Zlen l) then index l i else index k (i - Zlen l).
Proof.
  intros Hi. rewrite !index_lookup lookup_app /Zlen. case_decide.
  - destruct (lookup_lt_is_Some_2 l (Z.to_nat i)) as [y Hy]; [lia|]. by rewrite Hy.
  - rewrite (lookup_ge_None_2 l); [lia|]. do 2 f_equal. lia.
Qed.

Lemma index_slice l at_ n i :
  0 ≤ at_ → 0 ≤ i < n → index (slice l at_ n) i = index l (at_ + i).
Proof.
  intros ??. rewrite !index_lookup /slice lookup_take_lt; [lia|].
  rewrite lookup_drop. do 2 f_equal. lia.
Qed.

Lemma index_splice l at_ x i :
  0 ≤ at_ → 0 ≤ i → at_ + Zlen x ≤ Zlen l →
  index (splice l at_ x) i =
    if decide (at_ ≤ i < at_ + Zlen x) then index x (i - at_) else index l i.
Proof.
  intros Hat Hi Hlen. rewrite /splice.
  assert (Zlen (take (Z.to_nat at_) l) = at_) as Ht.
  { rewrite /Zlen length_take. pose proof (Zlen_nonneg x). rewrite /Zlen in Hlen. lia. }
  rewrite index_app ?Ht; [lia|]. pose proof (Zlen_nonneg x). case_decide.
  { rewrite decide_False; [lia|]. rewrite !index_lookup lookup_take_lt //; lia. }
  rewrite index_app; [lia|]. repeat case_decide; try lia.
  rewrite !index_lookup lookup_drop. do 2 f_equal. rewrite /Zlen in H1 |- *. lia.
Qed.

Lemma index_zeros n i : index (zeros n) i = 0.
Proof.
  rewrite index_lookup /zeros. destruct (replicate _ _ !! _) eqn:E; [|done].
  apply lookup_replicate in E as [-> _]. done.
Qed.

Lemma list_index_eq l k :
  Zlen l = Zlen k → (∀ i, 0 ≤ i < Zlen l → index l i = index k i) → l = k.
Proof.
  rewrite /Zlen. intros Hlen Hi. apply (list_eq_same_length l k (length l)); [lia|done|].
  intros i a b Hl Ha Hb. specialize (Hi (Z.of_nat i)).
  rewrite !index_lookup Nat2Z.id Ha Hb /= in Hi. apply Hi. lia.
Qed.

Lemma slice_splice_same l at_ x :
  0 ≤ at_ → at_ + Zlen x ≤ Zlen l → slice (splice l at_ x) at_ (Zlen x) = x.
Proof.
  intros. pose proof (Zlen_nonneg x). apply list_index_eq.
  { rewrite Zlen_slice ?Zlen_splice //; lia. }
  rewrite Zlen_slice ?Zlen_splice; [lia..|]. intros i Hi.
  rewrite index_slice ?index_splice; [lia..|]. rewrite decide_True; [lia|]. f_equal. lia.
Qed.

Lemma slice_splice_eq l at_ x n :
  n = Zlen x → 0 ≤ at_ → at_ + n ≤ Zlen l → slice (splice l at_ x) at_ n = x.
Proof. intros ->. by apply slice_splice_same. Qed.

Lemma slice_splice_disj l at_ x k n :
  0 ≤ at_ → at_ + Zlen x ≤ Zlen l → 0 ≤ k → 0 ≤ n → k + n ≤ Zlen l →
  k + n ≤ at_ ∨ at_ + Zlen x ≤ k →
  slice (splice l at_ x) k n = slice l k n.
Proof.
  intros. apply list_index_eq.
  { rewrite !Zlen_slice ?Zlen_splice //; lia. }
  rewrite Zlen_slice ?Zlen_splice; [lia..|]. intros i Hi.
  rewrite !index_slice ?index_splice; [lia..|]. by rewrite decide_False; [lia|].
Qed.

Lemma slice_slice (l : list Z) a n b m : 0 ≤ a → 0 ≤ b → 0 ≤ m → b + m ≤ n → a + n ≤ Zlen l →
  slice (slice l a n) b m = slice l (a + b) m.
Proof.
  intros. apply list_index_eq; [rewrite !Zlen_slice //; rewrite ?Zlen_slice; lia|].
  rewrite Zlen_slice ?Zlen_slice; [lia..|]. intros i Hi. rewrite !index_slice; [lia..|]. f_equal. lia.
Qed.

Lemma slice_prefix l k m at_ n : slice l 0 m = slice k 0 m → 0 ≤ at_ → 0 ≤ n → at_ + n ≤ m → m ≤ Zlen l → m ≤ Zlen k →
  slice l at_ n = slice k at_ n.
Proof.
  intros E ?????. trans (slice (slice l 0 m) at_ n); [by rewrite slice_slice; [lia..|]|].
  rewrite E slice_slice; [lia..|done].
Qed.

Lemma slice_app_l l k at_ n :
  0 ≤ at_ → 0 ≤ n → at_ + n ≤ Zlen l → slice (l ++ k) at_ n = slice l at_ n.
Proof.
  intros. pose proof (Zlen_nonneg k). apply list_index_eq.
  { rewrite !Zlen_slice ?Zlen_app //; lia. }
  rewrite Zlen_slice ?Zlen_app; [lia..|]. intros i Hi.
  rewrite !index_slice ?index_app; [lia..|]. by rewrite decide_True; [lia|].
Qed.

(** Fields of a record laid out as a concatenation. *)
Lemma slice_here {A} (x k : list A) n : Zlen x = n → slice (x ++ k) 0 n = x.
Proof. intros <-. by rewrite /slice /Zlen drop_0 Nat2Z.id take_app_length. Qed.

Lemma slice_skip {A} (x k : list A) at_ n : Zlen x ≤ at_ → slice (x ++ k) at_ n = slice k (at_ - Zlen x) n.
Proof.
  rewrite /slice /Zlen. intros H. f_equal. rewrite drop_app drop_ge; [lia|]. simpl. f_equal. lia.
Qed.

Lemma slice_all l n : Zlen l = n → slice l 0 n = l.
Proof. rewrite /Zlen /slice drop_0 => <-. rewrite Nat2Z.id. by apply take_ge. Qed.

Lemma slice_zeros m at_ n :
  0 ≤ at_ → 0 ≤ n → at_ + n ≤ m → slice (zeros m) at_ n = zeros n.
Proof.
  intros. apply list_index_eq.
  { rewrite Zlen_slice ?Zlen_zeros; lia. }
  rewrite Zlen_slice ?Zlen_zeros; [lia..|]. intros i Hi.
  by rewrite index_slice ?index_zeros; [lia..|].
Qed.

Lemma all_zero_true l : all_zero l = true ↔ l = zeros (Zlen l).
Proof.
  rewrite /all_zero forallb_forall /zeros /Zlen Nat2Z.id. split.
  - intros H. induction l as [|y l IH]; [done|]. simpl. f_equal.
    + symmetry. apply Z.eqb_eq, H. by left.
    + apply IH. intros z Hz. apply H. by right.
  - intros -> x Hx. apply list_elem_of_In, elem_of_replicate_inv in Hx. by subst.
Qed.

Lemma all_zero_zeros n : all_zero (zeros n) = true.
Proof. apply all_zero_true. rewrite /zeros /Zlen length_replicate. f_equal. lia. Qed.

Lemma all_zero_index l : all_zero l = true ↔ ∀ i, 0 ≤ i < Zlen l → index l i = 0.
Proof.
  rewrite all_zero_true. split; intros H.
  - intros i _. rewrite H. apply index_zeros.
  - apply list_index_eq; [rewrite Zlen_zeros //; apply Zlen_nonneg|].
    intros. by rewrite index_zeros H.
Qed.
End slices.

(** ** Ordered iteration of a [BTreeMap]

    [gmap] has no order; the entries are listed by increasing key, as iterating
    a [BTreeMap] does. *)
Definition key_le {A} (x y : Z * A) : Prop := x.1 ≤ y.1.
#[export] Instance key_le_dec {A} (x y : Z * A) : Decision (key_le x y) :=
  Z_le_dec x.1 y.1.
Definition entries {A} (m : gmap Z A) : list (Z * A) := merge_sort key_le (map_to_list m).

Lemma entries_Permutation {A} (m : gmap Z A) : entries m ≡ₚ map_to_list m.
Proof. apply merge_sort_Permutation. Qed.

Lemma elem_of_entries {A} (m : gmap Z A) k a : (k, a) ∈ entries m ↔ m !! k = Some a.
Proof. by rewrite entries_Permutation elem_of_map_to_list. Qed.

Lemma NoDup_entries {A} (m : gmap Z A) : NoDup (entries m).*1.
Proof. rewrite entries_Permutation. apply NoDup_fst_map_to_list. Qed.

Lemma existsb_entries {A} (f : Z * A → bool) (m : gmap Z A) :
  existsb f (entries m) = false ↔ ∀ k a, m !! k = Some a → f (k, a) = false.
Proof.
  split.
  - intros H k a Hk. apply not_true_is_false => Hf. apply (not_true_iff_false (existsb f (entries m))); [done|].
    apply existsb_exists. exists (k, a). split; [|done]. by apply list_elem_of_In, elem_of_entries.
  - intros H. apply not_true_is_false. intros ([k a] & Hin%list_elem_of_In & Hf)%existsb_exists.
    apply elem_of_entries, H in Hin. congruence.
Qed.

(** A rejected disjunction of error conditions. *)
Lemma if_err {E A} (b : bool) (e : E) (a : A) : (if b then Err e else Ok a) = Ok a ↔ b = false.
Proof. by destruct b. Qed.

Lemma elem_of_entries_keys {A} (m : gmap Z A) k : k ∈ (entries m).*1 ↔ is_Some (m !! k).
Proof.
  rewrite list_elem_of_fmap. split.
  - intros ([k' a] & -> & Hin). rewrite elem_of_entries in Hin. eauto.
  - intros [a Ha]. exists (k, a). by rewrite elem_of_entries.
Qed.

(** ** Runs of a partial transition function *)
Section steps.
Context {E Y : Type} (exec : E → Y → option Y).

Fixpoint steps (es : list E) (y : Y) : option Y :=
  match es with
  | [] => Some y
  | e :: es => y ← exec e y; steps es y
  end.

Lemma steps_app es es' y : steps (es ++ es') y = (y ← steps es y; steps es' y).
Proof. revert y. induction es as [|e es IH]; intros y; [done|]. simpl. by destruct (exec e y); simpl. Qed.

Lemma steps_ind (P : Y → Prop) es y y' : (∀ e y y', e ∈ es → P y → exec e y = Some y' → P y') → P y → steps es y = Some y' → P y'.
Proof.
  revert y. induction es as [|e es IH]; intros y Hstep Hp; simpl; [by intros [= <-]|].
  destruct (exec e y) as [y1|] eqn:E1; [|done]. apply IH; [intros; eapply Hstep; [by right|done..]|]. eapply Hstep; [by left|done..].
Qed.
End steps.
