(* ===== verification/Codec.v ===== *)
(** Byte-level codecs and identifiers shared by the storage components:
    big-endian integers ([to_be_bytes]/[from_be_bytes]), lower-case hexadecimal
    object names, the volume-identifier grammar, the error type of
    [ahvm-volume] and the content digest.  SHA-256 itself comes from the [sha2]
    crate, so it is the class parameter [Sha256] with its documented output
    format as law. *)
From S2P Require Import Prelude.
From Stdlib Require Ascii String.

(** ** The error type ([lib.rs], [enum Error]) *)
Inductive Error : Type :=
| Backpressure
| NotReady
| Deadline
| InvalidInput
| NotFound
| Corrupt
| Conflict
| Store
| Uncertain
| ReopenRequired.

#[export] Instance Error_eq_dec : EqDecision Error.
Proof. solve_decision. Defined.

Definition CHUNK_BYTES : Z := 64 * 1024.
Definition MAX_OBJECT_BYTES : Z := 1024 * 1024.
Definition MAX_VOLUME_BYTES : Z := 64 * 1024 * 1024.
Definition MAX_MANIFEST_BYTES : Z := 128 * 1024.

(** ** Bytes *)
Definition is_byte (b : Z) : Prop := 0 ≤ b < 256.
Definition bytes (l : list Z) : Prop := Forall is_byte l.

Lemma bytes_app l k : bytes (l ++ k) ↔ bytes l ∧ bytes k.
Proof. apply Forall_app. Qed.

Lemma bytes_take n l : bytes l → bytes (take n l).
Proof. apply Forall_take. Qed.

Lemma bytes_drop n l : bytes l → bytes (drop n l).
Proof. apply Forall_drop. Qed.

Lemma bytes_slice l at_ n : bytes l → bytes (slice l at_ n).
Proof. intros. by apply bytes_take, bytes_drop. Qed.

Lemma bytes_splice l at_ x : bytes l → bytes x → bytes (splice l at_ x).
Proof. intros. rewrite /splice !bytes_app. auto using bytes_take, bytes_drop. Qed.

Lemma bytes_zeros n : bytes (zeros n).
Proof. apply Forall_replicate. rewrite /is_byte. lia. Qed.

Lemma bytes_index (l : list Z) : bytes l ↔ ∀ k, 0 ≤ k < Zlen l → is_byte (index l k).
Proof.
  rewrite /bytes Forall_lookup. split.
  - intros H k Hk. rewrite index_lookup. destruct (lookup_lt_is_Some_2 l (Z.to_nat k)) as [x Hx]; [rewrite /Zlen in Hk; lia|].
    rewrite Hx. by eapply H.
  - intros H k x Hx. specialize (H (Z.of_nat k)). rewrite index_lookup Nat2Z.id Hx in H. apply H.
    apply lookup_lt_Some in Hx. rewrite /Zlen. lia.
Qed.

Create HintDb bytes.
#[export] Hint Resolve bytes_take bytes_drop bytes_slice bytes_splice bytes_zeros : bytes.

(** ** Big-endian integers *)
Fixpoint to_be_bytes (n : nat) (x : Z) : list Z :=
  match n with
  | O => []
  | S n' => Z.land (Z.shiftr x (8 * Z.of_nat n')) 255 :: to_be_bytes n' x
  end.
Definition be_step (acc b : Z) : Z := acc * 256 + b.
Definition from_be_bytes (l : list Z) : Z := fold_left be_step l 0.

#[global] Arguments to_be_bytes : simpl never.
#[global] Arguments from_be_bytes : simpl never.

Lemma byte_land x : Z.land x 255 = x mod 256.
Proof. change 255 with (Z.ones 8). by rewrite Z.land_ones; [lia|]. Qed.

Lemma length_to_be_bytes n x : length (to_be_bytes n x) = n.
Proof. induction n; rewrite /to_be_bytes /=; [done|]. f_equal. apply IHn. Qed.

Lemma Zlen_to_be_bytes n x : Zlen (to_be_bytes n x) = Z.of_nat n.
Proof. by rewrite /Zlen length_to_be_bytes. Qed.

Lemma bytes_to_be_bytes n x : bytes (to_be_bytes n x).
Proof.
  induction n; rewrite /to_be_bytes /=; [constructor|]. constructor; [|apply IHn].
  rewrite byte_land /is_byte. dlia.
Qed.

Lemma fold_be_step l acc :
  fold_left be_step l acc = acc * 2 ^ (8 * Zlen l) + from_be_bytes l.
Proof.
  rewrite /from_be_bytes. revert acc. induction l as [|b l IH]; intros acc; simpl.
  - rewrite Zlen_nil. lia.
  - rewrite IH (IH (be_step 0 b)) Zlen_cons /be_step.
    replace (8 * (1 + Zlen l)) with (8 + 8 * Zlen l) by lia.
    rewrite Z.pow_add_r; [lia|pose proof (Zlen_nonneg l); lia|]. change (2 ^ 8) with 256. lia.
Qed.

Lemma from_be_bytes_cons b l :
  from_be_bytes (b :: l) = b * 2 ^ (8 * Zlen l) + from_be_bytes l.
Proof. rewrite {1}/from_be_bytes /= fold_be_step /be_step. lia. Qed.

Lemma from_to_be_bytes_mod n x :
  from_be_bytes (to_be_bytes n x) = x mod 2 ^ (8 * Z.of_nat n).
Proof.
  induction n as [|n IH].
  { by rewrite Z.mod_1_r. }
  change (to_be_bytes (S n) x) with
    (Z.land (Z.shiftr x (8 * Z.of_nat n)) 255 :: to_be_bytes n x).
  rewrite from_be_bytes_cons IH Zlen_to_be_bytes byte_land Z.shiftr_div_pow2; [lia|].
  replace (8 * Z.of_nat (S n)) with (8 * Z.of_nat n + 8) by lia.
  rewrite Z.pow_add_r; [lia..|]. change (2 ^ 8) with 256.
  rewrite Z.rem_mul_r; lia.
Qed.

Lemma from_to_be_bytes n x :
  0 ≤ x < 2 ^ (8 * Z.of_nat n) → from_be_bytes (to_be_bytes n x) = x.
Proof. intros. rewrite from_to_be_bytes_mod. by apply Z.mod_small. Qed.

Lemma from_be_bytes_bound l : bytes l → 0 ≤ from_be_bytes l < 2 ^ (8 * Zlen l).
Proof.
  induction 1 as [|b l Hb Hl IH]; [by rewrite Zlen_nil|].
  rewrite from_be_bytes_cons Zlen_cons.
  replace (8 * (1 + Zlen l)) with (8 + 8 * Zlen l) by lia.
  rewrite Z.pow_add_r; [lia|pose proof (Zlen_nonneg l); lia|].
  change (2 ^ 8) with 256. rewrite /is_byte in Hb. nia.
Qed.

Lemma to_be_bytes_mod n x y :
  x mod 2 ^ (8 * Z.of_nat n) = y mod 2 ^ (8 * Z.of_nat n) → to_be_bytes n x = to_be_bytes n y.
Proof.
  revert x y. induction n as [|n IH]; intros x y Hxy; [done|].
  replace (8 * Z.of_nat (S n)) with (8 * Z.of_nat n + 8) in Hxy by lia.
  rewrite Z.pow_add_r in Hxy; [lia..|].
  assert (0 < 2 ^ (8 * Z.of_nat n)) as HA by (apply Z.pow_pos_nonneg; lia).
  change (2 ^ 8) with 256 in Hxy. rewrite !(Z.rem_mul_r _ _ 256) in Hxy; [lia..|].
  rewrite !(Z.add_comm (_ mod _)) in Hxy.
  apply Z.div_mod_unique in Hxy as [Hq Hr]; [|left; by apply Z.mod_pos_bound..].
  change (Z.land (Z.shiftr x (8 * Z.of_nat n)) 255 :: to_be_bytes n x =
          Z.land (Z.shiftr y (8 * Z.of_nat n)) 255 :: to_be_bytes n y).
  f_equal; [|by apply IH]. rewrite !byte_land !Z.shiftr_div_pow2; [lia..|exact Hq].
Qed.

Lemma to_from_be_bytes l : bytes l → to_be_bytes (length l) (from_be_bytes l) = l.
Proof.
  induction 1 as [|b l Hb Hl IH]; [done|]. simpl.
  change (to_be_bytes (S (length l)) ?x) with
    (Z.land (Z.shiftr x (8 * Zlen l)) 255 :: to_be_bytes (length l) x).
  rewrite from_be_bytes_cons. pose proof (from_be_bytes_bound l Hl).
  assert (0 < 2 ^ (8 * Zlen l)) by (apply Z.pow_pos_nonneg; pose proof (Zlen_nonneg l); lia).
  f_equal.
  - rewrite byte_land Z.shiftr_div_pow2; [pose proof (Zlen_nonneg l); lia|].
    rewrite Z.div_add_l; [lia|]. rewrite Z.div_small; [lia|].
    rewrite Z.add_0_r Z.mod_small; [done|]. by rewrite /is_byte in Hb.
  - trans (to_be_bytes (length l) (from_be_bytes l)); [|done].
    apply to_be_bytes_mod. rewrite -/(Zlen l) Z.add_comm Z.mod_add; lia.
Qed.

(** Reading a big-endian field of a concatenation of fields. *)
Ltac read_field :=
  repeat (rewrite slice_skip; [rewrite ?Zlen_to_be_bytes; lia|]);
  rewrite ?Zlen_to_be_bytes;
  lazymatch goal with
  | |- context [slice _ ?k _] => replace k with 0 by lia
  end;
  first [rewrite slice_here; [rewrite ?Zlen_to_be_bytes; lia|]
        |rewrite slice_all; [rewrite ?Zlen_to_be_bytes; lia|]];
  rewrite ?from_to_be_bytes.

(** ** Hexadecimal object names

    Object names are SHA-256 digests printed in lower-case hexadecimal
    ([format!("{:x}", ..)]) and parsed back by [indexed::decode]. *)
Definition ascii_val (c : Ascii.ascii) : Z := Z.of_N (Ascii.N_of_ascii c).
Definition ascii_of (z : Z) : Ascii.ascii := Ascii.ascii_of_N (Z.to_N z).
Definition hex_digit (d : Z) : Ascii.ascii :=
  if d <? 10 then ascii_of (48 + d) else ascii_of (87 + d).
Definition is_hex_lower (c : Ascii.ascii) : bool :=
  let v := ascii_val c in (48 <=? v) && (v <=? 57) || (97 <=? v) && (v <=? 102).
(** One digit of [u8::from_str_radix(_, 16)], on the characters [valid_hash]
    lets through. *)
Definition hex_val (c : Ascii.ascii) : Z :=
  let v := ascii_val c in if v <=? 57 then v - 48 else v - 87.

Fixpoint hex (l : list Z) : string :=
  match l with
  | [] => ""
  | b :: l' => String.String (hex_digit (b / 16)) (String.String (hex_digit (b mod 16)) (hex l'))
  end.
Fixpoint unhex (s : string) : list Z :=
  match s with
  | String.String a (String.String b s') => hex_val a * 16 + hex_val b :: unhex s'
  | _ => []
  end.
Fixpoint string_all (f : Ascii.ascii → bool) (s : string) : bool :=
  match s with
  | "" => true
  | String.String c s' => f c && string_all f s'
  end.

Definition valid_hash (s : string) : bool :=
  (String.length s =? 64)%nat && string_all is_hex_lower s.
Definition decode (s : string) : Result Error (list Z) :=
  if valid_hash s then Ok (unhex s) else Err Corrupt.

Definition is_ascii_alphanumeric (c : Ascii.ascii) : bool :=
  let v := ascii_val c in
  (48 <=? v) && (v <=? 57) || (65 <=? v) && (v <=? 90) || (97 <=? v) && (v <=? 122).
Definition valid_id (id : string) : bool :=
  negb (String.length id =? 0)%nat && (String.length id <=? 64)%nat
  && string_all (λ c, is_ascii_alphanumeric c || (ascii_val c =? 45) || (ascii_val c =? 95)) id.

Lemma ascii_val_of z : 0 ≤ z < 256 → ascii_val (ascii_of z) = z.
Proof.
  intros. rewrite /ascii_val /ascii_of Ascii.N_ascii_embedding; [lia|]. lia.
Qed.

Lemma ascii_of_val c : ascii_of (ascii_val c) = c.
Proof. by rewrite /ascii_val /ascii_of N2Z.id Ascii.ascii_N_embedding. Qed.

Lemma hex_val_digit d : 0 ≤ d < 16 → hex_val (hex_digit d) = d.
Proof.
  intros. rewrite /hex_digit /hex_val. case: Z.ltb_spec => ?.
  all: rewrite ascii_val_of; [lia|]; case: Z.leb_spec; lia.
Qed.

Lemma hex_lower_digit d : 0 ≤ d < 16 → is_hex_lower (hex_digit d) = true.
Proof.
  intros. rewrite /hex_digit /is_hex_lower.
  case: Z.ltb_spec => ?; rewrite ascii_val_of; [lia|cbv zeta; lia|lia|cbv zeta; lia].
Qed.

Lemma hex_digit_val c :
  is_hex_lower c = true → hex_digit (hex_val c) = c ∧ 0 ≤ hex_val c < 16.
Proof.
  rewrite /is_hex_lower /hex_digit /hex_val. cbv zeta => Hc. split.
  - trans (ascii_of (ascii_val c)); [|apply ascii_of_val].
    repeat case_match; try lia; f_equal; lia.
  - repeat case_match; lia.
Qed.

Lemma unhex_hex l : bytes l → unhex (hex l) = l.
Proof.
  induction 1 as [|b l Hb Hl IH]; [done|]. rewrite /is_byte in Hb. simpl.
  rewrite IH !hex_val_digit; [dlia..|]. f_equal. dlia.
Qed.

Lemma length_hex l : String.length (hex l) = (2 * length l)%nat.
Proof. induction l as [|b l IH]; [done|]. simpl. rewrite IH. lia. Qed.

Lemma hex_all l : bytes l → string_all is_hex_lower (hex l) = true.
Proof.
  induction 1 as [|b l Hb Hl IH]; [done|]. rewrite /is_byte in Hb. simpl.
  rewrite IH !hex_lower_digit //; dlia.
Qed.

Lemma valid_hash_hex l : bytes l → length l = 32%nat → valid_hash (hex l) = true.
Proof. intros Hb Hl. by rewrite /valid_hash length_hex Hl hex_all. Qed.

Lemma hex_unhex_even n s :
  String.length s = (2 * n)%nat → string_all is_hex_lower s = true →
  hex (unhex s) = s ∧ length (unhex s) = n ∧ bytes (unhex s).
Proof.
  revert s. induction n as [|n IH]; intros [|a [|b s]] Hlen Hs; simpl in *; try lia.
  { repeat split. constructor. }
  apply andb_prop in Hs as [Ha Hs]. apply andb_prop in Hs as [Hb Hs].
  destruct (IH s) as (Hh & Hl & Hby); [lia|done|].
  apply hex_digit_val in Ha as [Ha ?], Hb as [Hb ?].
  repeat split; [|lia|].
  - rewrite Hh. f_equal; [|f_equal]; [rewrite -{2}Ha|rewrite -{2}Hb]; f_equal; dlia.
  - constructor; [|done]. rewrite /is_byte. lia.
Qed.

Lemma hex_decode s h : decode s = Ok h → hex h = s ∧ length h = 32%nat ∧ bytes h.
Proof.
  rewrite /decode /valid_hash. case_match eqn:E; [|done]. intros [= <-].
  apply andb_prop in E as [Hl%Nat.eqb_eq Hs]. by apply (hex_unhex_even 32).
Qed.

Lemma decode_hex l : bytes l → length l = 32%nat → decode (hex l) = Ok l.
Proof. intros. rewrite /decode valid_hash_hex // unhex_hex //. Qed.

Lemma decode_valid s : valid_hash s = true → ∃ h, decode s = Ok h ∧ hex h = s ∧
  length h = 32%nat ∧ bytes h.
Proof.
  intros Hv. exists (unhex s). assert (decode s = Ok (unhex s)) as Hd by by rewrite /decode Hv.
  split; [done|]. by apply hex_decode.
Qed.

(** ** Content digests *)
Class Sha256 := sha256 : list Z → list Z.
(** The documented output of SHA-256: thirty-two bytes, not all of them zero
    (an all-zero digest marks an empty slot of an index page; no preimage of it
    is known). *)
Class Sha256Laws `{!Sha256} : Prop := {
  sha256_length b : length (sha256 b) = 32%nat;
  sha256_bytes b : bytes (sha256 b);
  sha256_nonzero b : all_zero (sha256 b) = false;
}.

Section digest.
Context {SHA : Sha256}.
(** [format!("{:x}", Sha256::digest(bytes))] *)
Definition digest (b : list Z) : string := hex (sha256 b).

Context {SHAL : Sha256Laws}.
Lemma valid_hash_digest b : valid_hash (digest b) = true.
Proof. apply valid_hash_hex; [apply sha256_bytes|apply sha256_length]. Qed.

Lemma decode_digest b : decode (digest b) = Ok (sha256 b).
Proof. apply decode_hex; [apply sha256_bytes|apply sha256_length]. Qed.

Lemma digest_inj_sha b b' : digest b = digest b' → sha256 b = sha256 b'.
Proof.
  intros H%(f_equal decode). rewrite !decode_digest in H. by injection H.
Qed.
End digest.
