(* ===== verification/ObjectStore.v ===== *)
(** The [ObjectStore] trait of [ahvm-volume/src/lib.rs]: the operations a volume
    calls on remote storage, what their documentation promises (the laws of
    [ObjectStoreLaws] and, for a store that is up, [ReliableStore]), the trait's
    default methods, and a reference implementation with fault injection that
    satisfies both and on which the development's examples run. *)
From S2P Require Import Prelude Codec.

Record Head := mkHead { revision : string; manifest : list Z }.

#[export] Instance Head_eq_dec : EqDecision Head.
Proof. solve_decision. Defined.

(** The trait.  [S] is everything the methods read and change: the remote
    service, the adapter and the host's clock.  [cancelled] is the caller's
    cancellation closure and [past_deadline] the comparison
    [Instant::now() >= end]: both only observe the outside world. *)
Class ObjectStore (S : Type) := {
  base_chunk : string → string → option Z → M Error S (list Z);
  prefetch_base : string → list string → S → S;
  prefetch : string → list string → S → S;
  cached_chunk : string → string → S → option (list Z);
  list_chunks_after : string → option string → Z → M Error S (list string);
  delete_chunk : string → string → M Error S unit;
  head : string → M Error S (option Head);
  chunk : string → string → M Error S (list Z);
  put_chunk : string → string → list Z → M Error S unit;
  publish : string → option string → list Z → M Error S string;
  cancelled : S → bool * S;
  past_deadline : S → bool * S;
}.

Section default_methods.
Context {S : Type} {OS : ObjectStore S}.

(** [check_cancel(cancel)?]; the closure only observes the outside world. *)
Definition check_cancel (cancel : S → bool * S) : M Error S unit := λ s,
  let '(c, s') := cancel s in
  if c then (Err Deadline, s') else (Ok tt, s').
(** [deadline(end)?] *)
Definition deadline : M Error S unit := λ s,
  let '(c, s') := past_deadline s in
  if c then (Err Deadline, s') else (Ok tt, s').

Definition put_chunk_cancellable (volume d : string) (b : list Z) (cancel : S → bool * S) : M Error S unit :=
  check_cancel cancel;; put_chunk volume d b;; check_cancel cancel.
Definition publish_cancellable (volume : string) (expected : option string) (m : list Z) (cancel : S → bool * S)
  : M Error S string :=
  check_cancel cancel;; publish volume expected m.

(** The fallback of [delete_chunks]: eight workers, worker [w] deleting the
    hashes [w], [w + 8], ... and stopping at its first error; the last worker
    that failed gives the result.  The workers touch disjoint objects, so
    their interleaving does not matter and they run one after the other. *)
Fixpoint stride {A} (step : nat) (skip : nat) (l : list A) : list A :=
  match l with
  | [] => []
  | x :: l' =>
      match skip with
      | O => x :: stride step (step - 1) l'
      | Datatypes.S k => stride step k l'
      end
  end.
(** [let mut result = Ok(()); for w in workers { if let Err(e) = w.join() { result = Err(e) } }] *)
Definition join_workers (ws : list (M Error S unit)) : M Error S unit :=
  r ← foldM (λ r w, r' ← try_ w;
               mret (match r' with Ok _ => r | Err e => Err e end)) (Ok tt) ws;
  of_result r.
Definition delete_chunks (volume : string) (hashes : list string) : M Error S unit :=
  if negb (valid_id volume) || (1000 <? Zlen hashes)
     || existsb (λ h, negb (is_ok (decode h))) hashes
  then fail InvalidInput
  else join_workers
         ((λ w, for_each (stride 8 w hashes) (λ h, delete_chunk volume h))
            <$> seq 0 (Nat.min 8 (length hashes))).
End default_methods.

(** *** Workers over a strided list *)
Lemma elem_of_stride_sub {A} step skip (l : list A) x : x ∈ stride step skip l → x ∈ l.
Proof.
  revert skip. induction l as [|y l IH]; intros skip; [done|]. simpl. destruct skip as [|k].
  - intros [->|Hx]%elem_of_cons; [by left|right; by eapply IH].
  - intros Hx. right. by eapply IH.
Qed.

Lemma stride_covers {A} step (l : list A) k x : (0 < step)%nat → l !! k = Some x →
  x ∈ stride step (k mod step)%nat l.
Proof.
  intros Hst. assert (∀ n skip k, l !! k = Some x → k = (skip + n * step)%nat → x ∈ stride step skip l) as H.
  { clear k. induction l as [|y l IH]; intros n skip k Hk E; [done|]. simpl. destruct skip as [|skip].
    - destruct n as [|n]; [subst k; simpl in Hk; injection Hk as ->; by left|].
      right. destruct k as [|k]; [simpl in E; lia|]. simpl in Hk. apply (IH n (step - 1)%nat k Hk). simpl in E. lia.
    - destruct k as [|k]; [lia|]. simpl in Hk. apply (IH n skip k Hk). lia. }
  intros Hk. apply (H (k / step)%nat (k mod step)%nat k Hk). pose proof (Nat.div_mod k step ltac:(lia)). lia.
Qed.

(** Joined workers: what every worker does of its share, all of them do of the list;
    whatever happens, the state moves along [R]. *)
Lemma wp_strided {S A} (job : list A → M Error S unit) (n : nat) (l : list A) (s : S) (R : S → S → Prop) (D : A → S → Prop) :
  (0 < n)%nat → (∀ s, R s s) → (∀ s1 s2 s3, R s1 s2 → R s2 s3 → R s1 s3) → (∀ x s s', R s s' → D x s → D x s') →
  (∀ l' s, (∀ x, x ∈ l' → x ∈ l) → wp (job l') s (λ r s', R s s' ∧ match r with Ok _ => ∀ x, x ∈ l' → D x s' | Err _ => True end)) →
  wp (join_workers ((λ w, job (stride n w l)) <$> seq 0 (Nat.min n (length l)))) s
    (λ r s', R s s' ∧ match r with Ok _ => ∀ x, x ∈ l → D x s' | Err _ => True end).
Proof.
  intros Hn Hrefl Htrans Hkeep Hjob. rewrite /join_workers.
  wp_step. apply (wp_foldM _ _ _ _ (λ (acc : Result Error unit) rest s',
    ∃ k : nat, rest = (λ w, job (stride n w l)) <$> seq k (Nat.min n (length l) - k) ∧
    R s s' ∧ (acc = Ok tt → ∀ w x, (w < k)%nat → x ∈ stride n w l → D x s'))).
  - exists 0%nat. rewrite Nat.sub_0_r. split; [done|]. split; [done|]. lia.
  - intros acc m rest s1 (k & Hrest & Hu & Hst).
    destruct (Nat.min n (length l) - k)%nat as [|d] eqn:Hd; [done|]. simpl in Hrest. injection Hrest as -> ->.
    wp_step. wp_step. eapply wp_mono; [apply Hjob; intros x; apply elem_of_stride_sub|].
    intros r s2 [Hu2 H2]. cbn beta iota. wp_step. exists (Datatypes.S k). split; [do 2 f_equal; lia|].
    split; [by eapply Htrans|]. destruct r as [[]|e]; [|done]. intros Hacc w x Hw Hx.
    destruct (decide (w = k)) as [->|]; [by apply H2|]. eapply Hkeep; [exact Hu2|]. eapply Hst; [done| |exact Hx]. lia.
  - intros acc s' (k & Hrest & Hu & Hst). wp_step. split; [done|]. destruct acc as [[]|e]; [|done].
    intros x [i Hi]%list_elem_of_lookup. destruct (Nat.min n (length l) - k)%nat eqn:Hd; [|done].
    pose proof (lookup_lt_Some _ _ _ Hi). eapply (Hst eq_refl (i mod n)%nat); [|by apply stride_covers].
    pose proof (Nat.mod_upper_bound i n ltac:(lia)). pose proof (Nat.Div0.mod_le i n). lia.
Qed.

(** Workers that cannot fail. *)
Lemma wp_join_ok {S} (ws : list (M Error S unit)) (s : S) (I : S → Prop) :
  I s → (∀ m s, m ∈ ws → I s → wp m s (λ r s', r = Ok tt ∧ I s')) → wp (join_workers ws) s (λ r s', r = Ok tt ∧ I s').
Proof.
  intros Hs Hm. rewrite /join_workers. wp_step.
  apply (wp_foldM _ _ _ _ (λ (acc : Result Error unit) rest s', acc = Ok tt ∧ I s' ∧ ∀ m, m ∈ rest → m ∈ ws)).
  - done.
  - intros acc m rest s1 (-> & Hi & Hin). wp_step. wp_step. eapply wp_mono; [apply Hm; [apply Hin; by left|done]|].
    intros r s2 [-> H2]. cbn beta iota. wp_step. split; [done|]. split; [done|]. intros m' Hm'. apply Hin. by right.
  - intros acc s1 (-> & Hi & _). by wp_step.
Qed.

(** Publication replies that leave the outcome open. *)
Definition publication_error (e : Error) : Error :=
  match e with Conflict => Conflict | _ => Uncertain end.

(** What is durable at the store: objects by volume and digest, one head per
    volume, and the objects of the immutable base images. *)
Class StoreView (S : Type) := {
  objects : S → gmap (string * string) (list Z);
  heads : S → gmap string Head;
  base_objects : S → gmap (string * string) (list Z);
}.

Definition same_view {S} `{!StoreView S} (s s' : S) : Prop :=
  objects s' = objects s ∧ heads s' = heads s ∧ base_objects s' = base_objects s.

#[export] Instance same_view_equiv {S} `{!StoreView S} : Equivalence (@same_view S _).
Proof.
  rewrite /same_view. split; [done|by intros ?? (->&->&->)|].
  by intros ??? (->&->&->) (->&->&->).
Qed.

(** The outcome of a conditional head replacement, whatever the reply (an
    adapter that cannot read the new revision out of the reply reports [""]). *)
Definition published {S} `{!StoreView S} (s s' : S) (id : string)
    (expected : option string) (rev : string) (m : list Z) : Prop :=
  revision <$> heads s !! id = expected ∧ rev ≠ "" ∧
  heads s' = <[id := mkHead rev m]> (heads s).

(** The documented contract.  Every clause says what any reply, errors included,
    tells about the durable state.  Bytes a store returns are not trusted: the
    callers recompute the digest, and the [genuine] clauses say only that bytes
    with the requested digest are the bytes that were stored under it (the
    store cannot exhibit a SHA-256 collision with a stored object). *)
Class ObjectStoreLaws (S : Type) {SHA : Sha256} {OS : ObjectStore S} {SV : StoreView S} : Prop := {
  head_law s id : wp (head id) s (λ r s', same_view s s' ∧
    match r with Ok h => h = heads s !! id | Err _ => True end);
  chunk_law s id d : wp (chunk id d) s (λ r s', same_view s s' ∧
    match r with Ok b => digest b = d → objects s !! (id, d) = Some b | Err _ => True end);
  base_chunk_law s image d at_ : wp (base_chunk image d at_) s (λ r s', same_view s s' ∧
    match r with Ok b => digest b = d → base_objects s !! (image, d) = Some b | Err _ => True end);
  cached_chunk_law s id d b :
    cached_chunk id d s = Some b → digest b = d → objects s !! (id, d) = Some b;
  prefetch_law s id ds : same_view s (prefetch id ds s);
  prefetch_base_law s image ds : same_view s (prefetch_base image ds s);
  put_chunk_law s id d b : wp (put_chunk id d b) s (λ r s',
    heads s' = heads s ∧ base_objects s' = base_objects s ∧
    match r with
    | Ok _ => objects s' = <[(id, d) := b]> (objects s) ∧
              (∀ b0, objects s !! (id, d) = Some b0 → b0 = b)
    | Err _ => objects s' = objects s ∨
               objects s !! (id, d) = None ∧ objects s' = <[(id, d) := b]> (objects s)
    end);
  publish_law s id expected m : wp (publish id expected m) s (λ r s',
    objects s' = objects s ∧ base_objects s' = base_objects s ∧
    match r with
    | Ok rev => ∃ rev', published s s' id expected rev' m ∧ (rev = "" ∨ rev = rev')
    | Err Deadline => heads s' = heads s
    | Err _ => heads s' = heads s ∨ ∃ rev, published s s' id expected rev m
    end);
  list_law s id after limit : wp (list_chunks_after id after limit) s (λ r s', same_view s s');
  delete_chunk_law s id d : wp (delete_chunk id d) s (λ r s',
    heads s' = heads s ∧ base_objects s' = base_objects s ∧
    match r with
    | Ok _ => objects s' = delete (id, d) (objects s)
    | Err _ => objects s' = objects s ∨ objects s' = delete (id, d) (objects s)
    end);
  cancelled_law s : same_view s (cancelled s).2;
  past_deadline_law s : same_view s (past_deadline s).2;
}.

(** A store that is up: nothing fails for a reason outside the request. *)
Class ReliableStore (S : Type) {OS : ObjectStore S} {SV : StoreView S} (up : S → Prop) : Prop := {
  up_head s id : up s → wp (head id) s (λ r s', r = Ok (heads s !! id) ∧ up s');
  up_chunk s id d b : up s → objects s !! (id, d) = Some b →
    wp (chunk id d) s (λ r s', r = Ok b ∧ up s');
  up_base_chunk s image d at_ b : up s → base_objects s !! (image, d) = Some b →
    wp (base_chunk image d at_) s (λ r s', r = Ok b ∧ up s');
  up_put_chunk s id d b : up s → (∀ b0, objects s !! (id, d) = Some b0 → b0 = b) →
    wp (put_chunk id d b) s (λ r s', r = Ok tt ∧ up s');
  up_publish s id expected m : up s → revision <$> heads s !! id = expected →
    wp (publish id expected m) s (λ r s', (∃ rev, r = Ok rev ∧ rev ≠ "") ∧ up s');
  up_prefetch s id ds : up s → up (prefetch id ds s);
  up_prefetch_base s image ds : up s → up (prefetch_base image ds s);
  up_cancelled s : up s → (cancelled s).1 = false ∧ up (cancelled s).2;
  up_past_deadline s : up s → (past_deadline s).1 = false ∧ up (past_deadline s).2;
}.

Section derived_laws.
Context {S : Type} {SHA : Sha256} {OS : ObjectStore S} {SV : StoreView S}.
Context {OSL : ObjectStoreLaws S}.

(** A closure that leaves the store as it is. *)
Definition observes (cancel : S → bool * S) : Prop := ∀ s, same_view s (cancel s).2.

Lemma check_cancel_law cancel s : observes cancel → wp (check_cancel cancel) s (λ r s', same_view s s').
Proof.
  intros Hc. specialize (Hc s). rewrite /wp /check_cancel. by destruct (cancel s) as [[] s'].
Qed.

Lemma deadline_law s : wp deadline s (λ r s', same_view s s').
Proof.
  pose proof (past_deadline_law s). rewrite /wp /deadline.
  by destruct (past_deadline s) as [[] s'].
Qed.

Lemma published_view s s1 s' id expected rev m :
  same_view s s1 → published s1 s' id expected rev m → published s s' id expected rev m.
Proof. rewrite /same_view /published. by intros (_ & -> & _). Qed.

Lemma put_chunk_cancellable_law cancel s id d b : observes cancel → wp (put_chunk_cancellable id d b cancel) s (λ r s',
  heads s' = heads s ∧ base_objects s' = base_objects s ∧
  match r with
  | Ok _ => objects s' = <[(id, d) := b]> (objects s) ∧
            (∀ b0, objects s !! (id, d) = Some b0 → b0 = b)
  | Err _ => objects s' = objects s ∨ objects s' = <[(id, d) := b]> (objects s) ∧
            (∀ b0, objects s !! (id, d) = Some b0 → b0 = b)
  end).
Proof.
  intros Hc. rewrite /put_chunk_cancellable. wp_step. eapply wp_mono; [by apply check_cancel_law|].
  intros [[]|e] s1 (Ho & Hh & Hb); [|by auto].
  wp_step. eapply wp_mono; [apply put_chunk_law|].
  intros [[]|e] s2 (Hh2 & Hb2 & H2); rewrite Ho Hh Hb in Hh2, Hb2, H2.
  - eapply wp_mono; [by apply check_cancel_law|].
    intros [[]|e] s3 (Ho3 & -> & ->); rewrite Ho3; auto.
  - destruct H2 as [H2|[H2 ?]]; rewrite Hh2 Hb2; repeat split; auto.
    right. split; [done|]. intros b0. by rewrite H2.
Qed.

Lemma publish_cancellable_law cancel s id expected m : observes cancel →
  wp (publish_cancellable id expected m cancel) s (λ r s',
  objects s' = objects s ∧ base_objects s' = base_objects s ∧
  match r with
  | Ok rev => ∃ rev', published s s' id expected rev' m ∧ (rev = "" ∨ rev = rev')
  | Err Deadline => heads s' = heads s
  | Err _ => heads s' = heads s ∨ ∃ rev, published s s' id expected rev m
  end).
Proof.
  intros Hc. rewrite /publish_cancellable. wp_step. eapply wp_mono; [by apply check_cancel_law|].
  intros [[]|e] s1 (Ho & Hh & Hb); [|repeat split; auto; by destruct e; auto].
  eapply wp_mono; [apply publish_law|]. intros r s2 (Ho2 & Hb2 & H2).
  rewrite /published Ho Hh Hb in Ho2, Hb2, H2 |- *. auto.
Qed.

(** *** Deletion *)
(** Objects of the list are gone or still there; nothing else changed. *)
Definition prunes (id : string) (gs : list string) (s s' : S) : Prop :=
  heads s' = heads s ∧ base_objects s' = base_objects s ∧
  ∀ k, objects s' !! k = objects s !! k ∨ objects s' !! k = None ∧ k.1 = id ∧ k.2 ∈ gs.

Lemma prunes_view id gs s s' : same_view s s' → prunes id gs s s'.
Proof. intros (Ho & Hh & Hb). split; [done|]. split; [done|]. intros k. left. by rewrite Ho. Qed.
Lemma prunes_trans id gs s1 s2 s3 : prunes id gs s1 s2 → prunes id gs s2 s3 → prunes id gs s1 s3.
Proof.
  intros (H1 & B1 & O1) (H2 & B2 & O2). split; [congruence|]. split; [congruence|]. intros k.
  destruct (O2 k) as [E2|?]; [|by right]. rewrite E2. apply O1.
Qed.
Lemma prunes_gone id gs s s' k : prunes id gs s s' → objects s !! k = None → objects s' !! k = None.
Proof. intros (_ & _ & Ho) Hk. destruct (Ho k) as [->|[? _]]; done. Qed.
Lemma prunes_mono id gs gs' s s' : gs ⊆ gs' → prunes id gs s s' → prunes id gs' s s'.
Proof. intros Hg (H & B & O). split; [done|]. split; [done|]. intros k. destruct (O k) as [?|(? & ? & ?)]; [by left|right; auto]. Qed.
Lemma prunes_sub id gs s s' : prunes id gs s s' → objects s' ⊆ objects s.
Proof. intros (_ & _ & Ho). apply map_subseteq_spec. intros k b Hk. destruct (Ho k) as [<-|[E _]]; [done|]. by rewrite Hk in E. Qed.

Lemma delete_chunk_spec s id h gs : h ∈ gs → wp (delete_chunk id h) s (λ r s', prunes id gs s s' ∧
  match r with Ok _ => objects s' !! (id, h) = None | Err _ => True end).
Proof.
  intros Hh. eapply wp_mono; [apply delete_chunk_law|]. intros r s' (Hhd & Hb & Ho).
  assert (objects s' = delete (id, h) (objects s) → prunes id gs s s') as Hdel.
  { intros E. split; [done|]. split; [done|]. intros k. rewrite E. destruct (decide (k = (id, h))) as [->|Hne].
    - right. by rewrite lookup_delete_eq.
    - left. by rewrite lookup_delete_ne. }
  destruct r as [u|x].
  - split; [by apply Hdel|]. by rewrite Ho lookup_delete_eq.
  - split; [|done]. destruct Ho as [E|E]; [by apply prunes_view|by apply Hdel].
Qed.

Lemma delete_chunks_spec s id gs : wp (delete_chunks id gs) s (λ r s', prunes id gs s s' ∧
  match r with Ok _ => ∀ h, h ∈ gs → objects s' !! (id, h) = None | Err _ => True end).
Proof.
  rewrite /delete_chunks. wp_step; [apply wp_fail; split; [by apply prunes_view|done]|].
  apply (wp_strided (λ l, for_each l (λ h, delete_chunk id h)) 8 gs s (prunes id gs) (λ h s', objects s' !! (id, h) = None));
    [lia|intros; by apply prunes_view|apply prunes_trans|by intros; eapply prunes_gone|].
  intros l s1 Hl. apply (wp_for_each _ _ _ (λ rest s', prunes id gs s1 s' ∧ (∀ h, h ∈ rest → h ∈ gs) ∧
    ∀ h, h ∈ l → h ∈ rest ∨ objects s' !! (id, h) = None)).
  - split; [by apply prunes_view|]. split; [done|]. by left.
  - intros h rest s2 (Hp & Hin & Hd). eapply wp_mono; [apply delete_chunk_spec, Hin; by left|].
    intros [u|x] s3 [Hp3 H3]; (split; [by eapply prunes_trans|]); [|done]. split; [intros; apply Hin; by right|].
    intros h' [Hr|Hn]%Hd; [|right; by eapply prunes_gone]. apply elem_of_cons in Hr as [->|]; [by right|by left].
  - intros s2 (Hp & _ & Hd). split; [done|]. intros h [?%not_elem_of_nil|]%Hd; done.
Qed.
End derived_laws.

(** ** A reference store

    An in-memory implementation of the trait's contract: immutable objects are
    only ever replaced by identical bytes and heads by compare-and-swap.
    [mem_faults] injects, one per mutating request, a request that never
    arrived or a lost reply; [mem_clock] injects cancellations. *)
Module Memory.
Inductive Fault : Type := Refused | LostReply.
Record Mem := mkMem {
  mem_objects : gmap (string * string) (list Z);
  mem_heads : gmap string Head;
  mem_base : gmap (string * string) (list Z);
  mem_next : N;
  mem_faults : list (option Fault);
  mem_clock : list bool;
}.
Definition empty : Mem := mkMem ∅ ∅ ∅ 0 [] [].

Definition pop_fault (s : Mem) : option Fault * Mem :=
  match mem_faults s with
  | [] => (None, s)
  | f :: fs => (f, mkMem (mem_objects s) (mem_heads s) (mem_base s) (mem_next s) fs (mem_clock s))
  end.
Definition pop_clock (s : Mem) : bool * Mem :=
  match mem_clock s with
  | [] => (false, s)
  | c :: cs => (c, mkMem (mem_objects s) (mem_heads s) (mem_base s) (mem_next s) (mem_faults s) cs)
  end.
Definition with_objects (o : gmap (string * string) (list Z)) (s : Mem) : Mem :=
  mkMem o (mem_heads s) (mem_base s) (mem_next s) (mem_faults s) (mem_clock s).

Definition put (id d : string) (b : list Z) : M Error Mem unit := λ s,
  let '(f, s) := pop_fault s in
  match f with
  | Some Refused => (Err Store, s)
  | _ =>
      match mem_objects s !! (id, d) with
      | Some b0 =>
          if decide (b0 = b)
          then (match f with None => Ok tt | _ => Err Store end, s)
          else (Err Corrupt, s)
      | None =>
          (match f with None => Ok tt | _ => Err Store end,
           with_objects (<[(id, d) := b]> (mem_objects s)) s)
      end
  end.
Definition cas (id : string) (expected : option string) (m : list Z) : M Error Mem string := λ s,
  let '(f, s) := pop_fault s in
  match f with
  | Some Refused => (Err Uncertain, s)
  | _ =>
      if decide (revision <$> mem_heads s !! id = expected) then
        let rev := ("r" +:+ pretty (mem_next s))%string in
        (match f with None => Ok rev | _ => Err Uncertain end,
         mkMem (mem_objects s) (<[id := mkHead rev m]> (mem_heads s)) (mem_base s)
               (N.succ (mem_next s)) (mem_faults s) (mem_clock s))
      else (Err Conflict, s)
  end.
Definition find (o : gmap (string * string) (list Z)) (id d : string) : Result Error (list Z) :=
  match o !! (id, d) with Some b => Ok b | None => Err Corrupt end.
Definition string_le (a b : string) : Prop := String.leb a b = true.
#[export] Instance string_le_dec a b : Decision (string_le a b) := bool_eq_dec _ _.
Definition listing (id : string) (after : option string) (limit : Z) (s : Mem) : list string :=
  take (Z.to_nat limit)
    (merge_sort string_le
      (snd <$> filter (λ k, k.1 = id ∧ match after with
                                       | Some a => String.ltb a k.2
                                       | None => true
                                       end = true)
                 (fst <$> map_to_list (mem_objects s)))).
Definition remove (id d : string) : M Error Mem unit := λ s,
  let '(f, s) := pop_fault s in
  match f with
  | Some Refused => (Err Store, s)
  | _ => (match f with None => Ok tt | _ => Err Store end,
          with_objects (delete (id, d) (mem_objects s)) s)
  end.

#[export] Instance mem_store : ObjectStore Mem := {
  base_chunk image d _ := λ s, (find (mem_base s) image d, s);
  prefetch_base _ _ := id;
  prefetch _ _ := id;
  cached_chunk _ _ _ := None;
  list_chunks_after id after limit := λ s, (Ok (listing id after limit s), s);
  delete_chunk := remove;
  head id := λ s, (Ok (mem_heads s !! id), s);
  chunk id d := λ s, (find (mem_objects s) id d, s);
  put_chunk := put;
  publish := cas;
  cancelled := pop_clock;
  past_deadline := pop_clock;
}.
#[export] Instance mem_view : StoreView Mem := {
  objects := mem_objects; heads := mem_heads; base_objects := mem_base
}.

Lemma pop_fault_view s : same_view s (pop_fault s).2.
Proof. rewrite /pop_fault. by destruct (mem_faults s). Qed.
Lemma pop_clock_view s : same_view s (pop_clock s).2.
Proof. rewrite /pop_clock. by destruct (mem_clock s). Qed.

(** Start a law by the fault the request meets. *)
Ltac meet_fault s :=
  pose proof (pop_fault_view s) as (Hpo & Hph & Hpb); simpl in Hpo, Hph, Hpb;
  destruct (pop_fault s) as [[[]|] s1] eqn:Hpop; simpl in *.

#[export] Instance mem_laws {SHA : Sha256} : ObjectStoreLaws Mem.
Proof.
  split; rewrite /wp /=.
  - done.
  - intros s id d. split; [done|]. rewrite /find. by destruct (mem_objects s !! _).
  - intros s id d _. split; [done|]. rewrite /find. by destruct (mem_base s !! _).
  - done.
  - done.
  - done.
  - intros s id d b. rewrite /put. meet_fault s.
    + rewrite Hpo. auto.
    + rewrite -Hpo. destruct (mem_objects s1 !! (id, d)) eqn:Hk; [case_decide|]; simpl; auto.
    + rewrite -Hpo. destruct (mem_objects s1 !! (id, d)) eqn:Hk; [case_decide|]; simpl; auto.
      * subst. repeat split; auto; [by rewrite insert_id|by intros ? [= <-]].
      * done.
  - intros s id exp m. rewrite /cas /published /=. meet_fault s.
    + rewrite Hpo. auto.
    + rewrite -Hph. case_decide; simpl; repeat split; auto. right.
      eexists. split; [done|]. by split; [|reflexivity].
    + rewrite -Hph. case_decide; simpl; repeat split; auto.
      eexists. split; [|by right]. split; [done|]. by split; [|reflexivity].
  - done.
  - intros s id d. rewrite /remove. meet_fault s; rewrite -?Hpo; auto.
  - apply pop_clock_view.
  - apply pop_clock_view.
Qed.

(** Without injected faults the reference store is up. *)
Definition calm (s : Mem) : Prop := mem_faults s = [] ∧ mem_clock s = [].
#[export] Instance mem_reliable : ReliableStore Mem calm.
Proof.
  split; rewrite /wp /=; try done.
  - intros s id d b ? Hk. by rewrite /find Hk.
  - intros s id d _ b ? Hk. by rewrite /find Hk.
  - intros s id d b [Hf Hc] Hk. rewrite /put /pop_fault Hf.
    destruct (mem_objects s !! (id, d)) eqn:E; simpl; [|done].
    rewrite decide_True; [by apply Hk|done].
  - intros s id exp m [Hf Hc] Hk. rewrite /cas /pop_fault Hf decide_True //=.
    split; [|done]. by eexists.
  - intros s [Hf Hc]. by rewrite /pop_clock Hc.
  - intros s [Hf Hc]. by rewrite /pop_clock Hc.
Qed.
End Memory.

(** ** serde_json

    The JSON text codec is the [serde_json] crate with derived implementations:
    a parameter, with the documented round trip as law. *)
Class Json (A : Type) := {
  to_vec : A → option (list Z);
  from_slice : list Z → option A;
}.
Class JsonLaws (A : Type) {J : Json A} : Prop :=
  json_roundtrip (a : A) b : to_vec a = Some b → from_slice b = Some a.

(** A codec for examples: the bits of [stdpp]'s encoding of countable types. *)
Module BitJson.
Fixpoint bits (p : positive) : list Z :=
  match p with xH => [] | xO p => 48 :: bits p | xI p => 49 :: bits p end.
Fixpoint unbits (l : list Z) : positive :=
  match l with
  | [] => xH
  | b :: l => if b =? 48 then xO (unbits l) else xI (unbits l)
  end.
Lemma unbits_bits p : unbits (bits p) = p.
Proof. induction p; simpl; congruence. Qed.
Definition bit_json A `{Countable A} : Json A := {|
  to_vec a := Some (bits (encode a));
  from_slice l := countable.decode (unbits l);
|}.
Lemma bit_json_laws A `{Countable A} : @JsonLaws A (bit_json A).
Proof. intros a b [= <-]. simpl. rewrite unbits_bits. apply decode_encode. Qed.
End BitJson.

(** Run a store operation of a handle whose state is paired with the store. *)
Definition on_store {V S A} (m : M Error S A) : M Error (V * S) A :=
  zoom snd (λ s t, (t.1, s)) m.
Definition set_handle {V S} (v : V) : M Error (V * S) unit := modify (λ t, (v, t.2)).

Lemma wp_on_store {V S A} (m : M Error S A) (v : V) (s : S) Q :
  wp m s (λ r s', Q r (v, s')) → wp (on_store m) (v, s) Q.
Proof. intros H. by apply wp_zoom. Qed.

(** Objects are never lost or changed by uploads. *)
Lemma objects_insert_sub {S} `{!StoreView S} (s s' : S) k b :
  objects s' = <[k := b]> (objects s) → (∀ b0, objects s !! k = Some b0 → b0 = b) →
  objects s ⊆ objects s'.
Proof.
  intros -> Hk. apply map_subseteq_spec. intros k' b' Hb'.
  destruct (decide (k = k')) as [<-|]; [|by rewrite lookup_insert_ne].
  rewrite lookup_insert_eq. f_equal. symmetry. auto.
Qed.

(** A digest for examples, with the output format of SHA-256: it tells blocks
    apart by their first byte. *)
Module ToySha.
Definition toy : Sha256 := λ b, 1 :: replicate 31 (Z.land (index b 0) 255).
Lemma toy_laws : @Sha256Laws toy.
Proof.
  split; intros b; [done| |done]. constructor; [done|]. apply Forall_replicate.
  rewrite byte_land /is_byte. dlia.
Qed.
End ToySha.
