(* ===== verification/Blocks.v ===== *)
(** The abstract disk and the chunked copy loops.  A volume promises a flat array
    of bytes; it keeps 64-KiB blocks.  [Disk] is the promise, [of_blocks] the
    flat array a block function denotes, and [read_loop]/[write_loop] are the
    two [while] loops that [Volume], [IndexedVolume] and [LocalDisk] share, with
    the lemmas that relate them to [Disk]. *)
From S2P Require Import Prelude Codec.

Definition Disk : Type := Z → Z.
Definition disk_read (d : Disk) (offset len : Z) : list Z :=
  (λ i, d (offset + Z.of_nat i)) <$> seq 0 (Z.to_nat len).
Definition disk_write (d : Disk) (offset : Z) (input : list Z) : Disk := λ p,
  if decide (offset ≤ p < offset + Zlen input) then index input (p - offset) else d p.
Definition zero_disk : Disk := λ _, 0.
Definition of_blocks (f : Z → list Z) : Disk := λ p,
  index (f (p / CHUNK_BYTES)) (p mod CHUNK_BYTES).

(** Two disks of a volume agree when they agree on its bytes. *)
Definition disk_eq (size : Z) (d d' : Disk) : Prop := ∀ p, 0 ≤ p < size → d p = d' p.

#[export] Instance disk_eq_equiv size : Equivalence (disk_eq size).
Proof.
  split; [done|by intros ?? H p ?; rewrite H|].
  intros ??? H1 H2 p Hp. by rewrite H1 ?H2.
Qed.

Lemma Zlen_disk_read d offset len : 0 ≤ len → Zlen (disk_read d offset len) = len.
Proof. rewrite /Zlen /disk_read length_fmap length_seq. lia. Qed.

Lemma index_disk_read d offset len i :
  0 ≤ i < len → index (disk_read d offset len) i = d (offset + i).
Proof.
  intros. rewrite index_lookup /disk_read list_lookup_fmap lookup_seq_lt; [lia|].
  simpl. f_equal. lia.
Qed.

Lemma disk_read_eq size d d' offset len :
  disk_eq size d d' → 0 ≤ offset → 0 ≤ len → offset + len ≤ size →
  disk_read d offset len = disk_read d' offset len.
Proof.
  intros Heq ???. apply list_index_eq; rewrite !Zlen_disk_read //.
  intros i ?. rewrite !index_disk_read //. apply Heq. lia.
Qed.

(** Reading back what was written. *)
Lemma disk_read_write d offset input :
  0 ≤ offset → disk_read (disk_write d offset input) offset (Zlen input) = input.
Proof.
  intros. pose proof (Zlen_nonneg input). apply list_index_eq; rewrite Zlen_disk_read //.
  intros i Hi. rewrite index_disk_read // /disk_write decide_True; [lia|]. f_equal. lia.
Qed.

Lemma disk_read_write_other d offset input o n :
  0 ≤ n → o + n ≤ offset ∨ offset + Zlen input ≤ o →
  disk_read (disk_write d offset input) o n = disk_read d o n.
Proof.
  intros. apply list_index_eq; rewrite !Zlen_disk_read //.
  intros i Hi. rewrite !index_disk_read // /disk_write decide_False //. lia.
Qed.

Lemma chunk_bytes_pos : 0 < CHUNK_BYTES.
Proof. done. Qed.
#[global] Opaque CHUNK_BYTES.

(** Arithmetic about positions inside blocks. *)
Lemma chunk_pos p : p = CHUNK_BYTES * (p / CHUNK_BYTES) + p mod CHUNK_BYTES ∧
  0 ≤ p mod CHUNK_BYTES < CHUNK_BYTES.
Proof.
  pose proof chunk_bytes_pos. split; [apply Z.div_mod; lia|]. by apply Z.mod_pos_bound.
Qed.

Lemma chunk_div i k : 0 ≤ k < CHUNK_BYTES → (i * CHUNK_BYTES + k) / CHUNK_BYTES = i.
Proof.
  intros. rewrite Z.div_add_l; [lia|]. rewrite Z.div_small; lia.
Qed.

Lemma chunk_mod i k : 0 ≤ k < CHUNK_BYTES → (i * CHUNK_BYTES + k) mod CHUNK_BYTES = k.
Proof.
  intros. rewrite Z.add_comm Z.mod_add; [lia|]. by apply Z.mod_small.
Qed.

Lemma of_blocks_at f i k : 0 ≤ k < CHUNK_BYTES → of_blocks f (i * CHUNK_BYTES + k) = index (f i) k.
Proof. intros. by rewrite /of_blocks chunk_div // chunk_mod. Qed.

Lemma of_blocks_ext size f g :
  (∀ i, 0 ≤ i → i * CHUNK_BYTES < size → f i = g i) →
  disk_eq size (of_blocks f) (of_blocks g).
Proof.
  intros Hfg p Hp. rewrite /of_blocks. pose proof chunk_bytes_pos.
  rewrite Hfg //; destruct (chunk_pos p); [apply Z.div_pos; lia|nia].
Qed.

Lemma chunk_index_lt i sz :
  sz mod CHUNK_BYTES = 0 → i * CHUNK_BYTES < sz → i < sz / CHUNK_BYTES.
Proof. intros Hm Hi. destruct (chunk_pos sz) as [Hp _]. rewrite Hm in Hp. pose proof chunk_bytes_pos. nia. Qed.

Section loops.
Context {S : Type}.

(** [while copied < output.len() { .. }] of [read]. *)
Fixpoint read_loop (load : Z → M Error S (list Z)) (fuel : nat)
    (offset len copied : Z) (out : list Z) : M Error S (list Z) :=
  match fuel with
  | O => mret out
  | Datatypes.S fuel =>
      if copied <? len then
        let pos := offset + copied in
        let within := pos mod CHUNK_BYTES in
        let count := Z.min (CHUNK_BYTES - within) (len - copied) in
        b ← load (pos / CHUNK_BYTES);
        read_loop load fuel offset len (copied + count)
                  (splice out copied (slice b within count))
      else mret out
  end.

(** [while copied < input.len() { .. }] of [write]; [fetch index within count]
    gives the block that the new bytes are copied into. *)
Fixpoint write_loop (fetch : Z → Z → Z → M Error S (list Z)) (fuel : nat)
    (offset : Z) (input : list Z) (copied : Z) (pending : gmap Z (list Z))
    : M Error S (gmap Z (list Z)) :=
  match fuel with
  | O => mret pending
  | Datatypes.S fuel =>
      if copied <? Zlen input then
        let pos := offset + copied in
        let idx := pos / CHUNK_BYTES in
        let within := pos mod CHUNK_BYTES in
        let count := Z.min (CHUNK_BYTES - within) (Zlen input - copied) in
        b ← fetch idx within count;
        write_loop fetch fuel offset input (copied + count)
                   (<[idx := splice b within (slice input copied count)]> pending)
      else mret pending
  end.

(** Each iteration copies at least one byte, so [len] iterations are enough. *)
Definition fuel_for (len : Z) : nat := Z.to_nat len.

Lemma wp_read_loop (P : S → Prop) (F : Error → S → Prop) (f : Z → list Z) load offset len :
  0 ≤ offset →
  (∀ s i, P s → 0 ≤ i → i * CHUNK_BYTES < offset + len →
     wp (load i) s (λ r s', match r with
       | Ok b => P s' ∧ Zlen b = CHUNK_BYTES ∧ b = f i
       | Err e => F e s' end)) →
  ∀ fuel copied out s, 0 ≤ copied ≤ len → len - copied ≤ Z.of_nat fuel → Zlen out = len →
  (∀ i, 0 ≤ i < copied → index out i = of_blocks f (offset + i)) → P s →
  wp (read_loop load fuel offset len copied out) s (λ r s', match r with
    | Ok o => P s' ∧ o = disk_read (of_blocks f) offset len
    | Err e => F e s' end).
Proof.
  intros Hoff Hload fuel. pose proof chunk_bytes_pos as HC.
  assert (∀ out, Zlen out = len → 0 ≤ len →
    (∀ i, 0 ≤ i < len → index out i = of_blocks f (offset + i)) →
    out = disk_read (of_blocks f) offset len) as Hdone.
  { intros out Hl ? Hout. apply list_index_eq; [by rewrite Zlen_disk_read|].
    rewrite Hl. intros i Hi. rewrite index_disk_read //. by apply Hout. }
  induction fuel as [|fuel IH]; intros copied out s Hc Hf Hl Hout HP; simpl.
  { apply wp_ret. split; [done|]. apply Hdone; [done|lia|]. intros. apply Hout. lia. }
  case: Z.ltb_spec => Hlt; [|apply wp_ret; split; [done|]; apply Hdone; [done|lia|];
    intros; apply Hout; lia].
  set (pos := offset + copied). destruct (chunk_pos pos) as [Hpos Hw].
  set (w := pos mod CHUNK_BYTES) in *. set (n := Z.min (CHUNK_BYTES - w) (len - copied)).
  apply wp_bind. eapply wp_mono; [apply Hload; [done|apply Z.div_pos; lia|nia]|].
  intros [b|e] s' H; [|done]. destruct H as (HP' & Hb & ->).
  assert (Zlen (slice (f (pos / CHUNK_BYTES)) w n) = n) as Hsl by (apply Zlen_slice; lia).
  apply IH; [lia|lia| |intros i Hi|done].
  - rewrite Zlen_splice ?Hsl; lia.
  - rewrite index_splice ?Hsl; [lia..|]. case_decide as Hd; [|apply Hout; lia].
    rewrite index_slice; [lia..|].
    replace (offset + i) with ((pos / CHUNK_BYTES) * CHUNK_BYTES + (w + (i - copied))) by lia.
    rewrite of_blocks_at //. lia.
Qed.

(** What a fetched block has to be: the old block wherever the copy will not
    reach. *)
Definition fetched (d : Disk) (i within count : Z) (b : list Z) : Prop :=
  Zlen b = CHUNK_BYTES ∧
  ∀ k, 0 ≤ k < CHUNK_BYTES → k < within ∨ within + count ≤ k →
    index b k = d (i * CHUNK_BYTES + k).

(** The blocks a write stages: exactly the blocks it touches, each with its
    final contents. *)
Definition staged (d' : Disk) (offset copied : Z) (m : gmap Z (list Z)) : Prop :=
  (∀ i b, m !! i = Some b → offset / CHUNK_BYTES ≤ i ∧ i * CHUNK_BYTES < offset + copied ∧
     Zlen b = CHUNK_BYTES ∧ ∀ k, 0 ≤ k < CHUNK_BYTES → index b k = d' (i * CHUNK_BYTES + k)) ∧
  (∀ i, offset / CHUNK_BYTES ≤ i → i * CHUNK_BYTES < offset + copied → 0 < copied →
     is_Some (m !! i)).

Lemma wp_write_loop (P : S → Prop) (F : Error → S → Prop) (d : Disk) fetch offset input :
  0 ≤ offset →
  (∀ s copied, P s → 0 ≤ copied < Zlen input →
     let pos := offset + copied in
     let within := pos mod CHUNK_BYTES in
     let count := Z.min (CHUNK_BYTES - within) (Zlen input - copied) in
     wp (fetch (pos / CHUNK_BYTES) within count) s (λ r s', match r with
       | Ok b => P s' ∧ fetched d (pos / CHUNK_BYTES) within count b
       | Err e => F e s' end)) →
  ∀ fuel copied m s, 0 ≤ copied ≤ Zlen input → Zlen input - copied ≤ Z.of_nat fuel →
  (copied = 0 ∨ copied = Zlen input ∨ (offset + copied) mod CHUNK_BYTES = 0) →
  staged (disk_write d offset input) offset copied m → P s →
  wp (write_loop fetch fuel offset input copied m) s (λ r s', match r with
    | Ok m' => P s' ∧ staged (disk_write d offset input) offset (Zlen input) m'
    | Err e => F e s' end).
Proof.
  intros Hoff Hfetch fuel. pose proof chunk_bytes_pos as HC.
  induction fuel as [|fuel IH]; intros copied m s Hc Hf Hal Hst HP; simpl.
  { apply wp_ret. split; [done|]. by replace (Zlen input) with copied by lia. }
  case: Z.ltb_spec => Hlt; [|apply wp_ret; split; [done|];
    by replace (Zlen input) with copied by lia].
  pose proof (Hfetch s copied HP ltac:(lia)) as Hfe. cbv zeta in Hfe.
  set (pos := offset + copied) in *. destruct (chunk_pos pos) as [Hpos Hw].
  set (w := pos mod CHUNK_BYTES) in *.
  set (n := Z.min (CHUNK_BYTES - w) (Zlen input - copied)) in *.
  set (j := pos / CHUNK_BYTES) in *.
  apply wp_bind. eapply wp_mono; [apply Hfe|]. intros [b|e] s' H; [|done].
  destruct H as (HP' & Hb & Hk). destruct (chunk_pos offset) as [Ho Hom].
  assert (Zlen (slice input copied n) = n) as Hsl by (apply Zlen_slice; lia).
  assert (offset / CHUNK_BYTES ≤ j) by (apply Z.div_le_mono; lia).
  apply IH; [lia|lia| | |done].
  - right. destruct (decide (copied + n = Zlen input)); [by left|right].
    replace (offset + (copied + n)) with ((j + 1) * CHUNK_BYTES) by lia. apply Z.mod_mul. lia.
  - destruct Hst as [H1 H2]. split.
    + intros i c. destruct (decide (i = j)) as [->|Hne].
      * rewrite lookup_insert_eq => [= <-]. repeat split; [done|nia| |].
        { rewrite Zlen_splice ?Hsl; lia. }
        intros k Hkk. rewrite index_splice ?Hsl; [lia..|]. rewrite /disk_write.
        case_decide as Hd.
        { rewrite index_slice; [lia..|]. rewrite decide_True; [lia|]. f_equal. lia. }
        rewrite Hk; [lia..|]. rewrite decide_False //.
        intros [??]. destruct Hal as [Hal|[Hal|Hal]]; lia.
      * rewrite lookup_insert_ne; [congruence|]. intros Hm. apply H1 in Hm as (?&?&?&?). repeat split; auto; lia.
    + intros i Hi1 Hi2 _. destruct (decide (i = j)) as [->|Hne].
      { rewrite lookup_insert_eq. by eexists. }
      rewrite lookup_insert_ne; [congruence|]. apply H2; [done| |]; nia.
Qed.

(** The staged blocks laid over a block function denote the written disk. *)
Lemma staged_blocks d f size offset input m :
  0 ≤ offset → offset + Zlen input ≤ size → disk_eq size (of_blocks f) d →
  staged (disk_write d offset input) offset (Zlen input) m →
  disk_eq size (of_blocks (λ i, default (f i) (m !! i))) (disk_write d offset input).
Proof.
  intros Hoff Hsz Hf [H1 H2] p Hp. pose proof chunk_bytes_pos as HC.
  destruct (chunk_pos p) as [Hpp Hpm]. rewrite {1}/of_blocks.
  destruct (m !! (p / CHUNK_BYTES)) as [b|] eqn:Hm; simpl.
  { apply H1 in Hm as (_ & _ & _ & Hk). rewrite Hk //. f_equal. lia. }
  rewrite /disk_write. case_decide as Hd; [|by rewrite -Hf].
  destruct (H2 (p / CHUNK_BYTES)) as [? Hs]; [apply Z.div_le_mono; lia|lia|lia|].
  by rewrite Hm in Hs.
Qed.

Lemma staged_bytes d m offset (input : list Z) i b : staged d offset (Zlen input) m → m !! i = Some b →
  (∀ k, 0 ≤ k < CHUNK_BYTES → is_byte (d (i * CHUNK_BYTES + k))) → bytes b.
Proof.
  intros [H1 _] Hm Hd. apply H1 in Hm as (_ & _ & Hl & Hk). apply bytes_index. rewrite Hl. intros k ?. rewrite Hk //. by apply Hd.
Qed.
End loops.

(** ** Cursors of pack compaction ([ahvm-volume/src/reclaim.rs]) *)
Record CompactionCursor := mkCursor { page_at : Z; after_pack : option string }.
Record Compaction := mkCompaction { rewritten_blocks : Z; next_page : option CompactionCursor }.
