(* ===== verification/Volume.v ===== *)
(** The format-1 volume of [ahvm-volume/src/lib.rs]: a manifest that maps block
    indexes to object names, a handle that buffers dirty blocks, and a commit
    that uploads the blocks and then replaces the head by compare-and-swap.
    [disk_of] is the flat disk a handle denotes and [persisted] the flat disk a
    reopening reader finds; the theorems say that reads return the former, that
    writes update it, and that a commit moves it to the store atomically under
    every outcome of the store's replies. *)
From S2P Require Import Prelude Codec ObjectStore Blocks.

Module Vol.

Record Manifest := mkManifest {
  format : Z;
  volume : string;
  size : Z;
  generation : Z;
  chunks : gmap Z string;
}.

Record Volume := mkVolume {
  vol_manifest : Manifest;
  vol_revision : string;
  dirty : gmap Z (list Z);
  reopen : bool;
}.

Definition validate (m : Manifest) (id : string) : Result Error unit :=
  if negb (format m =? 1)
     || negb (bool_decide (volume m = id))
     || (size m =? 0)
     || (MAX_VOLUME_BYTES <? size m)
     || negb (is_multiple_of (size m) CHUNK_BYTES)
     || existsb (λ e, (size m / CHUNK_BYTES <=? e.1) || negb (valid_hash e.2)) (entries (chunks m))
  then Err Corrupt else Ok tt.

Section volume.
Context {S : Type} {SHA : Sha256} {OS : ObjectStore S} {JM : Json Manifest}.

Definition create (id : string) (sz : Z) : M Error S Volume :=
  if negb (valid_id id) || (sz =? 0) || (MAX_VOLUME_BYTES <? sz)
     || negb (is_multiple_of sz CHUNK_BYTES)
  then fail InvalidInput
  else
    let m := mkManifest 1 id sz 0 ∅ in
    b ← ok_or (to_vec m) Corrupt;
    rev ← map_err publication_error (publish id None b);
    if decide (rev = "") then fail Uncertain
    else mret (mkVolume m rev ∅ false).

Definition open (id : string) : M Error S Volume :=
  if negb (valid_id id) then fail InvalidInput
  else
    oh ← head id;
    h ← ok_or oh NotFound;
    if (MAX_MANIFEST_BYTES <? Zlen (manifest h)) || bool_decide (revision h = "")
    then fail Corrupt
    else
      m ← ok_or (from_slice (manifest h)) Corrupt;
      of_result (validate m id);;
      mret (mkVolume m (revision h) ∅ false).

Definition check_range (v : Volume) (offset len : Z) : Result Error unit :=
  if reopen v then Err ReopenRequired
  else match u64_checked_add offset len with
       | Some end_ => if size (vol_manifest v) <? end_ then Err InvalidInput else Ok tt
       | None => Err InvalidInput
       end.

Definition load (v : Volume) (i : Z) : M Error S (list Z) :=
  match dirty v !! i with
  | Some b => mret b
  | None =>
      match chunks (vol_manifest v) !! i with
      | None => mret (zeros CHUNK_BYTES)
      | Some h =>
          b ← chunk (volume (vol_manifest v)) h;
          if negb (Zlen b =? CHUNK_BYTES) || negb (bool_decide (digest b = h))
          then fail Corrupt else mret b
      end
  end.

(** [read(&self, offset, output)]: the buffer's new contents. *)
Definition read (v : Volume) (offset : Z) (output : list Z) : M Error S (list Z) :=
  of_result (check_range v offset (Zlen output));;
  read_loop (load v) (fuel_for (Zlen output)) offset (Zlen output) 0 output.

Definition write (offset : Z) (input : list Z) : M Error (Volume * S) unit :=
  v ← gets fst;
  of_result (check_range v offset (Zlen input));;
  pending ← on_store
    (write_loop (λ i _ _, load v i) (fuel_for (Zlen input)) offset input 0 ∅);
  set_handle (mkVolume (vol_manifest v) (vol_revision v) (pending ∪ dirty v) (reopen v)).

(** The upload of one dirty block, updating the next manifest's map. *)
Definition commit_block (id : string) (cs : gmap Z string) (e : Z * list Z)
    : M Error S (gmap Z string) :=
  if all_zero e.2 then mret (delete e.1 cs)
  else
    let h := digest e.2 in
    put_chunk id h e.2;;
    mret (<[e.1 := h]> cs).

Definition commit : M Error (Volume * S) Z :=
  v ← gets fst;
  let m := vol_manifest v in
  if reopen v then fail ReopenRequired
  else if decide (dirty v = ∅) then mret (generation m)
  else
    gen ← ok_or (u64_checked_add (generation m) 1) Corrupt;
    cs ← on_store (foldM (commit_block (volume m)) (chunks m) (entries (dirty v)));
    let next := mkManifest (format m) (volume m) (size m) gen cs in
    b ← ok_or (to_vec next) Corrupt;
    if MAX_MANIFEST_BYTES <? Zlen b then fail Corrupt
    else
      r ← try_ (on_store (publish (volume m) (Some (vol_revision v)) b));
      match r with
      | Ok rev =>
          if decide (rev = "") then
            set_handle (mkVolume m (vol_revision v) (dirty v) true);; fail Uncertain
          else
            set_handle (mkVolume next rev ∅ (reopen v));; mret gen
      | Err e =>
          set_handle (mkVolume m (vol_revision v) (dirty v) true);;
          fail (publication_error e)
      end.

(** ** Specification *)
Context {SV : StoreView S}.

(** The committed contents of block [i] of a manifest. *)
Definition chunk_block (s : S) (id : string) (cs : gmap Z string) (i : Z) : list Z :=
  match cs !! i with
  | None => zeros CHUNK_BYTES
  | Some h => default [] (objects s !! (id, h))
  end.
Definition committed (s : S) (m : Manifest) (i : Z) : list Z :=
  chunk_block s (volume m) (chunks m) i.
(** The contents of block [i] as the handle sees it. *)
Definition block (s : S) (v : Volume) (i : Z) : list Z :=
  default (committed s (vol_manifest v) i) (dirty v !! i).
Definition disk_of (s : S) (v : Volume) : Disk := of_blocks (block s v).

(** Every object the manifest names is at the store, whole. *)
Definition stored (s : S) (id : string) (cs : gmap Z string) : Prop :=
  ∀ i h, cs !! i = Some h →
    ∃ b, objects s !! (id, h) = Some b ∧ Zlen b = CHUNK_BYTES ∧ digest b = h.

Record vol_inv (s : S) (id : string) (v : Volume) : Prop := {
  inv_valid : validate (vol_manifest v) id = Ok tt;
  inv_stored : stored s id (chunks (vol_manifest v));
  inv_dirty : ∀ i b, dirty v !! i = Some b →
    0 ≤ i < size (vol_manifest v) / CHUNK_BYTES ∧ Zlen b = CHUNK_BYTES;
}.

(** What a reader that opens the volume finds: a valid head whose objects are
    all stored and whose blocks denote the disk [d] of [sz] bytes. *)
Definition persisted (s : S) (id : string) (sz : Z) (d : Disk) : Prop :=
  ∃ h m, heads s !! id = Some h ∧ Zlen (manifest h) ≤ MAX_MANIFEST_BYTES ∧
    revision h ≠ "" ∧ from_slice (manifest h) = Some m ∧ validate m id = Ok tt ∧
    stored s id (chunks m) ∧ size m = sz ∧ disk_eq sz (of_blocks (committed s m)) d.

(** The handle is based on the current head. *)
Definition current (s : S) (id : string) (v : Volume) : Prop :=
  ∃ h, heads s !! id = Some h ∧ revision h = vol_revision v ∧ revision h ≠ "" ∧
    Zlen (manifest h) ≤ MAX_MANIFEST_BYTES ∧ from_slice (manifest h) = Some (vol_manifest v).

Lemma validate_ok m id : validate m id = Ok tt ↔
  format m = 1 ∧ volume m = id ∧ size m ≠ 0 ∧ size m ≤ MAX_VOLUME_BYTES ∧
  size m mod CHUNK_BYTES = 0 ∧
  ∀ i h, chunks m !! i = Some h → i < size m / CHUNK_BYTES ∧ valid_hash h = true.
Proof.
  rewrite /validate /is_multiple_of if_err !orb_false_iff existsb_entries.
  rewrite !negb_false_iff bool_decide_eq_true !Z.eqb_eq !Z.eqb_neq Z.ltb_ge.
  setoid_rewrite orb_false_iff. setoid_rewrite negb_false_iff. setoid_rewrite Z.leb_gt.
  naive_solver.
Qed.

Context {SHAL : Sha256Laws} {OSL : ObjectStoreLaws S} {JML : JsonLaws Manifest}.

Lemma committed_view s s' m i : same_view s s' → committed s' m i = committed s m i.
Proof. rewrite /committed /chunk_block. by intros (-> & _ & _). Qed.

Lemma vol_inv_view s s' id v : same_view s s' → vol_inv s id v → vol_inv s' id v.
Proof. intros (Ho & _ & _) [H1 H2 H3]. split; auto. rewrite /stored Ho. auto. Qed.

Lemma stored_sub s s' id cs : objects s ⊆ objects s' → stored s id cs → stored s' id cs.
Proof.
  intros Hsub Hst i h Hi. destruct (Hst i h Hi) as (b & Hb & ?). exists b. split; [|done].
  eauto using lookup_weaken.
Qed.

Lemma inv_volume s id v : vol_inv s id v → volume (vol_manifest v) = id.
Proof. intros [H _ _]. by apply validate_ok in H as (_ & ? & _). Qed.

(** [load] returns the block or an error, never other bytes. *)
Lemma load_spec s0 s id v i : same_view s0 s → vol_inv s0 id v →
  wp (load v i) s (λ r s', same_view s0 s' ∧
    match r with
    | Ok b => Zlen b = CHUNK_BYTES ∧ b = block s0 v i
    | Err _ => True
    end).
Proof.
  intros Hv Hinv. pose proof (inv_volume _ _ _ Hinv) as Hid. destruct Hinv as [_ Hst Hd].
  rewrite /load /block /committed /chunk_block. pose proof chunk_bytes_pos.
  destruct (dirty v !! i) as [b|] eqn:Hi; simpl.
  { apply wp_ret. split; [done|]. split; [|done]. by apply Hd in Hi as [_ ?]. }
  destruct (chunks (vol_manifest v) !! i) as [h|] eqn:Hh; simpl.
  2: { apply wp_ret. split; [done|]. split; [|done]. apply Zlen_zeros. lia. }
  apply wp_bind. eapply wp_mono; [apply chunk_law|].
  intros [b|e] s' [Hv' Hb]; [|split; [by trans s|done]].
  wp_step; wp_step; (split; [by trans s|]); [done|].
  apply orb_false_iff in Heqb0 as [Hl%negb_false_iff%Z.eqb_eq Hdg%negb_false_iff%bool_decide_eq_true].
  split; [done|]. specialize (Hb Hdg). destruct Hv as (<- & _ & _). by rewrite Hb.
Qed.

(** What [check_range] lets through. *)
Lemma check_range_ok v offset len :
  check_range v offset len = Ok tt ↔
  reopen v = false ∧ offset + len ≤ u64_max ∧ offset + len ≤ size (vol_manifest v).
Proof.
  rewrite /check_range /u64_checked_add. destruct (reopen v); [naive_solver|].
  repeat case_match; simplify_eq; split; try done; lia.
Qed.

Lemma read_spec s id v offset output :
  vol_inv s id v → 0 ≤ offset →
  wp (read v offset output) s (λ r s', same_view s s' ∧
    match r with
    | Ok out => check_range v offset (Zlen output) = Ok tt ∧
                out = disk_read (disk_of s v) offset (Zlen output)
    | Err e => check_range v offset (Zlen output) = Err e ∨
               check_range v offset (Zlen output) = Ok tt
    end).
Proof.
  intros Hinv Hoff. rewrite /read. wp_step. apply wp_of_result.
  destruct (check_range v offset (Zlen output)) as [[]|e] eqn:Hc; [|split; [done|by left]].
  eapply wp_mono.
  - apply (wp_read_loop (same_view s) (λ _ s', same_view s s') (block s v)); auto.
    + intros s' i Hs' _ _. eapply wp_mono; [eapply load_spec; eauto|]. intros [b|e] s'' [??]; auto.
    + pose proof (Zlen_nonneg output). lia.
    + pose proof (Zlen_nonneg output). rewrite /fuel_for. lia.
    + lia.
    + done.
  - intros [o|e] s' H; [destruct H|]; auto.
Qed.

Lemma write_spec s id v offset input :
  vol_inv s id v → 0 ≤ offset →
  wp (write offset input) (v, s) (λ r t, same_view s t.2 ∧
    match r with
    | Ok _ => check_range v offset (Zlen input) = Ok tt ∧ vol_inv t.2 id t.1 ∧
        vol_manifest t.1 = vol_manifest v ∧ vol_revision t.1 = vol_revision v ∧
        disk_eq (size (vol_manifest v)) (disk_of t.2 t.1)
                (disk_write (disk_of s v) offset input)
    | Err _ => t.1 = v
    end).
Proof.
  intros Hinv Hoff. rewrite /write. wp_step. apply wp_gets. simpl.
  wp_step. apply wp_of_result. pose proof chunk_bytes_pos. pose proof (Zlen_nonneg input).
  destruct (check_range v offset (Zlen input)) as [[]|e] eqn:Hc; [|done].
  apply check_range_ok in Hc as (Hr & _ & Hsz).
  wp_step. apply wp_on_store. eapply wp_mono.
  - apply (wp_write_loop (same_view s) (λ _ s', same_view s s') (disk_of s v)); auto.
    + intros s' copied Hs' Hcp. cbv zeta. eapply wp_mono; [eapply load_spec; eauto|].
      intros [b|e] s'' [? Hb]; [|done]. destruct Hb as [Hb ->]. do 2 (split; [done|]).
      intros k Hk _. by rewrite /disk_of of_blocks_at.
    + lia.
    + rewrite /fuel_for. lia.
    + split; [intros ??; by rewrite lookup_empty|lia].
    + done.
  - intros [m|e] s' H'; [destruct H' as [Hv Hst]|by split].
    apply wp_modify. simpl. split; [done|]. split; [done|]. split; [split|]; simpl.
    + apply Hinv.
    + rewrite /stored. destruct Hv as (-> & _ & _). apply Hinv.
    + intros i b [Hi|[_ Hi]]%lookup_union_Some_raw; [|by apply Hinv in Hi].
      apply (proj1 Hst) in Hi as (Hi1 & Hi2 & Hi3 & _). split; [|done].
      assert (0 ≤ offset / CHUNK_BYTES) by (by apply Z.div_pos).
      destruct (proj1 (validate_ok _ _) (inv_valid _ _ _ Hinv)) as (_&_&_&_&Hm&_).
      split; [lia|]. apply chunk_index_lt; [done|lia].
    + do 2 (split; [done|]). rewrite /disk_of.
      trans (of_blocks (λ i, default (block s v i) (m !! i))).
      * apply of_blocks_ext. intros i _ _. rewrite /block lookup_union /=.
        destruct (m !! i), (dirty v !! i); simpl; try done. by apply committed_view.
      * by apply staged_blocks.
Qed.

Lemma chunk_block_sub s s' id cs i :
  objects s ⊆ objects s' → stored s id cs → chunk_block s' id cs i = chunk_block s id cs i.
Proof.
  rewrite /chunk_block => Hsub Hst. destruct (cs !! i) as [h|] eqn:Hi; [|done].
  destruct (Hst _ _ Hi) as (b & Hb & _). by rewrite Hb (lookup_weaken _ _ _ _ Hb Hsub).
Qed.

(** One block: the map gains the block's contents and loses nothing. *)
Lemma commit_block_spec s id cs i b :
  stored s id cs → Zlen b = CHUNK_BYTES →
  wp (commit_block id cs (i, b)) s (λ r s', heads s' = heads s ∧ objects s ⊆ objects s' ∧
    match r with
    | Ok cs' => stored s' id cs' ∧
        (∀ j, chunk_block s' id cs' j = if decide (j = i) then b else chunk_block s id cs j) ∧
        (∀ j h, cs' !! j = Some h → cs !! j = Some h ∨ j = i ∧ valid_hash h = true)
    | Err _ => True
    end).
Proof.
  intros Hst Hb. rewrite /commit_block /=. wp_step.
  { apply wp_ret. do 2 (split; [done|]). apply all_zero_true in Heqb0.
    split; [|split]; rewrite /chunk_block.
    - intros j h [_ Hj]%lookup_delete_Some. by apply Hst in Hj.
    - intros j. case_decide as Hj; [subst j; by rewrite lookup_delete_eq Heqb0 Hb|].
      rewrite lookup_delete_ne; [congruence|done].
    - intros j h [_ Hj]%lookup_delete_Some. by left. }
  wp_step. eapply wp_mono; [apply put_chunk_law|].
  intros [[]|e] s' (Hh & _ & Ho).
  2: { split; [done|]. destruct Ho as [->|[Hn Ho]]; [by split|]. split; [|done].
       eapply objects_insert_sub; [exact Ho|]. intros b0. by rewrite Hn. }
  destruct Ho as [Ho Hsame].
  assert (objects s ⊆ objects s') as Hsub by (eapply objects_insert_sub; eauto).
  apply wp_ret. do 2 (split; [done|]). split; [|split].
  - intros j h. destruct (decide (i = j)) as [<-|]; [rewrite lookup_insert_eq|rewrite lookup_insert_ne //].
    + intros [= <-]. exists b. by rewrite Ho lookup_insert_eq.
    + apply (stored_sub s s' id cs); auto.
  - intros j. rewrite -(chunk_block_sub s s' id cs j Hsub Hst) /chunk_block.
    case_decide as Hj; [subst j; by rewrite lookup_insert_eq Ho lookup_insert_eq|].
    rewrite lookup_insert_ne; [congruence|done].
  - intros j h. destruct (decide (i = j)) as [<-|]; [rewrite lookup_insert_eq|rewrite lookup_insert_ne //].
    + intros [= <-]. right. split; [done|apply valid_hash_digest].
    + by left.
Qed.

(** All dirty blocks: the next map denotes the old blocks under the dirty ones. *)
Lemma commit_fold_spec s0 id c0 (d : gmap Z (list Z)) :
  stored s0 id c0 → (∀ i b, d !! i = Some b → Zlen b = CHUNK_BYTES) →
  wp (foldM (commit_block id) c0 (entries d)) s0 (λ r s,
    heads s = heads s0 ∧ objects s0 ⊆ objects s ∧
    match r with
    | Ok cs => stored s id cs ∧
        (∀ i, chunk_block s id cs i = default (chunk_block s0 id c0 i) (d !! i)) ∧
        (∀ i h, cs !! i = Some h → c0 !! i = Some h ∨ is_Some (d !! i) ∧ valid_hash h = true)
    | Err _ => True
    end).
Proof.
  intros Hst Hd.
  apply (wp_foldM _ _ _ _ (λ cs rest s, heads s = heads s0 ∧ objects s0 ⊆ objects s ∧
    stored s id cs ∧ NoDup rest.*1 ∧ (∀ e, e ∈ rest → d !! e.1 = Some e.2) ∧
    (∀ i, chunk_block s id cs i = if decide (i ∈ rest.*1) then chunk_block s0 id c0 i
                                 else default (chunk_block s0 id c0 i) (d !! i)) ∧
    (∀ i h, cs !! i = Some h → c0 !! i = Some h ∨ is_Some (d !! i) ∧ valid_hash h = true))).
  - repeat split; auto using NoDup_entries.
    + intros [i b]. by rewrite elem_of_entries.
    + intros i. case_decide as Hi; [done|]. destruct (d !! i) as [b|] eqn:E; [|done].
      destruct Hi. apply elem_of_entries_keys. by rewrite E.
  - intros cs [i b] rest s (Hh & Hsub & Hs & Hnd & Hin & Hbl & Hval).
    assert (d !! i = Some b) as Hib by (apply (Hin (i, b)); by left).
    eapply wp_mono; [apply commit_block_spec; eauto|].
    intros [cs'|e] s' (Hh' & Hsub' & H).
    2: { split; [by rewrite Hh'|]. split; [by trans (objects s)|done]. }
    destruct H as (Hs' & Hbl' & Hval'). simpl in Hnd. apply NoDup_cons in Hnd as [Hni Hnd].
    split; [by rewrite Hh'|]. split; [by trans (objects s)|].
    repeat split; auto.
    + intros e He. apply Hin. by right.
    + intros j. rewrite Hbl'. case_decide as Hj.
      { subst j. by rewrite decide_False // Hib. }
      rewrite Hbl. simpl. by repeat case_decide; set_solver.
    + intros j h [Hj|[-> ?]]%Hval'; [by apply Hval|]. rewrite Hib. eauto.
  - intros cs s (Hh & Hsub & Hs & _ & _ & Hbl & Hval). repeat split; auto.
Qed.

Lemma persisted_current s id v : vol_inv s id v → current s id v →
  persisted s id (size (vol_manifest v)) (of_blocks (committed s (vol_manifest v))).
Proof.
  intros [Hv Hs _] (h & Hh & _ & Hr & Hl & Hm). by exists h, (vol_manifest v).
Qed.

Lemma persisted_heads s s' id sz d : heads s' = heads s → objects s ⊆ objects s' →
  persisted s id sz d → persisted s' id sz d.
Proof.
  intros Hh Hsub (h & m & Hhd & ? & ? & ? & Hv & Hst & <- & Hd). exists h, m.
  rewrite Hh. repeat (split; [done|]). split; [eauto using stored_sub|].
  split; [done|]. etrans; [|exact Hd]. apply of_blocks_ext. intros i _ _.
  apply validate_ok in Hv as (_ & <- & _). by apply chunk_block_sub.
Qed.

Lemma persisted_eq s id sz d d' : disk_eq sz d d' → persisted s id sz d → persisted s id sz d'.
Proof.
  intros Hdd (h & m & ? & ? & ? & ? & ? & ? & ? & Hd). exists h, m.
  repeat (split; [done|]). by trans d.
Qed.

Lemma vol_inv_sub s s' id v : objects s ⊆ objects s' → vol_inv s id v →
  vol_inv s' id v ∧ disk_eq (size (vol_manifest v)) (disk_of s' v) (disk_of s v).
Proof.
  intros Hsub Hinv. pose proof (inv_volume _ _ _ Hinv) as Hid. destruct Hinv as [H1 H2 H3].
  split; [split; eauto using stored_sub|].
  apply of_blocks_ext. intros i _ _. rewrite /block. destruct (dirty v !! i); [done|].
  rewrite /= /committed Hid. by apply chunk_block_sub.
Qed.

(** The next manifest is valid and denotes the handle's disk. *)
Lemma next_manifest s s' id v gen cs :
  vol_inv s id v → objects s ⊆ objects s' →
  stored s' id cs →
  (∀ i, chunk_block s' id cs i = default (chunk_block s id (chunks (vol_manifest v)) i) (dirty v !! i)) →
  (∀ i h, cs !! i = Some h → chunks (vol_manifest v) !! i = Some h ∨
     is_Some (dirty v !! i) ∧ valid_hash h = true) →
  let m := vol_manifest v in
  let next := mkManifest (format m) (volume m) (size m) gen cs in
  validate next id = Ok tt ∧ disk_eq (size m) (of_blocks (committed s' next)) (disk_of s v).
Proof.
  intros Hinv Hsub Hst Hbl Hval. cbv zeta. pose proof (inv_volume _ _ _ Hinv) as Hid.
  pose proof (proj1 (validate_ok _ _) (inv_valid _ _ _ Hinv)) as (Hf & _ & Hsz & Hmax & Hmod & Hch).
  split.
  - apply validate_ok. simpl. repeat (split; [done|]). intros i h [Hi|[[b Hb] Hh]]%Hval; [by apply Hch|].
    split; [|done]. by apply (inv_dirty _ _ _ Hinv) in Hb as [[_ ?] _].
  - apply of_blocks_ext. intros i _ _. by rewrite /committed /= Hid Hbl /block /committed Hid.
Qed.

(** The promise of [commit], for each kind of reply.  In every case the handle
    still denotes the same disk.  Success: the store holds that disk and the
    handle is clean and current.  Failure: the dirty blocks are kept, and the
    store holds the previous disk or this one, never a mixture; unless the
    head is known to be untouched the handle demands to be reopened. *)
Definition commit_post (s : S) (id : string) (v : Volume) (r : Result Error Z) (t : Volume * S) : Prop :=
  let sz := size (vol_manifest v) in
  vol_inv t.2 id t.1 ∧ disk_eq sz (disk_of t.2 t.1) (disk_of s v) ∧
  match r with
  | Ok g => current t.2 id t.1 ∧ dirty t.1 = ∅ ∧ reopen t.1 = false ∧
      g = generation (vol_manifest t.1) ∧ persisted t.2 id sz (disk_of s v)
  | Err e => dirty t.1 = dirty v ∧
      (heads t.2 = heads s ∧ t.1 = v ∨ reopen t.1 = true) ∧
      (persisted t.2 id sz (of_blocks (committed s (vol_manifest v))) ∨
       persisted t.2 id sz (disk_of s v))
  end.

Section commit_cases.
Variables (s : S) (id : string) (v : Volume).
Hypotheses (Hinv : vol_inv s id v) (Hcur : current s id v).

Lemma commit_untouched s1 e : heads s1 = heads s → objects s ⊆ objects s1 →
  commit_post s id v (Err e) (v, s1).
Proof using Hinv Hcur.
  intros Hh Hsub. destruct (vol_inv_sub s s1 id v Hsub Hinv) as [Hinv1 Hde1].
  split; [done|]. split; [done|]. split; [done|]. split; [by left|].
  left. apply (persisted_heads s); [done|done|]. by apply persisted_current.
Qed.

Lemma commit_clean : reopen v = false → dirty v = ∅ →
  commit_post s id v (Ok (generation (vol_manifest v))) (v, s).
Proof using Hinv Hcur.
  intros Hr Hd. do 2 (split; [done|]). repeat (split; [done|]).
  eapply persisted_eq; [|by apply persisted_current].
  apply of_blocks_ext. intros i _ _. by rewrite /block Hd lookup_empty.
Qed.

Variables (s1 s2 : S) (next : Manifest) (b : list Z).
Hypotheses (Hsub1 : objects s ⊆ objects s1) (Hh1 : heads s1 = heads s)
  (Hnext : validate next id = Ok tt ∧
    disk_eq (size (vol_manifest v)) (of_blocks (committed s1 next)) (disk_of s v))
  (Hsize : size next = size (vol_manifest v)) (Hstored : stored s1 id (chunks next))
  (Hjson : to_vec next = Some b) (Hfit : Zlen b ≤ MAX_MANIFEST_BYTES)
  (Ho2 : objects s2 = objects s1).

Lemma next_disk : disk_eq (size (vol_manifest v)) (of_blocks (committed s2 next)) (disk_of s v).
Proof using Hnext Ho2.
  etrans; [|apply Hnext]. apply of_blocks_ext. intros i _ _.
  by rewrite /committed /chunk_block Ho2.
Qed.

Lemma commit_published rev : published s1 s2 id (Some (vol_revision v)) rev b →
  persisted s2 id (size (vol_manifest v)) (disk_of s v) ∧
  heads s2 !! id = Some (mkHead rev b) ∧ rev ≠ "".
Proof using Hnext Hsize Hstored Hjson Hfit Ho2 JML.
  intros (_ & Hrev & Hp). rewrite Hp lookup_insert_eq. split; [|done].
  exists (mkHead rev b), next. rewrite Hp lookup_insert_eq /=.
  split_and!; auto using json_roundtrip, next_disk; [apply Hnext|].
  rewrite /stored Ho2. apply Hstored.
Qed.

Lemma commit_poisoned e :
  heads s2 = heads s1 ∨ (∃ rev, published s1 s2 id (Some (vol_revision v)) rev b) →
  commit_post s id v (Err e) (mkVolume (vol_manifest v) (vol_revision v) (dirty v) true, s2).
Proof using All.
  intros Hor. assert (objects s ⊆ objects s2) as Hsub by by rewrite Ho2.
  destruct (vol_inv_sub s s2 id v Hsub Hinv) as [[] Hde]. split; [by split|].
  split; [done|]. split; [done|]. split; [by right|].
  destruct Hor as [Hsame|[rev Hrev]]; [left|right; eapply commit_published; eauto].
  apply (persisted_heads s); [by rewrite Hsame|done|by apply persisted_current].
Qed.

Lemma commit_done rev : reopen v = false →
  published s1 s2 id (Some (vol_revision v)) rev b →
  commit_post s id v (Ok (generation next)) (mkVolume next rev ∅ (reopen v), s2).
Proof using All.
  intros Hr Hp. destruct (commit_published _ Hp) as (Hper & Hhd & Hrev).
  assert (disk_eq (size (vol_manifest v)) (disk_of s2 (mkVolume next rev ∅ (reopen v))) (disk_of s v)) as Hfin.
  { etrans; [|apply next_disk]. apply of_blocks_ext. intros i _ _.
    by rewrite /block lookup_empty. }
  split.
  { split; simpl; [apply Hnext|rewrite /stored Ho2; apply Hstored|intros ??; by rewrite lookup_empty]. }
  split; [done|]. split; [|by split_and!].
  exists (mkHead rev b). simpl. by split_and!; auto using json_roundtrip.
Qed.
End commit_cases.

Lemma commit_spec s id v : vol_inv s id v → current s id v →
  wp commit (v, s) (commit_post s id v).
Proof.
  intros Hinv Hcur. pose proof (inv_volume _ _ _ Hinv) as Hid.
  assert (∀ e, commit_post s id v (Err e) (v, s)) as Hearly by (intros; by apply commit_untouched).
  rewrite /commit. wp_step. apply wp_gets. simpl.
  destruct (reopen v) eqn:Hr; [by apply wp_fail|].
  case_decide as Hd; [by apply wp_ret, commit_clean|].
  wp_step. apply wp_ok_or; [intros gen Hgen|done].
  wp_step. apply wp_on_store. rewrite Hid. eapply wp_mono.
  { apply commit_fold_spec; [apply Hinv|]. intros i b Hb. by apply Hinv in Hb as []. }
  intros [cs|e] s1 (Hh1 & Hsub & H1); [|by apply commit_untouched].
  destruct H1 as (Hst & Hbl & Hval).
  pose proof (next_manifest s s1 id v gen cs Hinv Hsub Hst Hbl Hval) as Hnext.
  cbv zeta in Hnext. rewrite Hid in Hnext. set (next := mkManifest _ _ _ _ _) in Hnext |- *.
  wp_step. apply wp_ok_or; [intros b Hb|intros _; by apply commit_untouched].
  case: Z.ltb_spec => Hfit; [by apply wp_fail, commit_untouched|].
  wp_step. apply wp_try, wp_on_store. eapply wp_mono; [apply publish_law|].
  intros r s2 (Ho2 & _ & H2). destruct r as [rev|e].
  - destruct H2 as (rev' & Hp & Hrev). case_decide as Hre.
    + apply wp_bind, wp_modify, wp_fail. eapply commit_poisoned; eauto.
    + destruct Hrev as [?|<-]; [done|]. apply wp_bind, wp_modify, wp_ret.
      change gen with (generation next). rewrite -Hr. eapply commit_done; eauto.
  - apply wp_bind, wp_modify, wp_fail. eapply commit_poisoned; eauto. destruct e; auto.
Qed.

(** Opening reads the persisted disk. *)
Lemma open_spec s id sz d : persisted s id sz d → valid_id id = true →
  wp (open id) s (λ r s', same_view s s' ∧
    match r with
    | Ok v => vol_inv s' id v ∧ current s' id v ∧ reopen v = false ∧ dirty v = ∅ ∧
        size (vol_manifest v) = sz ∧ disk_eq sz (disk_of s' v) d
    | Err _ => True
    end).
Proof.
  intros (h & m & Hh & Hl & Hr & Hm & Hv & Hst & <- & Hd) Hid.
  rewrite /open Hid /=. wp_step. eapply wp_mono; [apply head_law|].
  intros [oh|e] s' [Hview Hoh]; [|done]. rewrite Hh in Hoh. subst oh. simpl.
  apply wp_bind, wp_ret. case: Z.ltb_spec => ?; [lia|]. simpl.
  rewrite bool_decide_eq_false_2 // Hm /=. apply wp_bind, wp_ret. rewrite Hv.
  apply wp_bind, wp_of_result, wp_ret. split; [done|].
  destruct Hview as (Ho & Hhs & _). split.
  { split; simpl; [done|by rewrite /stored Ho|intros ??; by rewrite lookup_empty]. }
  split; [exists h; rewrite Hhs; by split_and!|]. do 3 (split; [done|]).
  etrans; [|exact Hd]. apply of_blocks_ext. intros i _ _.
  by rewrite /block lookup_empty /= /committed /chunk_block Ho.
Qed.

(** ** Progress on a store that is up *)
Definition next_block (cs : gmap Z string) (e : Z * list Z) : gmap Z string :=
  if all_zero e.2 then delete e.1 cs else <[e.1 := digest e.2]> cs.
Definition next_chunks (v : Volume) : gmap Z string :=
  fold_left next_block (entries (dirty v)) (chunks (vol_manifest v)).
(** No dirty block collides with a stored object or another dirty block. *)
Definition no_collision (s : S) (id : string) (v : Volume) : Prop :=
  ∀ i b, dirty v !! i = Some b →
    (∀ b0, objects s !! (id, digest b) = Some b0 → b0 = b) ∧
    (∀ j b', dirty v !! j = Some b' → digest b' = digest b → b' = b).

Context {up : S → Prop} {RS : ReliableStore S up}.

Lemma commit_fold_progress s id v : up s → no_collision s id v →
  wp (foldM (commit_block id) (chunks (vol_manifest v)) (entries (dirty v))) s
     (λ r s', r = Ok (next_chunks v) ∧ up s' ∧ heads s' = heads s).
Proof.
  intros Hup Hnc.
  apply (wp_foldM _ _ _ _ (λ cs rest s', up s' ∧ fold_left next_block rest cs = next_chunks v ∧
    heads s' = heads s ∧ ∀ e, e ∈ rest → dirty v !! e.1 = Some e.2 ∧
    ∀ b0, objects s' !! (id, digest e.2) = Some b0 → b0 = e.2)).
  - split_and!; [done|done|done|]. intros [i b] Hib%elem_of_entries. split; [done|].
    by apply (Hnc i b).
  - intros cs [i b] rest s' (Hup' & Hf & Hh & Hrest). simpl in Hf.
    destruct (Hrest (i, b)) as [Hib Hb0]; [by left|].
    assert (∀ e, e ∈ rest → e ∈ (i, b) :: rest) as Hsub by (intros; by right).
    rewrite /commit_block /=. rewrite /next_block /= in Hf. destruct (all_zero b) eqn:Hz.
    { apply wp_ret. split_and!; auto. }
    wp_step. eapply wp_mono; [apply wp_and; [by apply up_put_chunk|apply put_chunk_law]|].
    intros r s2 [[-> Hup2] (Hh2 & _ & Ho2 & _)]. apply wp_ret. split_and!; auto; [congruence|].
    intros e He. destruct (Hrest e) as [He1 He2]; [auto|]. split; [done|].
    intros b0. rewrite Ho2. destruct (decide (digest b = digest e.2)) as [Heq|Hne].
    + rewrite Heq lookup_insert_eq => [= <-]. by apply (proj2 (Hnc e.1 e.2 He1) i).
    + rewrite lookup_insert_ne; [congruence|]. apply He2.
  - intros cs s' (Hup' & <- & Hh & _). by split_and!.
Qed.

Lemma commit_progress s id v b : vol_inv s id v → current s id v → up s →
  reopen v = false → generation (vol_manifest v) < u64_max → no_collision s id v →
  to_vec (mkManifest (format (vol_manifest v)) id (size (vol_manifest v))
                     (generation (vol_manifest v) + 1) (next_chunks v)) = Some b →
  Zlen b ≤ MAX_MANIFEST_BYTES →
  wp commit (v, s) (λ r _, is_ok r = true).
Proof.
  intros Hinv (h & Hh & Hrev & _) Hup Hr Hgen Hnc Hb Hfit.
  pose proof (inv_volume _ _ _ Hinv) as Hid.
  rewrite /commit. wp_step. apply wp_gets. simpl. rewrite Hr. case_decide; [done|].
  assert (u64_checked_add (generation (vol_manifest v)) 1 = Some (generation (vol_manifest v) + 1)) as ->.
  { apply u64_checked_add_Some. lia. }
  wp_step. apply wp_ret. wp_step. apply wp_on_store. rewrite Hid.
  eapply wp_mono; [by apply commit_fold_progress|]. intros r s1 (-> & Hup1 & Hh1).
  rewrite Hb. wp_step. apply wp_ret. case: Z.ltb_spec => ?; [lia|].
  wp_step. apply wp_try, wp_on_store. eapply wp_mono.
  { apply up_publish; [done|]. by rewrite Hh1 Hh /= Hrev. }
  intros r s2 [(rev & -> & Hne) _]. by rewrite decide_False.
Qed.

Lemma load_progress s id v i : vol_inv s id v → up s →
  wp (load v i) s (λ r s', r = Ok (block s v i) ∧ Zlen (block s v i) = CHUNK_BYTES ∧
                           same_view s s' ∧ up s').
Proof.
  intros Hinv Hup. pose proof (inv_volume _ _ _ Hinv) as Hid. destruct Hinv as [_ Hst Hd].
  rewrite /load /block /committed /chunk_block Hid. pose proof chunk_bytes_pos.
  destruct (dirty v !! i) as [b|] eqn:Hi; simpl.
  { apply wp_ret. by apply Hd in Hi as [_ ?]. }
  destruct (chunks (vol_manifest v) !! i) as [h|] eqn:Hh; simpl.
  2: { apply wp_ret. rewrite Zlen_zeros; [lia|done]. }
  destruct (Hst _ _ Hh) as (b & Hb & Hl & Hdg). rewrite Hb /=.
  apply wp_bind. eapply wp_mono; [apply wp_and; [by eapply up_chunk|apply chunk_law]|].
  intros r s' [[-> Hup'] [Hv _]]. rewrite Hl Z.eqb_refl bool_decide_eq_true_2 //.
Qed.

Lemma read_progress s id v o n : vol_inv s id v → up s → 0 ≤ o →
  check_range v o (Zlen n) = Ok tt →
  wp (read v o n) s (λ r _, is_ok r = true).
Proof.
  intros Hinv Hup Ho Hc. rewrite /read Hc. apply wp_bind, wp_of_result.
  pose proof (Zlen_nonneg n).
  eapply wp_mono; [apply (wp_read_loop (λ s', same_view s s' ∧ up s') (λ _ _, False) (block s v))|].
  - done.
  - intros s' i [Hv' Hup'] _ _.
    eapply wp_mono; [eapply load_progress; [by eapply vol_inv_view|done]|].
    intros r s2 (-> & Hl & Hv2 & Hup2).
    assert (block s' v i = block s v i) as Hbl.
    { rewrite /block. destruct (dirty v !! i); [done|]. by apply committed_view. }
    rewrite Hbl in Hl |- *. split_and!; auto. by trans s'.
  - lia.
  - rewrite /fuel_for. lia.
  - done.
  - lia.
  - done.
  - by intros [].
Qed.

Lemma open_progress s id sz d : persisted s id sz d → valid_id id = true → up s →
  wp (open id) s (λ r s', is_ok r = true ∧ up s').
Proof.
  intros (h & m & Hh & Hl & Hr & Hm & Hv & _) Hid Hup.
  rewrite /open Hid /=. wp_step. eapply wp_mono; [by apply up_head|].
  intros r s' [-> Hup']. rewrite Hh /=. apply wp_bind, wp_ret. case: Z.ltb_spec => ?; [lia|].
  simpl. rewrite bool_decide_eq_false_2 // Hm. apply wp_bind, wp_ret. rewrite Hv.
  by apply wp_bind, wp_of_result, wp_ret.
Qed.

(** ** Properties *)

(** C3: [Volume::commit] is atomic.  Whatever the store replies (refusals, lost
    replies and missing revisions included), the handle keeps denoting the same
    disk; on success the store holds exactly that disk and the handle is clean;
    on failure the store holds the previous disk or the new one, no mixture,
    and unless the head is untouched the handle demands to be reopened. *)
Theorem volume_commit_atomic s id v :
  vol_inv s id v → current s id v → wp commit (v, s) (commit_post s id v).
Proof. apply commit_spec. Qed.

(** C4: durability.  Data written at an offset and committed successfully is
    what any later reader that opens the volume and reads that range gets, and
    an unrelated range reads as before the write. *)
Theorem volume_durable s id v offset input o n :
  vol_inv s id v → current s id v → valid_id id = true → 0 ≤ offset → 0 ≤ o →
  o + Zlen n ≤ offset ∨ offset + Zlen input ≤ o →
  wp (write offset input;; commit) (v, s) (λ r t, is_ok r = true →
    wp (v' ← open id;
        a ← read v' offset input; b ← read v' o n; mret (a, b)) t.2
       (λ r' _, match r' with
                | Ok (a, b) => a = input ∧ b = disk_read (disk_of s v) o (Zlen n)
                | Err _ => True
                end)).
Proof.
  intros Hinv Hcur Hid Hoff Ho Hdisj. apply wp_bind.
  eapply wp_mono; [by eapply write_spec|]. intros [[]|e] [v1 s1] [Hv1 H1]; simpl in *; [|done].
  destruct H1 as (Hr1 & Hinv1 & Hm1 & Hrev1 & Hd1). apply check_range_ok in Hr1 as (_ & _ & Hsz).
  assert (current s1 id v1) as Hcur1.
  { destruct Hcur as (h & Hh & Hrest). exists h. destruct Hv1 as (_ & -> & _).
    by rewrite Hm1 Hrev1. }
  eapply wp_mono; [by apply commit_spec|].
  intros [g|e] [v2 s2] (_ & _ & H2) Hok; [|done]. destruct H2 as (_ & _ & _ & _ & Hper).
  simpl in *. rewrite Hm1 in Hper. apply wp_bind.
  eapply wp_mono; [by eapply open_spec|]. intros [v3|e] s3 [Hv3 H3]; [|done].
  destruct H3 as (Hinv3 & _ & _ & _ & Hsz3 & Hd3).
  assert (disk_eq (size (vol_manifest v)) (disk_of s3 v3) (disk_write (disk_of s v) offset input)) as Hd.
  { etrans; [exact Hd3|]. exact Hd1. }
  apply wp_bind. eapply wp_mono; [by eapply read_spec|]. intros [a|e] s4 [Hv4 H4]; [|done].
  destruct H4 as [_ ->]. apply wp_bind.
  eapply wp_mono; [eapply read_spec; [by eapply vol_inv_view|done]|].
  intros [b|e] s5 [Hv5 H5]; [|done]. destruct H5 as [Hr ->].
  apply check_range_ok in Hr as (_ & _ & Hszo). rewrite Hsz3 in Hszo.
  pose proof (Zlen_nonneg input). pose proof (Zlen_nonneg n). apply wp_ret. split.
  - rewrite (disk_read_eq _ _ _ _ _ Hd) //. by apply disk_read_write.
  - rewrite -(disk_read_write_other (disk_of s v) offset input) //.
    eapply disk_read_eq; [|done|done|exact Hszo]. etrans; [|exact Hd].
    apply of_blocks_ext. intros i _ _. rewrite /block.
    destruct (dirty v3 !! i); [done|]. by apply committed_view.
Qed.

(** Reopening reads the persisted disk.  On a store that is up, opening the
    volume and reading any range inside it returns exactly the persisted bytes. *)
Theorem volume_reopen_reads s id sz d o n :
  persisted s id sz d → valid_id id = true → up s →
  0 ≤ o → o + Zlen n ≤ sz → o + Zlen n ≤ u64_max →
  wp (v ← open id; read v o n) s (λ r _, r = Ok (disk_read d o (Zlen n))).
Proof.
  intros Hper Hid Hup Ho Hsz Hu. apply wp_bind.
  eapply wp_mono; [apply wp_and; [by eapply open_spec|by eapply open_progress]|].
  intros r s' [[Hv H] [Hok Hup']]. destruct r as [v|]; [|done].
  destruct H as (Hinv & _ & Hr & _ & Hs & Hd). subst sz.
  eapply wp_mono; [apply wp_and; [by eapply read_spec|eapply read_progress; eauto]|].
  { apply check_range_ok. by split_and!. }
  intros [out|e] s2 [[_ Hout] Hok2]; [|done]. destruct Hout as [_ ->]. f_equal.
  eapply disk_read_eq; eauto. apply Zlen_nonneg.
Qed.

(** Progress.  On a store that is up, committing a usable handle whose
    blocks collide with nothing stored and whose next manifest fits the size
    limit succeeds. *)
Theorem volume_commit_progress s id v b :
  vol_inv s id v → current s id v → up s →
  reopen v = false → generation (vol_manifest v) < u64_max → no_collision s id v →
  to_vec (mkManifest (format (vol_manifest v)) id (size (vol_manifest v))
                     (generation (vol_manifest v) + 1) (next_chunks v)) = Some b →
  Zlen b ≤ MAX_MANIFEST_BYTES →
  wp commit (v, s) (λ r _, is_ok r = true).
Proof. apply commit_progress. Qed.

End volume.

(** ** A concrete volume

    One 64-KiB volume created on the reference store, with one dirty block. *)
#[export] Instance Manifest_eq_dec : EqDecision Manifest.
Proof. solve_decision. Defined.
#[export] Instance Manifest_countable : Countable Manifest :=
  inj_countable' (λ m, (format m, volume m, size m, generation m, chunks m))
    (λ '(a, b, c, d, e), mkManifest a b c d e) ltac:(by intros []).

Module Example.
Import Memory.
#[local] Instance toy : Sha256 := ToySha.toy.
#[local] Instance toy_laws : Sha256Laws := ToySha.toy_laws.
#[local] Instance json : Json Manifest := BitJson.bit_json Manifest.
#[local] Instance json_laws : JsonLaws Manifest := BitJson.bit_json_laws Manifest.

Definition s0 : Memory.Mem := (create "v" 65536 Memory.empty).2.
Definition m0 : Manifest := mkManifest 1 "v" 65536 0 ∅.
Definition block7 : list Z := replicate (Z.to_nat 65536) 7.
Definition v1 : Volume := mkVolume m0 "r0" {[0 := block7]} false.

Example create_result : (create "v" 65536 Memory.empty).1 = Ok (mkVolume m0 "r0" ∅ false).
Proof. vm_compute. reflexivity. Qed.

Lemma len7 : Zlen block7 = CHUNK_BYTES.
Proof. rewrite /Zlen /block7 length_replicate. vm_compute. reflexivity. Qed.

Lemma s0_objects : objects s0 = ∅.
Proof. vm_compute. reflexivity. Qed.

Lemma v1_dirty i b : dirty v1 !! i = Some b → 0 = i ∧ block7 = b.
Proof. apply lookup_singleton_Some. Qed.

Lemma v1_inv : vol_inv s0 "v" v1.
Proof.
  split; [vm_compute; reflexivity|intros i h; by rewrite lookup_empty|].
  intros i b [<- <-]%v1_dirty. split; [by vm_compute|apply len7].
Qed.

Lemma v1_current : current s0 "v" v1.
Proof.
  exists (mkHead "r0" (BitJson.bits (encode m0))). split; [vm_compute; reflexivity|].
  by split_and!; vm_compute.
Qed.

Lemma s0_persisted : persisted s0 "v" 65536 zero_disk.
Proof.
  exists (mkHead "r0" (BitJson.bits (encode m0))), m0.
  split_and!; [by vm_compute|by vm_compute|done|by vm_compute|by vm_compute| |done|].
  - intros i h. by rewrite lookup_empty.
  - intros p _. by rewrite /of_blocks /committed /chunk_block lookup_empty index_zeros.
Qed.

Lemma volume_commit_atomic_witness : wp commit (v1, s0) (commit_post s0 "v" v1).
Proof. apply (volume_commit_atomic s0 "v" v1); [apply v1_inv|apply v1_current]. Defined.

Lemma volume_durable_witness :
  wp (write 512 [1; 2; 3];; commit) (v1, s0) (λ r t, is_ok r = true →
    wp (v' ← open "v";
        a ← read v' 512 [1; 2; 3]; b ← read v' 0 [0; 0]; mret (a, b)) t.2
       (λ r' _, match r' with
                | Ok (a, b) => a = [1; 2; 3] ∧ b = disk_read (disk_of s0 v1) 0 (Zlen [0; 0])
                | Err _ => True
                end)).
Proof.
  apply (volume_durable s0 "v" v1 512 [1; 2; 3] 0 [0; 0]);
    [apply v1_inv|apply v1_current|reflexivity|lia|lia|by left].
Defined.

Lemma volume_reopen_reads_witness :
  wp (v ← open "v"; read v 4 [9; 9]) s0 (λ r _, r = Ok (disk_read zero_disk 4 (Zlen [9; 9]))).
Proof.
  apply (volume_reopen_reads s0 "v" 65536 zero_disk 4 [9; 9]);
    [apply s0_persisted|reflexivity|by vm_compute|lia|by vm_compute|by vm_compute].
Defined.

Lemma volume_commit_progress_witness : wp commit (v1, s0) (λ r _, is_ok r = true).
Proof.
  eapply (volume_commit_progress s0 "v" v1);
    [apply v1_inv|apply v1_current|by vm_compute|reflexivity|by vm_compute| |reflexivity|].
  - intros i b [<- <-]%v1_dirty. split; [intros b0; by rewrite s0_objects lookup_empty|].
    by intros j b' [<- <-]%v1_dirty.
  - vm_compute. discriminate.
Defined.
End Example.
End Vol.
