(* ===== verification/Frame.v ===== *)
(** The agent wire protocol, [ahvm-proto/src/v2.rs], and the endpoint filter of
    [ahvm-proto/src/lib.rs].  A reader is a list of events, one per [read] call
    that the transport will answer: some bytes, an interruption, or an I/O error;
    after them the stream is at end of file.  [parse] is the reference decoder on
    the concatenated bytes; [read_frame] is shown to compute it whatever the
    chunking of the transport. *)
From S2P Require Import Prelude Codec.

Module Proto.

Definition PROTOCOL_VERSION : Z := 2.
Definition MAX_FRAME_SIZE : Z := Z.shiftl 1 20.

Inductive FrameType : Type :=
| ExecReq | Auth | ConfigReq | ConfigResp | ExecResp | ErrorFrame | FileReq | FileResp
| SessionReq | SessionResp | SessionData | ForwardReq | ForwardResp | FileData | FileCommit.

#[export] Instance FrameType_eq_dec : EqDecision FrameType.
Proof. solve_decision. Defined.

(** [msg_type as u8] *)
Definition nibble (t : FrameType) : Z :=
  match t with
  | ExecReq => 0 | Auth => 1 | ConfigReq => 2 | ConfigResp => 3 | ExecResp => 4
  | ErrorFrame => 5 | FileReq => 6 | FileResp => 7 | SessionReq => 8 | SessionResp => 9
  | SessionData => 10 | ForwardReq => 11 | ForwardResp => 12 | FileData => 13 | FileCommit => 14
  end.
Definition from_nibble (n : Z) : option FrameType :=
  match n with
  | 0 => Some ExecReq | 1 => Some Auth | 2 => Some ConfigReq | 3 => Some ConfigResp
  | 4 => Some ExecResp | 5 => Some ErrorFrame | 6 => Some FileReq | 7 => Some FileResp
  | 8 => Some SessionReq | 9 => Some SessionResp | 10 => Some SessionData
  | 11 => Some ForwardReq | 12 => Some ForwardResp | 13 => Some FileData
  | 14 => Some FileCommit | _ => None
  end.

Record Frame := mkFrame { msg_type : FrameType; payload : list Z }.

(** [v2::Error]; [Io] carries the kind of the underlying error. *)
Inductive FrameError : Type :=
| Io (kind : Z)
| CleanEof
| ZeroLength
| TooLarge (n : Z)
| UnknownVersion (v : Z)
| UnknownType (t : Z)
| UnexpectedEof.

(** The answers of successive [read] calls. *)
Inductive Event : Type :=
| Data (l : list Z)
| Interrupted
| Failed (kind : Z).
Definition Stream : Type := list Event.

(** [read_exact_eof(r, buf)] with [n] the bytes of [buf] still to fill. *)
Fixpoint read_exact_eof (n : nat) (got_any : bool) (st : Stream)
    : Result FrameError (list Z) * Stream :=
  match n with
  | O => (Ok [], st)
  | S _ =>
      match st with
      | [] | Data [] :: _ => (Err (if got_any then UnexpectedEof else CleanEof), st)
      | Data l :: st' =>
          if (n <? length l)%nat then (Ok (take n l), Data (drop n l) :: st')
          else match read_exact_eof (n - length l) true st' with
               | (Ok rest, st'') => (Ok (l ++ rest), st'')
               | (Err e, st'') => (Err e, st'')
               end
      | Interrupted :: st' => read_exact_eof n got_any st'
      | Failed k :: st' => (Err (Io k), st')
      end
  end.

(** The bytes handed to the one [write_all].  [payload.len() as u32] keeps the
    low 32 bits, and the addition wraps as in a release build. *)
Definition write_frame (f : Frame) : Result FrameError (list Z) :=
  let body_len := (1 + Zlen (payload f) mod 2 ^ 32) mod 2 ^ 32 in
  if MAX_FRAME_SIZE <? body_len then Err (TooLarge body_len)
  else Ok (to_be_bytes 4 body_len
             ++ Z.lor (Z.shiftl PROTOCOL_VERSION 4) (nibble (msg_type f)) :: payload f).

(** What follows the successful read of the body. *)
Definition decode_body (body : list Z) : Result FrameError Frame :=
  let b0 := index body 0 in
  let ver := Z.shiftr b0 4 in
  if negb (ver =? PROTOCOL_VERSION) then Err (UnknownVersion ver)
  else match from_nibble (Z.land b0 15) with
       | None => Err (UnknownType b0)
       | Some t => Ok (mkFrame t (drop 1 body))
       end.

Definition read_frame (st : Stream) : Result FrameError Frame * Stream :=
  match read_exact_eof 4 false st with
  | (Err e, st) => (Err e, st)
  | (Ok len_buf, st) =>
      let body_len := from_be_bytes len_buf in
      if body_len =? 0 then (Err ZeroLength, st)
      else if MAX_FRAME_SIZE <? body_len then (Err (TooLarge body_len), st)
      else match read_exact_eof (Z.to_nat body_len) false st with
           | (Err CleanEof, st) => (Err UnexpectedEof, st)
           | (Err e, st) => (Err e, st)
           | (Ok body, st) => (decode_body body, st)
           end
  end.

(** [valid_private_endpoint] on the octets and port of a socket address. *)
Definition valid_private_endpoint (a b c d port : Z) : bool :=
  negb (port =? 0)
  && negb ((a =? 0) || (224 <=? a) && (a <=? 255))
  && negb ((a =? 169) && (b =? 254))
  && negb ((a =? 100) && ((64 <=? b) && (b <=? 127))).

(** ** The reference decoder *)

(** The first [n] bytes of [bs]; a stream with none of them is at its end. *)
Definition split_exact (n : nat) (bs : list Z) : Result FrameError (list Z * list Z) :=
  if (n <=? length bs)%nat then Ok (take n bs, drop n bs)
  else Err (match bs with [] => CleanEof | _ => UnexpectedEof end).

Definition parse (bs : list Z) : Result FrameError (Frame * list Z) :=
  match split_exact 4 bs with
  | Err e => Err e
  | Ok (len_buf, bs) =>
      let body_len := from_be_bytes len_buf in
      if body_len =? 0 then Err ZeroLength
      else if MAX_FRAME_SIZE <? body_len then Err (TooLarge body_len)
      else match split_exact (Z.to_nat body_len) bs with
           | Err _ => Err UnexpectedEof
           | Ok (body, rest) =>
               match decode_body body with
               | Ok f => Ok (f, rest)
               | Err e => Err e
               end
           end
  end.

(** A transport that delivers [bs] and then ends: every answer has a byte or is
    an interruption. *)
Inductive delivers : Stream → list Z → Prop :=
| delivers_eof : delivers [] []
| delivers_data l st bs : l ≠ [] → delivers st bs → delivers (Data l :: st) (l ++ bs)
| delivers_interrupted st bs : delivers st bs → delivers (Interrupted :: st) bs.

Create HintDb proto.
#[export] Hint Constructors delivers : proto.

Lemma nibble_range t : 0 ≤ nibble t < 15.
Proof. destruct t; simpl; lia. Qed.

Lemma from_nibble_nibble t : from_nibble (nibble t) = Some t.
Proof. by destruct t. Qed.

Lemma split_exact_app n l k : n = length l → split_exact n (l ++ k) = Ok (l, k).
Proof.
  intros ->. rewrite /split_exact length_app.
  destruct (Nat.leb_spec (length l) (length l + length k)); [|lia].
  by rewrite take_app_length drop_app_length.
Qed.

(** [read_exact_eof] takes exactly the next [n] bytes, however they arrive. *)
Lemma read_exact_spec st bs : delivers st bs → ∀ n got,
  match split_exact n bs with
  | Ok (b, rest) => ∃ st', read_exact_eof n got st = (Ok b, st') ∧ delivers st' rest
  | Err _ => (read_exact_eof n got st).1 =
      Err (match bs with [] => if got then UnexpectedEof else CleanEof | _ => UnexpectedEof end)
  end.
Proof.
  induction 1 as [|l st bs Hl Hst IH|st bs Hst IH]; intros n got.
  - destruct n; [|done]. eexists. split; [done|constructor].
  - destruct n as [|n]; [eexists; split; [done|by constructor]|].
    destruct l as [|x l]; [done|]. set (l' := x :: l).
    assert (read_exact_eof (S n) got (Data l' :: st) =
      if (S n <? length l')%nat then (Ok (take (S n) l'), Data (drop (S n) l') :: st)
      else match read_exact_eof (S n - length l') true st with
           | (Ok rest, st'') => (Ok (l' ++ rest), st'')
           | (Err e, st'') => (Err e, st'') end) as Heq by done.
    rewrite Heq /split_exact length_app. destruct (Nat.ltb_spec (S n) (length l')) as [Hlt|Hge].
    + destruct (Nat.leb_spec (S n) (length l' + length bs)); [|lia]. eexists. split.
      * by rewrite take_app_le; [lia|].
      * rewrite drop_app_le; [lia|]. constructor; [|done].
        intros Hn%(f_equal length). rewrite length_drop /= in Hn. simpl in Hlt. lia.
    + specialize (IH (S n - length l')%nat true). rewrite /split_exact in IH.
      destruct (Nat.leb_spec (S n - length l') (length bs)) as [Hle|Hgt].
      * destruct (Nat.leb_spec (S n) (length l' + length bs)); [|lia].
        destruct IH as (st' & -> & Hst'). eexists. split; [|].
        { by rewrite take_app_ge; [lia|]. }
        by rewrite drop_app_ge; [lia|].
      * destruct (Nat.leb_spec (S n) (length l' + length bs)); [lia|].
        destruct (read_exact_eof _ true st) as [[] ?]; simpl in IH |- *; [done|].
        injection IH as ->. by destruct bs.
  - specialize (IH n got). destruct n; [|done].
    destruct (split_exact 0 bs) as [[b rest]|e] eqn:E; [|by rewrite /split_exact in E].
    injection E as <- <-. exists (Interrupted :: st). split; [done|]. by constructor.
Qed.

Lemma read_frame_spec st bs :
  delivers st bs →
  match parse bs with
  | Ok (f, rest) => ∃ st', read_frame st = (Ok f, st') ∧ delivers st' rest
  | Err e => (read_frame st).1 = Err e
  end.
Proof.
  intros Hst. rewrite /parse /read_frame.
  pose proof (read_exact_spec st bs Hst 4 false) as H4.
  destruct (split_exact 4 bs) as [[lb bs1]|e] eqn:E4.
  2: { destruct (read_exact_eof 4 false st) as [[] st1]; simpl in H4 |- *; [done|].
       injection H4 as ->. rewrite /split_exact in E4. case_match; [done|].
       injection E4 as <-. by destruct bs. }
  destruct H4 as (st1 & -> & Hst1). cbv zeta.
  destruct (from_be_bytes lb =? 0); [done|]. destruct (MAX_FRAME_SIZE <? from_be_bytes lb); [done|].
  pose proof (read_exact_spec st1 bs1 Hst1 (Z.to_nat (from_be_bytes lb)) false) as Hb.
  destruct (split_exact _ bs1) as [[body rest]|e] eqn:Eb.
  - destruct Hb as (st2 & -> & Hst2). destruct (decode_body body); eauto.
  - destruct (read_exact_eof _ false st1) as [[] st2]; simpl in Hb |- *; [done|].
    injection Hb as ->. by destruct bs1.
Qed.

(** C18: [read_frame] computes the reference decoder.  On any transport that
    delivers [bs] in non-empty pieces, with interruptions, and then ends, the
    result is that of [parse] on [bs] (same frame, same error), and after a
    frame the transport delivers exactly the bytes behind it. *)
Theorem read_frame_parse st bs :
  delivers st bs →
  match parse bs with
  | Ok (f, rest) => ∃ st', read_frame st = (Ok f, st') ∧ delivers st' rest
  | Err e => (read_frame st).1 = Err e
  end.
Proof. apply read_frame_spec. Qed.

Lemma write_frame_ok f out : write_frame f = Ok out → Zlen (payload f) < 2 ^ 32 - 1 →
  Zlen (payload f) + 1 ≤ MAX_FRAME_SIZE ∧
  out = to_be_bytes 4 (1 + Zlen (payload f)) ++ Z.lor 32 (nibble (msg_type f)) :: payload f.
Proof.
  intros Hw Hlen. pose proof (Zlen_nonneg (payload f)). rewrite /write_frame in Hw.
  rewrite (Z.mod_small (Zlen _)) in Hw; [lia|]. rewrite Z.mod_small in Hw; [lia|].
  case_match eqn:E; [done|]. injection Hw as <-. split; [lia|done].
Qed.

Lemma version_byte n : 0 ≤ n < 16 →
  Z.shiftr (Z.lor 32 n) 4 = 2 ∧ Z.land (Z.lor 32 n) 15 = n.
Proof.
  intros. assert (n ∈ [0;1;2;3;4;5;6;7;8;9;10;11;12;13;14;15]) as Hin.
  { rewrite !elem_of_cons. lia. }
  repeat (apply elem_of_cons in Hin as [->|Hin]; [done|]). by apply not_elem_of_nil in Hin.
Qed.

(** Round trip.  What [write_frame] accepts (of payloads shorter
    than [u32::MAX] bytes, where the length does not wrap) is read back by
    [read_frame] as the same frame, over any chunking and with any bytes of
    later frames behind it, which stay unread. *)
Theorem frame_roundtrip f out rest st :
  Zlen (payload f) < 2 ^ 32 - 1 →
  write_frame f = Ok out → delivers st (out ++ rest) →
  ∃ st', read_frame st = (Ok f, st') ∧ delivers st' rest.
Proof.
  intros Hlen Hw Hst. apply write_frame_ok in Hw as [Hmax ->]; [|done].
  pose proof (Zlen_nonneg (payload f)) as Hp. set (n := 1 + Zlen (payload f)) in *.
  pose proof (read_frame_spec _ _ Hst) as Hr.
  assert (MAX_FRAME_SIZE = 1048576) as HM by done.
  assert (from_be_bytes (to_be_bytes 4 n) = n) as Hn by (apply from_to_be_bytes; simpl; lia).
  pose proof (nibble_range (msg_type f)). destruct (version_byte (nibble (msg_type f))) as [Hv Ht]; [lia|].
  assert (parse ((to_be_bytes 4 n ++ Z.lor 32 (nibble (msg_type f)) :: payload f) ++ rest)
    = Ok (f, rest)) as Hp'; [|by rewrite Hp' in Hr].
  rewrite -app_assoc /parse (split_exact_app 4); [by rewrite length_to_be_bytes|]. cbv zeta.
  rewrite Hn. destruct (Z.eqb_spec n 0); [lia|]. destruct (Z.ltb_spec MAX_FRAME_SIZE n); [lia|].
  rewrite split_exact_app; [rewrite /n /Zlen /=; lia|].
  rewrite /decode_body /index /= Hv /= Ht from_nibble_nibble drop_0.
  by destruct f.
Qed.

Example roundtrip_chunked :
  read_frame [Data [0; 0]; Interrupted; Data [0; 3; 36]; Data [7; 8; 99]]
  = (Ok (mkFrame ExecResp [7; 8]), [Data [99]]).
Proof. reflexivity. Qed.

Lemma read_frame_parse_witness :
  ∃ st', read_frame [Data [0; 0; 0]; Interrupted; Data [2; 32; 5; 1]]
         = (Ok (mkFrame ExecReq [5]), st') ∧ delivers st' [1].
Proof.
  apply (read_frame_parse [Data [0; 0; 0]; Interrupted; Data [2; 32; 5; 1]] [0; 0; 0; 2; 32; 5; 1]).
  apply (delivers_data [0; 0; 0]); [done|]. apply delivers_interrupted.
  apply (delivers_data [2; 32; 5; 1] _ []); [done|]. constructor.
Defined.

Lemma frame_roundtrip_witness :
  ∃ st', read_frame [Data [0; 0; 0; 2; 33]; Data [5]; Data [1]]
         = (Ok (mkFrame Auth [5]), st') ∧ delivers st' [1].
Proof.
  apply (frame_roundtrip (mkFrame Auth [5]) [0; 0; 0; 2; 33; 5] [1]); [done|reflexivity|].
  apply (delivers_data [0; 0; 0; 2; 33]); [done|]. apply (delivers_data [5]); [done|].
  apply (delivers_data [1] _ []); [done|]. constructor.
Defined.

(** An administrator's grant never opens the forbidden ranges: whatever
    endpoint passes [valid_private_endpoint] has a port and is outside 0/8,
    multicast and reserved space, link-local (cloud metadata) and the guests'
    shared 100.64/10 range; every other endpoint with a port passes. *)
Theorem private_endpoint_exact a b c d port :
  0 ≤ a < 256 →
  valid_private_endpoint a b c d port = true ↔
  port ≠ 0 ∧ a ≠ 0 ∧ a < 224 ∧ ¬ (a = 169 ∧ b = 254) ∧ ¬ (a = 100 ∧ 64 ≤ b ≤ 127).
Proof. intros. rewrite /valid_private_endpoint. lia. Qed.

Lemma private_endpoint_exact_witness :
  valid_private_endpoint 100 64 0 2 80 = true ↔
  80 ≠ 0 ∧ 100 ≠ 0 ∧ 100 < 224 ∧ ¬ (100 = 169 ∧ 64 = 254) ∧ ¬ (100 = 100 ∧ 64 ≤ 64 ≤ 127).
Proof. apply (private_endpoint_exact 100 64 0 2 80). lia. Defined.

End Proto.
