(* ===== verification/Dns.v ===== *)
(** Matching of DNS replies, [ahvm-netd/src/dns.rs]: the question parser with its
    bounded compression traversal, and the truncated reply that is built when an
    answer does not fit the guest's link. *)
From S2P Require Import Prelude Codec.

Module Dns.

Record Question := mkQuestion {
  q_id : list Z;
  opcode : Z;
  name : list Z;
  kind : list Z;
}.

#[export] Instance Question_eq_dec : EqDecision Question.
Proof. solve_decision. Defined.

(** [packet.get(i)] and [packet.get(a..a + n)]. *)
Definition get (packet : list Z) (i : Z) : option Z := packet !! Z.to_nat i.
Definition get_range (packet : list Z) (a n : Z) : option (list Z) :=
  if a + n <=? Zlen packet then Some (slice packet a n) else None.
Definition to_ascii_lowercase (b : Z) : Z :=
  if (65 <=? b) && (b <=? 90) then b + 32 else b.

(** The [for _ in 0..128] loop of [parse_question]; [fuel] counts the remaining
    iterations. *)
Fixpoint walk (fuel : nat) (packet : list Z) (at_ limit : Z) (end_ : option Z) (nm : list Z)
    : option (Question * Z) :=
  match fuel with
  | O => None
  | S fuel =>
      if limit <=? at_ then None
      else
        len ← get packet at_;
        if Z.land len 192 =? 192 then
          if limit <? at_ + 2 then None
          else
            lo ← get packet (at_ + 1);
            let target := Z.lor (Z.shiftl (Z.land len 63) 8) lo in
            let end_ := Some (default (at_ + 2) end_) in
            if (target <? 12) || (at_ <=? target) then None
            else walk fuel packet target at_ end_ nm
        else if len <=? 63 then
          let at_ := at_ + 1 in
          let nm := nm ++ [len] in
          if (255 <? Zlen nm + len) || (limit <? at_ + len) then None
          else if len =? 0 then
            let e := default at_ end_ in
            k ← get_range packet e 4;
            Some (mkQuestion (slice packet 0 2) (Z.land (index packet 2) 120) nm k, e + 4)
          else
            label ← get_range packet at_ len;
            walk fuel packet (at_ + len) limit end_ (nm ++ (to_ascii_lowercase <$> label))
        else None
  end.

Definition parse_question (packet : list Z) : option (Question * Z) :=
  if (Zlen packet <? 12) || negb (bool_decide (slice packet 4 2 = [0; 1])) then None
  else walk 128 packet 12 (Zlen packet) None [].

Definition parse (packet : list Z) : option Question := fst <$> parse_question packet.

Definition query (packet : list Z) : option Question :=
  flags ← get packet 2;
  if negb (Z.land flags 128 =? 0) then None else parse packet.

Definition matches (q : Question) (packet : list Z) : bool :=
  match get packet 2 with
  | Some flags => negb (Z.land flags 128 =? 0) && bool_decide (parse packet = Some q)
  | None => false
  end.

Definition truncated_reply (q : Question) (packet : list Z) : option (list Z) :=
  if negb (matches q packet) then None
  else
    qe ← parse_question packet;
    let reply := slice packet 0 qe.2 in
    let reply := splice reply 2 [Z.lor (index reply 2) 2] in
    Some (splice reply 6 (zeros 6)).

Lemma get_Some p i b : 0 ≤ i → get p i = Some b → index p i = b ∧ i < Zlen p.
Proof.
  rewrite /get /Zlen => Hi Hg. split; [by rewrite index_lookup Hg|].
  apply lookup_lt_Some in Hg. lia.
Qed.

Lemma get_index p i : 0 ≤ i < Zlen p → get p i = Some (index p i).
Proof.
  rewrite /get /Zlen => Hi. destruct (lookup_lt_is_Some_2 p (Z.to_nat i)) as [b Hb]; [lia|].
  by rewrite index_lookup Hb.
Qed.

Lemma get_range_Some p a n l : get_range p a n = Some l → a + n ≤ Zlen p ∧ l = slice p a n.
Proof. rewrite /get_range. case_match eqn:E; [|done]. intros [= <-]. split; [lia|done]. Qed.

(** One iteration, by cases: a pointer, the final empty label, or a label. *)
Lemma walk_step fuel p at_ limit end_ nm q e :
  0 ≤ at_ → walk (S fuel) p at_ limit end_ nm = Some (q, e) →
  at_ < limit ∧ at_ < Zlen p ∧
  let len := index p at_ in
  (∃ target, Z.land len 192 = 192 ∧ at_ + 2 ≤ limit ∧ at_ + 1 < Zlen p ∧
     target = Z.lor (Z.shiftl (Z.land len 63) 8) (index p (at_ + 1)) ∧ 12 ≤ target < at_ ∧
     walk fuel p target at_ (Some (default (at_ + 2) end_)) nm = Some (q, e)) ∨
  (len = 0 ∧ Zlen nm ≤ 254 ∧ at_ + 1 ≤ limit ∧ e = default (at_ + 1) end_ + 4 ∧
     e ≤ Zlen p ∧
     q = mkQuestion (slice p 0 2) (Z.land (index p 2) 120) (nm ++ [0])
                    (slice p (default (at_ + 1) end_) 4)) ∨
  (Z.land len 192 ≠ 192 ∧ len ≤ 63 ∧ len ≠ 0 ∧ Zlen nm + 1 + len ≤ 255 ∧
     at_ + 1 + len ≤ limit ∧ at_ + 1 + len ≤ Zlen p ∧
     walk fuel p (at_ + 1 + len) limit end_
       (nm ++ [len] ++ (to_ascii_lowercase <$> slice p (at_ + 1) len)) = Some (q, e)).
Proof.
  intros Hat Hw. simpl in Hw. destruct (Z.leb_spec limit at_); [done|].
  destruct (get p at_) as [len|] eqn:Hg; [|done]. apply get_Some in Hg as [<- Hlen]; [|done].
  simpl in Hw. do 2 (split; [done|]). cbv zeta. set (len := index p at_) in *.
  destruct (Z.eqb_spec (Z.land len 192) 192) as [Hptr|Hptr].
  { left. destruct (Z.ltb_spec limit (at_ + 2)); [done|].
    destruct (get p (at_ + 1)) as [lo|] eqn:Hlo; [|done]. simpl in Hw.
    apply get_Some in Hlo as [<- ?]; [|lia].
    case_match eqn:Ht; [done|]. apply orb_false_iff in Ht as [].
    eexists. split_and!; eauto; lia. }
  right. destruct (Z.leb_spec len 63); [|done].
  case_match eqn:Hb; [done|]. rewrite Zlen_app Zlen_cons Zlen_nil in Hb.
  apply orb_false_iff in Hb as [].
  destruct (Z.eqb_spec len 0) as [Hz|Hz].
  - left. destruct (get_range p _ 4) as [k|] eqn:Hk; [|done]. simpl in Hw.
    apply get_range_Some in Hk as [? ->]. injection Hw as <- <-. rewrite Hz.
    split_and!; [done|lia|lia|done|lia|done].
  - right. destruct (get_range p (at_ + 1) len) as [label|] eqn:Hk; [|done]. simpl in Hw.
    apply get_range_Some in Hk as [? ->]. rewrite -app_assoc in Hw. by split_and!; try lia.
Qed.

(** Where the parser stops: it has not passed a pointer yet exactly when [end_]
    is [None], and then it has consumed as many bytes as the name has. *)
Definition at_ok (at_ limit : Z) (end_ : option Z) (nm : list Z) : Prop :=
  12 ≤ at_ ∧ Zlen nm ≤ 255 ∧
  match end_ with
  | None => at_ = 12 + Zlen nm
  | Some e => limit ≤ e - 2 ∧ 14 ≤ e ≤ 269
  end.

Lemma byte_index p i : bytes p → 0 ≤ index p i < 256.
Proof.
  intros Hby. rewrite index_lookup. destruct (p !! Z.to_nat i) as [b|] eqn:Hb; [|done].
  eapply Forall_lookup_1 in Hb; [|exact Hby]. done.
Qed.

Lemma Zlen_label p at_ len nm : 0 ≤ at_ → 0 ≤ len → at_ + len ≤ Zlen p →
  Zlen (nm ++ [len] ++ (to_ascii_lowercase <$> slice p at_ len)) = Zlen nm + 1 + len.
Proof.
  intros. pose proof (Zlen_slice p at_ len) as Hs. rewrite /Zlen in Hs |- *.
  rewrite !length_app length_fmap /=. rewrite /Zlen in H1. lia.
Qed.

Lemma walk_bounds fuel p at_ limit end_ nm q e :
  bytes p → at_ok at_ limit end_ nm → walk fuel p at_ limit end_ nm = Some (q, e) →
  17 ≤ e ≤ 273 ∧ e ≤ Zlen p ∧ Zlen (name q) ≤ 255 ∧ Zlen (kind q) = 4 ∧
  q_id q = slice p 0 2 ∧ opcode q = Z.land (index p 2) 120 ∧
  match end_ with None => at_ + 5 ≤ e | Some x => e = x + 4 end.
Proof.
  intros Hby. revert at_ limit end_ nm.
  induction fuel as [|fuel IH]; intros at_ limit end_ nm (Hat & Hnm & Hend) Hw; [done|].
  apply walk_step in Hw; [|lia].
  destruct Hw as (Hlim & Hlt & [(tg & _ & ? & ? & _ & Htg & Hw)|[(Hz & Hn & ? & -> & ? & ->)|Hl]]).
  - apply IH in Hw as (?&?&?&?&?&?&He); [destruct end_; simpl in *; split_and!; auto; lia|].
    rewrite /at_ok. destruct end_; simpl in *; lia.
  - pose proof (Zlen_nonneg nm). simpl. rewrite Zlen_app Zlen_slice; [destruct end_; simpl in *; lia..|].
    rewrite Zlen_cons Zlen_nil. destruct end_ as [x|]; simpl in *; split_and!; try done; try lia.
  - destruct Hl as (_ & ? & ? & ? & ? & ? & Hw). pose proof (byte_index p at_ Hby).
    pose proof (Zlen_label p (at_ + 1) (index p at_) nm) as Hnl.
    apply IH in Hw as (?&?&?&?&?&?&?).
    + destruct end_; simpl in *; split_and!; auto; lia.
    + rewrite /at_ok. destruct end_ as [x|]; lia.
Qed.

(** The limit in force when the packet ends at [e]. *)
Definition stop_at (end_ : option Z) (limit e : Z) : Z :=
  match end_ with Some _ => limit | None => e end.

(** The parser reads nothing at or behind the end it reports: a packet that
    agrees with [p] from the names to that end, and stops there, parses to the
    same name and kind. *)
Lemma walk_prefix fuel p p' at_ limit end_ nm q e :
  bytes p → at_ok at_ limit end_ nm → walk fuel p at_ limit end_ nm = Some (q, e) →
  Zlen p' = e → (∀ i, 12 ≤ i < e → index p' i = index p i) →
  walk fuel p' at_ (stop_at end_ limit e) end_ nm =
    Some (mkQuestion (slice p' 0 2) (Z.land (index p' 2) 120) (name q) (kind q), e).
Proof.
  intros Hby Hok Hw Hlen Hagree. revert at_ limit end_ nm Hok Hw.
  induction fuel as [|fuel IH]; intros at_ limit end_ nm Hok Hw; [done|].
  pose proof (walk_bounds _ _ _ _ _ _ _ _ Hby Hok Hw) as (He & Hep & _ & _ & _ & _ & Hend).
  destruct Hok as (Hat & Hnm & Hok).
  assert (∀ a n, 12 ≤ a → 0 ≤ n → a + n ≤ e → slice p' a n = slice p a n) as Hslice.
  { intros a n ???. apply list_index_eq; rewrite !Zlen_slice; try lia.
    intros i Hi. rewrite !index_slice; try lia. apply Hagree. lia. }
  apply walk_step in Hw; [|lia]. destruct Hw as (Hlim & Hlt & Hw).
  assert (at_ < (stop_at end_ limit e) ∧ at_ < e) as [Hlim' Hlt'] by (destruct end_; simpl in *; lia).
  assert (get p' at_ = Some (index p at_)) as Hg by (rewrite get_index -?Hagree; [lia..|done]).
  simpl. destruct (Z.leb_spec (stop_at end_ limit e) at_); [lia|]. rewrite Hg /=.
  destruct Hw as [(tg & Hptr & ? & ? & Htg & ? & Hw)|[(Hz & Hn & ? & He' & _ & Hq)|Hl]].
  - rewrite Hptr /=.
    pose proof (walk_bounds fuel p tg at_ (Some (default (at_ + 2) end_)) nm q e Hby) as (_&_&_&_&_&_&Hx); [|done|].
    { rewrite /at_ok. destruct end_; simpl in *; lia. }
    destruct (Z.ltb_spec (stop_at end_ limit e) (at_ + 2)); [destruct end_; simpl in *; lia|].
    rewrite get_index; [destruct end_; simpl in *; lia|]. simpl.
    rewrite Hagree; [destruct end_; simpl in *; lia|]. rewrite -Htg.
    destruct (Z.ltb_spec tg 12); [lia|]. destruct (Z.leb_spec at_ tg); [lia|]. simpl.
    apply (IH tg at_ (Some (default (at_ + 2) end_))); [|done].
    rewrite /at_ok. destruct end_; simpl in *; lia.
  - rewrite Hz /=. rewrite Zlen_app Zlen_cons Zlen_nil.
    destruct (Z.ltb_spec 255 (Zlen nm + (1 + 0) + 0)); [lia|].
    destruct (Z.ltb_spec (stop_at end_ limit e) (at_ + 1 + 0)); [lia|]. simpl.
    rewrite /get_range Hlen. destruct (Z.leb_spec (default (at_ + 1) end_ + 4) e); [|lia]. simpl.
    rewrite (Hslice (default _ _)); [destruct end_; simpl in *; lia..|]. by rewrite Hq He'.
  - destruct Hl as (Hptr & ? & ? & ? & ? & ? & Hw). pose proof (byte_index p at_ Hby).
    pose proof (Zlen_label p (at_ + 1) (index p at_) nm).
    assert (at_ok (at_ + 1 + index p at_) limit end_
      (nm ++ [index p at_] ++ (to_ascii_lowercase <$> slice p (at_ + 1) (index p at_)))) as Hok'.
    { rewrite /at_ok. destruct end_; lia. }
    pose proof (walk_bounds _ _ _ _ _ _ _ _ Hby Hok' Hw) as (_&_&_&_&_&_&Hx).
    destruct (Z.eqb_spec (Z.land (index p at_) 192) 192); [done|].
    destruct (Z.leb_spec (index p at_) 63); [|lia]. rewrite Zlen_app Zlen_cons Zlen_nil.
    destruct (Z.ltb_spec 255 (Zlen nm + (1 + 0) + index p at_)); [lia|].
    destruct (Z.ltb_spec (stop_at end_ limit e) (at_ + 1 + index p at_)); [destruct end_; simpl in *; lia|]. simpl.
    destruct (Z.eqb_spec (index p at_) 0); [done|].
    rewrite /get_range Hlen. destruct (Z.leb_spec (at_ + 1 + index p at_) e); [|destruct end_; simpl in *; lia].
    simpl. rewrite Hslice; [lia|lia|destruct end_; simpl in *; lia|]. rewrite -app_assoc. by apply IH.
Qed.

#[global] Arguments walk : simpl never.

Lemma parse_question_bounds p q e : bytes p → parse_question p = Some (q, e) →
  17 ≤ e ≤ 273 ∧ e ≤ Zlen p ∧ Zlen (name q) ≤ 255 ∧ Zlen (kind q) = 4 ∧
  q_id q = slice p 0 2 ∧ opcode q = Z.land (index p 2) 120 ∧ slice p 4 2 = [0; 1].
Proof.
  intros Hby. rewrite /parse_question. case_match eqn:E; [done|]. intros Hw.
  apply orb_false_iff in E as [_ Hs%negb_false_iff%bool_decide_eq_true].
  apply walk_bounds in Hw; [|done|rewrite /at_ok Zlen_nil; lia].
  destruct Hw as (?&?&?&?&?&?&_). auto 10.
Qed.

(** Bounds of the DNS parser.  A parsed question ends inside the packet, at
    most 273 bytes from its start, its expanded name has at most 255 bytes and
    its type and class are four bytes: compression loops and overlong names
    cannot grow what the forwarder keeps or sends. *)
Theorem dns_question_bounds p q e :
  bytes p → parse_question p = Some (q, e) →
  17 ≤ e ≤ 273 ∧ e ≤ Zlen p ∧ Zlen (name q) ≤ 255 ∧ Zlen (kind q) = 4.
Proof. intros Hby Hp. by apply parse_question_bounds in Hp as (?&?&?&?&_). Qed.

(** The bytes of the truncated reply: the question with TC set and zero record
    counts. *)
Definition truncated (p : list Z) (e : Z) : list Z :=
  splice (splice (slice p 0 e) 2 [Z.lor (index (slice p 0 e) 2) 2]) 6 (zeros 6).

Lemma Zlen_truncated p e : 17 ≤ e ≤ Zlen p → Zlen (truncated p e) = e.
Proof.
  intros He. assert (Zlen (slice p 0 e) = e) by (apply Zlen_slice; lia).
  by rewrite /truncated !Zlen_splice ?Zlen_splice ?Zlen_cons ?Zlen_nil ?Zlen_zeros; lia.
Qed.

Lemma index_truncated p e i : 17 ≤ e ≤ Zlen p → 0 ≤ i < e →
  index (truncated p e) i = if decide (6 ≤ i < 12) then 0
    else if decide (i = 2) then Z.lor (index p 2) 2 else index p i.
Proof.
  intros He Hi. assert (Zlen (slice p 0 e) = e) by (apply Zlen_slice; lia).
  assert (∀ i, 0 ≤ i < e → index (slice p 0 e) i = index p i) as Hs by (intros; by rewrite index_slice; [lia..|]).
  rewrite /truncated index_splice ?Zlen_splice ?Zlen_cons ?Zlen_nil ?Zlen_zeros; try lia.
  case_decide; [rewrite decide_True; [lia|apply index_zeros]|]. rewrite decide_False; [lia|].
  rewrite index_splice ?Zlen_cons ?Zlen_nil; [lia..|].
  repeat case_decide; try lia; [subst i|by apply Hs]. by rewrite Hs; [lia|].
Qed.

Lemma slice_truncated p e a n : 17 ≤ e ≤ Zlen p → 0 ≤ a → 0 ≤ n → a + n ≤ e →
  (a + n ≤ 2 ∨ 3 ≤ a ∧ a + n ≤ 6) → slice (truncated p e) a n = slice p a n.
Proof.
  intros He ????. pose proof (Zlen_truncated p e He).
  apply list_index_eq; rewrite !Zlen_slice; try lia.
  intros i ?. rewrite !index_slice; try lia. rewrite index_truncated; try lia.
  rewrite !decide_False //; lia.
Qed.

(** The truncated packet parses to the same question. *)
Lemma parse_truncated p q e : bytes p → parse_question p = Some (q, e) →
  parse (truncated p e) = Some q.
Proof.
  intros Hby Hp. pose proof (parse_question_bounds _ _ _ Hby Hp) as (He & Hep & _ & _ & Hid & Hop & H45).
  assert (17 ≤ e ≤ Zlen p) as Hb by lia. pose proof (Zlen_truncated p e Hb) as Hr.
  rewrite /parse /parse_question in Hp |- *.
  destruct ((Zlen p <? 12) || negb (bool_decide (slice p 4 2 = [0; 1]))); [done|].
  rewrite (slice_truncated p e 4 2) // ?H45; [lia..|]. destruct (Z.ltb_spec (Zlen (truncated p e)) 12); [lia|].
  eapply walk_prefix in Hp; [|done|rewrite /at_ok Zlen_nil; lia|exact Hr|].
  2: { intros i ?. rewrite index_truncated; try lia. rewrite !decide_False //; lia. }
  simpl in Hp. rewrite Hr /= Hp /=. f_equal.
  destruct q as [qi qo qn qk]. simpl in Hid, Hop |- *. rewrite Hid Hop. f_equal.
  - apply slice_truncated; lia.
  - rewrite index_truncated; try lia. by rewrite /= Z.land_lor_distr_l Z.lor_0_r.
Qed.

Lemma truncated_reply_spec q p r :
  bytes p → truncated_reply q p = Some r →
  matches q r = true ∧ Zlen r ≤ 273 ∧ Z.testbit (index r 2) 1 = true ∧ slice r 6 6 = zeros 6.
Proof.
  intros Hby. rewrite /truncated_reply. case_match eqn:Hm; [done|].
  apply negb_false_iff in Hm. rewrite /matches in Hm |- *.
  destruct (get p 2) as [flags|] eqn:Hf; [|done].
  apply andb_prop in Hm as [Hresp Hq%bool_decide_eq_true].
  apply get_Some in Hf as [<- _]; [|lia]. rewrite /parse in Hq.
  destruct (parse_question p) as [[q' e]|] eqn:Hp; [|done]. injection Hq as ->. simpl.
  pose proof (parse_question_bounds _ _ _ Hby Hp) as (He & Hep & _).
  assert (17 ≤ e ≤ Zlen p) as Hb by lia. pose proof (Zlen_truncated p e Hb) as Hr.
  change (splice _ 6 (zeros 6)) with (truncated p e). intros [= <-].
  assert (index (truncated p e) 2 = Z.lor (index p 2) 2) as H2 by (rewrite index_truncated; [lia..|done]).
  split_and!; [|lia| |].
  - rewrite get_index; [lia|]. rewrite H2 (parse_truncated p q e) //.
    rewrite Z.land_lor_distr_l Z.lor_0_r. apply andb_true_intro. split; [done|by apply bool_decide_eq_true].
  - rewrite H2. change (Z.testbit (Z.lor (index p 2) 2) 1 = true). by rewrite Z.lor_spec orb_true_r.
  - assert (Zlen (zeros 6) = 6) as Hz by done. rewrite -{1}Hz /truncated.
    assert (Zlen (slice p 0 e) = e) by (apply Zlen_slice; lia).
    apply slice_splice_same; [lia|]. rewrite Hz !Zlen_splice ?Zlen_cons ?Zlen_nil; lia.
Qed.

(** The truncated reply is a faithful reply.  Whenever one is built from an
    answer, it answers the same question again ([matches]), fits any link of 273
    bytes, announces truncation, and carries no records. *)
Theorem truncated_reply_faithful q p r :
  bytes p → truncated_reply q p = Some r →
  matches q r = true ∧ Zlen r ≤ 273 ∧ Z.testbit (index r 2) 1 = true ∧ slice r 6 6 = zeros 6.
Proof. apply truncated_reply_spec. Qed.

(** A query for "a." and its answer. *)
Definition sample_query : list Z := [18; 52; 1; 0; 0; 1; 0; 0; 0; 0; 0; 0; 1; 65; 0; 0; 1; 0; 1].
Definition sample_answer : list Z :=
  [18; 52; 129; 128; 0; 1; 0; 1; 0; 0; 0; 0; 1; 97; 0; 0; 1; 0; 1; 192; 12; 0; 1].

Lemma sample_bytes : bytes sample_answer.
Proof. repeat (constructor; [rewrite /is_byte; lia|]). constructor. Qed.

Example query_of_sample :
  query sample_query = Some (mkQuestion [18; 52] 0 [1; 97; 0] [0; 1; 0; 1]).
Proof. reflexivity. Qed.

Lemma dns_question_bounds_witness :
  17 ≤ 19 ≤ 273 ∧ 19 ≤ Zlen sample_answer ∧ Zlen [1; 97; 0] ≤ 255 ∧ Zlen [0; 1; 0; 1] = 4.
Proof.
  apply (dns_question_bounds sample_answer (mkQuestion [18; 52] 0 [1; 97; 0] [0; 1; 0; 1]) 19);
    [apply sample_bytes|reflexivity].
Defined.

Definition sample_truncated : list Z :=
  [18; 52; 131; 128; 0; 1; 0; 0; 0; 0; 0; 0; 1; 97; 0; 0; 1; 0; 1].

Lemma truncated_reply_faithful_witness :
  matches (mkQuestion [18; 52] 0 [1; 97; 0] [0; 1; 0; 1]) sample_truncated = true ∧
  Zlen sample_truncated ≤ 273 ∧ Z.testbit (index sample_truncated 2) 1 = true ∧
  slice sample_truncated 6 6 = zeros 6.
Proof.
  apply (truncated_reply_faithful (mkQuestion [18; 52] 0 [1; 97; 0] [0; 1; 0; 1]) sample_answer);
    [apply sample_bytes|reflexivity].
Defined.

End Dns.
