(* ===== verification/Netd.v ===== *)
(** The guest network gateway, [ahvm-netd]: the per-link token bucket
    ([bandwidth.rs]), the destination policy ([gateway.rs], [public]) and the
    bounded ICMP echo proxy ([icmp.rs]).  Instants and durations are nanoseconds.
    Packet parsing and checksums come from the [smoltcp] crate and the sockets
    from the host, so both are parameters of the proxy. *)
From S2P Require Import Prelude Codec.

(** [now.saturating_duration_since(last)] *)
Definition since (now last : Z) : Z := Z.max (now - last) 0.

(** ** Token bucket *)
Module Bucket.

Definition SCALE : Z := 1000000000.
Definition usize_max : Z := u64_max.

Record Bucket := mkBucket {
  rate : option Z;
  tokens : Z;
  capacity : Z;
  last : Z;
}.

Definition new (r : option Z) (now : Z) : Bucket :=
  let cap := Z.max (default 0 r / 10) 1518 * SCALE in
  mkBucket r cap cap now.

Definition available (now : Z) (b : Bucket) : Z * Bucket :=
  match rate b with
  | None => (usize_max, b)
  | Some r =>
      let t := Z.min (sat_add u128_max (tokens b) (sat_mul u128_max (since now (last b)) r)) (capacity b) in
      ((t / SCALE) mod 2 ^ 64, mkBucket (rate b) t (capacity b) now)
  end.

Definition ready (now : Z) (b : Bucket) : bool * Bucket :=
  let '(n, b') := available now b in (1024 <=? n, b').

Definition consume (n : Z) (b : Bucket) : Bucket :=
  match rate b with
  | None => b
  | Some _ => mkBucket (rate b) (sat_sub (tokens b) (n * SCALE)) (capacity b) (last b)
  end.

(** A link's traffic: at each instant the caller asks what is available and
    then charges at most that much. *)
Fixpoint run (b : Bucket) (trace : list (Z * Z)) : option Bucket :=
  match trace with
  | [] => Some b
  | (now, n) :: trace =>
      let '(avail, b') := available now b in
      if (0 <=? n) && (n <=? avail) then run (consume n b') trace else None
  end.
Definition total (trace : list (Z * Z)) : Z := foldr (λ e acc, e.2 + acc) 0 trace.
Definition final_time (t : Z) (trace : list (Z * Z)) : Z := foldl (λ _ e, e.1) t trace.
(** The clock is monotonic. *)
Fixpoint monotone (t : Z) (trace : list (Z * Z)) : Prop :=
  match trace with [] => True | e :: trace => t ≤ e.1 ∧ monotone e.1 trace end.

Definition bucket_ok (r : Z) (b : Bucket) : Prop :=
  rate b = Some r ∧ 0 ≤ tokens b ≤ capacity b.

Lemma available_ok r now b : 0 ≤ r → bucket_ok r b → last b ≤ now →
  let '(n, b') := available now b in
  bucket_ok r b' ∧ capacity b' = capacity b ∧ last b' = now ∧
  tokens b' ≤ tokens b + (now - last b) * r ∧ 0 ≤ n ∧ n * SCALE ≤ tokens b'.
Proof.
  intros Hr [Hrate Ht] Hnow. rewrite /available Hrate /sat_add /sat_mul /since /=.
  rewrite Z.max_l; [lia|]. assert (0 ≤ u128_max) by done.
  set (t := Z.min _ (capacity b)). assert (0 ≤ t ≤ capacity b) by nia.
  assert (0 ≤ t / SCALE) by (apply Z.div_pos; [lia|done]).
  assert ((t / SCALE) mod 2 ^ 64 ≤ t / SCALE) by (apply Z.mod_le; [lia|done]).
  assert (SCALE * (t / SCALE) ≤ t) by (by apply Z.mul_div_le).
  assert (0 ≤ (t / SCALE) mod 2 ^ 64) by (by apply Z.mod_pos_bound).
  rewrite /bucket_ok /=. assert (0 < SCALE) by done.
  split_and!; try done; try lia; try nia.
Qed.

Lemma consume_ok r n b : bucket_ok r b → 0 ≤ n → n * SCALE ≤ tokens b →
  bucket_ok r (consume n b) ∧ tokens (consume n b) = tokens b - n * SCALE ∧
  capacity (consume n b) = capacity b ∧ last (consume n b) = last b.
Proof.
  intros [Hr Ht] Hn Hle. rewrite /consume Hr /sat_sub /bucket_ok /=.
  assert (0 < SCALE) by done. split_and!; try done; nia.
Qed.

Lemma run_envelope r trace b b' : 0 ≤ r → bucket_ok r b → monotone (last b) trace →
  run b trace = Some b' →
  bucket_ok r b' ∧ capacity b' = capacity b ∧
  tokens b' + total trace * SCALE ≤ tokens b + (final_time (last b) trace - last b) * r.
Proof.
  intros Hr. revert b. induction trace as [|[now n] trace IH]; intros b Hok Hmono Hrun.
  { injection Hrun as <-. rewrite /total /final_time /=. split_and!; [apply Hok..|done|lia]. }
  destruct Hmono as [Hnow Hmono]. simpl in Hnow, Hrun.
  pose proof (available_ok r now b Hr Hok Hnow) as Hav.
  destruct (available now b) as [avail b1]. destruct Hav as (Hok1 & Hc1 & Hl1 & Ht1 & Ha0 & Ha).
  case_match eqn:Hn; [|done]. apply andb_prop in Hn as [Hn0%Z.leb_le Hna%Z.leb_le].
  assert (0 < SCALE) by done.
  destruct (consume_ok r n b1 Hok1 Hn0) as (Hok2 & Ht2 & Hc2 & Hl2); [nia|].
  apply IH in Hrun as (Hok' & Hc' & Ht'); [|done|by rewrite Hl2 Hl1].
  rewrite Hl2 Hl1 in Ht'. split_and!; [apply Hok'..|congruence|].
  change (total ((now, n) :: trace)) with (n + total trace).
  change (final_time (last b) ((now, n) :: trace)) with (final_time now trace). nia.
Qed.

(** C16: the bandwidth envelope.  Over any run that charges at most what the
    bucket offers, the bytes transferred between the start and the last request
    are at most the burst (a tenth of a second of rate, or one Ethernet frame)
    plus the elapsed time at the configured rate. *)
Theorem bucket_envelope r now trace b' :
  0 ≤ r → monotone now trace → run (new (Some r) now) trace = Some b' →
  total trace * SCALE ≤ Z.max (r / 10) 1518 * SCALE + (final_time now trace - now) * r.
Proof.
  intros Hr Hm Hrun. apply (run_envelope r) in Hrun as ((_ & Ht0 & _) & _ & Ht); [simpl in Ht; lia|done| |done].
  split; [done|]. rewrite /new /=. assert (0 < SCALE) by done. nia.
Qed.

(** C11: the bucket never over-promises: from any sound state what it offers is
    covered by its tokens, tokens stay between zero and the capacity, and an
    unlimited link is never throttled. *)
Theorem bucket_sound r now b : 0 ≤ r → bucket_ok r b → last b ≤ now →
  let '(n, b') := available now b in
  bucket_ok r b' ∧ 0 ≤ n ∧ n * SCALE ≤ tokens b' ∧
  (∀ k, 0 ≤ k ≤ n → bucket_ok r (consume k b')) ∧
  available now (new None now) = (usize_max, new None now).
Proof.
  intros Hr Hok Hnow. pose proof (available_ok r now b Hr Hok Hnow) as Hav.
  destruct (available now b) as [n b1]. destruct Hav as (Hok1 & _ & _ & _ & H0 & Hn).
  split_and!; [apply Hok1..|done|done| |done].
  intros k Hk. apply consume_ok; [done|lia|]. assert (0 < SCALE) by done. nia.
Qed.

Lemma bucket_envelope_witness :
  total [(0, 10000); (5000000, 500)] * SCALE ≤
  Z.max (100000 / 10) 1518 * SCALE + (final_time 0 [(0, 10000); (5000000, 500)] - 0) * 100000.
Proof.
  apply (bucket_envelope 100000 0 [(0, 10000); (5000000, 500)]
           (mkBucket (Some 100000) 0 10000000000000 5000000)); [lia|done|reflexivity].
Defined.

Lemma bucket_sound_witness :
  let '(n, b') := available 7 (new (Some 100000) 5) in
  bucket_ok 100000 b' ∧ 0 ≤ n ∧ n * SCALE ≤ tokens b' ∧
  (∀ k, 0 ≤ k ≤ n → bucket_ok 100000 (consume k b')) ∧
  available 7 (new None 7) = (usize_max, new None 7).
Proof. apply (bucket_sound 100000 7 (new (Some 100000) 5)); [lia|done|done]. Defined.

End Bucket.

(** ** Destination policy *)
Definition Ip : Type := Z * Z * Z * Z.
Definition is_ip (ip : Ip) : Prop :=
  let '(a, b, c, d) := ip in is_byte a ∧ is_byte b ∧ is_byte c ∧ is_byte d.

Definition between (lo hi x : Z) : bool := (lo <=? x) && (x <=? hi).

Definition public (ip : Ip) (host : list Ip) : bool :=
  let '(a, b, c, _) := ip in
  negb (bool_decide (ip ∈ host))
  && negb ((a =? 0) || (a =? 10) || (a =? 127) || between 224 255 a)
  && negb ((a =? 100) && between 64 127 b)
  && negb ((a =? 169) && (b =? 254))
  && negb ((a =? 172) && between 16 31 b)
  && negb ((a =? 192) && ((b =? 168) || (b =? 0) || (b =? 88) && (c =? 99)))
  && negb ((a =? 198) && ((b =? 18) || (b =? 19) || (b =? 51) && (c =? 100)))
  && negb ((a =? 203) && (b =? 0) && (c =? 113)).

(** The policy as a table of networks: address and prefix length. *)
Definition addr (ip : Ip) : Z := let '(a, b, c, d) := ip in ((a * 256 + b) * 256 + c) * 256 + d.
Definition in_net (ip : Ip) (net : Ip * Z) : Prop :=
  addr ip / 2 ^ (32 - net.2) = addr net.1 / 2 ^ (32 - net.2).
Definition forbidden : list (Ip * Z) :=
  [((0, 0, 0, 0), 8); ((10, 0, 0, 0), 8); ((127, 0, 0, 0), 8); ((224, 0, 0, 0), 3);
   ((100, 64, 0, 0), 10); ((169, 254, 0, 0), 16); ((172, 16, 0, 0), 12);
   ((192, 168, 0, 0), 16); ((192, 0, 0, 0), 16); ((192, 88, 99, 0), 24);
   ((198, 18, 0, 0), 15); ((198, 51, 100, 0), 24); ((203, 0, 113, 0), 24)].

Lemma addr_net a b c d (n k x : Z) : is_ip (a, b, c, d) → 0 ≤ k →
  (n = 24 ∧ x = a ∨ n = 16 ∧ x = a * 256 + b ∨ n = 8 ∧ x = (a * 256 + b) * 256 + c) →
  addr (a, b, c, d) / 2 ^ (n + k) = x / 2 ^ k.
Proof.
  rewrite /is_ip /is_byte => H Hk Hx. rewrite Z.pow_add_r; [lia..|].
  rewrite -Z.div_div; [destruct_or! Hx; destruct Hx as [-> _]; done|by apply Z.pow_pos_nonneg|].
  f_equal. rewrite /addr. destruct_or! Hx; destruct Hx as [-> ->].
  - change (2 ^ 24) with 16777216. dlia.
  - change (2 ^ 16) with 65536. dlia.
  - change (2 ^ 8) with 256. dlia.
Qed.

(** Evaluates the closed network prefixes of the table. *)
Ltac eval_nets :=
  repeat match goal with
  | |- context [?t `div` 2 ^ (32 - ?k)] =>
      let v := eval vm_compute in (t `div` 2 ^ (32 - k)) in change (t `div` 2 ^ (32 - k)) with v
  | |- context [2 ^ ?k] => let v := eval vm_compute in (2 ^ k) in change (2 ^ k) with v
  end.

(** C17: the destination policy is exactly the network table: a guest may reach
    an address iff it is not one of the host's own and lies in none of the
    listed private, special-purpose, multicast or reserved networks. *)
Theorem public_exact ip host :
  is_ip ip →
  public ip host = true ↔ ip ∉ host ∧ (Forall (λ net, ¬ in_net ip net) forbidden).
Proof.
  destruct ip as [[[a b] c] d] => H.
  pose proof (λ k, addr_net a b c d 24 k a H) as H24.
  pose proof (λ k, addr_net a b c d 16 k (a * 256 + b) H) as H16.
  pose proof (addr_net a b c d 8 0 ((a * 256 + b) * 256 + c) H) as H8.
  rewrite /public /between !andb_true_iff negb_true_iff bool_decide_eq_false.
  rewrite /forbidden !Forall_cons Forall_nil /in_net /=.
  rewrite (H24 0) ?(H24 5) ?(H16 0) ?(H16 4) ?(H16 6) ?(H16 1) ?H8 /=; try lia; try auto 6.
  clear H24 H16 H8. rewrite /is_ip /is_byte in H. rewrite !Z.div_1_r. eval_nets.
  assert (negb ((a =? 0) || (a =? 10) || (a =? 127) || (224 <=? a) && (a <=? 255)) = true ↔
    a ≠ 0 ∧ a ≠ 10 ∧ a ≠ 127 ∧ a `div` 32 ≠ 7) as -> by dlia.
  assert (negb ((a =? 100) && ((64 <=? b) && (b <=? 127))) = true ↔ (a * 256 + b) `div` 64 ≠ 401) as -> by dlia.
  assert (negb ((a =? 169) && (b =? 254)) = true ↔ a * 256 + b ≠ 43518) as -> by lia.
  assert (negb ((a =? 172) && ((16 <=? b) && (b <=? 31))) = true ↔ (a * 256 + b) `div` 16 ≠ 2753) as -> by dlia.
  assert (negb ((a =? 192) && ((b =? 168) || (b =? 0) || (b =? 88) && (c =? 99))) = true ↔
    a * 256 + b ≠ 49320 ∧ a * 256 + b ≠ 49152 ∧ (a * 256 + b) * 256 + c ≠ 12605539) as -> by lia.
  assert (negb ((a =? 198) && ((b =? 18) || (b =? 19) || (b =? 51) && (c =? 100))) = true ↔
    (a * 256 + b) `div` 2 ≠ 25353 ∧ (a * 256 + b) * 256 + c ≠ 12989284) as -> by dlia.
  assert (negb ((a =? 203) && (b =? 0) && (c =? 113)) = true ↔ (a * 256 + b) * 256 + c ≠ 13303921) as -> by lia.
  tauto.
Qed.

Lemma public_exact_witness :
  public (8, 8, 8, 8) [(5, 6, 7, 8)] = true ↔
  (8, 8, 8, 8) ∉ [(5, 6, 7, 8)] ∧ Forall (λ net, ¬ in_net (8, 8, 8, 8) net) forbidden.
Proof. apply public_exact. rewrite /is_ip /is_byte. lia. Defined.
