(* ===== verification/Gateway.v ===== *)
(** The forwarding core of [ahvm-netd]: ingress validation ([wire.rs]), the
    bounded ICMP echo proxy ([icmp.rs]) and, from [gateway.rs], framing, flow
    admission, connection permits, DNS forwarding and the egress writer.

    Packet parsing and checksums come from the [smoltcp] crate: the class
    [Smoltcp] holds its parsers, as functions returning the accessor values the
    gateway reads.  Sockets, interface lookups and clocks belong to the host and
    enter as arguments ([Env]); instants are nanoseconds. *)
From S2P Require Import Prelude Codec Dns Netd.

(** ** smoltcp *)
Inductive EtherType := EtArp | EtIpv4 | EtOther.
Record EthernetFrame := mkEth {
  eth_src_addr : list Z; ethertype : EtherType; eth_payload : list Z }.
Inductive IpProtocol := Icmp | Tcp | Udp | OtherProtocol.
#[export] Instance IpProtocol_eq_dec : EqDecision IpProtocol.
Proof. solve_decision. Defined.
Record Ipv4Packet := mkIpv4 {
  ip_version : Z; src_addr : Ip; dst_addr : Ip; ip_checksum_ok : bool;
  more_frags : bool; frag_offset : Z; next_header : IpProtocol; ip_payload : list Z }.
Record TcpPacket := mkTcp {
  tcp_src_port : Z; tcp_dst_port : Z; syn : bool; fin : bool; rst : bool; ack : bool;
  tcp_checksum_ok : Ip → Ip → bool }.
Record UdpPacket := mkUdp {
  udp_src_port : Z; udp_dst_port : Z; udp_checksum_ok : Ip → Ip → bool }.
Inductive Icmpv4Message := EchoRequest | EchoReply | OtherMessage.
#[export] Instance Icmpv4Message_eq_dec : EqDecision Icmpv4Message.
Proof. solve_decision. Defined.
Record Icmpv4Packet := mkIcmp {
  msg_type : Icmpv4Message; msg_code : Z; icmp_checksum_ok : bool; echo_ident : Z }.

Class Smoltcp := {
  EthernetFrame_new_checked : list Z → option EthernetFrame;
  Ipv4Packet_new_checked : list Z → option Ipv4Packet;
  TcpPacket_new_checked : list Z → option TcpPacket;
  UdpPacket_new_checked : list Z → option UdpPacket;
  Icmpv4Packet_new_checked : list Z → option Icmpv4Packet;
  ipv4_fill_checksum : list Z → list Z;
(** [set_msg_type(EchoReply); fill_checksum()] *)
icmp_as_echo_reply : list Z → list Z;
}.

(** ** wire.rs *)
Definition GW : Ip := (100, 64, 0, 1).
Definition GUEST : Ip := (100, 64, 0, 2).
Definition MAC : list Z := [2; 0; 0; 0; 0; 2].
Definition octets (ip : Ip) : list Z := let '(a, b, c, d) := ip in [a; b; c; d].

Inductive Packet := Arp | Ipv4 (ip : Ipv4Packet).

Section Wire.
Context `{Smoltcp}.

Definition valid_echo_request (bs : list Z) : bool :=
  (8 <=? Zlen bs) && (Zlen bs <=? 1480) &&
  match Icmpv4Packet_new_checked bs with
  | Some p => bool_decide (msg_type p = EchoRequest) && (msg_code p =? 0) && icmp_checksum_ok p
  | None => false
  end.

Definition tcp_acceptable (tcp : TcpPacket) : bool :=
  negb ((tcp_src_port tcp =? 0) || (tcp_dst_port tcp =? 0)
        || (syn tcp && (fin tcp || rst tcp))).

Definition validate (frame : list Z) : option Packet :=
  if 1514 <? Zlen frame then None else
  eth ← EthernetFrame_new_checked frame;
  if bool_decide (eth_src_addr eth ≠ MAC) then None else
  match ethertype eth with
  | EtArp =>
      let p := eth_payload eth in
      if (Zlen p <? 28) || bool_decide (slice p 8 6 ≠ MAC)
         || bool_decide (slice p 14 4 ≠ octets GUEST)
      then None else Some Arp
  | EtIpv4 =>
      ip ← Ipv4Packet_new_checked (eth_payload eth);
      if negb (ip_version ip =? 4) || bool_decide (src_addr ip ≠ GUEST)
         || negb (ip_checksum_ok ip) || more_frags ip || negb (frag_offset ip =? 0)
      then None else
      let src := src_addr ip in
      let dst := dst_addr ip in
      match next_header ip with
      | Tcp =>
          tcp ← TcpPacket_new_checked (ip_payload ip);
          if negb (tcp_acceptable tcp) || negb (tcp_checksum_ok tcp src dst) then None
          else Some (Ipv4 ip)
      | Udp =>
          if bool_decide (dst = GW) then
            udp ← UdpPacket_new_checked (ip_payload ip);
            if (udp_src_port udp =? 0) || negb (udp_dst_port udp =? 53)
               || negb (udp_checksum_ok udp src dst)
            then None else Some (Ipv4 ip)
          else None
      | Icmp => if valid_echo_request (ip_payload ip) then Some (Ipv4 ip) else None
      | OtherProtocol => None
      end
  | EtOther => None
  end.

(** What a validated IPv4 packet satisfies. *)
Definition transport_ok (ip : Ipv4Packet) : Prop :=
  match next_header ip with
  | Tcp => ∃ t, TcpPacket_new_checked (ip_payload ip) = Some t ∧
      tcp_acceptable t = true ∧ tcp_checksum_ok t GUEST (dst_addr ip) = true
  | Udp => dst_addr ip = GW ∧ ∃ u, UdpPacket_new_checked (ip_payload ip) = Some u ∧
      udp_dst_port u = 53 ∧ udp_src_port u ≠ 0 ∧ udp_checksum_ok u GUEST GW = true
  | Icmp => valid_echo_request (ip_payload ip) = true
  | OtherProtocol => False
  end.

Lemma validate_Ipv4 frame ip : validate frame = Some (Ipv4 ip) →
  Zlen frame ≤ 1514 ∧ src_addr ip = GUEST ∧ ip_version ip = 4 ∧ ip_checksum_ok ip = true ∧
  more_frags ip = false ∧ frag_offset ip = 0 ∧ transport_ok ip.
Proof.
  rewrite /validate /transport_ok. intros Hv.
  destruct (1514 <? Zlen frame) eqn:Hlen; [done|].
  destruct (EthernetFrame_new_checked frame) as [eth|]; [|done]. simpl in Hv.
  case_bool_decide; [done|]. destruct (ethertype eth); [by repeat case_match| |done].
  destruct (Ipv4Packet_new_checked _) as [ip'|]; [|done]. simpl in Hv.
  destruct (negb (ip_version ip' =? 4) || _ || _ || _ || _) eqn:Hc; [done|].
  rewrite !orb_false_iff !negb_false_iff bool_decide_eq_false in Hc.
  destruct_and! Hc. assert (src_addr ip' = GUEST) as Hs by (by apply dec_stable).
  rewrite Hs in Hv. assert (ip' = ip ∧ transport_ok ip') as [-> Ht].
  { rewrite /transport_ok. destruct (next_header ip').
    - by destruct (valid_echo_request _); simplify_eq.
    - destruct (TcpPacket_new_checked _) as [t|] eqn:?; [|done]. simpl in Hv.
      destruct (negb _ || _) eqn:E; [done|]. rewrite orb_false_iff !negb_false_iff in E.
      simplify_eq. naive_solver.
    - case_bool_decide as Hd; [|done]. rewrite Hd in Hv |- *.
      destruct (UdpPacket_new_checked _) as [u|] eqn:?; [|done]. simpl in Hv.
      destruct ((udp_src_port u =? 0) || _ || _) eqn:E; [done|].
      rewrite !orb_false_iff !negb_false_iff in E. destruct_and! E. simplify_eq.
      split; [done|]. split; [done|]. exists u. split_and!; [done|lia|lia|done].
    - done. }
  split_and!; try done; lia.
Qed.

End Wire.

(** ** icmp.rs *)
Module Icmp.

Definition MAX_PENDING : Z := 64.
Definition MAX_PACKET : Z := 1480.
Definition DEADLINE : Z := 5 * 1000000000.
Definition INTERVAL : Z := 50 * 1000000.
Definition BURST : Z := 1000000000.

Record Echo := mkEcho {
  socket : Z;
  destination : Ip;
  host_ident : Z;
  request : list Z;
  started : Z;
}.

(** What [recv_from] yields: a datagram from an IPv4 source, any other
    successful result, or an error that is (or is not) [WouldBlock] or
    [Interrupted]. *)
Inductive Recv :=
| RecvV4 (source : Ip) (reply : list Z)
| RecvOther
| RecvErr (again : bool).

Record Forwarder := mkForwarder {
  pending : list Echo;
  credits : Z;
  last : Z;
  reported_socket_error : bool;
}.

Definition new (now : Z) : Forwarder := mkForwarder [] BURST now false.

Section Forwarder.
Context `{Smoltcp}.

Definition matches (e : Echo) (source : Ip) (reply : list Z) : bool :=
  if bool_decide (source ≠ destination e) || negb (Zlen reply =? Zlen (request e)) then false
  else match Icmpv4Packet_new_checked reply with
  | Some p =>
      bool_decide (msg_type p = EchoReply) && (msg_code p =? 0) && icmp_checksum_ok p
      && (echo_ident p =? host_ident e) && bool_decide (drop 6 reply = drop 6 (request e))
  | None => false
  end.

Definition reply_frame (source : Ip) (req : list Z) : list Z :=
  let ip := [69; 0] ++ to_be_bytes 2 ((20 + Zlen req) mod 2 ^ 16)
            ++ [0; 0; 0; 0; 64; 1; 0; 0] ++ octets source ++ octets GUEST in
  MAC ++ [2; 0; 0; 0; 0; 1] ++ [8; 0] ++ ipv4_fill_checksum ip ++ icmp_as_echo_reply req.

(** [hosts] is the result of the interface lookup, [open] the socket attempt. *)
Definition request_with (dest : Ip) (bs : list Z) (now : Z) (hosts : option (list Ip))
    (open : Ip → list Z → Z → option Echo) (f : Forwarder) : option (list Z) * Forwarder :=
  if negb (valid_echo_request bs) then (None, f) else
  let c := Z.min (credits f + since now (last f)) BURST in
  let f := mkForwarder (pending f) c now (reported_socket_error f) in
  if (credits f <? INTERVAL) || (MAX_PENDING <=? Zlen (pending f)) then (None, f) else
  let f := mkForwarder (pending f) (c - INTERVAL) now (reported_socket_error f) in
  if bool_decide (dest = GW) then (Some (reply_frame dest bs), f) else
  let forwardable := public dest [] &&
    match hosts with Some h => public dest h | None => false end in
  if negb forwardable then (None, f) else
  match open dest bs now with
  | Some echo => (None, mkForwarder (pending f ++ [echo]) (credits f) (last f) (reported_socket_error f))
  | None => (None, mkForwarder (pending f) (credits f) (last f) true)
  end.

(** One [retain] pass: each echo is kept or dropped; a genuine reply is
    delivered.  [recv] is what the echo's socket yields. *)
Definition poll_one (now : Z) (recv : Echo → Recv) (e : Echo) : option (list Z) * bool :=
  if DEADLINE <=? since now (started e) then (None, false) else
  match recv e with
  | RecvV4 source reply =>
      if matches e source reply then (Some (reply_frame (destination e) (request e)), false)
      else (None, true)
  | RecvOther => (None, true)
  | RecvErr again => (None, again)
  end.

Definition poll (now : Z) (recv : Echo → Recv) (f : Forwarder) : list (list Z) * Forwarder :=
  (omap (λ e, (poll_one now recv e).1) (pending f),
   mkForwarder (filter (λ e, (poll_one now recv e).2 = true) (pending f))
     (credits f) (last f) (reported_socket_error f)).

(** A guest's session with the proxy. *)
Inductive Op :=
| Request (dest : Ip) (bs : list Z) (now : Z) (hosts : option (list Ip))
    (open : Ip → list Z → Z → option Echo)
| Poll (now : Z) (recv : Echo → Recv).

Definition op_time (o : Op) : Z := match o with Request _ _ n _ _ => n | Poll n _ => n end.

(** One operation, and how many echoes it admitted: a gateway reply or a newly
    opened request. *)
Definition step (o : Op) (f : Forwarder) : Z * Forwarder :=
  match o with
  | Request d bs now hosts open =>
      let '(r, f') := request_with d bs now hosts open f in
      ((if r is Some _ then 1 else 0) + (Zlen (pending f') - Zlen (pending f)), f')
  | Poll now recv => (0, (poll now recv f).2)
  end.

Fixpoint session (ops : list Op) (f : Forwarder) : Z * Forwarder :=
  match ops with
  | [] => (0, f)
  | o :: ops =>
      let '(n, f) := step o f in
      let '(m, f) := session ops f in (n + m, f)
  end.

Fixpoint clocked (t : Z) (ops : list Op) : Prop :=
  match ops with [] => True | o :: ops => t ≤ op_time o ∧ clocked (op_time o) ops end.
Definition end_time (t : Z) (ops : list Op) : Z := foldl (λ _ o, op_time o) t ops.

Definition forwarder_ok (f : Forwarder) : Prop :=
  0 ≤ credits f ≤ BURST ∧ Zlen (pending f) ≤ MAX_PENDING.

Lemma request_with_ok dest bs now hosts open f : forwarder_ok f → last f ≤ now →
  let '(r, f') := request_with dest bs now hosts open f in
  forwarder_ok f' ∧ (f' = f ∨ last f' = now) ∧
  credits f' + ((if r is Some _ then 1 else 0) + (Zlen (pending f') - Zlen (pending f))) * INTERVAL
    ≤ credits f + (last f' - last f) ∧
  0 ≤ (if r is Some _ then 1 else 0) + (Zlen (pending f') - Zlen (pending f)).
Proof.
  rewrite /forwarder_ok /request_with /since => -[Hc Hp] Hl.
  assert (0 < INTERVAL) by done. assert (0 < BURST) by done.
  destruct (valid_echo_request bs); simpl; [|split_and!; auto; lia].
  destruct ((_ <? INTERVAL) || _) eqn:Hb; [simpl; split_and!; auto; lia|].
  apply orb_false_iff in Hb as [Hb1 Hb2]. rewrite /MAX_PENDING in Hp Hb2 |- *.
  destruct (bool_decide (dest = GW)); [simpl; split_and!; auto; lia|].
  destruct (negb _); [simpl; split_and!; auto; lia|].
  destruct (open dest bs now); simpl; rewrite ?Zlen_app ?Zlen_cons ?Zlen_nil; split_and!; auto; try lia.
Qed.

Lemma Zlen_filter {A} (P : A → Prop) `{∀ x, Decision (P x)} (l : list A) :
  Zlen (filter P l) ≤ Zlen l.
Proof. rewrite /Zlen. pose proof (length_filter P l). lia. Qed.

Lemma step_ok o f : forwarder_ok f → last f ≤ op_time o →
  let '(n, f') := step o f in
  forwarder_ok f' ∧ last f ≤ last f' ≤ op_time o ∧ 0 ≤ n ∧
  credits f' + n * INTERVAL ≤ credits f + (last f' - last f).
Proof.
  intros Hok Ht. destruct o as [d bs now hosts open|now recv]; simpl in *.
  - pose proof (request_with_ok d bs now hosts open f Hok Ht) as Hr.
    destruct (request_with d bs now hosts open f) as [r f'].
    destruct Hr as (Hok' & Hlast & Hc & Hn). split_and!; [apply Hok'..| | |done|lia];
    destruct Hlast as [->|]; lia.
  - destruct Hok as [? Hp]. pose proof (Zlen_filter (λ e, (poll_one now recv e).2 = true) (pending f)).
    rewrite /forwarder_ok /=. split_and!; lia.
Qed.

Lemma session_ok ops f t : forwarder_ok f → last f ≤ t → clocked t ops →
  let '(n, f') := session ops f in
  forwarder_ok f' ∧ last f' ≤ end_time t ops ∧
  credits f' + n * INTERVAL ≤ credits f + (last f' - last f).
Proof.
  revert f t. induction ops as [|o ops IH]; intros f t Hok Ht Hclk; simpl; [auto with lia|].
  destruct Hclk as [Ho Hclk]. pose proof (step_ok o f Hok ltac:(lia)) as Hs.
  destruct (step o f) as [n f1]. destruct Hs as (Hok1 & Hl1 & Hn & Hc1).
  specialize (IH f1 (op_time o) Hok1 ltac:(lia) Hclk).
  destruct (session ops f1) as [m f2]. destruct IH as (Hok2 & Hl2 & Hc2).
  split_and!; [apply Hok2..|done|]. lia.
Qed.

(** The echo proxy is rate-limited.  Over any interleaving of guest
    requests and polls on a monotonic clock, at most twenty echoes plus one per
    fifty milliseconds of elapsed time are admitted, and never more than 64
    sockets are pending. *)
Theorem icmp_rate_limited now ops : clocked now ops →
  let '(n, f) := session ops (new now) in
  n * INTERVAL ≤ BURST + (end_time now ops - now) ∧ Zlen (pending f) ≤ MAX_PENDING.
Proof.
  intros Hclk. pose proof (session_ok ops (new now) now) as Hs.
  destruct (session ops (new now)) as [n f]. destruct Hs as (Hok & Hl & Hc); simpl; [|lia|done|].
  - rewrite /forwarder_ok /= /Zlen /=. split; done.
  - destruct Hok as [Hc0 Hp]. simpl in Hc. lia.
Qed.

(** A reply reaches the guest only when it is genuine: it answers a request
    that is still pending and not older than five seconds, it came from the
    destination the guest pinged, it is an echo reply with a valid checksum and
    the socket's identifier, and it repeats the request's sequence number and
    payload.  What the guest sees is built from its own request. *)
Theorem icmp_reply_genuine now recv f frame :
  frame ∈ (poll now recv f).1 →
  ∃ e reply p, e ∈ pending f ∧ e ∉ pending (poll now recv f).2 ∧
    since now (started e) < DEADLINE ∧
    recv e = RecvV4 (destination e) reply ∧
    Icmpv4Packet_new_checked reply = Some p ∧
    msg_type p = EchoReply ∧ icmp_checksum_ok p = true ∧ echo_ident p = host_ident e ∧
    Zlen reply = Zlen (request e) ∧ drop 6 reply = drop 6 (request e) ∧
    frame = reply_frame (destination e) (request e).
Proof.
  rewrite /poll /= list_elem_of_omap => -[e [He Hf]]. exists e.
  assert (e ∉ filter (λ e, (poll_one now recv e).2 = true) (pending f) ) as Hnot.
  { rewrite list_elem_of_filter. intros [Hk _]. revert Hf Hk. rewrite /poll_one. repeat case_match; done. }
  revert Hf. rewrite /poll_one. case_match eqn:Hd; [done|].
  destruct (recv e) as [source reply| |] eqn:Hr; [|done..].
  case_match eqn:Hm; [|done]. intros [= <-]. revert Hm. rewrite /matches.
  case_match eqn:Hb; [done|]. apply orb_false_iff in Hb as [Hs%bool_decide_eq_false Hlen].
  assert (source = destination e) as -> by (by apply dec_stable).
  destruct (Icmpv4Packet_new_checked reply) as [p|] eqn:Hp; [|done].
  rewrite !andb_true_iff !bool_decide_eq_true => Hm. destruct_and! Hm.
  exists reply, p. split_and!; try done; lia.
Qed.

End Forwarder.
End Icmp.

(** ** gateway.rs *)
Module Gateway.

Definition MAX_FRAME : Z := 128 * 1024.
Definition MAX_FLOWS : nat := 64.

(** Destination address, destination port, source port. *)
Definition Key : Type := Ip * Z * Z.

Record Flow := mkFlow {
  handle : positive;
  connected : bool;
  flow_last : Z;
  read_eof : bool;
  write_eof : bool;
}.

(** Effects visible outside the gateway: a host connection attempt, and a frame
    handed to the smoltcp interface. *)
Inductive Action :=
| Connect (target : Ip) (port : Z) (k : Key)
| Deliver (frame : list Z).

Record Gw := mkGw {
  flows : gmap Key Flow;
  sockets : gset positive;     (* the TCP handles in the smoltcp socket set *)
  echoes : Icmp.Forwarder;
  rx : list (list Z);
  tx : list (list Z);
}.

(** The host's side of one frame. *)
Record Env := mkEnv {
  now : Z;
  host_ips : option (list Ip);
  echo_open : Ip → list Z → Z → option Icmp.Echo;
  permit : bool;                   (* [ConnectPermit::take(&connecting)] *)
  listen_ok : bool;
  time_wait : positive → bool;     (* sockets smoltcp holds in TIME_WAIT *)
}.

(** [min_by_key(|(_, f)| f.last)], the first minimum in iteration order. *)
Definition oldest (l : list (Key * Flow)) : option (Key * Flow) :=
  foldl (λ best e,
    match best with
    | None => Some e
    | Some b => if flow_last e.2 <? flow_last b.2 then Some e else Some b
    end) None l.

Definition remove_flow (k : Key) (g : Gw) : Gw :=
  match flows g !! k with
  | Some f => mkGw (delete k (flows g)) (sockets g ∖ {[handle f]}) (echoes g) (rx g) (tx g)
  | None => g
  end.

(** Retire the oldest connection in TIME_WAIT. *)
Definition retire (env : Env) (g : Gw) : Gw :=
  match oldest (filter (λ e, time_wait env (handle e.2) = true) (map_to_list (flows g))) with
  | Some (k, _) => remove_flow k g
  | None => g
  end.

(** [enqueue_echo] *)
Definition enqueue_echo (queue : list (list Z)) (frame : list Z) : list (list Z) :=
  if Zlen queue <? 64 then queue ++ [to_be_bytes 4 (Zlen frame mod 2 ^ 32) ++ frame] else queue.

Section Gateway.
Context `{Smoltcp}.
Context (resolver : Ip) (private_access : gset (Ip * Z)).

Definition dns_tcp (dest : Ip) (tcp : TcpPacket) : bool :=
  bool_decide (dest = GW) && (tcp_dst_port tcp =? 53).
Definition granted (dest : Ip) (tcp : TcpPacket) : bool :=
  bool_decide ((dest, tcp_dst_port tcp) ∈ private_access).

(** Admission of a new flow: the interface check, a permit, a listening socket,
    then the connection thread.  [None] when the frame is dropped; the permit of
    a failed listener is returned at once. *)
Definition admit_flow (env : Env) (dest : Ip) (tcp : TcpPacket) (key : Key) (g : Gw)
    : option (list Action) * Gw :=
  let host_ok := dns_tcp dest tcp || granted dest tcp ||
    match host_ips env with Some host => public dest host | None => false end in
  if negb host_ok then (None, g)
  else if negb (permit env) then (None, g)
  else if negb (listen_ok env) then (None, g)
  else
    let h := fresh (sockets g) in
    let target := if dns_tcp dest tcp then resolver else key.1.1 in
    (Some [Connect target key.1.2 key],
     mkGw (<[key := mkFlow h false (now env) false false]> (flows g))
          ({[h]} ∪ sockets g) (echoes g) (rx g) (tx g)).

(** A validated TCP packet up to [link.rx.push_back(frame)]; [None]: dropped. *)
Definition ingress_tcp (env : Env) (ip : Ipv4Packet) (g : Gw) : option (list Action) * Gw :=
  match TcpPacket_new_checked (ip_payload ip) with
  | None => (None, g)
  | Some tcp =>
      if negb (tcp_acceptable tcp) then (None, g) else
      let dest := dst_addr ip in
      if negb (dns_tcp dest tcp) && negb (granted dest tcp) && negb (public dest []) then (None, g) else
      let key : Key := (dest, tcp_dst_port tcp, tcp_src_port tcp) in
      let opening g := syn tcp && negb (ack tcp) && bool_decide (flows g !! key = None) in
      let g := if opening g && (MAX_FLOWS <=? size (flows g))%nat then retire env g else g in
      if opening g && (size (flows g) <? MAX_FLOWS)%nat then admit_flow env dest tcp key g
      else (Some [], g)
  end.

Definition deliver (frame : list Z) (r : option (list Action) * Gw) : list Action * Gw :=
  match r with
  | (Some acts, g) =>
      (acts ++ [Deliver frame], mkGw (flows g) (sockets g) (echoes g) (rx g ++ [frame]) (tx g))
  | (None, g) => ([], g)
  end.

(** One complete frame from the guest. *)
Definition ingress_frame (env : Env) (frame : list Z) (g : Gw) : list Action * Gw :=
  match validate frame with
  | None => ([], g)
  | Some Arp => deliver frame (Some [], g)
  | Some (Ipv4 ip) =>
      match next_header ip with
      | Icmp =>
          let '(reply, echoes) :=
            Icmp.request_with (dst_addr ip) (ip_payload ip) (now env) (host_ips env) (echo_open env) (echoes g) in
          let tx := match reply with Some r => enqueue_echo (tx g) r | None => tx g end in
          ([], mkGw (flows g) (sockets g) echoes (rx g) tx)
      | Tcp => deliver frame (ingress_tcp env ip g)
      | Udp => if bool_decide (dst_addr ip = GW) then deliver frame (Some [], g) else ([], g)
      | OtherProtocol => ([], g)
      end
  end.

(** Extraction of the next length-prefixed frame from the receive buffer. *)
Inductive Next := Wait | Invalid | Next_frame (frame rest : list Z).
Definition next_frame (incoming : list Z) (queued : Z) : Next :=
  if (Zlen incoming <? 4) || (64 <=? queued) then Wait else
  let len := from_be_bytes (slice incoming 0 4) in
  if (len <? 14) || (MAX_FRAME <? len) then Invalid
  else if Zlen incoming <? len + 4 then Wait
  else Next_frame (slice incoming 4 len) (drop (Z.to_nat (len + 4)) incoming).

(** The [for _ in 0..64] loop; [stack] is [iface.poll], which consumes queued
    frames and queues its own after each one is delivered. *)
Fixpoint ingress_loop (n : nat) (env : nat → Env) (stack : Gw → list (list Z) * list (list Z))
    (incoming : list Z) (g : Gw)
    : option (list Action * list Z * Gw) :=
  match n with
  | O => Some ([], incoming, g)
  | S n =>
      match next_frame incoming (Zlen (rx g)) with
      | Wait => Some ([], incoming, g)
      | Invalid => None
      | Next_frame frame rest =>
          let '(acts, g) := ingress_frame (env n) frame g in
          let '(rx', tx') := if acts is [] then (rx g, tx g) else stack g in
          let g := mkGw (flows g) (sockets g) (echoes g) rx' tx' in
          '(acts', rest, g) ← ingress_loop n env stack rest g;
          Some (acts ++ acts', rest, g)
      end
  end.

(** What a connection attempt may target: the configured resolver for DNS over
    TCP to the gateway, an explicitly granted endpoint, or a public address that
    is none of the host's own. *)
Definition connect_allowed (hosts : option (list Ip)) (a : Action) : Prop :=
  match a with
  | Connect target port (dst, dport, _) => port = dport ∧
      (dst = GW ∧ dport = 53 ∧ target = resolver ∨
       target = dst ∧ ((dst, dport) ∈ private_access ∨
         ∃ host, hosts = Some host ∧ public dst host = true))
  | Deliver frame => is_Some (validate frame)
  end.

(** At most 64 flows, and the TCP sockets held are exactly theirs, one each. *)
Definition gw_ok (g : Gw) : Prop :=
  (size (flows g) ≤ MAX_FLOWS)%nat ∧
  (∀ k f, flows g !! k = Some f → handle f ∈ sockets g) ∧
  (∀ h, h ∈ sockets g → ∃ k f, flows g !! k = Some f ∧ handle f = h) ∧
  (∀ k1 k2 f1 f2, flows g !! k1 = Some f1 → flows g !! k2 = Some f2 →
    handle f1 = handle f2 → k1 = k2).

Lemma remove_flow_ok k g : gw_ok g → gw_ok (remove_flow k g).
Proof.
  rewrite /remove_flow => -[Hn [Hin [Hcov Hinj]]].
  destruct (flows g !! k) as [f|] eqn:Hk; [|done]. rewrite /gw_ok /=. split_and!.
  - rewrite map_size_delete Hk. lia.
  - intros k' f' [Hne Hl]%lookup_delete_Some. apply elem_of_difference.
    split; [eauto|]. intros Hh%elem_of_singleton. by apply Hne, (Hinj k k' f f').
  - intros h [Hh Hne]%elem_of_difference. destruct (Hcov h Hh) as (k' & f' & Hl & <-).
    exists k', f'. split; [|done]. apply lookup_delete_Some. split; [|done].
    intros ->. simplify_eq. set_solver.
  - intros k1 k2 f1 f2 [_ H1]%lookup_delete_Some [_ H2]%lookup_delete_Some. eauto.
Qed.

Lemma retire_ok env g : gw_ok g → gw_ok (retire env g).
Proof. rewrite /retire => Hg. repeat case_match; auto using remove_flow_ok. Qed.

Lemma insert_flow_ok k f g : gw_ok g → flows g !! k = None → (size (flows g) < MAX_FLOWS)%nat →
  handle f ∉ sockets g →
  gw_ok (mkGw (<[k := f]> (flows g)) ({[handle f]} ∪ sockets g) (echoes g) (rx g) (tx g)).
Proof.
  intros (Hn & Hin & Hcov & Hinj) Hk Hlt Hf. rewrite /gw_ok /=. split_and!.
  - rewrite map_size_insert Hk. lia.
  - intros k' f' [[<- <-]|[? Hl]]%lookup_insert_Some; set_solver.
  - intros h [->%elem_of_singleton|Hh]%elem_of_union.
    + exists k, f. by rewrite lookup_insert_eq.
    + destruct (Hcov h Hh) as (k' & f' & Hl & <-). exists k', f'. split; [|done].
      rewrite lookup_insert_ne; [intros ->; congruence|done].
  - intros k1 k2 f1 f2 [[<- <-]|[? H1]]%lookup_insert_Some [[<- <-]|[? H2]]%lookup_insert_Some Hh;
      [done| | |by eapply Hinj]; exfalso; apply Hf; [rewrite Hh|rewrite -Hh]; by eapply Hin.
Qed.

Lemma gw_ok_frame g g' : flows g' = flows g → sockets g' = sockets g → gw_ok g → gw_ok g'.
Proof. rewrite /gw_ok => -> ->. done. Qed.

Lemma ingress_tcp_ok env ip g r g' : gw_ok g → ingress_tcp env ip g = (r, g') →
  gw_ok g' ∧ (∀ acts, r = Some acts → Forall (connect_allowed (host_ips env)) acts).
Proof.
  rewrite /ingress_tcp => Hg. destruct (TcpPacket_new_checked _) as [tcp|]; [|by intros [= <- <-]].
  case_match; [by intros [= <- <-]|]. case_match eqn:Hpol; [by intros [= <- <-]|].
  set (key := (dst_addr ip, tcp_dst_port tcp, tcp_src_port tcp) : Key).
  match goal with |- context [if ?b then retire env g else g] =>
    set (g1 := if b then retire env g else g) end.
  assert (gw_ok g1) as Hg1 by (rewrite /g1; case_match; auto using retire_ok).
  clearbody g1. case_match eqn:Hopen; [|intros [= <- <-]; split; [done|by intros ? [= <-]]].
  rewrite !andb_true_iff bool_decide_eq_true Nat.ltb_lt in Hopen.
  destruct Hopen as ((_ & Hnone) & Hsz).
  rewrite /admit_flow. case_match eqn:Hok; [by intros [= <- <-]|].
  destruct (permit env); [|by intros [= <- <-]]. destruct (listen_ok env); [|by intros [= <- <-]].
  assert (fresh (sockets g1) ∉ sockets g1) as Hfresh by apply is_fresh.
  set (h := fresh (sockets g1)) in *. clearbody h.
  intros [= <- <-]. split.
  - by apply (insert_flow_ok key (mkFlow h false (now env) false false)).
  - intros ? [= <-]. apply Forall_singleton. rewrite /connect_allowed /=. split; [done|].
    apply negb_false_iff in Hok. rewrite !orb_true_iff in Hok.
    destruct (dns_tcp _ tcp) eqn:Hdns.
    + left. rewrite /dns_tcp andb_true_iff bool_decide_eq_true in Hdns. naive_solver lia.
    + right. split; [done|]. destruct Hok as [[?|Hgr]|Hpub]; [done| |].
      * left. by rewrite /granted bool_decide_eq_true in Hgr.
      * right. destruct (host_ips env) as [host|]; [eauto|done].
Qed.

Lemma ingress_frame_ok env frame g acts g' : gw_ok g → ingress_frame env frame g = (acts, g') →
  gw_ok g' ∧ Forall (connect_allowed (host_ips env)) acts.
Proof.
  rewrite /ingress_frame => Hg. destruct (validate frame) as [p|] eqn:Hv; [|by intros [= <- <-]].
  assert (is_Some (validate frame)) as Hs by eauto.
  assert (∀ r g1, gw_ok g1 → (∀ acts, r = Some acts → Forall (connect_allowed (host_ips env)) acts) →
    deliver frame (r, g1) = (acts, g') → gw_ok g' ∧ Forall (connect_allowed (host_ips env)) acts) as Hdel.
  { intros [acts1|] g1 Hg1 Hacts [= <- <-]; [|done]. split; [by eapply gw_ok_frame, Hg1|].
    apply Forall_app. split; [eauto|]. by apply Forall_singleton. }
  destruct p as [|ip]; [apply Hdel; [done|by intros ? [= <-]]|].
  destruct (next_header ip).
  - destruct (Icmp.request_with _ _ _ _ _ _). intros [= <- <-].
    split; [by eapply gw_ok_frame, Hg|done].
  - destruct (ingress_tcp env ip g) as [r g1] eqn:Ht.
    apply ingress_tcp_ok in Ht as [Hg1 Hr]; [|done]. by apply Hdel.
  - case_match; [apply Hdel; [done|by intros ? [= <-]]|by intros [= <- <-]].
  - by intros [= <- <-].
Qed.

(** C14: the guest's reach.  Whatever bytes the guest writes and however host
    lookups, permits and listeners respond, the gateway opens host TCP connections
    only to the resolver (for DNS to the gateway), to granted endpoints, or to
    public addresses that are not the host's; only validated frames reach the
    network stack; and there are never more than 64 flows, owning exactly the
    open TCP sockets. *)
Theorem gateway_reach n env stack incoming g acts rest g' :
  gw_ok g → ingress_loop n env stack incoming g = Some (acts, rest, g') →
  gw_ok g' ∧ Forall (λ a, ∃ i, connect_allowed (host_ips (env i)) a) acts.
Proof.
  revert incoming g acts. induction n as [|n IH]; intros incoming g acts Hg; simpl.
  { by intros [= <- <- <-]. }
  destruct (next_frame incoming (Zlen (rx g))) as [| |frame rest1]; [by intros [= <- <- <-]|done|].
  destruct (ingress_frame (env n) frame g) as [acts1 g1] eqn:Hf.
  apply ingress_frame_ok in Hf as [Hg1 Ha1]; [|done].
  destruct (match acts1 with [] => _ | _ => _ end) as [rx' tx'].
  set (g2 := mkGw _ _ _ rx' tx').
  destruct (ingress_loop n env stack rest1 g2) as [[[acts2 rest2] g3]|] eqn:Hl; [|done].
  intros [= <- <- <-]. apply IH in Hl as [Hg3 Ha2]; [|by eapply gw_ok_frame, Hg1].
  split; [done|]. apply Forall_app. split; [|done].
  eapply Forall_impl; [exact Ha1|]. eauto.
Qed.

End Gateway.

(** *** Framing *)
Lemma next_frame_framed frame rest queued :
  14 ≤ Zlen frame ≤ MAX_FRAME → queued < 64 →
  next_frame (to_be_bytes 4 (Zlen frame) ++ frame ++ rest) queued = Next_frame frame rest.
Proof.
  rewrite /next_frame /MAX_FRAME => Hlen Hq. pose proof (Zlen_nonneg rest).
  assert (Zlen (to_be_bytes 4 (Zlen frame)) = 4) as H4 by apply Zlen_to_be_bytes.
  assert (from_be_bytes (slice (to_be_bytes 4 (Zlen frame) ++ frame ++ rest) 0 4) = Zlen frame) as ->.
  { rewrite slice_app_l; [lia..|]. rewrite (slice_all _ 4 H4). apply from_to_be_bytes. lia. }
  rewrite !Zlen_app H4.
  assert ((4 + (Zlen frame + Zlen rest) <? 4) || (64 <=? queued) = false) as -> by lia.
  assert ((Zlen frame <? 14) || (128 * 1024 <? Zlen frame) = false) as -> by lia.
  assert ((4 + (Zlen frame + Zlen rest) <? Zlen frame + 4) = false) as -> by lia.
  f_equal.
  - rewrite /slice. rewrite drop_app_length'; [by rewrite length_to_be_bytes|].
    apply take_app_length'. rewrite /Zlen. lia.
  - rewrite app_assoc. apply drop_app_length'. rewrite length_app length_to_be_bytes /Zlen. lia.
Qed.

Lemma next_frame_inv incoming queued frame rest : bytes incoming →
  next_frame incoming queued = Next_frame frame rest →
  queued < 64 ∧ 14 ≤ Zlen frame ≤ MAX_FRAME ∧ incoming = to_be_bytes 4 (Zlen frame) ++ frame ++ rest.
Proof.
  intros Hby. rewrite /next_frame. set (len := from_be_bytes _).
  destruct (_ || _) eqn:E1; [done|]. destruct ((len <? 14) || _) eqn:E2; [done|].
  destruct (Z.ltb_spec (Zlen incoming) (len + 4)); [done|]. intros [= <- <-].
  apply orb_false_iff in E1 as [], E2 as [].
  assert (Zlen (slice incoming 4 len) = len) as Hl by (apply Zlen_slice; lia).
  rewrite Hl. split_and!; [lia..|].
  assert (to_be_bytes 4 len = slice incoming 0 4) as ->.
  { assert (length (slice incoming 0 4) = 4%nat) as H4.
    { pose proof (Zlen_slice incoming 0 4 ltac:(lia) ltac:(lia) ltac:(lia)) as Hz. rewrite /Zlen in Hz. lia. }
    pose proof (to_from_be_bytes _ (bytes_slice incoming 0 4 Hby)) as Hr. by rewrite H4 in Hr. }
  rewrite /slice drop_0. replace (drop (Z.to_nat (len + 4)) incoming)
    with (drop (Z.to_nat len) (drop (Z.to_nat 4) incoming)) by (rewrite drop_drop; f_equal; lia).
  by rewrite take_drop take_drop.
Qed.

(** Framing on the guest link.  A frame is taken from the receive buffer
    exactly when the buffer starts with its big-endian length followed by it,
    the length is between 14 and 128 KiB, and the queue has room; the rest of
    the buffer is kept byte for byte. *)
Theorem framing_exact incoming queued frame rest : bytes incoming →
  next_frame incoming queued = Next_frame frame rest ↔
  queued < 64 ∧ 14 ≤ Zlen frame ≤ MAX_FRAME ∧ incoming = to_be_bytes 4 (Zlen frame) ++ frame ++ rest.
Proof.
  intros Hby. split; [by apply next_frame_inv|]. intros (? & ? & ->). by apply next_frame_framed.
Qed.

(** *** DNS forwarding *)
Record DnsQuery := mkDnsQuery {
  dns_socket : Z; client : Z; dns_started : Z; question : Dns.Question }.

(** A datagram from the guest; [open] is [open_dns] followed by [send]. *)
Definition dns_request (now : Z) (d : list Z) (from : Z) (open : option Z) (dns : list DnsQuery)
    : list DnsQuery :=
  if (Zlen d <? 12) || (64 <=? Zlen dns) then dns else
  match Dns.query d, open with
  | Some q, Some s => dns ++ [mkDnsQuery s from now q]
  | _, _ => dns
  end.

Inductive DnsRecv := DnsGot (d : list Z) | DnsErr (would_block : bool).

Definition dns_poll_one (now : Z) (recv : DnsQuery → DnsRecv) (q : DnsQuery) : option (Z * list Z) * bool :=
  if 5 * 1000000000 <=? since now (dns_started q) then (None, false) else
  match recv q with
  | DnsGot d =>
      if Dns.matches (question q) d then
        (if 1232 <? Zlen d then (λ r, (client q, r)) <$> Dns.truncated_reply (question q) d
         else Some (client q, d), false)
      else (None, true)
  | DnsErr would_block => (None, would_block)
  end.

Definition dns_poll (now : Z) (recv : DnsQuery → DnsRecv) (dns : list DnsQuery)
    : list (Z * list Z) * list DnsQuery :=
  (omap (λ q, (dns_poll_one now recv q).1) dns, filter (λ q, (dns_poll_one now recv q).2 = true) dns).

(** DNS answers.  A datagram is sent to a guest client only in reply to its
    own pending query, at most five seconds old, which is then retired; it
    answers that query's identifier and question, and fits 1232 bytes even when
    the resolver's answer did not. *)
Theorem dns_answers_match now recv dns to d :
  (∀ q d, recv q = DnsGot d → bytes d) →
  (to, d) ∈ (dns_poll now recv dns).1 →
  Zlen d ≤ 1232 ∧ ∃ q, q ∈ dns ∧ q ∉ (dns_poll now recv dns).2 ∧ client q = to ∧
    since now (dns_started q) < 5 * 1000000000 ∧ Dns.matches (question q) d = true.
Proof.
  intros Hby. rewrite /dns_poll /= list_elem_of_omap => -[q [Hq Hd]].
  assert (q ∉ filter (λ q, (dns_poll_one now recv q).2 = true) dns) as Hnot.
  { rewrite list_elem_of_filter. intros [Hk _]. revert Hd Hk. rewrite /dns_poll_one. repeat case_match; done. }
  revert Hd. rewrite /dns_poll_one. destruct (Z.leb_spec (5 * 1000000000) (since now (dns_started q))); [done|].
  destruct (recv q) as [d0|] eqn:Hr; [|done]. destruct (Dns.matches (question q) d0) eqn:Hm; [|done]. simpl.
  destruct (Z.ltb_spec 1232 (Zlen d0)).
  - destruct (Dns.truncated_reply (question q) d0) as [r|] eqn:Ht; [|done]. intros [= <- <-].
    apply Dns.truncated_reply_spec in Ht as (? & ? & _); [|by eapply Hby]. split; [lia|].
    exists q. split_and!; done.
  - intros [= <- <-]. split; [lia|]. exists q. split_and!; done.
Qed.

(** *** Egress *)
Inductive Written := Wrote (n : Z) | WouldBlock | Broken.

Record Egress := mkEgress { bucket : Bucket.Bucket; queue : list (list Z); write_offset : Z }.

(** The [for _ in 0..64] writer: [now n] and [write n] are the clock and the
    stream at iteration [n]; the result is the bytes accepted by the stream and
    whether the link stays up. *)
Fixpoint egress_loop (n : nat) (now : nat → Z) (write : nat → list Z → Written) (e : Egress)
    : list Z * bool * Egress :=
  match n with
  | O => ([], true, e)
  | S n =>
      match queue e with
      | [] => ([], true, e)
      | frame :: rest =>
          let '(avail, b) := Bucket.available (now n) (bucket e) in
          let count := Z.min avail (Zlen frame - write_offset e) in
          if count =? 0 then ([], true, mkEgress b (queue e) (write_offset e)) else
          match write n (slice frame (write_offset e) count) with
          | Wrote 0 => ([], false, mkEgress b (queue e) (write_offset e))
          | Wrote k =>
              let off := write_offset e + k in
              let e' := if off =? Zlen frame then mkEgress (Bucket.consume k b) rest 0
                        else mkEgress (Bucket.consume k b) (queue e) off in
              let '(out, up, e') := egress_loop n now write e' in
              (slice frame (write_offset e) k ++ out, up, e')
          | WouldBlock => ([], true, mkEgress b (queue e) (write_offset e))
          | Broken => ([], false, mkEgress b (queue e) (write_offset e))
          end
      end
  end.

(** What is still owed to the guest. *)
Definition owed (e : Egress) : list Z := drop (Z.to_nat (write_offset e)) (concat (queue e)).
Definition egress_ok (e : Egress) : Prop :=
  match queue e with
  | [] => write_offset e = 0
  | frame :: _ => 0 ≤ write_offset e ≤ Zlen frame
  end.

(** The egress writer sends the queued frames as one uninterrupted byte
    stream: across short writes, throttling and blocked sockets, what was
    written followed by what is still owed is what was owed before. *)
Theorem egress_stream n now write e out up e' :
  (∀ i l k, write i l = Wrote k → 0 ≤ k ≤ Zlen l) → egress_ok e →
  egress_loop n now write e = (out, up, e') →
  owed e = out ++ owed e' ∧ egress_ok e'.
Proof.
  intros Hw. revert e out up. induction n as [|n IH]; intros [b q off] out up Hok; simpl.
  { by intros [= <- <- <-]. }
  destruct q as [|frame rest]; [by intros [= <- <- <-]|]. rewrite /egress_ok /= in Hok.
  destruct (Bucket.available (now n) b) as [avail b1]. set (count := Z.min avail _).
  destruct (count =? 0); [by intros [= <- <- <-]|].
  destruct (write n (slice frame off count)) as [k| |] eqn:Hk; [|by intros [= <- <- <-]..].
  apply Hw in Hk. assert (Zlen (slice frame off count) ≤ Zlen frame - off) as Hs.
  { clear Hk. rewrite /slice /Zlen length_take length_drop. rewrite /Zlen in Hok. lia. }
  set (e1 := if off + k =? Zlen frame then _ else _).
  assert (owed (mkEgress b (frame :: rest) off) = slice frame off k ++ owed e1 ∧ egress_ok e1) as [Ho Hok1].
  { rewrite /e1 /owed /egress_ok /=. destruct (Z.eqb_spec (off + k) (Zlen frame)) as [He|He]; simpl.
    - rewrite drop_0. split; [|by destruct rest as [|? ?]; [|pose proof (Zlen_nonneg l); lia]].
      rewrite drop_app_le; [rewrite /Zlen in Hok; lia|]. f_equal.
      rewrite /slice. symmetry. apply take_ge. rewrite length_drop. rewrite /Zlen in He. lia.
    - split; [|lia]. assert (0 ≤ off + k ≤ Zlen frame) as Hk' by lia. rewrite /Zlen in Hk' Hok.
      rewrite !drop_app_le; [lia..|].
      rewrite app_assoc /slice. f_equal. rewrite -{1}(take_drop (Z.to_nat k) (drop (Z.to_nat off) frame)).
      f_equal. rewrite drop_drop. f_equal. lia. }
  destruct (egress_loop n now write e1) as [[out1 up1] e2] eqn:Hl.
  destruct (Z.eq_dec k 0) as [->|Hk0]; [by intros [= <- <- <-]|].
  intros Heq. assert (slice frame off k ++ out1 = out ∧ e2 = e') as [<- <-] by (destruct k; by simplify_eq).
  apply IH in Hl as [Ho' Hok']; [|done]. by rewrite Ho Ho' app_assoc.
Qed.

(** *** Instances at concrete inputs *)
Definition idle : Gw := mkGw ∅ ∅ (Icmp.new 0) [] [].

Lemma idle_ok : gw_ok idle.
Proof.
  rewrite /gw_ok /=. split_and!.
  - rewrite map_size_empty. lia.
  - by intros k f ?%lookup_empty_Some.
  - by intros h ?%not_elem_of_empty.
  - by intros k1 k2 f1 f2 ?%lookup_empty_Some.
Qed.

End Gateway.

(** ** Connection permits: [ConnectPermit::take] and its [Drop]
    Threads race on one counter with a load and a compare-exchange loop. *)
Module Permit.

Inductive Thread :=
| Trying (current : nat)   (* loaded or observed, about to compare-exchange *)
| Holding.                 (* owns a permit *)

Record State := mkState { active : nat; threads : gmap nat Thread }.

Inductive step : State → State → Prop :=
| load t a ts : ts !! t = None →
    step (mkState a ts) (mkState a (<[t := Trying a]> ts))
| exchange_ok t a ts : ts !! t = Some (Trying a) → (a < Gateway.MAX_FLOWS)%nat →
    step (mkState a ts) (mkState (a + 1) (<[t := Holding]> ts))
| exchange_fail t c a ts : ts !! t = Some (Trying c) → (c < Gateway.MAX_FLOWS)%nat →
    step (mkState a ts) (mkState a (<[t := Trying a]> ts))
| refused t c a ts : ts !! t = Some (Trying c) → ¬ (c < Gateway.MAX_FLOWS)%nat →
    step (mkState a ts) (mkState a (delete t ts))
| release t a ts : ts !! t = Some Holding →
    step (mkState a ts) (mkState (a - 1) (delete t ts)).

Definition is_holding (th : Thread) : Prop := th = Holding.
#[export] Instance is_holding_dec th : Decision (is_holding th).
Proof. rewrite /is_holding. destruct th; [right|left]; congruence. Defined.

Definition holders (ts : gmap nat Thread) : nat := size (filter (λ kv, is_holding kv.2) ts).

Definition init : State := mkState 0 ∅.

Lemma holders_delete (ts : gmap nat Thread) t th : ts !! t = Some th →
  holders ts = ((if decide (is_holding th) then 1 else 0) + holders (delete t ts))%nat.
Proof.
  intros Ht. rewrite /holders -{1}(insert_delete_id ts t th Ht) map_filter_insert /=.
  case_decide; [|by rewrite delete_delete_eq].
  by rewrite map_size_insert_None; [rewrite map_lookup_filter lookup_delete_eq|].
Qed.

Lemma holders_insert (ts : gmap nat Thread) t th :
  holders (<[t := th]> ts) = ((if decide (is_holding th) then 1 else 0) + holders (delete t ts))%nat.
Proof. rewrite (holders_delete _ t th) ?lookup_insert_eq // delete_insert_eq. done. Qed.

Lemma holders_none (ts : gmap nat Thread) t : ts !! t = None → delete t ts = ts.
Proof. apply delete_id. Qed.

Definition ok (s : State) : Prop := active s = holders (threads s) ∧ (active s ≤ Gateway.MAX_FLOWS)%nat.

Lemma permit_step_ok s s' : ok s → step s s' → ok s'.
Proof.
  rewrite /ok => -[Ha Hle] Hs. destruct Hs as [t a ts Ht|t a ts Ht ?|t c a ts Ht ?|t c a ts Ht ?|t a ts Ht];
    simpl in *; rewrite ?holders_insert; try pose proof (holders_delete ts t _ Ht) as Hd;
    rewrite ?(holders_none ts t Ht) //; unfold is_holding in *; repeat case_decide; try done; lia.
Qed.

(** C15: permit counting.  However the threads' loads, compare-exchanges and
    drops interleave, the counter equals the number of permits held and never
    exceeds 64; in particular a release never wraps it below zero. *)
Theorem permits_counted s : rtc step init s →
  active s = holders (threads s) ∧ (active s ≤ 64)%nat ∧
  ∀ t, threads s !! t = Some Holding → (0 < active s)%nat.
Proof.
  intros Hr. assert (ok s) as [Ha Hle].
  { eapply (rtc_ind_r ok), Hr; [split; [done|rewrite /Gateway.MAX_FLOWS /=; lia]|].
    intros; by eapply permit_step_ok. }
  split_and!; [done..|]. intros t Ht. pose proof (holders_delete _ t _ Ht) as Hd.
  destruct (decide _) in Hd; [lia|done].
Qed.

Lemma permits_counted_witness :
  active (mkState 1 {[0%nat := Holding]}) = holders (threads (mkState 1 {[0%nat := Holding]})) ∧
  (active (mkState 1 {[0%nat := Holding]}) ≤ 64)%nat ∧
  ∀ t, threads (mkState 1 {[0%nat := Holding]}) !! t = Some Holding →
    (0 < active (mkState 1 {[0%nat := Holding]}))%nat.
Proof.
  apply permits_counted.
  eapply rtc_l; [apply (load 0); reflexivity|].
  eapply rtc_l; [apply (exchange_ok 0); [reflexivity|vm_compute; lia]|].
  rewrite /= insert_insert_eq. apply rtc_refl.
Defined.

End Permit.

(** ** Instances at concrete inputs
    A packet library over a token format, enough to run the gateway: an Ethernet
    frame is its source address followed by a type byte and the payload, an IPv4
    packet its protocol, a destination and its payload. *)
Module Demo.

#[local] Instance demo_smoltcp : Smoltcp := {|
  EthernetFrame_new_checked f :=
    if Zlen f <? 14 then None
    else Some (mkEth (slice f 6 6) (if index f 12 =? 8 then EtIpv4 else EtArp) (drop 14 f));
  Ipv4Packet_new_checked p :=
    if Zlen p <? 5 then None
    else Some (mkIpv4 4 GUEST (index p 1, index p 2, index p 3, index p 4) true false 0
      (if index p 0 =? 6 then Tcp else if index p 0 =? 1 then Icmp else OtherProtocol) (drop 5 p));
  TcpPacket_new_checked p :=
    if Zlen p <? 2 then None else Some (mkTcp (index p 0) (index p 1) true false false false (λ _ _, true));
  UdpPacket_new_checked _ := None;
  Icmpv4Packet_new_checked p :=
    if Zlen p <? 8 then None
    else Some (mkIcmp (if index p 0 =? 8 then EchoRequest else EchoReply) (index p 1) true (index p 4));
  ipv4_fill_checksum h := h;
  icmp_as_echo_reply p := 0 :: drop 1 p |}.

Definition ping : list Z := [8; 0; 0; 0; 7; 0; 0; 1].
Definition pong : list Z := [0; 0; 0; 0; 9; 0; 0; 1].
Definition echo : Icmp.Echo := Icmp.mkEcho 3 (8, 8, 8, 8) 9 ping 0.
Definition ops : list Icmp.Op :=
  [Icmp.Request (8, 8, 8, 8) ping 0 (Some []) (λ _ _ _, Some echo); Icmp.Request GW ping 5 None (λ _ _ _, None);
   Icmp.Poll 9 (λ _, Icmp.RecvOther)].

Lemma icmp_rate_limited_witness :
  let '(n, f) := Icmp.session ops (Icmp.new 0) in
  n = 2 ∧ n * Icmp.INTERVAL ≤ Icmp.BURST + (9 - 0) ∧ Zlen (Icmp.pending f) ≤ Icmp.MAX_PENDING.
Proof.
  pose proof (Icmp.icmp_rate_limited 0 ops ltac:(simpl; lia)) as Hr.
  destruct (Icmp.session ops (Icmp.new 0)) as [n f] eqn:E.
  split; [vm_compute in E; congruence|exact Hr].
Defined.

Definition waiting : Icmp.Forwarder := Icmp.mkForwarder [echo] 0 0 false.

Lemma icmp_reply_genuine_witness :
  ∃ e reply p, e ∈ Icmp.pending waiting ∧
    e ∉ Icmp.pending (Icmp.poll 5 (λ _, Icmp.RecvV4 (8, 8, 8, 8) pong) waiting).2 ∧
    since 5 (Icmp.started e) < Icmp.DEADLINE ∧
    Icmp.RecvV4 (8, 8, 8, 8) pong = Icmp.RecvV4 (Icmp.destination e) reply ∧
    Icmpv4Packet_new_checked reply = Some p ∧
    msg_type p = EchoReply ∧ icmp_checksum_ok p = true ∧ echo_ident p = Icmp.host_ident e ∧
    Zlen reply = Zlen (Icmp.request e) ∧ drop 6 reply = drop 6 (Icmp.request e) ∧
    Icmp.reply_frame (8, 8, 8, 8) ping = Icmp.reply_frame (Icmp.destination e) (Icmp.request e).
Proof.
  apply (Icmp.icmp_reply_genuine 5 (λ _, Icmp.RecvV4 (8, 8, 8, 8) pong) waiting
    (Icmp.reply_frame (8, 8, 8, 8) ping)). apply list_elem_of_here.
Defined.

(** A SYN to 8.8.8.8 port 80. *)
Definition syn_frame : list Z := zeros 6 ++ MAC ++ [8; 0] ++ [6; 8; 8; 8; 8] ++ [77; 80].
Definition env (n : nat) : Gateway.Env :=
  Gateway.mkEnv 5 (Some [(9, 9, 9, 9)]) (λ _ _ _, None) true true (λ _, false).
Definition wire_bytes : list Z := to_be_bytes 4 (Zlen syn_frame) ++ syn_frame ++ [0; 0].
Definition after : Gateway.Gw :=
  Gateway.mkGw {[((8, 8, 8, 8), 80, 77) := Gateway.mkFlow 1 false 5 false false]} {[1%positive]} (Icmp.new 0) [] [].

Lemma run_syn :
  Gateway.ingress_loop (1, 1, 1, 1) ∅ 64 env (λ _, ([], [])) wire_bytes Gateway.idle =
  Some ([Gateway.Connect (8, 8, 8, 8) 80 ((8, 8, 8, 8), 80, 77); Gateway.Deliver syn_frame], [0; 0], after).
Proof. vm_compute. reflexivity. Qed.

Lemma gateway_reach_witness :
  Gateway.gw_ok after ∧
  Forall (λ a, ∃ i, Gateway.connect_allowed (1, 1, 1, 1) ∅ (Gateway.host_ips (env i)) a)
    [Gateway.Connect (8, 8, 8, 8) 80 ((8, 8, 8, 8), 80, 77); Gateway.Deliver syn_frame].
Proof.
  apply (Gateway.gateway_reach (1, 1, 1, 1) ∅ 64 env (λ _, ([], [])) wire_bytes Gateway.idle _ [0; 0]);
    [apply Gateway.idle_ok|apply run_syn].
Defined.

Lemma bytes_check l : forallb (λ b, (0 <=? b) && (b <? 256)) l = true → bytes l.
Proof. rewrite forallb_forall => Hl. apply Forall_forall. intros x Hx%list_elem_of_In%Hl. rewrite /is_byte. lia. Qed.

Lemma framing_exact_witness :
  Gateway.next_frame wire_bytes 0 = Gateway.Next_frame syn_frame [0; 0] ↔
  0 < 64 ∧ 14 ≤ Zlen syn_frame ≤ Gateway.MAX_FRAME ∧
  wire_bytes = to_be_bytes 4 (Zlen syn_frame) ++ syn_frame ++ [0; 0].
Proof. apply (Gateway.framing_exact wire_bytes 0). apply bytes_check. reflexivity. Defined.

Definition pending_query : Gateway.DnsQuery :=
  Gateway.mkDnsQuery 4 77 0 (Dns.mkQuestion [18; 52] 0 [1; 97; 0] [0; 1; 0; 1]).

Lemma dns_answers_match_witness :
  Zlen Dns.sample_answer ≤ 1232 ∧
  ∃ q, q ∈ [pending_query] ∧
    q ∉ (Gateway.dns_poll 5 (λ _, Gateway.DnsGot Dns.sample_answer) [pending_query]).2 ∧
    Gateway.client q = 77 ∧ since 5 (Gateway.dns_started q) < 5 * 1000000000 ∧
    Dns.matches (Gateway.question q) Dns.sample_answer = true.
Proof.
  apply (Gateway.dns_answers_match 5 (λ _, Gateway.DnsGot Dns.sample_answer) [pending_query] 77).
  - intros q d [= <-]. apply Dns.sample_bytes.
  - vm_compute. apply list_elem_of_here.
Defined.

Definition egress : Gateway.Egress := Gateway.mkEgress (Bucket.new None 0) [[1; 2; 3]; [4; 5]] 1.
Definition short_write (i : nat) (l : list Z) : Gateway.Written :=
  match i with O => Gateway.WouldBlock | S _ => Gateway.Wrote (Z.min 1 (Zlen l)) end.

Lemma egress_stream_witness :
  Gateway.owed egress = [2; 3; 4] ++ [5] ∧
  Gateway.egress_ok (Gateway.mkEgress (Bucket.new None 0) [[4; 5]] 1).
Proof.
  apply (Gateway.egress_stream 4 (λ _, 0) short_write egress [2; 3; 4] true
    (Gateway.mkEgress (Bucket.new None 0) [[4; 5]] 1)).
  - intros [|i] l k [= <-]. pose proof (Zlen_nonneg l). lia.
  - rewrite /Gateway.egress_ok /=. split; done.
  - reflexivity.
Defined.

End Demo.
