(* ===== verification/Paging.v ===== *)
(** Cursor pagination, shared by the listings of the metadata store: a page is
    the first [n] rows after a cursor in a total order, and a scan follows the
    cursor of the last row seen.  The scan of a fixed set of rows visits every
    row exactly once, in order. *)
From S2P Require Import Prelude.

Lemma filter_all {A} (P : A → Prop) `{!∀ x, Decision (P x)} l : Forall P l → filter P l = l.
Proof. induction 1; [done|]. rewrite filter_cons_True //. by f_equal. Qed.

Lemma filter_none {A} (P : A → Prop) `{!∀ x, Decision (P x)} l : Forall (λ x, ¬ P x) l → filter P l = [].
Proof. induction 1; [done|]. by rewrite filter_cons_False. Qed.

Lemma filter_filter_ext {A} (P Q R : A → Prop) `{!∀ x, Decision (P x), !∀ x, Decision (Q x), !∀ x, Decision (R x)} (l : list A) :
  (∀ x, x ∈ l → R x ↔ P x ∧ Q x) → filter R l = filter Q (filter P l).
Proof.
  induction l as [|x l IH]; intros Hx; [done|]. rewrite !filter_cons.
  assert (R x ↔ P x ∧ Q x) as Hr by (apply Hx; left).
  assert (filter R l = filter Q (filter P l)) as E by (apply IH; intros; apply Hx; by right).
  destruct (decide (P x)); destruct (decide (R x)); rewrite ?filter_cons E; try tauto; case_decide; tauto.
Qed.

Section scan.
Context {A C : Type} (key : A → C).

(** Follow the cursor until an empty page. *)
Fixpoint scan (fuel : nat) (page : option C → list A) (cur : option C) : list A :=
  match fuel with
  | O => []
  | S fuel =>
      match last (page cur) with
      | None => []
      | Some x => page cur ++ scan fuel page (Some (key x))
      end
  end.
Lemma scan_ext fuel p1 p2 cur : (∀ c, p1 c = p2 c) → scan fuel p1 cur = scan fuel p2 cur.
Proof.
  intros Hp. revert cur. induction fuel as [|fuel IH]; intros cur; simpl; [done|].
  rewrite Hp. destruct (last (p2 cur)); [|done]. by rewrite IH.
Qed.
End scan.

Section pages.
Context {A C : Type} (R : A → A → Prop) `{!∀ x y, Decision (R x y)} `{!Transitive R} `{!Total R}.
Context (key : A → C) (after : C → A → bool).
Variable L : list A.
Hypothesis HL : NoDup L.
Hypothesis Hanti : ∀ x y, x ∈ L → y ∈ L → R x y → R y x → x = y.
Hypothesis Hafter : ∀ x y, x ∈ L → y ∈ L → after (key x) y = true ↔ R x y ∧ x ≠ y.

Let S := merge_sort R L.

Lemma sorted_rows : StronglySorted R S ∧ S ≡ₚ L ∧ NoDup S.
Proof.
  assert (S ≡ₚ L) as HS by apply merge_sort_Permutation.
  split_and!; [by apply StronglySorted_merge_sort|done|by rewrite HS].
Qed.

Lemma StronglySorted_filter (P : A → Prop) `{!∀ x, Decision (P x)} l :
  StronglySorted R l → StronglySorted R (filter P l).
Proof.
  induction 1 as [|x l Hl IH Hx]; [constructor|]. rewrite filter_cons.
  case_decide; [|done]. constructor; [done|].
  apply Forall_forall. intros y [_ Hy]%list_elem_of_filter. rewrite Forall_forall in Hx. by apply Hx.
Qed.

Lemma sort_filter (P : A → Prop) `{!∀ x, Decision (P x)} :
  merge_sort R (filter P L) = filter P S.
Proof.
  destruct sorted_rows as (HS & Hp & _).
  eapply (StronglySorted_unique_strong R).
  - intros x y Hx Hy. apply Hanti.
    + rewrite merge_sort_Permutation in Hx. by apply list_elem_of_filter in Hx as [_ ?].
    + apply list_elem_of_filter in Hy as [_ Hy]. by rewrite Hp in Hy.
  - by apply StronglySorted_merge_sort.
  - by apply StronglySorted_filter.
  - by rewrite merge_sort_Permutation Hp.
Qed.

(** The rows after the last row of a prefix are the rest. *)
Lemma filter_after pre x rest : S = pre ++ x :: rest →
  filter (λ y, after (key x) y = true) S = rest.
Proof.
  intros HS. destruct sorted_rows as (Hss & Hp & Hnd).
  assert (∀ y, y ∈ S → y ∈ L) as Hin by (intros y Hy; by rewrite -Hp).
  rewrite HS in Hss Hnd Hin |- *.
  rewrite filter_app filter_cons_False.
  { rewrite Hafter; [apply Hin, elem_of_app; right; left..|]. naive_solver. }
  apply NoDup_app in Hnd as (_ & Hpre & [Hx _]%NoDup_cons).
  assert (filter (λ y, after (key x) y = true) pre = []) as ->.
  { apply filter_none, Forall_forall. intros y Hy Ha.
    assert (x ∈ L) by (apply Hin, elem_of_app; right; left).
    assert (y ∈ L) by (apply Hin, elem_of_app; by left).
    apply Hafter in Ha as [Hxy Hne]; [|done..]. apply Hne, Hanti; [done..|].
    eapply (StronglySorted_app_1_elem_of R) in Hss; [exact Hss|done|left]. }
  simpl. apply filter_all, Forall_forall. intros y Hy.
  apply Hafter; [apply Hin, elem_of_app; right; left|apply Hin, elem_of_app; by do 2 right|].
  split; [|by intros ->].
  apply StronglySorted_app_1_r in Hss. apply StronglySorted_cons in Hss as [Hall _].
  rewrite Forall_forall in Hall. by apply Hall.
Qed.

Definition page_of (n : nat) (cur : option C) : list A :=
  take n (merge_sort R (filter (λ x, match cur with None => true | Some c => after c x end = true) L)).

Lemma scan_from n fuel pre x rest : (0 < n)%nat → S = pre ++ x :: rest → (length rest < fuel)%nat →
  scan key fuel (page_of n) (Some (key x)) = rest.
Proof.
  intros Hn. revert pre x rest. induction fuel as [|fuel IH]; intros pre x rest HS Hf; [lia|].
  simpl. assert (page_of n (Some (key x)) = take n rest) as ->.
  { rewrite /page_of sort_filter. f_equal. by eapply filter_after. }
  destruct (last (take n rest)) as [z|] eqn:Hlast.
  - apply last_Some in Hlast as [pre' Hpre'].
    assert (rest = (pre' ++ [z]) ++ drop n rest) as Hrest by (by rewrite -Hpre' take_drop).
    rewrite Hpre'. rewrite (IH (pre ++ x :: pre') z (drop n rest)).
    + rewrite HS {1}Hrest. by rewrite -!app_assoc.
    + rewrite length_drop. assert (length rest ≠ 0%nat); [|lia].
      rewrite Hrest !length_app /=. lia.
    + done.
  - apply last_None in Hlast. destruct rest; [done|]. destruct n; [lia|done].
Qed.

Lemma scan_complete n fuel : (0 < n)%nat → (length L < fuel)%nat →
  scan key fuel (page_of n) None = S.
Proof.
  intros Hn Hf. destruct sorted_rows as (_ & Hp & _).
  destruct fuel as [|fuel]; [lia|]. simpl.
  assert (page_of n None = take n S) as ->.
  { rewrite /page_of sort_filter. f_equal. by apply filter_all, Forall_forall. }
  destruct (last (take n S)) as [z|] eqn:Hlast.
  - apply last_Some in Hlast as [pre Hpre].
    assert (S = pre ++ z :: drop n S) as HS by (by rewrite -{1}(take_drop n S) Hpre -app_assoc).
    rewrite (scan_from n fuel pre z (drop n S)) //; [|by rewrite take_drop].
    + assert (length S = length L) by (by rewrite Hp).
      assert (length S ≠ 0%nat); [rewrite HS length_app /=; lia|]. rewrite length_drop. lia.
  - apply last_None in Hlast. destruct S eqn:E; [done|]. destruct n; [lia|done].
Qed.
End pages.
