(* ===== verification/Sums.v ===== *)
(** Sums over finite maps, the accounting of the quota, outbox and cache
    components: [total f m] adds [f k v] over the entries of [m]. *)
From S2P Require Import Prelude.

Section total.
Context `{Countable K} {V : Type}.
Implicit Types (f g : K → V → Z) (m : gmap K V).

Definition total f m : Z := map_fold (λ k v acc, f k v + acc) 0 m.

Lemma total_empty f : total f ∅ = 0.
Proof. apply map_fold_empty. Qed.

Lemma total_insert_new f m k v : m !! k = None → total f (<[k := v]> m) = f k v + total f m.
Proof. intros Hk. rewrite /total map_fold_insert_L //. intros. lia. Qed.

Lemma total_delete f m k v : m !! k = Some v → total f m = f k v + total f (delete k m).
Proof. intros Hk. rewrite -{1}(insert_delete_id m k v Hk) total_insert_new ?lookup_delete_eq //. Qed.

Lemma total_delete_none f m k : m !! k = None → total f (delete k m) = total f m.
Proof. intros. by rewrite delete_id. Qed.

Lemma total_insert f m k v :
  total f (<[k := v]> m) = f k v + total f (delete k m).
Proof. rewrite -insert_delete_eq total_insert_new ?lookup_delete_eq //. Qed.

Lemma total_update f m k v w : m !! k = Some v →
  total f (<[k := w]> m) = total f m + (f k w - f k v).
Proof. intros Hk. rewrite total_insert (total_delete f m k v Hk). lia. Qed.

Lemma total_ind (P : gmap K V → Prop) :
  P ∅ → (∀ k v m, m !! k = None → P m → P (<[k := v]> m)) → ∀ m, P m.
Proof. intros. by apply map_ind. Qed.

Lemma total_ext f g m : (∀ k v, m !! k = Some v → f k v = g k v) → total f m = total g m.
Proof.
  revert m. apply (total_ind (λ m, _ → total f m = total g m)); [by rewrite !total_empty|].
  intros k v m Hk IH Hfg. rewrite !total_insert_new // Hfg ?lookup_insert_eq // IH //.
  intros k' v' Hk'. apply Hfg. rewrite lookup_insert_ne; [by intros ->; congruence|done].
Qed.

Lemma total_le f g m : (∀ k v, m !! k = Some v → f k v ≤ g k v) → total f m ≤ total g m.
Proof.
  revert m. apply (total_ind (λ m, _ → total f m ≤ total g m)); [by rewrite !total_empty|].
  intros k v m Hk IH Hfg. rewrite !total_insert_new //.
  assert (f k v ≤ g k v) by (apply Hfg, lookup_insert_eq).
  assert (total f m ≤ total g m); [|lia]. apply IH. intros k' v' Hk'. apply Hfg.
  rewrite lookup_insert_ne; [by intros ->; congruence|done].
Qed.

Lemma total_nonneg f m : (∀ k v, m !! k = Some v → 0 ≤ f k v) → 0 ≤ total f m.
Proof.
  intros Hf. etrans; [|by apply (total_le (λ _ _, 0))].
  clear. induction m using map_ind; [by rewrite total_empty|]. by rewrite total_insert_new.
Qed.

Lemma total_elem f m k v : (∀ k v, m !! k = Some v → 0 ≤ f k v) → m !! k = Some v → f k v ≤ total f m.
Proof.
  intros Hf Hk. rewrite (total_delete f m k v Hk).
  assert (0 ≤ total f (delete k m)); [|lia]. apply total_nonneg.
  intros k' v' [_ ?]%lookup_delete_Some. eauto.
Qed.

Lemma total_const1 m : total (λ _ _, 1) m = Z.of_nat (size m).
Proof.
  induction m as [|k v m Hk IH] using map_ind; [by rewrite total_empty map_size_empty|].
  rewrite total_insert_new // map_size_insert_None //. lia.
Qed.

Lemma total_map (h : K → V → V) f m :
  total f (map_imap (λ k v, Some (h k v)) m) = total (λ k v, f k (h k v)) m.
Proof.
  induction m as [|k v m Hk IH] using map_ind; [by rewrite map_imap_empty !total_empty|].
  rewrite (map_imap_insert_Some _ k v m (h k v)) // !total_insert_new ?IH //.
  by rewrite map_lookup_imap Hk.
Qed.

Lemma total_filter (P : K * V → Prop) `{!∀ x, Decision (P x)} f m :
  total f (filter P m) = total (λ k v, if decide (P (k, v)) then f k v else 0) m.
Proof.
  induction m as [|k v m Hk IH] using map_ind; [by rewrite map_filter_empty !total_empty|].
  rewrite map_filter_insert !total_insert_new //. case_decide.
  - rewrite total_insert_new ?IH //. by rewrite map_lookup_filter Hk.
  - by rewrite (delete_id m k).
Qed.
End total.

Lemma total_dom_le `{Countable K} {V W} (f : K → V → Z) (g : K → W → Z) (m : gmap K V) (m' : gmap K W) : (∀ k v, m' !! k = Some v → 0 ≤ g k v) →
  (∀ k v, m !! k = Some v → f k v ≤ match m' !! k with Some w => g k w | None => 0 end) → total f m ≤ total g m'.
Proof.
  revert m'. induction m as [|k v m Hk IH] using map_ind.
  - intros m' Hg _. rewrite total_empty. by apply total_nonneg.
  - intros m' Hg Hf. rewrite total_insert_new //. pose proof (Hf k v (lookup_insert_eq _ _ _)) as Hkv.
    assert (total f m ≤ total g (delete k m')) as Hle.
    { apply IH; [intros j w [_ Hj]%lookup_delete_Some; by eapply Hg|]. intros j w Hj.
      assert (k ≠ j) as Hne by congruence. rewrite lookup_delete_ne //. apply Hf. by rewrite lookup_insert_ne. }
    destruct (m' !! k) as [w|] eqn:Hw; [rewrite (total_delete g m' k w Hw)|rewrite delete_id // in Hle]; lia.
Qed.

Lemma total_plus `{Countable K} {V} (f g : K → V → Z) (m : gmap K V) : total (λ k v, f k v + g k v) m = total f m + total g m.
Proof.
  revert m. apply (total_ind (λ m, total (λ k v, f k v + g k v) m = _)); [by rewrite !total_empty|].
  intros k v m Hk IH. rewrite !total_insert_new // IH. lia.
Qed.
