(* ===== verification/Db.v ===== *)
(** The metadata store, [ahvm-store/src/lib.rs], [events.rs], [entities.rs] and
    the schema of [schema.rs]: one finite map per table, and the SQL statements
    as functions on them, with primary keys, foreign keys, unique indexes and
    CHECK constraints as the schema declares them ([Sqlite] is the error of a
    violated constraint).  A method is one state-and-error computation because
    the connection is behind a mutex; [transaction] rolls back on error.
    Failures of the disk under SQLite are not modelled.

    Timestamps are unix seconds.  JSON payloads belong to [serde_json], which is
    the class [Serde]. *)
From S2P Require Import Prelude Paging.
From Stdlib Require Ascii String.

Module Store.

Inductive Error := Sqlite | NotFound | Conflict | JsonError.

#[export] Instance Error_eq_dec : EqDecision Error.
Proof. solve_decision. Defined.

(** ** Entities *)
Record User := mkUser {
  user_name : string;
  api_key_hash : string;
  max_sandboxes : Z;
  max_cpus : Z;
  max_memory_mb : Z;
  max_volumes_mb : Z;
  max_snapshots : Z;
  user_created_at : Z;
  user_updated_at : Z;
}.

Inductive Backend := Krucible | Firecracker.
Definition as_str (b : Backend) : string :=
  match b with Krucible => "krucible" | Firecracker => "firecracker" end.
Definition parse (s : string) : option Backend :=
  if decide (s = "krucible") then Some Krucible
  else if decide (s = "firecracker") then Some Firecracker
  else None.

Record Sandbox := mkSandbox {
  id : string;
  owner_user_id : string;
  name : string;
  backend : string;         (* [Backend::as_str] *)
  state : string;
  thermal : string;
  cpus : Z;
  memory_mb : Z;
  ip : string;
  created_at : Z;
  updated_at : Z;
}.

Record Snapshot := mkSnapshot {
  snap_owner : string;
  snap_sandbox : option string;
  snap_name : string;
  snap_kind : string;
  snap_state : string;
  local_bytes : Z;
  remote_state : string;
  remote_manifest_key : option string;
  snap_created_at : Z;
  expires_at : option Z;
}.

Record Volume := mkVolume {
  vol_owner : string;
  vol_name : string;
  size_mb : Z;
  attached_to : option string;
  vol_created_at : Z;
}.

Record Image := mkImage { image_name : string; source : string; image_mb : Z; image_created_at : Z }.
(** [progress] is only stored: a rational. *)
Record Task := mkTask { task_kind : string; task_state : string; progress : string; task_created_at : Z; task_updated_at : Z }.

Record Preview := mkPreview { generation : list Z; token_hash : option string; token_expires : Z }.

Record EventRow := mkEventRow {
  seq : Z; event_type : string; event_user : string; event_sandbox : string; payload : string; event_at : Z }.

Record LifecycleOperation := mkOperation {
  op_owner : string;
  op_sandbox : string;
  request : string;
  op_state : string;
  status : option Z;
  op_error : option string;
  sandbox_state : option string;
  storage_volume_id : option string;
  op_created_at : Z;
}.

Record ReplicatedReservation := mkReservation {
  res_owner : string;
  res_sandbox : string;
  logical_bytes : Z;
  res_state : string;
  logical_released : bool;
  res_created_at : Z;
  res_updated_at : Z;
}.

Record ManagedRun := mkRun {
  run_sandbox : string;
  run_owner : string;
  request_json : string;
  phase : string;
  epoch : Z;
  session_id : option string;
  boot_id : option string;
  run_created_at : Z;
  run_updated_at : Z;
  deadline_at : Z;
  finished_at : option Z;
  exit_code : option Z;
  detail : option string;
}.

Record EventStream := mkStream {
  delivery_json : string;
  retry_until : Z;
  source_offset : Z;
  guest_seq : Z;
  next_event_seq : Z;
  acked_seq : Z;
  checkpoint_json : option string;
  pending_bytes : Z;
  source_failed : bool;
  sealed : bool;
}.

Record ProjectEnvironmentBuilder := mkBuilder {
  bld_sandbox : string;
  bld_owner : string;
  bld_request : string;
  bld_metadata : string;
  bld_phase : string;
  bld_created_at : Z;
}.

Record ProjectEnvironmentImage := mkProjectImage {
  img_owner : string;
  tenant_id : string;
  project_id : string;
  img_metadata : string;
  img_request : string;
  source_volume_id : string;
  source_sandbox_id : string;
  source_logical_bytes : Z;
  img_logical_bytes : Z;
  img_phase : string;
  img_digest : option string;
  image_path : option string;
  img_detail : option string;
  img_created_at : Z;
  img_updated_at : Z;
}.

(** ** The database *)
Record Db := mkDb {
  users : gmap string User;
  sandboxes : gmap string Sandbox;
  snapshots : gmap string Snapshot;
  volumes : gmap string Volume;
  images : gmap string Image;
  tasks : gmap string Task;
  preview_ports : gmap (string * Z) Preview;
  host_settings : gmap string Z;
  events : list EventRow;
  last_seq : Z;
  lifecycle_operations : gmap string LifecycleOperation;
  replicated_reservations : gmap string ReplicatedReservation;
  managed_runs : gmap string ManagedRun;
  event_streams : gmap string EventStream;
  run_events : gmap (string * Z) (string * Z);
  builders : gmap string ProjectEnvironmentBuilder;
  project_images : gmap string ProjectEnvironmentImage;
  image_refs : gmap (string * string) string;
  retention : gmap (string * string * string) (Z * string);
}.

Definition set_users (x : gmap string User) (d : Db) : Db :=
  mkDb x (sandboxes d) (snapshots d) (volumes d) (images d) (tasks d) (preview_ports d) (host_settings d) (events d) (last_seq d) (lifecycle_operations d) (replicated_reservations d) (managed_runs d) (event_streams d) (run_events d) (builders d) (project_images d) (image_refs d) (retention d).
Definition set_sandboxes (x : gmap string Sandbox) (d : Db) : Db :=
  mkDb (users d) x (snapshots d) (volumes d) (images d) (tasks d) (preview_ports d) (host_settings d) (events d) (last_seq d) (lifecycle_operations d) (replicated_reservations d) (managed_runs d) (event_streams d) (run_events d) (builders d) (project_images d) (image_refs d) (retention d).
Definition set_snapshots (x : gmap string Snapshot) (d : Db) : Db :=
  mkDb (users d) (sandboxes d) x (volumes d) (images d) (tasks d) (preview_ports d) (host_settings d) (events d) (last_seq d) (lifecycle_operations d) (replicated_reservations d) (managed_runs d) (event_streams d) (run_events d) (builders d) (project_images d) (image_refs d) (retention d).
Definition set_volumes (x : gmap string Volume) (d : Db) : Db :=
  mkDb (users d) (sandboxes d) (snapshots d) x (images d) (tasks d) (preview_ports d) (host_settings d) (events d) (last_seq d) (lifecycle_operations d) (replicated_reservations d) (managed_runs d) (event_streams d) (run_events d) (builders d) (project_images d) (image_refs d) (retention d).
Definition set_images (x : gmap string Image) (d : Db) : Db :=
  mkDb (users d) (sandboxes d) (snapshots d) (volumes d) x (tasks d) (preview_ports d) (host_settings d) (events d) (last_seq d) (lifecycle_operations d) (replicated_reservations d) (managed_runs d) (event_streams d) (run_events d) (builders d) (project_images d) (image_refs d) (retention d).
Definition set_tasks (x : gmap string Task) (d : Db) : Db :=
  mkDb (users d) (sandboxes d) (snapshots d) (volumes d) (images d) x (preview_ports d) (host_settings d) (events d) (last_seq d) (lifecycle_operations d) (replicated_reservations d) (managed_runs d) (event_streams d) (run_events d) (builders d) (project_images d) (image_refs d) (retention d).
Definition set_preview_ports (x : gmap (string * Z) Preview) (d : Db) : Db :=
  mkDb (users d) (sandboxes d) (snapshots d) (volumes d) (images d) (tasks d) x (host_settings d) (events d) (last_seq d) (lifecycle_operations d) (replicated_reservations d) (managed_runs d) (event_streams d) (run_events d) (builders d) (project_images d) (image_refs d) (retention d).
Definition set_host_settings (x : gmap string Z) (d : Db) : Db :=
  mkDb (users d) (sandboxes d) (snapshots d) (volumes d) (images d) (tasks d) (preview_ports d) x (events d) (last_seq d) (lifecycle_operations d) (replicated_reservations d) (managed_runs d) (event_streams d) (run_events d) (builders d) (project_images d) (image_refs d) (retention d).
Definition set_events (x : list EventRow) (d : Db) : Db :=
  mkDb (users d) (sandboxes d) (snapshots d) (volumes d) (images d) (tasks d) (preview_ports d) (host_settings d) x (last_seq d) (lifecycle_operations d) (replicated_reservations d) (managed_runs d) (event_streams d) (run_events d) (builders d) (project_images d) (image_refs d) (retention d).
Definition set_last_seq (x : Z) (d : Db) : Db :=
  mkDb (users d) (sandboxes d) (snapshots d) (volumes d) (images d) (tasks d) (preview_ports d) (host_settings d) (events d) x (lifecycle_operations d) (replicated_reservations d) (managed_runs d) (event_streams d) (run_events d) (builders d) (project_images d) (image_refs d) (retention d).
Definition set_lifecycle_operations (x : gmap string LifecycleOperation) (d : Db) : Db :=
  mkDb (users d) (sandboxes d) (snapshots d) (volumes d) (images d) (tasks d) (preview_ports d) (host_settings d) (events d) (last_seq d) x (replicated_reservations d) (managed_runs d) (event_streams d) (run_events d) (builders d) (project_images d) (image_refs d) (retention d).
Definition set_replicated_reservations (x : gmap string ReplicatedReservation) (d : Db) : Db :=
  mkDb (users d) (sandboxes d) (snapshots d) (volumes d) (images d) (tasks d) (preview_ports d) (host_settings d) (events d) (last_seq d) (lifecycle_operations d) x (managed_runs d) (event_streams d) (run_events d) (builders d) (project_images d) (image_refs d) (retention d).
Definition set_managed_runs (x : gmap string ManagedRun) (d : Db) : Db :=
  mkDb (users d) (sandboxes d) (snapshots d) (volumes d) (images d) (tasks d) (preview_ports d) (host_settings d) (events d) (last_seq d) (lifecycle_operations d) (replicated_reservations d) x (event_streams d) (run_events d) (builders d) (project_images d) (image_refs d) (retention d).
Definition set_event_streams (x : gmap string EventStream) (d : Db) : Db :=
  mkDb (users d) (sandboxes d) (snapshots d) (volumes d) (images d) (tasks d) (preview_ports d) (host_settings d) (events d) (last_seq d) (lifecycle_operations d) (replicated_reservations d) (managed_runs d) x (run_events d) (builders d) (project_images d) (image_refs d) (retention d).
Definition set_run_events (x : gmap (string * Z) (string * Z)) (d : Db) : Db :=
  mkDb (users d) (sandboxes d) (snapshots d) (volumes d) (images d) (tasks d) (preview_ports d) (host_settings d) (events d) (last_seq d) (lifecycle_operations d) (replicated_reservations d) (managed_runs d) (event_streams d) x (builders d) (project_images d) (image_refs d) (retention d).
Definition set_builders (x : gmap string ProjectEnvironmentBuilder) (d : Db) : Db :=
  mkDb (users d) (sandboxes d) (snapshots d) (volumes d) (images d) (tasks d) (preview_ports d) (host_settings d) (events d) (last_seq d) (lifecycle_operations d) (replicated_reservations d) (managed_runs d) (event_streams d) (run_events d) x (project_images d) (image_refs d) (retention d).
Definition set_project_images (x : gmap string ProjectEnvironmentImage) (d : Db) : Db :=
  mkDb (users d) (sandboxes d) (snapshots d) (volumes d) (images d) (tasks d) (preview_ports d) (host_settings d) (events d) (last_seq d) (lifecycle_operations d) (replicated_reservations d) (managed_runs d) (event_streams d) (run_events d) (builders d) x (image_refs d) (retention d).
Definition set_image_refs (x : gmap (string * string) string) (d : Db) : Db :=
  mkDb (users d) (sandboxes d) (snapshots d) (volumes d) (images d) (tasks d) (preview_ports d) (host_settings d) (events d) (last_seq d) (lifecycle_operations d) (replicated_reservations d) (managed_runs d) (event_streams d) (run_events d) (builders d) (project_images d) x (retention d).
Definition set_retention (x : gmap (string * string * string) (Z * string)) (d : Db) : Db :=
  mkDb (users d) (sandboxes d) (snapshots d) (volumes d) (images d) (tasks d) (preview_ports d) (host_settings d) (events d) (last_seq d) (lifecycle_operations d) (replicated_reservations d) (managed_runs d) (event_streams d) (run_events d) (builders d) (project_images d) (image_refs d) x.

Definition empty_db : Db :=
  mkDb ∅ ∅ ∅ ∅ ∅ ∅ ∅ ∅ [] 0 ∅ ∅ ∅ ∅ ∅ ∅ ∅ ∅ ∅.

Abbreviation DM := (M Error Db).

(** [Store::transaction] *)
Definition transaction {A} (f : DM A) : DM A := λ d,
  match f d with
  | (Ok a, d') => (Ok a, d')
  | (Err e, _) => (Err e, d)
  end.

(** *** SQL primitives *)
Section Sql.
Context `{Countable K} {V : Type} (prj : Db → gmap K V) (upd : gmap K V → Db → Db).

(** [INSERT INTO]: a duplicate primary key is an error. *)
Definition insert_row (k : K) (v : V) : DM unit :=
  t ← gets prj;
  guard_err (bool_decide (t !! k = None)) Sqlite;;
  modify (upd (<[k := v]> t)).

(** [UPDATE ... WHERE key=k AND cond]: the number of rows changed. *)
Definition update_row (k : K) (cond : V → bool) (f : V → V) : DM Z :=
  t ← gets prj;
  match t !! k with
  | Some v => if cond v then modify (upd (<[k := f v]> t));; mret 1 else mret 0
  | None => mret 0
  end.

(** [UPDATE ... WHERE cond] *)
Definition update_where (cond : K → V → bool) (f : V → V) : DM unit :=
  t ← gets prj;
  modify (upd (map_imap (λ k v, Some (if cond k v then f v else v)) t)).

Definition delete_row (k : K) : DM unit :=
  t ← gets prj; modify (upd (delete k t)).

Definition delete_where (cond : K → V → bool) : DM unit :=
  t ← gets prj; modify (upd (filter (λ kv, cond kv.1 kv.2 = false) t)).

(** A foreign key: the referenced row must exist. *)
Definition references (k : K) : DM unit :=
  t ← gets prj; guard_err (bool_decide (is_Some (t !! k))) Sqlite.

Definition select_row (k : K) (e : Error) : DM V :=
  t ← gets prj; ok_or (t !! k) e.

Definition select_where (cond : K → V → bool) : DM (list (K * V)) :=
  t ← gets prj; mret (filter (λ kv, cond kv.1 kv.2 = true) (map_to_list t)).

Definition exists_where (cond : K → V → bool) : DM bool :=
  l ← select_where cond; mret (negb (bool_decide (l = []))).
End Sql.

Section Sql_rules.
Context `{Countable K} {V : Type} (prj : Db → gmap K V) (upd : gmap K V → Db → Db).
Implicit Types d : Db.

Lemma wp_insert_row k v d (Q : Result Error unit → Db → Prop) :
  (prj d !! k = None → Q (Ok tt) (upd (<[k := v]> (prj d)) d)) → Q (Err Sqlite) d →
  wp (insert_row prj upd k v) d Q.
Proof. intros Hok Herr. rewrite /insert_row. wp_steps; [apply Hok; by eapply bool_decide_eq_true_1|done]. Qed.

Lemma wp_insert_fresh k v d (Q : Result Error unit → Db → Prop) :
  prj d !! k = None → Q (Ok tt) (upd (<[k := v]> (prj d)) d) → wp (insert_row prj upd k v) d Q.
Proof. intros Hk Hok. rewrite /insert_row. wp_steps; [done|]. by rewrite bool_decide_eq_true_2 in H0. Qed.

Lemma wp_update_row k (cond : V → bool) f d (Q : Result Error Z → Db → Prop) :
  (∀ v, prj d !! k = Some v → cond v = true → Q (Ok 1) (upd (<[k := f v]> (prj d)) d)) →
  ((∀ v, prj d !! k = Some v → cond v = false) → Q (Ok 0) d) →
  wp (update_row prj upd k cond f) d Q.
Proof.
  intros Hok Hno. rewrite /update_row. wp_step. wp_step. cbn beta iota.
  destruct (prj d !! k) as [v|] eqn:E; [|by apply Hno].
  destruct (cond v) eqn:Ec; [|apply Hno; congruence]. wp_steps. by apply Hok.
Qed.

Lemma wp_update_where (cond : K → V → bool) f d (Q : Result Error unit → Db → Prop) :
  Q (Ok tt) (upd (map_imap (λ k v, Some (if cond k v then f v else v)) (prj d)) d) →
  wp (update_where prj upd cond f) d Q.
Proof. done. Qed.

Lemma wp_delete_row k d (Q : Result Error unit → Db → Prop) :
  Q (Ok tt) (upd (delete k (prj d)) d) → wp (delete_row prj upd k) d Q.
Proof. done. Qed.

Lemma wp_delete_where (cond : K → V → bool) d (Q : Result Error unit → Db → Prop) :
  Q (Ok tt) (upd (filter (λ kv, cond kv.1 kv.2 = false) (prj d)) d) →
  wp (delete_where prj upd cond) d Q.
Proof. done. Qed.

Lemma wp_references k d (Q : Result Error unit → Db → Prop) :
  (is_Some (prj d !! k) → Q (Ok tt) d) → Q (Err Sqlite) d → wp (references prj k) d Q.
Proof. intros Hok Herr. rewrite /references. wp_steps; [apply Hok; by eapply bool_decide_eq_true_1|done]. Qed.

Lemma wp_select_row k e d (Q : Result Error V → Db → Prop) :
  (∀ v, prj d !! k = Some v → Q (Ok v) d) → (prj d !! k = None → Q (Err e) d) →
  wp (select_row prj k e) d Q.
Proof. intros Hok Herr. rewrite /select_row. wp_steps; auto. Qed.

Lemma wp_select_where (cond : K → V → bool) d (Q : Result Error (list (K * V)) → Db → Prop) :
  (∀ l, (∀ k v, (k, v) ∈ l ↔ prj d !! k = Some v ∧ cond k v = true) →
    l = filter (λ kv, cond kv.1 kv.2 = true) (map_to_list (prj d)) → Q (Ok l) d) →
  wp (select_where prj cond) d Q.
Proof.
  intros Hok. rewrite /select_where. wp_steps. apply Hok; [|done].
  intros k v. rewrite list_elem_of_filter elem_of_map_to_list /=. tauto.
Qed.

Lemma wp_exists_where (cond : K → V → bool) d (Q : Result Error bool → Db → Prop) :
  (∀ b, (b = true ↔ ∃ k v, prj d !! k = Some v ∧ cond k v = true) → Q (Ok b) d) →
  wp (exists_where prj cond) d Q.
Proof.
  intros Hok. rewrite /exists_where. wp_step. apply wp_select_where. intros l Hl _. wp_step. apply Hok.
  rewrite negb_true_iff bool_decide_eq_false. split.
  - destruct l as [|[k v] l]; [done|]. intros _. exists k, v. apply Hl. left.
  - intros (k & v & Hkv%Hl) ->. by apply not_elem_of_nil in Hkv.
Qed.
End Sql_rules.

(** One step through an SQL method. *)
Ltac sql_step :=
  lazymatch goal with
  | |- wp (insert_row _ _ _ _) _ _ => apply wp_insert_row; [intros ?|]
  | |- wp (update_row _ _ _ _ _) _ _ => apply wp_update_row; intros
  | |- wp (update_where _ _ _ _) _ _ => apply wp_update_where
  | |- wp (delete_row _ _ _) _ _ => apply wp_delete_row
  | |- wp (delete_where _ _ _) _ _ => apply wp_delete_where
  | |- wp (references _ _) _ _ => apply wp_references; [intros ?|]
  | |- wp (select_row _ _ _) _ _ => apply wp_select_row; intros
  | |- wp (select_where _ _) _ _ => apply wp_select_where; intros
  | |- wp (exists_where _ _) _ _ => apply wp_exists_where; intros
  | |- _ => wp_step
  end.
Ltac sql_steps := repeat (sql_step; cbn beta iota).

Lemma wp_transaction {A} (f : DM A) d (Q : Result Error A → Db → Prop) :
  wp f d (λ r d', match r with Ok a => Q (Ok a) d' | Err e => Q (Err e) d end) →
  wp (transaction f) d Q.
Proof. rewrite /wp /transaction. by destruct (f d) as [[a|e] d']. Qed.

(** ** Users *)
Definition upsert_user (uid : string) (u : User) : DM unit :=
  clash ← exists_where users (λ k v, bool_decide (user_name v = user_name u ∧ k ≠ uid));
  guard_err (negb clash) Conflict;;
  t ← gets users;
  let u := match t !! uid with
           | Some old => mkUser (user_name u) (api_key_hash u) (max_sandboxes u) (max_cpus u) (max_memory_mb u)
                           (max_volumes_mb u) (max_snapshots u) (user_created_at old) (user_updated_at u)
           | None => u
           end in
  modify (set_users (<[uid := u]> t)).

Definition get_user (uid : string) : DM User := select_row users uid NotFound.

Definition get_user_by_key_hash (hash : string) : DM (string * User) :=
  l ← select_where users (λ _ v, bool_decide (api_key_hash v = hash));
  ok_or (head l) NotFound.

(** ** Sandboxes *)
Definition create_sandbox (s : Sandbox) : DM unit :=
  references users (owner_user_id s);;
  insert_row sandboxes set_sandboxes (id s) s.

Definition get_sandbox (sid : string) : DM Sandbox := select_row sandboxes sid NotFound.

Definition set_sandbox_state_inner (sid st th : string) (now : Z) : DM unit :=
  n ← update_row sandboxes set_sandboxes sid (λ _, true)
    (λ s, mkSandbox (id s) (owner_user_id s) (name s) (backend s) st th (cpus s) (memory_mb s) (ip s) (created_at s) now);
  guard_err (negb (n =? 0)) NotFound.
Definition set_sandbox_state := set_sandbox_state_inner.

(** Streams whose final event is acknowledged and whose run is gone; their
    events go with them. *)
Definition cleanup_retired_streams : DM unit :=
  runs ← gets managed_runs;
  streams ← gets event_streams;
  let retired k (s : EventStream) :=
    sealed s && (acked_seq s =? next_event_seq s - 1) && bool_decide (runs !! k = None) in
  delete_where event_streams set_event_streams retired;;
  delete_where run_events set_run_events
    (λ k _, match streams !! k.1 with Some s => retired k.1 s | None => false end).

(** [DELETE FROM sandboxes WHERE id=?1] with its foreign-key actions: runs and
    preview ports cascade, snapshots and volumes forget the sandbox. *)
Definition delete_sandbox_row (sid : string) : DM unit :=
  delete_row sandboxes set_sandboxes sid;;
  delete_where managed_runs set_managed_runs (λ _ r, bool_decide (run_sandbox r = sid));;
  delete_where preview_ports set_preview_ports (λ k _, bool_decide (k.1 = sid));;
  update_where snapshots set_snapshots (λ _ s, bool_decide (snap_sandbox s = Some sid))
    (λ s, mkSnapshot (snap_owner s) None (snap_name s) (snap_kind s) (snap_state s) (local_bytes s)
            (remote_state s) (remote_manifest_key s) (snap_created_at s) (expires_at s));;
  update_where volumes set_volumes (λ _ v, bool_decide (attached_to v = Some sid))
    (λ v, mkVolume (vol_owner v) (vol_name v) (size_mb v) None (vol_created_at v)).

Definition delete_sandbox (sid : string) : DM unit :=
  delete_sandbox_row sid;; cleanup_retired_streams.

(** [ORDER BY created_at DESC, id DESC] *)
Definition newer (x y : Sandbox) : Prop :=
  created_at y < created_at x ∨ created_at x = created_at y ∧ String.le (id y) (id x).
#[export] Instance newer_dec x y : Decision (newer x y).
Proof. rewrite /newer. apply _. Defined.

(** [created_at < ?2 OR (created_at = ?2 AND id < ?3)] *)
Definition before (cursor : Z * string) (s : Sandbox) : bool :=
  (created_at s <? cursor.1) || ((created_at s =? cursor.1) && String.ltb (id s) cursor.2).

Definition i64_max : Z := 2 ^ 63 - 1.

Definition list_all_sandboxes (after : option (Z * string)) (limit : nat) : DM (list Sandbox) :=
  let cursor := default (i64_max, ""%string) after in
  t ← gets sandboxes;
  mret (take limit (merge_sort newer (filter (λ s, before cursor s = true) (map_to_list t).*2))).

Definition list_sandboxes (owner : string) (after : option (Z * string)) (limit : nat) : DM (list Sandbox) :=
  let cursor := default (i64_max, ""%string) after in
  t ← gets sandboxes;
  mret (take limit (merge_sort newer
    (filter (λ s, owner_user_id s = owner ∧ before cursor s = true) (map_to_list t).*2))).

(** ** Snapshots *)
Definition create_snapshot (sid : string) (s : Snapshot) : DM unit :=
  references users (snap_owner s);;
  match snap_sandbox s with Some b => references sandboxes b | None => mret tt end;;
  insert_row snapshots set_snapshots sid s.

Definition get_snapshot (sid : string) : DM Snapshot := select_row snapshots sid NotFound.

Definition set_snapshot_remote_inner (sid remote : string) (key : option string) : DM unit :=
  n ← update_row snapshots set_snapshots sid (λ _, true)
    (λ s, mkSnapshot (snap_owner s) (snap_sandbox s) (snap_name s) (snap_kind s) (snap_state s) (local_bytes s)
            remote key (snap_created_at s) (expires_at s));
  guard_err (negb (n =? 0)) NotFound.
Definition set_snapshot_remote := set_snapshot_remote_inner.

Definition delete_snapshot (sid : string) : DM unit := delete_row snapshots set_snapshots sid.

Definition set_snapshot_state (sid st : string) (bytes : Z) : DM unit :=
  changed ← update_row snapshots set_snapshots sid (λ _, true)
    (λ s, mkSnapshot (snap_owner s) (snap_sandbox s) (snap_name s) (snap_kind s) st bytes
            (remote_state s) (remote_manifest_key s) (snap_created_at s) (expires_at s));
  guard_err (negb (changed =? 0)) NotFound.

Definition count_snapshots (owner : string) : DM Z :=
  l ← select_where snapshots (λ _ s, bool_decide (snap_owner s = owner)); mret (Zlen l).

(** [ORDER BY id] *)
Definition by_key {A} (x y : string * A) : Prop := String.le x.1 y.1.
#[export] Instance by_key_dec {A} (x y : string * A) : Decision (by_key x y).
Proof. rewrite /by_key. apply _. Defined.
Definition list_snapshots : DM (list (string * Snapshot)) :=
  t ← gets snapshots; mret (merge_sort by_key (map_to_list t)).

(** ** Volumes *)
Definition create_volume (vid : string) (v : Volume) : DM unit :=
  references users (vol_owner v);;
  match attached_to v with Some b => references sandboxes b | None => mret tt end;;
  insert_row volumes set_volumes vid v.

Definition get_volume (vid : string) : DM Volume := select_row volumes vid NotFound.
Definition delete_volume (vid : string) : DM unit := delete_row volumes set_volumes vid.

Definition set_attached (a : option string) (v : Volume) : Volume :=
  mkVolume (vol_owner v) (vol_name v) (size_mb v) a (vol_created_at v).

(** [attached_to IS NULL OR attached_to=?1] *)
Definition free_for (sandbox : string) (v : Volume) : bool :=
  match attached_to v with None => true | Some b => bool_decide (b = sandbox) end.

(** The single conditional UPDATE; setting [attached_to] checks its foreign
    key on the rows it touches. *)
Definition attach_volume_inner (vid sandbox : string) : DM unit :=
  t ← gets volumes;
  sbs ← gets sandboxes;
  guard_err (match t !! vid with
             | Some v => negb (free_for sandbox v) || bool_decide (is_Some (sbs !! sandbox))
             | None => true end) Sqlite;;
  n ← update_row volumes set_volumes vid (free_for sandbox) (set_attached (Some sandbox));
  if n =? 1 then mret tt else
  match t !! vid with
  | Some _ => fail Conflict
  | None => fail NotFound
  end.

Definition detach_volume_inner (vid expected : string) : DM unit :=
  n ← update_row volumes set_volumes vid (λ v, bool_decide (attached_to v = Some expected)) (set_attached None);
  if n =? 1 then mret tt else
  t ← gets volumes;
  match t !! vid with
  | Some _ => fail Conflict
  | None => fail NotFound
  end.
Definition attach_volume := attach_volume_inner.
Definition detach_volume := detach_volume_inner.

(** ** Images and tasks *)
Definition upsert_image (iid : string) (img : Image) : DM unit :=
  clash ← exists_where images (λ k v, bool_decide (image_name v = image_name img ∧ k ≠ iid));
  guard_err (negb clash) Sqlite;;       (* UNIQUE(name) *)
  t ← gets images;
  let img := match t !! iid with
             | Some old => mkImage (image_name img) (source img) (image_mb img) (image_created_at old)
             | None => img end in
  modify (set_images (<[iid := img]> t)).

Definition by_name (x y : string * Image) : Prop := String.le (image_name x.2) (image_name y.2).
#[export] Instance by_name_dec x y : Decision (by_name x y).
Proof. rewrite /by_name. apply _. Defined.
Definition list_images : DM (list (string * Image)) :=
  t ← gets images; mret (merge_sort by_name (map_to_list t)).

Definition create_task (tid : string) (t : Task) : DM unit := insert_row tasks set_tasks tid t.
Definition set_task_inner (tid st pr : string) (now : Z) : DM unit :=
  n ← update_row tasks set_tasks tid (λ _, true) (λ t, mkTask (task_kind t) st pr (task_created_at t) now);
  guard_err (negb (n =? 0)) NotFound.
Definition set_task := set_task_inner.
Definition get_task (tid : string) : DM Task := select_row tasks tid NotFound.

(** ** Preview ports *)
Definition preview_generation (sid : string) (port : Z) : DM (option (list Z)) :=
  t ← gets preview_ports; mret (generation <$> t !! (sid, port)).

Definition preview_token (sid : string) (port : Z) (hash : string) (expires : Z) : DM unit :=
  n ← update_row preview_ports set_preview_ports (sid, port) (λ _, true)
    (λ p, mkPreview (generation p) (Some hash) expires);
  guard_err (negb (n =? 0)) NotFound.

Definition check_preview_token (sid : string) (port : Z) (hash : string) (now : Z) : DM (option Z) :=
  t ← gets preview_ports;
  mret (match t !! (sid, port) with
        | Some p => if bool_decide (token_hash p = Some hash) && (now <? token_expires p)
                    then Some (token_expires p) else None
        | None => None end).

Definition port_le (x y : string * Z * Preview) : Prop := x.1.2 ≤ y.1.2.
#[export] Instance port_le_dec x y : Decision (port_le x y).
Proof. rewrite /port_le. apply _. Defined.
Definition list_preview_ports (sid : string) : DM (list Z) :=
  l ← select_where preview_ports (λ k _, bool_decide (k.1 = sid));
  mret ((λ kv : string * Z * Preview, kv.1.2) <$> merge_sort port_le l).

(** [gen] is the [randomblob(16)] default.  [INSERT OR IGNORE] skips a row that
    violates the port's CHECK; a missing sandbox is still an error. *)
Definition set_preview_port (gen : list Z) (sid : string) (port : Z) (enabled : bool) : DM unit :=
  if enabled then
    l ← select_where preview_ports (λ k _, bool_decide (k.1 = sid));
    t ← gets preview_ports;
    let exists_ := bool_decide (is_Some (t !! (sid, port))) in
    guard_err (negb ((16 <=? Zlen l) && negb exists_)) Conflict;;
    if exists_ || negb ((1 <=? port) && (port <=? 65535)) then mret tt else
    references sandboxes sid;;
    modify (set_preview_ports (<[(sid, port) := mkPreview gen None 0]> t))
  else delete_row preview_ports set_preview_ports (sid, port).

(** ** Host settings *)
Definition setting (max : Z) (key : string) : DM (option Z) :=
  t ← gets host_settings;
  match t !! key with
  | Some v => if (0 <=? v) && (v <=? max) then mret (Some v) else fail Sqlite
  | None => mret None
  end.
Definition pause_after_secs : DM (option Z) := setting u32_max "pause_after_secs".
Definition agent_idle_stop_secs : DM (option Z) := setting u32_max "agent_idle_stop_secs".
Definition idle_stop_secs : DM (option Z) := setting u64_max "idle_stop_secs".

Definition put_setting (key : string) (v : Z) : DM unit :=
  t ← gets host_settings; modify (set_host_settings (<[key := v]> t)).
Definition set_pause_after_secs (v : Z) : DM unit :=
  guard_err (v <=? i64_max) Conflict;; put_setting "pause_after_secs" v.

Definition set_idle_policy (pause agent_stop idle_stop : Z) : DM unit :=
  guard_err (negb ((negb (pause =? 0) && negb ((5 <=? pause) && (pause <=? 86400)))
                   || negb ((60 <=? agent_stop) && (agent_stop <=? 86400)))) Conflict;;
  guard_err (idle_stop <=? i64_max) Conflict;;
  put_setting "pause_after_secs" pause;;
  put_setting "agent_idle_stop_secs" agent_stop;;
  put_setting "idle_stop_secs" idle_stop.

(** ** events.rs *)
Class Serde := {
  Value : Type;
  Null : Value;
  to_string : Value → string;
  from_str : string → option Value;
}.

Section Events.
Context `{Serde}.

Record Event := mkEvent {
  ev_seq : Z; ev_type : string; ev_user : string; ev_sandbox : string; ev_payload : Value; ev_at : Z }.
Record EventFilter := mkEventFilter {
  type_prefix : option string; filter_sandbox : option string; after_seq : Z; limit : Z }.

Definition record_event_inner (ty uid sid : string) (v : Value) (now : Z) : DM Z :=
  n ← gets last_seq;
  guard_err (n <? i64_max) Sqlite;;
  es ← gets events;
  modify (set_last_seq (n + 1));;
  modify (set_events (es ++ [mkEventRow (n + 1) ty uid sid (to_string v) now]));;
  mret (n + 1).
Definition record_event := record_event_inner.

(** SQL [LIKE]: [%] any sequence, [_] any character, ASCII letters without case. *)
Definition percent : Ascii.ascii := Ascii.ascii_of_N 37.
Definition underscore : Ascii.ascii := Ascii.ascii_of_N 95.
Definition fold_case (c : Ascii.ascii) : N :=
  let n := Ascii.N_of_ascii c in if (65 <=? n)%N && (n <=? 90)%N then (n + 32)%N else n.
Fixpoint suffixes {A} (l : list A) : list (list A) :=
  l :: match l with [] => [] | _ :: l' => suffixes l' end.
Fixpoint like (p s : list Ascii.ascii) {struct p} : bool :=
  match p with
  | [] => match s with [] => true | _ => false end
  | c :: p' =>
      if decide (c = percent) then existsb (like p') (suffixes s)
      else match s with
      | [] => false
      | x :: s' => (bool_decide (c = underscore) || (fold_case c =? fold_case x)%N) && like p' s'
      end
  end.
Definition like_prefix (prefix s : string) : bool :=
  like (String.list_ascii_of_string prefix ++ [percent]) (String.list_ascii_of_string s).

Definition query_events (f : EventFilter) : DM (list Event) :=
  let lim := if limit f =? 0 then 100 else Z.min (limit f) 500 in
  let prefix := default ""%string (type_prefix f) in
  let sandbox := default ""%string (filter_sandbox f) in
  es ← gets events;
  mret ((λ e, mkEvent (seq e) (event_type e) (event_user e) (event_sandbox e)
                (default Null (from_str (payload e))) (event_at e)) <$>
    take (Z.to_nat lim) (filter (λ e, after_seq f < seq e ∧
      (prefix = ""%string ∨ like_prefix prefix (event_type e) = true) ∧
      (sandbox = ""%string ∨ event_sandbox e = sandbox)) es)).
End Events.

(** ** Referential integrity *)
Record integrity (d : Db) : Prop := mkIntegrity {
  int_user_name : ∀ k1 k2 u1 u2, users d !! k1 = Some u1 → users d !! k2 = Some u2 →
    user_name u1 = user_name u2 → k1 = k2;
  int_sandbox_key : ∀ k s, sandboxes d !! k = Some s → id s = k;
  int_sandbox_owner : ∀ k s, sandboxes d !! k = Some s → is_Some (users d !! owner_user_id s);
  int_snapshot_owner : ∀ k s, snapshots d !! k = Some s → is_Some (users d !! snap_owner s);
  int_snapshot_sandbox : ∀ k s b, snapshots d !! k = Some s → snap_sandbox s = Some b →
    is_Some (sandboxes d !! b);
  int_volume_owner : ∀ k v, volumes d !! k = Some v → is_Some (users d !! vol_owner v);
  int_volume_sandbox : ∀ k v b, volumes d !! k = Some v → attached_to v = Some b →
    is_Some (sandboxes d !! b);
  int_image_name : ∀ k1 k2 i1 i2, images d !! k1 = Some i1 → images d !! k2 = Some i2 →
    image_name i1 = image_name i2 → k1 = k2;
  int_preview_sandbox : ∀ k p, preview_ports d !! k = Some p → is_Some (sandboxes d !! k.1);
  int_preview_port : ∀ k p, preview_ports d !! k = Some p → 1 ≤ k.2 ≤ 65535;
  int_run_sandbox : ∀ k r, managed_runs d !! k = Some r → is_Some (sandboxes d !! run_sandbox r);
  int_run_event : ∀ k e, run_events d !! k = Some e → is_Some (event_streams d !! k.1);
  int_reservation_owner : ∀ k r, replicated_reservations d !! k = Some r → is_Some (users d !! res_owner r);
  int_event_order : StronglySorted (λ x y, seq x < seq y) (events d);
  int_event_last : ∀ e, e ∈ events d → seq e ≤ last_seq d;
}.

(** A method that keeps the database consistent, whatever it returns. *)
Definition preserves {A} (P : Db → Prop) (m : DM A) : Prop := ∀ d, P d → P (m d).2.

Lemma preserves_wp {A} P (m : DM A) : (∀ d, P d → wp m d (λ _ d', P d')) → preserves P m.
Proof. done. Qed.

Lemma preserves_bind {A B} P (m : DM A) (f : A → DM B) :
  preserves P m → (∀ a, preserves P (f a)) → preserves P (m ≫= f).
Proof.
  intros Hm Hf d Hd. specialize (Hm d Hd). rewrite /mbind /M_bind.
  destruct (m d) as [[a|e] d']; [by apply Hf|done].
Qed.

Lemma preserves_transaction {A} P (m : DM A) : preserves P m → preserves P (transaction m).
Proof. intros Hm d Hd. specialize (Hm d Hd). rewrite /transaction. by destruct (m d) as [[a|e] d']. Qed.

Create HintDb preserves.

(** Case analysis on lookups in updated tables. *)
Ltac lookup_cases :=
  repeat match goal with
  | H : <[_ := _]> _ !! _ = Some _ |- _ => apply lookup_insert_Some in H as [[??]|[??]]
  | H : delete _ _ !! _ = Some _ |- _ => apply lookup_delete_Some in H as [??]
  | H : filter _ _ !! _ = Some _ |- _ => apply map_lookup_filter_Some in H as [??]
  | H : map_imap _ _ !! _ = Some _ |- _ =>
      rewrite map_lookup_imap in H; apply bind_Some in H as (? & ? & ?)
  end.

Lemma is_Some_insert `{Countable K} {V} (m : gmap K V) k v j :
  is_Some (m !! j) → is_Some (<[k := v]> m !! j).
Proof. rewrite lookup_insert_is_Some. destruct (decide (k = j)); auto. Qed.
#[export] Hint Resolve is_Some_insert : preserves.

Lemma is_Some_delete `{Countable K} {V} (m : gmap K V) k j :
  j ≠ k → is_Some (m !! j) → is_Some (delete k m !! j).
Proof. intros. by rewrite lookup_delete_ne. Qed.

Lemma unique_clash `{Countable K} {V} (m : gmap K V) (f : V → string) k v b j w :
  (b = true ↔ ∃ k' v', m !! k' = Some v' ∧ bool_decide (f v' = f v ∧ k' ≠ k) = true) →
  negb b = true → m !! j = Some w → f w = f v → j = k.
Proof.
  intros Hb Hn Hj Hf. destruct (decide (j = k)) as [|Hne]; [done|].
  assert (b = true); [|by destruct b]. apply Hb. exists j, w. split; [done|]. by apply bool_decide_eq_true.
Qed.

(** Proves that an update of one table keeps the fields that read other tables. *)
Ltac keep_integrity H :=
  destruct H; constructor; simpl; try assumption; intros; lookup_cases; subst; simpl in *;
  simplify_eq; eauto 3 with preserves.

Lemma upsert_user_integrity uid u : preserves integrity (upsert_user uid u).
Proof.
  apply preserves_wp. intros d H. rewrite /upsert_user. sql_steps; [|done]. keep_integrity H; [|symmetry];
    (eapply (unique_clash (users d) user_name _ u); [done..|]); by case_match.
Qed.

Lemma create_sandbox_integrity s : preserves integrity (create_sandbox s).
Proof. apply preserves_wp. intros d H. rewrite /create_sandbox. sql_steps; try done. keep_integrity H. Qed.

Lemma set_sandbox_state_integrity sid st th now : preserves integrity (set_sandbox_state sid st th now).
Proof.
  apply preserves_wp. intros d H. rewrite /set_sandbox_state /set_sandbox_state_inner. sql_steps; try done; keep_integrity H.
Qed.

Lemma cleanup_retired_streams_integrity : preserves integrity cleanup_retired_streams.
Proof.
  apply preserves_wp. intros d H. rewrite /cleanup_retired_streams. sql_steps. keep_integrity H.
  destruct (int_run_event0 _ _ H) as [x Hx]. rewrite Hx in H0. exists x. by apply map_lookup_filter_Some.
Qed.

Lemma delete_sandbox_row_integrity sid : preserves integrity (delete_sandbox_row sid).
Proof.
  apply preserves_wp. intros d H. rewrite /delete_sandbox_row. sql_steps. keep_integrity H;
    try case_bool_decide; simplify_eq; simpl in *; try discriminate; eauto;
    apply is_Some_delete; try congruence; eauto; by apply bool_decide_eq_false.
Qed.

Lemma create_snapshot_integrity sid s : preserves integrity (create_snapshot sid s).
Proof. apply preserves_wp. intros d H. rewrite /create_snapshot. sql_steps; try done; keep_integrity H. Qed.

Lemma set_snapshot_remote_integrity sid r k : preserves integrity (set_snapshot_remote sid r k).
Proof. apply preserves_wp. intros d H. rewrite /set_snapshot_remote /set_snapshot_remote_inner. sql_steps; try done; keep_integrity H. Qed.

Lemma set_snapshot_state_integrity sid st n : preserves integrity (set_snapshot_state sid st n).
Proof. apply preserves_wp. intros d H. rewrite /set_snapshot_state. sql_steps; try done; keep_integrity H. Qed.

Lemma delete_snapshot_integrity sid : preserves integrity (delete_snapshot sid).
Proof. apply preserves_wp. intros d H. rewrite /delete_snapshot. sql_steps. keep_integrity H. Qed.

Lemma create_volume_integrity vid v : preserves integrity (create_volume vid v).
Proof. apply preserves_wp. intros d H. rewrite /create_volume. sql_steps; try done; keep_integrity H. Qed.

Lemma delete_volume_integrity vid : preserves integrity (delete_volume vid).
Proof. apply preserves_wp. intros d H. rewrite /delete_volume. sql_steps. keep_integrity H. Qed.

Lemma attach_volume_integrity vid b : preserves integrity (attach_volume vid b).
Proof.
  apply preserves_wp. intros d H. rewrite /attach_volume /attach_volume_inner. sql_steps; try done; keep_integrity H.
  rewrite H1 H2 /= in H0. by apply bool_decide_eq_true in H0.
Qed.

Lemma detach_volume_integrity vid b : preserves integrity (detach_volume vid b).
Proof. apply preserves_wp. intros d H. rewrite /detach_volume /detach_volume_inner. sql_steps; try done; keep_integrity H. Qed.

Lemma upsert_image_integrity i img : preserves integrity (upsert_image i img).
Proof.
  apply preserves_wp. intros d H. rewrite /upsert_image. sql_steps; [|done]. keep_integrity H; [|symmetry];
    (eapply (unique_clash (images d) image_name _ img); [done..|]); by case_match.
Qed.

Lemma create_task_integrity i t : preserves integrity (create_task i t).
Proof. apply preserves_wp. intros d H. rewrite /create_task. sql_steps; try done; keep_integrity H. Qed.

Lemma set_task_integrity i st pr now : preserves integrity (set_task i st pr now).
Proof. apply preserves_wp. intros d H. rewrite /set_task /set_task_inner. sql_steps; try done; keep_integrity H. Qed.

Lemma preview_token_integrity sid port h e : preserves integrity (preview_token sid port h e).
Proof.
  apply preserves_wp. intros d H. rewrite /preview_token. sql_steps; try done; keep_integrity H.
  - by eapply (int_preview_sandbox0 (_, _)).
  - by eapply (int_preview_port0 (_, _)).
Qed.

Lemma set_preview_port_integrity gen sid port b : preserves integrity (set_preview_port gen sid port b).
Proof.
  apply preserves_wp. intros d H. rewrite /set_preview_port. sql_steps; try done; keep_integrity H.
  apply orb_false_iff in Heqb1 as [_ Hp]. lia.
Qed.

Lemma put_setting_integrity k v : preserves integrity (put_setting k v).
Proof. apply preserves_wp. intros d H. rewrite /put_setting. sql_steps. keep_integrity H. Qed.

Lemma record_event_integrity `{Serde} ty uid sid v now : preserves integrity (record_event ty uid sid v now).
Proof.
  apply preserves_wp. intros d Hd. rewrite /record_event /record_event_inner. sql_steps; try done; keep_integrity Hd.
  - apply StronglySorted_app_2; [|done|repeat constructor].
    intros x y Hx%int_event_last0 ->%list_elem_of_singleton. simpl. lia.
  - apply elem_of_app in H1 as [Hx%int_event_last0| ->%list_elem_of_singleton]; simpl; lia.
Qed.

(** ** Listing *)
#[export] Instance newer_trans : Transitive newer.
Proof.
  intros x y z [?|[Exy Hxy]] [?|[Eyz Hyz]]; [left; lia..|right]. split; [lia|].
  by trans (id y).
Qed.
#[export] Instance newer_total : Total newer.
Proof.
  intros x y. rewrite /newer. destruct (total String.le (id x) (id y)); lia || (destruct (Z.lt_total (created_at x) (created_at y)) as [|[|]]; auto 6 with lia).
Qed.

Lemma ltb_le a b : String.ltb a b = true ↔ String.le a b ∧ a ≠ b.
Proof.
  rewrite /String.le /String.leb /String.ltb. split.
  - destruct (String.compare a b) eqn:E; [done| |done]. intros _. split; [done|].
    intros ->. pose proof (String.compare_antisym b b) as Hc. by rewrite E in Hc.
  - intros [Hle Hne]. destruct (String.compare a b) eqn:E; [|done|done].
    by apply String.compare_eq_iff in E.
Qed.

Definition page {A} (r : Result Error (list A) * Db) : list A :=
  match r.1 with Ok l => l | Err _ => [] end.

(** The rows [list_sandboxes] pages through. *)
Definition owned (owner : string) (d : Db) : list Sandbox :=
  filter (λ s, owner_user_id s = owner) (map_to_list (sandboxes d)).*2.

Lemma elem_of_owned owner d s : integrity d →
  s ∈ owned owner d ↔ sandboxes d !! id s = Some s ∧ owner_user_id s = owner.
Proof.
  intros Hd. rewrite /owned list_elem_of_filter list_elem_of_fmap. split.
  - intros (Ho & [k s'] & -> & Hk%elem_of_map_to_list). simpl in *.
    by rewrite (int_sandbox_key d Hd k s' Hk).
  - intros [Hk Ho]. split; [done|]. exists (id s, s). by rewrite elem_of_map_to_list.
Qed.

Lemma NoDup_owned owner d : integrity d → NoDup (owned owner d).
Proof.
  intros Hd. apply NoDup_filter. apply (NoDup_fmap_1 id).
  assert (id <$> (map_to_list (sandboxes d)).*2 = (map_to_list (sandboxes d)).*1) as ->.
  { rewrite -list_fmap_compose. apply list_fmap_ext. intros i [k s] Hi. simpl.
    apply (int_sandbox_key d Hd), elem_of_map_to_list. by eapply list_elem_of_lookup_2. }
  apply NoDup_fst_map_to_list.
Qed.

Lemma before_newer x y : before (created_at x, id x) y = true ↔ newer x y ∧ (created_at x, id x) ≠ (created_at y, id y).
Proof.
  rewrite /before /newer orb_true_iff andb_true_iff ltb_le Z.ltb_lt Z.eqb_eq /=. split.
  - intros [?|(-> & ? & Hne)]; (split; [tauto|]); intros [= ]; [lia|congruence].
  - intros [[?|[-> ?]] Hne]; [tauto|]. right. split_and!; [done..|]. congruence.
Qed.

Lemma newer_antisym_id x y : newer x y → newer y x → (id x = id y → x = y) → x = y.
Proof.
  rewrite /newer. intros [?|[E1 H1]] [?|[E2 H2]] Hid; try lia. apply Hid. by apply (anti_symm String.le).
Qed.

Lemma list_sandboxes_page owner n d cur : (∀ k s, sandboxes d !! k = Some s → created_at s < i64_max) →
  page (list_sandboxes owner cur n d) = page_of newer before (owned owner d) n cur.
Proof.
  intros Hmax. rewrite /page /list_sandboxes /page_of /owned /=. f_equal. f_equal.
  apply filter_filter_ext. intros s [[k s'] [-> Hk%elem_of_map_to_list]]%list_elem_of_fmap.
  destruct cur as [c|]; simpl; [done|]. split; [by intros [? _]|]. intros [? _]. split; [done|].
  rewrite /before /=. apply Hmax in Hk. lia.
Qed.

(** C29: paging through an owner's sandboxes.  Following the cursor of the last
    row seen, with any positive page size, yields every sandbox of the owner
    exactly once, newest first. *)
Theorem list_sandboxes_complete owner n fuel d :
  integrity d → (∀ k s, sandboxes d !! k = Some s → created_at s < i64_max) →
  (0 < n)%nat → (size (sandboxes d) < fuel)%nat →
  let rows := scan (λ s, (created_at s, id s)) fuel (λ cur, page (list_sandboxes owner cur n d)) None in
  StronglySorted newer rows ∧ NoDup rows ∧
  ∀ s, s ∈ rows ↔ sandboxes d !! id s = Some s ∧ owner_user_id s = owner.
Proof.
  intros Hd Hmax Hn Hf rows. assert (rows = merge_sort newer (owned owner d)) as ->.
  { rewrite /rows (scan_ext _ _ _ (page_of newer before (owned owner d) n)).
    { intros c. by apply list_sandboxes_page. }
    apply scan_complete; try apply _; try done; [by apply NoDup_owned|..].
    - intros x y [Hx _]%elem_of_owned [Hy _]%elem_of_owned; [|done..]. intros ? ?. apply newer_antisym_id; [done..|]. congruence.
    - intros x y Hx Hy. rewrite before_newer. split; intros [? Hne]; (split; [done|]).
      + by intros ->.
      + intros [= _ Hid]. apply Hne. apply elem_of_owned in Hx as [Hx _], Hy as [Hy _]; [|done..]. congruence.
    - rewrite /owned. pose proof (length_filter (λ s, owner_user_id s = owner) (map_to_list (sandboxes d)).*2) as Hl.
      rewrite length_fmap length_map_to_list in Hl. lia. }
  split_and!.
  - by apply StronglySorted_merge_sort; apply _.
  - rewrite merge_sort_Permutation. by apply NoDup_owned.
  - intros s. rewrite merge_sort_Permutation. by apply elem_of_owned.
Qed.

(** Both methods in closed form. *)
Lemma attach_volume_eq vid b d : attach_volume vid b d =
  match volumes d !! vid with
  | Some v =>
      if free_for b v then
        if bool_decide (is_Some (sandboxes d !! b))
        then (Ok tt, set_volumes (<[vid := set_attached (Some b) v]> (volumes d)) d)
        else (Err Sqlite, d)
      else (Err Conflict, d)
  | None => (Err NotFound, d)
  end.
Proof.
  rewrite /attach_volume /attach_volume_inner /update_row /mbind /M_bind /=.
  destruct (volumes d !! vid) as [v|] eqn:Hv; simpl; [|by rewrite Hv].
  destruct (free_for b v) eqn:Hf; simpl; [|by rewrite Hv Hf].
  destruct (bool_decide _); simpl; [|done]. by rewrite Hv Hf.
Qed.

Lemma detach_volume_eq vid b d : detach_volume vid b d =
  match volumes d !! vid with
  | Some v =>
      if decide (attached_to v = Some b)
      then (Ok tt, set_volumes (<[vid := set_attached None v]> (volumes d)) d)
      else (Err Conflict, d)
  | None => (Err NotFound, d)
  end.
Proof.
  rewrite /detach_volume /detach_volume_inner /update_row /mbind /M_bind /=.
  destruct (volumes d !! vid) as [v|] eqn:Hv; simpl; [|by rewrite Hv].
  destruct (decide (attached_to v = Some b)).
  - by rewrite bool_decide_eq_true_2.
  - by rewrite bool_decide_eq_false_2 //= Hv.
Qed.

(** Exclusive attachment.  Once a sandbox has attached a volume, attaching
    it again from there succeeds without effect, every other sandbox's attach
    or detach is refused with a conflict that changes nothing, and only the
    holder's detach frees the volume. *)
Theorem volume_attach_exclusive vid b b' d d' :
  attach_volume vid b d = (Ok tt, d') → b' ≠ b →
  attach_volume vid b d' = (Ok tt, d') ∧
  attach_volume vid b' d' = (Err Conflict, d') ∧
  detach_volume vid b' d' = (Err Conflict, d') ∧
  ∃ v d'', detach_volume vid b d' = (Ok tt, d'') ∧ volumes d'' !! vid = Some v ∧ attached_to v = None.
Proof.
  rewrite attach_volume_eq => Ha Hne. destruct (volumes d !! vid) as [v|] eqn:Hv; [|done].
  destruct (free_for b v); [|done]. destruct (bool_decide _) eqn:Hs; [|done].
  injection Ha as <-. rewrite !attach_volume_eq !detach_volume_eq /= !lookup_insert_eq /= Hs.
  rewrite /free_for /= bool_decide_eq_true_2 // bool_decide_eq_false_2; [congruence|].
  rewrite (decide_False (P := Some b = Some b')); [congruence|]. rewrite (decide_True (P := Some b = Some b)) //.
  rewrite insert_insert_eq. split_and!; [done..|]. eexists _, _. split; [done|]. by rewrite lookup_insert_eq.
Qed.

Lemma integrity_empty : integrity empty_db.
Proof.
  constructor; simpl; intros;
    match goal with
    | H : _ !! _ = Some _ |- _ => by apply lookup_empty_Some in H
    | H : _ ∈ _ |- _ => by apply not_elem_of_nil in H
    | _ => constructor
    end.
Qed.

(** ** A small database *)
Definition alice : User := mkUser "alice" "h" 5 4 4096 20480 5 0 0.
Definition vm (i : string) (t : Z) : Sandbox :=
  mkSandbox i "u" i "krucible" "running" "hot" 1 512 "" t t.
Definition setup : DM unit :=
  upsert_user "u" alice;; create_sandbox (vm "a" 5);; create_sandbox (vm "b" 7);;
  create_volume "v" (mkVolume "u" "data" 10 None 0).
Definition small_db : Db := (setup empty_db).2.

Lemma small_db_integrity : integrity small_db.
Proof.
  assert (preserves integrity setup) as Hp.
  { apply preserves_bind; [apply upsert_user_integrity|intros _].
    do 2 (apply preserves_bind; [apply create_sandbox_integrity|intros _]). apply create_volume_integrity. }
  apply Hp, integrity_empty.
Qed.

Example newest_first :
  (list_sandboxes "u" None 10 small_db).1 = Ok [vm "b" 7; vm "a" 5].
Proof. vm_compute. reflexivity. Qed.

Lemma list_sandboxes_complete_witness :
  let rows := scan (λ s, (created_at s, id s)) 3 (λ cur, page (list_sandboxes "u" cur 1 small_db)) None in
  StronglySorted newer rows ∧ NoDup rows ∧
  ∀ s, s ∈ rows ↔ sandboxes small_db !! id s = Some s ∧ owner_user_id s = "u".
Proof.
  apply list_sandboxes_complete; [apply small_db_integrity| |lia|vm_compute; lia].
  change (map_Forall (λ _ s, created_at s < i64_max) (sandboxes small_db)).
  eapply bool_decide_eq_true_1. vm_compute. reflexivity.
Defined.

Lemma volume_attach_exclusive_witness :
  let d' := (attach_volume "v" "a" small_db).2 in
  attach_volume "v" "a" d' = (Ok tt, d') ∧
  attach_volume "v" "b" d' = (Err Conflict, d') ∧
  detach_volume "v" "b" d' = (Err Conflict, d') ∧
  ∃ v d'', detach_volume "v" "a" d' = (Ok tt, d'') ∧ volumes d'' !! "v"%string = Some v ∧ attached_to v = None.
Proof. apply (volume_attach_exclusive "v" "a" "b" small_db); [vm_compute; reflexivity|done]. Defined.

End Store.
