(* ===== verification/Lifecycle.v ===== *)
(** Durable lifecycle receipts, [ahvm-store/src/operations.rs]: an operation is
    admitted once under its key, fences its sandbox while it is pending, and
    leaves a receipt that no retry, restart or late completion can change. *)
From S2P Require Import Prelude Db.

Module Lifecycle.
Import Store.

Definition MAX_PENDING : nat := 64.

Definition is_pending (r : LifecycleOperation) : bool := bool_decide (op_state r = "pending"%string).

Section Lifecycle.
Context `{Serde}.

(** [row]: the stored error must parse. *)
Definition row (r : LifecycleOperation) : DM LifecycleOperation :=
  match op_error r with
  | Some json => match from_str json with Some _ => mret r | None => fail Sqlite end
  | None => mret r
  end.

Definition check_lifecycle_fence (sandbox : string) (operation : option string) : DM unit :=
  l ← select_where lifecycle_operations (λ _ r, bool_decide (op_sandbox r = sandbox) && is_pending r);
  guard_err (match l with
             | (active, _) :: _ => bool_decide (Some active = operation)
             | [] => true end) Conflict.

Definition lifecycle_operation (oid owner : string) : DM LifecycleOperation :=
  t ← gets lifecycle_operations;
  match t !! oid with
  | Some r => if bool_decide (op_owner r = owner) then row r else fail NotFound
  | None => fail NotFound
  end.

(** The live reservation of a sandbox's disk, if any. *)
Definition retained (r : ReplicatedReservation) : bool :=
  negb (bool_decide (res_state r = "reclaimed"%string)) && negb (logical_released r).

Definition live_volume (owner sandbox : string) (t : gmap string ReplicatedReservation) : option string :=
  fst <$> head (filter (λ kv, bool_decide (res_owner kv.2 = owner ∧ res_sandbox kv.2 = sandbox)
                               && retained kv.2 = true) (map_to_list t)).

Definition pending_count (t : gmap string LifecycleOperation) : nat :=
  size (filter (λ kv, is_pending kv.2 = true) t).

(** [INSERT OR IGNORE ... WHERE count(pending)<64] under the unique index on the
    pending operation of a sandbox: the number of rows inserted. *)
Definition insert_pending (oid owner sandbox req : string) (now : Z) : DM Z :=
  t ← gets lifecycle_operations;
  res ← gets replicated_reservations;
  busy ← exists_where lifecycle_operations (λ _ r, bool_decide (op_sandbox r = sandbox) && is_pending r);
  if negb (pending_count t <? MAX_PENDING)%nat || busy || bool_decide (is_Some (t !! oid)) then mret 0
  else
    modify (set_lifecycle_operations (<[oid :=
      mkOperation owner sandbox req "pending" None None None (live_volume owner sandbox res) now]> t));;
    mret 1.

(** [true] only for the caller that admitted this exact request. *)
Definition admit_lifecycle_operation (oid owner sandbox req : string) (now : Z) : DM bool :=
  t ← gets lifecycle_operations;
  match t !! oid with
  | Some old =>
      old ← row old;
      if bool_decide (op_owner old = owner ∧ request old = req ∧ op_sandbox old = sandbox)
      then mret false else fail Conflict
  | None =>
      inserted ← insert_pending oid owner sandbox req now;
      if inserted =? 0 then fail Conflict else mret true
  end.

Definition finish_lifecycle_operation_with_error (oid : string) (st : Z) (error : option Value)
    (sbs volume : option string) : DM unit :=
  update_row lifecycle_operations set_lifecycle_operations oid is_pending
    (λ r, mkOperation (op_owner r) (op_sandbox r) (request r) "done" (Some st) (to_string <$> error) sbs
            (match storage_volume_id r with Some v => Some v | None => volume end) (op_created_at r));;
  mret tt.

Definition finish_lifecycle_operation (oid : string) (st : Z) : DM unit :=
  finish_lifecycle_operation_with_error oid st None None None.

Definition interrupt_lifecycle_operations : DM unit :=
  update_where lifecycle_operations set_lifecycle_operations (λ _ r, is_pending r)
    (λ r, mkOperation (op_owner r) (op_sandbox r) (request r) "interrupted" (status r) (op_error r)
            (sandbox_state r) (storage_volume_id r) (op_created_at r)).

(** The statement of [reserve_replicated_volume] that binds a fresh volume to
    the pending operation of its sandbox. *)
Definition bind_storage (owner sandbox volume : string) : DM unit :=
  update_where lifecycle_operations set_lifecycle_operations
    (λ _ r, bool_decide (op_owner r = owner ∧ op_sandbox r = sandbox) && is_pending r
            && bool_decide (storage_volume_id r = None))
    (λ r, mkOperation (op_owner r) (op_sandbox r) (request r) (op_state r) (status r) (op_error r)
            (sandbox_state r) (Some volume) (op_created_at r)).

(** ** Histories *)
Inductive Call :=
| Admit (oid owner sandbox req : string) (now : Z)
| Finish (oid : string) (st : Z) (error : option Value) (sbs volume : option string)
| Interrupt                                   (* a daemon restart *)
| Bind (owner sandbox volume : string).

(** One call: the operation it durably admitted, if any. *)
Definition call (c : Call) (d : Db) : option string * Db :=
  match c with
  | Admit oid owner sandbox req now =>
      let '(r, d) := admit_lifecycle_operation oid owner sandbox req now d in
      (match r with Ok true => Some oid | _ => None end, d)
  | Finish oid st e sbs v => (None, (finish_lifecycle_operation_with_error oid st e sbs v d).2)
  | Interrupt => (None, (interrupt_lifecycle_operations d).2)
  | Bind owner sandbox v => (None, (bind_storage owner sandbox v d).2)
  end.

Fixpoint history (cs : list Call) (d : Db) : list string * Db :=
  match cs with
  | [] => ([], d)
  | c :: cs =>
      let '(a, d) := call c d in
      let '(l, d) := history cs d in
      (option_list a ++ l, d)
  end.

(** What a row can become: its identity is fixed, and once it is terminal so is
    everything else. *)
Definition row_le (r r' : LifecycleOperation) : Prop :=
  op_owner r' = op_owner r ∧ op_sandbox r' = op_sandbox r ∧ request r' = request r ∧
  op_created_at r' = op_created_at r ∧
  (∀ v, storage_volume_id r = Some v → storage_volume_id r' = Some v) ∧
  (is_pending r = false → r' = r).

Definition ops_le (d d' : Db) : Prop :=
  ∀ k r, lifecycle_operations d !! k = Some r →
    ∃ r', lifecycle_operations d' !! k = Some r' ∧ row_le r r'.

Record fenced (d : Db) : Prop := {
  one_pending : ∀ k1 k2 r1 r2, lifecycle_operations d !! k1 = Some r1 → lifecycle_operations d !! k2 = Some r2 →
    is_pending r1 = true → is_pending r2 = true → op_sandbox r1 = op_sandbox r2 → k1 = k2;
  few_pending : (pending_count (lifecycle_operations d) ≤ MAX_PENDING)%nat;
}.

(** ** Receipts *)
Lemma row_le_refl r : row_le r r.
Proof. by rewrite /row_le. Qed.

Lemma ops_le_refl d : ops_le d d.
Proof. intros k r Hk. exists r. split; [done|apply row_le_refl]. Qed.

Lemma ops_le_trans d1 d2 d3 : ops_le d1 d2 → ops_le d2 d3 → ops_le d1 d3.
Proof.
  intros H12 H23 k r Hk. destruct (H12 k r Hk) as (r2 & Hk2 & (? & ? & ? & ? & Hv2 & Hp2)).
  destruct (H23 k r2 Hk2) as (r3 & Hk3 & (? & ? & ? & ? & Hv3 & Hp3)). exists r3. split; [done|].
  rewrite /row_le. split_and!; try congruence; [auto|]. intros Hp. rewrite Hp3; [|auto]. by rewrite Hp2.
Qed.

Lemma fenced_mono d d' : fenced d →
  (∀ k r', lifecycle_operations d' !! k = Some r' → is_pending r' = true →
    ∃ r, lifecycle_operations d !! k = Some r ∧ is_pending r = true ∧ op_sandbox r = op_sandbox r') →
  fenced d'.
Proof.
  intros [H1 H2] Hm. split.
  - intros k1 k2 r1 r2 Hk1 Hk2 Hp1 Hp2 Hs.
    destruct (Hm _ _ Hk1 Hp1) as (q1 & ? & ? & ?), (Hm _ _ Hk2 Hp2) as (q2 & ? & ? & ?).
    eapply (H1 k1 k2 q1 q2); congruence.
  - etrans; [|exact H2]. rewrite /pending_count -!(size_dom (D:=gset string)). apply subseteq_size.
    intros k. rewrite !elem_of_dom. intros [r' [Hk Hp]%map_lookup_filter_Some].
    destruct (Hm _ _ Hk Hp) as (r & ? & ? & _). exists r. by apply map_lookup_filter_Some.
Qed.

Lemma not_pending_done o s q st e ss v c : is_pending (mkOperation o s q "done" st e ss v c) = false.
Proof. done. Qed.
Lemma not_pending_interrupted o s q st e ss v c : is_pending (mkOperation o s q "interrupted" st e ss v c) = false.
Proof. done. Qed.

(** An update that respects [row_le] and never makes a row pending. *)
Lemma update_where_ok (cond : string → LifecycleOperation → bool) f d :
  (∀ k r, cond k r = true → row_le r (f r) ∧ (is_pending (f r) = true → is_pending r = true)) → fenced d →
  ops_le d (update_where lifecycle_operations set_lifecycle_operations cond f d).2 ∧
  fenced (update_where lifecycle_operations set_lifecycle_operations cond f d).2.
Proof.
  intros Hf Hfe. simpl. set (g := λ k r, Some (if cond k r then f r else r)).
  assert (∀ k, map_imap g (lifecycle_operations d) !! k =
    (λ r, if cond k r then f r else r) <$> lifecycle_operations d !! k) as Hl.
  { intros k. rewrite map_lookup_imap. by destruct (lifecycle_operations d !! k). }
  split.
  - intros k r Hk. simpl. rewrite Hl Hk /=. eexists. split; [done|].
    destruct (cond k r) eqn:Hc; [by apply (Hf k)|apply row_le_refl].
  - apply (fenced_mono d); [done|]. simpl. intros k r'. rewrite Hl.
    intros (r & Hk & ->)%fmap_Some Hp. exists r. split; [done|].
    destruct (cond k r) eqn:Hc; [|done]. destruct (Hf k r Hc) as [(? & ? & _) ?]. auto.
Qed.

Lemma finish_ok oid st e sbs v d : fenced d →
  ops_le d (finish_lifecycle_operation_with_error oid st e sbs v d).2 ∧
  fenced (finish_lifecycle_operation_with_error oid st e sbs v d).2.
Proof.
  intros Hfe. rewrite /finish_lifecycle_operation_with_error /update_row /mbind /M_bind /=.
  destruct (lifecycle_operations d !! oid) as [r|] eqn:Hk; [|by split; [apply ops_le_refl|]].
  destruct (is_pending r) eqn:Hp; [|by split; [apply ops_le_refl|]]. simpl. split.
  - intros k r' Hr'. simpl. destruct (decide (k = oid)) as [->|Hne].
    + rewrite lookup_insert_eq. simplify_eq. eexists. split; [done|]. rewrite /row_le /=. split_and!; try done.
      * by intros w ->.
      * congruence.
    + rewrite lookup_insert_ne; [congruence|]. exists r'. split; [done|apply row_le_refl].
  - apply (fenced_mono d); [done|]. simpl. intros k r' [[-> <-]|[? Hl]]%lookup_insert_Some; [done|eauto].
Qed.

Lemma insert_pending_ok oid owner sandbox req now d : fenced d → lifecycle_operations d !! oid = None →
  let '(r, d') := insert_pending oid owner sandbox req now d in
  ops_le d d' ∧ fenced d' ∧
  (r = Ok 0 ∧ d' = d ∨ r = Ok 1 ∧ is_Some (lifecycle_operations d' !! oid)).
Proof.
  intros Hfe Hnone.
  assert (wp (insert_pending oid owner sandbox req now) d (λ r d',
    ops_le d d' ∧ fenced d' ∧ (r = Ok 0 ∧ d' = d ∨ r = Ok 1 ∧ is_Some (lifecycle_operations d' !! oid)))) as Hw;
    [|by rewrite /wp in Hw; destruct (insert_pending _ _ _ _ _ _)].
  rewrite /insert_pending. sql_steps.
  - split_and!; [apply ops_le_refl|done|]. by left.
  - rewrite !orb_false_iff negb_false_iff Nat.ltb_lt in Heqb0. destruct Heqb0 as [[Hc Hb] _].
    assert (∀ k r, lifecycle_operations d !! k = Some r → is_pending r = true → op_sandbox r ≠ sandbox) as Hfree.
    { intros k r Hk Hp Hs. assert (b = true); [|congruence]. apply H0. exists k, r. split; [done|].
      rewrite Hp andb_true_r. by apply bool_decide_eq_true. }
    split_and!.
    + intros k r Hk. exists r. simpl. rewrite lookup_insert_ne; [congruence|]. split; [done|apply row_le_refl].
    + destruct Hfe as [H1 H2]. split; simpl.
      * intros k1 k2 r1 r2 [[<- <-]|[? Hk1]]%lookup_insert_Some [[<- <-]|[? Hk2]]%lookup_insert_Some Hp1 Hp2 Hs; simpl in Hs.
        -- done.
        -- by eapply Hfree in Hp2; [|exact Hk2].
        -- by eapply Hfree in Hp1; [|exact Hk1].
        -- by eapply H1.
      * rewrite /pending_count map_filter_insert_True //. rewrite map_size_insert.
        rewrite map_lookup_filter Hnone /=. rewrite /pending_count /MAX_PENDING in Hc |- *. lia.
    + right. split; [done|]. rewrite /= lookup_insert_eq. eauto.
Qed.

Lemma admit_existing oid owner sandbox req now d old : lifecycle_operations d !! oid = Some old →
  ∃ r, admit_lifecycle_operation oid owner sandbox req now d = (r, d) ∧ r ≠ Ok true ∧
    (op_error old = None → r = if bool_decide (op_owner old = owner ∧ request old = req ∧ op_sandbox old = sandbox)
      then Ok false else Err Conflict).
Proof.
  intros Hk. rewrite /admit_lifecycle_operation /row /mbind /M_bind /= Hk.
  destruct (op_error old) as [json|]; [destruct (from_str json)|]; simpl; try case_bool_decide; by eexists.
Qed.

Lemma call_ok c d : fenced d → let '(a, d') := call c d in
  ops_le d d' ∧ fenced d' ∧
  (∀ oid, a = Some oid → lifecycle_operations d !! oid = None ∧ is_Some (lifecycle_operations d' !! oid)).
Proof.
  intros Hfe. destruct c as [oid owner sandbox req now|oid st e sbs v| |owner sandbox v]; simpl.
  - destruct (lifecycle_operations d !! oid) as [old|] eqn:Hk.
    + destruct (admit_existing oid owner sandbox req now d old Hk) as (r & -> & Hr & _).
      split_and!; [apply ops_le_refl|done|]. by intros oid'; repeat case_match; simplify_eq.
    + rewrite /admit_lifecycle_operation /mbind /M_bind /= Hk.
      pose proof (insert_pending_ok oid owner sandbox req now d Hfe Hk) as Hi.
      destruct (insert_pending oid owner sandbox req now d) as [r d'].
      destruct Hi as (Hle & Hfe' & [[-> ->]|[-> Hs]]); simpl; split_and!; try done.
      intros oid' [= <-]. done.
  - destruct (finish_ok oid st e sbs v d Hfe). split_and!; done.
  - destruct (update_where_ok (λ _ r, is_pending r) (λ r, mkOperation (op_owner r) (op_sandbox r) (request r)
      "interrupted" (status r) (op_error r) (sandbox_state r) (storage_volume_id r) (op_created_at r)) d) as [? ?];
      [|done|by split_and!].
    intros k r Hp. split; [|done]. rewrite /row_le /=. split_and!; try done. congruence.
  - destruct (update_where_ok (λ _ r, bool_decide (op_owner r = owner ∧ op_sandbox r = sandbox) && is_pending r
      && bool_decide (storage_volume_id r = None)) (λ r, mkOperation (op_owner r) (op_sandbox r) (request r)
      (op_state r) (status r) (op_error r) (sandbox_state r) (Some v) (op_created_at r)) d) as [? ?];
      [|done|by split_and!].
    intros k r [[_ Hp]%andb_prop Hv%bool_decide_eq_true]%andb_prop. split; [|done].
    rewrite /row_le /=. split_and!; try done; [congruence|]. congruence.
Qed.

Lemma history_ok cs d : fenced d → let '(l, d') := history cs d in
  ops_le d d' ∧ fenced d' ∧ NoDup l ∧
  ∀ oid, oid ∈ l → lifecycle_operations d !! oid = None ∧ is_Some (lifecycle_operations d' !! oid).
Proof.
  revert d. induction cs as [|c cs IH]; intros d Hfe; simpl.
  { split_and!; [apply ops_le_refl|done|constructor|by intros ? ?%not_elem_of_nil]. }
  pose proof (call_ok c d Hfe) as Hc. destruct (call c d) as [a d1]. destruct Hc as (Hle1 & Hfe1 & Ha).
  specialize (IH d1 Hfe1). destruct (history cs d1) as [l d2]. destruct IH as (Hle2 & Hfe2 & Hnd & Hl).
  assert (∀ oid, lifecycle_operations d1 !! oid = None → lifecycle_operations d !! oid = None) as Hback.
  { intros oid Hn. destruct (lifecycle_operations d !! oid) eqn:E; [|done].
    destruct (Hle1 _ _ E) as (? & ? & _). congruence. }
  split_and!; [by eapply ops_le_trans|done|..].
  - destruct a as [oid|]; simpl; [|done]. constructor; [|done]. intros [Hn _]%Hl.
    destruct (Ha oid eq_refl) as [_ [? ?]]. congruence.
  - intros oid [Hin|Hin]%elem_of_app; [|destruct (Hl oid Hin); auto].
    destruct a as [oid'|]; simpl in Hin; [|by apply not_elem_of_nil in Hin].
    apply list_elem_of_singleton in Hin as ->. destruct (Ha oid' eq_refl) as [? [r Hr]].
    split; [done|]. destruct (Hle2 _ _ Hr) as (r' & ? & _). eauto.
Qed.

(** C21: idempotent admission.  Over any history of admissions, completions,
    storage bindings and restarts, at most one admission per key succeeds; and
    afterwards a retry with the same owner, sandbox and request is recognised
    as a duplicate, while any other use of the key is refused. *)
Theorem lifecycle_admitted_once cs d l d' : fenced d → history cs d = (l, d') →
  NoDup l ∧
  ∀ oid, oid ∈ l → ∃ r, lifecycle_operations d' !! oid = Some r ∧
    ∀ owner sandbox req now, (admit_lifecycle_operation oid owner sandbox req now d').1 ≠ Ok true ∧
      (op_error r = None → admit_lifecycle_operation oid owner sandbox req now d' =
        (if bool_decide (op_owner r = owner ∧ request r = req ∧ op_sandbox r = sandbox)
         then Ok false else Err Conflict, d')).
Proof.
  intros Hfe Hh. pose proof (history_ok cs d Hfe) as Ho. rewrite Hh in Ho.
  destruct Ho as (_ & _ & Hnd & Hl). split; [done|]. intros oid Hin.
  destruct (Hl oid Hin) as [_ [r Hr]]. exists r. split; [done|].
  intros owner sandbox req now.
  destruct (admit_existing oid owner sandbox req now d' r Hr) as (q & -> & Hne & Hq). split; [done|].
  intros He. by rewrite Hq.
Qed.

(** C22: receipts are durable.  No later call deletes an operation or changes
    its key, owner, sandbox or request; a bound volume stays bound; and once it
    is done or interrupted nothing of it changes. *)
Theorem lifecycle_receipts_final cs d l d' k r : fenced d → history cs d = (l, d') →
  lifecycle_operations d !! k = Some r →
  ∃ r', lifecycle_operations d' !! k = Some r' ∧ row_le r r'.
Proof.
  intros Hfe Hh Hk. pose proof (history_ok cs d Hfe) as Ho. rewrite Hh in Ho.
  destruct Ho as (Hle & _). by apply Hle.
Qed.

(** C23: the lifecycle fence.  Along any history at most 64 operations are
    pending and at most one per sandbox; while one is, the fence of its sandbox
    admits only that operation. *)
Theorem lifecycle_fence_exclusive cs d l d' k r : fenced d → history cs d = (l, d') →
  lifecycle_operations d' !! k = Some r → is_pending r = true →
  (pending_count (lifecycle_operations d') ≤ 64)%nat ∧
  check_lifecycle_fence (op_sandbox r) (Some k) d' = (Ok tt, d') ∧
  ∀ other, other ≠ Some k → check_lifecycle_fence (op_sandbox r) other d' = (Err Conflict, d').
Proof.
  intros Hfe Hh Hk Hp. pose proof (history_ok cs d Hfe) as Ho. rewrite Hh in Ho.
  destruct Ho as (_ & [Hone Hfew] & _). split; [done|].
  rewrite /check_lifecycle_fence /select_where /mbind /M_bind /=.
  set (l' := filter _ _).
  assert (∀ k' r', (k', r') ∈ l' ↔ lifecycle_operations d' !! k' = Some r' ∧
    op_sandbox r' = op_sandbox r ∧ is_pending r' = true) as Hl'.
  { intros k' r'. rewrite /l' list_elem_of_filter elem_of_map_to_list andb_true_iff bool_decide_eq_true /=. tauto. }
  destruct l' as [|[k0 r0] rest] eqn:El.
  { exfalso. assert ((k, r) ∈ []) as Hin by (by apply Hl'). by apply not_elem_of_nil in Hin. }
  destruct (proj1 (Hl' k0 r0)) as (Hk0 & Hs0 & Hp0); [left|].
  assert (k0 = k) as -> by (by eapply (Hone k0 k r0 r)). split.
  - by rewrite bool_decide_eq_true_2.
  - intros other Hne. by rewrite bool_decide_eq_false_2.
Qed.

End Lifecycle.

(** ** Instances at concrete inputs *)
Lemma fenced_empty : fenced empty_db.
Proof.
  split; simpl; [by intros ???? ?%lookup_empty_Some|]. rewrite /pending_count map_filter_empty map_size_empty.
  rewrite /MAX_PENDING. lia.
Qed.

#[local] Instance text_json : Serde :=
  {| Value := string; Null := "null"; to_string v := v; from_str s := Some s |}.

Definition calls : list Call :=
  [Admit "k" "u" "vm" "create" 1; Admit "k" "u" "vm" "create" 2; Admit "j" "u" "vm" "delete" 3;
   Bind "u" "vm" "vol"; Finish "k" 201 None None None; Finish "k" 500 (Some "late"%string : option Value) None None;
   Admit "j" "u" "vm" "delete" 4].
Definition final : list string * Db := history calls empty_db.

Lemma lifecycle_admitted_once_witness :
  final.1 = ["k"; "j"]%string ∧ NoDup final.1 ∧
  ∀ oid, oid ∈ final.1 → ∃ r, lifecycle_operations final.2 !! oid = Some r ∧
    ∀ owner sandbox req now, (admit_lifecycle_operation oid owner sandbox req now final.2).1 ≠ Ok true ∧
      (op_error r = None → admit_lifecycle_operation oid owner sandbox req now final.2 =
        (if bool_decide (op_owner r = owner ∧ request r = req ∧ op_sandbox r = sandbox)
         then Ok false else Err Conflict, final.2)).
Proof.
  split; [vm_compute; reflexivity|].
  apply (lifecycle_admitted_once calls empty_db); [apply fenced_empty|]. by destruct (history calls empty_db) eqn:E; rewrite /final E.
Defined.

Lemma lifecycle_receipts_final_witness :
  ∃ r', lifecycle_operations final.2 !! "k"%string = Some r' ∧
    row_le (mkOperation "u" "vm" "create" "pending" None None None None 1) r'.
Proof.
  apply (lifecycle_receipts_final (tail calls) (call (Admit "k" "u" "vm" "create" 1) empty_db).2 ["j"]%string).
  - pose proof (call_ok (Admit "k" "u" "vm" "create" 1) empty_db fenced_empty) as Hc.
    by destruct (call (Admit "k" "u" "vm" "create" 1) empty_db) as [a d]; destruct Hc as (_ & ? & _).
  - vm_compute. reflexivity.
  - vm_compute. reflexivity.
Defined.

Lemma lifecycle_fence_exclusive_witness :
  (pending_count (lifecycle_operations final.2) ≤ 64)%nat ∧
  check_lifecycle_fence "vm" (Some "j"%string) final.2 = (Ok tt, final.2) ∧
  ∀ other, other ≠ Some "j"%string → check_lifecycle_fence "vm" other final.2 = (Err Conflict, final.2).
Proof.
  apply (lifecycle_fence_exclusive calls empty_db final.1 final.2 "j"
    (mkOperation "u" "vm" "delete" "pending" None None None None 4)).
  - apply fenced_empty.
  - by destruct (history calls empty_db) eqn:E; rewrite /final E.
  - vm_compute. reflexivity.
  - reflexivity.
Defined.

End Lifecycle.
