(* ===== verification/Quotas.v ===== *)
(** Admission of sandboxes and snapshots against a user's quota: the holds of
    [ahvm-daemon/src/quotas.rs] over the rows of the metadata store.  The registry
    and the store are one state: a reservation is one step under the registry's
    mutex, whose only query is one SQL statement; a guard is its id.  The sums are
    [i64] sums of at most 100,000 rows of [u32] sizes, which do not overflow. *)
From S2P Require Import Prelude Codec Sums Db.

Module Quotas.
Module DB := Store.

Inductive ApiError := Forbidden | Conflict | NotFound | Internal.
(** [impl From<ahvm_store::Error> for ApiError] *)
Definition of_store (e : DB.Error) : ApiError :=
  match e with DB.NotFound => NotFound | DB.Conflict => Conflict | _ => Internal end.

Record SandboxHold := mkHold { hold_owner : string; hold_cpus : Z; hold_mem : Z }.
Record Registry := mkRegistry { holds : gmap string SandboxHold; snapshots : gset (string * string) }.
Definition new : Registry := mkRegistry ∅ ∅.
Definition State : Type := Registry * DB.Db.

Definition on_store {A} (m : M DB.Error DB.Db A) : M ApiError State A := λ y,
  let '(r, d) := m y.2 in (match r with Ok a => Ok a | Err e => Err (of_store e) end, (y.1, d)).
Definition insert_hold (i : string) (h : SandboxHold) : M ApiError State unit :=
  modify (λ y, (mkRegistry (<[i := h]> (holds y.1)) (snapshots y.1), y.2)).

Definition held_by (m : gmap string SandboxHold) (uid i : string) : bool :=
  match m !! i with Some h => bool_decide (hold_owner h = uid) | None => false end.
(** [matches!(state, "running" | "creating" | "paused")] *)
Definition busy (st : string) : bool := bool_decide (st = "running" ∨ st = "creating" ∨ st = "paused").

(** The loops over the rows and over the holds; an accumulator is the count, the
    CPUs and the memory. *)
Definition add_row (m : gmap string SandboxHold) (uid i : string) (acc : Z * Z * Z) (row : DB.Sandbox) : Z * Z * Z :=
  let '(count, cpu_sum, mem_sum) := acc in
  if bool_decide (DB.id row = i) || held_by m uid (DB.id row) then acc
  else
    let count := if bool_decide (DB.state row = "failed") then count else count + 1 in
    if busy (DB.state row) then (count, cpu_sum + DB.cpus row, mem_sum + DB.memory_mb row) else (count, cpu_sum, mem_sum).
Definition add_hold (uid : string) (acc : Z * Z * Z) (h : SandboxHold) : Z * Z * Z :=
  let '(count, cpu_sum, mem_sum) := acc in
  if bool_decide (hold_owner h = uid) then (count + 1, cpu_sum + hold_cpus h, mem_sum + hold_mem h) else acc.

Definition reserve_locked (uid : string) (user : DB.User) (i : string) (c m : Z) : M ApiError State unit :=
  inner ← gets (λ y, holds y.1);
  guard_err (bool_decide (inner !! i = None)) Conflict;;
  rows ← on_store (DB.list_sandboxes uid None (Z.to_nat 100000));
  let acc := fold_left (add_row inner uid i) rows (0, 0, 0) in
  let '(count, cpu_sum, mem_sum) := fold_left (add_hold uid) (map_to_list inner).*2 acc in
  guard_err (count + 1 <=? DB.max_sandboxes user) Forbidden;;
  guard_err (cpu_sum + c <=? DB.max_cpus user) Forbidden;;
  guard_err (mem_sum + m <=? DB.max_memory_mb user) Forbidden;;
  insert_hold i (mkHold uid c m).

Definition reserve_sandbox (uid : string) (user : DB.User) (i : string) (c m : Z) : M ApiError State unit :=
  reserve_locked uid user i c m.

Definition reserve_start (uid : string) (user : DB.User) (i : string) : M ApiError State unit :=
  row ← on_store (DB.get_sandbox i);
  guard_err (bool_decide (DB.owner_user_id row = uid)) NotFound;;
  reserve_locked uid user i (DB.cpus row) (DB.memory_mb row).

Definition reserve_snapshot (uid : string) (user : DB.User) (name : string) : M ApiError State unit :=
  inner ← gets (λ y, snapshots y.1);
  guard_err (bool_decide ((uid, name) ∉ inner)) Conflict;;
  committed ← on_store (DB.count_snapshots uid);
  let held := Z.of_nat (length (filter (λ x, x.1 = uid) (elements inner))) in
  guard_err (committed + held + 1 <=? DB.max_snapshots user) Forbidden;;
  modify (λ y, (mkRegistry (holds y.1) ({[(uid, name)]} ∪ snapshots y.1), y.2)).

(** [SandboxGuard::drop], [SnapshotGuard::drop] *)
Definition drop_sandbox (i : string) (y : State) : State := (mkRegistry (delete i (holds y.1)) (snapshots y.1), y.2).
Definition drop_snapshot (uid name : string) (y : State) : State :=
  (mkRegistry (holds y.1) (snapshots y.1 ∖ {[(uid, name)]}), y.2).

(** ** What a user consumes *)
Inductive Resource := Count | Cpus | Memory.
Definition charge (k : Resource) (r : DB.Sandbox) : Z :=
  match k with
  | Count => if bool_decide (DB.state r = "failed") then 0 else 1
  | Cpus => if busy (DB.state r) then DB.cpus r else 0
  | Memory => if busy (DB.state r) then DB.memory_mb r else 0
  end.
Definition hold_charge (k : Resource) (h : SandboxHold) : Z :=
  match k with Count => 1 | Cpus => hold_cpus h | Memory => hold_mem h end.
Definition limit (k : Resource) (u : DB.User) : Z :=
  match k with Count => DB.max_sandboxes u | Cpus => DB.max_cpus u | Memory => DB.max_memory_mb u end.
Definition sel (k : Resource) (acc : Z * Z * Z) : Z :=
  match k with Count => acc.1.1 | Cpus => acc.1.2 | Memory => acc.2 end.

(** The rows that no hold of the owner replaces, and the holds. *)
Definition row_part (k : Resource) (uid : string) (m : gmap string SandboxHold) (j : string) (r : DB.Sandbox) : Z :=
  if decide (DB.owner_user_id r = uid) then if held_by m uid j then 0 else charge k r else 0.
Definition hold_part (k : Resource) (uid : string) (j : string) (h : SandboxHold) : Z :=
  if decide (hold_owner h = uid) then hold_charge k h else 0.
Definition footprint (k : Resource) (uid : string) (y : State) : Z :=
  total (row_part k uid (holds y.1)) (DB.sandboxes y.2) + total (hold_part k uid) (holds y.1).
(** The part of a row that is beyond the hold which replaces it, and the sum of these
    parts: the admissions count the hold alone. *)
Definition excess (k : Resource) (uid : string) (m : gmap string SandboxHold) (j : string) (r : DB.Sandbox) : Z :=
  match m !! j with
  | Some h => if decide (DB.owner_user_id r = uid ∧ hold_owner h = uid) then Z.max 0 (charge k r - hold_charge k h) else 0
  | None => 0
  end.
Definition undercut (k : Resource) (uid : string) (y : State) : Z := total (excess k uid (holds y.1)) (DB.sandboxes y.2).
(** What the user may consume without another admission. *)
Definition claimed (k : Resource) (uid : string) (y : State) : Z := footprint k uid y + undercut k uid y.

(** The query of a reservation sees all rows of the user. *)
Definition listed (uid : string) (d : DB.Db) : Prop :=
  Zlen (DB.owned uid d) ≤ 100000 ∧ ∀ k s, DB.sandboxes d !! k = Some s → DB.created_at s < DB.i64_max.

(** *** The sums *)
Fixpoint sum_of {A} (f : A → Z) (l : list A) : Z := match l with [] => 0 | x :: l => f x + sum_of f l end.

Lemma sum_of_perm {A} (f : A → Z) l l' : l ≡ₚ l' → sum_of f l = sum_of f l'.
Proof. induction 1; simpl; lia. Qed.

Lemma total_sum `{Countable K} {V} (f : K → V → Z) (m : gmap K V) : total f m = sum_of (λ x, f x.1 x.2) (map_to_list m).
Proof. rewrite /total map_fold_foldr. induction (map_to_list m) as [|[k v] l IH]; simpl; [done|]. by rewrite IH. Qed.

Lemma sum_of_fmap {A B} (f : B → Z) (g : A → B) l : sum_of f (g <$> l) = sum_of (λ x, f (g x)) l.
Proof. induction l as [|x l IH]; [done|]. cbn [fmap list_fmap sum_of]. by rewrite IH. Qed.

Lemma sum_of_filter {A} (f : A → Z) (P : A → Prop) `{!∀ x, Decision (P x)} l :
  sum_of f (filter P l) = sum_of (λ x, if decide (P x) then f x else 0) l.
Proof. induction l as [|x l IH]; [done|]. rewrite filter_cons. simpl. case_decide; simpl; lia. Qed.

Lemma sum_of_ext {A} (f g : A → Z) l : (∀ x, x ∈ l → f x = g x) → sum_of f l = sum_of g l.
Proof. induction l as [|x l IH]; intros H; [done|]. simpl. rewrite (H x); [left|]. rewrite IH //. intros. apply H. by right. Qed.

Lemma total_const0 `{Countable K} {V} (m : gmap K V) : total (λ _ _, 0) m = 0.
Proof. rewrite total_sum. by induction (map_to_list m). Qed.

Lemma add_row_sel k m uid i rows acc : sel k (fold_left (add_row m uid i) rows acc) =
  sel k acc + sum_of (λ r, if bool_decide (DB.id r = i) || held_by m uid (DB.id r) then 0 else charge k r) rows.
Proof.
  revert acc. induction rows as [|r rows IH]; intros [[a b] c]; simpl; [lia|]. rewrite IH /add_row /charge.
  destruct (_ || _); [lia|]. case_bool_decide; destruct (busy _), k; simpl; lia.
Qed.

Lemma add_hold_sel k uid l acc : sel k (fold_left (add_hold uid) l acc) =
  sel k acc + sum_of (λ h, if decide (hold_owner h = uid) then hold_charge k h else 0) l.
Proof.
  revert acc. induction l as [|h l IH]; intros [[a b] c]; simpl; [lia|]. rewrite IH /add_hold.
  destruct (decide (hold_owner h = uid)); [rewrite bool_decide_true //|rewrite bool_decide_false //]; destruct k; simpl; lia.
Qed.

(** *** Reservations *)
Lemma listed_rows uid d : listed uid d → ∃ rows, DB.list_sandboxes uid None (Z.to_nat 100000) d = (Ok rows, d) ∧ rows ≡ₚ DB.owned uid d.
Proof.
  intros [Hn Hmax]. eexists. split; [done|]. rewrite take_ge.
  - rewrite (Permutation_length (merge_sort_Permutation _ _)). assert (∀ l, length (filter (λ s, DB.owner_user_id s = uid ∧
      DB.before (default (DB.i64_max, ""%string) None) s = true) l) ≤ length (filter (λ s, DB.owner_user_id s = uid) l))%nat as H.
    { induction l as [|s l IH]; [done|]. rewrite !filter_cons. repeat case_decide; cbn [length]; solve [lia | exfalso; tauto]. }
    etrans; [apply H|]. rewrite /DB.owned /Zlen in Hn. lia.
  - rewrite merge_sort_Permutation /DB.owned. apply Permutation_refl'.
    assert (∀ l : list DB.Sandbox, (∀ s, s ∈ l → DB.created_at s < DB.i64_max) → filter (λ s, DB.owner_user_id s = uid ∧
      DB.before (default (DB.i64_max, ""%string) None) s = true) l = filter (λ s, DB.owner_user_id s = uid) l) as H.
    { induction l as [|s l IH]; intros Hl; [done|]. rewrite !filter_cons IH; [intros; apply Hl; by right|].
      assert (DB.before (default (DB.i64_max, ""%string) None) s = true) as Hb.
      { rewrite /DB.before /=. specialize (Hl s ltac:(left)). lia. }
      repeat case_decide; try done; tauto. }
    apply H. intros s ([k s'] & -> & Hk%elem_of_map_to_list)%list_elem_of_fmap. by eapply Hmax.
Qed.

Definition reserved (uid i : string) (c m : Z) (y : State) : State :=
  (mkRegistry (<[i := mkHold uid c m]> (holds y.1)) (snapshots y.1), y.2).
Definition want (c m : Z) (k : Resource) : Z := match k with Count => 1 | Cpus => c | Memory => m end.

(** What the user consumes without the sandbox [i]. *)
Definition others (k : Resource) (uid i : string) (y : State) : Z :=
  total (λ j r, if decide (j = i) then 0 else row_part k uid (holds y.1) j r) (DB.sandboxes y.2) + total (hold_part k uid) (holds y.1).

Lemma owned_sum uid d (f : DB.Sandbox → Z) : DB.integrity d →
  sum_of f (DB.owned uid d) = total (λ j r, if decide (DB.owner_user_id r = uid) then f r else 0) (DB.sandboxes d).
Proof. intros Hd. by rewrite total_sum /DB.owned sum_of_filter sum_of_fmap. Qed.

Lemma reserve_locked_spec uid u i c m reg d : DB.integrity d → listed uid d →
  let y := (reg, d) in
  match reserve_locked uid u i c m y with
  | (Ok _, y') => holds reg !! i = None ∧ (∀ k, others k uid i y + want c m k ≤ limit k u) ∧ y' = reserved uid i c m y
  | (Err Conflict, y') => is_Some (holds reg !! i) ∧ y' = y
  | (Err Forbidden, y') => holds reg !! i = None ∧ (∃ k, limit k u < others k uid i y + want c m k) ∧ y' = y
  | (Err _, _) => False
  end.
Proof.
  intros Hd Hl. cbv zeta. destruct (listed_rows uid d Hl) as (rows & Hrows & Hp).
  rewrite /reserve_locked /mbind /M_bind /gets /on_store. cbn [fst snd]. case_bool_decide as Hi.
  2: { split; [|done]. by apply not_eq_None_Some. }
  cbn [guard_err mret M_ret fst snd]. rewrite Hrows. cbn [fst snd]. set (acc := fold_left (add_hold uid) _ _).
  assert (∀ k, sel k acc = others k uid i (reg, d)) as Hacc.
  { intros k. rewrite /acc add_hold_sel add_row_sel /others. cbn [fst snd]. f_equal.
    - rewrite (sum_of_perm _ _ _ Hp) owned_sum //. assert (sel k (0, 0, 0) = 0) as -> by (by destruct k). rewrite Z.add_0_l.
      apply total_ext. intros j r Hr. rewrite -(DB.int_sandbox_key _ Hd _ _ Hr) /row_part.
      destruct (decide (DB.id r = i)) as [->|Hne]; [rewrite bool_decide_true //=; by case_decide|rewrite bool_decide_false //=].
    - by rewrite sum_of_fmap total_sum. }
  destruct acc as [[count cpu] mem]. pose proof (Hacc Count) as H1. pose proof (Hacc Cpus) as H2. pose proof (Hacc Memory) as H3. simpl in H1, H2, H3.
  case: Z.leb_spec => L1; simpl; [|split_and!; [done| |done]; exists Count; simpl; lia].
  case: Z.leb_spec => L2; simpl; [|split_and!; [done| |done]; exists Cpus; simpl; lia].
  case: Z.leb_spec => L3; simpl; [|split_and!; [done| |done]; exists Memory; simpl; lia].
  split; [done|]. split; [|done]. intros []; simpl; lia.
Qed.

Lemma reserve_start_locked uid u i reg d : reserve_start uid u i (reg, d) =
  match DB.sandboxes d !! i with
  | Some row => if decide (DB.owner_user_id row = uid) then reserve_locked uid u i (DB.cpus row) (DB.memory_mb row) (reg, d) else (Err NotFound, (reg, d))
  | None => (Err NotFound, (reg, d))
  end.
Proof.
  rewrite /reserve_start /DB.get_sandbox /DB.select_row /ok_or /on_store /mbind /M_bind /gets. cbn [fst snd].
  destruct (DB.sandboxes d !! i) as [row|]; [|done]. cbn [fst snd mret M_ret]. case_decide; [by rewrite bool_decide_true|by rewrite bool_decide_false].
Qed.

(** ** The system of reservations and operations *)
Definition covered (m : gmap string SandboxHold) (d : DB.Db) (j : string) (r : DB.Sandbox) : Prop :=
  (∃ h, m !! j = Some h ∧ hold_owner h = DB.owner_user_id r ∧ ∀ k, charge k r ≤ hold_charge k h) ∨
  (∃ r0, DB.sandboxes d !! j = Some r0 ∧ DB.owner_user_id r0 = DB.owner_user_id r ∧ ∀ k, charge k r ≤ charge k r0).

(** What each user's last admission has left uncounted. *)
Definition Uncounted : Type := string → Resource → Z.
Definition admission (uid : string) (y : State) (a : Uncounted) : Uncounted := λ v k, if decide (v = uid) then undercut k uid y else a v k.
Definition after_reserve (uid : string) (r : Result ApiError unit) (y' : State) (a : Uncounted) : Uncounted :=
  match r with Ok _ => admission uid y' a | Err _ => a end.

(** Reservations, the release of a hold, and any change of the rows that takes more
    only under a hold. *)
Inductive step : State * Uncounted → State * Uncounted → Prop :=
| st_sandbox uid u i c m y a r y' : DB.users y.2 !! uid = Some u → listed uid y.2 → 0 ≤ c → 0 ≤ m →
    reserve_sandbox uid u i c m y = (r, y') → step (y, a) (y', after_reserve uid r y' a)
| st_start uid u i y a r y' : DB.users y.2 !! uid = Some u → listed uid y.2 →
    reserve_start uid u i y = (r, y') → step (y, a) (y', after_reserve uid r y' a)
| st_drop i y a : step (y, a) (drop_sandbox i y, a)
| st_rows y a d : DB.integrity d → DB.users d = DB.users y.2 →
    (∀ j r, DB.sandboxes d !! j = Some r → 0 ≤ DB.cpus r ∧ 0 ≤ DB.memory_mb r ∧ covered (holds y.1) y.2 j r) → step (y, a) ((y.1, d), a).

Record quota_inv (x : State * Uncounted) : Prop := {
  qi_db : DB.integrity x.1.2;
  qi_rows j r : DB.sandboxes x.1.2 !! j = Some r → 0 ≤ DB.cpus r ∧ 0 ≤ DB.memory_mb r;
  qi_holds j h k : holds x.1.1 !! j = Some h → 0 ≤ hold_charge k h;
  qi_claimed uid u k : DB.users x.1.2 !! uid = Some u → claimed k uid x.1 ≤ limit k u + x.2 uid k;
  qi_count uid : x.2 uid Count = 0;
}.

Lemma charge_nonneg k r : 0 ≤ DB.cpus r → 0 ≤ DB.memory_mb r → 0 ≤ charge k r.
Proof. intros. destruct k; simpl; [by case_bool_decide|by destruct (busy _)..]. Qed.

Lemma row_part_le k uid m j r : 0 ≤ charge k r → 0 ≤ row_part k uid m j r ≤ charge k r.
Proof. intros. rewrite /row_part. case_decide; [|lia]. destruct (held_by m uid j); lia. Qed.

Lemma held_insert m i h uid j : held_by (<[i := h]> m) uid j = if decide (i = j) then bool_decide (hold_owner h = uid) else held_by m uid j.
Proof. rewrite /held_by. case_decide; [subst; by rewrite lookup_insert_eq|by rewrite lookup_insert_ne]. Qed.
Lemma held_delete m i uid j : held_by (delete i m) uid j = if decide (i = j) then false else held_by m uid j.
Proof. rewrite /held_by. case_decide; [subst; by rewrite lookup_delete_eq|by rewrite lookup_delete_ne]. Qed.

(** A reservation adds what was asked for to its user and nothing to the others. *)
Lemma footprint_reserved k uid uid' i c m y : holds y.1 !! i = None →
  footprint k uid' (reserved uid i c m y) = if decide (uid' = uid) then others k uid i y + want c m k else footprint k uid' y.
Proof.
  intros Hi. rewrite /footprint /reserved /others. cbn [fst snd holds]. rewrite total_insert_new //.
  assert (hold_part k uid' i (mkHold uid c m) = if decide (uid' = uid) then want c m k else 0) as ->.
  { rewrite /hold_part /=. repeat case_decide; try congruence. by destruct k. }
  case_decide as Hu; [subst uid'|].
  - assert (total (row_part k uid (<[i:=mkHold uid c m]> (holds y.1))) (DB.sandboxes y.2) =
      total (λ j r, if decide (j = i) then 0 else row_part k uid (holds y.1) j r) (DB.sandboxes y.2)) as ->; [|lia].
    apply total_ext. intros j r Hr. rewrite /row_part held_insert. destruct (decide (i = j)), (decide (j = i)); try congruence.
    rewrite bool_decide_true //. by case_decide.
  - rewrite Z.add_0_l. f_equal. apply total_ext. intros j r Hr. rewrite /row_part held_insert.
    destruct (decide (i = j)) as [<-|]; [|done]. by rewrite /held_by Hi bool_decide_false //=.
Qed.

(** What a row adds to the claim. *)
Definition part (k : Resource) (uid : string) (m : gmap string SandboxHold) (j : string) (r : DB.Sandbox) : Z :=
  if decide (DB.owner_user_id r = uid) then
    match m !! j with
    | Some h => if decide (hold_owner h = uid) then Z.max 0 (charge k r - hold_charge k h) else charge k r
    | None => charge k r
    end
  else 0.
Lemma claimed_parts k uid y : claimed k uid y = total (part k uid (holds y.1)) (DB.sandboxes y.2) + total (hold_part k uid) (holds y.1).
Proof.
  rewrite /claimed /footprint /undercut. enough (total (part k uid (holds y.1)) (DB.sandboxes y.2) =
    total (row_part k uid (holds y.1)) (DB.sandboxes y.2) + total (excess k uid (holds y.1)) (DB.sandboxes y.2)) by lia.
  rewrite -total_plus. apply total_ext. intros j r _. rewrite /part /row_part /excess /held_by.
  destruct (holds y.1 !! j) as [h|]; repeat case_decide; try case_bool_decide; lia || tauto.
Qed.
Lemma part_bounds k uid m j r : 0 ≤ charge k r → 0 ≤ part k uid m j r.
Proof. intros. rewrite /part. case_decide; [|done]. destruct (m !! j); [case_decide; lia|done]. Qed.
Lemma part_other k uid i m m' j r : m' !! j = m !! j ∨ i = j ∧ (∀ h, m !! i = Some h → hold_owner h ≠ uid) ∧ (∀ h, m' !! i = Some h → hold_owner h ≠ uid) →
  part k uid m' j r = part k uid m j r.
Proof.
  rewrite /part. intros [->|(<- & H1 & H2)]; [done|]. case_decide; [|done].
  destruct (m !! i), (m' !! i); repeat case_decide; try done; exfalso; naive_solver.
Qed.

Lemma undercut_count uid y : undercut Count uid y = 0.
Proof.
  rewrite /undercut -(total_const0 (DB.sandboxes y.2)). apply total_ext. intros j r _. rewrite /excess.
  destruct (_ !! j); [|done]. case_decide; [|done]. simpl. case_bool_decide; lia.
Qed.

Lemma inv_reserved uid u i c m y a : quota_inv (y, a) → DB.users y.2 !! uid = Some u → holds y.1 !! i = None → 0 ≤ c → 0 ≤ m →
  (∀ k, others k uid i y + want c m k ≤ limit k u) → let y' := reserved uid i c m y in quota_inv (y', admission uid y' a).
Proof.
  intros [Hd Hr Hh Hw Hc] Hu Hi ? ? Hlim. split; [exact Hd|exact Hr|..]; cbn [fst snd] in *.
  - intros j h k. rewrite lookup_insert_Some. intros [[-> <-]|[_ Hj]]; [by destruct k|by eapply Hh].
  - intros v w k Hv. rewrite /admission. case_decide as Hvu.
    + subst v. assert (w = u) as -> by (rewrite /= in Hv; congruence). rewrite /claimed footprint_reserved // decide_True //. specialize (Hlim k). lia.
    + etrans; [|by apply (Hw v w k)]. rewrite !claimed_parts. apply Z.eq_le_incl. cbn [reserved fst snd holds]. rewrite total_insert_new //.
      rewrite {1}/hold_part /= decide_False; [congruence|]. rewrite Z.add_0_l. f_equal. apply total_ext. intros j r _. apply (part_other _ _ i).
      destruct (decide (i = j)) as [<-|]; [right|left; by rewrite lookup_insert_ne]. split; [done|]. rewrite Hi lookup_insert_eq. naive_solver.
  - intros v. rewrite /admission. case_decide; [apply undercut_count|apply Hc].
Qed.

Lemma inv_drop i y a : quota_inv (y, a) → quota_inv (drop_sandbox i y, a).
Proof.
  intros [Hd Hr Hh Hw Hc]. split; [exact Hd|exact Hr| | |exact Hc]; cbn [fst snd] in *.
  { intros j h k. cbn [drop_sandbox fst snd holds]. intros [_ Hj]%lookup_delete_Some. by eapply Hh. }
  intros uid u k Hu. specialize (Hw uid u k Hu). etrans; [|exact Hw]. clear Hw Hu Hc.
  rewrite !claimed_parts /drop_sandbox. cbn [fst snd holds]. destruct (holds y.1 !! i) as [h|] eqn:Hi; [|by rewrite delete_id].
  rewrite (total_delete (hold_part k uid) (holds y.1) i h Hi). pose proof (Hh i h k Hi).
  assert (∀ j r, j ≠ i → part k uid (delete i (holds y.1)) j r = part k uid (holds y.1) j r) as Hne.
  { intros j r Hji. apply (part_other _ _ i). left. by rewrite lookup_delete_ne. }
  enough (total (part k uid (delete i (holds y.1))) (DB.sandboxes y.2) ≤
    total (part k uid (holds y.1)) (DB.sandboxes y.2) + hold_part k uid i h) by lia.
  destruct (DB.sandboxes y.2 !! i) as [r|] eqn:Hri.
  - rewrite !(total_delete _ (DB.sandboxes y.2) i r Hri).
    assert (part k uid (delete i (holds y.1)) i r ≤ part k uid (holds y.1) i r + hold_part k uid i h).
    { rewrite /part /hold_part lookup_delete_eq Hi. repeat case_decide; lia. }
    enough (total (part k uid (delete i (holds y.1))) (delete i (DB.sandboxes y.2)) = total (part k uid (holds y.1)) (delete i (DB.sandboxes y.2))) by lia.
    apply total_ext. intros j r' [Hj _]%lookup_delete_Some. by apply Hne.
  - assert (0 ≤ hold_part k uid i h) by (rewrite /hold_part; case_decide; lia).
    enough (total (part k uid (delete i (holds y.1))) (DB.sandboxes y.2) = total (part k uid (holds y.1)) (DB.sandboxes y.2)) by lia.
    apply total_ext. intros j r' Hj. apply Hne. congruence.
Qed.

Lemma inv_rows y a d : quota_inv (y, a) → DB.integrity d → DB.users d = DB.users y.2 →
  (∀ j r, DB.sandboxes d !! j = Some r → 0 ≤ DB.cpus r ∧ 0 ≤ DB.memory_mb r ∧ covered (holds y.1) y.2 j r) → quota_inv ((y.1, d), a).
Proof.
  intros [Hd Hr Hh Hw Hc] Hd' Hu Hrows. split; [exact Hd'|intros j r Hj; by destruct (Hrows j r Hj) as (? & ? & _)|exact Hh| |exact Hc].
  cbn [fst snd] in *. intros uid u k. rewrite Hu => Hus. etrans; [|by apply (Hw uid u k)]. rewrite !claimed_parts. cbn [fst snd].
  apply Z.add_le_mono_r. apply total_dom_le.
  { intros j r Hj. destruct (Hr j r Hj). by apply part_bounds, charge_nonneg. }
  intros j r Hj. destruct (Hrows j r Hj) as (H1 & H2 & [(h & Hhj & Ho & Hch)|(r0 & Hr0 & Ho & Hch)]).
  - assert (part k uid (holds y.1) j r = 0) as ->.
    { rewrite /part Hhj. specialize (Hch k). repeat case_decide; lia || congruence. }
    destruct (DB.sandboxes y.2 !! j) as [r0|] eqn:Hr0; [|done]. destruct (Hr j r0 Hr0). by apply part_bounds, charge_nonneg.
  - rewrite Hr0 /part Ho. specialize (Hch k). case_decide; [|done]. destruct (holds y.1 !! j); [case_decide; lia|done].
Qed.

Lemma reserve_inv uid u i c m y a r y' : quota_inv (y, a) → DB.users y.2 !! uid = Some u → listed uid y.2 → 0 ≤ c → 0 ≤ m →
  reserve_locked uid u i c m y = (r, y') → quota_inv (y', after_reserve uid r y' a).
Proof.
  intros Hy Hu Hl Hc Hm Hres. destruct y as [reg d]. pose proof (reserve_locked_spec uid u i c m reg d (qi_db _ Hy) Hl) as Hspec. cbv zeta in Hspec.
  rewrite Hres in Hspec. destruct r as [[]|[]]; try done.
  - destruct Hspec as (Hi & Hlim & ->). by eapply inv_reserved.
  - by destruct Hspec as (_ & _ & ->).
  - by destruct Hspec as [_ ->].
Qed.

Lemma step_inv x x' : quota_inv x → step x x' → quota_inv x'.
Proof.
  intros Hy Hs. destruct Hs as [uid u i c m y a r y' Hu Hl Hc Hm Hres|uid u i y a r y' Hu Hl Hres|i y a|y a d Hd Hus Hrows].
  - by apply (reserve_inv uid u i c m y).
  - destruct y as [reg d]. rewrite reserve_start_locked in Hres.
    destruct (DB.sandboxes d !! i) as [row|] eqn:Hrow; [|by injection Hres as <- <-].
    case_decide as Ho; [|by injection Hres as <- <-]. destruct (qi_rows _ Hy i row Hrow) as [Hc Hm].
    by apply (reserve_inv uid u i (DB.cpus row) (DB.memory_mb row) (reg, d)).
  - by apply inv_drop.
  - by apply inv_rows.
Qed.

Definition exact : Uncounted := λ _ _, 0.
Definition within (y : State) : Prop := ∀ uid u k, DB.users y.2 !! uid = Some u → footprint k uid y ≤ limit k u.
Lemma quota_inv_new d : DB.integrity d → (∀ j r, DB.sandboxes d !! j = Some r → 0 ≤ DB.cpus r ∧ 0 ≤ DB.memory_mb r) →
  within (new, d) → quota_inv ((new, d), exact).
Proof.
  intros Hd Hr Hw. split; [done|done|done| |done].
  intros uid u k Hu. specialize (Hw uid u k Hu). cbn [fst snd] in *. rewrite /claimed. enough (undercut k uid (new, d) = 0) as -> by (rewrite /exact; lia).
  rewrite /undercut -(total_const0 (DB.sandboxes d)). apply total_ext. intros j r _. by rewrite /excess lookup_empty.
Qed.

(** *** The operations of the store that take or release capacity *)
Lemma create_step y a s h d : quota_inv (y, a) → holds y.1 !! DB.id s = Some h → hold_owner h = DB.owner_user_id s →
  0 ≤ DB.cpus s ≤ hold_cpus h → 0 ≤ DB.memory_mb s ≤ hold_mem h → DB.create_sandbox s y.2 = (Ok tt, d) → step (y, a) ((y.1, d), a).
Proof.
  intros Hy Hh Ho Hc Hm Hrun. pose proof (DB.create_sandbox_integrity s y.2 (qi_db _ Hy)) as Hd. rewrite Hrun in Hd.
  assert (wp (DB.create_sandbox s) y.2 (λ r d, r = Ok tt → d = DB.set_sandboxes (<[DB.id s := s]> (DB.sandboxes y.2)) y.2)) as Hw.
  { rewrite /DB.create_sandbox. DB.sql_steps; done. }
  eapply wp_run in Hrun; [|exact Hw]. specialize (Hrun eq_refl). subst d. apply st_rows; [done|done|].
  intros j r. cbn [DB.set_sandboxes DB.sandboxes]. rewrite lookup_insert_Some. intros [[<- <-]|[Hne Hj]].
  - split_and!; [lia..|]. left. exists h. split_and!; [done..|]. intros []; simpl; [by case_bool_decide|destruct (busy _); lia..].
  - destruct (qi_rows _ Hy j r Hj) as [? ?]. split_and!; [done..|]. right. by exists r.
Qed.

(** A state is written either under the hold of a start, or when it takes no more
    than before. *)
Lemma set_state_step y a sid st th now d r0 : quota_inv (y, a) → DB.sandboxes y.2 !! sid = Some r0 →
  (∃ h, holds y.1 !! sid = Some h ∧ hold_owner h = DB.owner_user_id r0 ∧ DB.cpus r0 ≤ hold_cpus h ∧ DB.memory_mb r0 ≤ hold_mem h) ∨
  (busy st = true → busy (DB.state r0) = true) ∧ (DB.state r0 = "failed" → st = "failed") →
  DB.set_sandbox_state sid st th now y.2 = (Ok tt, d) → step (y, a) ((y.1, d), a).
Proof.
  intros Hy Hr0 Hcov Hrun. pose proof (DB.set_sandbox_state_integrity sid st th now y.2 (qi_db _ Hy)) as Hd. rewrite Hrun in Hd.
  destruct (qi_rows _ Hy sid r0 Hr0) as [Hc0 Hm0].
  set (r1 := DB.mkSandbox (DB.id r0) (DB.owner_user_id r0) (DB.name r0) (DB.backend r0) st th (DB.cpus r0) (DB.memory_mb r0) (DB.ip r0)
    (DB.created_at r0) now).
  assert (wp (DB.set_sandbox_state sid st th now) y.2 (λ r d, r = Ok tt → d = DB.set_sandboxes (<[sid := r1]> (DB.sandboxes y.2)) y.2)) as Hw.
  { rewrite /DB.set_sandbox_state /DB.set_sandbox_state_inner. DB.sql_steps; try done. by simplify_eq. }
  eapply wp_run in Hrun; [|exact Hw]. specialize (Hrun eq_refl). subst d. apply st_rows; [done|done|].
  intros j r. cbn [DB.set_sandboxes DB.sandboxes]. rewrite lookup_insert_Some. intros [[<- <-]|[Hne Hj]].
  - split_and!; [done..|]. destruct Hcov as [(h & Hh & Ho & Hc & Hm)|[Hb Hf]].
    + left. exists h. split_and!; [done..|]. intros []; simpl; [by case_bool_decide|destruct (busy st); lia..].
    + right. exists r0. split_and!; [done..|]. intros []; simpl.
      * repeat case_bool_decide; try lia. tauto.
      * destruct (busy st); [rewrite Hb //|destruct (busy _); lia].
      * destruct (busy st); [rewrite Hb //|destruct (busy _); lia].
  - destruct (qi_rows _ Hy j r Hj) as [? ?]. split_and!; [done..|]. right. by exists r.
Qed.

(** What the rows alone consume. *)
Definition usage (k : Resource) (uid : string) (d : DB.Db) : Z :=
  total (λ _ r, if decide (DB.owner_user_id r = uid) then charge k r else 0) (DB.sandboxes d).

Lemma usage_claimed k uid x : quota_inv x → usage k uid x.1.2 ≤ claimed k uid x.1.
Proof.
  intros Hy. rewrite claimed_parts. set (g := λ j r, charge k r - part k uid (holds x.1.1) j r).
  assert (usage k uid x.1.2 = total (part k uid (holds x.1.1)) (DB.sandboxes x.1.2) +
    total (λ j r, if decide (DB.owner_user_id r = uid) then g j r else 0) (DB.sandboxes x.1.2)) as ->.
  { rewrite -total_plus. apply total_ext. intros j r _. rewrite /g /part. case_decide; lia. }
  apply Z.add_le_mono_l, total_dom_le.
  - intros j h Hj. rewrite /hold_part. case_decide; [|done]. by eapply qi_holds.
  - intros j r Hj. rewrite /g /part /hold_part. destruct (holds x.1.1 !! j) as [h|] eqn:Hh; [|case_decide; lia].
    pose proof (qi_holds _ Hy j h k Hh). repeat case_decide; lia.
Qed.

Lemma undercut_nonneg k uid y : 0 ≤ undercut k uid y.
Proof. apply total_nonneg. intros j r _. rewrite /excess. destruct (_ !! j); [case_decide; lia|done]. Qed.

(** Where no hold asks for less than its row takes, nothing is left uncounted. *)
Lemma undercut_none k uid y : (∀ j h r, holds y.1 !! j = Some h → DB.sandboxes y.2 !! j = Some r → DB.owner_user_id r = hold_owner h → charge k r ≤ hold_charge k h) →
  undercut k uid y = 0.
Proof.
  intros H. rewrite /undercut -(total_const0 (DB.sandboxes y.2)). apply total_ext. intros j r Hr. rewrite /excess.
  destruct (holds y.1 !! j) as [h|] eqn:Hh; [|done]. case_decide as Ho; [|done]. specialize (H j h r Hh Hr). lia || (rewrite Z.max_l //; destruct Ho; enough (charge k r ≤ hold_charge k h) by lia; apply H; congruence).
Qed.

Lemma steps_inv x x' : quota_inv x → rtc step x x' → quota_inv x'.
Proof. intros H Hs. induction Hs as [|x0 x1 x2 H1 _ IH]; [done|]. by apply IH, (step_inv x0). Qed.

(** ** Properties *)
(** C33: what a user consumes stays within the quota, up to what admissions have left
    uncounted.  Whatever the order in which creates, restores and starts pass the check
    and commit, holds are released and rows change, the user's rows, together with the
    holds in flight, stay within each limit plus [a]: the sum, at the user's last
    successful admission, of the parts of rows that were beyond the holds replacing
    them ([excess]).  It is zero for the number of sandboxes, so that limit is exact,
    and it is zero at an admission when no hold asks for less than the row of its name;
    a create on the name of a bigger running sandbox makes it positive.  A change of
    the rows takes capacity only under a hold ([covered]), and an admission's query
    sees all rows of the user ([listed]) and asks for no negative size. *)
Theorem quota_respected (d : DB.Db) (y : State) (a : Uncounted) (uid : string) (u : DB.User) (k : Resource) :
  DB.integrity d → (∀ j r, DB.sandboxes d !! j = Some r → 0 ≤ DB.cpus r ∧ 0 ≤ DB.memory_mb r) →
  within (new, d) → rtc step ((new, d), exact) (y, a) → DB.users y.2 !! uid = Some u →
  usage k uid y.2 ≤ limit k u + a uid k ∧ footprint k uid y ≤ limit k u + a uid k ∧ a uid Count = 0.
Proof.
  intros Hd Hr Hw Hs Hu. pose proof (steps_inv _ _ (quota_inv_new d Hd Hr Hw) Hs) as Hy.
  pose proof (usage_claimed k uid _ Hy) as H1. pose proof (qi_claimed _ Hy uid u k Hu) as H2. pose proof (undercut_nonneg k uid y) as H3.
  pose proof (qi_count _ Hy uid) as H4. rewrite /claimed in H1, H2. cbn [fst snd] in *. split; [lia|]. split; [lia|done].
Qed.

(** C34: a reservation has exactly four outcomes.  A start of a missing or foreign
    sandbox is [NotFound]; a name with a hold is [Conflict]; the request is
    [Forbidden] exactly when what the user consumes without this sandbox and the
    request exceed a limit; otherwise the hold is inserted.  An error changes
    nothing. *)
Theorem reserve_start_outcome (uid : string) (u : DB.User) (i : string) (reg : Registry) (d : DB.Db) :
  DB.integrity d → listed uid d →
  let y := (reg, d) in
  match DB.sandboxes d !! i with
  | Some row =>
      let fits k := others k uid i y + want (DB.cpus row) (DB.memory_mb row) k <= limit k u in
      if decide (DB.owner_user_id row = uid) then
        if decide (holds reg !! i = None) then
          ((∀ k, fits k) ∧ reserve_start uid u i y = (Ok tt, reserved uid i (DB.cpus row) (DB.memory_mb row) y)) ∨
          ((∃ k, ¬ fits k) ∧ reserve_start uid u i y = (Err Forbidden, y))
        else reserve_start uid u i y = (Err Conflict, y)
      else reserve_start uid u i y = (Err NotFound, y)
  | None => reserve_start uid u i y = (Err NotFound, y)
  end.
Proof.
  intros Hd Hl. cbv zeta. rewrite !reserve_start_locked. destruct (DB.sandboxes d !! i) as [row|]; [|done].
  case_decide; [|done]. pose proof (reserve_locked_spec uid u i (DB.cpus row) (DB.memory_mb row) reg d Hd Hl) as Hs. cbv zeta in Hs.
  destruct (reserve_locked _ _ _ _ _ _) as [[[]|[]] y']; try done.
  - destruct Hs as (Hi & Hk & ->). rewrite decide_True //. by left.
  - destruct Hs as (Hi & (k & Hk) & ->). rewrite decide_True //. right. split; [exists k; lia|done].
  - destruct Hs as (Hi & ->). rewrite decide_False //. by apply not_eq_None_Some.
Qed.

(** ** Concrete runs *)
Module Example.
(** alice: 5 sandboxes, 4 CPUs, 4096 MB, and two rows of 1 CPU and 512 MB. *)
Definition sized (i : string) (c m : Z) : DB.Sandbox := DB.mkSandbox i "u" i "krucible" "running" "hot" c m "" 9 9.
Definition base : State := (new, DB.small_db).
Definition held : State := (reserve_sandbox "u" DB.alice "c" 2 1024 base).2.
Definition created : State := (held.1, (DB.create_sandbox (sized "c" 2 1024) held.2).2).

Lemma base_rows j r : DB.sandboxes DB.small_db !! j = Some r → 0 ≤ DB.cpus r ∧ 0 ≤ DB.memory_mb r.
Proof.
  revert j r. change (map_Forall (λ _ r, 0 ≤ DB.cpus r ∧ 0 ≤ DB.memory_mb r) (DB.sandboxes DB.small_db)).
  eapply bool_decide_eq_true_1. vm_compute. reflexivity.
Qed.
Lemma base_users : DB.users DB.small_db = {["u"%string := DB.alice]}.
Proof. vm_compute. reflexivity. Qed.
Lemma base_within : within base.
Proof.
  intros uid u k. rewrite /base. cbn [snd]. rewrite base_users lookup_singleton_Some. intros [<- <-].
  destruct k; vm_compute; discriminate.
Qed.
Lemma base_listed : listed "u" DB.small_db.
Proof.
  split; [vm_compute; discriminate|]. change (map_Forall (λ _ s, DB.created_at s < DB.i64_max) (DB.sandboxes DB.small_db)).
  eapply bool_decide_eq_true_1. vm_compute. reflexivity.
Qed.

Definition a1 : Uncounted := after_reserve "u" (Ok tt) held exact.
Lemma held_step : step (base, exact) (held, a1).
Proof.
  apply (st_sandbox "u" DB.alice "c" 2 1024 base exact (Ok tt) held); [vm_compute; reflexivity|exact base_listed|lia|lia|vm_compute; reflexivity].
Qed.
Lemma held_inv : quota_inv (held, a1).
Proof. eapply step_inv; [|exact held_step]. apply quota_inv_new; [exact DB.small_db_integrity|exact base_rows|exact base_within]. Qed.
Lemma created_step : step (held, a1) (created, a1).
Proof.
  apply (create_step held a1 (sized "c" 2 1024) (mkHold "u" 2 1024)); [exact held_inv|vm_compute; reflexivity|reflexivity|simpl; lia|simpl; lia|].
  vm_compute. reflexivity.
Qed.

Lemma quota_respected_witness : a1 "u"%string Cpus = 0 ∧
  let y := drop_sandbox "c" created in usage Cpus "u" y.2 <= limit Cpus DB.alice + a1 "u"%string Cpus ∧
  footprint Cpus "u" y <= limit Cpus DB.alice + a1 "u"%string Cpus ∧ a1 "u"%string Count = 0.
Proof.
  split; [vm_compute; reflexivity|].
  apply (quota_respected DB.small_db (drop_sandbox "c" created) a1 "u" DB.alice Cpus);
    [exact DB.small_db_integrity|exact base_rows|exact base_within| |vm_compute; reflexivity].
  eapply rtc_l; [exact held_step|]. eapply rtc_l; [exact created_step|]. eapply rtc_l; [apply st_drop|]. apply rtc_refl.
Defined.

(** The bound is reached. *)
Example quota_full : footprint Cpus "u" (drop_sandbox "c" created) = 4 ∧
  (reserve_sandbox "u" DB.alice "d" 1 512 created).1 = Err Forbidden.
Proof. split; vm_compute; reflexivity. Qed.

Lemma reserve_start_outcome_witness :
  ((∀ k, others k "u" "a" base + want 1 512 k <= limit k DB.alice) ∧ reserve_start "u" DB.alice "a" base = (Ok tt, reserved "u" "a" 1 512 base)) ∨
  ((∃ k, ¬ others k "u" "a" base + want 1 512 k <= limit k DB.alice) ∧ reserve_start "u" DB.alice "a" base = (Err Forbidden, base)).
Proof. exact (reserve_start_outcome "u" DB.alice "a" new DB.small_db DB.small_db_integrity base_listed). Defined.

(** A create on the name of a running 4-CPU sandbox replaces its footprint by the
    request until the create fails, and another create passes in between: that
    admission leaves two CPUs uncounted, and the user ends with two too many. *)
Definition running : State := (new, (DB.create_sandbox (sized "big" 3 1024) (DB.delete_sandbox "b" DB.small_db).2).2).
Definition reuse : State := (reserve_sandbox "u" DB.alice "big" 1 512 running).2.
Definition second : State := (reserve_sandbox "u" DB.alice "e" 2 512 reuse).2.
Definition third : State := (second.1, (DB.create_sandbox (sized "e" 2 512) second.2).2).
Definition settled : State := drop_sandbox "big" (drop_sandbox "e" third).
Example hold_replaces_bigger_row :
  (reserve_sandbox "u" DB.alice "big" 1 512 running).1 = Ok tt ∧
  (DB.create_sandbox (sized "big" 1 512) reuse.2).1 = Err DB.Sqlite ∧
  (reserve_sandbox "u" DB.alice "e" 2 512 reuse).1 = Ok tt ∧ (reserve_sandbox "u" DB.alice "e" 2 512 running).1 = Err Forbidden ∧
  usage Cpus "u" settled.2 = 6 ∧ limit Cpus DB.alice = 4 ∧ undercut Cpus "u" second = 2.
Proof. repeat split; vm_compute; reflexivity. Qed.
End Example.
End Quotas.
