(* ===== verification/Locks.v ===== *)
(** The per-sandbox lifecycle locks of [ahvm-daemon/src/scheduler.rs] and its
    counts of guest streams.  The atomic steps are what happens under the map's
    mutex, the acquisition and release of an entry's mutex, and the release of an
    [Arc]; the drop of a lease takes two of them. *)
From S2P Require Import Prelude Codec Sums.

Module Locks.

(** [Arc<LifecycleEntry>]: its epoch, and the lease that holds its mutex. *)
Record LifecycleEntry := mkEntry { epoch : Z; holder : option nat }.

(** The life of a lease: in the queue of the mutex; in a guard; dropped, at the
    start of [LifecycleLease::drop]; past it, its [Arc] not yet released. *)
Inductive Phase := Queued | Holding | Leaving | Checked.
#[export] Instance Phase_eq_dec : EqDecision Phase.
Proof. solve_decision. Defined.
Record LifecycleLease := mkLease { l_id : string; l_entry : nat; l_epoch : Z; phase : Phase }.

Record LifecycleLocks := mkLocks {
  inner : gmap string nat;
  heap : gmap nat LifecycleEntry;
  leases : gmap nat LifecycleLease;
  next : nat;
}.
Definition new : LifecycleLocks := mkLocks ∅ ∅ ∅ 0.

(** [LifecycleLocks::lease]; a lease and a new entry are named by [next]. *)
Definition lease (id : string) (y : LifecycleLocks) : LifecycleLocks :=
  match inner y !! id with
  | Some e =>
      mkLocks (inner y) (heap y) (<[next y := mkLease id e (default 0 (epoch <$> heap y !! e)) Queued]> (leases y)) (S (next y))
  | None =>
      mkLocks (<[id := next y]> (inner y)) (<[next y := mkEntry 0 None]> (heap y))
        (<[next y := mkLease id (next y) 0 Queued]> (leases y)) (S (next y))
  end.

Definition set_phase (p : Phase) (x : LifecycleLease) : LifecycleLease := mkLease (l_id x) (l_entry x) (l_epoch x) p.
Definition with_phase (l : nat) (x : LifecycleLease) (p : Phase) (y : LifecycleLocks) : LifecycleLocks :=
  mkLocks (inner y) (heap y) (<[l := set_phase p x]> (leases y)) (next y).
Definition set_holder (h : option nat) (e : LifecycleEntry) : LifecycleEntry := mkEntry (epoch e) h.
Definition set_heap (m : gmap nat LifecycleEntry) (y : LifecycleLocks) : LifecycleLocks := mkLocks (inner y) m (leases y) (next y).

(** [Arc::strong_count(&self.entry)] *)
Definition strong_count (e : nat) (y : LifecycleLocks) : nat :=
  (size (filter (λ x, x.2 = e) (inner y)) + size (filter (λ x, l_entry x.2 = e) (leases y)))%nat.

(** [LifecycleLease::drop], up to the release of its fields. *)
Definition drop_lease (l : nat) (x : LifecycleLease) (y : LifecycleLocks) : LifecycleLocks :=
  with_phase l x Checked
    (if (strong_count (l_entry x) y =? 2)%nat then mkLocks (delete (l_id x) (inner y)) (heap y) (leases y) (next y) else y).

Definition identity_changed (x : LifecycleLease) (y : LifecycleLocks) : bool :=
  negb (default 0 (epoch <$> heap y !! l_entry x) =? l_epoch x).
Definition invalidate_identity (x : LifecycleLease) (y : LifecycleLocks) : LifecycleLocks :=
  set_heap (alter (λ e, mkEntry ((epoch e + 1) mod 2 ^ 64) (holder e)) (l_entry x) (heap y)) y.

Inductive Event :=
| ELease (id : string)
| EAcquire (l : nat)
| ECancel (l : nat)
| EUnlock (l : nat)
| EDrop (l : nat)
| ERelease (l : nat)
| EInvalidate (l : nat).

(** One step, where it is possible: [lock] is a lease and, once the mutex is free,
    its acquisition; [try_lock] cancels when it is not; a guard unlocks before its
    lease is dropped. *)
Definition exec (ev : Event) (y : LifecycleLocks) : option LifecycleLocks :=
  match ev with
  | ELease id => Some (lease id y)
  | EAcquire l =>
      x ← leases y !! l; e ← heap y !! l_entry x;
      if decide (phase x = Queued ∧ holder e = None)
      then Some (with_phase l x Holding (set_heap (<[l_entry x := set_holder (Some l) e]> (heap y)) y)) else None
  | ECancel l => x ← leases y !! l; if decide (phase x = Queued) then Some (with_phase l x Leaving y) else None
  | EUnlock l =>
      x ← leases y !! l; e ← heap y !! l_entry x;
      if decide (phase x = Holding)
      then Some (with_phase l x Leaving (set_heap (<[l_entry x := set_holder None e]> (heap y)) y)) else None
  | EDrop l => x ← leases y !! l; if decide (phase x = Leaving) then Some (drop_lease l x y) else None
  | ERelease l =>
      x ← leases y !! l;
      if decide (phase x = Checked) then Some (mkLocks (inner y) (heap y) (delete l (leases y)) (next y)) else None
  | EInvalidate l => x ← leases y !! l; if decide (phase x = Holding) then Some (invalidate_identity x y) else None
  end.
Abbreviation runs := (steps exec).

(** ** The invariant *)
Record wf (y : LifecycleLocks) : Prop := {
  (* a lease that may still lock names the entry of the map *)
  wf_named l x : leases y !! l = Some x → phase x ≠ Checked → inner y !! l_id x = Some (l_entry x);
  wf_heap l x : leases y !! l = Some x → is_Some (heap y !! l_entry x);
  wf_inner id e : inner y !! id = Some e → is_Some (heap y !! e);
  wf_inj i j e : inner y !! i = Some e → inner y !! j = Some e → i = j;
  wf_holder l x : leases y !! l = Some x → phase x = Holding → holder <$> heap y !! l_entry x = Some (Some l);
  wf_epoch e n : heap y !! e = Some n → 0 ≤ epoch n < 2 ^ 64;
  wf_fresh : (∀ l, is_Some (leases y !! l) → (l < next y)%nat) ∧ (∀ e, is_Some (heap y !! e) → (e < next y)%nat);
}.

Lemma new_wf : wf new.
Proof. split; try done. by split; intros ? [? ?]. Qed.

(** Changing the phase of a lease that does not hold the mutex. *)
Lemma wf_phase y l x p : wf y → leases y !! l = Some x → p ≠ Holding → (phase x ≠ Checked ∨ p = Checked) → wf (with_phase l x p y).
Proof.
  intros [] Hl Hp Hx. split; cbn [inner heap leases next with_phase]; try done.
  - intros k z [[<- <-]|[? Hk]]%lookup_insert_Some; simpl; [|by eapply wf_named0]. intros Hc. destruct Hx as [Hx|Hx]; [by eapply wf_named0|done].
  - intros k z [[<- <-]|[? Hk]]%lookup_insert_Some; simpl; by eapply wf_heap0.
  - intros k z [[<- <-]|[? Hk]]%lookup_insert_Some; simpl; [done|]. by eapply wf_holder0.
  - destruct wf_fresh0 as [H1 H2]. split; [|done]. intros k [z [[<- <-]|[? Hk]]%lookup_insert_Some]; apply H1; by eexists.
Qed.

(** Changing the heap without touching a holder. *)
Lemma wf_set_heap y m : wf y → (∀ e n, m !! e = Some n → 0 ≤ epoch n < 2 ^ 64) → (∀ e, is_Some (m !! e) ↔ is_Some (heap y !! e)) →
  (∀ l x, leases y !! l = Some x → phase x = Holding → holder <$> m !! l_entry x = Some (Some l)) → wf (set_heap m y).
Proof.
  intros [] He Hd Hh. split; cbn [inner heap leases next set_heap]; try done.
  - intros. apply Hd. by eapply wf_heap0.
  - intros. apply Hd. by eapply wf_inner0.
  - destruct wf_fresh0 as [? H2]. split; [done|]. intros. by apply H2, Hd.
Qed.

Lemma size_two {A} (m : gmap nat A) k l x y : m !! k = Some x → m !! l = Some y → k ≠ l → (2 ≤ size m)%nat.
Proof.
  intros Hk Hl Hne. rewrite -(insert_delete_id _ _ _ Hk) map_size_insert_None ?lookup_delete_eq //.
  rewrite -(insert_delete_id (delete k m) l y) ?lookup_delete_ne // map_size_insert_None ?lookup_delete_eq //. lia.
Qed.
Lemma size_one {K} `{Countable K} {A} (m : gmap K A) k x : m !! k = Some x → (1 ≤ size m)%nat.
Proof. intros Hk. rewrite -(insert_delete_id _ _ _ Hk) map_size_insert_None ?lookup_delete_eq //. lia. Qed.

(** The last reference beside the map's: no other lease names the entry. *)
Lemma last_lease y l x k z : wf y → leases y !! l = Some x → phase x ≠ Checked → strong_count (l_entry x) y = 2%nat →
  leases y !! k = Some z → l_entry z = l_entry x → k = l.
Proof.
  intros [] Hl Hx Hc Hk He. destruct (decide (k = l)) as [|Hne]; [done|]. exfalso. rewrite /strong_count in Hc.
  assert (filter (λ x0, x0.2 = l_entry x) (inner y) !! l_id x = Some (l_entry x)) as H1 by (apply map_lookup_filter_Some; split; [by eapply wf_named0|done]).
  assert (filter (λ x0, l_entry x0.2 = l_entry x) (leases y) !! l = Some x) as H2 by (by apply map_lookup_filter_Some).
  assert (filter (λ x0, l_entry x0.2 = l_entry x) (leases y) !! k = Some z) as H3 by (by apply map_lookup_filter_Some).
  apply size_one in H1. pose proof (size_two _ _ _ _ _ H2 H3). lia.
Qed.

Lemma wf_lease id y : wf y → wf (lease id y).
Proof.
  intros []. destruct wf_fresh0 as [F1 F2]. rewrite /lease. destruct (inner y !! id) as [e|] eqn:Hi.
  - split; cbn [inner heap leases next]; try done.
    + intros l x [[<- <-]|[? Hl]]%lookup_insert_Some; [done|by eapply wf_named0].
    + intros l x [[<- <-]|[? Hl]]%lookup_insert_Some; [by eapply wf_inner0|by eapply wf_heap0].
    + intros l x [[<- <-]|[? Hl]]%lookup_insert_Some; [done|by eapply wf_holder0].
    + split; [|intros e' He; specialize (F2 e' He); lia]. intros l [x [[<- <-]|[? Hl]]%lookup_insert_Some]; [lia|].
      specialize (F1 l (mk_is_Some _ _ Hl)). lia.
  - assert (∀ e, inner y !! e ≠ Some (next y)) as Hno.
    { intros j Hj. specialize (F2 _ (wf_inner0 _ _ Hj)). lia. }
    split; cbn [inner heap leases next].
    + intros l x [[<- <-]|[? Hl]]%lookup_insert_Some; [by rewrite lookup_insert_eq|]. intros Hp. pose proof (wf_named0 _ _ Hl Hp).
      rewrite lookup_insert_ne //. congruence.
    + intros l x [[<- <-]|[? Hl]]%lookup_insert_Some; [by rewrite lookup_insert_eq|]. apply lookup_insert_is_Some'. right. by eapply wf_heap0.
    + intros i e [[<- <-]|[? He]]%lookup_insert_Some; [by rewrite lookup_insert_eq|]. apply lookup_insert_is_Some'. right. by eapply wf_inner0.
    + intros i j e [[<- <-]|[? H1]]%lookup_insert_Some [[<- He]|[? H2]]%lookup_insert_Some; try done.
      * by apply Hno in H2. * subst. by apply Hno in H1. * by eapply wf_inj0.
    + intros l x [[<- <-]|[? Hl]]%lookup_insert_Some; [done|]. intros Hp. pose proof (wf_heap0 _ _ Hl) as Hh. rewrite lookup_insert_ne; [specialize (F2 _ Hh); lia|].
      by eapply wf_holder0.
    + intros e n [[<- <-]|[? He]]%lookup_insert_Some; [done|by eapply wf_epoch0].
    + split.
      * intros l [x [[<- <-]|[? Hl]]%lookup_insert_Some]; [lia|]. specialize (F1 l (mk_is_Some _ _ Hl)). lia.
      * intros e [x [[<- <-]|[? Hl]]%lookup_insert_Some]; [lia|]. specialize (F2 e (mk_is_Some _ _ Hl)). lia.
Qed.

Lemma wf_acquire y l x e : wf y → leases y !! l = Some x → heap y !! l_entry x = Some e → phase x = Queued → holder e = None →
  wf (with_phase l x Holding (set_heap (<[l_entry x := set_holder (Some l) e]> (heap y)) y)).
Proof.
  intros [] Hl He Hp Hh. split; cbn [inner heap leases next with_phase set_heap]; try done.
  - intros k z [[<- <-]|[? Hk]]%lookup_insert_Some; simpl; [|by eapply wf_named0]. intros _. eapply wf_named0; [done|by rewrite Hp].
  - intros k z Hz. apply lookup_insert_is_Some'. right. apply lookup_insert_Some in Hz as [[<- <-]|[? Hz]]; simpl; by eapply wf_heap0.
  - intros i e' Hi. apply lookup_insert_is_Some'. right. by eapply wf_inner0.
  - intros k z [[<- <-]|[Hne Hk]]%lookup_insert_Some Hz; simpl; [by rewrite lookup_insert_eq|].
    pose proof (wf_holder0 _ _ Hk Hz) as Hhk. rewrite lookup_insert_ne //. intros Heq. rewrite -Heq He /= Hh in Hhk. done.
  - intros k n [[<- <-]|[? Hk]]%lookup_insert_Some; simpl; by eapply wf_epoch0.
  - destruct wf_fresh0 as [F1 F2]. split.
    + intros k [z [[<- <-]|[? Hk]]%lookup_insert_Some]; apply F1; by eexists.
    + intros k [z [[<- <-]|[? Hk]]%lookup_insert_Some]; apply F2; by eexists.
Qed.

Lemma wf_unlock y l x e : wf y → leases y !! l = Some x → heap y !! l_entry x = Some e → phase x = Holding →
  wf (with_phase l x Leaving (set_heap (<[l_entry x := set_holder None e]> (heap y)) y)).
Proof.
  intros [] Hl He Hp. split; cbn [inner heap leases next with_phase set_heap]; try done.
  - intros k z [[<- <-]|[? Hk]]%lookup_insert_Some; simpl; [|by eapply wf_named0]. intros _. eapply wf_named0; [done|by rewrite Hp].
  - intros k z Hz. apply lookup_insert_is_Some'. right. apply lookup_insert_Some in Hz as [[<- <-]|[? Hz]]; simpl; by eapply wf_heap0.
  - intros i e' Hi. apply lookup_insert_is_Some'. right. by eapply wf_inner0.
  - intros k z [[<- <-]|[Hne Hk]]%lookup_insert_Some Hz; [done|].
    pose proof (wf_holder0 _ _ Hk Hz) as Hhk. rewrite lookup_insert_ne //. intros Heq. pose proof (wf_holder0 _ _ Hl Hp) as Hhl. rewrite Heq in Hhl. congruence.
  - intros k n [[<- <-]|[? Hk]]%lookup_insert_Some; simpl; by eapply wf_epoch0.
  - destruct wf_fresh0 as [F1 F2]. split.
    + intros k [z [[<- <-]|[? Hk]]%lookup_insert_Some]; apply F1; by eexists.
    + intros k [z [[<- <-]|[? Hk]]%lookup_insert_Some]; apply F2; by eexists.
Qed.

Lemma wf_drop y l x : wf y → leases y !! l = Some x → phase x = Leaving → wf (drop_lease l x y).
Proof.
  intros Hw Hl Hp. rewrite /drop_lease. destruct (Nat.eqb_spec (strong_count (l_entry x) y) 2) as [Hc|Hc]; [|apply wf_phase; [done|done|done|by right]].
  assert (phase x ≠ Checked) as Hp' by (by rewrite Hp). pose proof (last_lease y l x) as Hlast. destruct Hw as [].
  split; cbn [inner heap leases next with_phase]; try done.
  - intros k z [[<- <-]|[Hne Hk]]%lookup_insert_Some Hz; [done|]. rewrite lookup_delete_ne; [|by eapply wf_named0].
    intros Heq. apply Hne. symmetry. eapply Hlast; try done. pose proof (wf_named0 _ _ Hk Hz). pose proof (wf_named0 _ _ Hl Hp'). congruence.
  - intros k z [[<- <-]|[? Hk]]%lookup_insert_Some; simpl; by eapply wf_heap0.
  - intros i e [_ Hi]%lookup_delete_Some. by eapply wf_inner0.
  - intros i j e [_ Hi]%lookup_delete_Some [_ Hj]%lookup_delete_Some. by eapply wf_inj0.
  - intros k z [[<- <-]|[? Hk]]%lookup_insert_Some; simpl; [done|]. by eapply wf_holder0.
  - destruct wf_fresh0 as [F1 F2]. split; [|done]. intros k [z [[<- <-]|[? Hk]]%lookup_insert_Some]; apply F1; by eexists.
Qed.

Lemma locks_exec_wf ev y y' : wf y → exec ev y = Some y' → wf y'.
Proof.
  intros Hw. destruct ev as [id|l|l|l|l|l|l]; simpl; [by intros [= <-]; apply wf_lease|..];
    (destruct (leases y !! l) as [x|] eqn:Hl; [|done]); simpl.
  - destruct (heap y !! l_entry x) as [e|] eqn:He; [|done]. simpl. case_decide as Hd; [|done]. destruct Hd. intros [= <-]. by apply wf_acquire.
  - case_decide as Hd; [|done]. intros [= <-]. apply wf_phase; [done|done|done|left; by rewrite Hd].
  - destruct (heap y !! l_entry x) as [e|] eqn:He; [|done]. simpl. case_decide; [|done]. intros [= <-]. by apply wf_unlock.
  - case_decide; [|done]. intros [= <-]. by apply wf_drop.
  - case_decide; [|done]. intros [= <-]. destruct Hw as []. split; cbn [inner heap leases next]; try done.
    + intros k z [_ Hk]%lookup_delete_Some. by eapply wf_named0.
    + intros k z [_ Hk]%lookup_delete_Some. by eapply wf_heap0.
    + intros k z [_ Hk]%lookup_delete_Some. by eapply wf_holder0.
    + destruct wf_fresh0 as [F1 F2]. split; [|done]. intros k [z [_ Hk]%lookup_delete_Some]. apply F1; by eexists.
  - case_decide; [|done]. intros [= <-]. apply wf_set_heap; [done|..].
    + intros e n. rewrite lookup_alter. case_decide as Hd; [|apply (wf_epoch _ Hw)]. intros (n0 & _ & ->)%fmap_Some. apply Z.mod_pos_bound. lia.
    + intros e. by rewrite lookup_alter_is_Some.
    + intros k z Hk Hz. pose proof (wf_holder _ Hw _ _ Hk Hz) as Hh. destruct (decide (l_entry z = l_entry x)) as [Heq|Hne].
      * rewrite Heq lookup_alter_eq -Heq. by destruct (heap y !! l_entry z).
      * by rewrite lookup_alter_ne.
Qed.

Lemma locks_runs_wf es y y' : wf y → runs es y = Some y' → wf y'.
Proof. intros Hw. apply steps_ind; [|done]. intros e z z' _. apply locks_exec_wf. Qed.

(** *** The epoch a lease sees *)
(** The step invalidates the identity [id]. *)
Definition hits (id : string) (ev : Event) (y : LifecycleLocks) : bool :=
  match ev with EInvalidate k => bool_decide (l_id <$> leases y !! k = Some id) | _ => false end.
Fixpoint invalidations (id : string) (es : list Event) (y : LifecycleLocks) : Z :=
  match es with
  | [] => 0
  | ev :: es => (if hits id ev y then 1 else 0) + invalidations id es (default y (exec ev y))
  end.
Definition live (l : nat) (x : LifecycleLease) (y : LifecycleLocks) : Prop :=
  ∃ z, leases y !! l = Some z ∧ phase z ≠ Checked ∧ l_id z = l_id x ∧ l_entry z = l_entry x ∧ l_epoch z = l_epoch x.
Definition epoch_of (e : nat) (y : LifecycleLocks) : Z := default 0 (epoch <$> heap y !! e).

(** A lease keeps its id, entry and epoch, and is past its drop for good. *)
Lemma exec_live ev y y' l x : wf y → exec ev y = Some y' → (l < next y)%nat → live l x y' → live l x y.
Proof.
  intros Hw Hx Hlt (z & Hz & Hp & Hsame).
  assert (∀ k w p, leases y !! k = Some w → (phase w ≠ Checked ∨ p = Checked) → <[k := set_phase p w]> (leases y) !! l = Some z → live l x y) as Hset.
  { intros k w p Hk Hwp [[-> <-]|[_ Hl]]%lookup_insert_Some; [|by exists z]. simpl in Hp, Hsame. exists w. split_and!; try apply Hsame; [done|].
    by destruct Hwp as [?| ->]. }
  destruct ev as [id|k|k|k|k|k|k]; simpl in Hx; try (destruct (leases y !! k) as [w|] eqn:Hk; [|done]); simpl in Hx.
  - injection Hx as <-. exists z. split; [|done]. rewrite /lease in Hz.
    destruct (inner y !! id); cbn [leases] in Hz; rewrite lookup_insert_ne in Hz; done || lia.
  - destruct (heap y !! l_entry w); [|done]. simpl in Hx. case_decide as Hd; [|done]. injection Hx as <-. eapply (Hset k w Holding); [done| |done]. left. destruct Hd as [-> _]. done.
  - case_decide as Hd; [|done]. injection Hx as <-. eapply (Hset k w Leaving); [done| |done]. left. by rewrite Hd.
  - destruct (heap y !! l_entry w); [|done]. simpl in Hx. case_decide as Hd; [|done]. injection Hx as <-. eapply (Hset k w Leaving); [done| |done]. left. by rewrite Hd.
  - case_decide as Hd; [|done]. injection Hx as <-. eapply (Hset k w Checked); [done|by right|]. rewrite /drop_lease in Hz. by case_match.
  - case_decide as Hd; [|done]. injection Hx as <-. cbn [leases] in Hz. apply lookup_delete_Some in Hz as [_ Hz]. by exists z.
  - case_decide as Hd; [|done]. injection Hx as <-. by exists z.
Qed.

Lemma exec_next ev y y' : exec ev y = Some y' → (next y ≤ next y')%nat.
Proof.
  destruct ev as [id|k|k|k|k|k|k]; simpl; try (destruct (leases y !! k) as [w|]; [|done]); simpl;
    try (destruct (heap y !! l_entry w); [|done]; simpl); try case_decide; try done; intros [= <-]; cbn [next with_phase set_heap]; try lia.
  - rewrite /lease. destruct (inner y !! id); cbn [next]; lia.
  - rewrite /drop_lease. case_match; cbn [next with_phase]; lia.
  - simpl. lia.
Qed.

Lemma exec_epoch ev y y' l x : wf y → exec ev y = Some y' → live l x y →
  epoch_of (l_entry x) y' = (epoch_of (l_entry x) y + (if hits (l_id x) ev y then 1 else 0)) mod 2 ^ 64.
Proof.
  intros Hw Hx (z & Hz & Hp & Hid & He & _). destruct (wf_heap _ Hw _ _ Hz) as [n Hn]. rewrite He in Hn.
  assert (∀ m : gmap nat LifecycleEntry, epoch <$> m !! l_entry x = Some (epoch n) → default 0 (epoch <$> m !! l_entry x) = (epoch_of (l_entry x) y + 0) mod 2 ^ 64) as Hsame.
  { intros m ->. rewrite /epoch_of Hn /= Z.add_0_r Z.mod_small //. by eapply wf_epoch. }
  rewrite {1}/epoch_of. destruct ev as [id|k|k|k|k|k|k]; simpl in Hx; try (destruct (leases y !! k) as [w|] eqn:Hk; [|done]); simpl in Hx.
  - injection Hx as <-. apply Hsame. rewrite /lease. destruct (inner y !! id); cbn [heap]; [by rewrite Hn|].
    rewrite lookup_insert_ne; [|by rewrite Hn]. pose proof (proj2 (wf_fresh _ Hw) _ (mk_is_Some _ _ Hn)). lia.
  - destruct (heap y !! l_entry w) as [n'|] eqn:Hn'; [|done]. simpl in Hx. case_decide; [|done]. injection Hx as <-. apply Hsame.
    cbn [heap with_phase set_heap]. destruct (decide (l_entry w = l_entry x)) as [E|?]; [|by rewrite lookup_insert_ne // Hn].
    rewrite E lookup_insert_eq /=. rewrite E Hn in Hn'. by injection Hn' as ->.
  - case_decide; [|done]. injection Hx as <-. apply Hsame. by rewrite /= Hn.
  - destruct (heap y !! l_entry w) as [n'|] eqn:Hn'; [|done]. simpl in Hx. case_decide; [|done]. injection Hx as <-. apply Hsame.
    cbn [heap with_phase set_heap]. destruct (decide (l_entry w = l_entry x)) as [E|?]; [|by rewrite lookup_insert_ne // Hn].
    rewrite E lookup_insert_eq /=. rewrite E Hn in Hn'. by injection Hn' as ->.
  - case_decide; [|done]. injection Hx as <-. apply Hsame. rewrite /drop_lease. case_match; by rewrite /= Hn.
  - case_decide; [|done]. injection Hx as <-. apply Hsame. by rewrite /= Hn.
  - case_decide as Hd; [|done]. injection Hx as <-. cbn [hits]. rewrite Hk /=.
    assert (phase w ≠ Checked) as Hwp by (by rewrite Hd).
    pose proof (wf_named _ Hw _ _ Hk Hwp) as Hi1. pose proof (wf_named _ Hw _ _ Hz Hp) as Hi2. rewrite Hid He in Hi2.
    cbn [heap invalidate_identity set_heap]. case_bool_decide as Hh.
    + injection Hh as Hh. rewrite Hh Hi2 in Hi1. injection Hi1 as <-. by rewrite lookup_alter_eq Hn /epoch_of Hn.
    + apply Hsame. rewrite lookup_alter_ne; [|by rewrite Hn]. intros E. rewrite E in Hi1. apply Hh. f_equal. by eapply wf_inj.
Qed.

Lemma runs_epoch es y y' l x : wf y → runs es y = Some y' → (l < next y)%nat → live l x y' →
  live l x y ∧ epoch_of (l_entry x) y' = (epoch_of (l_entry x) y + invalidations (l_id x) es y) mod 2 ^ 64.
Proof.
  revert y. induction es as [|ev es IH]; intros y Hw; simpl.
  - intros [= <-] Hlt Hl. split; [done|]. rewrite Z.add_0_r Z.mod_small //. destruct Hl as (z & Hz & _ & _ & He & _).
    destruct (wf_heap _ Hw _ _ Hz) as [n Hn]. rewrite He in Hn. rewrite /epoch_of Hn. by eapply wf_epoch.
  - destruct (exec ev y) as [y1|] eqn:Hx; [|done]. intros Hr Hlt Hl. simpl.
    destruct (IH y1) as [Hl1 He]; [by eapply locks_exec_wf|done|apply exec_next in Hx; lia|done|].
    assert (live l x y) as Hl0 by (by eapply exec_live). split; [done|]. rewrite He (exec_epoch ev y y1 l x) //.
    rewrite Zplus_mod_idemp_l. f_equal. lia.
Qed.

(** ** Properties *)

(** C37: the lifecycle locks exclude.  Whatever the order in which leases queue,
    lock, give up and are reclaimed, two guards of one sandbox are the same guard,
    and every lease that can still lock names the one entry of the map. *)
Theorem lifecycle_exclusion es y k l x z : runs es new = Some y → leases y !! k = Some x → leases y !! l = Some z → l_id x = l_id z →
  (phase x = Holding → phase z = Holding → k = l) ∧
  (phase x ≠ Checked → phase z ≠ Checked → l_entry x = l_entry z ∧ inner y !! l_id x = Some (l_entry x)).
Proof.
  intros Hr Hk Hl Hid. pose proof (locks_runs_wf _ _ _ new_wf Hr) as Hw.
  assert (phase x ≠ Checked → phase z ≠ Checked → l_entry x = l_entry z ∧ inner y !! l_id x = Some (l_entry x)) as Hsame.
  { intros Hx Hz. pose proof (wf_named _ Hw _ _ Hk Hx) as H1. pose proof (wf_named _ Hw _ _ Hl Hz) as H2. rewrite Hid in H1 |- *.
    split; congruence. }
  split; [|done]. intros Hx Hz. destruct Hsame as [He _]; [by rewrite Hx|by rewrite Hz|].
  pose proof (wf_holder _ Hw _ _ Hk Hx) as H1. pose proof (wf_holder _ Hw _ _ Hl Hz) as H2. rewrite He in H1. congruence.
Qed.

(** A guard notices exactly the deletions that happened while it queued: the
    identity it locked has changed when the sandbox's identity was invalidated
    since the lease was taken, and only then. *)
Theorem lifecycle_identity es0 y0 id es y x : runs es0 new = Some y0 → runs (ELease id :: es) y0 = Some y →
  leases y !! next y0 = Some x → phase x ≠ Checked → Zlen es < 2 ^ 64 →
  l_id x = id ∧ (identity_changed x y = true ↔ 0 < invalidations id es (lease id y0)).
Proof.
  intros Hr0 Hr Hx Hp Hlen. pose proof (locks_runs_wf _ _ _ new_wf Hr0) as Hw0. pose proof (wf_lease id _ Hw0) as Hw1. simpl in Hr.
  assert (next y0 < next (lease id y0))%nat as Hlt by (rewrite /lease; destruct (inner y0 !! id); simpl; lia).
  destruct (runs_epoch es (lease id y0) y (next y0) x Hw1 Hr Hlt) as [(z & Hz & _ & Hzi & Hze & Hzp) He]; [by exists x|].
  assert (leases (lease id y0) !! next y0 = Some (mkLease id (l_entry z) (epoch_of (l_entry z) (lease id y0)) Queued) ∧
    0 ≤ epoch_of (l_entry z) (lease id y0) < 2 ^ 64) as [Hz1 Hb].
  { split.
    - rewrite Hz. revert Hz. rewrite /lease. destruct (inner y0 !! id) as [e|] eqn:Hi; cbn [leases]; rewrite lookup_insert_eq; intros [= <-]; [done|].
      by rewrite /epoch_of /= lookup_insert_eq.
    - destruct (wf_heap _ Hw1 _ _ Hz) as [n Hn]. rewrite /epoch_of Hn. by eapply wf_epoch. }
  rewrite Hz in Hz1. injection Hz1 as Ez. rewrite Ez in Hzi, Hze, Hzp. simpl in Hzi, Hze, Hzp. subst id. split; [done|].
  assert (∀ es y, 0 ≤ invalidations (l_id x) es y ≤ Zlen es) as Hcnt.
  { clear. induction es as [|ev es IH]; intros y; simpl; [done|]. rewrite Zlen_cons. specialize (IH (default y (exec ev y))). destruct (hits _ _ _); lia. }
  specialize (Hcnt es (lease (l_id x) y0)). rewrite /identity_changed negb_true_iff Z.eqb_neq -/(epoch_of (l_entry x) y) He -Hzp -Hze.
  set (c := invalidations _ _ _) in *. set (ep := epoch_of _ _) in *. destruct (decide (c = 0)) as [->|Hc].
  - rewrite Z.add_0_r Z.mod_small //.
  - split; [lia|]. intros _. destruct (decide (ep + c < 2 ^ 64)); [rewrite Z.mod_small; lia|].
    rewrite -(Z.mod_unique (ep + c) (2 ^ 64) 1 (ep + c - 2 ^ 64)); lia.
Qed.

(** ** Guest streams *)
Record StreamCounts := mkCounts { sc_total : Z; by_sandbox : gmap string Z }.
Definition no_streams : StreamCounts := mkCounts 0 ∅.

(** [OpsLimiter::try_stream] *)
Definition try_stream (id : string) (c : StreamCounts) : bool * StreamCounts :=
  if (32 <=? sc_total c) || (4 <=? default 0 (by_sandbox c !! id)) then (false, c)
  else (true, mkCounts (sc_total c + 1) (<[id := default 0 (by_sandbox c !! id) + 1]> (by_sandbox c))).

(** [StreamGuard::drop]; [None] is its panic, also on an underflow. *)
Definition drop_stream (id : string) (c : StreamCounts) : option StreamCounts :=
  if sc_total c =? 0 then None
  else
    n ← by_sandbox c !! id;
    if n =? 0 then None
    else Some (mkCounts (sc_total c - 1) (if n - 1 =? 0 then delete id (by_sandbox c) else <[id := n - 1]> (by_sandbox c))).

(** The limiter with its live guards. *)
Inductive StreamEvent := EOpen (id : string) | EClose (k : nat).
Definition stream_exec (e : StreamEvent) (y : StreamCounts * list string) : option (StreamCounts * list string) :=
  match e with
  | EOpen id => let '(b, c) := try_stream id y.1 in Some (c, if b then id :: y.2 else y.2)
  | EClose k => id ← y.2 !! k; c ← drop_stream id y.1; Some (c, delete k y.2)
  end.
Definition counted (y : StreamCounts * list string) : Prop :=
  sc_total y.1 = Zlen y.2 ∧ Zlen y.2 ≤ 32 ∧
  ∀ id, by_sandbox y.1 !! id = (let n := Zlen (filter (λ i, i = id) y.2) in if n =? 0 then None else Some n) ∧
    Zlen (filter (λ i, i = id) y.2) ≤ 4.

Lemma filter_delete (id : string) k l i : l !! k = Some i →
  Zlen (filter (λ j, j = id) l) = Zlen (filter (λ j, j = id) (delete k l)) + (if decide (i = id) then 1 else 0) ∧
  Zlen l = Zlen (delete k l) + 1.
Proof.
  intros Hk. rewrite -{1 3}(take_drop_middle l k i Hk) delete_take_drop !filter_app filter_cons !Zlen_app Zlen_cons.
  case_decide; rewrite ?Zlen_cons; lia.
Qed.

Lemma drop_counted y k id : counted y → y.2 !! k = Some id → ∃ c, drop_stream id y.1 = Some c ∧ counted (c, delete k y.2).
Proof.
  intros (Ht & Hle & Hc) Hk. destruct (filter_delete id k y.2 id Hk) as [Hf Hl]. rewrite decide_True // in Hf.
  pose proof (Zlen_nonneg (delete k y.2)) as H0. pose proof (Zlen_nonneg (filter (λ j, j = id) (delete k y.2))) as H1.
  destruct (Hc id) as [Hid H4]. cbv zeta in Hid. rewrite Hf in Hid. rewrite (proj2 (Z.eqb_neq _ _)) in Hid; [lia|].
  rewrite /drop_stream (proj2 (Z.eqb_neq _ _)); [lia|]. rewrite Hid /=. rewrite (proj2 (Z.eqb_neq _ _)); [lia|].
  eexists. split; [done|]. split; [simpl; lia|]. split; [simpl; lia|]. intros j. cbn [fst snd by_sandbox].
  destruct (filter_delete j k y.2 id Hk) as [Hj _]. destruct (Hc j) as [Hcj H4j]. cbv zeta in Hcj |- *. split; [|case_decide; lia].
  rewrite Z.add_simpl_r. destruct (decide (id = j)) as [<-|Hne].
  - destruct (Z.eqb_spec (Zlen (filter (λ j, j = id) (delete k y.2))) 0); by rewrite ?lookup_delete_eq ?lookup_insert_eq.
  - rewrite Z.add_0_r in Hj. rewrite -Hj -Hcj. destruct (Zlen (filter (λ j, j = id) (delete k y.2)) =? 0); by rewrite ?lookup_delete_ne ?lookup_insert_ne.
Qed.

Lemma open_counted y id : counted y →
  counted ((try_stream id y.1).2, if (try_stream id y.1).1 then id :: y.2 else y.2) ∧
  ((try_stream id y.1).1 = true ↔ Zlen y.2 < 32 ∧ Zlen (filter (λ i, i = id) y.2) < 4).
Proof.
  intros (Ht & Hle & Hc). assert (default 0 (by_sandbox y.1 !! id) = Zlen (filter (λ i, i = id) y.2)) as Hn.
  { destruct (Hc id) as [-> _]. cbv zeta. destruct (Z.eqb_spec (Zlen (filter (λ i, i = id) y.2)) 0); simpl; congruence. }
  rewrite /try_stream Hn Ht. pose proof (Zlen_nonneg (filter (λ i, i = id) y.2)).
  case: Z.leb_spec => H1; [by split; [split_and!|split; [done|simpl; lia]]|]. case: Z.leb_spec => H2; [by split; [split_and!|split; [done|simpl; lia]]|].
  cbn [orb fst snd]. split; [|done]. split; [simpl; rewrite Zlen_cons; lia|]. split; [simpl; rewrite Zlen_cons; lia|].
  intros j. cbn [fst snd by_sandbox]. destruct (Hc j) as [Hcj H4j]. rewrite filter_cons. destruct (decide (id = j)) as [<-|Hne].
  - rewrite lookup_insert_eq Zlen_cons. cbv zeta. rewrite (proj2 (Z.eqb_neq _ _)); [lia|]. split; [f_equal; lia|lia].
  - rewrite lookup_insert_ne //.
Qed.

(** Guest streams are bounded.  After any openings and closings at most 32
    streams are live and at most four of one sandbox; a stream is refused only at
    one of these bounds, and closing one never panics. *)
Theorem streams_bounded es y id : steps stream_exec es (no_streams, []) = Some y →
  Zlen y.2 ≤ 32 ∧ Zlen (filter (λ i, i = id) y.2) ≤ 4 ∧
  ((try_stream id y.1).1 = true ↔ Zlen y.2 < 32 ∧ Zlen (filter (λ i, i = id) y.2) < 4) ∧
  ∀ k, y.2 !! k = Some id → is_Some (drop_stream id y.1).
Proof.
  intros Hr. assert (counted y) as Hc.
  { revert Hr. apply steps_ind; [|by split_and!]. intros e z z' _ Hz. destruct e as [i|k]; simpl.
    - pose proof (open_counted z i Hz) as [H _]. destruct (try_stream i z.1) as [b c]. by intros [= <-].
    - destruct (z.2 !! k) as [i|] eqn:Hk; [|done]. simpl. destruct (drop_counted z k i Hz Hk) as (c & -> & Hcc). by intros [= <-]. }
  pose proof Hc as (Ht & Hle & Hf). split; [done|]. split; [by apply Hf|]. split; [by apply open_counted|].
  intros k Hk. destruct (drop_counted y k id Hc Hk) as (c & -> & _). by eexists.
Qed.

(** ** Concrete runs *)
Module Example.
(** Two leases of one sandbox: one locks, the other queues, a deletion happens. *)
Definition queue : list Event := [EInvalidate 0; EUnlock 0; EDrop 0; ERelease 0; EAcquire 1].
Definition held : LifecycleLocks := default new (runs [ELease "vm"; EAcquire 0] new).
Definition final : LifecycleLocks := default new (runs (ELease "vm" :: queue) held).
Definition lease1 : LifecycleLease := default (mkLease "" 0 0 Checked) (leases final !! 1%nat).

Lemma held_runs : runs [ELease "vm"; EAcquire 0] new = Some held.
Proof. vm_compute. reflexivity. Qed.
Lemma final_runs : runs (ELease "vm" :: queue) held = Some final.
Proof. vm_compute. reflexivity. Qed.
Lemma all_runs : runs ([ELease "vm"; EAcquire 0] ++ ELease "vm" :: queue) new = Some final.
Proof. vm_compute. reflexivity. Qed.
Lemma lease1_held : leases final !! 1%nat = Some lease1 ∧ phase lease1 = Holding.
Proof. split; vm_compute; reflexivity. Qed.

Lemma lifecycle_exclusion_witness : (phase lease1 = Holding → phase lease1 = Holding → 1%nat = 1%nat) ∧
  (phase lease1 ≠ Checked → phase lease1 ≠ Checked → l_entry lease1 = l_entry lease1 ∧ inner final !! l_id lease1 = Some (l_entry lease1)).
Proof.
  apply (lifecycle_exclusion ([ELease "vm"; EAcquire 0] ++ ELease "vm" :: queue) final 1 1 lease1 lease1);
    [exact all_runs|exact (proj1 lease1_held)|exact (proj1 lease1_held)|reflexivity].
Defined.

Lemma lifecycle_identity_witness : l_id lease1 = "vm" ∧
  (identity_changed lease1 final = true ↔ 0 < invalidations "vm" queue (lease "vm" held)).
Proof.
  apply (lifecycle_identity [ELease "vm"; EAcquire 0] held "vm" queue final lease1);
    [exact held_runs|exact final_runs|exact (proj1 lease1_held)|by rewrite (proj2 lease1_held)|reflexivity].
Defined.

(** The deletion is noticed. *)
Example deletion_noticed : identity_changed lease1 final = true.
Proof. vm_compute. reflexivity. Qed.

(** Two leases that are dropped at the same time each find the other's reference:
    the entry stays in the map although nothing uses it. *)
Definition race : list Event :=
  [ELease "vm"; ELease "vm"; ECancel 0; ECancel 1; EDrop 0; EDrop 1; ERelease 0; ERelease 1].
Definition leaked : LifecycleLocks := default new (runs race new).
Example reclaim_race : runs race new = Some leaked ∧ leases leaked !! 0%nat = None ∧ leases leaked !! 1%nat = None ∧ inner leaked !! "vm" = Some 0%nat.
Proof. repeat split; vm_compute; reflexivity. Qed.

Definition open2 : list StreamEvent := [EOpen "vm"; EOpen "vm"; EClose 1].
Definition streams2 : StreamCounts * list string := default (no_streams, []) (steps stream_exec open2 (no_streams, [])).
Lemma streams_bounded_witness : Zlen streams2.2 ≤ 32 ∧ Zlen (filter (λ i, i = "vm"%string) streams2.2) ≤ 4 ∧
  ((try_stream "vm" streams2.1).1 = true ↔ Zlen streams2.2 < 32 ∧ Zlen (filter (λ i, i = "vm"%string) streams2.2) < 4) ∧
  ∀ k, streams2.2 !! k = Some "vm"%string → is_Some (drop_stream "vm" streams2.1).
Proof. apply (streams_bounded open2 streams2 "vm"). vm_compute. reflexivity. Defined.
End Example.
End Locks.
