(* ===== verification/Thermal.v ===== *)
(** Idleness: the activity tracker of [ahvm-daemon/src/thermal.rs], which decides
    when a sandbox may be paused or stopped, and the system it serves: guest
    operations with their guards, managed runs, the sweep, deletion.

    Each method runs under the tracker's mutex and is one step, its reading of the
    clock included; the mutex is never poisoned, as no method panics.  An [Instant] is
    a number of nanoseconds.  A sweep's first look at a sandbox and the write that
    follows it are two steps ([sweep_exec]). *)
From S2P Require Import Prelude Codec.

Module Thermal.

Definition DEFAULT_AGENT_IDLE_STOP_SECS : Z := 300.
Definition DEFAULT_IDLE_STOP_SECS : Z := 3600.

Record IdlePolicy := mkIdlePolicy { policy_pause : Z; policy_agent : Z; policy_idle : Z }.

Record Tracker := mkTracker {
  pause_after_secs : Z;
  agent_idle_stop_secs : Z;
  idle_stop_secs : option Z;
  last : gmap string Z;
  inflight : gmap string (Z * Z);
  managed_runs : gmap string (gmap string Z);
  managed_cooldown : gset string;
  next_generation : Z;
  retired : gset string;
  stopping : gset string;
}.

Definition new : Tracker := mkTracker 0 DEFAULT_AGENT_IDLE_STOP_SECS None ∅ ∅ ∅ ∅ 0 ∅ ∅.

Definition set_pause (s : Z) (t : Tracker) : Tracker :=
  mkTracker s (agent_idle_stop_secs t) (idle_stop_secs t) (last t) (inflight t) (managed_runs t) (managed_cooldown t)
    (next_generation t) (retired t) (stopping t).
Definition set_last (m : gmap string Z) (t : Tracker) : Tracker :=
  mkTracker (pause_after_secs t) (agent_idle_stop_secs t) (idle_stop_secs t) m (inflight t) (managed_runs t)
    (managed_cooldown t) (next_generation t) (retired t) (stopping t).
Definition set_inflight (m : gmap string (Z * Z)) (g : Z) (r : gset string) (t : Tracker) : Tracker :=
  mkTracker (pause_after_secs t) (agent_idle_stop_secs t) (idle_stop_secs t) (last t) m (managed_runs t)
    (managed_cooldown t) g r (stopping t).
Definition set_runs (m : gmap string (gmap string Z)) (t : Tracker) : Tracker :=
  mkTracker (pause_after_secs t) (agent_idle_stop_secs t) (idle_stop_secs t) (last t) (inflight t) m
    (managed_cooldown t) (next_generation t) (retired t) (stopping t).
Definition set_cooldown (c : gset string) (t : Tracker) : Tracker :=
  mkTracker (pause_after_secs t) (agent_idle_stop_secs t) (idle_stop_secs t) (last t) (inflight t) (managed_runs t)
    c (next_generation t) (retired t) (stopping t).
Definition set_stopping (s : gset string) (t : Tracker) : Tracker :=
  mkTracker (pause_after_secs t) (agent_idle_stop_secs t) (idle_stop_secs t) (last t) (inflight t) (managed_runs t)
    (managed_cooldown t) (next_generation t) (retired t) s.

Definition idle_policy (t : Tracker) : IdlePolicy :=
  mkIdlePolicy (pause_after_secs t) (agent_idle_stop_secs t) (default DEFAULT_IDLE_STOP_SECS (idle_stop_secs t)).
Definition set_idle_policy (p : IdlePolicy) (t : Tracker) : Tracker :=
  mkTracker (policy_pause p) (policy_agent p) (Some (policy_idle p)) (last t) (inflight t) (managed_runs t)
    (managed_cooldown t) (next_generation t) (retired t) (stopping t).

(** *** Managed runs *)
Definition set_managed_run (id run_id : string) (ep now : Z) (t : Tracker) : bool * Tracker :=
  if decide (id ∈ stopping t) then (false, t)
  else
    let t := set_runs (<[id := <[run_id := ep]> (default ∅ (managed_runs t !! id))]> (managed_runs t)) t in
    (true, set_last (<[id := now]> (last t)) t).

Definition cooldown_at (id : string) (finished_at : Z) (t : Tracker) : Tracker :=
  let t := set_cooldown ({[id]} ∪ managed_cooldown t) t in
  set_last (<[id := match last t !! id with Some l => Z.max l finished_at | None => finished_at end]> (last t)) t.

Definition finish_managed_run (id run_id : string) (ep finished_at : Z) (t : Tracker) : bool * Tracker :=
  match managed_runs t !! id with
  | Some runs =>
      if decide (runs !! run_id = Some ep) then
        let runs := delete run_id runs in
        if decide (runs = ∅) then
          (true, cooldown_at id finished_at (set_runs (delete id (managed_runs t)) t))
        else (true, set_runs (<[id := runs]> (managed_runs t)) t)
      else (false, t)
  | None => (false, t)
  end.

Definition restore_managed_cooldown (id : string) (finished_at : Z) (t : Tracker) : bool * Tracker :=
  if decide (id ∈ stopping t ∨ is_Some (managed_runs t !! id)) then (false, t)
  else (true, cooldown_at id finished_at t).

Definition has_managed_run (id : string) (t : Tracker) : bool := bool_decide (is_Some (managed_runs t !! id)).

Definition effective_idle_secs (id : string) (dflt : Z) (t : Tracker) : Z :=
  if decide (id ∈ managed_cooldown t) then agent_idle_stop_secs t else default dflt (idle_stop_secs t).

(** *** Activity *)
Definition touch_at (id : string) (at_ : Z) (t : Tracker) : Tracker :=
  if decide (id ∈ retired t) then t else set_last (<[id := at_]> (last t)) t.

Definition remove (id : string) (t : Tracker) : Tracker :=
  let t := set_last (delete id (last t)) t in
  let t := if decide (is_Some (inflight t !! id))
           then set_inflight (inflight t) (next_generation t) ({[id]} ∪ retired t) t else t in
  let t := set_runs (delete id (managed_runs t)) t in
  let t := set_cooldown (managed_cooldown t ∖ {[id]}) t in
  set_stopping (stopping t ∖ {[id]}) t.

(** The guard of [begin] is the id with its generation. *)
Definition begin (id : string) (t : Tracker) : option (string * Z) * Tracker :=
  if decide (id ∈ stopping t ∨ id ∈ retired t) then (None, t)
  else
    let next := (next_generation t + 1) mod 2 ^ 64 in
    let '(generation, count) := default (next, 0) (inflight t !! id) in
    (Some (id, generation), set_inflight (<[id := (generation, count + 1)]> (inflight t)) next (retired t) t).

(** [InFlight::drop] at the time [now] *)
Definition drop_inflight (g : string * Z) (now : Z) (t : Tracker) : Tracker :=
  match inflight t !! g.1 with
  | None => t
  | Some (generation, n) =>
      if negb (generation =? g.2) then t
      else
        let n := Z.max 0 (n - 1) in
        let m := if n =? 0 then delete g.1 (inflight t) else <[g.1 := (generation, n)]> (inflight t) in
        let t := set_inflight m (next_generation t) (retired t) t in
        if decide (g.1 ∈ retired t) then
          (if decide (is_Some (inflight t !! g.1)) then t
           else set_inflight (inflight t) (next_generation t) (retired t ∖ {[g.1]}) t)
        else set_last (<[g.1 := now]> (last t)) t
  end.

(** *** Idle transitions *)
(** [now.duration_since(t).as_secs()] *)
Definition secs_since (t now : Z) : Z := Z.max 0 (now - t) / 1000000000.

Definition in_flight (id : string) (t : Tracker) : bool :=
  has_managed_run id t || (0 <? default 0 (snd <$> inflight t !! id)).

Definition begin_idle_transition (id : string) (now secs : Z) (pause : bool) (t : Tracker) : bool * Tracker :=
  if pause && ((secs =? 0) || negb (pause_after_secs t =? secs)) then (false, t)
  else if decide (id ∈ stopping t) then (false, t)
  else if in_flight id t then (false, t)
  else
    let secs := if pause then secs else effective_idle_secs id secs t in
    match last t !! id with
    | Some l => if secs_since l now <=? secs then (false, t)
                else (true, set_stopping ({[id]} ∪ stopping t) t)
    | None => (false, t)
    end.
Definition begin_stop_if_idle (id : string) (now secs : Z) : Tracker → bool * Tracker := begin_idle_transition id now secs false.
Definition begin_pause_if_idle (id : string) (now secs : Z) : Tracker → bool * Tracker := begin_idle_transition id now secs true.

(** [StopGuard::drop] *)
Definition drop_stop (id : string) (t : Tracker) : Tracker := set_stopping (stopping t ∖ {[id]}) t.

(** ** The system around the tracker

    [guards] are the live [InFlight] guards, [stops] the ids of the live
    [StopGuard]s; [now] is the monotonic clock.  Deletion and the sweep hold the
    lifecycle lock of the sandbox, so no deletion happens under a stop guard. *)
Record Sys := mkSys { now : Z; tracker : Tracker; guards : list (string * Z); stops : list string }.

Inductive Event :=
| EClock (d : Z)
| ETouch (id : string)
| EFirstSight (id : string) (at_ : Z)
| EBegin (id : string)
| EEnd (k : nat)
| ESetRun (id run_id : string) (ep : Z)
| EFinish (id run_id : string) (ep at_ : Z)
| ERestore (id : string) (at_ : Z)
| ERemove (id : string)
| ETransition (id : string) (at_ secs : Z) (pause : bool)
| EStopEnd (k : nat)
| EPause (s : Z)
| EPolicy (p : IdlePolicy).

Definition with_tracker (t : Tracker) (y : Sys) : Sys := mkSys (now y) t (guards y) (stops y).

(** One step; [None] where the event cannot happen. *)
Definition exec (e : Event) (y : Sys) : option Sys :=
  let t := tracker y in
  match e with
  | EClock d => if decide (0 ≤ d) then Some (mkSys (now y + d) t (guards y) (stops y)) else None
  | ETouch id => Some (with_tracker (touch_at id (now y) t) y)
  | EFirstSight id at_ => if decide (at_ ≤ now y) then Some (with_tracker (touch_at id at_ t) y) else None
  | EBegin id =>
      match begin id t with
      | (Some g, t) => Some (mkSys (now y) t (g :: guards y) (stops y))
      | (None, t) => Some (with_tracker t y)
      end
  | EEnd k =>
      g ← guards y !! k; Some (mkSys (now y) (drop_inflight g (now y) t) (delete k (guards y)) (stops y))
  | ESetRun id run_id ep => Some (with_tracker (set_managed_run id run_id ep (now y) t).2 y)
  | EFinish id run_id ep at_ =>
      if decide (at_ ≤ now y) then Some (with_tracker (finish_managed_run id run_id ep at_ t).2 y) else None
  | ERestore id at_ => if decide (at_ ≤ now y) then Some (with_tracker (restore_managed_cooldown id at_ t).2 y) else None
  | ERemove id => if decide (id ∈ stops y) then None else Some (with_tracker (remove id t) y)
  | ETransition id at_ secs pause =>
      if decide (at_ ≤ now y) then
        match begin_idle_transition id at_ secs pause t with
        | (true, t) => Some (mkSys (now y) t (guards y) (id :: stops y))
        | (false, t) => Some (with_tracker t y)
        end
      else None
  | EStopEnd k => id ← stops y !! k; Some (mkSys (now y) (drop_stop id t) (guards y) (delete k (stops y)))
  | EPause s => Some (with_tracker (set_pause s t) y)
  | EPolicy p => Some (with_tracker (set_idle_policy p t) y)
  end.

Abbreviation runs := (steps exec).
Definition start : Sys := mkSys 0 new [] [].

(** ** The invariant *)
Definition held (id : string) (y : Sys) : Z := Zlen (filter (λ g, g.1 = id) (guards y)).

Record wf (y : Sys) : Prop := {
  (* every live guard is counted, under the generation of its entry *)
  wf_count id : held id y = default 0 (snd <$> inflight (tracker y) !! id);
  wf_gen g : g ∈ guards y → fst <$> inflight (tracker y) !! g.1 = Some g.2;
  wf_entry id e : inflight (tracker y) !! id = Some e → 0 < e.2;
  (* the committed transitions are the live stop guards *)
  wf_stops : NoDup (stops y) ∧ ∀ id, id ∈ stopping (tracker y) ↔ id ∈ stops y;
  (* they exclude guest work *)
  wf_quiet id : id ∈ stopping (tracker y) → inflight (tracker y) !! id = None ∧ managed_runs (tracker y) !! id = None;
  (* a deleted name is held only by its old guards *)
  wf_retired id : id ∈ retired (tracker y) → is_Some (inflight (tracker y) !! id);
  wf_runs id m : managed_runs (tracker y) !! id = Some m → m ≠ ∅;
}.

Lemma held_cons g id y n t s : held id (mkSys n t (g :: guards y) s) = (if decide (g.1 = id) then 1 else 0) + held id y.
Proof. rewrite /held /= filter_cons. case_decide; rewrite ?Zlen_cons; lia. Qed.

Lemma holds_delete k g id y n t s : guards y !! k = Some g →
  held id (mkSys n t (delete k (guards y)) s) = held id y - (if decide (g.1 = id) then 1 else 0).
Proof.
  intros Hk. rewrite /held /= -{2}(take_drop_middle (guards y) k g Hk) delete_take_drop !filter_app filter_cons !Zlen_app.
  case_decide; rewrite ?Zlen_cons; lia.
Qed.

Lemma elem_of_delete {A} (l : list A) k x : x ∈ delete k l → x ∈ l.
Proof. intros H. eapply elem_of_submseteq; [exact H|]. apply sublist_submseteq, sublist_delete. Qed.

Definition same_holds (t t' : Tracker) : Prop :=
  inflight t' = inflight t ∧ managed_runs t' = managed_runs t ∧ retired t' = retired t ∧ stopping t' = stopping t.

Lemma wf_same y n t : wf y → same_holds (tracker y) t → wf (mkSys n t (guards y) (stops y)).
Proof. intros [] (E1 & E2 & E3 & E4). split; cbn [tracker guards stops]; rewrite ?E1 ?E2 ?E3 ?E4 //. Qed.

Lemma touch_holds id at_ t : same_holds t (touch_at id at_ t).
Proof. rewrite /touch_at. by case_decide. Qed.

Lemma wf_runs_step y t : wf y → inflight t = inflight (tracker y) → retired t = retired (tracker y) → stopping t = stopping (tracker y) →
  (∀ id m, managed_runs t !! id = Some m → m ≠ ∅ ∧ (id ∈ stopping (tracker y) → is_Some (managed_runs (tracker y) !! id))) →
  wf (with_tracker t y).
Proof.
  intros [] E1 E3 E4 Hm. split; cbn [with_tracker tracker guards stops]; rewrite ?E1 ?E3 ?E4 //.
  - intros id Hs. destruct (wf_quiet0 id Hs) as [? Hq]. split; [done|]. destruct (managed_runs t !! id) as [m|] eqn:E; [|done].
    destruct (Hm id m E) as [_ [x Hx]]; [done|congruence].
  - intros id m H. exact (proj1 (Hm id m H)).
Qed.

Lemma wf_set_run y id run_id ep n : wf y → wf (with_tracker (set_managed_run id run_id ep n (tracker y)).2 y).
Proof.
  intros Hw. rewrite /set_managed_run. case_decide as Hs; [by destruct y|]. cbn [snd]. apply wf_runs_step; try done.
  intros i m. cbn [managed_runs set_runs set_last]. destruct (decide (i = id)) as [->|Hne].
  - rewrite lookup_insert_eq. intros [= <-]. split; [apply insert_non_empty|done].
  - rewrite lookup_insert_ne //. intros Hi. split; [by eapply wf_runs|by exists m].
Qed.

Lemma wf_finish y id run_id ep n : wf y → wf (with_tracker (finish_managed_run id run_id ep n (tracker y)).2 y).
Proof.
  intros Hw. rewrite /finish_managed_run. destruct (managed_runs (tracker y) !! id) as [m|] eqn:Hm; [|by destruct y].
  case_decide as Hr; [|by destruct y]. case_decide as He; cbn [snd]; apply wf_runs_step; try done;
    intros i m'; cbn [managed_runs set_runs set_last set_cooldown cooldown_at]; (destruct (decide (i = id)) as [->|Hne];
    [rewrite ?lookup_delete_eq ?lookup_insert_eq|rewrite ?lookup_delete_ne ?lookup_insert_ne //]); try done.
  - intros Hi. split; [by eapply wf_runs|by exists m'].
  - intros [= <-]. split; [done|by exists m].
  - intros Hi. split; [by eapply wf_runs|by exists m'].
Qed.

Lemma wf_restore y id n : wf y → wf (with_tracker (restore_managed_cooldown id n (tracker y)).2 y).
Proof.
  intros Hw. rewrite /restore_managed_cooldown. case_decide; [by destruct y|]. by apply (wf_same y (now y)).
Qed.

Lemma wf_remove y id : wf y → id ∉ stops y → wf (with_tracker (remove id (tracker y)) y).
Proof.
  intros [] Hs. assert (id ∉ stopping (tracker y)) as Hs' by (by rewrite (proj2 wf_stops0)).
  assert (stopping (tracker y) ∖ {[id]} = stopping (tracker y)) as Es by set_solver.
  assert (inflight (remove id (tracker y)) = inflight (tracker y)) as E1 by (rewrite /remove; by case_decide).
  assert (managed_runs (remove id (tracker y)) = delete id (managed_runs (tracker y))) as E2 by (rewrite /remove; by case_decide).
  assert (stopping (remove id (tracker y)) = stopping (tracker y)) as E4 by (rewrite /remove; by case_decide).
  split; cbn [with_tracker tracker guards stops]; rewrite ?E1 ?E2 ?E4 //.
  - intros i Hi. destruct (wf_quiet0 i Hi). split; [done|]. by apply lookup_delete_None; right.
  - intros i. rewrite /remove. case_decide; cbn [retired set_last set_inflight set_runs set_cooldown set_stopping]; set_solver.
  - intros i m [_ Hi]%lookup_delete_Some. by eapply wf_runs0.
Qed.

Lemma wf_begin y id : wf y → match begin id (tracker y) with
  | (Some g, t) => wf (mkSys (now y) t (g :: guards y) (stops y))
  | (None, t) => wf (with_tracker t y) end.
Proof.
  intros []. rewrite /begin. case_decide as Hd; [by destruct y|]. apply Decidable.not_or in Hd as [Hs Hr].
  set (next := (next_generation _ + 1) mod _). destruct (default (next, 0) (inflight (tracker y) !! id)) as [gen n] eqn:He.
  assert (n = default 0 (snd <$> inflight (tracker y) !! id)) as Hn.
  { destruct (inflight (tracker y) !! id) as [[a b]|]; simpl in *; congruence. }
  assert (0 ≤ n) as Hn0 by (rewrite Hn -wf_count0; apply Zlen_nonneg).
  split; cbn [tracker guards stops inflight managed_runs retired stopping set_inflight]; try done.
  - intros i. rewrite held_cons wf_count0 /=. destruct (decide (id = i)) as [<-|Hne].
    + rewrite lookup_insert_eq /= -Hn. lia.
    + by rewrite lookup_insert_ne.
  - intros g [->|Hg]%elem_of_cons; [by rewrite lookup_insert_eq|]. destruct (decide (g.1 = id)) as [<-|Hne].
    + rewrite lookup_insert_eq /=. specialize (wf_gen0 g Hg). destruct (inflight (tracker y) !! g.1) as [[a b]|]; simpl in *; congruence.
    + rewrite lookup_insert_ne //. by apply wf_gen0.
  - intros i e. destruct (decide (i = id)) as [->|Hne]; [rewrite lookup_insert_eq; intros [= <-]; simpl; lia|].
    rewrite lookup_insert_ne //. apply wf_entry0.
  - intros i Hi. destruct (wf_quiet0 i Hi). split; [|done]. rewrite lookup_insert_ne //. set_solver.
  - intros i Hi. destruct (decide (i = id)) as [->|Hne]; [by rewrite lookup_insert_eq|]. rewrite lookup_insert_ne //. by apply wf_retired0.
Qed.

Lemma wf_end y k g : wf y → guards y !! k = Some g →
  wf (mkSys (now y) (drop_inflight g (now y) (tracker y)) (delete k (guards y)) (stops y)).
Proof.
  intros [] Hk. pose proof (list_elem_of_lookup_2 _ _ _ Hk) as Hg. pose proof (wf_gen0 g Hg) as Hgen.
  destruct (inflight (tracker y) !! g.1) as [[gen n]|] eqn:He; [|done]. simpl in Hgen. injection Hgen as ->.
  pose proof (wf_count0 g.1) as Hcnt. rewrite He /= in Hcnt. pose proof (wf_entry0 _ _ He) as Hpos. simpl in Hpos.
  set (t' := drop_inflight g (now y) (tracker y)).
  assert (inflight t' = (if n - 1 =? 0 then delete g.1 (inflight (tracker y)) else <[g.1 := (g.2, n - 1)]> (inflight (tracker y))) ∧
    managed_runs t' = managed_runs (tracker y) ∧ stopping t' = stopping (tracker y) ∧
    retired t' = if decide (g.1 ∈ retired (tracker y) ∧ n - 1 = 0) then retired (tracker y) ∖ {[g.1]} else retired (tracker y)) as (E1 & E2 & E4 & E3).
  { rewrite /t' /drop_inflight He Z.eqb_refl /= Z.max_r; [lia|]. cbn [retired set_inflight inflight].
    destruct (Z.eqb_spec (n - 1) 0) as [Hz|Hz]; case_decide as Hr; cbn [inflight set_inflight set_last].
    - rewrite decide_False; [by rewrite lookup_delete_eq; intros []|]. by rewrite decide_True.
    - rewrite decide_False //. by intros [].
    - rewrite decide_True; [by rewrite lookup_insert_eq|]. rewrite decide_False //. by intros [].
    - rewrite decide_False //. by intros []. }
  clearbody t'. split; cbn [tracker guards stops]; rewrite ?E1 ?E2 ?E4 //.
  - intros i. rewrite (holds_delete k g) // wf_count0. destruct (decide (g.1 = i)) as [<-|Hne].
    + rewrite He /=. destruct (Z.eqb_spec (n - 1) 0); [rewrite lookup_delete_eq|rewrite lookup_insert_eq]; simpl; lia.
    + rewrite Z.sub_0_r. destruct (n - 1 =? 0); by rewrite ?lookup_delete_ne ?lookup_insert_ne.
  - intros g' Hg'. destruct (Z.eqb_spec (n - 1) 0) as [Hz|Hz].
    + destruct (decide (g'.1 = g.1)) as [Heq|Hne]; [|rewrite lookup_delete_ne //; apply wf_gen0; by eapply elem_of_delete].
      exfalso. pose proof (holds_delete k g g.1 y 0 (tracker y) [] Hk) as Hh. rewrite decide_True // in Hh.
      assert (g' ∈ filter (λ x, x.1 = g.1) (delete k (guards y))) as Hin by (by apply list_elem_of_filter).
      rewrite /held in Hh Hcnt. cbn [guards] in Hh. apply list_elem_of_split in Hin as (l1 & l2 & Hl). rewrite Hl Zlen_app Zlen_cons in Hh.
      pose proof (Zlen_nonneg l1). pose proof (Zlen_nonneg l2). lia.
    + apply elem_of_delete in Hg'. pose proof (wf_gen0 g' Hg') as Hgen'. destruct (decide (g'.1 = g.1)) as [Heq|Hne]; [|by rewrite lookup_insert_ne].
      rewrite Heq lookup_insert_eq /=. by rewrite Heq He in Hgen'.
  - intros i e. destruct (Z.eqb_spec (n - 1) 0) as [Hz|Hz].
    + intros [_ Hi]%lookup_delete_Some. by eapply wf_entry0.
    + intros [[<- <-]|[_ Hi]]%lookup_insert_Some; [simpl; lia|by eapply wf_entry0].
  - intros i Hi. destruct (wf_quiet0 i Hi) as [Hi1 Hi2]. split; [|done]. assert (i ≠ g.1) by congruence.
    destruct (n - 1 =? 0); by rewrite ?lookup_delete_ne ?lookup_insert_ne.
  - rewrite E3. intros i Hi. destruct (Z.eqb_spec (n - 1) 0) as [Hz|Hz].
    + case_decide as Hd.
      * apply elem_of_difference in Hi as [Hi Hn]. rewrite lookup_delete_ne; [set_solver|]. by apply wf_retired0.
      * rewrite lookup_delete_ne; [by intros <-; apply Hd|]. by apply wf_retired0.
    + rewrite decide_False in Hi; [by intros []|]. destruct (decide (i = g.1)) as [->|Hne]; [by rewrite lookup_insert_eq|].
      rewrite lookup_insert_ne //. by apply wf_retired0.
Qed.

(** *** Transitions *)
(** The idle time that a transition must exceed. *)
Definition threshold (id : string) (secs : Z) (pause : bool) (t : Tracker) : Z :=
  if pause then secs else effective_idle_secs id secs t.

Lemma idle_transition_spec id n secs pause t : match begin_idle_transition id n secs pause t with
  | (true, t') => t' = set_stopping ({[id]} ∪ stopping t) t ∧ id ∉ stopping t ∧ in_flight id t = false ∧
      ∃ l, last t !! id = Some l ∧ threshold id secs pause t < secs_since l n
  | (false, t') => t' = t
  end.
Proof.
  rewrite /begin_idle_transition. destruct (pause && _); [done|]. case_decide as Hs; [done|].
  destruct (in_flight id t) eqn:Hf; [done|]. cbv zeta. destruct (last t !! id) as [l|] eqn:Hl; [|done].
  rewrite -/(threshold id secs pause t). case: Z.leb_spec => H; [done|]. by split_and!; [..|exists l].
Qed.

Lemma held_pos id y : 0 < held id y ↔ ∃ g, g ∈ guards y ∧ g.1 = id.
Proof.
  rewrite /held. split.
  - intros H. destruct (filter _ _) as [|g l] eqn:E; [done|]. exists g.
    assert (g ∈ filter (λ g, g.1 = id) (guards y)) as Hg by (rewrite E; left). apply list_elem_of_filter in Hg as [? ?]. done.
  - intros (g & Hg & Hi). assert (g ∈ filter (λ g, g.1 = id) (guards y)) as Hf by (by apply list_elem_of_filter).
    destruct (filter _ _) as [|g' l]; [by apply not_elem_of_nil in Hf|]. rewrite Zlen_cons. pose proof (Zlen_nonneg l). lia.
Qed.

Lemma in_flight_spec id y : wf y →
  in_flight id (tracker y) = true ↔ (∃ g, g ∈ guards y ∧ g.1 = id) ∨ has_managed_run id (tracker y) = true.
Proof. intros []. rewrite /in_flight orb_true_iff Z.ltb_lt -wf_count0 held_pos. tauto. Qed.

Lemma wf_transition y id n secs pause : wf y → match begin_idle_transition id n secs pause (tracker y) with
  | (true, t) => wf (mkSys (now y) t (guards y) (id :: stops y))
  | (false, t) => wf (with_tracker t y) end.
Proof.
  intros Hw. pose proof (idle_transition_spec id n secs pause (tracker y)) as Hs.
  destruct (begin_idle_transition _ _ _ _ _) as [[] t]; [|subst; by destruct y].
  destruct Hs as (-> & Hns & Hf & _). pose proof (in_flight_spec id y Hw) as Hif. destruct Hw as [].
  destruct wf_stops0 as [Hnd Hst]. split; cbn [tracker guards stops inflight managed_runs retired stopping set_stopping]; try done.
  - split; [constructor; [by rewrite -Hst|done]|]. intros i. rewrite elem_of_union elem_of_singleton elem_of_cons Hst. done.
  - intros i [->%elem_of_singleton|Hi]%elem_of_union; [|by apply wf_quiet0].
    rewrite /in_flight orb_false_iff in Hf. destruct Hf as [Hm Hc]. split.
    + destruct (inflight (tracker y) !! id) as [e|] eqn:He; [|done]. specialize (wf_entry0 _ _ He). simpl in Hc. by apply Z.ltb_ge in Hc; lia.
    + rewrite /has_managed_run bool_decide_eq_false in Hm. by apply eq_None_not_Some.
Qed.

Lemma wf_stop_end y k id : wf y → stops y !! k = Some id →
  wf (mkSys (now y) (drop_stop id (tracker y)) (guards y) (delete k (stops y))).
Proof.
  intros [] Hk. destruct wf_stops0 as [Hnd Hst]. split; cbn [tracker guards stops inflight managed_runs retired stopping drop_stop set_stopping]; try done.
  - rewrite -(take_drop_middle _ _ _ Hk) in Hnd. rewrite delete_take_drop. apply NoDup_app in Hnd as (N1 & N2 & N3).
    apply NoDup_cons in N3 as [N3 N4]. split.
    + apply NoDup_app. split_and!; try done. intros x Hx Hx'. eapply N2; [exact Hx|by right].
    + intros i. rewrite elem_of_difference elem_of_singleton Hst -{1}(take_drop_middle _ _ _ Hk) !elem_of_app elem_of_cons. split.
      * intros [[?|[->|?]] ?]; auto; done.
      * intros [Hi|Hi]; (split; [auto|]); intros ->; [by eapply N2; [exact Hi|left]|done].
  - intros i Hi. apply wf_quiet0. set_solver.
Qed.

Lemma tracker_exec_wf e y y' : wf y → exec e y = Some y' → wf y'.
Proof.
  intros Hw. destruct e; simpl; try case_decide; try done.
  - intros [= <-]. by apply wf_same.
  - intros [= <-]. apply (wf_same y (now y)); [done|apply touch_holds].
  - intros [= <-]. apply (wf_same y (now y)); [done|apply touch_holds].
  - pose proof (wf_begin y id Hw) as H. destruct (begin _ _) as [[g|] t]; intros [= <-]; exact H.
  - destruct (guards y !! k) as [g|] eqn:Hk; [|done]. intros [= <-]. by apply wf_end.
  - intros [= <-]. by apply wf_set_run.
  - intros [= <-]. by apply wf_finish.
  - intros [= <-]. by apply wf_restore.
  - intros [= <-]. by apply wf_remove.
  - pose proof (wf_transition y id at_ secs pause Hw) as H'. destruct (begin_idle_transition _ _ _ _ _) as [[] t]; intros [= <-]; exact H'.
  - destruct (stops y !! k) as [g|] eqn:Hk; [|done]. intros [= <-]. by apply wf_stop_end.
  - intros [= <-]. by apply (wf_same y (now y)).
  - intros [= <-]. by apply (wf_same y (now y)).
Qed.

Lemma start_wf : wf start.
Proof. by split; try split; try constructor; intros; set_solver. Qed.

Lemma tracker_runs_wf es y y' : wf y → runs es y = Some y' → wf y'.
Proof. intros Hw. apply steps_ind; [|done]. intros e z z' _. apply tracker_exec_wf. Qed.

(** *** Recent activity *)
(** The last activity of [id] is not before [t]. *)
Definition recent (id : string) (t : Z) (y : Sys) : Prop := t ≤ now y ∧ ∃ l, last (tracker y) !! id = Some l ∧ t ≤ l.
(** Events after which activity at [t] may not be on record: the deletion of the
    sandbox, and a first sight that a sweep dates before [t]. *)
Definition keeps (id : string) (t : Z) (e : Event) : Prop :=
  match e with ERemove i => i ≠ id | EFirstSight i at_ => i = id → t ≤ at_ | _ => True end.

Lemma recent_insert id t y n tr i l g s : recent id t y → now y ≤ n → last tr = <[i := l]> (last (tracker y)) → (i = id → t ≤ l) →
  recent id t (mkSys n tr g s).
Proof.
  intros (Hn & l0 & Hl & Ht) Hle E Hi. split; [simpl; lia|]. cbn [tracker]. rewrite E. destruct (decide (i = id)) as [->|Hne].
  - exists l. rewrite lookup_insert_eq. auto.
  - exists l0. by rewrite lookup_insert_ne.
Qed.

Lemma recent_same id t y n tr g s : recent id t y → now y ≤ n → last tr = last (tracker y) → recent id t (mkSys n tr g s).
Proof. intros (Hn & l0 & Hl & Ht) Hle E. split; [simpl; lia|]. exists l0. cbn [tracker]. by rewrite E. Qed.

Lemma recent_cooldown id t y i at_ tr : recent id t y → last tr = last (tracker y) → recent id t (with_tracker (cooldown_at i at_ tr) y).
Proof.
  intros Hr E. pose proof Hr as (Hn & l0 & Hl & Ht).
  eapply (recent_insert id t y (now y) _ i); [done|done|by rewrite /cooldown_at /= E|]. intros ->. rewrite Hl. lia.
Qed.

Lemma exec_recent id t e y y' : recent id t y → keeps id t e → exec e y = Some y' → recent id t y'.
Proof.
  intros Hr Hk. assert (recent id t (with_tracker (tracker y) y)) as Hid by (by eapply (recent_same _ _ y)).
  pose proof Hr as (Hn & l0 & Hl & Ht). destruct e as [d|i|i a|i|k|i r ep|i r ep a|i a|i|i a sc pa|k|sc|p]; simpl in *; try case_decide; try done.
  - intros [= <-]. eapply (recent_same _ _ y); [done|lia|done].
  - intros [= <-]. rewrite /touch_at. case_decide; [done|]. by eapply (recent_insert _ _ y).
  - intros [= <-]. rewrite /touch_at. case_decide; [done|]. by eapply (recent_insert _ _ y).
  - rewrite /begin. case_decide; [by intros [= <-]|]. destruct (default _ _) as [gen n]. intros [= <-]. by eapply (recent_same _ _ y).
  - destruct (guards y !! k) as [g|]; [|done]. intros [= <-]. rewrite /drop_inflight.
    destruct (inflight (tracker y) !! g.1) as [[gen n]|]; [|by eapply (recent_same _ _ y)]. destruct (negb _); [by eapply (recent_same _ _ y)|].
    cbv zeta. cbn [retired set_inflight]. case_decide; [case_decide; by eapply (recent_same _ _ y)|]. by eapply (recent_insert _ _ y).
  - intros [= <-]. rewrite /set_managed_run. case_decide; [done|]. by eapply (recent_insert _ _ y).
  - intros [= <-]. rewrite /finish_managed_run. destruct (managed_runs (tracker y) !! i) as [m|]; [|done].
    case_decide; [|done]. case_decide; [by apply recent_cooldown|by eapply (recent_same _ _ y)].
  - intros [= <-]. rewrite /restore_managed_cooldown. case_decide; [done|]. by apply recent_cooldown.
  - intros [= <-]. split; [done|]. exists l0. split; [|done]. rewrite -Hl /remove. case_decide; cbn [with_tracker tracker last set_last set_inflight set_runs set_cooldown set_stopping];
      by rewrite lookup_delete_ne.
  - pose proof (idle_transition_spec i a sc pa (tracker y)) as Hs.
    destruct (begin_idle_transition _ _ _ _ _) as [[] tr]; [destruct Hs as (-> & _)|subst]; intros [= <-]; by eapply (recent_same _ _ y).
  - destruct (stops y !! k); [|done]. intros [= <-]. by eapply (recent_same _ _ y).
  - intros [= <-]. by eapply (recent_same _ _ y).
  - intros [= <-]. by eapply (recent_same _ _ y).
Qed.

(** Guest work on [id] that leaves a trace: a touch, the end of an operation, the
    start of a managed run. *)
Definition active (id : string) (e : Event) (y : Sys) : Prop :=
  match e with
  | ETouch i => i = id ∧ id ∉ retired (tracker y)
  | EEnd k => fst <$> guards y !! k = Some id ∧ id ∉ retired (tracker y)
  | ESetRun i _ _ => i = id ∧ id ∉ stopping (tracker y)
  | _ => False
  end.

Lemma active_recent id e y y' : wf y → active id e y → exec e y = Some y' → recent id (now y) y'.
Proof.
  intros [] Ha. destruct e; try done; simpl in *.
  - destruct Ha as [-> Hr]. intros [= <-]. split; [done|]. exists (now y). rewrite /touch_at decide_False //=. by rewrite lookup_insert_eq.
  - destruct Ha as [Hg Hr]. destruct (guards y !! k) as [g|] eqn:Hk; [|done]. simpl in Hg. injection Hg as Hg. intros [= <-].
    split; [done|]. exists (now y). split; [|done]. cbn [tracker]. rewrite /drop_inflight.
    pose proof (wf_gen0 g (list_elem_of_lookup_2 _ _ _ Hk)) as Hgen. destruct (inflight (tracker y) !! g.1) as [[gen n]|]; [|done].
    simpl in Hgen. injection Hgen as ->. rewrite Z.eqb_refl /= Hg decide_False //=. by rewrite lookup_insert_eq.
  - destruct Ha as [-> Hs]. intros [= <-]. split; [done|]. exists (now y). rewrite /set_managed_run decide_False //=. by rewrite lookup_insert_eq.
Qed.

(** ** Properties *)

(** C35: exclusion.  In every reachable state a sandbox with a committed pause or
    stop has no guest operation and no managed run, and none is admitted; the
    tracker reports a sandbox busy exactly when one of its guards or managed runs
    is live, and a deleted name stays refused only while an old guard is live. *)
Theorem thermal_exclusion es y id : runs es start = Some y →
  (id ∈ stops y →
     (∀ g, g ∈ guards y → g.1 ≠ id) ∧ has_managed_run id (tracker y) = false ∧
     (begin id (tracker y)).1 = None ∧ (∀ r ep n, (set_managed_run id r ep n (tracker y)).1 = false) ∧
     (∀ n secs pause, (begin_idle_transition id n secs pause (tracker y)).1 = false)) ∧
  (in_flight id (tracker y) = true ↔ (∃ g, g ∈ guards y ∧ g.1 = id) ∨ has_managed_run id (tracker y) = true) ∧
  ((begin id (tracker y)).1 = None ↔ id ∈ stops y ∨ id ∈ retired (tracker y)) ∧
  (id ∈ retired (tracker y) → ∃ g, g ∈ guards y ∧ g.1 = id).
Proof.
  intros Hr. pose proof (tracker_runs_wf _ _ _ start_wf Hr) as Hw. pose proof (in_flight_spec id y Hw) as Hif.
  destruct Hw as []. destruct wf_stops0 as [_ Hst]. rewrite -Hst.
  assert ((begin id (tracker y)).1 = None ↔ id ∈ stopping (tracker y) ∨ id ∈ retired (tracker y)) as Hb.
  { rewrite /begin. case_decide as Hd; [done|]. destruct (default _ _). done. }
  split_and!; [|done|done|].
  - intros Hs. destruct (wf_quiet0 id Hs) as [Hi Hm]. split_and!.
    + intros g Hg Heq. specialize (wf_gen0 g Hg). by rewrite Heq Hi in wf_gen0.
    + rewrite /has_managed_run Hm. by apply bool_decide_eq_false; intros [].
    + apply Hb. by left.
    + intros. by rewrite /set_managed_run decide_True.
    + intros. rewrite /begin_idle_transition. destruct (pause && _); [done|]. by rewrite decide_True.
  - intros Hre. destruct (wf_retired0 id Hre) as [e He]. apply held_pos. rewrite wf_count0 He. by eapply wf_entry0.
Qed.

(** *** The first sight of a sandbox

    A sweep reads the clock when it starts, looks at the sandboxes one after the
    other, and when one has no activity on record writes its own time down: a look,
    and later the write, with anything in between. *)
Record Swept := mkSwept { sys : Sys; looks : list (string * Z) }.
Inductive SweepEvent :=
| SOwn (e : Event)
| SLook (id : string) (at_ : Z)
| SSight (k : nat).
#[export] Instance IdlePolicy_eq_dec : EqDecision IdlePolicy.
Proof. solve_decision. Defined.
#[export] Instance Event_eq_dec : EqDecision Event.
Proof. solve_decision. Defined.
#[export] Instance SweepEvent_eq_dec : EqDecision SweepEvent.
Proof. solve_decision. Defined.

Definition sweep_exec (e : SweepEvent) (y : Swept) : option Swept :=
  match e with
  | SOwn (EFirstSight _ _) => None
  | SOwn e => s ← exec e (sys y); Some (mkSwept s (looks y))
  | SLook id at_ =>
      if decide (at_ ≤ now (sys y)) then
        match last (tracker (sys y)) !! id with
        | Some _ => Some y
        | None => Some (mkSwept (sys y) ((id, at_) :: looks y))
        end
      else None
  | SSight k =>
      '(id, at_) ← looks y !! k;
      s ← exec (EFirstSight id at_) (sys y);
      Some (mkSwept s (delete k (looks y)))
  end.
Abbreviation swept := (steps sweep_exec).
Definition sweep_start : Swept := mkSwept start [].

Lemma own_exec e y y' : sweep_exec (SOwn e) y = Some y' → (∀ i a, e ≠ EFirstSight i a) ∧ exec e (sys y) = Some (sys y') ∧ looks y' = looks y.
Proof. unfold sweep_exec. intros H. destruct e; try discriminate H; (apply bind_Some in H as (z & Hz & [= <-]); done). Qed.
Lemma sweep_exec_own e y y' : sweep_exec e y = Some y' → sys y' = sys y ∨ ∃ e', exec e' (sys y) = Some (sys y').
Proof.
  destruct e as [e|id at_|k]; [|cbn [sweep_exec]..].
  - intros (_ & H & _)%own_exec. right. by exists e.
  - case_decide; [|done]. destruct (last _ !! id); intros [= <-]; by left.
  - destruct (looks y !! k) as [[id at_]|]; [|done]. cbn [mbind option_bind]. destruct (exec _ (sys y)) as [s|] eqn:E; [|done].
    intros [= <-]. right. by eexists.
Qed.
Lemma swept_wf es y y' : wf (sys y) → swept es y = Some y' → wf (sys y').
Proof.
  intros Hw. apply (steps_ind sweep_exec (λ z, wf (sys z))); [|done]. intros e z z' _ Hz [->|[e' He]]%sweep_exec_own; [done|]. by eapply tracker_exec_wf.
Qed.

(** The activity on record is that at [t0] or later, or the time of a look that was
    pending among [l0]; a new look at the sandbox is not made. *)
Definition remembered (id : string) (t0 : Z) (l0 : list (string * Z)) (y : Swept) : Prop :=
  (∃ t, (t = t0 ∨ (id, t) ∈ l0) ∧ recent id t (sys y)) ∧ ∀ t, (id, t) ∈ looks y → (id, t) ∈ l0.

Lemma sweep_exec_remembered id t0 l0 e y y' : e ≠ SOwn (ERemove id) → remembered id t0 l0 y → sweep_exec e y = Some y' → remembered id t0 l0 y'.
Proof.
  intros Hne [(t & Ht & Hr) Hl]. destruct e as [e|i at_|k]; [|cbn [sweep_exec]..].
  - intros (Hf & Hs & El)%own_exec. split; [|by rewrite El]. exists t. split; [done|]. eapply exec_recent; [exact Hr| |exact Hs].
    destruct e; try done; simpl; [by destruct (Hf id0 at_)|congruence].
  - case_decide; [|done]. pose proof Hr as (_ & l & Hlast & _). destruct (last _ !! i) eqn:Hi; intros [= <-]; [by split; [exists t|]|].
    split; [by exists t|]. intros t' [[= -> ->]|Hin]%elem_of_cons; [congruence|by apply Hl].
  - destruct (looks y !! k) as [[i a]|] eqn:Hk; [|done]. cbn [mbind option_bind]. destruct (exec (EFirstSight i a) (sys y)) as [s|] eqn:E; [|done].
    intros [= <-]. split; [|intros t' Hin%elem_of_delete; by apply Hl]. cbn [sys]. destruct (decide (i = id)) as [->|Hi]; [|exists t; split; [done|]].
    + simpl in E. case_decide as Ha; [|done]. injection E as <-. destruct (decide (id ∈ retired (tracker (sys y)))) as [Hd|Hd].
      * exists t. split; [done|]. rewrite /touch_at decide_True //.
      * exists a. split; [right; apply Hl; by eapply list_elem_of_lookup_2|]. split; [exact Ha|]. exists a.
        rewrite /touch_at decide_False //=. by rewrite lookup_insert_eq.
    + eapply exec_recent; [exact Hr| |exact E]. by intros ->.
Qed.

(** C36: recent activity protects.  After guest activity on a sandbox, a pause or stop
    of it is committed at a time [at] only if the sandbox has then been idle for
    longer than the threshold of the current policy, whatever happens in between and
    whatever threshold the sweep sampled before: idle since the activity, or since the
    start of a sweep that was about to record its first sight of the sandbox when the
    activity happened, and overwrites it; or the sandbox was deleted meanwhile. *)
Theorem thermal_recent_activity es0 y0 id e y1 es y2 at_ secs pause y3 :
  swept es0 sweep_start = Some y0 → active id e (sys y0) → sweep_exec (SOwn e) y0 = Some y1 → swept es y1 = Some y2 →
  exec (ETransition id at_ secs pause) (sys y2) = Some y3 → stops y3 = id :: stops (sys y2) →
  SOwn (ERemove id) ∈ es ∨
  ∃ t, (t = now (sys y0) ∨ (id, t) ∈ looks y0) ∧ threshold id secs pause (tracker (sys y2)) < secs_since t at_.
Proof.
  intros Hr0 Ha He Hr Hx Hs. assert (wf (sys y0)) as Hw by (eapply (swept_wf _ sweep_start); [apply start_wf|exact Hr0]).
  destruct (decide (SOwn (ERemove id) ∈ es)) as [|Hno]; [by left|right].
  assert (remembered id (now (sys y0)) (looks y0) y2) as [(t & Ht & _ & l & Hl & Hle) _].
  { revert Hr. apply steps_ind.
    - intros e' z z' Hin Hz. apply sweep_exec_remembered; [congruence|done].
    - apply own_exec in He as (_ & He & El). split; [|by rewrite El]. exists (now (sys y0)). split; [by left|]. by eapply active_recent. }
  exists t. split; [done|]. simpl in Hx. case_decide; [|done]. pose proof (idle_transition_spec id at_ secs pause (tracker (sys y2))) as Hsp.
  destruct (begin_idle_transition _ _ _ _ _) as [[] tr].
  - destruct Hsp as (_ & _ & _ & l' & Hl' & Hlt). rewrite Hl in Hl'. injection Hl' as <-. eapply Z.lt_le_trans; [exact Hlt|].
    rewrite /secs_since. apply Z.div_le_mono; lia.
  - injection Hx as <-. exfalso. simpl in Hs. apply (f_equal length) in Hs. simpl in Hs. lia.
Qed.

(** ** Concrete runs *)
Module Example.
Definition second : Z := 1000000000.
(** An operation, an hour of silence, a stop. *)
Definition quiet_hour : list Event := [EBegin "vm"; EEnd 0; EClock (3601 * second); ETransition "vm" (3601 * second) 60 false].
Definition stopped : Sys := default start (runs quiet_hour start).
Lemma quiet_hour_runs : runs quiet_hour start = Some stopped.
Proof. vm_compute. reflexivity. Qed.
Lemma stopped_stops : stops stopped = ["vm"].
Proof. vm_compute. reflexivity. Qed.

Lemma thermal_exclusion_witness : runs quiet_hour start = Some stopped ∧ (begin "vm" (tracker stopped)).1 = None.
Proof.
  split; [apply quiet_hour_runs|]. pose proof (thermal_exclusion quiet_hour stopped "vm" quiet_hour_runs) as (H & _).
  apply H. rewrite stopped_stops. left.
Defined.

Definition before : Sys := default start (runs [EBegin "vm"] start).
Definition after : Sys := default start (exec (EEnd 0) before).
Definition hour : list Event := [EClock (3601 * second)].
Definition later : Sys := default start (runs hour after).

Lemma before_active : active "vm" (EEnd 0) before.
Proof. split; [vm_compute; reflexivity|]. apply (bool_decide_unpack _). vm_compute. exact I. Qed.
Lemma later_stops : exec (ETransition "vm" (3601 * second) 3600 false) later = Some stopped ∧ stops stopped = "vm" :: stops later.
Proof. split; vm_compute; reflexivity. Qed.

Lemma thermal_recent_activity_witness : threshold "vm" 3600 false (tracker later) < secs_since (now before) (3601 * second).
Proof.
  destruct (thermal_recent_activity [SOwn (EBegin "vm")] (mkSwept before []) "vm" (EEnd 0) (mkSwept after []) (SOwn <$> hour) (mkSwept later [])
    (3601 * second) 3600 false stopped) as [H|(t & [->|H] & Hlt)].
  - vm_compute. reflexivity.
  - exact before_active.
  - vm_compute. reflexivity.
  - vm_compute. reflexivity.
  - exact (proj1 later_stops).
  - exact (proj2 later_stops).
  - by apply list_elem_of_singleton in H.
  - exact Hlt.
  - by apply not_elem_of_nil in H.
Defined.

(** A sweep that found no activity on record dates the first sight at its own
    start: an operation that ended meanwhile is forgotten, and the stop comes early. *)
Definition early : list SweepEvent :=
  [SLook "vm" 0; SOwn (EClock (100 * second)); SOwn (EBegin "vm"); SOwn (EEnd 0); SSight 0; SOwn (EClock (3501 * second));
   SOwn (ETransition "vm" (3601 * second) 3600 false)].
Example first_sight_backdates : (λ y, (stops (sys y), now (sys y))) <$> swept early sweep_start = Some (["vm"], 3601 * second).
Proof. vm_compute. reflexivity. Qed.
End Example.
End Thermal.
