(* ===== verification/Replicated.v ===== *)
(** Admission, retirement and reclamation of replicated disks,
    [ahvm-store/src/replicated.rs]: the storage quota, the exclusive logical name
    of a retained disk, and the proof-driven release of a sandbox identity. *)
From S2P Require Import Prelude Codec Paging Sums Db Lifecycle.

Module Replicated.
Import Store Lifecycle.

Record ReplicatedUsage := mkUsage { retained_volumes : Z; usage_bytes : Z }.

(** *** 64-bit arithmetic and SQL aggregates *)
Definition is_i64 (x : Z) : bool := (- 2 ^ 63 <=? x) && (x <=? i64_max).
(** [checked_add]/[checked_mul]: [None] on overflow. *)
Definition checked (x : Z) : option Z := if is_i64 x then Some x else None.
(** [COALESCE(SUM(..),0)]: an integer overflow is an SQL error. *)
Definition sql_sum (x : Z) : DM Z := ok_or (checked x) Sqlite.

Definition MB : Z := 1024 * 1024.
Definition MAX_BYTES : Z := 64 * 1024 * 1024 * 1024.

Definition owned_bytes (owner : string) (_ : string) (r : ReplicatedReservation) : Z :=
  if bool_decide (res_owner r = owner) && retained r then logical_bytes r else 0.
Definition owned_count (owner : string) (_ : string) (r : ReplicatedReservation) : Z :=
  if bool_decide (res_owner r = owner) && retained r then 1 else 0.

Definition find (volume : string) : DM (option ReplicatedReservation) :=
  t ← gets replicated_reservations; mret (t !! volume).

Definition usage (owner : string) : DM ReplicatedUsage :=
  t ← gets replicated_reservations;
  b ← sql_sum (total (owned_bytes owner) t);
  mret (mkUsage (total (owned_count owner) t) b).

(** [project_images::image_usage] *)
Definition image_bytes (owner : string) (_ : string) (i : ProjectEnvironmentImage) : Z :=
  if bool_decide (img_owner i = owner) && negb (bool_decide (img_phase i = "retired"%string))
  then img_logical_bytes i else 0.
Definition image_usage (owner : string) : DM Z :=
  t ← gets project_images; sql_sum (total (image_bytes owner) t).

Definition legacy_size (owner : string) (_ : string) (v : Volume) : Z :=
  if bool_decide (vol_owner v = owner) then size_mb v else 0.
(** [COALESCE(MIN(size_mb),0) >= 0] *)
Definition sizes_valid (owner : string) (t : gmap string Volume) : bool :=
  forallb (λ kv, negb (bool_decide (vol_owner kv.2 = owner)) || (0 <=? size_mb kv.2)) (map_to_list t).

(** Another retained disk holds the sandbox's name. *)
Definition occupied (sandbox : string) : DM bool :=
  exists_where replicated_reservations (λ _ r, bool_decide (res_sandbox r = sandbox) && retained r).

Definition check_replicated_name_available (sandbox : string) : DM unit :=
  o ← occupied sandbox; guard_err (negb o) Conflict.

Definition valid_request (owner sandbox volume : string) (bytes : Z) : bool :=
  valid_hash volume && negb (bool_decide (owner = ""%string)) && negb (bool_decide (sandbox = ""%string))
  && (String.length sandbox <=? 64)%nat && (0 <? bytes) && (bytes <=? MAX_BYTES) && (bytes mod 65536 =? 0).

(** The owner's quota in bytes and what is already charged against it. *)
Definition quota (owner : string) : DM Z :=
  us ← gets users;
  u ← ok_or (us !! owner) NotFound;
  ok_or (m ← checked (max_volumes_mb u * MB); if 0 <=? m then Some m else None) Conflict.

Definition charged (owner : string) (bytes : Z) : DM Z :=
  vs ← gets volumes;
  legacy_mb ← sql_sum (total (legacy_size owner) vs);
  legacy ← ok_or (l ← checked (legacy_mb * MB); if sizes_valid owner vs then Some l else None) Conflict;
  images ← image_usage owner;
  u ← usage owner;
  ok_or (a ← checked (usage_bytes u + legacy); b ← checked (a + images); checked (b + bytes)) Conflict.

Definition reserve_replicated_volume (owner sandbox volume : string) (bytes now : Z)
    : DM ReplicatedReservation :=
  guard_err (valid_request owner sandbox volume bytes) Conflict;;
  transaction (
    old ← find volume;
    match old with
    | Some old =>
        if bool_decide (res_owner old = owner ∧ res_sandbox old = sandbox ∧ logical_bytes old = bytes
                        ∧ res_state old = "reserved"%string)
        then mret old else fail Conflict
    | None =>
        maximum ← quota owner;
        sum ← charged owner bytes;
        guard_err (sum <=? maximum) Conflict;;
        o ← occupied sandbox;
        guard_err (negb o) Conflict;;
        insert_row replicated_reservations set_replicated_reservations volume
          (mkReservation owner sandbox bytes "reserved" false now now);;
        bind_storage owner sandbox volume;;
        r ← find volume;
        ok_or r Sqlite
    end).

Definition replicated_usage (owner : string) : DM ReplicatedUsage := usage owner.

(** [WHERE state!='reclaimed' AND (?1 IS NULL OR volume_id>?1) ORDER BY volume_id LIMIT ?2] *)
Definition retained_replicated_reservations (after : option string) (limit : Z)
    : DM (list (string * ReplicatedReservation)) :=
  guard_err ((1 <=? limit) && (limit <=? 1000)) Conflict;;
  t ← gets replicated_reservations;
  mret (take (Z.to_nat limit) (merge_sort by_key (filter (λ kv,
    res_state kv.2 ≠ "reclaimed"%string ∧
    match after with None => true | Some a => String.ltb a kv.1 end = true) (map_to_list t)))).

Definition replicated_for_sandbox (owner sandbox : string) : DM (option (string * ReplicatedReservation)) :=
  l ← select_where replicated_reservations
        (λ _ r, bool_decide (res_owner r = owner ∧ res_sandbox r = sandbox) && retained r);
  mret (head l).

Definition replicated_reservation (owner volume : string) : DM ReplicatedReservation :=
  r ← find volume;
  ok_or (r ← r; if bool_decide (res_owner r = owner) then Some r else None) NotFound.

Definition set_state (st : string) (released : bool) (now : Z) (r : ReplicatedReservation) : ReplicatedReservation :=
  mkReservation (res_owner r) (res_sandbox r) (logical_bytes r) st released (res_created_at r) now.

Definition transition_replicated (owner volume : string) (now : Z) : DM unit :=
  transaction (
    row ← replicated_reservation owner volume;
    if bool_decide (res_state row = "reclaimed"%string) then mret tt else
    update_row replicated_reservations set_replicated_reservations volume (λ _, true)
      (λ r, set_state "deleting" (logical_released r) now r);;
    mret tt).
Definition delete_replicated_reservation := transition_replicated.

(** [true] exactly when this call releases the sandbox's identity. *)
Definition confirm_replicated_retirement (owner volume : string) (now : Z) (released complete : bool) : DM bool :=
  guard_err (negb (complete && negb released)) Conflict;;
  transaction (
    row ← replicated_reservation owner volume;
    if bool_decide (res_state row = "reclaimed"%string) then mret false else
    guard_err (bool_decide (res_state row = "deleting"%string)) Conflict;;
    let first_release := released && negb (logical_released row) in
    (if first_release then
      foreign ← exists_where sandboxes
        (λ k s, bool_decide (k = res_sandbox row ∧ owner_user_id s ≠ owner));
      guard_err (negb foreign) Conflict;;
      delete_sandbox_row (res_sandbox row)
     else mret tt);;
    update_row replicated_reservations set_replicated_reservations volume (λ _, true)
      (λ r, set_state (if complete then "reclaimed" else "deleting") (logical_released r || released) now r);;
    mret first_release).

Definition confirm_replicated_reclamation (owner volume : string) (now : Z) : DM unit :=
  confirm_replicated_retirement owner volume now true true;; mret tt.

(** ** Invariants *)
Definition state_valid (r : ReplicatedReservation) : Prop :=
  res_state r = "reserved"%string ∧ logical_released r = false ∨
  res_state r = "deleting"%string ∨
  res_state r = "reclaimed"%string ∧ logical_released r = true.

Record reservations_ok (d : Db) : Prop := {
  one_retained : ∀ k1 k2 r1 r2, replicated_reservations d !! k1 = Some r1 →
    replicated_reservations d !! k2 = Some r2 → retained r1 = true → retained r2 = true →
    res_sandbox r1 = res_sandbox r2 → k1 = k2;
  res_valid : ∀ k r, replicated_reservations d !! k = Some r → state_valid r ∧ 0 < logical_bytes r;
}.

(** A reservation's identity is fixed and its life only advances. *)
Definition stage (r : ReplicatedReservation) : Z :=
  if bool_decide (res_state r = "reclaimed"%string) then 3
  else if logical_released r then 2
  else if bool_decide (res_state r = "deleting"%string) then 1 else 0.
Definition res_le (r r' : ReplicatedReservation) : Prop :=
  res_owner r' = res_owner r ∧ res_sandbox r' = res_sandbox r ∧ logical_bytes r' = logical_bytes r ∧
  res_created_at r' = res_created_at r ∧ stage r ≤ stage r' ∧
  (res_state r = "reclaimed"%string → r' = r).
Definition reservations_le (d d' : Db) : Prop :=
  ∀ k r, replicated_reservations d !! k = Some r →
    ∃ r', replicated_reservations d' !! k = Some r' ∧ res_le r r'.

Lemma wp_sql_sum x d (Q : Result Error Z → Db → Prop) :
  (is_i64 x = true → Q (Ok x) d) → Q (Err Sqlite) d → wp (sql_sum x) d Q.
Proof. intros Hok Herr. rewrite /sql_sum /checked. destruct (is_i64 x); apply wp_ok_or; naive_solver. Qed.

(** The charge as a number: disks, volumes and images of the owner. *)
Definition charge (owner : string) (d : Db) : Z :=
  total (owned_bytes owner) (replicated_reservations d)
  + total (legacy_size owner) (volumes d) * MB + total (image_bytes owner) (project_images d).

Lemma wp_charged owner bytes d (Q : Result Error Z → Db → Prop) :
  Q (Ok (charge owner d + bytes)) d → (∀ e, Q (Err e) d) → wp (charged owner bytes) d Q.
Proof.
  intros Hok Herr. rewrite /charged /image_usage /usage.
  do 2 wp_step. cbn beta iota. wp_step. apply wp_sql_sum; [intros _|auto]. wp_step. apply wp_ok_or; [|auto].
  intros legacy Hl. do 3 wp_step. cbn beta iota. apply wp_sql_sum; [intros _|auto].
  wp_step. wp_step. wp_step. cbn beta iota. wp_step. apply wp_sql_sum; [intros _|auto]. wp_step. cbn beta iota.
  apply wp_ok_or; [|auto]. intros x Hx. simpl in Hx.
  assert (legacy = total (legacy_size owner) (volumes d) * MB) as ->.
  { rewrite /checked in Hl. destruct (is_i64 _); [|done]. simpl in Hl. by destruct (sizes_valid _ _); simplify_eq. }
  assert (x = charge owner d + bytes) as ->; [|done]. rewrite /charge /checked in Hx |- *.
  destruct (is_i64 _); [|done]. simpl in Hx. destruct (is_i64 _); [|done]. simpl in Hx.
  destruct (is_i64 _); [|done]. injection Hx as <-. lia.
Qed.

Lemma wp_quota owner d (Q : Result Error Z → Db → Prop) :
  (∀ u, users d !! owner = Some u → 0 ≤ max_volumes_mb u * MB → Q (Ok (max_volumes_mb u * MB)) d) →
  (∀ e, Q (Err e) d) → wp (quota owner) d Q.
Proof.
  intros Hok Herr. rewrite /quota. do 2 wp_step. cbn beta iota. wp_step. apply wp_ok_or; [|auto].
  intros u Hu. apply wp_ok_or; [|auto]. intros m Hm. rewrite /checked in Hm.
  destruct (is_i64 _); [|done]. simpl in Hm. destruct (Z.leb_spec 0 (max_volumes_mb u * MB)); [|done].
  injection Hm as <-. by apply Hok.
Qed.

(** A successful reservation: a replay, or a new charge within the quota. *)
Definition reserved (owner sandbox volume : string) (bytes now : Z) (d : Db)
    (r : Result Error ReplicatedReservation) (d' : Db) : Prop :=
  match r with
  | Ok row =>
      (d' = d ∧ replicated_reservations d !! volume = Some row ∧ res_owner row = owner ∧
        res_sandbox row = sandbox ∧ logical_bytes row = bytes ∧ res_state row = "reserved"%string) ∨
      (replicated_reservations d !! volume = None ∧ 0 < bytes ∧
        row = mkReservation owner sandbox bytes "reserved" false now now ∧
        (∀ k r, replicated_reservations d !! k = Some r → retained r = true → res_sandbox r ≠ sandbox) ∧
        (∃ u, users d !! owner = Some u ∧ charge owner d + bytes ≤ max_volumes_mb u * MB) ∧
        d' = (bind_storage owner sandbox volume
               (set_replicated_reservations (<[volume := row]> (replicated_reservations d)) d)).2)
  | Err _ => d' = d
  end.

Lemma reserve_spec owner sandbox volume bytes now d :
  wp (reserve_replicated_volume owner sandbox volume bytes now) d (reserved owner sandbox volume bytes now d).
Proof.
  rewrite /reserve_replicated_volume. wp_step. wp_step; [|done]. apply wp_transaction.
  wp_step. rewrite /find. do 2 wp_step. cbn beta iota. wp_step.
  destruct (replicated_reservations d !! volume) as [old|] eqn:Hold.
  { case_match eqn:Hb; wp_step; [|done]. apply bool_decide_eq_true in Hb. left. naive_solver. }
  wp_step. apply wp_quota; [|done]. intros u Hu Hmax. wp_step. apply wp_charged; [|done].
  wp_step. wp_step; [|done]. cbn beta iota. wp_step. rewrite /occupied. apply wp_exists_where. intros o Ho.
  cbn beta iota. wp_step. wp_step; [|done]. cbn beta iota. wp_step. apply wp_insert_row; [intros _|done].
  cbn beta iota. wp_step. rewrite /bind_storage. apply wp_update_where. wp_step. do 2 wp_step. cbn beta iota. wp_step.
  apply wp_ok_or; [|done]. simpl. rewrite lookup_insert_eq. intros r [= <-]. right.
  split_and!; try done.
  - rewrite /valid_request !andb_true_iff in H. lia.
  - intros k r Hk Hr Hs. assert (o = true); [|by destruct o]. apply Ho. exists k, r. split; [done|].
    rewrite Hr andb_true_r. by apply bool_decide_eq_true.
  - exists u. split; [done|]. lia.
Qed.

(** C19: storage admission.  A reservation is granted only to a known owner
    whose disks, volumes and images, including the new one, fit the quota, for a
    sandbox name no retained disk holds; it charges exactly the requested bytes;
    an exact replay returns the original row without charging again; and a
    refusal changes nothing. *)
Theorem reservation_within_quota owner sandbox volume bytes now d :
  let '(r, d') := reserve_replicated_volume owner sandbox volume bytes now d in
  match r with
  | Err _ => d' = d
  | Ok row =>
      replicated_reservations d' !! volume = Some row ∧ res_owner row = owner ∧
      res_sandbox row = sandbox ∧ logical_bytes row = bytes ∧
      (d' ≠ d → replicated_reservations d !! volume = None) ∧
      (replicated_reservations d !! volume = None →
        charge owner d' = charge owner d + bytes ∧
        (∃ u, users d !! owner = Some u ∧ charge owner d' ≤ max_volumes_mb u * MB) ∧
        ∀ k r, replicated_reservations d !! k = Some r → retained r = true → res_sandbox r ≠ sandbox)
  end.
Proof.
  pose proof (reserve_spec owner sandbox volume bytes now d) as Hw. rewrite /wp in Hw.
  destruct (reserve_replicated_volume owner sandbox volume bytes now d) as [[row|e] d']; [|done].
  simpl in Hw. destruct Hw as [(-> & Hk & ? & ? & ? & _)|(Hnone & Hpos & -> & Hfree & (u & Hu & Hq) & ->)].
  { split_and!; [done..|]. congruence. }
  simpl. rewrite lookup_insert_eq. split_and!; [done..|]. intros _.
  assert (charge owner (bind_storage owner sandbox volume (set_replicated_reservations
    (<[volume := mkReservation owner sandbox bytes "reserved" false now now]> (replicated_reservations d)) d)).2
    = charge owner d + bytes) as Hc.
  { rewrite /charge /= total_insert_new // /owned_bytes /= bool_decide_eq_true_2 //=. lia. }
  split_and!; [exact Hc| |exact Hfree]. exists u. split; [done|]. by rewrite Hc.
Qed.

(** ** Retirement *)
Lemma transition_spec owner volume now d :
  wp (transition_replicated owner volume now) d (λ r d',
    match r with
    | Ok _ => ∃ row, replicated_reservations d !! volume = Some row ∧ res_owner row = owner ∧
        (d' = d ∧ res_state row = "reclaimed"%string ∨
         res_state row ≠ "reclaimed"%string ∧
         d' = set_replicated_reservations
           (<[volume := set_state "deleting" (logical_released row) now row]> (replicated_reservations d)) d)
    | Err _ => d' = d
    end).
Proof.
  rewrite /transition_replicated. apply wp_transaction. wp_step.
  rewrite /replicated_reservation /find. do 3 wp_step. cbn beta iota. wp_step.
  apply wp_ok_or; [|done]. intros row Hrow.
  destruct (replicated_reservations d !! volume) as [r|] eqn:Hk; [|done]. simpl in Hrow.
  case_bool_decide as Ho; [|done]. injection Hrow as <-.
  case_bool_decide as Hs; [wp_step; eauto 10|].
  wp_step. apply wp_update_row; [|intros Hf; by specialize (Hf _ Hk)].
  intros v Hv _. wp_step. simplify_eq. eauto 10.
Qed.

Lemma confirm_spec owner volume now released complete d :
  wp (confirm_replicated_retirement owner volume now released complete) d (λ r d',
    match r with
    | Ok first => ∃ row, replicated_reservations d !! volume = Some row ∧ res_owner row = owner ∧
        (first = false ∧ d' = d ∧ res_state row = "reclaimed"%string ∨
         res_state row = "deleting"%string ∧ first = released && negb (logical_released row) ∧
         (complete = true → released = true) ∧
         (first = true → ∀ s, sandboxes d !! res_sandbox row = Some s → owner_user_id s = owner) ∧
         d' = set_replicated_reservations
           (<[volume := set_state (if complete then "reclaimed" else "deleting")
                          (logical_released row || released) now row]> (replicated_reservations d))
           (if first then (delete_sandbox_row (res_sandbox row) d).2 else d))
    | Err _ => d' = d
    end).
Proof.
  rewrite /confirm_replicated_retirement. wp_step. wp_step; [|done]. cbn beta iota. apply wp_transaction. wp_step.
  rewrite /replicated_reservation /find. do 3 wp_step. cbn beta iota. wp_step.
  apply wp_ok_or; [|done]. intros row Hrow.
  destruct (replicated_reservations d !! volume) as [r|] eqn:Hk; [|done]. simpl in Hrow.
  case_bool_decide as Ho; [|done]. injection Hrow as <-.
  case_bool_decide as Hs; [wp_step; eauto 10|].
  wp_step. wp_step; [|done]. apply bool_decide_eq_true in H0. cbn beta iota zeta.
  assert (complete = true → released = true) as Hcr by (destruct complete, released; done).
  wp_step. destruct (released && negb (logical_released r)) eqn:Hfirst.
  - wp_step. apply wp_exists_where. intros foreign Hf. cbn beta iota. wp_step. wp_step; [|done]. cbn beta iota.
    rewrite /delete_sandbox_row. sql_steps; [|by specialize (H2 _ Hk)].
    simpl in *. simplify_eq. eexists. split; [done|]. split; [done|]. right. split_and!; try done.
    intros _ s Hsb. destruct (decide (owner_user_id s = res_owner r)) as [|Hne]; [done|].
    assert (foreign = true); [|by destruct foreign]. apply Hf. exists (res_sandbox r), s. split; [done|].
    by apply bool_decide_eq_true.
  - sql_steps; [|by specialize (H1 _ Hk)]. simplify_eq. eexists. split; [done|]. split; [done|]. right. by split_and!.
Qed.

Lemma delete_sandbox_reservations sid d :
  replicated_reservations (delete_sandbox sid d).2 = replicated_reservations d.
Proof. reflexivity. Qed.
#[local] Opaque delete_sandbox.

(** ** Histories *)
Inductive Call :=
| Reserve (owner sandbox volume : string) (bytes now : Z)
| Delete (owner volume : string) (now : Z)
| Confirm (owner volume : string) (now : Z) (released complete : bool)
| NewSandbox (s : Sandbox)
| DropSandbox (sid : string).

(** One call: the volume whose sandbox identity it released, if any. *)
Definition call (c : Call) (d : Db) : option string * Db :=
  match c with
  | Reserve o sb v b now => (None, (reserve_replicated_volume o sb v b now d).2)
  | Delete o v now => (None, (delete_replicated_reservation o v now d).2)
  | Confirm o v now released complete =>
      let '(r, d) := confirm_replicated_retirement o v now released complete d in
      (match r with Ok true => Some v | _ => None end, d)
  | NewSandbox s => (None, (create_sandbox s d).2)
  | DropSandbox sid => (None, (delete_sandbox sid d).2)
  end.

Fixpoint history (cs : list Call) (d : Db) : list string * Db :=
  match cs with
  | [] => ([], d)
  | c :: cs =>
      let '(a, d) := call c d in
      let '(l, d) := history cs d in
      (option_list a ++ l, d)
  end.

Definition unreleased (d : Db) (v : string) : Prop :=
  ∀ r, replicated_reservations d !! v = Some r → logical_released r = false.
Definition released_in (d : Db) (v : string) : Prop :=
  ∃ r, replicated_reservations d !! v = Some r ∧ logical_released r = true.

Lemma res_le_refl r : res_le r r.
Proof. rewrite /res_le. split_and!; done. Qed.

Lemma reservations_le_refl d : reservations_le d d.
Proof. intros k r Hk. exists r. split; [done|apply res_le_refl]. Qed.

Lemma reservations_le_trans d1 d2 d3 :
  reservations_le d1 d2 → reservations_le d2 d3 → reservations_le d1 d3.
Proof.
  intros H12 H23 k r Hk. destruct (H12 k r Hk) as (r2 & Hk2 & (? & ? & ? & ? & ? & Hf2)).
  destruct (H23 k r2 Hk2) as (r3 & Hk3 & (? & ? & ? & ? & ? & Hf3)). exists r3. split; [done|].
  rewrite /res_le. split_and!; try congruence; [lia|]. intros Hr. rewrite Hf3; [|auto]. by rewrite Hf2.
Qed.

Lemma res_le_released r r' : state_valid r' → res_le r r' → logical_released r = true → logical_released r' = true.
Proof.
  intros Hv (_ & _ & _ & _ & Hs & Hf) Hr. rewrite /stage Hr in Hs.
  destruct (logical_released r') eqn:E; [done|]. assert (stage r' ≤ 1) as Hs'.
  { rewrite /stage E. destruct Hv as [[E1 _]|[E1|[_ E2]]]; [by rewrite E1|by rewrite E1|congruence]. }
  rewrite /stage E in Hs'. case_bool_decide; case_bool_decide; try lia; case_bool_decide; lia.
Qed.

(** Reservation rows are untouched by a method of another table. *)
Lemma same_reservations d d' : replicated_reservations d' = replicated_reservations d →
  reservations_ok d → reservations_le d d' ∧ reservations_ok d'.
Proof.
  intros E [H1 H2]. split; [intros k r Hk; exists r; rewrite E; split; [done|apply res_le_refl]|].
  split; rewrite E; eauto.
Qed.

(** An advance of one reservation that does not take a name. *)
Lemma advance_ok k r r' d d' : reservations_ok d → replicated_reservations d !! k = Some r →
  replicated_reservations d' = <[k := r']> (replicated_reservations d) →
  res_le r r' → state_valid r' → (retained r' = true → retained r = true) →
  reservations_le d d' ∧ reservations_ok d'.
Proof.
  intros [H1 H2] Hk E Hle Hv Hr. split.
  - intros j q Hq. rewrite E. destruct (decide (j = k)) as [->|Hne].
    + exists r'. rewrite lookup_insert_eq. by simplify_eq.
    + exists q. rewrite lookup_insert_ne; [congruence|]. split; [done|apply res_le_refl].
  - destruct Hle as (Ho & Hs & Hb & _). split; rewrite E.
    + intros k1 k2 r1 r2 [[<- <-]|[? Hk1]]%lookup_insert_Some [[<- <-]|[? Hk2]]%lookup_insert_Some Hr1 Hr2 Hsb;
        [done| | |by eapply H1].
      * eapply (H1 k k2 r r2); try done; [by apply Hr|congruence].
      * eapply (H1 k1 k r1 r); try done; [by apply Hr|congruence].
    + intros j q [[<- <-]|[? Hq]]%lookup_insert_Some; [|by eapply H2].
      split; [done|]. rewrite Hb. by eapply H2.
Qed.

Lemma confirm_advances row now released complete : state_valid row → res_state row = "deleting"%string →
  (complete = true → released = true) →
  let r' := set_state (if complete then "reclaimed" else "deleting") (logical_released row || released) now row in
  res_le row r' ∧ state_valid r' ∧ (retained r' = true → retained row = true).
Proof.
  intros Hv Hs Hc r'. rewrite /res_le /stage /state_valid /retained /r' /=.
  rewrite Hs. destruct complete; [rewrite (Hc eq_refl)|]; simpl;
    rewrite ?orb_true_r; destruct (logical_released row), released; simpl; split_and!; try done; auto; lia.
Qed.

Lemma delete_sandbox_row_reservations sid d :
  replicated_reservations (delete_sandbox_row sid d).2 = replicated_reservations d.
Proof. done. Qed.

Lemma replicated_call_ok c d : reservations_ok d → let '(a, d') := call c d in
  reservations_le d d' ∧ reservations_ok d' ∧
  (∀ v, a = Some v → unreleased d v ∧ released_in d' v).
Proof.
  intros Hok. destruct c as [o sb v b now|o v now|o v now released complete|s|sid]; simpl.
  - pose proof (reserve_spec o sb v b now d) as Hw. rewrite /wp in Hw.
    destruct (reserve_replicated_volume o sb v b now d) as [[row|e] d']; simpl in *;
      [|subst; split_and!; [apply reservations_le_refl|done..]].
    destruct Hw as [(-> & _)|(Hnone & Hpos & -> & Hfree & _ & ->)]; [split_and!; [apply reservations_le_refl|done..]|].
    split_and!; [| |done].
    + intros k r Hk. exists r. simpl. rewrite lookup_insert_ne; [congruence|]. split; [done|apply res_le_refl].
    + destruct Hok as [H1 H2]. split; simpl.
      * intros k1 k2 r1 r2 [[<- <-]|[? Hk1]]%lookup_insert_Some [[<- <-]|[? Hk2]]%lookup_insert_Some Hr1 Hr2 Hsb;
          simpl in Hsb; [done|by edestruct Hfree|by edestruct Hfree|by eapply H1].
      * intros k r [[<- <-]|[? Hk]]%lookup_insert_Some; [|by eapply H2]. split; [by left|done].
  - pose proof (transition_spec o v now d) as Hw. rewrite /wp /delete_replicated_reservation in Hw |- *.
    destruct (transition_replicated o v now d) as [[u|e] d']; simpl in *;
      [|subst; split_and!; [apply reservations_le_refl|done..]].
    destruct Hw as (row & Hk & _ & [[-> _]|[Hs ->]]); [split_and!; [apply reservations_le_refl|done..]|].
    destruct (res_valid d Hok v row Hk) as [Hv _].
    destruct (advance_ok v row (set_state "deleting" (logical_released row) now row) d
      (set_replicated_reservations (<[v := set_state "deleting" (logical_released row) now row]>
        (replicated_reservations d)) d)) as [? ?]; [done|done|done|..].
    + rewrite /res_le /stage /=. rewrite (bool_decide_eq_false_2 (res_state row = _)) //.
      split_and!; try done. destruct (logical_released row); [done|]. case_bool_decide; lia.
    + by right; left.
    + rewrite /retained /=. by rewrite (bool_decide_eq_false_2 (res_state row = _)).
    + by split_and!.
  - pose proof (confirm_spec o v now released complete d) as Hw. rewrite /wp in Hw.
    destruct (confirm_replicated_retirement o v now released complete d) as [[first|e] d']; simpl in *;
      [|subst; split_and!; [apply reservations_le_refl|done..]].
    destruct Hw as (row & Hk & _ & [(-> & -> & _)|(Hs & Hfirst & Hc & _ & Hd')]);
      [split_and!; [apply reservations_le_refl|done..]|].
    destruct (res_valid d Hok v row Hk) as [Hv _].
    destruct (confirm_advances row now released complete Hv Hs Hc) as (Hle & Hv' & Hr').
    assert (replicated_reservations d' = <[v := set_state (if complete then "reclaimed" else "deleting")
      (logical_released row || released) now row]> (replicated_reservations d)) as E by (by rewrite Hd'; destruct first).
    destruct (advance_ok _ _ _ _ _ Hok Hk E Hle Hv' Hr') as [? ?]. split_and!; [done..|].
    intros v' Hv''. destruct first; [|done]. injection Hv'' as <-.
    symmetry in Hfirst. apply andb_prop in Hfirst as [-> Hnr%negb_true_iff]. split.
    + intros r Hr. by simplify_eq.
    + eexists. rewrite E lookup_insert_eq. split; [done|]. by rewrite /= orb_true_r.
  - destruct (same_reservations d (create_sandbox s d).2) as [? ?]; [|done|by split_and!].
    rewrite /create_sandbox /references /insert_row /mbind /M_bind /=.
    destruct (bool_decide _); [|done]. simpl. by destruct (bool_decide _).
  - destruct (same_reservations _ _ (delete_sandbox_reservations sid d) Hok) as [? ?]. by split_and!.
Qed.

Lemma replicated_history_ok cs d : reservations_ok d → let '(l, d') := history cs d in
  reservations_le d d' ∧ reservations_ok d' ∧ NoDup l ∧
  ∀ v, v ∈ l → unreleased d v ∧ released_in d' v.
Proof.
  revert d. induction cs as [|c cs IH]; intros d Hok; simpl.
  { split_and!; [apply reservations_le_refl|done|constructor|by intros ? ?%not_elem_of_nil]. }
  pose proof (replicated_call_ok c d Hok) as Hc. destruct (call c d) as [a d1]. destruct Hc as (Hle1 & Hok1 & Ha).
  specialize (IH d1 Hok1). destruct (history cs d1) as [l d2]. destruct IH as (Hle2 & Hok2 & Hnd & Hl).
  split_and!; [by eapply reservations_le_trans|done|..].
  - destruct a as [v|]; simpl; [|done]. constructor; [|done]. intros [Hun _]%Hl.
    destruct (Ha v eq_refl) as [_ (r & Hr & Hrel)]. by rewrite (Hun r Hr) in Hrel.
  - intros v [Hin|Hin]%elem_of_app.
    + destruct a as [v'|]; simpl in Hin; [|by apply not_elem_of_nil in Hin].
      apply list_elem_of_singleton in Hin as ->. destruct (Ha v' eq_refl) as [? (r & Hr & Hrel)].
      split; [done|]. destruct (Hle2 _ _ Hr) as (r' & Hr' & Hle). exists r'. split; [done|].
      eapply res_le_released; [|exact Hle|done]. by eapply (res_valid d2).
    + destruct (Hl v Hin) as [Hun ?]. split; [|done]. intros r Hr.
      destruct (Hle1 _ _ Hr) as (r' & Hr' & Hle). specialize (Hun r' Hr').
      destruct (logical_released r) eqn:E; [|done].
      assert (logical_released r' = true); [|congruence].
      eapply res_le_released; [|exact Hle|done]. by eapply (res_valid d1).
Qed.

(** C20: one release per volume.  Over any history of reservations, deletions,
    retirement proofs and sandbox churn, no reservation is lost or changes its
    identity, each only advances from reserved through deleting and released to
    reclaimed, no two retained disks share a sandbox name, and the release of a
    volume's sandbox identity is reported at most once. *)
Theorem replicated_history cs d l d' : reservations_ok d → history cs d = (l, d') →
  reservations_le d d' ∧ NoDup l ∧
  (∀ k1 k2 r1 r2, replicated_reservations d' !! k1 = Some r1 → replicated_reservations d' !! k2 = Some r2 →
    retained r1 = true → retained r2 = true → res_sandbox r1 = res_sandbox r2 → k1 = k2).
Proof.
  intros Hok Hh. pose proof (replicated_history_ok cs d Hok) as Ho. rewrite Hh in Ho.
  destruct Ho as (? & [H1 _] & ? & _). by split_and!.
Qed.

(** A retirement proof removes only its own sandbox.  The call that
    releases a volume deletes the sandbox of that name, which belongs to the
    same owner, while the volume still holds the name exclusively, and frees the
    name; every other proof, in particular a repeated one for an old volume,
    leaves the sandboxes alone. *)
Theorem retirement_removes_own_sandbox owner volume now released complete d b d' :
  reservations_ok d → confirm_replicated_retirement owner volume now released complete d = (Ok b, d') →
  ∃ row, replicated_reservations d !! volume = Some row ∧ res_owner row = owner ∧
    if b then
      retained row = true ∧
      (∀ k r, replicated_reservations d !! k = Some r → retained r = true → res_sandbox r = res_sandbox row → k = volume) ∧
      (∀ s, sandboxes d !! res_sandbox row = Some s → owner_user_id s = owner) ∧
      sandboxes d' = delete (res_sandbox row) (sandboxes d) ∧
      check_replicated_name_available (res_sandbox row) d' = (Ok tt, d')
    else sandboxes d' = sandboxes d.
Proof.
  intros Hok Hc. pose proof (confirm_spec owner volume now released complete d) as Hw.
  rewrite /wp Hc /= in Hw. destruct Hw as (row & Hk & Ho & [(-> & -> & _)|(Hs & Hfirst & Hcr & Hown & Hd')]).
  { exists row. by split_and!. }
  exists row. split; [done|]. split; [done|]. destruct b; [|by rewrite Hd'].
  symmetry in Hfirst. apply andb_prop in Hfirst as [-> Hnr].
  assert (retained row = true) as Hr by (by rewrite /retained Hs Hnr).
  split_and!; [done| |by apply Hown|by rewrite Hd'|].
  { intros k r Hk' Hr' Hsb. by eapply (one_retained d Hok k volume r row). }
  rewrite /check_replicated_name_available /occupied.
  assert (wp (exists_where replicated_reservations (λ _ r, bool_decide (res_sandbox r = res_sandbox row) && retained r)) d'
    (λ r s, r = Ok false ∧ s = d')) as Hx.
  { apply wp_exists_where. intros o Hoc. split; [|done]. f_equal. destruct o; [|done]. exfalso.
    destruct (proj1 Hoc eq_refl) as (k & r & Hk' & [Hsb%bool_decide_eq_true Hret]%andb_prop).
    rewrite Hd' /= in Hk'. apply lookup_insert_Some in Hk' as [[<- <-]|[Hne Hk']].
    - rewrite /retained /= orb_true_r andb_false_r in Hret. done.
    - apply Hne. symmetry. by eapply (one_retained d Hok k volume r row). }
  rewrite /wp in Hx. rewrite /mbind /M_bind. destruct (exists_where _ _ d') as [r s]. simpl in Hx.
  by destruct Hx as [-> ->].
Qed.

(** ** Instances at concrete inputs *)
Definition hash (c : Ascii.ascii) : string := String.string_of_list_ascii (replicate 64 c).
Definition vol_a : string := hash (Ascii.ascii_of_N 97).
Definition vol_b : string := hash (Ascii.ascii_of_N 98).
Definition churn : list Call :=
  [Reserve "u" "a" vol_a 65536 1; Reserve "u" "a" vol_b 65536 2; Delete "u" vol_a 3; Confirm "u" vol_a 4 true false;
   Reserve "u" "a" vol_b 65536 5; NewSandbox (vm "a" 9); Confirm "u" vol_a 6 true true; Delete "u" vol_b 7].

Lemma small_ok : reservations_ok small_db.
Proof. split; by intros; simplify_eq. Qed.

Lemma replicated_history_witness :
  (history churn small_db).1 = [vol_a] ∧
  reservations_le small_db (history churn small_db).2 ∧ NoDup (history churn small_db).1 ∧
  (∀ k1 k2 r1 r2, replicated_reservations (history churn small_db).2 !! k1 = Some r1 →
    replicated_reservations (history churn small_db).2 !! k2 = Some r2 →
    retained r1 = true → retained r2 = true → res_sandbox r1 = res_sandbox r2 → k1 = k2).
Proof.
  split; [vm_compute; reflexivity|].
  apply (replicated_history churn); [apply small_ok|by destruct (history churn small_db)].
Defined.

Definition before_release : Db := (history (take 3 churn) small_db).2.

Lemma retirement_removes_own_sandbox_witness :
  let d' := (confirm_replicated_retirement "u" vol_a 4 true false before_release).2 in
  ∃ row, replicated_reservations before_release !! vol_a = Some row ∧ res_owner row = "u"%string ∧
    retained row = true ∧
    (∀ k r, replicated_reservations before_release !! k = Some r → retained r = true →
      res_sandbox r = res_sandbox row → k = vol_a) ∧
    (∀ s, sandboxes before_release !! res_sandbox row = Some s → owner_user_id s = "u"%string) ∧
    sandboxes d' = delete (res_sandbox row) (sandboxes before_release) ∧
    check_replicated_name_available (res_sandbox row) d' = (Ok tt, d').
Proof.
  apply (retirement_removes_own_sandbox "u" vol_a 4 true false before_release true).
  - pose proof (replicated_history_ok (take 3 churn) small_db small_ok) as Ho. rewrite /before_release.
    destruct (history (take 3 churn) small_db) as [l d]. by destruct Ho as (_ & ? & _).
  - vm_compute. reflexivity.
Defined.

End Replicated.
