(* ===== verification/Runs.v ===== *)
(** Managed runs and their event outbox, [ahvm-store/src/runs.rs] and
    [run_events.rs]: fenced receipts with a bounded, ordered, acknowledged event
    stream.  The JSON documents are [serde_json]'s: the class [JsonApi] holds the
    accessors the code uses, and the size of a serialised event is the length of
    its text. *)
From S2P Require Import Prelude Paging Sums Db Replicated.

Module Runs.
Import Store.

Class JsonApi := {
#[global] json_serde :: Serde;
member : Value → string → option Value;    (* [Value::get] *)
is_true : Value → bool;                    (* [== true] *)
as_str : Value → option string;
Str : string → Value;
Num : Z → Value;
Obj : list (string * Value) → Value;       (* [json!({..})] *)
remove : Value → string → option Value;    (* [as_object_mut] and [remove], when present *)
run_value : string → ManagedRun → Value;   (* [Serialize for ManagedRun] *)
}.

Definition MAX_RETAINED : Z := 4096.
Definition MAX_MANAGED_EVENT_BYTES : Z := 300 * 1024.
Definition MAX_RUN_PENDING : Z := 8 * 1024 * 1024.
Definition MAX_TOTAL_PENDING : Z := 128 * 1024 * 1024.
Definition MAX_PENDING_STREAMS : Z := 4096.

Definition slen (s : string) : Z := Z.of_nat (String.length s).

Section Runs.
Context `{JsonApi}.

(** [v["k"]] *)
Definition at_key (v : Value) (k : string) : Value := default Null (member v k).

Definition isolated (json : string) : bool :=
  match from_str json with
  | Some v => is_true (at_key v "session_isolated") && negb (is_true (at_key v "fence_on_failure"))
  | None => false
  end.

Definition get_run (rid : string) : DM ManagedRun := select_row managed_runs rid NotFound.

(** ** run_events.rs *)
Definition stream (rid : string) : DM EventStream := select_row event_streams rid NotFound.

Definition stream_pending (_ : string) (s : EventStream) : Z := pending_bytes s.
Definition stream_open (_ : string) (s : EventStream) : Z := if sealed s then 0 else 1.
Definition stream_live (_ : string) (s : EventStream) : Z :=
  if negb (sealed s) || (acked_seq s <? next_event_seq s - 1) then 1 else 0.

(** Pending bytes, open streams, live streams. *)
Definition totals : DM (Z * Z * Z) :=
  t ← gets event_streams; mret (total stream_pending t, total stream_open t, total stream_live t).

Definition admit_stream (rid req : string) : DM unit :=
  cleanup_retired_streams;;
  t ← gets event_streams;
  guard_err (bool_decide (t !! rid = None)) Conflict;;
  let value := default Null (from_str req) in
  match member value "event_delivery" with
  | None => mret tt
  | Some delivery =>
      run ← get_run rid;
      retry ← ok_or (Replicated.checked (deadline_at run + 7 * 86400)) Conflict;
      insert_row event_streams set_event_streams rid
        (mkStream (to_string delivery) retry 0 0 1 0 None 0 false false);;
      '(pending, open, streams) ← totals;
      guard_err (negb ((MAX_TOTAL_PENDING <? pending + open * MAX_MANAGED_EVENT_BYTES)
                       || (MAX_PENDING_STREAMS <? streams))) Conflict
  end.

Definition with_request (r : ManagedRun) (req : string) : ManagedRun :=
  mkRun (run_sandbox r) (run_owner r) req (phase r) (epoch r) (session_id r) (boot_id r)
    (run_created_at r) (run_updated_at r) (deadline_at r) (finished_at r) (exit_code r) (detail r).

Definition public_managed_run (r : ManagedRun) : ManagedRun :=
  match from_str (request_json r) with
  | Some v => match remove v "event_delivery" with Some v' => with_request r (to_string v') | None => r end
  | None => r
  end.

(** The envelope of one event, [None] when the run has no event binding. *)
Definition envelope (rid : string) (run : ManagedRun) (n : Z) (kind : string) (checkpoint : option Value)
    : option Value :=
  request ← from_str (request_json run);
  hash ← as_str (at_key (at_key request "event_delivery") "request_hash");
  let field (k : string) (v : Value) : string * Value := (k, v) in
  Some (Obj ([field "schema" (Num 1); field "run_id" (Str rid); field "sandbox_id" (Str (run_sandbox run));
              field "request_hash" (Str hash); field "event_seq" (Num n); field "kind" (Str kind);
              field "receipt" (run_value rid (public_managed_run run))]
             ++ match checkpoint with Some v => [field "checkpoint" v] | None => [] end)).

Definition advance (n size : Z) (final : bool) (s : EventStream) : EventStream :=
  mkStream (delivery_json s) (retry_until s) (source_offset s) (guest_seq s) n (acked_seq s)
    (checkpoint_json s) (pending_bytes s + size) (source_failed s) final.

(** [event] is the event's text, as [envelope] builds it. *)
Definition append_event (rid event : string) (final : bool) (now : Z) : DM unit :=
  source ← stream rid;
  guard_err (slen event <=? MAX_MANAGED_EVENT_BYTES) Conflict;;
  let size := slen event in
  let per_run := MAX_RUN_PENDING - (if final then 0 else MAX_MANAGED_EVENT_BYTES) in
  '(pending, open, _) ← totals;
  let remaining_reserve := (open - if final then 1 else 0) * MAX_MANAGED_EVENT_BYTES in
  guard_err (negb ((per_run <? pending_bytes source + size)
                   || (MAX_TOTAL_PENDING <? pending + size + remaining_reserve))) Conflict;;
  guard_err (next_event_seq source + 1 <=? i64_max) Conflict;;
  insert_row run_events set_run_events (rid, next_event_seq source) (event, now);;
  update_row event_streams set_event_streams rid (λ _, true) (advance (next_event_seq source + 1) size final);;
  mret tt.

Definition append (rid : string) (run : ManagedRun) (kind : string) (checkpoint : option Value) (now : Z) : DM unit :=
  source ← stream rid;
  guard_err (negb (sealed source)) Conflict;;
  match from_str (request_json run) with
  | None => fail JsonError
  | Some _ =>
      event ← ok_or (envelope rid run (next_event_seq source) kind checkpoint) Conflict;
      append_event rid (to_string event) (bool_decide (kind = "receipt"%string)) now
  end.

Definition terminal (rid : string) (run : ManagedRun) (now : Z) : DM unit :=
  t ← gets event_streams;
  match t !! rid with
  | None => mret tt
  | Some source =>
      checkpoint ←
        (if source_failed source then mret None
         else match checkpoint_json source with
              | None => mret None
              | Some c => v ← ok_or (from_str c) JsonError; mret (Some v)
              end : DM (option Value));
      append rid run "receipt" checkpoint now
  end.

Definition cleanup_managed_run_event_streams : DM unit := cleanup_retired_streams.

Definition managed_run_event_delivery_state (rid : string) : DM (bool * bool) :=
  t ← gets event_streams;
  mret (match t !! rid with
        | Some s => (negb (sealed s) || (acked_seq s <? next_event_seq s - 1), 0 <? pending_bytes s)
        | None => (false, false) end).

Definition managed_run_event_delivery (rid : string) : DM (string * Z) :=
  t ← gets event_streams;
  match t !! rid with Some s => mret (delivery_json s, retry_until s) | None => fail Sqlite end.

Definition managed_run_event_stream (rid : string) : DM EventStream := stream rid.

Definition list_managed_run_event_streams : DM (list string) :=
  l ← select_where event_streams (λ _ s, negb (sealed s) || (acked_seq s <? next_event_seq s - 1));
  mret (merge_sort by_key l).*1.

Definition checkpointed (offset gseq : Z) (c : string) (s : EventStream) : EventStream :=
  mkStream (delivery_json s) (retry_until s) offset gseq (next_event_seq s) (acked_seq s) (Some c)
    (pending_bytes s) (source_failed s) (sealed s).

Definition append_managed_run_checkpoint (rid : string) (ep offset gseq : Z) (checkpoint : string) (now : Z) : DM unit :=
  guard_err (negb ((i64_max <? offset) || (i64_max <? gseq) || (262144 <? slen checkpoint))) Conflict;;
  value ← ok_or (from_str checkpoint) JsonError;
  transaction (
    run ← get_run rid;
    source ← stream rid;
    guard_err (negb (negb (epoch run =? ep) || bool_decide (is_Some (finished_at run)) || source_failed source
                     || negb (gseq =? guest_seq source + 1) || (offset <=? source_offset source))) Conflict;;
    append rid run "checkpoint" (Some value) now;;
    update_row event_streams set_event_streams rid (λ _, true) (checkpointed offset gseq checkpoint);;
    mret tt).

Definition fail_managed_run_event_source (rid : string) (ep : Z) : DM unit :=
  transaction (
    run ← get_run rid;
    guard_err (negb (negb (epoch run =? ep) || bool_decide (is_Some (finished_at run)))) Conflict;;
    update_row event_streams set_event_streams rid (λ _, true)
      (λ s, mkStream (delivery_json s) (retry_until s) (source_offset s) (guest_seq s) (next_event_seq s)
              (acked_seq s) None (pending_bytes s) true (sealed s));;
    mret tt).

Definition seq_le (x y : string * Z * (string * Z)) : Prop := x.1.2 ≤ y.1.2.
#[export] Instance seq_le_dec x y : Decision (seq_le x y).
Proof. rewrite /seq_le. apply _. Defined.
Definition first_managed_run_event (rid : string) : DM (option (Z * string)) :=
  l ← select_where run_events (λ k _, bool_decide (k.1 = rid));
  mret ((λ kv : string * Z * (string * Z), (kv.1.2, kv.2.1)) <$> head (merge_sort seq_le l)).

Definition acked (n size : Z) (s : EventStream) : EventStream :=
  mkStream (delivery_json s) (retry_until s) (source_offset s) (guest_seq s) (next_event_seq s) n
    (checkpoint_json s) (pending_bytes s - size) (source_failed s) (sealed s).

(** The final acknowledgement clears the delivery document and checkpoint, and
    drops the stream once its run is gone. *)
Definition retire_stream (rid : string) : DM unit :=
  update_row event_streams set_event_streams rid (λ _, true)
    (λ s, mkStream "{}" (retry_until s) (source_offset s) (guest_seq s) (next_event_seq s) (acked_seq s)
            None (pending_bytes s) (source_failed s) (sealed s));;
  runs ← gets managed_runs;
  if bool_decide (runs !! rid = None) then
    delete_row event_streams set_event_streams rid;;
    delete_where run_events set_run_events (λ k _, bool_decide (k.1 = rid))
  else mret tt.

Definition acknowledge_managed_run_event (rid : string) (n : Z) : DM unit :=
  guard_err (n <=? i64_max) Conflict;;
  transaction (
    source ← stream rid;
    if n <=? acked_seq source then mret tt else
    guard_err (n =? acked_seq source + 1) Conflict;;
    es ← gets run_events;
    e ← ok_or (es !! (rid, n)) Conflict;
    delete_row run_events set_run_events (rid, n);;
    update_row event_streams set_event_streams rid (λ _, true) (acked n (slen e.1));;
    if sealed source && (n =? next_event_seq source - 1) then retire_stream rid else mret tt).

(** ** runs.rs *)
Definition admit_managed_run (rid sandbox owner req : string) (now deadline : Z) : DM (ManagedRun * bool) :=
  transaction (
    t ← gets managed_runs;
    match t !! rid with
    | Some existing =>
        if bool_decide (run_sandbox existing = sandbox ∧ run_owner existing = owner ∧ request_json existing = req)
        then mret (existing, false) else fail Conflict
    | None =>
        guard_err (negb (bool_decide (rid = ""%string) || bool_decide (sandbox = ""%string)
                         || bool_decide (owner = ""%string) || (deadline <=? now))) Conflict;;
        sbs ← gets sandboxes;
        guard_err (bool_decide (is_Some (sbs !! sandbox))) NotFound;;
        guard_err (negb (MAX_RETAINED <=? Z.of_nat (size t))) Conflict;;
        active ← select_where managed_runs
          (λ _ r, bool_decide (run_sandbox r = sandbox) && bool_decide (finished_at r = None));
        guard_err (forallb (λ kv, isolated req && isolated (request_json kv.2)) active) Conflict;;
        insert_row managed_runs set_managed_runs rid
          (mkRun sandbox owner req "starting" 1 None None now now deadline None None None);;
        admit_stream rid req;;
        r ← get_run rid;
        mret (r, true)
    end).

Definition get_managed_run (rid : string) : DM ManagedRun := get_run rid.

Definition run_order (x y : string * ManagedRun) : Prop :=
  run_created_at x.2 < run_created_at y.2 ∨
  run_created_at x.2 = run_created_at y.2 ∧ String.le x.1 y.1.
#[export] Instance run_order_dec x y : Decision (run_order x y).
Proof. rewrite /run_order. apply _. Defined.
Definition list_active_managed_runs : DM (list (string * ManagedRun)) :=
  l ← select_where managed_runs (λ _ r, bool_decide (finished_at r = None));
  mret (merge_sort run_order l).

Definition finished_order (x y : string * ManagedRun) : Prop :=
  String.le (run_sandbox x.2) (run_sandbox y.2) ∧ (run_sandbox x.2 = run_sandbox y.2 → String.le x.1 y.1).
#[export] Instance finished_order_dec x y : Decision (finished_order x y).
Proof. rewrite /finished_order. apply _. Defined.
Definition list_finished_managed_runs : DM (list (string * ManagedRun)) :=
  l ← select_where managed_runs (λ _ r, bool_decide (is_Some (finished_at r)));
  mret (merge_sort finished_order l).

Definition managed_run_for_sandbox (sid : string) : DM (option (string * ManagedRun)) :=
  l ← select_where managed_runs (λ _ r, bool_decide (run_sandbox r = sid) && bool_decide (finished_at r = None));
  mret (head l).

(** Latest finish per sandbox. *)
Definition latest_finish (_ : string) (r : ManagedRun) (m : gmap string Z) : gmap string Z :=
  match finished_at r with
  | Some t => <[run_sandbox r := Z.max t (default t (m !! run_sandbox r))]> m
  | None => m
  end.
Definition list_managed_run_cooldowns : DM (list (string * Z)) :=
  t ← gets managed_runs; mret (merge_sort by_key (map_to_list (map_fold latest_finish ∅ t))).

Definition set_run (f : ManagedRun → ManagedRun) (rid : string) (ep : Z) : DM Z :=
  update_row managed_runs set_managed_runs rid
    (λ r, (epoch r =? ep) && bool_decide (finished_at r = None)) f.

Definition claim_managed_run (rid : string) (now : Z) : DM ManagedRun :=
  transaction (
    current ← get_run rid;
    guard_err (bool_decide (finished_at current = None)) Conflict;;
    next ← ok_or (Replicated.checked (epoch current + 1)) Conflict;
    changed ← set_run (λ r, mkRun (run_sandbox r) (run_owner r) (request_json r) (phase r) next (session_id r)
      (boot_id r) (run_created_at r) now (deadline_at r) (finished_at r) (exit_code r) (detail r)) rid (epoch current);
    guard_err (changed =? 1) Conflict;;
    get_run rid).

Definition terminal_phase (p : string) : bool :=
  bool_decide (p ∈ ["succeeded"; "failed"; "interrupted"]%string).
Definition known_phase (p : string) : bool :=
  bool_decide (p ∈ ["starting"; "running"; "uncertain"; "cancelling"; "succeeded"; "failed"; "interrupted"]%string).

(** A native identity may be bound, not replaced. *)
Definition rebinds (new old : option string) : bool :=
  match new, old with Some n, Some o => negb (bool_decide (n = o)) | _, _ => false end.
Definition coalesce {A} (new old : option A) : option A := match new with Some _ => new | None => old end.

Definition updated (ph : string) (session boot : option string) (code : option Z) (det : option string) (now : Z)
    (term : bool) (r : ManagedRun) : ManagedRun :=
  mkRun (run_sandbox r) (run_owner r) (request_json r) ph (epoch r) (coalesce session (session_id r))
    (coalesce boot (boot_id r)) (run_created_at r) now (deadline_at r) (if term then Some now else None) code det.

Definition update_managed_run (rid : string) (ep : Z) (ph : string) (session boot : option string)
    (code : option Z) (det : option string) (now : Z) (term : bool) : DM ManagedRun :=
  guard_err (Bool.eqb term (terminal_phase ph) && known_phase ph) Conflict;;
  transaction (
    current ← get_run rid;
    guard_err (bool_decide (finished_at current = None) && (epoch current =? ep)) Conflict;;
    guard_err (negb (rebinds session (session_id current) || rebinds boot (boot_id current))) Conflict;;
    changed ← set_run (updated ph session boot code det now term) rid ep;
    guard_err (changed =? 1) Conflict;;
    saved ← get_run rid;
    (if term then terminal rid saved now else mret tt);;
    mret saved).

(** ** The outbox invariant *)
Definition event_bytes (rid : string) (k : string * Z) (e : string * Z) : Z :=
  if decide (k.1 = rid) then slen e.1 else 0.

(** The retained events of a stream are exactly those after its acknowledged
    cursor, [pending_bytes] is their size, a stream that is not sealed keeps
    room for its final receipt, and so does the whole outbox for every one. *)
Record outbox_ok (d : Db) : Prop := {
  ob_events : ∀ k n, is_Some (run_events d !! (k, n)) ↔
    ∃ s, event_streams d !! k = Some s ∧ acked_seq s < n < next_event_seq s;
  ob_cursor : ∀ k s, event_streams d !! k = Some s → 0 ≤ acked_seq s < next_event_seq s;
  ob_pending : ∀ k s, event_streams d !! k = Some s → pending_bytes s = total (event_bytes k) (run_events d);
  ob_run : ∀ k s, event_streams d !! k = Some s →
    pending_bytes s ≤ MAX_RUN_PENDING - (if sealed s then 0 else MAX_MANAGED_EVENT_BYTES);
  ob_total : total stream_pending (event_streams d) + total stream_open (event_streams d) * MAX_MANAGED_EVENT_BYTES
    ≤ MAX_TOTAL_PENDING;
}.

Lemma slen_nonneg s : 0 ≤ slen s.
Proof. rewrite /slen. lia. Qed.

Lemma event_bytes_nonneg rid k e : 0 ≤ event_bytes rid k e.
Proof. rewrite /event_bytes. case_decide; [apply slen_nonneg|done]. Qed.

Lemma total_event_bytes_none (rid : string) (m : gmap (string * Z) (string * Z)) :
  (∀ n : Z, m !! (rid, n) = None) → total (event_bytes rid) m = 0.
Proof.
  intros Hn. rewrite (total_ext _ (λ _ _, 0)).
  - intros [k n] e Hk. rewrite /event_bytes. case_decide; simpl in *; [|done]. subst. by rewrite Hn in Hk.
  - clear Hn. induction m using map_ind; [by rewrite total_empty|]. by rewrite total_insert_new.
Qed.

Lemma pending_nonneg d k s : outbox_ok d → event_streams d !! k = Some s → 0 ≤ pending_bytes s.
Proof.
  intros Hok Hk. rewrite (ob_pending d Hok k s Hk). apply total_nonneg. intros. apply event_bytes_nonneg.
Qed.

Lemma open_nonneg d : 0 ≤ total stream_open (event_streams d).
Proof. apply total_nonneg. intros k s _. rewrite /stream_open. by case_match. Qed.

Lemma wp_totals d (Q : Result Error (Z * Z * Z) → Db → Prop) :
  Q (Ok (total stream_pending (event_streams d), total stream_open (event_streams d),
         total stream_live (event_streams d))) d → wp totals d Q.
Proof. done. Qed.

(** Tables other than the two of the outbox. *)
Definition same_runs (d d' : Db) : Prop :=
  managed_runs d' = managed_runs d ∧ sandboxes d' = sandboxes d.

(** Appending to an open stream: the invariant, and progress of the final
    receipt. *)
Lemma append_event_spec rid event final now d s :
  outbox_ok d → event_streams d !! rid = Some s → sealed s = false →
  wp (append_event rid event final now) d (λ r d', match r with
    | Ok _ => outbox_ok d' ∧ same_runs d d' ∧
        event_streams d' = <[rid := advance (next_event_seq s + 1) (slen event) final s]> (event_streams d) ∧
        run_events d' = <[(rid, next_event_seq s) := (event, now)]> (run_events d)
    | Err e => e = Conflict ∧
        (final = true → next_event_seq s < i64_max → MAX_MANAGED_EVENT_BYTES < slen event)
    end).
Proof.
  intros Hok Hs Hopen. pose proof (ob_run d Hok rid s Hs) as Hrun. rewrite Hopen in Hrun.
  pose proof (ob_total d Hok) as Htot. pose proof (open_nonneg d).
  pose proof (ob_cursor d Hok rid s Hs) as Hcur.
  assert (1 ≤ total stream_open (event_streams d)) as Hone.
  { assert (1 = stream_open rid s) as -> by (by rewrite /stream_open Hopen).
    apply total_elem; [|done]. intros ???. rewrite /stream_open. by case_match. }
  assert (run_events d !! (rid, next_event_seq s) = None) as Hfresh.
  { apply eq_None_not_Some. rewrite ob_events //. intros (s' & ? & ?). simplify_eq. lia. }
  rewrite /append_event /stream. wp_step. apply wp_select_row; [intros s' Hs'; simplify_eq|congruence].
  wp_step. wp_step; [|split; [done|intros; lia]]. cbn beta iota zeta. wp_step. apply wp_totals. cbn beta iota zeta.
  wp_step. wp_step; [|split; [done|]; intros -> ?; lia]. cbn beta iota. wp_step. wp_step; [|split; [done|intros; lia]].
  cbn beta iota. wp_step. apply wp_insert_fresh; [done|]. cbn beta iota. wp_step.
  apply wp_update_row; simpl; [|intros Hno; by specialize (Hno _ Hs)]. intros v Hv _. simplify_eq.
  wp_step. split_and!; try done. split; simpl.
  - intros k n. rewrite lookup_insert_is_Some. destruct (decide (k = rid)) as [->|Hne].
    + rewrite lookup_insert_eq. rewrite ob_events //. split.
      * intros [Heq|[_ (q & ? & ?)]]; simplify_eq; eexists; (split; [done|]); simpl; lia.
      * intros (q & [= <-] & Hn). simpl in Hn. destruct (decide ((rid, next_event_seq s) = (rid, n))); [by left|].
        right. split; [done|]. exists s. split; [done|]. assert (next_event_seq s ≠ n) by congruence. lia.
    + rewrite lookup_insert_ne //. rewrite ob_events //. split; [|naive_solver].
      intros [?|[_ ?]]; [congruence|done].
  - intros k q [[<- <-]|[? Hk]]%lookup_insert_Some; simpl; [lia|]. by eapply ob_cursor.
  - intros k q [[<- <-]|[? Hk]]%lookup_insert_Some; simpl; rewrite total_insert_new // (ob_pending d Hok _ _ ltac:(eassumption)).
    + rewrite /event_bytes /=. rewrite decide_True //. lia.
    + rewrite {2}/event_bytes /=. rewrite decide_False; [congruence|lia].
  - intros k q [[<- <-]|[? Hk]]%lookup_insert_Some; simpl; [|by eapply ob_run]. destruct final; lia.
  - set (s' := advance _ _ _ _). rewrite !(total_update _ _ _ _ s' Hs).
    assert (stream_pending rid s' = pending_bytes s + slen event ∧ stream_pending rid s = pending_bytes s ∧
      stream_open rid s = 1 ∧ stream_open rid s' = if final then 0 else 1) as (-> & -> & -> & ->).
    { rewrite /stream_open /s' /= Hopen. by split_and!. }
    destruct final; lia.
Qed.

(** The outbox only reads its two tables. *)
Lemma outbox_ok_ext d d' : event_streams d' = event_streams d → run_events d' = run_events d →
  outbox_ok d → outbox_ok d'.
Proof. intros E1 E2 [H1 H2 H3 H4 H5]. split; rewrite ?E1 ?E2 //. Qed.

(** An update of a stream that keeps its cursors and accounting. *)
Lemma neutral_update_ok rid s s' d d' : outbox_ok d → event_streams d !! rid = Some s →
  event_streams d' = <[rid := s']> (event_streams d) → run_events d' = run_events d →
  acked_seq s' = acked_seq s → next_event_seq s' = next_event_seq s →
  pending_bytes s' = pending_bytes s → sealed s' = sealed s → outbox_ok d'.
Proof.
  intros [H1 H2 H3 H4 H5] Hs E1 E2 Ha Hn Hp Hse. split; rewrite ?E1 ?E2.
  - intros k n. rewrite H1. destruct (decide (k = rid)) as [->|Hne].
    + rewrite lookup_insert_eq Hs. split; intros (q & [= <-] & ?); eexists; (split; [done|]); congruence.
    + by rewrite lookup_insert_ne.
  - intros k q [[<- <-]|[? Hk]]%lookup_insert_Some; [rewrite Ha Hn|]; eauto.
  - intros k q [[<- <-]|[? Hk]]%lookup_insert_Some; [rewrite Hp|]; eauto.
  - intros k q [[<- <-]|[? Hk]]%lookup_insert_Some; [rewrite Hp Hse|]; eauto.
  - rewrite !(total_update _ _ _ _ s' Hs).
    assert (stream_pending rid s' = stream_pending rid s) as -> by done.
    assert (stream_open rid s' = stream_open rid s) as -> by (by rewrite /stream_open Hse). lia.
Qed.

(** Dropping streams without retained events. *)
Lemma drop_streams_ok (P : string * EventStream → Prop) `{!∀ x, Decision (P x)} d d' :
  outbox_ok d → event_streams d' = filter P (event_streams d) → run_events d' = run_events d →
  (∀ k s, event_streams d !! k = Some s → ¬ P (k, s) → acked_seq s = next_event_seq s - 1) → outbox_ok d'.
Proof.
  intros Hok E1 E2 HP. pose proof Hok as [H1 H2 H3 H4 H5]. split; rewrite ?E1 ?E2.
  - intros k n. rewrite H1. split; intros (s & Hs & Hn).
    + exists s. split; [|done]. apply map_lookup_filter_Some. split; [done|].
      destruct (decide (P (k, s))) as [|Hnot]; [done|]. specialize (HP k s Hs Hnot). lia.
    + apply map_lookup_filter_Some in Hs as [? _]. eauto.
  - intros k s [? _]%map_lookup_filter_Some. eauto.
  - intros k s [? _]%map_lookup_filter_Some. eauto.
  - intros k s [? _]%map_lookup_filter_Some. eauto.
  - rewrite !total_filter. etrans; [|exact H5]. apply Z.add_le_mono.
    + apply total_le. intros k s Hs. case_decide; [done|]. by eapply pending_nonneg.
    + apply Z.mul_le_mono_nonneg_r; [done|]. apply total_le. intros k s Hs.
      case_decide; [done|]. rewrite /stream_open. by case_match.
Qed.

(** No event is lost: filtering the events of streams that retain none. *)
Lemma filter_events_id (P : (string * Z) * (string * Z) → Prop) `{!∀ x, Decision (P x)} d :
  outbox_ok d → (∀ k n e s, event_streams d !! k = Some s → acked_seq s < n < next_event_seq s → P ((k, n), e)) →
  filter P (run_events d) = run_events d.
Proof.
  intros Hok HP. apply map_filter_id. intros [k n] e Hk.
  destruct (proj1 (ob_events d Hok k n)) as (s & Hs & Hn); [eauto|]. eauto.
Qed.

Lemma cleanup_ok d : outbox_ok d → outbox_ok (cleanup_retired_streams d).2 ∧ same_runs d (cleanup_retired_streams d).2.
Proof.
  intros Hok. split; [|done].
  rewrite /cleanup_retired_streams /mbind /M_bind /delete_where /=.
  set (retired := λ k s, sealed s && (acked_seq s =? next_event_seq s - 1) && bool_decide (managed_runs d !! k = None)).
  eapply (drop_streams_ok (λ kv, retired kv.1 kv.2 = false)); [exact Hok|reflexivity| |].
  - simpl. apply filter_events_id; [done|]. intros k n e s Hs Hn. simpl. rewrite Hs.
    destruct (Z.eqb_spec (acked_seq s) (next_event_seq s - 1)); [lia|]. by rewrite andb_false_r.
  - intros k s Hs Hr. apply not_false_iff_true in Hr. rewrite /retired /= !andb_true_iff in Hr.
    destruct Hr as [[_ Hr] _]. lia.
Qed.

Lemma wp_cleanup d (Q : Result Error unit → Db → Prop) : outbox_ok d →
  (∀ d', outbox_ok d' → same_runs d d' → Q (Ok tt) d') → wp cleanup_retired_streams d Q.
Proof. intros Hok HQ. destruct (cleanup_ok d Hok). by apply HQ. Qed.

Lemma append_spec rid run kind checkpoint now d : outbox_ok d →
  wp (append rid run kind checkpoint now) d (λ r d', match r with
    | Ok _ => outbox_ok d' ∧ same_runs d d' ∧ is_Some (event_streams d' !! rid)
    | Err _ => True
    end).
Proof.
  intros Hok. rewrite /append /stream. wp_step. apply wp_select_row; [intros s Hs|done].
  wp_step. wp_step; [|done]. cbn beta iota. apply negb_true_iff in H0.
  destruct (from_str (request_json run)); [|by wp_step]. wp_step. apply wp_ok_or; [intros ev _|done].
  eapply wp_mono; [by eapply append_event_spec|].
  intros [[]|e] d' Hd; [|done]. destruct Hd as (? & ? & E & _). split_and!; [done..|].
  rewrite E lookup_insert_eq. eauto.
Qed.

(** The reserved receipt.  While a stream is open its final receipt always
    fits: as long as its text is within the event size limit and the sequence
    number is not exhausted, no amount of pending events makes the append of the
    terminal receipt fail, whatever other streams hold. *)
Theorem final_receipt_fits rid run c ev now d s : outbox_ok d →
  event_streams d !! rid = Some s → sealed s = false → next_event_seq s < i64_max →
  is_Some (from_str (request_json run)) → envelope rid run (next_event_seq s) "receipt" c = Some ev →
  slen (to_string ev) ≤ MAX_MANAGED_EVENT_BYTES →
  wp (append rid run "receipt" c now) d (λ r d', r = Ok tt ∧ outbox_ok d' ∧
    run_events d' !! (rid, next_event_seq s) = Some (to_string ev, now) ∧
    sealed <$> event_streams d' !! rid = Some true).
Proof.
  intros Hok Hs Hopen Hn [v Hv] Hev Hlen. rewrite /append /stream. wp_step.
  apply wp_select_row; [intros s' Hs'; simplify_eq|congruence]. wp_step. rewrite Hopen. wp_step; [|done].
  cbn beta iota. rewrite Hv. wp_step. rewrite Hev. apply wp_ok_or; [intros ev' [= <-]|done].
  eapply wp_mono; [by eapply append_event_spec|]. intros [[]|e] d'.
  - intros (? & _ & E1 & E2). rewrite E1 E2 !lookup_insert_eq. by split_and!.
  - intros [_ Hno]. rewrite bool_decide_eq_true_2 // in Hno. specialize (Hno eq_refl Hn). lia.
Qed.

Lemma terminal_spec rid run now d : outbox_ok d →
  wp (terminal rid run now) d (λ r d', match r with Ok _ => outbox_ok d' ∧ same_runs d d' | Err _ => True end).
Proof.
  intros Hok. rewrite /terminal. do 2 wp_step. cbn beta iota.
  destruct (event_streams d !! rid) as [s|]; [|by wp_step]. wp_step.
  assert (∀ c, wp (append rid run "receipt" c now) d (λ r d', match r with Ok _ => outbox_ok d' ∧ same_runs d d' | Err _ => True end)) as Ha.
  { intros c. eapply wp_mono; [by apply append_spec|]. intros [[]|e] d'; [|done]. by intros (? & ? & _). }
  destruct (source_failed s); [wp_step; apply Ha|]. destruct (checkpoint_json s) as [c|]; [|wp_step; apply Ha].
  wp_step. apply wp_ok_or; [intros v _|done]. wp_step. apply Ha.
Qed.

Lemma checkpoint_spec rid ep offset gseq c now d : outbox_ok d →
  wp (append_managed_run_checkpoint rid ep offset gseq c now) d (λ r d', match r with
    | Ok _ => outbox_ok d' ∧ same_runs d d' ∧ ∃ run s, managed_runs d !! rid = Some run ∧ epoch run = ep ∧
        finished_at run = None ∧ event_streams d !! rid = Some s ∧ gseq = guest_seq s + 1 ∧ source_offset s < offset
    | Err _ => d' = d
    end).
Proof.
  intros Hok. rewrite /append_managed_run_checkpoint. wp_step. wp_step; [|done]. cbn beta iota. wp_step.
  apply wp_ok_or; [intros v _|done]. apply wp_transaction. wp_step. rewrite /get_run.
  apply wp_select_row; [intros run Hrun|done]. wp_step. rewrite /stream. apply wp_select_row; [intros s Hs|done].
  wp_step. wp_step; [|done]. cbn beta iota. rewrite negb_true_iff !orb_false_iff in H1.
  destruct H1 as ((((He & Hf) & _) & Hg) & Ho). apply bool_decide_eq_false, eq_None_not_Some in Hf.
  wp_step. eapply wp_mono; [by apply append_spec|].
  intros [[]|e] d'; [|done]. intros (Hok' & [Hr Hsb] & [s' Hs']). cbn beta iota. wp_step.
  apply wp_update_row; [|by intros Hno; specialize (Hno _ Hs')]. intros s'' Hs'' _. simplify_eq. wp_step.
  split_and!; [by eapply (neutral_update_ok rid s' (checkpointed offset gseq c s') d')|done|].
  exists run, s. split_and!; try done; lia.
Qed.

Lemma fail_source_spec rid ep d : outbox_ok d →
  wp (fail_managed_run_event_source rid ep) d (λ r d', match r with
    | Ok _ => outbox_ok d' ∧ same_runs d d' ∧ ∃ run, managed_runs d !! rid = Some run ∧ epoch run = ep ∧ finished_at run = None
    | Err _ => d' = d
    end).
Proof.
  intros Hok. rewrite /fail_managed_run_event_source. apply wp_transaction. wp_step. rewrite /get_run.
  apply wp_select_row; [intros run Hrun|done]. wp_step. wp_step; [|done]. cbn beta iota.
  rewrite negb_true_iff orb_false_iff in H0. destruct H0 as [He Hf].
  apply bool_decide_eq_false, eq_None_not_Some in Hf. wp_step.
  apply wp_update_row; [intros s Hs _|intros _]; wp_step; (split; [|split; [done|exists run; split_and!; [done|lia|done]]]); [|done].
  by eapply (neutral_update_ok rid s _ d).
Qed.

(** The state after acknowledging event [n]. *)
Definition after_ack (rid : string) (n size : Z) (s : EventStream) (d : Db) : Db :=
  set_event_streams (<[rid := acked n size s]> (event_streams d)) (set_run_events (delete (rid, n) (run_events d)) d).

Lemma after_ack_ok rid n e s d : outbox_ok d → event_streams d !! rid = Some s → n = acked_seq s + 1 →
  run_events d !! (rid, n) = Some e → outbox_ok (after_ack rid n (slen e.1) s d).
Proof.
  intros Hok Hs Hn He. pose proof Hok as [H1 H2 H3 H4 H5].
  destruct (proj1 (H1 rid n)) as (q & Hq & Hlt); [eauto|]. simplify_eq.
  assert (event_bytes rid (rid, acked_seq s + 1) e = slen e.1) as Heb by (rewrite /event_bytes decide_True //).
  pose proof (slen_nonneg e.1). split; simpl.
  - intros k j. destruct (decide (k = rid)) as [->|Hne].
    + rewrite lookup_insert_eq. split.
      * intros [x [Hne Hx]%lookup_delete_Some]. eexists. split; [done|]. simpl.
        destruct (proj1 (H1 rid j)) as (q & Hq & ?); [eauto|]. simplify_eq.
        assert (acked_seq s + 1 ≠ j) by congruence. lia.
      * intros (q & [= <-] & Hj). simpl in Hj. rewrite lookup_delete_ne; [intros [= ?]; lia|].
        apply H1. exists s. split; [done|lia].
    + rewrite lookup_insert_ne // lookup_delete_ne ?H1 //. congruence.
  - intros k q [[<- <-]|[? Hk]]%lookup_insert_Some; simpl; [pose proof (H2 _ _ Hs); lia|eauto].
  - intros k q [[<- <-]|[? Hk]]%lookup_insert_Some; simpl.
    + rewrite (H3 _ _ Hs) (total_delete _ _ _ _ He) Heb. lia.
    + rewrite (H3 _ _ Hk) (total_delete _ _ _ _ He) {1}/event_bytes decide_False //.
  - intros k q [[<- <-]|[? Hk]]%lookup_insert_Some; simpl; [pose proof (H4 _ _ Hs); lia|eauto].
  - rewrite !(total_update _ _ _ _ (acked (acked_seq s + 1) (slen e.1) s) Hs).
    assert (stream_open rid (acked (acked_seq s + 1) (slen e.1) s) = stream_open rid s) as -> by done.
    assert (stream_pending rid (acked (acked_seq s + 1) (slen e.1) s) = stream_pending rid s - slen e.1) as -> by done. lia.
Qed.

Lemma retire_stream_spec rid s d : outbox_ok d → event_streams d !! rid = Some s →
  acked_seq s = next_event_seq s - 1 →
  wp (retire_stream rid) d (λ r d', r = Ok tt ∧ outbox_ok d' ∧ same_runs d d' ∧ run_events d' = run_events d).
Proof.
  intros Hok Hs Hend. rewrite /retire_stream. wp_step.
  apply wp_update_row; [|by intros Hno; specialize (Hno _ Hs)]. intros s' Hs' _. simplify_eq.
  match goal with |- context [set_event_streams (<[rid := ?x]> _) d] => set (w := x) end.
  set (d1 := set_event_streams _ d).
  assert (outbox_ok d1) as Hok1 by (by eapply (neutral_update_ok rid s w d)).
  assert (event_streams d1 !! rid = Some w) as Hs1 by apply lookup_insert_eq.
  cbn beta iota. do 2 wp_step. cbn beta iota. case_bool_decide; [|by wp_step].
  wp_step. apply wp_delete_row, wp_delete_where. simpl.
  assert (filter (λ kv : string * Z * (string * Z), bool_decide (kv.1.1 = rid) = false) (run_events d1) = run_events d1) as Hid.
  { apply filter_events_id; [done|]. intros k n e q Hq Hn. simpl. apply bool_decide_eq_false. intros ->.
    rewrite Hs1 in Hq. injection Hq as <-. simpl in Hn. lia. }
  split_and!; [done| |done|exact Hid].
  eapply (drop_streams_ok (λ kv, kv.1 ≠ rid) d1); [exact Hok1| |exact Hid|].
  - simpl. apply map_eq. intros k. rewrite map_lookup_filter. destruct (decide (k = rid)) as [->|Hne].
    + rewrite lookup_delete_eq. destruct (<[rid:=w]> (event_streams d) !! rid); simpl; [|done].
      by rewrite option_guard_False; [intros Hn; apply Hn|].
    + rewrite lookup_delete_ne //. destruct (<[rid:=w]> (event_streams d) !! k); simpl; [|done].
      by rewrite option_guard_True.
  - intros k q Hq Hn. apply dec_stable in Hn. simpl in Hn. subst k. rewrite Hs1 in Hq. by injection Hq as <-.
Qed.

Lemma acknowledge_spec rid n d : outbox_ok d →
  wp (acknowledge_managed_run_event rid n) d (λ r d', match r with
    | Ok _ => outbox_ok d' ∧ same_runs d d' ∧ ∃ s, event_streams d !! rid = Some s ∧
        (n ≤ acked_seq s ∧ d' = d ∨
         n = acked_seq s + 1 ∧ run_events d' = delete (rid, n) (run_events d) ∧ is_Some (run_events d !! (rid, n)))
    | Err _ => d' = d
    end).
Proof.
  intros Hok. rewrite /acknowledge_managed_run_event. wp_step. wp_step; [|done]. cbn beta iota.
  apply wp_transaction. wp_step. rewrite /stream. apply wp_select_row; [intros s Hs|done].
  destruct (Z.leb_spec n (acked_seq s)); [wp_step; split_and!; [done..|]; eauto|].
  wp_step. wp_step; [|done]. apply Z.eqb_eq in H2. cbn beta iota. do 2 wp_step. cbn beta iota. wp_step.
  apply wp_ok_or; [intros e He|done]. wp_step. apply wp_delete_row. wp_step.
  apply wp_update_row; simpl; [|by intros Hno; specialize (Hno _ Hs)]. intros q Hq _. simplify_eq.
  pose proof (after_ack_ok rid _ e s d Hok Hs eq_refl He) as Hack.
  case_match eqn:Hfin.
  - apply andb_prop in Hfin as [_ Hlast%Z.eqb_eq].
    eapply wp_mono; [eapply (retire_stream_spec rid (acked (acked_seq s + 1) (slen e.1) s) (after_ack rid _ _ s d) Hack);
      [apply lookup_insert_eq|simpl; lia]|].
    intros r d' (-> & Hok' & Hr & Hev). split_and!; [done|done|]. exists s. split; [done|]. right. by split_and!.
  - wp_step. split_and!; [done|done|]. exists s. split; [done|]. right. split_and!; [done|done|eauto].
Qed.

(** ** Admission of a stream and of a run *)
Lemma new_stream_ok rid s d : outbox_ok d → event_streams d !! rid = None →
  acked_seq s = 0 → next_event_seq s = 1 → pending_bytes s = 0 → sealed s = false →
  total stream_pending (event_streams d) + total stream_open (event_streams d) * MAX_MANAGED_EVENT_BYTES
    + MAX_MANAGED_EVENT_BYTES ≤ MAX_TOTAL_PENDING →
  outbox_ok (set_event_streams (<[rid := s]> (event_streams d)) d).
Proof.
  intros [H1 H2 H3 H4 H5] Hnone Ha Hn Hp Hse Hcap.
  assert (∀ n, run_events d !! (rid, n) = None) as Hno.
  { intros n. apply eq_None_not_Some. rewrite H1. intros (q & ? & _). congruence. }
  split; simpl.
  - intros k n. rewrite H1. destruct (decide (k = rid)) as [->|Hne].
    + rewrite lookup_insert_eq Hnone. split; [by intros (? & ? & _)|]. intros (q & [= <-] & ?). lia.
    + by rewrite lookup_insert_ne.
  - intros k q [[<- <-]|[? Hk]]%lookup_insert_Some; [lia|eauto].
  - intros k q [[<- <-]|[? Hk]]%lookup_insert_Some; [|eauto]. by rewrite Hp total_event_bytes_none.
  - intros k q [[<- <-]|[? Hk]]%lookup_insert_Some; [|eauto]. rewrite Hp Hse. done.
  - rewrite !total_insert_new //. assert (stream_pending rid s = 0) as -> by done.
    assert (stream_open rid s = 1) as -> by (by rewrite /stream_open Hse). lia.
Qed.

Lemma admit_spec rid req d : outbox_ok d →
  wp (admit_stream rid req) d (λ r d', match r with Ok _ => outbox_ok d' ∧ same_runs d d' | Err _ => True end).
Proof.
  intros Hok. rewrite /admit_stream. wp_step. apply wp_cleanup; [done|]. intros d1 Hok1 Hr1.
  do 2 wp_step. cbn beta iota. wp_step. wp_step; [|done]. apply bool_decide_eq_true in H0. cbn beta iota zeta.
  destruct (member _ _) as [delivery|]; [|by wp_step]. wp_step. rewrite /get_run.
  apply wp_select_row; [intros run _|done]. wp_step. apply wp_ok_or; [intros retry _|done]. wp_step.
  apply wp_insert_fresh; [done|]. cbn beta iota. wp_step. apply wp_totals. cbn beta iota.
  apply wp_guard; [|done]. simpl. rewrite !total_insert_new // /= => Hcap.
  split; [|exact Hr1].
  apply new_stream_ok; try done.
  match type of Hcap with context [stream_open rid ?s] =>
    change (stream_open rid s) with 1 in Hcap end. lia.
Qed.

Record runs_ok (d : Db) : Prop := {
  run_phase : ∀ k r, managed_runs d !! k = Some r →
    1 ≤ epoch r ∧ known_phase (phase r) = true ∧ (is_Some (finished_at r) ↔ terminal_phase (phase r) = true);
  run_exclusive : ∀ k1 k2 r1 r2, managed_runs d !! k1 = Some r1 → managed_runs d !! k2 = Some r2 →
    k1 ≠ k2 → run_sandbox r1 = run_sandbox r2 → finished_at r1 = None → finished_at r2 = None →
    isolated (request_json r1) = true ∧ isolated (request_json r2) = true;
  run_count : Z.of_nat (size (managed_runs d)) ≤ MAX_RETAINED;
}.

(** What an update may change: identity and deadline are fixed, the epoch only
    grows, native identities bind once, a finished run is final. *)
Definition run_le (r r' : ManagedRun) : Prop :=
  run_sandbox r' = run_sandbox r ∧ run_owner r' = run_owner r ∧ request_json r' = request_json r ∧
  run_created_at r' = run_created_at r ∧ deadline_at r' = deadline_at r ∧ epoch r ≤ epoch r' ∧
  (∀ v, session_id r = Some v → session_id r' = Some v) ∧
  (∀ v, boot_id r = Some v → boot_id r' = Some v) ∧
  (is_Some (finished_at r) → r' = r).

Lemma run_le_refl r : run_le r r.
Proof. by rewrite /run_le. Qed.

Lemma run_le_trans r1 r2 r3 : run_le r1 r2 → run_le r2 r3 → run_le r1 r3.
Proof.
  intros (? & ? & ? & ? & ? & ? & Hs2 & Hb2 & Hf2) (? & ? & ? & ? & ? & ? & Hs3 & Hb3 & Hf3).
  rewrite /run_le. split_and!; try congruence; auto; [lia|]. intros Hf. rewrite Hf3; [|auto]. by rewrite Hf2.
Qed.

Definition fresh_run (sandbox owner req : string) (now deadline : Z) : ManagedRun :=
  mkRun sandbox owner req "starting" 1 None None now now deadline None None None.

Lemma admit_run_spec rid sandbox owner req now deadline d : outbox_ok d → runs_ok d →
  wp (admit_managed_run rid sandbox owner req now deadline) d (λ r d', match r with
    | Ok (run, created) =>
        if created then outbox_ok d' ∧ runs_ok d' ∧ managed_runs d !! rid = None ∧
          is_Some (sandboxes d !! sandbox) ∧
          managed_runs d' = <[rid := run]> (managed_runs d) ∧ run = fresh_run sandbox owner req now deadline
        else d' = d ∧ managed_runs d !! rid = Some run ∧ run_sandbox run = sandbox ∧ run_owner run = owner ∧
          request_json run = req
    | Err _ => d' = d
    end).
Proof.
  intros Hok Hruns. rewrite /admit_managed_run. apply wp_transaction. do 2 wp_step. cbn beta iota.
  destruct (managed_runs d !! rid) as [old|] eqn:Hold.
  { case_bool_decide; wp_step; [|done]. naive_solver. }
  wp_step. wp_step; [|done]. cbn beta iota. do 2 wp_step. cbn beta iota. wp_step. wp_step; [|done].
  apply bool_decide_eq_true in H1. cbn beta iota. wp_step. wp_step; [|done]. cbn beta iota. wp_step.
  apply wp_select_where. intros active Hactive _. wp_step. wp_step; [|done]. cbn beta iota. wp_step.
  rewrite forallb_forall in H3.
  apply wp_insert_fresh; [done|]. cbn beta iota. change (mkRun sandbox _ _ _ _ _ _ _ _ _ _ _ _) with (fresh_run sandbox owner req now deadline).
  set (d1 := set_managed_runs _ d). wp_step. eapply wp_mono.
  { apply (admit_spec rid req d1). by apply (outbox_ok_ext d). }
  intros [[]|e] d2; [|done]. intros [Hok2 [Hr2 _]]. cbn beta iota. wp_step. rewrite /get_run.
  assert (managed_runs d2 = <[rid := fresh_run sandbox owner req now deadline]> (managed_runs d)) as Hd2 by done.
  apply wp_select_row; rewrite Hd2 lookup_insert_eq; [intros r [= <-]|done]. wp_step. split_and!; try done.
  assert (∀ k r, managed_runs d !! k = Some r → run_sandbox r = sandbox → finished_at r = None →
    isolated req = true ∧ isolated (request_json r) = true) as Hiso.
  { intros k r Hk Hsb Hf. apply andb_prop. apply (H3 (k, r)). apply list_elem_of_In, Hactive. split; [done|].
    by rewrite !bool_decide_eq_true_2. }
  destruct Hruns as [P1 P2 P3]. split; rewrite Hd2.
  - intros k r [[<- <-]|[? Hk]]%lookup_insert_Some; [|eauto]. simpl. split_and!; done.
  - intros k1 k2 r1 r2 [[<- <-]|[? Hk1]]%lookup_insert_Some [[<- <-]|[? Hk2]]%lookup_insert_Some Hne Hsb Hf1 Hf2; simpl in *.
    + done.
    + by apply (Hiso k2).
    + split; by eapply (Hiso k1).
    + by eapply (P2 k1 k2).
  - rewrite map_size_insert_None //. lia.
Qed.

(** A write to one existing run. *)
Lemma set_run_ok rid r r' d : runs_ok d → managed_runs d !! rid = Some r → run_le r r' →
  known_phase (phase r') = true → (is_Some (finished_at r') ↔ terminal_phase (phase r') = true) →
  (finished_at r' = None → finished_at r = None) →
  runs_ok (set_managed_runs (<[rid := r']> (managed_runs d)) d).
Proof.
  intros [P1 P2 P3] Hr (Hsb & _ & Hreq & _ & _ & Hep & _) Hk Hf Hfin.
  destruct (P1 _ _ Hr) as (He & _). split; simpl.
  - intros k q [[<- <-]|[? Hq]]%lookup_insert_Some; [|eauto]. split_and!; [lia|done|done].
  - intros k1 k2 r1 r2 [[<- <-]|[? Hk1]]%lookup_insert_Some [[<- <-]|[? Hk2]]%lookup_insert_Some Hne Hs Hf1 Hf2;
      [done| | |by eapply (P2 k1 k2)].
    + rewrite Hreq. apply (P2 rid k2); try done; [congruence|auto].
    + rewrite Hreq. apply (P2 k1 rid); try done; [congruence|auto].
  - rewrite map_size_insert_Some //.
Qed.

Lemma claim_spec rid now d : outbox_ok d → runs_ok d →
  wp (claim_managed_run rid now) d (λ r d', match r with
    | Ok run => outbox_ok d' ∧ runs_ok d' ∧ ∃ old, managed_runs d !! rid = Some old ∧ finished_at old = None ∧
        epoch run = epoch old + 1 ∧ phase run = phase old ∧ run_le old run ∧
        managed_runs d' = <[rid := run]> (managed_runs d)
    | Err _ => d' = d
    end).
Proof.
  intros Hok Hruns. rewrite /claim_managed_run /get_run /set_run. apply wp_transaction. wp_step.
  apply wp_select_row; [intros old Hold|done]. wp_step. wp_step; [|done]. apply bool_decide_eq_true in H0.
  cbn beta iota. wp_step. apply wp_ok_or; [intros next Hnext|done].
  assert (next = epoch old + 1) as -> by (rewrite /Replicated.checked in Hnext; case_match; congruence).
  wp_step. apply wp_update_row; [intros v Hv _; simplify_eq|].
  2: { intros Hno. specialize (Hno _ Hold). by rewrite Z.eqb_refl H0 in Hno. }
  set (run := mkRun _ _ _ _ _ _ _ _ _ _ _ _ _). wp_step. wp_step; [|done]. cbn beta iota.
  assert (run_le old run) as Hle.
  { rewrite /run_le /run /=. split_and!; try done; [lia|]. rewrite H0. by intros []. }
  apply wp_select_row; simpl; rewrite lookup_insert_eq; [intros q [= <-]|done].
  split_and!; [by apply (outbox_ok_ext d)| |].
  - destruct (run_phase d Hruns rid old Hold) as (? & ? & ?). by eapply set_run_ok.
  - exists old. by split_and!.
Qed.

Lemma coalesce_keep {A} (new old : option A) v : (∀ n, new = Some n → old = Some v → n = v) →
  old = Some v → coalesce new old = Some v.
Proof. destruct new as [n|]; simpl; [|done]. intros Hn ->. by rewrite (Hn n). Qed.

Lemma rebinds_false new old n v : rebinds new old = false → new = Some n → old = Some v → n = v.
Proof. intros Hr -> ->. by apply negb_false_iff, bool_decide_eq_true in Hr. Qed.

Lemma update_spec rid ep ph session boot code det now term d : outbox_ok d → runs_ok d →
  wp (update_managed_run rid ep ph session boot code det now term) d (λ r d', match r with
    | Ok run => outbox_ok d' ∧ runs_ok d' ∧ ∃ old, managed_runs d !! rid = Some old ∧ finished_at old = None ∧
        epoch old = ep ∧ run_le old run ∧ run = updated ph session boot code det now term old ∧
        managed_runs d' = <[rid := run]> (managed_runs d)
    | Err _ => d' = d
    end).
Proof.
  intros Hok Hruns. rewrite /update_managed_run /get_run /set_run. wp_step. wp_step; [|done].
  apply andb_prop in H0 as [Hterm%eqb_prop Hknown]. cbn beta iota. apply wp_transaction. wp_step.
  apply wp_select_row; [intros old Hold|done]. wp_step. wp_step; [|done].
  apply andb_prop in H0 as [Hfin%bool_decide_eq_true Hep%Z.eqb_eq]. cbn beta iota. wp_step. wp_step; [|done].
  apply negb_true_iff, orb_false_iff in H0 as [Hs Hb]. cbn beta iota. wp_step.
  apply wp_update_row; [intros v Hv _; simplify_eq|].
  2: { intros Hno. specialize (Hno _ Hold). by rewrite Hep Z.eqb_refl Hfin in Hno. }
  wp_step. wp_step; [|done]. cbn beta iota. wp_step.
  set (run := updated ph session boot code det now (terminal_phase ph) old).
  apply wp_select_row; simpl; rewrite lookup_insert_eq; [intros q [= <-]|done].
  set (d1 := set_managed_runs _ d).
  assert (run_le old run) as Hle.
  { rewrite /run_le /run /updated /=. split_and!; try done.
    - intros w. apply coalesce_keep. intros n. by apply rebinds_false.
    - intros w. apply coalesce_keep. intros n. by apply rebinds_false.
    - rewrite Hfin. by intros []. }
  assert (outbox_ok d1) as Hok1 by (by apply (outbox_ok_ext d)).
  assert (runs_ok d1) as Hruns1.
  { apply (set_run_ok rid old run d); [done|done|done|done| |done].
    rewrite /run /updated /=. destruct (terminal_phase ph); [by split; [|eexists]|by split; [intros []|]]. }
  wp_step. destruct (terminal_phase ph).
  - eapply wp_mono; [by apply terminal_spec|]. intros [[]|e] d'; [|done]. intros [Hok' [Hr' Hsb']]. wp_step.
    split_and!; [done| |].
    + destruct Hruns1 as [P1 P2 P3]. by split; rewrite Hr'.
    + exists old. by split_and!.
  - wp_step. wp_step. split_and!; [done|done|]. exists old. by split_and!.
Qed.

(** ** Histories *)
Inductive Call :=
| AdmitRun (rid sandbox owner req : string) (now deadline : Z)
| Claim (rid : string) (now : Z)
| Update (rid : string) (ep : Z) (ph : string) (session boot : option string) (code : option Z)
    (det : option string) (now : Z) (term : bool)
| Checkpoint (rid : string) (ep offset gseq : Z) (c : string) (now : Z)
| FailSource (rid : string) (ep : Z)
| Acknowledge (rid : string) (n : Z)
| Cleanup
| DropSandbox (sid : string).

Definition call (c : Call) (d : Db) : Db :=
  match c with
  | AdmitRun rid sb o req now dl => (admit_managed_run rid sb o req now dl d).2
  | Claim rid now => (claim_managed_run rid now d).2
  | Update rid ep ph s b code det now term => (update_managed_run rid ep ph s b code det now term d).2
  | Checkpoint rid ep off g c now => (append_managed_run_checkpoint rid ep off g c now d).2
  | FailSource rid ep => (fail_managed_run_event_source rid ep d).2
  | Acknowledge rid n => (acknowledge_managed_run_event rid n d).2
  | Cleanup => (cleanup_managed_run_event_streams d).2
  | DropSandbox sid => (delete_sandbox sid d).2
  end.
Definition history (cs : list Call) (d : Db) : Db := foldl (λ d c, call c d) d cs.

Definition keeps_sandboxes (c : Call) : Prop := match c with DropSandbox _ => False | _ => True end.
Definition runs_le (d d' : Db) : Prop :=
  ∀ k r, managed_runs d !! k = Some r → ∃ r', managed_runs d' !! k = Some r' ∧ run_le r r'.

Lemma runs_le_same d d' : managed_runs d' = managed_runs d → runs_le d d'.
Proof. intros E k r Hk. exists r. rewrite E. split; [done|apply run_le_refl]. Qed.

Lemma runs_le_insert d d' rid r r' : managed_runs d' = <[rid := r']> (managed_runs d) →
  managed_runs d !! rid = Some r → run_le r r' → runs_le d d'.
Proof.
  intros E Hr Hle k q Hk. rewrite E. destruct (decide (k = rid)) as [->|Hne].
  - rewrite lookup_insert_eq. simplify_eq. eauto.
  - rewrite lookup_insert_ne //. exists q. split; [done|apply run_le_refl].
Qed.

Lemma runs_ok_same d d' : managed_runs d' = managed_runs d → runs_ok d → runs_ok d'.
Proof. intros E [P1 P2 P3]. by split; rewrite E. Qed.

Definition ok (d : Db) : Prop := outbox_ok d ∧ runs_ok d.

Lemma delete_sandbox_ok sid d : ok d → ok (delete_sandbox sid d).2.
Proof.
  intros [Hok [P1 P2 P3]]. assert (ok (delete_sandbox_row sid d).2) as [Hok1 Hr1].
  { split; [by apply (outbox_ok_ext d)|]. set (d1 := (delete_sandbox_row sid d).2).
    assert (managed_runs d1 = filter (λ kv, bool_decide (run_sandbox kv.2 = sid) = false) (managed_runs d)) as E by done.
    clearbody d1. split; rewrite E.
    - intros k r [? _]%map_lookup_filter_Some. eauto.
    - intros k1 k2 r1 r2 [? _]%map_lookup_filter_Some [? _]%map_lookup_filter_Some. eauto.
    - etrans; [|exact P3]. apply inj_le. rewrite -!(size_dom (D:=gset string)). apply subseteq_size.
      apply subseteq_dom, map_filter_subseteq. }
  rewrite /delete_sandbox /mbind /M_bind. destruct (delete_sandbox_row sid d) as [[[]|e] d1] eqn:E; [|done].
  simpl in Hok1, Hr1. destruct (cleanup_ok d1 Hok1) as [? [Hr _]]. split; [done|]. by eapply runs_ok_same.
Qed.

Definition good (d d' : Db) : Prop := ok d' ∧ runs_le d d'.

Lemma good_run_same d d' : ok d → outbox_ok d' → managed_runs d' = managed_runs d → good d d'.
Proof. intros [_ Hr] Ho E. split; [split; [done|by apply (runs_ok_same d)]|by apply runs_le_same]. Qed.

Lemma good_refl d : ok d → good d d.
Proof. intros Hok. by apply good_run_same; [|apply Hok|]. Qed.

Lemma wp_good {A} (m : DM A) d Q : wp m d Q → (∀ r d', Q r d' → good d d') → good d (m d).2.
Proof. rewrite /wp. intros Hw Hq. destruct (m d) as [r d']. by apply (Hq r). Qed.

Lemma good_call c d : ok d → keeps_sandboxes c → good d (call c d).
Proof.
  intros Hgood Hk. pose proof Hgood as [Hok Hruns].
  destruct c as [rid sb o req now dl|rid now|rid ep ph s b code det now term|rid ep off g c now|rid ep|rid n| |sid];
    cbn [call]; [..|done].
  - eapply wp_good; [by apply admit_run_spec|]. intros [[run []]|e] d'; [|intros (-> & _)|intros ->]; [|by apply good_refl..].
    intros (? & ? & Hn & _ & E & _). split; [done|]. intros k r Hr. exists r. rewrite E.
    rewrite lookup_insert_ne; [congruence|]. split; [done|apply run_le_refl].
  - eapply wp_good; [by apply claim_spec|]. intros [run|e] d'; [|intros ->; by apply good_refl].
    intros (? & ? & old & ? & _ & _ & _ & ? & ?). split; [done|by eapply runs_le_insert].
  - eapply wp_good; [by apply update_spec|]. intros [run|e] d'; [|intros ->; by apply good_refl].
    intros (? & ? & old & ? & _ & _ & ? & _ & ?). split; [done|by eapply runs_le_insert].
  - eapply wp_good; [by apply checkpoint_spec|]. intros [[]|e] d'; [|intros ->; by apply good_refl].
    intros (? & [? _] & _). by apply good_run_same.
  - eapply wp_good; [by apply fail_source_spec|]. intros [[]|e] d'; [|intros ->; by apply good_refl].
    intros (? & [? _] & _). by apply good_run_same.
  - eapply wp_good; [by apply acknowledge_spec|]. intros [[]|e] d'; [|intros ->; by apply good_refl].
    intros (? & [? _] & _). by apply good_run_same.
  - destruct (cleanup_ok d Hok) as [? [? _]]. by apply good_run_same.
Qed.

Lemma ok_call c d : ok d → ok (call c d).
Proof.
  intros Hok. destruct c; try (by apply good_call). by apply delete_sandbox_ok.
Qed.

Lemma ok_history cs d : ok d → ok (history cs d).
Proof. revert d. induction cs as [|c cs IH]; intros d Hok; [done|]. by apply IH, ok_call. Qed.

Lemma good_history cs d : ok d → Forall keeps_sandboxes cs → good d (history cs d).
Proof.
  revert d. induction cs as [|c cs IH]; intros d Hok Hcs; [by apply good_refl|].
  apply Forall_cons in Hcs as [Hc Hcs]. destruct (good_call c d Hok Hc) as [Hok1 H1].
  destruct (IH _ Hok1 Hcs) as [Hok2 H2]. split; [done|]. intros k r Hr.
  destruct (H1 k r Hr) as (r1 & Hr1 & ?). destruct (H2 k r1 Hr1) as (r2 & ? & ?).
  exists r2. split; [done|]. by eapply run_le_trans.
Qed.

Lemma ok_empty d : managed_runs d = ∅ → event_streams d = ∅ → run_events d = ∅ → ok d.
Proof.
  intros Hr Hs He. split; split; rewrite ?Hr ?Hs ?He.
  - intros k n. rewrite lookup_empty. split; [by intros []|]. by intros (s & ? & _).
  - done.
  - done.
  - done.
  - rewrite /total map_fold_empty. done.
  - done.
  - done.
  - rewrite map_size_empty. done.
Qed.

(** C25: the outbox along any history.  Starting from a store without runs, after
    any calls in any order every stream's retained events are exactly those
    numbered after its acknowledged cursor, their sizes add up to
    [pending_bytes], a run holds at most eight mebibytes, all of them together at
    most one hundred and twenty-eight, and an open stream always has room
    reserved for one more event of the maximal size. *)
Theorem outbox_history cs d : managed_runs d = ∅ → event_streams d = ∅ → run_events d = ∅ →
  let d' := history cs d in
  (∀ k s, event_streams d' !! k = Some s →
    (∀ n, is_Some (run_events d' !! (k, n)) ↔ acked_seq s < n < next_event_seq s) ∧
    pending_bytes s = total (event_bytes k) (run_events d') ∧
    pending_bytes s + (if sealed s then 0 else MAX_MANAGED_EVENT_BYTES) ≤ MAX_RUN_PENDING) ∧
  (∀ k n e, run_events d' !! (k, n) = Some e → is_Some (event_streams d' !! k)) ∧
  total stream_pending (event_streams d') + total stream_open (event_streams d') * MAX_MANAGED_EVENT_BYTES
    ≤ MAX_TOTAL_PENDING.
Proof.
  intros Hr Hs He d'. destruct (ok_history cs d) as [[H1 H2 H3 H4 H5] _]; [by apply ok_empty|]. fold d' in H1, H3, H4, H5.
  clearbody d'.
  split_and!; [|intros k n e Hn; destruct (proj1 (H1 k n)) as (s & ? & _); eauto|exact H5].
  intros k s Hk. split_and!; [|by apply H3|specialize (H4 _ _ Hk); lia].
  intros n. rewrite H1. split; [intros (q & ? & ?); by simplify_eq|eauto].
Qed.

(** C26: admission along any history.  At most 4096 runs are retained, and two
    unfinished runs of one sandbox exist only when both requests ask for an
    isolated session and neither fences the machine on failure; a run is
    finished exactly when its phase is terminal. *)
Theorem runs_exclusive cs d : managed_runs d = ∅ → event_streams d = ∅ → run_events d = ∅ →
  let d' := history cs d in
  Z.of_nat (size (managed_runs d')) ≤ 4096 ∧
  (∀ k r, managed_runs d' !! k = Some r → (is_Some (finished_at r) ↔ terminal_phase (phase r) = true)) ∧
  (∀ k1 k2 r1 r2, managed_runs d' !! k1 = Some r1 → managed_runs d' !! k2 = Some r2 → k1 ≠ k2 →
    run_sandbox r1 = run_sandbox r2 → finished_at r1 = None → finished_at r2 = None →
    isolated (request_json r1) = true ∧ isolated (request_json r2) = true).
Proof.
  intros Hr Hs He d'. destruct (ok_history cs d) as [_ [P1 P2 P3]]; [by apply ok_empty|].
  split_and!; [exact P3| |exact P2]. intros k r Hk. by destruct (P1 _ _ Hk) as (_ & _ & ?).
Qed.

(** C24: epoch fencing.  Once a run is claimed at some epoch, then after any
    further calls that keep the sandbox the run is still there with the same
    identity, request and deadline, at least that epoch and the native identities
    it had, and every update, checkpoint or source failure that still carries an
    older epoch is refused and leaves the store untouched. *)
Theorem stale_epoch_refused rid now d run d1 cs : ok d → claim_managed_run rid now d = (Ok run, d1) →
  Forall keeps_sandboxes cs → let d' := history cs d1 in
  (∃ r, managed_runs d' !! rid = Some r ∧ run_le run r) ∧
  ∀ ep, ep < epoch run →
    (∀ ph s b code det t term, ∃ e, update_managed_run rid ep ph s b code det t term d' = (Err e, d')) ∧
    (∀ off g c t, ∃ e, append_managed_run_checkpoint rid ep off g c t d' = (Err e, d')) ∧
    (∃ e, fail_managed_run_event_source rid ep d' = (Err e, d')).
Proof.
  intros [Hok Hruns] Hcl Hcs d'. pose proof (claim_spec rid now d Hok Hruns) as Hw.
  rewrite /wp Hcl in Hw. destruct Hw as (Hok1 & Hruns1 & _ & _ & _ & _ & _ & _ & E).
  destruct (good_history cs d1 (conj Hok1 Hruns1) Hcs) as [[Hok2 Hruns2] Hle]. fold d' in Hok2, Hruns2, Hle.
  destruct (Hle rid run) as (r & Hr & Hrr); [by rewrite E lookup_insert_eq|].
  assert (epoch run ≤ epoch r) as Hep by (destruct Hrr as (_ & _ & _ & _ & _ & ? & _); done).
  split; [by exists r|]. intros ep Hlt. clearbody d'. split_and!.
  - intros. pose proof (update_spec rid ep ph s b code det t term d' Hok2 Hruns2) as Hu. rewrite /wp in Hu.
    destruct (update_managed_run _ _ _ _ _ _ _ _ _ _) as [[q|e] d2]; simpl in Hu; [|subst d2; eauto].
    destruct Hu as (_ & _ & old & ? & _ & ? & _). simplify_eq. lia.
  - intros. pose proof (checkpoint_spec rid ep off g c t d' Hok2) as Hu. rewrite /wp in Hu.
    destruct (append_managed_run_checkpoint _ _ _ _ _ _ _) as [[q|e] d2]; simpl in Hu; [|subst d2; eauto].
    destruct Hu as (_ & _ & old & s & ? & ? & _). simplify_eq. lia.
  - pose proof (fail_source_spec rid ep d' Hok2) as Hu. rewrite /wp in Hu.
    destruct (fail_managed_run_event_source _ _ _) as [[q|e] d2]; simpl in Hu; [|subst d2; eauto].
    destruct Hu as (_ & _ & old & ? & ? & _). simplify_eq. lia.
Qed.

End Runs.

(** ** A concrete run *)
Inductive Json := JNull | JTrue | JStr (s : string) | JNum (z : Z) | JObj (l : list (string * Json)).

Definition field (v : Json) (k : string) : option Json :=
  match v with JObj l => snd <$> find (λ kv, bool_decide (kv.1 = k)) l | _ => None end.

(** Two request texts are understood: a plain one and one with a delivery. *)
#[local] Instance json : JsonApi := {|
  json_serde := {| Value := Json; Null := JNull;
    to_string v := match v with JObj _ => "{event}" | JStr s => s | _ => "-" end;
    from_str s := if decide (s = "deliver"%string)
                  then Some (JObj [("event_delivery", JObj [("request_hash", JStr "h")])]) else Some (JStr s) |};
  member := field; is_true v := match v with JTrue => true | _ => false end;
  as_str v := match v with JStr s => Some s | _ => None end;
  Str := JStr; Num := JNum; Obj := JObj; remove v k := None; run_value k r := JStr k |}.

Definition session : list Call :=
  [AdmitRun "r" "a" "u" "deliver" 10 100; Claim "r" 11; Update "r" 2 "running" (Some "s"%string) None None None 12 false;
   Checkpoint "r" 2 64 1 "state" 13; Update "r" 2 "succeeded" None None (Some 0) None 14 true; Acknowledge "r" 1].

Definition before : Db := history (take 4 session) small_db.
Definition after : Db := history session small_db.

Lemma small_db_ok : ok small_db.
Proof. by apply ok_empty. Qed.

Lemma outbox_history_witness :
  ((λ s, (acked_seq s, next_event_seq s, pending_bytes s, sealed s)) <$> event_streams after !! "r"%string)
    = Some (1, 3, 7, true) ∧
  total stream_pending (event_streams after) + total stream_open (event_streams after) * MAX_MANAGED_EVENT_BYTES
    ≤ MAX_TOTAL_PENDING.
Proof.
  split; [vm_compute; reflexivity|].
  destruct (outbox_history session small_db) as (_ & _ & Ht); [reflexivity|reflexivity|reflexivity|exact Ht].
Defined.

Lemma runs_exclusive_witness :
  (phase <$> managed_runs after !! "r"%string) = Some "succeeded"%string ∧ Z.of_nat (size (managed_runs after)) ≤ 4096.
Proof.
  split; [vm_compute; reflexivity|].
  destruct (runs_exclusive session small_db) as (Hs & _); [reflexivity|reflexivity|reflexivity|exact Hs].
Defined.

Definition claimed : Result Error ManagedRun * Db := claim_managed_run "r" 20 before.

Lemma stale_epoch_refused_witness :
  ∃ run, claimed.1 = Ok run ∧ epoch run = 3 ∧
  ∃ e, fail_managed_run_event_source "r" 2 (history [Acknowledge "r" 1] claimed.2)
    = (Err e, history [Acknowledge "r" 1] claimed.2).
Proof.
  exists (default (fresh_run "" "" "" 0 0) (match claimed.1 with Ok r => Some r | Err _ => None end)).
  split; [vm_compute; reflexivity|]. split; [vm_compute; reflexivity|].
  eapply (stale_epoch_refused "r" 20 before _ claimed.2 [Acknowledge "r" 1]).
  - apply ok_history, small_db_ok.
  - instantiate (1 := default (fresh_run "" "" "" 0 0) (match claimed.1 with Ok r => Some r | Err _ => None end)).
    vm_compute. reflexivity.
  - by repeat constructor.
  - vm_compute. reflexivity.
Defined.

Definition run_r : ManagedRun := default (fresh_run "" "" "" 0 0) (managed_runs before !! "r"%string).
Definition stream_r : EventStream :=
  default (mkStream "" 0 0 0 0 0 None 0 false false) (event_streams before !! "r"%string).
Definition receipt_r : Value := default Null (envelope "r" run_r 2 "receipt" None).

Lemma final_receipt_fits_witness :
  event_streams before !! "r"%string = Some stream_r ∧ pending_bytes stream_r = 7 ∧
  wp (append "r" run_r "receipt" None 15) before (λ r d', r = Ok tt ∧ outbox_ok d' ∧
    run_events d' !! ("r"%string, next_event_seq stream_r) = Some (to_string receipt_r, 15) ∧
    sealed <$> event_streams d' !! "r"%string = Some true).
Proof.
  split; [vm_compute; reflexivity|]. split; [vm_compute; reflexivity|].
  apply (final_receipt_fits "r" run_r None receipt_r 15 before stream_r).
  - apply ok_history, small_db_ok.
  - vm_compute. reflexivity.
  - vm_compute. reflexivity.
  - vm_compute. reflexivity.
  - vm_compute. eauto.
  - vm_compute. reflexivity.
  - vm_compute. discriminate.
Defined.

End Runs.
