(* ===== verification/ProjectImages.v ===== *)
(** Project environment images, [ahvm-store/src/project_images.rs]: builders,
    image captures charged against the storage quota, the pins that keep an image
    alive, and the retention generations that replace them. *)
From stdpp Require Import relations.
From S2P Require Import Prelude Paging Sums Db Lifecycle Replicated Runs.

Module ProjectImages.
Import Store Lifecycle Replicated Runs.

Section ProjectImages.
Context `{JsonApi}.

Definition image (iid : string) : DM ProjectEnvironmentImage := select_row project_images iid NotFound.

Definition str_is (v : Value) (k s : string) : bool := bool_decide (as_str (at_key v k) = Some s).

(** Every disk of the sandbox's name is gone. *)
Definition disk_retained (sandbox : string) : DM bool :=
  sbs ← gets sandboxes;
  o ← exists_where replicated_reservations (λ _ r, bool_decide (res_sandbox r = sandbox) && negb (logical_released r));
  mret (bool_decide (is_Some (sbs !! sandbox)) || o).

(** *** Builders *)
Definition same_builder (a b : ProjectEnvironmentBuilder) : bool :=
  bool_decide (bld_sandbox a = bld_sandbox b ∧ bld_owner a = bld_owner b ∧ bld_request a = bld_request b
               ∧ bld_metadata a = bld_metadata b).

Definition with_builder_phase (ph : string) (b : ProjectEnvironmentBuilder) : ProjectEnvironmentBuilder :=
  mkBuilder (bld_sandbox b) (bld_owner b) (bld_request b) (bld_metadata b) ph (bld_created_at b).

Definition admit_project_builder (bid : string) (row : ProjectEnvironmentBuilder) : DM bool :=
  transaction (
    t ← gets builders;
    match t !! bid with
    | Some old => if same_builder old row then mret false else fail Conflict
    | None =>
        o ← disk_retained (bld_sandbox row);
        guard_err (negb o) Conflict;;
        references users (bld_owner row);;
        taken ← exists_where builders (λ _ b, bool_decide (bld_sandbox b = bld_sandbox row));
        guard_err (negb taken) Sqlite;;
        insert_row builders set_builders bid (with_builder_phase "creating" row);;
        mret true
    end).

Definition project_builder (bid : string) : DM ProjectEnvironmentBuilder := select_row builders bid NotFound.

Definition project_builder_for_sandbox (sid : string) : DM (option (string * ProjectEnvironmentBuilder)) :=
  l ← select_where builders (λ _ b, bool_decide (bld_sandbox b = sid)); mret (head l).

Definition set_project_builder_phase (bid ph : string) : DM unit :=
  guard_err (bool_decide (ph ∈ ["creating"; "sealed"; "captured"; "retired"; "failed"]%string)) Conflict;;
  n ← update_row builders set_builders bid (λ _, true) (with_builder_phase ph);
  guard_err (n =? 1) NotFound.

Definition base_invalid : string :=
  let q := String.String (Ascii.ascii_of_N 34) EmptyString in
  ("{" +:+ q +:+ "code" +:+ q +:+ ":" +:+ q +:+ "project_image_base_invalid" +:+ q +:+ "," +:+ q +:+ "message" +:+ q
   +:+ ":" +:+ q +:+ "installed Ubuntu base does not match its frozen digest" +:+ q +:+ "}")%string.

Definition reject_project_builder (bid req : string) (now : Z) : DM unit :=
  transaction (
    b ← select_row builders bid Sqlite;
    o ← disk_retained (bld_sandbox b);
    any ← exists_where lifecycle_operations (λ _ r, bool_decide (op_sandbox r = bld_sandbox b));
    guard_err (negb (o || any || negb (bool_decide (bld_phase b = "creating"%string)))) Conflict;;
    insert_row lifecycle_operations set_lifecycle_operations ("project-builder-" +:+ bid)%string
      (mkOperation (bld_owner b) (bld_sandbox b) req "done" (Some 409) (Some base_invalid) (Some "absent"%string) None now);;
    update_row builders set_builders bid (λ _, true) (with_builder_phase "failed");;
    mret tt).

(** *** Captures *)
Definition same_image (a b : ProjectEnvironmentImage) : bool :=
  bool_decide (img_owner a = img_owner b ∧ tenant_id a = tenant_id b ∧ project_id a = project_id b
    ∧ img_request a = img_request b ∧ img_metadata a = img_metadata b ∧ source_volume_id a = source_volume_id b
    ∧ img_logical_bytes a = img_logical_bytes b ∧ source_sandbox_id a = source_sandbox_id b).

Definition geometry_ok (row : ProjectEnvironmentImage) : bool :=
  match checked (source_logical_bytes row + 65536) with
  | Some n => (img_logical_bytes row =? n) && (0 <? source_logical_bytes row) && (img_logical_bytes row <=? MAX_BYTES)
              && (source_logical_bytes row mod 65536 =? 0)
  | None => false
  end.

Definition advance_image (ph : string) (digest path detail : option string) (now : Z) (i : ProjectEnvironmentImage)
    : ProjectEnvironmentImage :=
  mkProjectImage (img_owner i) (tenant_id i) (project_id i) (img_metadata i) (img_request i) (source_volume_id i)
    (source_sandbox_id i) (source_logical_bytes i) (img_logical_bytes i) ph digest path detail (img_created_at i) now.

(** [ensure the quota]: disks, images and legacy volumes with the new artifact. *)
Definition image_charge (owner : string) (bytes : Z) : DM unit :=
  u ← usage owner;
  vs ← gets volumes;
  legacy ← sql_sum (total (legacy_size owner) vs);
  us ← gets users;
  max ← ok_or (max_volumes_mb <$> us !! owner) Sqlite;
  images ← image_usage owner;
  sum ← ok_or (n ← checked (usage_bytes u + images); l ← checked (legacy * MB); m ← checked (n + l); checked (m + bytes))
    Conflict;
  guard_err (sizes_valid owner vs && (0 <=? max)) Conflict;;
  limit ← ok_or (checked (max * MB)) Conflict;
  guard_err (sum <=? limit) Conflict.

Definition insert_image (iid : string) (row : ProjectEnvironmentImage) : DM unit :=
  references builders iid;; references users (img_owner row);;
  insert_row project_images set_project_images iid row.

Definition insert_ref (kind ref iid : string) : DM unit :=
  references project_images iid;; insert_row image_refs set_image_refs (kind, ref) iid.

(** [INSERT OR IGNORE] *)
Definition insert_ref_or_ignore (kind ref iid : string) : DM unit :=
  t ← gets image_refs;
  match t !! (kind, ref) with
  | Some _ => mret tt
  | None => insert_ref kind ref iid
  end.

Definition admit_project_image (iid : string) (row : ProjectEnvironmentImage) : DM bool :=
  guard_err (geometry_ok row) Conflict;;
  transaction (
    t ← gets project_images;
    match t !! iid with
    | Some old => if same_image old row then mret false else fail Conflict
    | None =>
        bs ← gets builders;
        b ← ok_or (b ← bs !! iid; if bool_decide (bld_sandbox b = source_sandbox_id row) then Some b else None) Sqlite;
        provenance ← ok_or (from_str (bld_metadata b)) JsonError;
        guard_err (bool_decide (bld_owner b = img_owner row ∧ bld_metadata b = img_metadata row)
                   && str_is provenance "tenant_id" (tenant_id row) && str_is provenance "project_id" (project_id row)
                   && str_is provenance "build_id" iid) Conflict;;
        image_charge (bld_owner b) (img_logical_bytes row);;
        insert_image iid (advance_image "preparing" None None None (img_created_at row) row);;
        insert_ref "build" iid iid;;
        mret true
    end).

Definition project_image (iid : string) : DM ProjectEnvironmentImage := image iid.

(** [ORDER BY created_at DESC]; ties are in no particular order. *)
Definition latest (x y : string * ReplicatedReservation) : Prop := res_created_at y.2 ≤ res_created_at x.2.
#[export] Instance latest_dec x y : Decision (latest x y).
Proof. rewrite /latest. apply _. Defined.

Definition zero64 : string := String.string_of_list_ascii (replicate 64 (Ascii.ascii_of_N 48)).

Definition retire_unadmitted_project_image (iid owner : string) (now : Z) : DM ProjectEnvironmentImage :=
  transaction (
    t ← gets project_images;
    guard_err (bool_decide (t !! iid = None)) Conflict;;
    b ← select_row builders iid NotFound;
    guard_err (bool_decide (bld_owner b = owner)) NotFound;;
    metadata ← ok_or (from_str (bld_metadata b)) JsonError;
    tenant ← ok_or (as_str (at_key metadata "tenant_id")) Conflict;
    project ← ok_or (as_str (at_key metadata "project_id")) Conflict;
    l ← select_where replicated_reservations
          (λ _ r, bool_decide (res_owner r = owner ∧ res_sandbox r = bld_sandbox b));
    let '(volume, bytes) := match merge_sort latest l with
                            | (v, r) :: _ => (v, logical_bytes r)
                            | [] => (zero64, 0) end in
    insert_image iid (mkProjectImage owner tenant project (bld_metadata b) "{}" volume (bld_sandbox b) bytes 0
                        "retired" None None (Some "capture_not_admitted"%string) now now);;
    image iid).

Definition project_image_usage (owner : string) : DM Z := image_usage owner.

(** Quota, image and disk bytes. *)
Definition project_storage_usage (owner : string) : DM (Z * Z * Z) :=
  us ← gets users;
  max ← ok_or (max_volumes_mb <$> us !! owner) Sqlite;
  images ← image_usage owner;
  u ← usage owner;
  vs ← gets volumes;
  legacy ← sql_sum (total (legacy_size owner) vs);
  guard_err ((0 <=? max) && (0 <=? images) && (0 <=? usage_bytes u) && sizes_valid owner vs) Conflict;;
  quota ← ok_or (checked (max * MB)) Conflict;
  disks ← ok_or (l ← checked (legacy * MB); checked (l + usage_bytes u)) Conflict;
  mret (quota, images, disks).

Definition in_progress (i : ProjectEnvironmentImage) : bool := bool_decide (img_phase i ∈ ["preparing"; "capturing"]%string).

Definition pending_bytes_of (_ : string) (i : ProjectEnvironmentImage) : Z :=
  if in_progress i then img_logical_bytes i else 0.
Definition pending_project_image_bytes : DM Z :=
  t ← gets project_images; sql_sum (total pending_bytes_of t).

Definition oldest (x y : string * ProjectEnvironmentImage) : Prop := img_created_at x.2 ≤ img_created_at y.2.
#[export] Instance oldest_dec x y : Decision (oldest x y).
Proof. rewrite /oldest. apply _. Defined.
Definition unfinished_project_images : DM (list (string * ProjectEnvironmentImage)) :=
  l ← select_where project_images (λ _ i, in_progress i || bool_decide (img_phase i = "deleting"%string));
  mret (take 4096 (merge_sort oldest l)).

(** *** The phase machine *)
Definition may_move (ph : string) (i : ProjectEnvironmentImage) : bool :=
  bool_decide (ph = "capturing"%string ∧ img_phase i = "preparing"%string)
  || (bool_decide (ph = "failed"%string) && in_progress i).

Definition set_project_image_phase (iid ph : string) (detail : option string) (now : Z) : DM unit :=
  guard_err (bool_decide (ph ∈ ["capturing"; "failed"]%string)) Conflict;;
  n ← update_row project_images set_project_images iid (may_move ph)
        (λ i, advance_image ph (img_digest i) (image_path i) detail now i);
  guard_err (n =? 1) Conflict.

Definition finish_project_image (iid digest path : string) (now : Z) : DM unit :=
  n ← update_row project_images set_project_images iid (λ i, bool_decide (img_phase i = "capturing"%string))
        (advance_image "ready" (Some digest) (Some path) None now);
  guard_err (n =? 1) Conflict.

Definition set_project_image_detail (iid expected detail : string) (now : Z) : DM unit :=
  n ← update_row project_images set_project_images iid (λ i, bool_decide (img_phase i = expected))
        (λ i, advance_image (img_phase i) (img_digest i) (image_path i) (Some detail) now i);
  guard_err (n =? 1) Conflict.

(** *** Pins *)
Definition pin_project_image_vm (iid owner tenant project digest sandbox : string) : DM unit :=
  transaction (
    row ← image iid;
    guard_err (bool_decide (img_owner row = owner ∧ tenant_id row = tenant ∧ project_id row = project
                            ∧ img_digest row = Some digest ∧ img_phase row = "ready"%string)) Conflict;;
    t ← gets image_refs;
    guard_err (match t !! ("vm"%string, sandbox) with Some p => bool_decide (p = iid) | None => true end) Conflict;;
    insert_ref_or_ignore "vm" sandbox iid).

Definition release_project_image_vm (sandbox : string) : DM unit :=
  transaction (
    o ← disk_retained sandbox;
    p ← exists_where lifecycle_operations (λ _ r, bool_decide (op_sandbox r = sandbox) && is_pending r);
    guard_err (negb (o || p)) Conflict;;
    delete_row image_refs set_image_refs ("vm"%string, sandbox)).

Definition project_image_vm (sandbox : string) : DM (option ProjectEnvironmentImage) :=
  t ← gets image_refs;
  match t !! ("vm"%string, sandbox) with
  | Some iid => i ← image iid; mret (Some i)
  | None => mret None
  end.

Definition ref_order (x y : string * string * string) : Prop := String.le x.1.2 y.1.2.
#[export] Instance ref_order_dec x y : Decision (ref_order x y).
Proof. rewrite /ref_order. apply _. Defined.
Definition project_image_vm_pins : DM (list (string * ProjectEnvironmentImage)) :=
  l ← select_where image_refs (λ k _, bool_decide (k.1 = "vm"%string));
  foldM (λ acc kv, i ← image kv.2; mret (acc ++ [(kv.1.2, i)])) [] (take 4096 (merge_sort ref_order l)).

(** [ORDER BY created_at DESC,id DESC] *)
Definition recent (x y : string * LifecycleOperation) : Prop :=
  op_created_at y.2 < op_created_at x.2 ∨ op_created_at x.2 = op_created_at y.2 ∧ String.le y.1 x.1.
#[export] Instance recent_dec x y : Decision (recent x y).
Proof. rewrite /recent. apply _. Defined.

Fixpoint find_create (iid : string) (l : list (string * LifecycleOperation)) : DM (option string) :=
  match l with
  | [] => mret None
  | (oid, op) :: l =>
      v ← ok_or (from_str (request op)) JsonError;
      if str_is v "action" "create" && str_is (at_key v "project_image") "image_id" iid
      then mret (if bool_decide (op_state op = "pending"%string) then None else Some oid)
      else find_create iid l
  end.

Definition terminal_project_image_create (sandbox iid : string) : DM (option string) :=
  l ← select_where lifecycle_operations (λ _ op, bool_decide (op_sandbox op = sandbox));
  find_create iid (take 1024 (merge_sort recent l)).

(** *** Retention *)
Definition retention_valid (generation : Z) (current previous : option string) (active release : list string) : bool :=
  (1 <=? generation) && (length active <=? 64)%nat && (length release <=? 64)%nat
  && negb (existsb (λ i, bool_decide (i ∈ release)) active)
  && negb (bool_decide (is_Some current) && bool_decide (current = previous)).

(** One image of a retention set; [ready] for the current and previous ones. *)
Definition retainable (owner tenant project : string) (release : list string) (x : string * bool) : DM unit :=
  row ← image x.1;
  guard_err (bool_decide (img_owner row = owner ∧ tenant_id row = tenant ∧ project_id row = project)
    && negb (bool_decide (img_phase row ∈ ["retired"; "deleting"]%string))
    && (negb x.2 || bool_decide (img_phase row = "ready"%string))) Conflict;;
  guard_err (negb (bool_decide (x.1 ∈ release)) || bool_decide (img_phase row ∈ ["ready"; "failed"]%string)) Conflict.

Definition of_project (owner tenant project : string) (i : ProjectEnvironmentImage) : bool :=
  bool_decide (img_owner i = owner ∧ tenant_id i = tenant ∧ project_id i = project).

Definition replace_pins (owner tenant project : string) (current previous : option string) (active release : list string)
    : DM unit :=
  t ← gets project_images;
  delete_where image_refs set_image_refs (λ k iid, bool_decide (k.1 ∈ ["current"; "previous"]%string)
    && match t !! iid with Some i => of_project owner tenant project i | None => false end);;
  let key := (tenant +:+ "/" +:+ project)%string in
  for_each (option_list current) (insert_ref "current" key);;
  for_each (option_list previous) (insert_ref "previous" key);;
  for_each active (λ iid, insert_ref_or_ignore "build" iid iid);;
  for_each release (λ iid, delete_where image_refs set_image_refs (λ k i, bool_decide (k = ("build"%string, iid) ∧ i = iid))).

Definition retain_project_images (owner tenant project : string) (generation : Z) (req : string)
    (current previous : option string) (active release : list string) : DM unit :=
  guard_err (retention_valid generation current previous active release) Conflict;;
  transaction (
    t ← gets retention;
    let old := t !! (owner, tenant, project) in
    guard_err (match old with
               | Some (prior, body) => negb (generation <? prior)
                                       && (negb (generation =? prior) || bool_decide (body = req))
               | None => true end) Conflict;;
    if match old with Some (prior, _) => generation =? prior | None => false end then mret tt else
    for_each (map (λ i, (i, true)) (option_list current ++ option_list previous)
              ++ map (λ i, (i, false)) (active ++ release)) (retainable owner tenant project release);;
    replace_pins owner tenant project current previous active release;;
    references users owner;;
    modify (λ d, set_retention (<[(owner, tenant, project) := (generation, req)]> (retention d)) d)).

(** *** Deletion *)
Definition referenced (iid : string) : DM bool := exists_where image_refs (λ _ i, bool_decide (i = iid)).

Definition set_image_phase (ph : string) (now : Z) (i : ProjectEnvironmentImage) : ProjectEnvironmentImage :=
  advance_image ph (img_digest i) (image_path i) (img_detail i) now i.

Definition begin_project_image_delete (iid owner : string) (now : Z) : DM ProjectEnvironmentImage :=
  transaction (
    row ← image iid;
    guard_err (bool_decide (img_owner row = owner)) NotFound;;
    if bool_decide (img_phase row = "retired"%string) then mret row else
    refs ← referenced iid;
    guard_err (negb (refs || in_progress row)) Conflict;;
    update_row project_images set_project_images iid (λ _, true) (set_image_phase "deleting" now);;
    image iid).

Definition finish_project_image_retirement (iid : string) (now : Z) : DM unit :=
  transaction (
    row ← image iid;
    if bool_decide (img_phase row = "retired"%string) then mret tt else
    refs ← referenced iid;
    guard_err (bool_decide (img_phase row = "deleting"%string) && negb refs) Conflict;;
    update_row project_images set_project_images iid (λ _, true) (set_image_phase "retired" now);;
    mret tt).

(** ** Pins and phases *)
Inductive phase_step : string → string → Prop :=
| to_capturing : phase_step "preparing" "capturing"
| preparing_fails : phase_step "preparing" "failed"
| capturing_fails : phase_step "capturing" "failed"
| to_ready : phase_step "capturing" "ready"
| ready_deletes : phase_step "ready" "deleting"
| failed_deletes : phase_step "failed" "deleting"
| to_retired : phase_step "deleting" "retired".

Definition alive (i : ProjectEnvironmentImage) : Prop := img_phase i ∉ ["deleting"; "retired"]%string.

(** A well-formed image: a known phase, a digest exactly from readiness on. *)
Definition image_wf (i : ProjectEnvironmentImage) : Prop :=
  img_phase i ∈ ["preparing"; "capturing"; "ready"; "failed"; "deleting"; "retired"]%string ∧
  (in_progress i = true → img_digest i = None) ∧
  (img_phase i = "ready"%string → is_Some (img_digest i) ∧ is_Some (image_path i)).

Record pins_ok (d : Db) : Prop := {
  pin_build : ∀ k iid, image_refs d !! ("build"%string, k) = Some iid → k = iid;
  pin_alive : ∀ k iid, image_refs d !! k = Some iid → ∃ i, project_images d !! iid = Some i ∧ alive i ∧
    (k.1 ≠ "build"%string → img_phase i = "ready"%string);
  pin_capture : ∀ iid i, project_images d !! iid = Some i → in_progress i = true →
    image_refs d !! ("build"%string, iid) = Some iid;
  pin_wf : ∀ iid i, project_images d !! iid = Some i → image_wf i;
}.

Definition image_le (i i' : ProjectEnvironmentImage) : Prop :=
  img_owner i' = img_owner i ∧ tenant_id i' = tenant_id i ∧ project_id i' = project_id i ∧
  img_request i' = img_request i ∧ img_metadata i' = img_metadata i ∧
  source_volume_id i' = source_volume_id i ∧ img_logical_bytes i' = img_logical_bytes i ∧
  rtc phase_step (img_phase i) (img_phase i') ∧
  (∀ x, img_digest i = Some x → img_digest i' = Some x).

Definition images_le (d d' : Db) : Prop :=
  ∀ k i, project_images d !! k = Some i → ∃ i', project_images d' !! k = Some i' ∧ image_le i i'.

Definition retention_le (d d' : Db) : Prop :=
  ∀ k g b, retention d !! k = Some (g, b) → ∃ g' b', retention d' !! k = Some (g', b') ∧ (g < g' ∨ g = g' ∧ b = b').

Definition advances (d d' : Db) : Prop := pins_ok d' ∧ images_le d d' ∧ retention_le d d'.

Lemma image_le_refl i : image_le i i.
Proof. rewrite /image_le. by split_and!. Qed.

Lemma images_le_same d d' : project_images d' = project_images d → images_le d d'.
Proof. intros E k i Hi. exists i. rewrite E. split; [done|apply image_le_refl]. Qed.

Lemma retention_le_same d d' : retention d' = retention d → retention_le d d'.
Proof. intros E k g b Hg. exists g, b. rewrite E. auto. Qed.

Lemma advances_refl d : pins_ok d → advances d d.
Proof. intros Hok. split_and!; [done|by apply images_le_same|by apply retention_le_same]. Qed.

Lemma advances_trans d1 d2 d3 : advances d1 d2 → advances d2 d3 → advances d1 d3.
Proof.
  intros (_ & H1 & R1) (Hok & H2 & R2). split_and!; [done| |].
  - intros k i Hi. destruct (H1 k i Hi) as (i2 & Hi2 & (?&?&?&?&?&?&?&Hp2&Hd2)).
    destruct (H2 k i2 Hi2) as (i3 & Hi3 & (?&?&?&?&?&?&?&Hp3&Hd3)). exists i3. split; [done|].
    rewrite /image_le. split_and!; try congruence; [by etrans|auto].
  - intros k g b Hg. destruct (R1 k g b Hg) as (g2 & b2 & Hg2 & C2).
    destruct (R2 k g2 b2 Hg2) as (g3 & b3 & ? & C3). exists g3, b3. split; [done|].
    destruct C2 as [|[-> ->]], C3 as [|[-> ->]]; (by right) || (left; lia).
Qed.

(** A method of other tables. *)
Lemma advances_frame d d' : pins_ok d → project_images d' = project_images d → image_refs d' = image_refs d →
  retention d' = retention d → advances d d'.
Proof.
  intros [H1 H2 H3 H4] Ei Er Et. split_and!; [|by apply images_le_same|by apply retention_le_same].
  split; rewrite ?Er ?Ei; eauto.
Qed.

(** A new phase of one image, compatible with the pins it has. *)
Lemma advances_image iid i i' d : pins_ok d → project_images d !! iid = Some i → image_le i i' → image_wf i' →
  (in_progress i' = true → in_progress i = true) →
  (∀ k, image_refs d !! k = Some iid → alive i' ∧ (k.1 ≠ "build"%string → img_phase i' = "ready"%string)) →
  advances d (set_project_images (<[iid := i']> (project_images d)) d).
Proof.
  intros [H1 H2 H3 H4] Hi Hle Hwf Hprog Hpins. split_and!; [split; simpl| |by apply retention_le_same].
  - exact H1.
  - intros k j Hk. destruct (decide (j = iid)) as [->|Hne].
    + exists i'. rewrite lookup_insert_eq. split; [done|by apply Hpins].
    + rewrite lookup_insert_ne; [congruence|]. by apply H2.
  - intros j q [[<- <-]|[? Hq]]%lookup_insert_Some Hin; [|by eapply H3]. eapply H3; [done|by apply Hprog].
  - intros j q [[<- <-]|[? Hq]]%lookup_insert_Some; [done|by eapply H4].
  - intros k q Hq. simpl. destruct (decide (k = iid)) as [->|Hne].
    + rewrite lookup_insert_eq. exists i'. by simplify_eq.
    + rewrite lookup_insert_ne; [congruence|]. exists q. split; [done|apply image_le_refl].
Qed.

(** A new pin of an image that may carry it. *)
Lemma advances_pin kind ref iid i d : pins_ok d → project_images d !! iid = Some i → alive i →
  image_refs d !! (kind, ref) = None →
  (kind = "build"%string → ref = iid) → (kind ≠ "build"%string → img_phase i = "ready"%string) →
  advances d (set_image_refs (<[(kind, ref) := iid]> (image_refs d)) d).
Proof.
  intros [H1 H2 H3 H4] Hi Ha Hnone Hb Hr. split_and!; [split; simpl|by apply images_le_same|by apply retention_le_same].
  - intros k j [[[= -> ->] <-]|[? Hk]]%lookup_insert_Some; [by apply Hb|by apply H1].
  - intros k j [[<- <-]|[? Hk]]%lookup_insert_Some; [exists i; by split_and!|by apply H2].
  - intros j q Hq Hin. rewrite lookup_insert_ne; [|by eapply H3]. intros [= -> ->].
    by rewrite (H3 _ _ Hq Hin) in Hnone.
  - exact H4.
Qed.

(** Dropping pins that no capture in progress needs. *)
Lemma advances_unpin m d : pins_ok d → m ⊆ image_refs d →
  (∀ iid i, project_images d !! iid = Some i → in_progress i = true → m !! ("build"%string, iid) = Some iid) →
  advances d (set_image_refs m d).
Proof.
  intros [H1 H2 H3 H4] Hsub Hm. split_and!; [split; simpl|by apply images_le_same|by apply retention_le_same].
  - intros k j Hk. apply H1. by eapply lookup_weaken.
  - intros k j Hk. apply H2. by eapply lookup_weaken.
  - exact Hm.
  - exact H4.
Qed.

Ltac by_decide := lazymatch goal with |- ?P => refine (bool_decide_eq_true_1 P _); vm_compute; reflexivity end.

Lemma in_progress_alive i : in_progress i = true → alive i ∧ img_phase i ≠ "ready"%string.
Proof.
  intros Hp%bool_decide_eq_true. rewrite /alive.
  apply elem_of_cons in Hp as [Hp|Hp%list_elem_of_singleton]; rewrite Hp; split; by_decide.
Qed.

Lemma wp_transaction_adv {A} (m : DM A) d : pins_ok d →
  wp m d (λ r d', match r with Ok _ => advances d d' | Err _ => True end) →
  wp (transaction m) d (λ _ d', advances d d').
Proof.
  intros Hok Hm. apply wp_transaction. eapply wp_mono; [exact Hm|].
  intros [a|e] d'; [done|]. intros _. by apply advances_refl.
Qed.

Lemma admit_project_builder_adv bid row d : pins_ok d → wp (admit_project_builder bid row) d (λ _ d', advances d d').
Proof.
  intros Hok. rewrite /admit_project_builder /disk_retained. apply wp_transaction_adv; [done|].
  sql_steps; try done; [by apply advances_refl|by apply advances_frame].
Qed.

Lemma set_project_builder_phase_adv bid ph d : pins_ok d → wp (set_project_builder_phase bid ph) d (λ _ d', advances d d').
Proof.
  intros Hok. rewrite /set_project_builder_phase. sql_steps; by apply advances_frame.
Qed.

Lemma reject_project_builder_adv bid req now d : pins_ok d → wp (reject_project_builder bid req now) d (λ _ d', advances d d').
Proof.
  intros Hok. rewrite /reject_project_builder /disk_retained. apply wp_transaction_adv; [done|].
  sql_steps; try done; by apply advances_frame.
Qed.

(** A read-only prefix. *)
Lemma wp_image_charge owner bytes d (Q : Result Error unit → Db → Prop) :
  Q (Ok tt) d → (∀ e, Q (Err e) d) → wp (image_charge owner bytes) d Q.
Proof.
  intros Hok Herr. rewrite /image_charge /usage /image_usage /sql_sum. wp_steps; auto.
Qed.

Lemma admit_project_image_adv iid row d : pins_ok d → wp (admit_project_image iid row) d (λ _ d', advances d d').
Proof.
  intros Hok. rewrite /admit_project_image. wp_step. wp_step; [|by apply advances_refl]. cbn beta iota.
  apply wp_transaction_adv; [done|]. do 2 wp_step. cbn beta iota.
  destruct (project_images d !! iid) as [old|] eqn:Hnone; [wp_steps; [by apply advances_refl|done]|].
  wp_step. wp_step. cbn beta iota. wp_step. wp_step; [|done]. wp_step. wp_step; [|done]. wp_step. wp_step; [|done].
  cbn beta iota. wp_step. apply wp_image_charge; [|done]. rewrite /insert_image /insert_ref. cbn beta iota.
  set (i := advance_image _ _ _ _ _ _). sql_steps; try done.
  destruct Hok as [H1' H2' H3' H4']. simpl in *. split_and!; [split; simpl| |by apply retention_le_same].
  - intros k j [[[= ->] <-]|[? Hk]]%lookup_insert_Some; [done|by apply H1'].
  - intros k j [[<- <-]|[? Hk]]%lookup_insert_Some.
    + exists i. rewrite lookup_insert_eq. split_and!; [done|by_decide|by intros []].
    + destruct (H2' k j Hk) as (q & Hq & ?). exists q. rewrite lookup_insert_ne; [congruence|done].
  - intros j q [[<- <-]|[? Hq]]%lookup_insert_Some Hin; [by rewrite lookup_insert_eq|].
    rewrite lookup_insert_ne; [congruence|by eapply H3'].
  - intros j q [[<- <-]|[? Hq]]%lookup_insert_Some; [|by eapply H4']. split_and!; [by_decide|done|by intros ?].
  - intros k q Hq. exists q. simpl. rewrite lookup_insert_ne; [congruence|]. split; [done|apply image_le_refl].
Qed.

Lemma retire_unadmitted_adv iid owner now d : pins_ok d →
  wp (retire_unadmitted_project_image iid owner now) d (λ _ d', advances d d').
Proof.
  intros Hok. rewrite /retire_unadmitted_project_image /insert_image /image. apply wp_transaction_adv; [done|].
  sql_steps; try done. simpl in *. destruct Hok as [H1' H2' H3' H4'].
  match goal with |- context [<[iid := ?x]>] => set (i := x) end.
  split_and!; [split; simpl| |by apply retention_le_same].
  - exact H1'.
  - intros k j Hk. destruct (H2' k j Hk) as (q & Hq & ?). exists q. rewrite lookup_insert_ne; [congruence|done].
  - intros j q [[<- <-]|[? Hq]]%lookup_insert_Some Hin; [done|by eapply H3'].
  - intros j q [[<- <-]|[? Hq]]%lookup_insert_Some; [|by eapply H4']. split_and!; [by_decide|done|by intros ?].
  - intros k q Hq. exists q. simpl. rewrite lookup_insert_ne; [congruence|]. split; [done|apply image_le_refl].
Qed.

(** A phase change of an image that is being captured; only its build pin refers to it. *)
Lemma advances_capture iid i i' d : pins_ok d → project_images d !! iid = Some i → in_progress i = true →
  image_le i i' → image_wf i' → alive i' →
  advances d (set_project_images (<[iid := i']> (project_images d)) d).
Proof.
  intros Hok Hi Hin Hle Hwf Ha. apply (advances_image iid i); [done..|].
  intros k Hk. split; [done|]. intros Hk1. destruct (pin_alive d Hok k iid Hk) as (q & Hq & _ & Hr).
  simplify_eq. by destruct (proj2 (in_progress_alive i Hin)); apply Hr.
Qed.

Lemma set_project_image_phase_adv iid ph detail now d : pins_ok d →
  wp (set_project_image_phase iid ph detail now) d (λ _ d', advances d d').
Proof.
  intros Hok. rewrite /set_project_image_phase. wp_step. wp_step; [|by apply advances_refl]. cbn beta iota. wp_step.
  apply wp_update_row; [intros i Hi Hmove|intros _; wp_steps; by apply advances_refl].
  assert (advances d (set_project_images (<[iid := advance_image ph (img_digest i) (image_path i) detail now i]>
    (project_images d)) d)); [|by wp_steps].
  apply orb_prop in Hmove as [[-> Hp]%bool_decide_eq_true|[->%bool_decide_eq_true Hin]%andb_prop].
  - assert (in_progress i = true) as Hin by (rewrite /in_progress Hp; done).
    destruct (pin_wf d Hok iid i Hi) as (_ & Hd & _).
    apply (advances_capture iid i); [done..| |split_and!; [by_decide|intros _; by apply Hd|done]|by_decide].
    rewrite /image_le /=. split_and!; try done. rewrite Hp. apply rtc_once. constructor.
  - apply (advances_capture iid i); [done..| |split_and!; [by_decide|done|done]|by_decide].
    rewrite /image_le /=. split_and!; try done. apply bool_decide_eq_true in Hin.
    apply elem_of_cons in Hin as [->| ->%list_elem_of_singleton]; apply rtc_once; constructor.
Qed.

Lemma finish_project_image_adv iid digest path now d : pins_ok d →
  wp (finish_project_image iid digest path now) d (λ _ d', advances d d').
Proof.
  intros Hok. rewrite /finish_project_image. wp_step.
  apply wp_update_row; [intros i Hi Hp%bool_decide_eq_true|intros _; wp_steps; by apply advances_refl].
  assert (in_progress i = true) as Hin by (rewrite /in_progress Hp; done).
  destruct (pin_wf d Hok iid i Hi) as (_ & Hd & _).
  assert (advances d (set_project_images (<[iid := advance_image "ready" (Some digest) (Some path) None now i]>
    (project_images d)) d)); [|by wp_steps].
  apply (advances_capture iid i); [done..| |split_and!; [by_decide|done|eauto]|by_decide].
  rewrite /image_le /=. split_and!; try done; [rewrite Hp; apply rtc_once; constructor|].
  intros x. by rewrite Hd.
Qed.

Lemma set_project_image_detail_adv iid expected detail now d : pins_ok d →
  wp (set_project_image_detail iid expected detail now) d (λ _ d', advances d d').
Proof.
  intros Hok. rewrite /set_project_image_detail. wp_step.
  apply wp_update_row; [intros i Hi _|intros _; wp_steps; by apply advances_refl].
  set (i' := advance_image _ _ _ _ _ i).
  assert (advances d (set_project_images (<[iid := i']> (project_images d)) d)); [|by wp_steps].
  apply (advances_image iid i); [done|done| |exact (pin_wf d Hok iid i Hi)|done|].
  - rewrite /image_le. by split_and!.
  - intros k Hk. destruct (pin_alive d Hok k iid Hk) as (q & Hq & ?). by simplify_eq.
Qed.

(** [INSERT OR IGNORE] of a pin. *)
Lemma wp_insert_ref_or_ignore kind ref iid d (Q : Result Error unit → Db → Prop) :
  (is_Some (image_refs d !! (kind, ref)) → Q (Ok tt) d) →
  (image_refs d !! (kind, ref) = None → is_Some (project_images d !! iid) →
    Q (Ok tt) (set_image_refs (<[(kind, ref) := iid]> (image_refs d)) d)) →
  Q (Err Sqlite) d → wp (insert_ref_or_ignore kind ref iid) d Q.
Proof.
  intros Hold Hnew Herr. rewrite /insert_ref_or_ignore /insert_ref. do 2 wp_step. cbn beta iota.
  destruct (image_refs d !! (kind, ref)) eqn:E; [wp_step; eauto|]. sql_steps; auto.
Qed.

Lemma pin_project_image_vm_adv iid owner tenant project digest sandbox d : pins_ok d →
  wp (pin_project_image_vm iid owner tenant project digest sandbox) d (λ _ d', advances d d').
Proof.
  intros Hok. rewrite /pin_project_image_vm /image. apply wp_transaction_adv; [done|].
  wp_step. apply wp_select_row; [intros i Hi|done]. wp_step. wp_step; [|done].
  apply bool_decide_eq_true in H0 as (_ & _ & _ & _ & Hp). cbn beta iota. do 2 wp_step. cbn beta iota. wp_step.
  wp_step; [|done]. cbn beta iota. apply wp_insert_ref_or_ignore; [intros _; by apply advances_refl| |done].
  intros Hnone _. eapply advances_pin; try done. rewrite /alive Hp. by_decide.
Qed.

Lemma release_project_image_vm_adv sandbox d : pins_ok d →
  wp (release_project_image_vm sandbox) d (λ _ d', advances d d').
Proof.
  intros Hok. rewrite /release_project_image_vm /disk_retained. apply wp_transaction_adv; [done|].
  sql_steps; try done. apply advances_unpin; [done|apply delete_subseteq|].
  intros j q Hq Hin. rewrite lookup_delete_ne; [done|]. by eapply pin_capture.
Qed.

Lemma wp_referenced iid d (Q : Result Error bool → Db → Prop) :
  (∀ b, (b = false → ∀ k, image_refs d !! k ≠ Some iid) → Q (Ok b) d) → wp (referenced iid) d Q.
Proof.
  intros Hq. rewrite /referenced. apply wp_exists_where. intros b Hb. apply Hq. intros -> k Hk.
  enough (false = true) by done. apply Hb. exists k, iid. split; [done|]. by apply bool_decide_eq_true.
Qed.

Lemma begin_project_image_delete_adv iid owner now d : pins_ok d →
  wp (begin_project_image_delete iid owner now) d (λ _ d', advances d d').
Proof.
  intros Hok. rewrite /begin_project_image_delete /image. apply wp_transaction_adv; [done|].
  wp_step. apply wp_select_row; [intros i Hi|done]. wp_step. wp_step; [|done]. cbn beta iota.
  wp_step; [wp_step; by apply advances_refl|]. wp_step. apply wp_referenced. intros b Hb. wp_step.
  wp_step; [|done]. apply negb_true_iff, orb_false_iff in H1 as [-> Hin]. cbn beta iota.
  wp_step. apply wp_update_row; [intros q Hq _; simplify_eq|by intros Hno; specialize (Hno _ Hi)].
  set (i' := set_image_phase _ _ i).
  assert (advances d (set_project_images (<[iid := i']> (project_images d)) d)); [|by sql_steps].
  destruct (pin_wf d Hok iid i Hi) as (Hph & _).
  apply (advances_image iid i); [done|done| |split_and!; [by_decide|done|done]|done|by intros k ?%Hb].
  rewrite /image_le /=. split_and!; try done. rewrite /in_progress in Hin. apply bool_decide_eq_false in Hin.
  rewrite !elem_of_cons in Hph Hin. destruct Hph as [E|[E|[E|[E|[E|[E|E%elem_of_nil]]]]]]; try tauto;
    rewrite E; [apply rtc_once, ready_deletes|apply rtc_once, failed_deletes|done|by rewrite E in Heqb].
Qed.

Lemma finish_project_image_retirement_adv iid now d : pins_ok d →
  wp (finish_project_image_retirement iid now) d (λ _ d', advances d d').
Proof.
  intros Hok. rewrite /finish_project_image_retirement /image. apply wp_transaction_adv; [done|].
  wp_step. apply wp_select_row; [intros i Hi|done].
  wp_step; [wp_step; by apply advances_refl|]. wp_step. apply wp_referenced. intros b Hb. wp_step.
  wp_step; [|done]. apply andb_prop in H0 as [Hp%bool_decide_eq_true Hb'%negb_true_iff]. subst b. cbn beta iota.
  wp_step. apply wp_update_row; [intros q Hq _; simplify_eq|by intros Hno; specialize (Hno _ Hi)].
  set (i' := set_image_phase _ _ i).
  assert (advances d (set_project_images (<[iid := i']> (project_images d)) d)); [|by wp_steps].
  apply (advances_image iid i); [done|done| |split_and!; [by_decide|done|done]|done|by intros k ?%Hb].
  rewrite /image_le /=. split_and!; try done. rewrite Hp. apply rtc_once. constructor.
Qed.

(** What the checks establish about one image of a retention set. *)
Definition retainable_in (release : list string) (d : Db) (x : string * bool) : Prop :=
  ∃ i, project_images d !! x.1 = Some i ∧ alive i ∧ (x.2 = true → img_phase i = "ready"%string) ∧
    (x.1 ∈ release → in_progress i = false).

Lemma wp_retainable owner tenant project release x d :
  wp (retainable owner tenant project release x) d (λ r d', d' = d ∧ (r = Ok tt → retainable_in release d x)).
Proof.
  rewrite /retainable /image. wp_step. apply wp_select_row; [intros i Hi|by intros _]. wp_step. wp_step; [|done].
  apply andb_prop in H0 as [[_ Ha%negb_true_iff%bool_decide_eq_false]%andb_prop Hr]. cbn beta iota.
  apply wp_guard; [|done]. intros Hrel. split; [done|]. intros _. exists i. split_and!; [done| | |].
  - intros [Hp|Hp%list_elem_of_singleton]%elem_of_cons; apply Ha; rewrite Hp; by_decide.
  - intros Hx. rewrite Hx in Hr. by apply bool_decide_eq_true in Hr.
  - intros Hx. rewrite bool_decide_eq_true_2 // in Hrel. apply bool_decide_eq_true in Hrel.
    apply bool_decide_eq_false. intros Hin.
    apply elem_of_cons in Hrel as [Hp|Hp%list_elem_of_singleton]; rewrite Hp in Hin; revert Hin; by_decide.
Qed.

Lemma wp_retainable_all owner tenant project release l d (Q : Result Error unit → Db → Prop) :
  (Forall (retainable_in release d) l → Q (Ok tt) d) → (∀ e, Q (Err e) d) →
  wp (for_each l (retainable owner tenant project release)) d Q.
Proof.
  intros Hok Herr. apply (wp_for_each _ _ _ (λ l' s, s = d ∧
    (Forall (retainable_in release d) l' → Forall (retainable_in release d) l))); [done| |].
  - intros x l' s [-> Hl]. eapply wp_mono; [apply wp_retainable|]. intros [[]|e] s [-> Hx]; [|done].
    split; [done|]. intros Hl'. apply Hl. constructor; [by apply Hx|done].
  - intros s [-> Hl]. auto.
Qed.

(** The state while pins are being replaced: images stay, pins advance. *)
Definition replacing (d s : Db) : Prop := advances d s ∧ project_images s = project_images d ∧ retention s = retention d.

Lemma replacing_pins d s m : replacing d s → advances s (set_image_refs m s) → replacing d (set_image_refs m s).
Proof. intros (Ha & Ei & Er) Hs. split_and!; [by eapply advances_trans|done|done]. Qed.

(** A loop of inserts. *)
Lemma wp_insert_pins (f : string → DM unit) l d s (Q : Result Error unit → Db → Prop) (P : string → Prop) :
  replacing d s → Forall P l →
  (∀ iid s, P iid → replacing d s → wp (f iid) s (λ r s', r = Ok tt → replacing d s')) →
  (∀ s, replacing d s → Q (Ok tt) s) → (∀ e s, Q (Err e) s) →
  wp (for_each l f) s Q.
Proof.
  intros Hs Hl Hf Hok Herr. apply (wp_for_each _ _ _ (λ l' s, replacing d s ∧ Forall P l')); [done| |].
  - intros x l' s' [Hs' Hl']. apply Forall_cons in Hl' as [Hx Hl']. eapply wp_mono; [by apply Hf|].
    intros [[]|e] s2 Hq; auto.
  - intros s' [Hs' _]. auto.
Qed.

(** An image of the set, in any state of the replacement. *)
Definition usable (d : Db) (ready : bool) (iid : string) : Prop :=
  ∃ i, project_images d !! iid = Some i ∧ alive i ∧ (ready = true → img_phase i = "ready"%string).

Lemma insert_ref_replacing kind key iid d s : kind ≠ "build"%string → usable d true iid → replacing d s →
  wp (insert_ref kind key iid) s (λ r s', r = Ok tt → replacing d s').
Proof.
  intros Hk (i & Hi & Ha & Hr) Hs. rewrite /insert_ref. sql_steps; try done. intros _.
  apply replacing_pins; [done|]. destruct Hs as ((Hok & _) & Ei & _).
  apply (advances_pin kind key iid i); [done|by rewrite Ei|done|done|done|]. intros _. by apply Hr.
Qed.

Lemma insert_build_replacing iid d s : usable d false iid → replacing d s →
  wp (insert_ref_or_ignore "build" iid iid) s (λ r s', r = Ok tt → replacing d s').
Proof.
  intros (i & Hi & Ha & _) Hs. apply wp_insert_ref_or_ignore; [done| |done]. intros Hnone _ _.
  apply replacing_pins; [done|]. destruct Hs as ((Hok & _) & Ei & _).
  apply (advances_pin "build" iid iid i); [done|by rewrite Ei|done|done|done|done].
Qed.

Lemma wp_replace_pins owner tenant project current previous active release d (Q : Result Error unit → Db → Prop) :
  pins_ok d → Forall (usable d true) (option_list current ++ option_list previous) → Forall (usable d false) active →
  Forall (λ iid, ∀ i, project_images d !! iid = Some i → in_progress i = false) release →
  (∀ s, replacing d s → Q (Ok tt) s) → (∀ e s, Q (Err e) s) →
  wp (replace_pins owner tenant project current previous active release) d Q.
Proof.
  intros Hok [Hcur Hprev]%Forall_app Hact Hrel HQ Herr. rewrite /replace_pins. do 2 wp_step. cbn beta iota. wp_step.
  apply wp_delete_where. cbn beta iota zeta.
  match goal with |- context [set_image_refs ?m d] => assert (replacing d (set_image_refs m d)) as Hs end.
  { apply replacing_pins; [split_and!; [by apply advances_refl|done|done]|].
    apply advances_unpin; [done|apply map_filter_subseteq|]. intros j q Hq Hin. apply map_lookup_filter_Some.
    by split; [by eapply pin_capture|]. }
  wp_step. eapply wp_insert_pins; [exact Hs|exact Hcur|intros; by apply insert_ref_replacing| |done].
  intros s1 Hs1. cbn beta iota. wp_step.
  eapply wp_insert_pins; [exact Hs1|exact Hprev|intros; by apply insert_ref_replacing| |done].
  intros s2 Hs2. cbn beta iota. wp_step.
  eapply wp_insert_pins; [exact Hs2|exact Hact|intros; by apply insert_build_replacing| |done].
  intros s3 Hs3. cbn beta iota. eapply wp_insert_pins; [exact Hs3|exact Hrel| |done|done].
  intros iid s Hi Hs4. apply wp_delete_where. intros _. apply replacing_pins; [done|].
  destruct Hs4 as ((Hok4 & _) & Ei & _). apply advances_unpin; [done|apply map_filter_subseteq|].
  intros j q Hq Hin. apply map_lookup_filter_Some. split; [by eapply pin_capture|]. simpl.
  apply bool_decide_eq_false. intros [[= ->] _]. rewrite Ei in Hq. by rewrite (Hi q) in Hin.
Qed.

Lemma retention_set d s k g b : replacing d s →
  (∀ g0 b0, retention d !! k = Some (g0, b0) → g0 < g) →
  advances d (set_retention (<[k := (g, b)]> (retention s)) s).
Proof.
  intros ((Hok & Hi & _) & Ei & Er) Hg. split_and!; [by destruct Hok; split| exact Hi|].
  intros k' g0 b0 Hk. simpl. rewrite Er. destruct (decide (k' = k)) as [->|Hne].
  - rewrite lookup_insert_eq. exists g, b. split; [done|]. left. by eapply Hg.
  - rewrite lookup_insert_ne; [congruence|]. exists g0, b0. auto.
Qed.

Lemma retain_project_images_adv owner tenant project g req current previous active release d : pins_ok d →
  wp (retain_project_images owner tenant project g req current previous active release) d (λ _ d', advances d d').
Proof.
  intros Hok. rewrite /retain_project_images. wp_step. wp_step; [|by apply advances_refl]. clear H0. cbn beta iota.
  apply wp_transaction_adv; [done|]. do 2 wp_step. cbn beta iota zeta. wp_step. wp_step; [|done]. cbn beta iota.
  wp_step; [wp_step; by apply advances_refl|]. wp_step. apply wp_retainable_all; [|done]. intros Hall.
  rewrite Forall_forall in Hall. cbn beta iota. wp_step. apply wp_replace_pins; [done| | | | |done].
  - apply Forall_forall. intros iid Hin. destruct (Hall (iid, true)) as (i & Hi & Ha & Hr & _).
    { apply elem_of_app. left. apply list_elem_of_fmap. by exists iid. }
    exists i. by split_and!.
  - apply Forall_forall. intros iid Hin. destruct (Hall (iid, false)) as (i & Hi & Ha & _).
    { apply elem_of_app. right. apply list_elem_of_fmap. exists iid. split; [done|]. apply elem_of_app. by left. }
    exists i. by split_and!.
  - apply Forall_forall. intros iid Hin i Hi. destruct (Hall (iid, false)) as (q & Hq & _ & _ & Hr).
    { apply elem_of_app. right. apply list_elem_of_fmap. exists iid. split; [done|]. apply elem_of_app. by right. }
    simpl in *. simplify_eq. by apply Hr.
  - intros s Hs. cbn beta iota. wp_step. apply wp_references; [intros _|done]. cbn beta iota. wp_step.
    apply retention_set; [done|]. intros g0 b0 Hg. rewrite Hg in H0, Heqb.
    apply andb_prop in H0 as [H0 _]. lia.
Qed.

(** ** Histories *)
Inductive step (d : Db) : Db → Prop :=
| st_admit_builder bid row : step d (admit_project_builder bid row d).2
| st_builder_phase bid ph : step d (set_project_builder_phase bid ph d).2
| st_reject bid req now : step d (reject_project_builder bid req now d).2
| st_admit iid row : step d (admit_project_image iid row d).2
| st_retire_unadmitted iid owner now : step d (retire_unadmitted_project_image iid owner now d).2
| st_phase iid ph detail now : step d (set_project_image_phase iid ph detail now d).2
| st_finish iid digest path now : step d (finish_project_image iid digest path now d).2
| st_detail iid expected detail now : step d (set_project_image_detail iid expected detail now d).2
| st_pin iid owner tenant project digest sandbox : step d (pin_project_image_vm iid owner tenant project digest sandbox d).2
| st_release sandbox : step d (release_project_image_vm sandbox d).2
| st_retain owner tenant project g req current previous active release :
    step d (retain_project_images owner tenant project g req current previous active release d).2
| st_begin_delete iid owner now : step d (begin_project_image_delete iid owner now d).2
| st_retirement iid now : step d (finish_project_image_retirement iid now d).2
| st_elsewhere d' : project_images d' = project_images d → image_refs d' = image_refs d → retention d' = retention d →
    step d d'.

Lemma step_advances d d' : pins_ok d → step d d' → advances d d'.
Proof.
  intros Hok [].
  - by apply admit_project_builder_adv.
  - by apply set_project_builder_phase_adv.
  - by apply reject_project_builder_adv.
  - by apply admit_project_image_adv.
  - by apply retire_unadmitted_adv.
  - by apply set_project_image_phase_adv.
  - by apply finish_project_image_adv.
  - by apply set_project_image_detail_adv.
  - by apply pin_project_image_vm_adv.
  - by apply release_project_image_vm_adv.
  - by apply retain_project_images_adv.
  - by apply begin_project_image_delete_adv.
  - by apply finish_project_image_retirement_adv.
  - by apply advances_frame.
Qed.

Lemma steps_advance d d' : pins_ok d → rtc step d d' → advances d d'.
Proof.
  intros Hok Hs. revert Hok. induction Hs as [d|d d1 d2 Hd _ IH]; intros Hok; [by apply advances_refl|].
  pose proof (step_advances _ _ Hok Hd) as H1. eapply advances_trans; [done|]. apply IH, H1.
Qed.

Lemma delete_sandbox_step sid d : step d (delete_sandbox sid d).2.
Proof. by apply st_elsewhere. Qed.

Lemma pins_empty d : project_images d = ∅ → image_refs d = ∅ → pins_ok d.
Proof. intros Ei Er. by split; rewrite ?Ei ?Er. Qed.

(** C27: pins protect images.  From a store without images, after any calls on
    builders, images, pins and retention in any order, interleaved with any
    methods of the other tables: whatever a pin names exists and is neither being
    deleted nor retired; a pin of a VM or a current or previous generation names a
    ready image, with its digest and path; a capture in progress still holds its
    build pin; and deleting a pinned image is refused without effect. *)
Theorem pins_protect_images d0 d : project_images d0 = ∅ → image_refs d0 = ∅ → rtc step d0 d →
  (∀ kind ref iid, image_refs d !! (kind, ref) = Some iid → ∃ i, project_images d !! iid = Some i ∧
    img_phase i ≠ "deleting"%string ∧ img_phase i ≠ "retired"%string ∧
    (kind ≠ "build"%string → img_phase i = "ready"%string ∧ is_Some (img_digest i) ∧ is_Some (image_path i)) ∧
    (∀ owner now, ∃ e, begin_project_image_delete iid owner now d = (Err e, d))) ∧
  (∀ iid i, project_images d !! iid = Some i → img_phase i = "preparing"%string ∨ img_phase i = "capturing"%string →
    image_refs d !! ("build"%string, iid) = Some iid).
Proof.
  intros Hi Hr Hs. destruct (steps_advance d0 d) as ([H1 H2 H3 H4] & _); [by apply pins_empty|done|]. split.
  - intros kind ref iid Hk. destruct (H2 _ _ Hk) as (i & Hiid & Ha & Hready). exists i. split; [done|].
    assert (img_phase i ≠ "deleting"%string ∧ img_phase i ≠ "retired"%string) as [Hd Ht].
    { split; intros E; apply Ha; rewrite E; by_decide. }
    split_and!; [done|done|intros Hb; split; [by apply Hready|by apply (H4 _ _ Hiid), Hready]|].
    intros owner now.
    assert (wp (begin_project_image_delete iid owner now) d (λ r d', (∃ e, r = Err e) ∧ d' = d)) as Hw.
    { rewrite /begin_project_image_delete /image. apply wp_transaction. wp_step.
      apply wp_select_row; [intros q Hq; simplify_eq|eauto]. wp_step. wp_step; [|eauto]. cbn beta iota.
      rewrite bool_decide_eq_false_2 //. wp_step. apply wp_referenced. intros [] Hb; [wp_step; wp_step; [done|eauto]|].
      by destruct (Hb eq_refl (kind, ref)). }
    rewrite /wp in Hw. destruct (begin_project_image_delete iid owner now d) as [r d']. simpl in Hw.
    destruct Hw as [[e ->] ->]. eauto.
  - intros iid i Hiid Hp. eapply H3; [done|]. apply bool_decide_eq_true. destruct Hp as [-> | ->]; by_decide.
Qed.

(** C28: image lineage.  Along the same histories an image keeps its owner,
    project, provenance, request and accounted size for ever, its phase only moves along
    preparing, capturing, ready or failed, deleting, retired, a digest once
    recorded is never replaced, and a project's retention generation never goes
    back and never changes its request. *)
Theorem image_lineage d0 d d' : project_images d0 = ∅ → image_refs d0 = ∅ → rtc step d0 d → rtc step d d' →
  (∀ iid i, project_images d !! iid = Some i → ∃ i', project_images d' !! iid = Some i' ∧ image_le i i' ∧
    (img_phase i = "retired"%string → img_phase i' = "retired"%string)) ∧
  (∀ k g b, retention d !! k = Some (g, b) → ∃ g' b', retention d' !! k = Some (g', b') ∧ (g < g' ∨ g = g' ∧ b = b')).
Proof.
  intros Hi Hr H0 Hd. destruct (steps_advance d0 d) as (Hok & _); [by apply pins_empty|done|].
  destruct (steps_advance d d' Hok Hd) as (_ & Him & Hret). split; [|exact Hret].
  intros iid i Hiid. destruct (Him iid i Hiid) as (i' & ? & Hle). exists i'. split_and!; [done|done|].
  destruct Hle as (_ & _ & _ & _ & _ & _ & _ & Hph & _). intros E. rewrite E in Hph.
  apply rtc_inv in Hph as [<-|(p & Hp & _)]; [done|]. inversion Hp.
Qed.

End ProjectImages.

(** ** A build, a pin and a retention set *)
(** The only document is the provenance of build ["i"]; other texts are strings. *)
#[local] Instance provenance : JsonApi := {|
  json_serde := {| Value := Json; Null := JNull; to_string v := "{}";
    from_str s := if decide (s = "meta"%string)
                  then Some (JObj [("tenant_id", JStr "t"); ("project_id", JStr "p"); ("build_id", JStr "i")])
                  else Some (JStr s) |};
  member := field; is_true v := match v with JTrue => true | _ => false end;
  as_str v := match v with JStr s => Some s | _ => None end;
  Str := JStr; Num := JNum; Obj := JObj; remove v k := None; run_value k r := JStr k |}.

Definition capture_i : ProjectEnvironmentImage :=
  mkProjectImage "u" "t" "p" "meta" "req" "v" "builder" 65536 131072 "" None None None 7 7.

Definition build : Db :=
  let d := (admit_project_builder "i" (mkBuilder "builder" "u" "req" "meta" "" 5) small_db).2 in
  let d := (admit_project_image "i" capture_i d).2 in
  let d := (set_project_image_phase "i" "capturing" None 8 d).2 in
  (finish_project_image "i" "sha" "/image" 9 d).2.

Definition pinned : Db :=
  (pin_project_image_vm "i" "u" "t" "p" "sha" "a" (retain_project_images "u" "t" "p" 1 "{}" (Some "i") None [] ["i"] build).2).2.

Definition retired : Db :=
  let d := (delete_sandbox "a" pinned).2 in
  let d := (release_project_image_vm "a" d).2 in
  let d := (retain_project_images "u" "t" "p" 2 "{}" None None [] [] d).2 in
  (finish_project_image_retirement "i" 12 (begin_project_image_delete "i" "u" 11 d).2).2.

Lemma build_steps : rtc step small_db build.
Proof.
  eapply rtc_l; [apply (st_admit_builder _ "i" (mkBuilder "builder" "u" "req" "meta" "" 5))|].
  eapply rtc_l; [apply (st_admit _ "i" capture_i)|].
  eapply rtc_l; [apply (st_phase _ "i" "capturing" None 8)|]. apply rtc_once, st_finish.
Qed.

Lemma pinned_steps : rtc step build pinned.
Proof.
  eapply rtc_l; [apply (st_retain _ "u" "t" "p" 1 "{}" (Some "i"%string) None [] ["i"]%string)|]. apply rtc_once, st_pin.
Qed.

Lemma retired_steps : rtc step pinned retired.
Proof.
  eapply rtc_l; [apply (delete_sandbox_step "a")|].
  eapply rtc_l; [apply (st_release _ "a")|]. eapply rtc_l; [apply (st_retain _ "u" "t" "p" 2 "{}" None None [] [])|].
  eapply rtc_l; [apply (st_begin_delete _ "i" "u" 11)|]. apply rtc_once, st_retirement.
Qed.

Lemma pins_protect_images_witness :
  image_refs pinned !! ("vm", "a")%string = Some "i"%string ∧ image_refs pinned !! ("build", "i")%string = None ∧
  ∃ e, begin_project_image_delete "i" "u" 10 pinned = (Err e, pinned).
Proof.
  split; [vm_compute; reflexivity|]. split; [vm_compute; reflexivity|].
  destruct (pins_protect_images small_db pinned) as [Hp _]; [reflexivity|reflexivity| |].
  - etransitivity; [apply build_steps|apply pinned_steps].
  - destruct (Hp "vm" "a" "i")%string as (i & _ & _ & _ & _ & Hd); [vm_compute; reflexivity|apply Hd].
Defined.

Lemma image_lineage_witness :
  (img_phase <$> project_images retired !! "i"%string) = Some "retired"%string ∧
  ∃ i', project_images retired !! "i"%string = Some i' ∧ img_digest i' = Some "sha"%string.
Proof.
  split; [vm_compute; reflexivity|].
  destruct (image_lineage small_db pinned retired) as [Hl _]; [reflexivity|reflexivity| |apply retired_steps|].
  - etransitivity; [apply build_steps|apply pinned_steps].
  - assert (∃ i, project_images pinned !! "i"%string = Some i ∧ img_digest i = Some "sha"%string) as (i & Hi & Hd).
    { eexists. split; vm_compute; reflexivity. }
    destruct (Hl "i"%string i Hi) as (i' & Hi' & Hle & _). exists i'. split; [exact Hi'|].
    destruct Hle as (_ & _ & _ & _ & _ & _ & _ & _ & Hdig). by apply Hdig.
Defined.

End ProjectImages.
