(* ===== verification/Page.v ===== *)
(** Index pages of [ahvm-volume/src/indexed.rs]: the byte layout of plain and
    packed pages, the validation of a page read from the store, and the view of a
    packed page as a header, 1024 records of 72 bytes and a tail of zeros that the
    volume's proofs use. *)
From S2P Require Import Prelude Codec Blocks.

Module Page.

Definition SLOTS : Z := 1024.
Definition MAGIC : list Z := [65; 72; 86; 77; 80; 71; 48; 50].
Definition PACK_MAGIC : list Z := [65; 72; 86; 77; 80; 71; 48; 56].
Definition PACK_PAGE_BYTES : Z := 128 * 1024.
Definition PACK_SLOT_BYTES : Z := 72.

Definition stride (page : list Z) : Z :=
  if bool_decide (slice page 0 8 = PACK_MAGIC) then PACK_SLOT_BYTES else 32.
Definition slot_at (page : list Z) (i : Z) : Z := 16 + (i mod SLOTS) * stride page.

Definition slot (page : list Z) (i : Z) : option string :=
  let hash := slice page (slot_at page i) 32 in
  if all_zero hash then None else Some (hex hash).

(** The object that holds a block and the block's place in it: the pack and the
    offset of a packed slot, the block's own object otherwise. *)
Definition object_slot (page : list Z) (i : Z) : option (string * Z) :=
  chunk ← slot page i;
  let at_ := slot_at page i in
  if (stride page =? PACK_SLOT_BYTES) && negb (all_zero (slice page (at_ + 32) 32))
  then Some (hex (slice page (at_ + 32) 32), from_be_bytes (slice page (at_ + 64) 4))
  else Some (chunk, 0).

(** The page of a map entry that is absent. *)
Definition blank (packed : bool) (index : Z) : list Z :=
  splice (splice (zeros (if packed then PACK_PAGE_BYTES else CHUNK_BYTES)) 0 (if packed then PACK_MAGIC else MAGIC))
    8 (to_be_bytes 8 index).

Definition copy_slot (page out : list Z) (i : Z) : list Z :=
  splice out (slot_at out i) (slice page (slot_at page i) 32).
Definition packed_page (page : list Z) : list Z :=
  if stride page =? PACK_SLOT_BYTES then page
  else fold_left (copy_slot page) (seqZ 0 SLOTS)
         (splice (splice (zeros PACK_PAGE_BYTES) 0 PACK_MAGIC) 8 (slice page 8 8)).

(** *** Validation of a packed slot *)
Definition empty_slot (page : list Z) (i : Z) : bool := all_zero (slice page (slot_at page i) 32).
Definition direct_slot (page : list Z) (i : Z) : bool := all_zero (slice page (slot_at page i + 32) 32).
Definition slot_offset (page : list Z) (i : Z) : Z := from_be_bytes (slice page (slot_at page i + 64) 4).

Definition slot_bad (page : list Z) (i : Z) : bool :=
  negb (all_zero (slice page (slot_at page i + 68) 4))
  || (empty_slot page i && negb (all_zero (slice page (slot_at page i + 32) 36)))
  || (direct_slot page i && negb (slot_offset page i =? 0))
  || (negb (direct_slot page i)
      && (negb (is_multiple_of (slot_offset page i) CHUNK_BYTES) || (MAX_OBJECT_BYTES <=? slot_offset page i))).

(** [for i in 0..SLOTS]: every slot is well formed and no location holds two
    different blocks. *)
Fixpoint check_slots (page : list Z) (l : list Z) (locations : gmap (list Z * Z) (list Z)) : bool :=
  match l with
  | [] => true
  | i :: l =>
      if slot_bad page i then false
      else if empty_slot page i || direct_slot page i then check_slots page l locations
      else
        let key := (slice page (slot_at page i + 32) 32, slot_offset page i) in
        let hash := slice page (slot_at page i) 32 in
        match locations !! key with
        | Some previous => if bool_decide (previous = hash) then check_slots page l (<[key := hash]> locations) else false
        | None => check_slots page l (<[key := hash]> locations)
        end
  end.

(** Everything [page_from] checks about the bytes it fetched. *)
Definition check_page {SHA : Sha256} (packed : bool) (size index : Z) (hash : string) (page : list Z) : bool :=
  let page_bytes := if packed then PACK_PAGE_BYTES else CHUNK_BYTES in
  let width := if packed then PACK_SLOT_BYTES else 32 in
  let valid := Z.min (size / CHUNK_BYTES - index * SLOTS) SLOTS in
  negb (negb (Zlen page =? page_bytes) || negb (bool_decide (digest page = hash))
        || negb (bool_decide (slice page 0 8 = if packed then PACK_MAGIC else MAGIC))
        || negb (from_be_bytes (slice page 8 8) =? index)
        || negb (all_zero (slice page (16 + SLOTS * width) (page_bytes - (16 + SLOTS * width)))))
  && all_zero (slice page (16 + valid * width) ((SLOTS - valid) * width))
  && (negb packed || check_slots page (seqZ 0 SLOTS) ∅).

(** Arithmetic about positions in a page. *)
Ltac plia := unfold SLOTS, PACK_PAGE_BYTES, PACK_SLOT_BYTES in *; lia.

(** ** Records *)
Definition record (page : list Z) (j : Z) : list Z := slice page (16 + j * PACK_SLOT_BYTES) PACK_SLOT_BYTES.
Definition header (page : list Z) : list Z := slice page 0 16.
Definition tail (page : list Z) : list Z := slice page (16 + SLOTS * PACK_SLOT_BYTES) (PACK_PAGE_BYTES - (16 + SLOTS * PACK_SLOT_BYTES)).

(** A packed page of the given index. *)
Definition shaped (index : Z) (page : list Z) : Prop :=
  Zlen page = PACK_PAGE_BYTES ∧ header page = PACK_MAGIC ++ to_be_bytes 8 index ∧ all_zero (tail page) = true.

Definition rslot (r : list Z) : option string :=
  if all_zero (slice r 0 32) then None else Some (hex (slice r 0 32)).
Definition robject (r : list Z) : option (string * Z) :=
  chunk ← rslot r;
  if all_zero (slice r 32 32) then Some (chunk, 0) else Some (hex (slice r 32 32), from_be_bytes (slice r 64 4)).

Lemma shaped_len idx p : shaped idx p → Zlen p = PACK_PAGE_BYTES.
Proof. by intros (? & _). Qed.

Lemma shaped_magic idx p : shaped idx p → slice p 0 8 = PACK_MAGIC.
Proof.
  intros (Hl & Hh & _). assert (slice p 0 8 = slice (header p) 0 8) as ->.
  { rewrite /header slice_slice; [plia..|done]. }
  by rewrite Hh slice_app_l.
Qed.

Lemma slice_app_r (l k : list Z) n : 0 ≤ n → n ≤ Zlen k → slice (l ++ k) (Zlen l) n = slice k 0 n.
Proof.
  intros. pose proof (Zlen_nonneg l). apply list_index_eq; [rewrite !Zlen_slice ?Zlen_app; lia|].
  rewrite Zlen_slice ?Zlen_app; [lia..|]. intros i Hi.
  rewrite !index_slice ?index_app; [lia..|]. rewrite decide_False; [lia|]. f_equal. lia.
Qed.

Lemma shaped_index idx p : shaped idx p → slice p 8 8 = to_be_bytes 8 idx.
Proof.
  intros (Hl & Hh & _). assert (slice p 8 8 = slice (header p) 8 8) as ->.
  { rewrite /header slice_slice; [plia..|done]. }
  rewrite Hh (slice_app_r PACK_MAGIC); [done|by rewrite Zlen_to_be_bytes|]. apply slice_all. by rewrite Zlen_to_be_bytes.
Qed.

Lemma shaped_stride idx p : shaped idx p → stride p = PACK_SLOT_BYTES.
Proof. intros Hp. by rewrite /stride bool_decide_eq_true_2 //; eapply shaped_magic. Qed.

Lemma slot_mod_bound i : 0 ≤ i mod SLOTS < SLOTS.
Proof. by apply Z.mod_pos_bound. Qed.

Lemma Zlen_record p j : Zlen p = PACK_PAGE_BYTES → 0 ≤ j < SLOTS → Zlen (record p j) = PACK_SLOT_BYTES.
Proof. intros Hl ?. apply Zlen_slice; plia. Qed.

(** Reading inside a record. *)
Lemma slice_record idx p i a n : shaped idx p → 0 ≤ a → 0 ≤ n → a + n ≤ PACK_SLOT_BYTES →
  slice p (slot_at p i + a) n = slice (record p (i mod SLOTS)) a n.
Proof.
  intros Hp ???. pose proof (slot_mod_bound i) as Hb. pose proof (shaped_len _ _ Hp).
  rewrite /slot_at (shaped_stride _ _ Hp) /record slice_slice; [plia..|done].
Qed.

Lemma slice_record0 idx p i n : shaped idx p → 0 ≤ n → n ≤ PACK_SLOT_BYTES →
  slice p (slot_at p i) n = slice (record p (i mod SLOTS)) 0 n.
Proof. intros Hp ??. by rewrite -(slice_record idx p i 0 n) // Z.add_0_r. Qed.

Lemma slot_record idx p i : shaped idx p → slot p i = rslot (record p (i mod SLOTS)).
Proof. intros Hp. by rewrite /slot /rslot -(slice_record idx p i 0 32) // Z.add_0_r. Qed.

Lemma object_record idx p i : shaped idx p → object_slot p i = robject (record p (i mod SLOTS)).
Proof.
  intros Hp. rewrite /object_slot /robject (slot_record _ _ _ Hp) (shaped_stride _ _ Hp) Z.eqb_refl /=.
  rewrite !(slice_record idx) //. destruct (rslot _); [|done]. simpl. by destruct (all_zero (slice _ 32 32)).
Qed.

(** *** Writing records *)
Definition set_record (j : Z) (r : list Z) (page : list Z) : list Z := splice page (16 + j * PACK_SLOT_BYTES) r.

Lemma record_set j r p k : Zlen p = PACK_PAGE_BYTES → Zlen r = PACK_SLOT_BYTES → 0 ≤ j < SLOTS → 0 ≤ k < SLOTS →
  record (set_record j r p) k = if decide (k = j) then r else record p k.
Proof.
  intros Hl Hr ??. rewrite /record /set_record. case_decide as Hk.
  - subst k. rewrite -{3}Hr. apply slice_splice_same; plia.
  - apply slice_splice_disj; plia.
Qed.

Lemma shaped_set idx j r p : shaped idx p → Zlen r = PACK_SLOT_BYTES → 0 ≤ j < SLOTS → shaped idx (set_record j r p).
Proof.
  intros (Hl & Hh & Ht) Hr ?. rewrite /set_record. split_and!.
  - rewrite Zlen_splice; plia.
  - rewrite -Hh. apply slice_splice_disj; plia.
  - rewrite -Ht /tail slice_splice_disj; [plia..|done].
Qed.

Lemma splice_in_record idx p i a x : shaped idx p → 0 ≤ a → a + Zlen x ≤ PACK_SLOT_BYTES →
  splice p (slot_at p i + a) x = set_record (i mod SLOTS) (splice (record p (i mod SLOTS)) a x) p.
Proof.
  intros Hp ??. pose proof (slot_mod_bound i) as Hb. rewrite /SLOTS in Hb. pose proof (Zlen_nonneg x).
  pose proof (shaped_len _ _ Hp) as Hl. rewrite /PACK_PAGE_BYTES in Hl. rewrite /PACK_SLOT_BYTES in H0.
  assert (Zlen (record p (i mod SLOTS)) = 72) as Hr by (by apply Zlen_record).
  assert (Zlen (splice (record p (i mod SLOTS)) a x) = 72) as Hs by (rewrite Zlen_splice ?Hr //; lia).
  rewrite /set_record /slot_at (shaped_stride _ _ Hp) /PACK_SLOT_BYTES. unfold SLOTS in *.
  apply list_index_eq; [rewrite !Zlen_splice; lia|].
  rewrite Zlen_splice; [lia..|]. intros k Hk.
  rewrite index_splice; [lia..|]. rewrite (index_splice p _ (splice _ _ _)); [lia..|]. rewrite Hs.
  destruct (decide (16 + i mod 1024 * 72 ≤ k < 16 + i mod 1024 * 72 + 72)).
  - rewrite index_splice; [lia..|]. do 2 (case_decide; try lia).
    + f_equal. lia.
    + rewrite /record /PACK_SLOT_BYTES index_slice; [lia..|]. f_equal. lia.
  - rewrite decide_False //. lia.
Qed.

(** Two packed pages with the same records are equal. *)
Lemma shaped_ext idx p q : shaped idx p → shaped idx q → (∀ j, 0 ≤ j < SLOTS → record p j = record q j) → p = q.
Proof.
  intros (Hlp & Hhp & Htp) (Hlq & Hhq & Htq) Hr. apply list_index_eq; [by rewrite Hlp Hlq|].
  rewrite Hlp. intros k Hk. rewrite /PACK_PAGE_BYTES in Hk, Hlp, Hlq.
  destruct (decide (k < 16)).
  { assert (index (header p) k = index (header q) k) as E by (by rewrite Hhp Hhq).
    rewrite /header !index_slice in E; [lia..|exact E]. }
  destruct (decide (k < 16 + 1024 * 72)).
  - specialize (Hr ((k - 16) / 72)). rewrite /SLOTS in Hr.
    assert (record p ((k - 16) / 72) = record q ((k - 16) / 72)) as E by (apply Hr; dlia).
    apply (f_equal (λ l, index l ((k - 16) mod 72))) in E. rewrite /record /PACK_SLOT_BYTES !index_slice in E; [dlia..|].
    replace (16 + (k - 16) / 72 * 72 + (k - 16) mod 72) with k in E by dlia. done.
  - assert (index (tail p) (k - (16 + 1024 * 72)) = index (tail q) (k - (16 + 1024 * 72))) as E.
    { apply all_zero_true in Htp as ->, Htq as ->. by rewrite !index_zeros. }
    rewrite /tail !index_slice in E; [rewrite /SLOTS /PACK_SLOT_BYTES /PACK_PAGE_BYTES; lia..|].
    rewrite /SLOTS /PACK_SLOT_BYTES in E. by replace (16 + 1024 * 72 + (k - (16 + 1024 * 72))) with k in E by lia.
Qed.

(** *** Blank and repacked pages *)
Lemma shaped_intro index body : Zlen body = PACK_PAGE_BYTES → all_zero (tail body) = true →
  shaped index (splice (splice body 0 PACK_MAGIC) 8 (to_be_bytes 8 index)).
Proof.
  intros Hl Ht. assert (Zlen (to_be_bytes 8 index) = 8) as Hb by by rewrite Zlen_to_be_bytes.
  assert (Zlen PACK_MAGIC = 8) as Hm by done.
  assert (Zlen (splice body 0 PACK_MAGIC) = PACK_PAGE_BYTES) as Hl1 by (rewrite Zlen_splice; plia).
  split_and!.
  - rewrite Zlen_splice; plia.
  - apply list_index_eq; [rewrite /header Zlen_slice ?Zlen_splice ?Zlen_app; plia|].
    rewrite /header Zlen_slice; [done|done|rewrite Zlen_splice; plia|]. intros k Hk.
    rewrite index_slice ?index_splice ?index_app; [plia..|]. rewrite !Z.add_0_l Hm Hb.
    do 3 (case_decide; try lia); f_equal; lia.
  - rewrite /tail in Ht |- *. rewrite !slice_splice_disj //; plia.
Qed.

Lemma record_intro index body j : Zlen body = PACK_PAGE_BYTES → 0 ≤ j < SLOTS →
  record (splice (splice body 0 PACK_MAGIC) 8 (to_be_bytes 8 index)) j = record body j.
Proof.
  intros Hl ?. assert (Zlen (to_be_bytes 8 index) = 8) as Hb by by rewrite Zlen_to_be_bytes.
  assert (Zlen PACK_MAGIC = 8) as Hm by done.
  assert (Zlen (splice body 0 PACK_MAGIC) = PACK_PAGE_BYTES) as Hl1 by (rewrite Zlen_splice; plia).
  rewrite /record !slice_splice_disj //; plia.
Qed.

Lemma shaped_blank index : shaped index (blank true index).
Proof.
  apply shaped_intro; [by apply Zlen_zeros|]. rewrite /tail slice_zeros; [done..|]. apply all_zero_zeros.
Qed.

Lemma record_blank index j : 0 ≤ j < SLOTS → record (blank true index) j = zeros PACK_SLOT_BYTES.
Proof.
  intros. rewrite /blank record_intro; [by apply Zlen_zeros|done|]. rewrite /record slice_zeros; [plia..|reflexivity].
Qed.

(** A plain page of the given index. *)
Definition plain (index : Z) (page : list Z) : Prop :=
  Zlen page = CHUNK_BYTES ∧ slice page 0 8 = MAGIC ∧ slice page 8 8 = to_be_bytes 8 index.

#[local] Transparent CHUNK_BYTES.

Lemma plain_stride index page : plain index page → stride page = 32.
Proof. intros (_ & Hm & _). by rewrite /stride Hm. Qed.

Lemma splice_zeros n x : splice (zeros n) 0 x = x ++ zeros (n - Zlen x).
Proof.
  rewrite /splice take_0 app_nil_l /zeros drop_replicate /Zlen. do 2 f_equal. lia.
Qed.

Lemma repack_step idx page out j : plain idx page → shaped idx out → 0 ≤ j < SLOTS →
  record out j = zeros PACK_SLOT_BYTES →
  shaped idx (copy_slot page out j) ∧
  (∀ k, 0 ≤ k < SLOTS → record (copy_slot page out j) k =
    if decide (k = j) then slice page (16 + j * 32) 32 ++ zeros 40 else record out k).
Proof.
  intros Hp Hs Hj Hz. assert (slot_at page j = 16 + j * 32) as Hat.
  { rewrite /slot_at (plain_stride _ _ Hp) Z.mod_small //. }
  assert (Zlen (slice page (16 + j * 32) 32) = 32) as Hl.
  { destruct Hp as (Hlp & _). rewrite /CHUNK_BYTES in Hlp. apply Zlen_slice; plia. }
  rewrite /copy_slot Hat -(Z.add_0_r (slot_at out j)) (splice_in_record idx); [done|done|plia|].
  rewrite (Z.mod_small j); [done|]. rewrite Hz.
  assert (splice (zeros PACK_SLOT_BYTES) 0 (slice page (16 + j * 32) 32) = slice page (16 + j * 32) 32 ++ zeros 40) as ->.
  { rewrite splice_zeros Hl //. }
  assert (Zlen (slice page (16 + j * 32) 32 ++ zeros 40) = PACK_SLOT_BYTES) as Hlr by (rewrite Zlen_app Zlen_zeros // Hl //).
  split; [by apply shaped_set|]. intros k Hk. apply record_set; [|done..]. by eapply shaped_len.
Qed.

Lemma shaped_packed idx page : plain idx page →
  shaped idx (packed_page page) ∧
  ∀ j, 0 ≤ j < SLOTS → record (packed_page page) j = slice page (16 + j * 32) 32 ++ zeros 40.
Proof.
  intros Hp. rewrite /packed_page (plain_stride _ _ Hp). change (32 =? PACK_SLOT_BYTES) with false. cbv iota.
  pose proof Hp as (Hl & Hm & Hi). rewrite Hi. set (out0 := splice _ 8 _).
  assert (∀ n out, (n ≤ 1024)%nat → shaped idx out →
    (∀ j, 0 ≤ j < SLOTS → record out j = if decide (j < 1024 - Z.of_nat n) then slice page (16 + j * 32) 32 ++ zeros 40
                                         else zeros PACK_SLOT_BYTES) →
    let out' := fold_left (copy_slot page) (seqZ (1024 - Z.of_nat n) (Z.of_nat n)) out in
    shaped idx out' ∧ ∀ j, 0 ≤ j < SLOTS → record out' j = slice page (16 + j * 32) 32 ++ zeros 40) as Hind.
  { induction n as [|n IH]; intros out Hn Hs Hr; simpl.
    { split; [done|]. intros j Hj. rewrite Hr // decide_True //. plia. }
    rewrite seqZ_cons; [lia|]. simpl.
    destruct (repack_step idx page out (1024 - Z.of_nat (S n))) as [Hs' Hr']; [done|done|plia| |].
    { rewrite Hr; [plia|]. rewrite decide_False //. lia. }
    replace (Z.succ (1024 - Z.of_nat (S n))) with (1024 - Z.of_nat n) by lia.
    replace (Z.pred (Z.of_nat (S n))) with (Z.of_nat n) by lia.
    apply IH; [lia|done|]. intros j Hj. rewrite Hr' // Hr //. repeat case_decide; subst; try lia; done. }
  replace (seqZ 0 SLOTS) with (seqZ (1024 - Z.of_nat 1024) (Z.of_nat 1024)) by (unfold SLOTS; f_equal; lia).
  refine (Hind 1024%nat out0 _ _ _); [lia| |].
  - apply shaped_intro; [by apply Zlen_zeros|]. rewrite /tail slice_zeros; [done..|]. apply all_zero_zeros.
  - intros j Hj. rewrite decide_False; [plia|]. rewrite /out0 record_intro; [by apply Zlen_zeros|done|].
    rewrite /record slice_zeros; [plia..|reflexivity].
Qed.

Lemma plain_blank idx : plain idx (blank false idx).
Proof.
  assert (Zlen (to_be_bytes 8 idx) = 8) as Hb by by rewrite Zlen_to_be_bytes.
  assert (Zlen (zeros CHUNK_BYTES) = 65536) as Hz by (by apply Zlen_zeros).
  assert (Zlen (splice (zeros CHUNK_BYTES) 0 MAGIC) = 65536) as Hl1 by (rewrite Zlen_splice; [done|rewrite Hz; done|done]).
  rewrite /blank. split_and!.
  - rewrite Zlen_splice; [done|rewrite Hl1 Hb; done|done].
  - rewrite slice_splice_disj; [lia..|]. by rewrite -{2}(slice_all MAGIC 8).
  - rewrite -{2}Hb. rewrite slice_splice_same; [done|rewrite Hl1 Hb; done|done].
Qed.

(** *** The slot checks on records *)
Definition roffset (r : list Z) : Z := from_be_bytes (slice r 64 4).
Definition record_good (r : list Z) : Prop :=
  all_zero (slice r 68 4) = true ∧
  (all_zero (slice r 0 32) = true → all_zero (slice r 32 36) = true) ∧
  (all_zero (slice r 32 32) = true → roffset r = 0) ∧
  (all_zero (slice r 32 32) = false → roffset r mod CHUNK_BYTES = 0 ∧ roffset r < MAX_OBJECT_BYTES).

(** A slot whose block lives inside a pack. *)
Definition located (r : list Z) : Prop := all_zero (slice r 0 32) = false ∧ all_zero (slice r 32 32) = false.

Lemma slot_bad_record idx p j : shaped idx p → 0 ≤ j < SLOTS →
  slot_bad p j = false ↔ record_good (record p j).
Proof.
  intros Hp Hj. rewrite /slot_bad /empty_slot /direct_slot /slot_offset /record_good /roffset.
  rewrite !(slice_record idx) // !(slice_record0 idx) // Z.mod_small //.
  rewrite /is_multiple_of. set (r := record p j). clearbody r.
  destruct (all_zero (slice r 68 4)), (all_zero (slice r 0 32)), (all_zero (slice r 32 36)), (all_zero (slice r 32 32)); simpl;
    rewrite ?orb_false_iff ?negb_false_iff ?Z.eqb_eq ?Z.leb_gt; naive_solver.
Qed.

Lemma slots_good idx p l m : shaped idx p → Forall (λ j, 0 ≤ j < SLOTS) l → check_slots p l m = true →
  Forall (λ j, record_good (record p j)) l.
Proof.
  intros Hp Hl. revert m. induction Hl as [|j l Hj Hl IH]; intros m Hc; [done|]. simpl in Hc.
  destruct (slot_bad p j) eqn:Hb; [done|]. constructor; [by apply (slot_bad_record idx)|].
  repeat case_match; try done; eauto.
Qed.

(** [f] tells the block at a location. *)
Lemma slots_check idx p (f : list Z * Z → list Z) l m : shaped idx p → Forall (λ j, 0 ≤ j < SLOTS) l →
  Forall (λ j, record_good (record p j)) l →
  (∀ j, j ∈ l → located (record p j) →
    slice (record p j) 0 32 = f (slice (record p j) 32 32, roffset (record p j))) →
  (∀ k h, m !! k = Some h → h = f k) → check_slots p l m = true.
Proof.
  intros Hp Hl. revert m. induction Hl as [|j l Hj Hl IH]; intros m Hg Hf Hm; [done|]. simpl.
  apply Forall_cons in Hg as [Hgj Hg]. rewrite (proj2 (slot_bad_record idx p j Hp Hj) Hgj).
  rewrite /empty_slot /direct_slot /slot_offset.
  rewrite !(slice_record idx) // !(slice_record0 idx) // Z.mod_small //.
  assert (∀ k, k ∈ l → located (record p k) →
    slice (record p k) 0 32 = f (slice (record p k) 32 32, roffset (record p k))) as Hf'.
  { intros k Hk. apply Hf. by right. }
  destruct (all_zero (slice (record p j) 0 32)) eqn:E1; [by apply IH|].
  destruct (all_zero (slice (record p j) 32 32)) eqn:E2; [by apply IH|]. simpl.
  pose proof (Hf j ltac:(by left) (conj E1 E2)) as Hfj. rewrite /roffset in Hfj.
  assert (check_slots p l (<[(slice (record p j) 32 32, from_be_bytes (slice (record p j) 64 4)) := slice (record p j) 0 32]> m) = true).
  { apply IH; [done..|]. intros k h [[<- <-]|[? Hk]]%lookup_insert_Some; [done|by apply Hm]. }
  case_match eqn:Hk; [|done]. rewrite bool_decide_eq_true_2 //. apply Hm in Hk. congruence.
Qed.

Lemma index_bytes p idx : bytes p → 16 ≤ Zlen p → from_be_bytes (slice p 8 8) = idx → slice p 8 8 = to_be_bytes 8 idx.
Proof.
  intros Hb Hl <-. assert (Zlen (slice p 8 8) = 8) as H8 by (apply Zlen_slice; lia).
  pose proof (to_from_be_bytes (slice p 8 8) (bytes_slice _ _ _ Hb)) as E.
  assert (length (slice p 8 8) = 8%nat) as Hn by (rewrite /Zlen in H8; lia). by rewrite Hn in E.
Qed.

Section check.
Context {SHA : Sha256}.

(** What acceptance of a packed page says. *)
Lemma check_packed size idx hash p : 0 ≤ idx → idx * SLOTS < size / CHUNK_BYTES → 0 ≤ idx < 2 ^ 64 → bytes p →
  check_page true size idx hash p = true →
  shaped idx p ∧ digest p = hash ∧ (∀ j, 0 ≤ j < SLOTS → record_good (record p j)) ∧
  (∀ j, 0 ≤ j < SLOTS → size / CHUNK_BYTES ≤ idx * SLOTS + j → record p j = zeros PACK_SLOT_BYTES).
Proof.
  intros Hi Hsz Hu Hb. rewrite /check_page !andb_true_iff. intros [[H1 H2] H3].
  rewrite negb_true_iff !orb_false_iff !negb_false_iff Z.eqb_eq !bool_decide_eq_true Z.eqb_eq in H1.
  destruct H1 as ((((Hl & Hd) & Hm) & Hidx) & Ht).
  assert (shaped idx p) as Hp.
  { split_and!; [done| |exact Ht].
    assert (slice p 8 8 = to_be_bytes 8 idx) as H8 by (apply index_bytes; [done|plia|done]).
    rewrite -H8 -Hm. apply list_index_eq; [rewrite /header Zlen_app !Zlen_slice //; plia|].
    rewrite /header Zlen_slice; [done|done|plia|]. intros k Hk.
    rewrite index_slice ?index_app ?Zlen_slice; [plia..|]. case_decide; rewrite index_slice; f_equal; plia. }
  split_and!; [done|done| |].
  - apply orb_prop in H3 as [H3|H3]; [discriminate|]. apply (slots_good idx) in H3; [|exact Hp|].
    + rewrite Forall_forall in H3. intros j Hj. apply H3, elem_of_seqZ. plia.
    + apply Forall_forall. intros j Hj%elem_of_seqZ. plia.
  - intros j Hj Hge. set (valid := Z.min (size / CHUNK_BYTES - idx * SLOTS) SLOTS) in H2.
    assert (0 ≤ valid ≤ j) as Hv by (unfold valid; plia).
    apply list_index_eq; [rewrite Zlen_zeros // Zlen_record //|]. rewrite Zlen_record //. intros k Hk.
    rewrite index_zeros /record index_slice; [plia..|].
    apply all_zero_true in H2. apply (f_equal (λ l, index l ((j - valid) * PACK_SLOT_BYTES + k))) in H2.
    rewrite index_zeros index_slice in H2; [plia..|]. rewrite -H2. f_equal. plia.
Qed.

(** Acceptance of a packed page, from its records. *)
Lemma packed_check size idx hash p (f : list Z * Z → list Z) :
  0 ≤ idx < 2 ^ 64 → idx * SLOTS < size / CHUNK_BYTES → shaped idx p → digest p = hash →
  (∀ j, 0 ≤ j < SLOTS → record_good (record p j)) →
  (∀ j, 0 ≤ j < SLOTS → size / CHUNK_BYTES ≤ idx * SLOTS + j → record p j = zeros PACK_SLOT_BYTES) →
  (∀ j, 0 ≤ j < SLOTS → located (record p j) →
    slice (record p j) 0 32 = f (slice (record p j) 32 32, roffset (record p j))) →
  check_page true size idx hash p = true.
Proof.
  intros Hu Hsz Hp Hd Hg Hz Hf. rewrite /check_page !andb_true_iff. split_and!.
  - rewrite negb_true_iff !orb_false_iff !negb_false_iff Z.eqb_eq !bool_decide_eq_true Z.eqb_eq.
    split_and!; [by eapply shaped_len|done|by eapply shaped_magic| |apply Hp].
    rewrite (shaped_index _ _ Hp). by apply from_to_be_bytes.
  - set (valid := Z.min (size / CHUNK_BYTES - idx * SLOTS) SLOTS).
    assert (0 ≤ valid ≤ SLOTS) as Hv by (unfold valid; plia). pose proof (shaped_len _ _ Hp) as Hl.
    assert (Zlen (slice p (16 + valid * PACK_SLOT_BYTES) ((SLOTS - valid) * PACK_SLOT_BYTES)) = (SLOTS - valid) * PACK_SLOT_BYTES)
      as Hls by (apply Zlen_slice; plia).
    apply all_zero_index. rewrite Hls. intros k Hk. rewrite index_slice; [plia..|].
    set (j := valid + k / PACK_SLOT_BYTES). assert (valid ≤ j < SLOTS) as Hj by (unfold j, PACK_SLOT_BYTES, SLOTS in *; dlia).
    assert (record p j = zeros PACK_SLOT_BYTES) as Hr by (apply Hz; unfold valid in *; plia).
    apply (f_equal (λ l, index l (k mod PACK_SLOT_BYTES))) in Hr. rewrite index_zeros /record index_slice in Hr.
    + plia.
    + unfold PACK_SLOT_BYTES. dlia.
    + rewrite -Hr. f_equal. unfold j, PACK_SLOT_BYTES. dlia.
  - apply orb_true_intro. right. apply (slots_check idx p f).
    + exact Hp.
    + apply Forall_forall. intros j Hj%elem_of_seqZ. plia.
    + apply Forall_forall. intros j Hj%elem_of_seqZ. apply Hg. plia.
    + intros j Hj%elem_of_seqZ. apply Hf. plia.
    + intros k h. by rewrite lookup_empty.
Qed.

(** Acceptance of a plain page. *)
Lemma check_plain size idx hash p : 0 ≤ idx < 2 ^ 64 → idx * SLOTS < size / CHUNK_BYTES → bytes p →
  check_page false size idx hash p = true →
  plain idx p ∧ (∀ j, 0 ≤ j < SLOTS → size / CHUNK_BYTES ≤ idx * SLOTS + j → slice p (16 + j * 32) 32 = zeros 32).
Proof.
  intros Hu Hsz Hb. rewrite /check_page !andb_true_iff. intros [[H1 H2] _].
  rewrite negb_true_iff !orb_false_iff !negb_false_iff Z.eqb_eq !bool_decide_eq_true Z.eqb_eq in H1.
  destruct H1 as ((((Hl & Hd) & Hm) & Hidx) & Ht). split.
  { split_and!; [done|done|]. apply index_bytes; [done|rewrite Hl; done|done]. }
  intros j Hj Hge. set (valid := Z.min (size / CHUNK_BYTES - idx * SLOTS) SLOTS) in H2.
  assert (0 ≤ valid ≤ j) as Hv by (unfold valid; plia). assert (Zlen p = 65536) as Hl' by done.
  assert (Zlen (slice p (16 + j * 32) 32) = 32) as Hls by (apply Zlen_slice; plia).
  apply list_index_eq; [by rewrite Hls|]. rewrite Hls. intros k Hk.
  rewrite index_zeros index_slice; [plia..|].
  apply all_zero_true in H2. apply (f_equal (λ l, index l ((j - valid) * 32 + k))) in H2.
  rewrite index_zeros index_slice in H2; [plia..|]. rewrite -H2. f_equal. plia.
Qed.

Lemma check_digest kind size idx hash p : check_page kind size idx hash p = true → digest p = hash.
Proof.
  rewrite /check_page !andb_true_iff negb_true_iff !orb_false_iff !negb_false_iff. intros [[H1 _] _].
  destruct H1 as ((((_ & Hd) & _) & _) & _). by apply bool_decide_eq_true in Hd.
Qed.
Lemma check_length kind size idx hash p : check_page kind size idx hash p = true →
  Zlen p = if kind then PACK_PAGE_BYTES else CHUNK_BYTES.
Proof.
  rewrite /check_page !andb_true_iff negb_true_iff !orb_false_iff !negb_false_iff. intros [[H1 _] _].
  destruct H1 as ((((Hl & _) & _) & _) & _). by apply Z.eqb_eq in Hl.
Qed.
End check.

(** *** The three kinds of records *)
Definition rec_empty : list Z := zeros PACK_SLOT_BYTES.
Definition rec_direct (h : list Z) : list Z := h ++ zeros 40.
Definition rec_packed (h pk : list Z) (off : Z) : list Z := h ++ pk ++ to_be_bytes 4 off ++ zeros 4.

Lemma slice_from_app (a l : list Z) at_ n : Zlen a ≤ at_ → 0 ≤ n → at_ + n ≤ Zlen (a ++ l) →
  slice (a ++ l) at_ n = slice l (at_ - Zlen a) n.
Proof.
  rewrite Zlen_app. intros. pose proof (Zlen_nonneg a). apply list_index_eq; [rewrite !Zlen_slice ?Zlen_app; lia|].
  rewrite Zlen_slice ?Zlen_app; [lia..|]. intros k Hk. rewrite !index_slice; [lia..|].
  rewrite index_app; [lia|]. rewrite decide_False; [lia|]. f_equal. lia.
Qed.

Lemma rslot_empty : rslot rec_empty = None.
Proof. done. Qed.

Lemma good_empty : record_good rec_empty.
Proof. split_and!; try done. Qed.

Section direct.
Variable h : list Z.
Hypothesis Hh : Zlen h = 32.

Lemma direct_parts : slice (rec_direct h) 0 32 = h ∧ all_zero (slice (rec_direct h) 32 32) = true ∧
  all_zero (slice (rec_direct h) 32 36) = true ∧ all_zero (slice (rec_direct h) 68 4) = true ∧
  roffset (rec_direct h) = 0 ∧ Zlen (rec_direct h) = PACK_SLOT_BYTES.
Proof using Hh.
  assert (Zlen (zeros 40) = 40) as Hz by done. assert (Zlen (h ++ zeros 40) = 72) as Hl by (rewrite Zlen_app; lia).
  rewrite /roffset /rec_direct. split_and!; [|rewrite slice_from_app; [lia..|]; rewrite Hh; done..|done].
  rewrite slice_app_l; [lia..|]. by apply slice_all.
Qed.

Lemma rslot_direct : rslot (rec_direct h) = if all_zero h then None else Some (hex h).
Proof using Hh. rewrite /rslot. by destruct direct_parts as (-> & _). Qed.

Lemma robject_direct : all_zero h = false → robject (rec_direct h) = Some (hex h, 0).
Proof using Hh.
  intros Hz. rewrite /robject rslot_direct Hz /=. by destruct direct_parts as (_ & -> & _).
Qed.

Lemma good_direct : record_good (rec_direct h).
Proof using Hh.
  destruct direct_parts as (_ & H1 & H2 & H3 & H4 & _). split_and!; [done|done|done|by rewrite H1].
Qed.

Lemma direct_not_located : ¬ located (rec_direct h).
Proof using Hh. intros [_ Hl]. by destruct direct_parts as (_ & H1 & _); rewrite H1 in Hl. Qed.
End direct.

Section packed.
Variables (h pk : list Z) (off : Z).
Hypotheses (Hh : Zlen h = 32) (Hp : Zlen pk = 32) (Hoff : 0 ≤ off < 2 ^ 32).

Lemma packed_parts : slice (rec_packed h pk off) 0 32 = h ∧ slice (rec_packed h pk off) 32 32 = pk ∧
  roffset (rec_packed h pk off) = off ∧ all_zero (slice (rec_packed h pk off) 68 4) = true ∧
  Zlen (rec_packed h pk off) = PACK_SLOT_BYTES.
Proof using Hh Hp Hoff.
  assert (Zlen (zeros 4) = 4) as Hz by done. assert (Zlen (to_be_bytes 4 off) = 4) as Hb by by rewrite Zlen_to_be_bytes.
  rewrite /roffset /rec_packed.
  assert (Zlen (h ++ pk ++ to_be_bytes 4 off ++ zeros 4) = 72) as Hl by (rewrite !Zlen_app; lia). rewrite !Zlen_app in Hl.
  split_and!.
  - rewrite slice_app_l; [lia..|]. by apply slice_all.
  - rewrite slice_from_app ?Zlen_app; [lia..|]. rewrite slice_app_l; [lia..|]. rewrite Hh. by apply slice_all.
  - rewrite slice_from_app ?Zlen_app; [lia..|]. rewrite slice_from_app ?Zlen_app; [lia..|].
    rewrite slice_app_l; [lia..|]. rewrite Hh Hp. change (64 - 32 - 32) with 0. rewrite slice_all //.
    by apply from_to_be_bytes.
  - rewrite slice_from_app ?Zlen_app; [lia..|]. rewrite slice_from_app ?Zlen_app; [lia..|].
    rewrite slice_from_app ?Zlen_app; [lia..|]. rewrite Hh Hp Hb. done.
  - rewrite !Zlen_app. plia.
Qed.

Lemma rslot_packed : all_zero h = false → rslot (rec_packed h pk off) = Some (hex h).
Proof using Hh Hp Hoff. intros Hz. rewrite /rslot. destruct packed_parts as (-> & _). by rewrite Hz. Qed.

Lemma robject_packed : all_zero h = false → all_zero pk = false → robject (rec_packed h pk off) = Some (hex pk, off).
Proof using Hh Hp Hoff.
  intros Hz Hpz. rewrite /robject rslot_packed //=. destruct packed_parts as (_ & -> & Ho & _).
  rewrite Hpz. rewrite /roffset in Ho. by rewrite Ho.
Qed.

Lemma good_packed : all_zero h = false → all_zero pk = false → off mod CHUNK_BYTES = 0 → off < MAX_OBJECT_BYTES →
  record_good (rec_packed h pk off).
Proof using Hh Hp Hoff.
  intros Hz Hpz ??. destruct packed_parts as (H1 & H2 & H3 & H4 & _). rewrite /record_good H1 H2 H3. split_and!; congruence || done.
Qed.
End packed.

End Page.
