(* ===== verification/Base.v ===== *)
(** The immutable image catalog of [ahvm-volume/src/base.rs]: a 64-KiB object that
    names the index pages of a base image, pinned by its own digest. *)
From S2P Require Import Prelude Codec ObjectStore Blocks.

Module Base.

Definition MAGIC : list Z := [65; 72; 86; 77; 66; 83; 48; 49].
Definition HEADER : Z := 48.
Definition PAGES : Z := 1024.
Definition MAX_SIZE : Z := 64 * 1024 * 1024 * 1024.

Record BaseRef := mkBaseRef { image : string; catalog : string }.
Record Catalog := mkCatalog { cat_size : Z; cat_pages : gmap Z string }.

#[export] Instance BaseRef_eq_dec : EqDecision BaseRef.
Proof. solve_decision. Defined.

(** [for (&page, hash) in &self.pages] *)
Definition encode_page (b : Result Error (list Z)) (e : Z * string) : Result Error (list Z) :=
  match b with
  | Ok b =>
      if PAGES <=? e.1 then Err InvalidInput
      else match decode e.2 with
           | Ok raw => Ok (splice b (HEADER + e.1 * 32) raw)
           | Err x => Err x
           end
  | Err x => Err x
  end.
Definition encode (c : Catalog) (img : string) : Result Error (list Z) :=
  match decode img with
  | Ok raw =>
      fold_left encode_page (entries (cat_pages c))
        (Ok (splice (splice (splice (zeros CHUNK_BYTES) 0 MAGIC) 8 (to_be_bytes 8 (cat_size c))) 16 raw))
  | Err x => Err x
  end.

(** [for i in 0..PAGES] *)
Definition load_page (b : list Z) (count : Z) (m : Result Error (gmap Z string)) (i : Z)
    : Result Error (gmap Z string) :=
  match m with
  | Ok m =>
      let hash := slice b (HEADER + i * 32) 32 in
      if all_zero hash then Ok m
      else if count <=? i then Err Corrupt
      else Ok (<[i := hex hash]> m)
  | Err x => Err x
  end.

Section base.
Context {S : Type} {SHA : Sha256} {OS : ObjectStore S}.

(** [Catalog::load], after the fetch. *)
Definition parse (r : BaseRef) (b : list Z) : Result Error Catalog :=
  if negb (Zlen b =? CHUNK_BYTES) || negb (bool_decide (digest b = catalog r))
     || negb (bool_decide (slice b 0 8 = MAGIC)) || negb (match decode (image r) with Ok raw => bool_decide (slice b 16 32 = raw) | Err _ => false end)
     || negb (all_zero (slice b (HEADER + PAGES * 32) (CHUNK_BYTES - (HEADER + PAGES * 32))))
  then Err Corrupt
  else
    let size := from_be_bytes (slice b 8 8) in
    if (size =? 0) || (MAX_SIZE <? size) || negb (is_multiple_of size CHUNK_BYTES) then Err Corrupt
    else match fold_left (load_page b (div_ceil (size / CHUNK_BYTES) 1024)) (seqZ 0 PAGES) (Ok ∅) with
         | Ok pages => Ok (mkCatalog size pages)
         | Err x => Err x
         end.

Definition load (r : BaseRef) : M Error S Catalog :=
  of_result (decode (image r));;
  of_result (decode (catalog r));;
  b ← base_chunk (image r) (catalog r) None;
  of_result (parse r b).

(** ** Encoding and parsing *)
Context {SHAL : Sha256Laws}.

(** The place of page [i] in the catalog object. *)
Definition place (b : list Z) (i : Z) : list Z := slice b (HEADER + i * 32) 32.

(** A catalog that [export_base] writes. *)
Record catalog_ok (c : Catalog) : Prop := {
  ok_size : 0 < cat_size c ≤ MAX_SIZE ∧ cat_size c mod CHUNK_BYTES = 0;
  ok_pages : ∀ i h, cat_pages c !! i = Some h → 0 ≤ i < div_ceil (cat_size c / CHUNK_BYTES) 1024 ∧
    valid_hash h = true ∧ all_zero (unhex h) = false;
}.

Lemma count_small c : catalog_ok c → div_ceil (cat_size c / CHUNK_BYTES) 1024 ≤ PAGES.
Proof.
  intros [[[_ Hmax] _] _]. rewrite /div_ceil /PAGES. rewrite /MAX_SIZE in Hmax.
  assert (cat_size c / CHUNK_BYTES ≤ 1024 * 1024) by (assert (CHUNK_BYTES = 65536) as -> by done; dlia). dlia.
Qed.

Lemma encode_page_err e l : fold_left encode_page l (Err e) = Err e.
Proof. by induction l. Qed.

(** What the loop over the pages writes. *)
Lemma encode_pages l b b' : NoDup l.*1 → (∀ i h, (i, h) ∈ l → 0 ≤ i) → Zlen b = CHUNK_BYTES →
  fold_left encode_page l (Ok b) = Ok b' →
  Zlen b' = CHUNK_BYTES ∧ slice b' 0 HEADER = slice b 0 HEADER ∧
  slice b' (HEADER + PAGES * 32) (CHUNK_BYTES - (HEADER + PAGES * 32)) =
    slice b (HEADER + PAGES * 32) (CHUNK_BYTES - (HEADER + PAGES * 32)) ∧
  (∀ i h, (i, h) ∈ l → i < PAGES ∧ decode h = Ok (place b' i)) ∧
  (∀ i, 0 ≤ i < PAGES → i ∉ l.*1 → place b' i = place b i).
Proof.
  revert b. induction l as [|[i h] l IH]; intros b Hnd Hpos Hl; [intros [= <-]; split_and!; try done; by intros ?? ?%elem_of_nil|].
  simpl. simpl in Hnd. apply NoDup_cons in Hnd as [Hni Hnd]. destruct (Z.leb_spec PAGES i) as [|Hi]; [by rewrite encode_page_err|].
  destruct (decode h) as [raw|e] eqn:Hd; [|by rewrite encode_page_err]. intros Hf.
  assert (Zlen raw = 32) as Hr by (apply hex_decode in Hd as (_ & Hlr & _); rewrite /Zlen Hlr; done).
  assert (0 ≤ i) as Hi0 by (eapply Hpos; by left). unfold HEADER, PAGES in *. assert (CHUNK_BYTES = 65536) as HC by done. rewrite HC in Hl IH |- *.
  assert (Zlen (splice b (48 + i * 32) raw) = 65536) as Hl1 by (rewrite Zlen_splice; lia).
  destruct (IH (splice b (48 + i * 32) raw)) as (H1 & H2 & H3 & H4 & H5); [done|intros; eapply Hpos; by right|done|done|].
  split_and!; [done| | | |].
  - rewrite H2 slice_splice_disj //; lia.
  - rewrite H3 slice_splice_disj //; lia.
  - intros k x [[= -> ->]|Hk]%elem_of_cons; [|by apply H4]. split; [done|]. rewrite Hd. f_equal.
    rewrite H5 //. rewrite /place slice_splice_eq //; unfold HEADER; lia.
  - intros k Hk Hn. simpl in Hn. rewrite H5 //; [set_solver|]. rewrite /place slice_splice_disj //; unfold HEADER; try lia.
    assert (k ≠ i) by set_solver. lia.
Qed.

Lemma encode_spec c img b : encode c img = Ok b → (∀ i h, cat_pages c !! i = Some h → 0 ≤ i) → 0 ≤ cat_size c ≤ MAX_SIZE →
  Zlen b = CHUNK_BYTES ∧ slice b 0 8 = MAGIC ∧ from_be_bytes (slice b 8 8) = cat_size c ∧ decode img = Ok (slice b 16 32) ∧
  all_zero (slice b (HEADER + PAGES * 32) (CHUNK_BYTES - (HEADER + PAGES * 32))) = true ∧
  ∀ i, 0 ≤ i < PAGES → match cat_pages c !! i with
    | Some h => decode h = Ok (place b i)
    | None => place b i = zeros 32 end.
Proof.
  rewrite /encode. destruct (decode img) as [raw|] eqn:Hd; [|done]. intros Hf Hpos Hsz.
  assert (Zlen raw = 32) as Hr by (apply hex_decode in Hd as (_ & Hlr & _); rewrite /Zlen Hlr; done).
  assert (Zlen (to_be_bytes 8 (cat_size c)) = 8) as H8 by by rewrite Zlen_to_be_bytes.
  assert (Zlen MAGIC = 8) as Hm by done. assert (Zlen (zeros CHUNK_BYTES) = 65536) as Hz by (by apply Zlen_zeros).
  assert (Zlen (splice (zeros CHUNK_BYTES) 0 MAGIC) = 65536) as L1 by (rewrite Zlen_splice; lia).
  set (b1 := splice (zeros CHUNK_BYTES) 0 MAGIC) in *.
  assert (Zlen (splice b1 8 (to_be_bytes 8 (cat_size c))) = 65536) as L2 by (rewrite Zlen_splice; lia).
  set (b2 := splice b1 8 _) in *. assert (Zlen (splice b2 16 raw) = 65536) as L3 by (rewrite Zlen_splice; lia).
  set (b3 := splice b2 16 raw) in *.
  apply encode_pages in Hf as (H1 & H2 & H3 & H4 & H5); [|apply NoDup_entries|intros i h; rewrite elem_of_entries; apply Hpos|done].
  unfold HEADER, PAGES in *. assert (CHUNK_BYTES = 65536) as HC by done. rewrite HC in H1 H3 |- *.
  assert (∀ at_ n, 0 ≤ at_ → 0 ≤ n → at_ + n ≤ 48 → slice b at_ n = slice b3 at_ n) as Hhd.
  { intros at_ n ???. apply (slice_prefix b b3 48); [exact H2|lia..]. }
  split_and!; [done| | | | |].
  - rewrite Hhd; [lia..|]. rewrite /b3 slice_splice_disj; [lia..|]. rewrite /b2 slice_splice_disj; [lia..|]. rewrite /b1. apply slice_splice_eq; lia.
  - rewrite Hhd; [lia..|]. rewrite /b3 slice_splice_disj; [lia..|]. rewrite /b2 slice_splice_eq; [lia..|].
    apply from_to_be_bytes. rewrite /MAX_SIZE in Hsz. simpl. lia.
  - rewrite Hhd; [lia..|]. f_equal. symmetry. rewrite /b3. apply slice_splice_eq; lia.
  - rewrite H3. rewrite /b3 slice_splice_disj; [lia..|]. rewrite /b2 slice_splice_disj; [lia..|].
    rewrite /b1 slice_splice_disj; [lia..|]. rewrite slice_zeros; [lia..|]. apply all_zero_zeros.
  - intros i Hi. destruct (cat_pages c !! i) as [h|] eqn:Hp; [by apply H4, elem_of_entries|].
    assert (i ∉ (entries (cat_pages c)).*1) as Hn by (rewrite elem_of_entries_keys Hp; by intros []).
    rewrite (H5 i Hi Hn).
    rewrite /place /HEADER. rewrite /b3 slice_splice_disj; [lia..|]. rewrite /b2 slice_splice_disj; [lia..|].
    rewrite /b1 slice_splice_disj; [lia..|]. apply slice_zeros; lia.
Qed.

(** The loop that reads the pages back. *)
Lemma load_pages_spec b count m l (want : gmap Z string) : NoDup l → Forall (λ i, 0 ≤ i < PAGES) l →
  (∀ i, i ∈ l → match want !! i with
     | Some h => i < count ∧ valid_hash h = true ∧ all_zero (unhex h) = false ∧ decode h = Ok (place b i)
     | None => place b i = zeros 32 end) →
  ∃ m', fold_left (load_page b count) l (Ok m) = Ok m' ∧
    ∀ i, m' !! i = if decide (i ∈ l) then match want !! i with Some h => Some h | None => m !! i end else m !! i.
Proof.
  revert m. induction l as [|i l IH]; intros m Hnd Hr Hw; [by exists m|]. apply NoDup_cons in Hnd as [Hni Hnd].
  apply Forall_cons in Hr as [Hi Hr]. assert (∀ k, k ∈ l → k ∈ i :: l) as Hsub by (intros; by right). simpl.
  pose proof (Hw i ltac:(by left)) as Hwi. rewrite -/(place b i). destruct (want !! i) as [h|] eqn:Hh.
  - destruct Hwi as (Hc & Hv & Hnz & Hd). assert (place b i = unhex h) as E by (rewrite /decode Hv in Hd; congruence).
    rewrite E Hnz. destruct (Z.leb_spec count i); [lia|].
    assert (hex (unhex h) = h) as -> by (by apply (hex_decode h); rewrite -E).
    destruct (IH (<[i:=h]> m) Hnd Hr) as (m' & E' & Hm'); [intros; apply Hw; auto|]. exists m'. split; [exact E'|]. intros k. rewrite Hm'.
    destruct (decide (k = i)) as [->|Hne].
    + rewrite decide_False // decide_True; [by left|]. by rewrite lookup_insert_eq Hh.
    + rewrite lookup_insert_ne //. repeat case_decide; set_solver.
  - rewrite Hwi all_zero_zeros. destruct (IH m Hnd Hr) as (m' & E' & Hm'); [intros; apply Hw; auto|]. exists m'. split; [exact E'|]. intros k.
    rewrite Hm'. destruct (decide (k = i)) as [->|Hne].
    + rewrite decide_False // decide_True; [by left|]. by rewrite Hh.
    + repeat case_decide; set_solver.
Qed.

Lemma catalog_roundtrip_spec c img b : catalog_ok c → encode c img = Ok b → parse (mkBaseRef img (digest b)) b = Ok c.
Proof.
  intros Hok Henc. pose proof Hok as [[Hsz Hm] Hpg].
  destruct (encode_spec c img b Henc) as (Hl & Hmg & Hs & Hd & Ht & Hpl); [intros i h Hi; by apply Hpg in Hi as [[? _] _]|lia|].
  clear Henc. pose proof (count_small c Hok) as Hcs. rewrite /parse.
  lazymatch goal with |- (if ?x then _ else _) = _ => assert (x = false) as -> end.
  { rewrite !orb_false_iff !negb_false_iff Z.eqb_eq. cbn [image catalog]. rewrite Hd.
    split_and!; try apply bool_decide_eq_true_2; done. }
  cbv zeta. rewrite Hs. lazymatch goal with |- (if ?x then _ else _) = _ => assert (x = false) as -> end.
  { rewrite !orb_false_iff negb_false_iff Z.eqb_neq Z.ltb_ge /is_multiple_of Hm. split_and!; [lia|lia|done]. }
  destruct (load_pages_spec b (div_ceil (cat_size c / CHUNK_BYTES) 1024) ∅ (seqZ 0 PAGES) (cat_pages c)) as (m & E & Hmm).
  - apply NoDup_seqZ.
  - apply Forall_forall. intros i Hi%elem_of_seqZ. lia.
  - intros i Hi%elem_of_seqZ. pose proof (Hpl i ltac:(lia)) as Hp. destruct (cat_pages c !! i) as [h|] eqn:Hh; [|done].
    destruct (Hpg i h Hh) as (? & ? & ?). split_and!; try done. lia.
  - rewrite E. assert (m = cat_pages c) as ->; [|by destruct c]. apply map_eq. intros i. rewrite Hmm lookup_empty.
    destruct (decide (i ∈ seqZ 0 PAGES)) as [_|Hn]; [by destruct (cat_pages c !! i)|]. symmetry. apply eq_None_not_Some. intros [h Hh].
    apply Hn, elem_of_seqZ. apply Hpg in Hh as [? _]. lia.
Qed.

(** A catalog survives encoding: parsing the encoded object under its digest
    gives the catalog back. *)
Theorem catalog_roundtrip c img b : catalog_ok c → encode c img = Ok b → parse (mkBaseRef img (digest b)) b = Ok c.
Proof. apply catalog_roundtrip_spec. Qed.

End base.

(** A catalog of a blank 64-KiB image. *)
Module Example.
Definition blank_catalog : Catalog := mkCatalog 65536 ∅.
Definition raw_name : list Z := 1 :: replicate 31 5.
Definition name : string := hex raw_name.
Definition bytes_of_blank : list Z :=
  splice (splice (splice (zeros CHUNK_BYTES) 0 MAGIC) 8 (to_be_bytes 8 65536)) 16 raw_name.

Lemma raw_name_ok : bytes raw_name ∧ length raw_name = 32%nat.
Proof. split; [|done]. constructor; [done|]. by apply Forall_replicate. Qed.
Lemma blank_encode : encode blank_catalog name = Ok bytes_of_blank.
Proof.
  rewrite /encode. assert (decode name = Ok raw_name) as -> by (by apply decode_hex; apply raw_name_ok).
  assert (entries (cat_pages blank_catalog) = []) as -> by reflexivity. reflexivity.
Qed.
Lemma blank_catalog_ok : catalog_ok blank_catalog.
Proof. split; [split; [by vm_compute|by vm_compute]|]. intros i h. by rewrite lookup_empty. Qed.

Lemma catalog_roundtrip_witness : parse (SHA := ToySha.toy) (mkBaseRef name (digest (SHA := ToySha.toy) bytes_of_blank)) bytes_of_blank
  = Ok blank_catalog.
Proof.
  apply (catalog_roundtrip (SHA := ToySha.toy) (SHAL := ToySha.toy_laws) blank_catalog name bytes_of_blank); [apply blank_catalog_ok|apply blank_encode].
Defined.
End Example.
End Base.
