(* ===== verification/Indexed.v ===== *)
(** The indexed volume of [ahvm-volume/src/indexed.rs]: a bounded root that names
    immutable index pages, which name immutable blocks, packed into objects of at
    most one mebibyte in formats 8 to 11 and laid over an immutable base image in
    formats 6, 7, 10 and 11.  A commit uploads packs and pages and then replaces
    the root by compare-and-swap. *)
From S2P Require Import Prelude Codec ObjectStore Blocks Base Page.
From Stdlib Require String.

Module Indexed.
Import Page.

Definition MAX_SIZE : Z := Base.MAX_SIZE.
Definition DIRTY_LIMIT : Z := 64 * 1024 * 1024.
Definition WRITE_LIMIT : Z := 32 * 1024 * 1024.
Definition WORKERS : nat := 8.

Record Replication := mkReplication { rep_id : string; sequence : Z }.
#[export] Instance Replication_eq_dec : EqDecision Replication.
Proof. solve_decision. Defined.

Record Root := mkRoot {
  format : Z;
  volume : string;
  size : Z;
  generation : Z;
  ready : bool;
  pages : gmap Z string;
  replication : option Replication;
  base : option Base.BaseRef;
}.

(** The handle; [cat] is the loaded catalog of [base]. *)
Record IndexedVolume := mkIndexed {
  root : Root;
  cat : option Base.Catalog;
  vol_revision : string;
  dirty : gmap Z (list Z);
  poisoned : bool;
}.

Definition packed (r : Root) : bool := (8 <=? format r) && (format r <=? 11).
Definition one_of (x : Z) (l : list Z) : bool := existsb (Z.eqb x) l.

(** What [decode_head] demands of a root. *)
Definition root_ok (r : Root) (id : string) : bool :=
  negb (negb (one_of (format r) [2; 3; 6; 7; 8; 9; 10; 11])
    || negb (Bool.eqb (one_of (format r) [3; 7; 9; 11]) (bool_decide (is_Some (replication r))))
    || negb (Bool.eqb (one_of (format r) [6; 7; 10; 11]) (bool_decide (is_Some (base r))))
    || match replication r with Some m => negb (valid_hash (rep_id m)) || (sequence m =? 0) | None => false end
    || negb (bool_decide (volume r = id)) || (size r =? 0) || (MAX_SIZE <? size r)
    || negb (is_multiple_of (size r) CHUNK_BYTES)
    || existsb (λ e, (div_ceil (size r / CHUNK_BYTES) SLOTS <=? e.1) || negb (valid_hash e.2)) (entries (pages r))).

Definition by_string {A} (x y : string * A) : Prop := String.leb x.1 y.1 = true.
#[export] Instance by_string_dec {A} (x y : string * A) : Decision (by_string x y) := bool_eq_dec _ _.

(** [slice.chunks(n)] *)
Fixpoint chunks_of {A} (fuel : nat) (n : nat) (l : list A) : list (list A) :=
  match fuel, l with
  | Datatypes.S fuel, _ :: _ => take n l :: chunks_of fuel n (drop n l)
  | _, _ => []
  end.

(** [load]: the end of the function, on the bytes it obtained. *)
Definition cut {SHA : Sha256} (inherited : bool) (object : string) (offset : Z) (hash : string) (b : list Z)
    : Result Error (list Z) :=
  let whole (b : list Z) :=
    if negb (Zlen b =? CHUNK_BYTES) || negb (bool_decide (digest b = hash)) then Err Corrupt else Ok b in
  if negb inherited && negb (bool_decide (object = hash)) then
    if (MAX_OBJECT_BYTES <? Zlen b) || negb (is_multiple_of (Zlen b) CHUNK_BYTES)
       || negb (bool_decide (digest b = object)) || (Zlen b <? offset + CHUNK_BYTES)
    then Err Corrupt else whole (slice b offset CHUNK_BYTES)
  else whole b.

Section indexed.
Context {S : Type} {SHA : Sha256} {OS : ObjectStore S} {JR : Json Root}.

(** *** Creating and opening *)
Definition publish_new (id : string) (r : Root) (c : option Base.Catalog) (limited : bool) : M Error S IndexedVolume :=
  b ← ok_or (to_vec r) Corrupt;
  guard_err (negb (limited && (MAX_MANIFEST_BYTES <? Zlen b))) Corrupt;;
  rev ← map_err publication_error (publish id None b);
  guard_err (negb (bool_decide (rev = ""%string))) Uncertain;;
  mret (mkIndexed r c rev ∅ false).

Definition create_inner (id : string) (sz : Z) (rdy : bool) : M Error S IndexedVolume :=
  guard_err (negb (negb (valid_id id) || (sz =? 0) || (MAX_SIZE <? sz) || negb (is_multiple_of sz CHUNK_BYTES)))
    InvalidInput;;
  publish_new id (mkRoot (if rdy then 8 else 2) id sz 0 rdy ∅ None None) None false.
Definition create (id : string) (sz : Z) : M Error S IndexedVolume := create_inner id sz true.
Definition create_import (id : string) (sz : Z) : M Error S IndexedVolume := create_inner id sz false.

Definition create_from_base (id : string) (r : Base.BaseRef) : M Error S IndexedVolume :=
  guard_err (valid_id id) InvalidInput;;
  c ← Base.load r;
  publish_new id (mkRoot 10 id (Base.cat_size c) 0 true (Base.cat_pages c) None (Some r)) (Some c) true.

(** [export_base]: the catalog of a finished private image. *)
Definition export_base (v : IndexedVolume) : M Error S Base.BaseRef :=
  let r := root v in
  guard_err (negb (negb (ready r) || (packed r && negb (bool_decide (pages r = ∅))) || bool_decide (is_Some (base r))
    || bool_decide (is_Some (replication r)) || negb (bool_decide (dirty v = ∅)) || poisoned v)) InvalidInput;;
  of_result (decode (volume r));;
  b ← of_result (Base.encode (Base.mkCatalog (size r) (pages r)) (volume r));
  let hash := digest b in
  put_chunk (volume r) hash b;;
  mret (Base.mkBaseRef (volume r) hash).

Definition decode_head (id : string) (h : Head) (rdy : bool) : M Error S IndexedVolume :=
  guard_err (negb ((MAX_MANIFEST_BYTES <? Zlen (manifest h)) || bool_decide (revision h = ""%string))) Corrupt;;
  r ← ok_or (from_slice (manifest h)) Corrupt;
  guard_err (root_ok r id) Corrupt;;
  guard_err (negb (rdy && negb (ready r))) NotReady;;
  c ← (match base r with Some b => c ← Base.load b; mret (Some c) | None => mret None end);
  guard_err (match c with Some c => Base.cat_size c =? size r | None => true end) Corrupt;;
  mret (mkIndexed r c (revision h) ∅ false).
Definition from_head (id : string) (h : Head) : M Error S IndexedVolume := decode_head id h true.

Definition open (id : string) : M Error S IndexedVolume :=
  guard_err (valid_id id) InvalidInput;;
  oh ← head id; h ← ok_or oh NotFound;
  from_head id h.

Definition resume_import (id : string) (sz : Z) : M Error S IndexedVolume :=
  guard_err (valid_id id) InvalidInput;;
  oh ← head id; h ← ok_or oh NotFound;
  v ← decode_head id h false;
  guard_err (negb (ready (root v) || negb (format (root v) =? 2) || negb (size (root v) =? sz))) Conflict;;
  mret v.

(** *** Pages and blocks *)
Definition check (v : IndexedVolume) (at_ len : Z) : Result Error unit :=
  if poisoned v then Err ReopenRequired
  else match u64_checked_add at_ len with
       | Some end_ => if size (root v) <? end_ then Err InvalidInput else Ok tt
       | None => Err InvalidInput
       end.

Definition page_from (v : IndexedVolume) (i : Z) (hash : option string) (from_base : bool) : M Error S (list Z) :=
  let kind := packed (root v) && negb from_base in
  b ← match hash with
      | Some h =>
          b ← (if from_base then r ← ok_or (base (root v)) Corrupt; base_chunk (Base.image r) h None
               else chunk (volume (root v)) h);
          guard_err (check_page kind (size (root v)) i h b) Corrupt;;
          mret b
      | None => mret (blank kind i)
      end;
  mret (if packed (root v) && from_base then packed_page b else b).

Definition cat_page (v : IndexedVolume) (i : Z) : option string := c ← cat v; Base.cat_pages c !! i.
Definition base_page (v : IndexedVolume) (i : Z) : M Error S (list Z) := page_from v i (cat_page v i) true.

Definition page_inherited (v : IndexedVolume) (i : Z) (hash : option string) : bool :=
  bool_decide (is_Some hash) && match cat v with
                                | Some c => bool_decide (Base.cat_pages c !! i = hash)
                                | None => false end.
Definition page (v : IndexedVolume) (i : Z) : M Error S (list Z) :=
  let hash := pages (root v) !! i in page_from v i hash (page_inherited v i hash).

(** The block of [page] is the base image's. *)
Definition inherited (base_page : option (list Z)) (page : list Z) (i : Z) (hash : string) : bool :=
  match base_page with
  | Some p => bool_decide (slot p i = Some hash) && bool_decide (object_slot p i = object_slot page i)
  | None => false
  end.

(** The next seven blocks of the page: private objects and base blocks. *)
Definition readahead_one (page : list Z) (base_page : option (list Z)) (i : Z) (hash object : string)
    (acc : list string * list string) (j : Z) : list string * list string :=
  match slot page j with
  | Some next =>
      if bool_decide (next = hash) then acc
      else if match base_page with Some p => bool_decide (slot p j = Some next) | None => false end
      then (acc.1, acc.2 ++ [next])
      else match object_slot page j with
           | Some (o, _) => if bool_decide (o = object) || bool_decide (o ∈ acc.1) then acc else (acc.1 ++ [o], acc.2)
           | None => acc
           end
  | None => acc
  end.
Definition readahead (v : IndexedVolume) (page : list Z) (base_page : option (list Z)) (i : Z) (hash object : string)
    : list string * list string :=
  let end_ := Z.min (Z.min (i + 8) ((i / SLOTS + 1) * SLOTS)) (size (root v) / CHUNK_BYTES) in
  fold_left (readahead_one page base_page i hash object) (seqZ (i + 1) (end_ - (i + 1))) ([], []).

Definition load (v : IndexedVolume) (i : Z) (prefetching : bool) : M Error S (list Z) :=
  match dirty v !! i with
  | Some b => mret b
  | None =>
      p ← page v (i / SLOTS);
      match slot p i with
      | None => mret (zeros CHUNK_BYTES)
      | Some hash =>
          bp ← match cat v with Some _ => q ← base_page v (i / SLOTS); mret (Some q) | None => mret None end;
          let inh := inherited bp p i hash in
          '(object, offset) ← ok_or (object_slot p i) Corrupt;
          cached ← (if inh then mret None else gets (cached_chunk (volume (root v)) object));
          (if prefetching && bool_decide (cached = None) then
             let '(private, shared) := readahead v p bp i hash object in
             modify (prefetch (volume (root v)) private);;
             match base (root v) with Some b => modify (prefetch_base (Base.image b) shared) | None => mret tt end
           else mret tt);;
          b ← (if inh then r ← ok_or (base (root v)) Corrupt; base_chunk (Base.image r) hash (Some (i * CHUNK_BYTES))
               else match cached with Some b => mret b | None => chunk (volume (root v)) object end);
          of_result (cut inh object offset hash b)
      end
  end.

Definition read (v : IndexedVolume) (offset : Z) (output : list Z) : M Error S (list Z) :=
  of_result (check v offset (Zlen output));;
  guard_err (Zlen output <=? WRITE_LIMIT) InvalidInput;;
  read_loop (λ i, load v i true) (fuel_for (Zlen output)) offset (Zlen output) 0 output.

(** *** Publishing a root *)
Definition never : S → bool * S := λ s, (false, s).

Definition set_poisoned (v : IndexedVolume) : IndexedVolume :=
  mkIndexed (root v) (cat v) (vol_revision v) (dirty v) true.
Definition clear_dirty (v : IndexedVolume) : IndexedVolume :=
  mkIndexed (root v) (cat v) (vol_revision v) ∅ (poisoned v).

Definition publish_root (next : Root) (cancel : S → bool * S) : M Error (IndexedVolume * S) Z :=
  v ← gets fst;
  b ← ok_or (to_vec next) Corrupt;
  guard_err (Zlen b <=? MAX_MANIFEST_BYTES) Corrupt;;
  on_store deadline;;
  on_store (check_cancel cancel);;
  r ← try_ (on_store (publish_cancellable (volume next) (Some (vol_revision v)) b cancel));
  match r with
  | Ok rev =>
      if decide (rev = ""%string) then set_handle (set_poisoned v);; fail Uncertain
      else set_handle (mkIndexed next (cat v) rev ∅ (poisoned v));; mret (generation next)
  | Err Deadline => fail Deadline
  | Err e => set_handle (set_poisoned v);; fail (publication_error e)
  end.

(** *** Uploading *)
Definition upload_objects (id : string) (objs : list (string * list Z)) (concurrency : nat) (cancel : S → bool * S)
    : M Error S unit :=
  join_workers ((λ w, for_each (ObjectStore.stride concurrency w objs) (λ o,
      deadline;; check_cancel cancel;; put_chunk_cancellable id o.1 o.2 cancel))
    <$> seq 0 (Nat.min concurrency (length objs))).

(** *** Packed commits *)
Record Stage := mkStage {
  st_pages : gmap Z (list Z);
  st_base : gmap Z (list Z);
  st_chunks : gmap string (list Z);
  st_changed : list (Z * string);
}.

(** [|| cancel() || Instant::now() >= end] *)
Definition stopped (cancel : S → bool * S) : S → bool * S := λ s,
  let '(c, s') := cancel s in if c then (true, s') else past_deadline s'.

Definition with_page (i : Z) (p : list Z) (st : Stage) : Stage :=
  mkStage (<[i := p]> (st_pages st)) (st_base st) (st_chunks st) (st_changed st).

Definition fetch_page (v : IndexedVolume) (i : Z) (st : Stage) : M Error S Stage :=
  match st_pages st !! i with
  | Some _ => mret st
  | None =>
      p ← page v i; b ← base_page v i;
      mret (mkStage (<[i := p]> (st_pages st)) (<[i := b]> (st_base st)) (st_chunks st) (st_changed st))
  end.

(** One dirty block, laid into its page. *)
Definition lay_block (force : bool) (e : Z * list Z) (p bp : list Z) (st : Stage) : Result Error Stage :=
  let at_ := slot_at p e.1 in
  if all_zero e.2 then Ok (with_page (e.1 / SLOTS) (splice p at_ (zeros PACK_SLOT_BYTES)) st)
  else
    let hash := digest e.2 in
    if negb force && bool_decide (slot p e.1 = Some hash) then Ok st
    else
      match decode hash with
      | Err x => Err x
      | Ok raw =>
          let st := with_page (e.1 / SLOTS) (splice (splice p at_ (zeros PACK_SLOT_BYTES)) at_ raw) st in
          if bool_decide (slot bp e.1 = Some hash) then Ok st
          else Ok (mkStage (st_pages st) (st_base st)
                     (match st_chunks st !! hash with Some _ => st_chunks st | None => <[hash := e.2]> (st_chunks st) end)
                     (st_changed st ++ [(e.1, hash)]))
      end.

Definition stage_block (v : IndexedVolume) (force : bool) (cancel : S → bool * S) (st : Stage) (e : Z * list Z)
    : M Error S Stage :=
  deadline;; check_cancel (stopped cancel);;
  st ← fetch_page v (e.1 / SLOTS) st;
  of_result (lay_block force e (default [] (st_pages st !! (e.1 / SLOTS))) (default [] (st_base st !! (e.1 / SLOTS))) st).

(** One pack of at most sixteen blocks: its object and the location of each block. *)
Definition pack_bytes (group : list (string * list Z)) : list Z := concat group.*2.
Definition add_locations (pack : string) (group : list (string * list Z)) (m : gmap string (string * Z))
    : gmap string (string * Z) :=
  foldl (λ m x, <[x.2.1 := (pack, Z.of_nat x.1 * CHUNK_BYTES)]> m) m (imap pair group).
Definition pack_group (cancel : S → bool * S) (acc : list (string * list Z) * gmap string (string * Z))
    (group : list (string * list Z)) : M Error S (list (string * list Z) * gmap string (string * Z)) :=
  deadline;; check_cancel (stopped cancel);;
  let b := pack_bytes group in
  mret (acc.1 ++ [(digest b, b)], add_locations (digest b) group acc.2).

(** Write a block's location into its slot. *)
Definition locate (cancel : S → bool * S) (locations : gmap string (string * Z)) (ps : gmap Z (list Z)) (c : Z * string)
    : M Error S (gmap Z (list Z)) :=
  check_cancel (stopped cancel);;
  let p := default [] (ps !! (c.1 / SLOTS)) in
  let at_ := slot_at p c.1 in
  '(pack, offset) ← ok_or (locations !! c.2) Corrupt;
  raw ← of_result (decode pack);
  mret (<[c.1 / SLOTS := splice (splice p (at_ + 32) raw) (at_ + 64) (to_be_bytes 4 offset)]> ps).

(** The next root's map entry of one staged page, and its upload. *)
Definition settle (v : IndexedVolume) (bases : gmap Z (list Z)) (cancel : S → bool * S)
    (acc : gmap Z string * list (string * list Z)) (e : Z * list Z) : M Error S (gmap Z string * list (string * list Z)) :=
  check_cancel (stopped cancel);;
  let body := drop 16 e.2 in
  if all_zero body then mret (delete e.1 acc.1, acc.2)
  else if bool_decide (is_Some (cat v)) && bool_decide (Some e.2 = bases !! e.1) then
    h ← ok_or (cat_page v e.1) Corrupt; mret (<[e.1 := h]> acc.1, acc.2)
  else
    let hash := digest e.2 in
    if bool_decide (pages (root v) !! e.1 = Some hash) then mret acc
    else mret (<[e.1 := hash]> acc.1, acc.2 ++ [(hash, e.2)]).

(** The pages to publish, the base pages they are compared with, and the packs. *)
Definition stage (v : IndexedVolume) (force : bool) (cancel : S → bool * S)
    : M Error S (gmap Z (list Z) * gmap Z (list Z) * list (string * list Z)) :=
  st ← foldM (stage_block v force cancel) (mkStage ∅ ∅ ∅ []) (entries (dirty v));
  let unique := merge_sort by_string (map_to_list (st_chunks st)) in
  '(packs, locations) ← foldM (pack_group cancel) ([], ∅) (chunks_of (length unique) 16 unique);
  ps ← foldM (locate cancel locations) (st_pages st) (st_changed st);
  mret (ps, st_base st, packs).

Definition with_pages (r : Root) (ps : gmap Z string) : Root :=
  mkRoot (format r) (volume r) (size r) (generation r) (ready r) ps (replication r) (base r).

Definition commit_packed (next : Root) (concurrency : nat) (force : bool) (cancel : S → bool * S)
    : M Error (IndexedVolume * S) Z :=
  v ← gets fst;
  '(ps, bases, packs) ← on_store (stage v force cancel);
  '(next_pages, uploads) ← on_store (foldM (settle v bases cancel) (pages next, packs) (entries ps));
  if bool_decide (next_pages = pages (root v)) && bool_decide (replication next = replication (root v)) then
    set_handle (clear_dirty v);; mret (generation (root v))
  else
    on_store (upload_objects (volume (root v)) uploads concurrency (stopped cancel));;
    publish_root (with_pages next next_pages) (stopped cancel).

(** *** Plain commits *)
Definition plain_block (v : IndexedVolume) (acc : gmap Z (list Z) * gmap string (list Z)) (e : Z * list Z)
    : M Error S (gmap Z (list Z) * gmap string (list Z)) :=
  deadline;;
  let pi := e.1 / SLOTS in
  ps ← (match acc.1 !! pi with Some _ => mret acc.1 | None => p ← page v pi; mret (<[pi := p]> acc.1) end);
  let p := default [] (ps !! pi) in
  let at_ := 16 + (e.1 mod SLOTS) * 32 in
  if all_zero e.2 then mret (<[pi := splice p at_ (zeros 32)]> ps, acc.2)
  else
    let hash := digest e.2 in
    raw ← of_result (decode hash);
    if bool_decide (slice p at_ 32 = raw) then mret (ps, acc.2)
    else
      inh ← (match cat v with
             | Some _ => q ← base_page v pi; mret (bool_decide (slot q e.1 = Some hash))
             | None => mret false end : M Error S bool);
      mret (<[pi := splice p at_ raw]> ps,
            (if (inh : bool) then acc.2 else match acc.2 !! hash with Some _ => acc.2 | None => <[hash := e.2]> acc.2 end)).

Definition plain_settle (v : IndexedVolume) (acc : gmap Z string * gmap string (list Z)) (e : Z * list Z)
    : gmap Z string * gmap string (list Z) :=
  if all_zero (drop 16 e.2) then (delete e.1 acc.1, acc.2)
  else
    let hash := digest e.2 in
    if bool_decide (pages (root v) !! e.1 = Some hash) then acc
    else (<[e.1 := hash]> acc.1,
          if bool_decide (cat_page v e.1 = Some hash) then acc.2 else <[hash := e.2]> acc.2).

Definition commit_plain (next : Root) (concurrency : nat) : M Error (IndexedVolume * S) Z :=
  v ← gets fst;
  '(ps, blocks) ← on_store (foldM (plain_block v) (∅, ∅) (entries (dirty v)));
  let '(next_pages, uploads) := fold_left (plain_settle v) (entries ps) (pages next, blocks) in
  if bool_decide (next_pages = pages (root v)) && bool_decide (replication next = replication (root v)) then
    set_handle (clear_dirty v);; mret (generation (root v))
  else
    let objs := merge_sort by_string (map_to_list uploads) in
    on_store (join_workers ((λ w, for_each (ObjectStore.stride concurrency w objs) (λ o,
        deadline;; put_chunk (volume (root v)) o.1 o.2)) <$> seq 0 (Nat.min concurrency (length objs))));;
    publish_root (with_pages next next_pages) never.

(** *** Commit and write *)
Definition mark_format (r : Root) : Z :=
  if packed r then (if bool_decide (is_Some (base r)) then 11 else 9)
  else if bool_decide (is_Some (base r)) then 7 else 3.

Definition next_root (r : Root) (mark : option Replication) (gen : Z) : Root :=
  mkRoot (match mark with Some _ => mark_format r | None => format r end) (volume r) (size r) gen (ready r) (pages r)
    (match mark with Some m => Some m | None => replication r end) (base r).

Definition commit_inner (mark : option Replication) (concurrency : nat) : M Error (IndexedVolume * S) Z :=
  v ← gets fst;
  of_result (check v 0 0);;
  if bool_decide (dirty v = ∅) && bool_decide (mark = None) then mret (generation (root v)) else
  on_store deadline;;
  gen ← ok_or (u64_checked_add (generation (root v)) 1) Corrupt;
  let next := next_root (root v) mark gen in
  if packed (root v) then commit_packed next concurrency false never else commit_plain next concurrency.

Definition commit : M Error (IndexedVolume * S) Z :=
  v ← gets fst;
  guard_err (bool_decide (replication (root v) = None)) InvalidInput;;
  commit_inner None WORKERS.

Definition commit_replication (mark : Replication) : M Error (IndexedVolume * S) Z :=
  guard_err (valid_hash (rep_id mark) && negb (sequence mark =? 0)) InvalidInput;;
  commit_inner (Some mark) WORKERS.

Definition commit_import : M Error (IndexedVolume * S) Z :=
  v ← gets fst;
  guard_err (negb (ready (root v) || bool_decide (is_Some (replication (root v))))) InvalidInput;;
  commit_inner None 32.

Definition finish_import : M Error (IndexedVolume * S) Z :=
  commit;;
  v ← gets fst;
  of_result (check v 0 0);;
  gen ← ok_or (u64_checked_add (generation (root v)) 1) Corrupt;
  let r := root v in
  publish_root (mkRoot (format r) (volume r) (size r) gen true (pages r) (replication r) (base r)) never.

Definition dirty_bytes (v : IndexedVolume) : Z := Z.of_nat (base.size (dirty v)) * CHUNK_BYTES.

(** Blocks of the range that are not staged yet. *)
Definition extra_blocks (v : IndexedVolume) (offset len : Z) : Z :=
  let first := offset / CHUNK_BYTES in
  let last := (offset + len - 1) / CHUNK_BYTES in
  Zlen (filter (λ i, dirty v !! i = None) (seqZ first (last - first + 1))).

Definition write (offset : Z) (input : list Z) : M Error (IndexedVolume * S) unit :=
  v ← gets fst;
  of_result (check v offset (Zlen input));;
  guard_err (Zlen input <=? WRITE_LIMIT) InvalidInput;;
  if bool_decide (input = []) then mret tt else
  (if DIRTY_LIMIT <? dirty_bytes v + extra_blocks v offset (Zlen input) * CHUNK_BYTES then commit;; mret tt
   else mret tt);;
  v ← gets fst;
  pending ← on_store (write_loop (λ i within n,
      if (within =? 0) && (n =? CHUNK_BYTES) then mret (zeros CHUNK_BYTES) else load v i false)
    (fuel_for (Zlen input)) offset input 0 ∅);
  set_handle (mkIndexed (root v) (cat v) (vol_revision v) (pending ∪ dirty v) (poisoned v)).

Definition clean_copy (v : IndexedVolume) : Result Error IndexedVolume :=
  match check v 0 0 with
  | Err e => Err e
  | Ok _ => if bool_decide (dirty v = ∅) then Ok (mkIndexed (root v) (cat v) (vol_revision v) ∅ false) else Err InvalidInput
  end.

(** ** What the store holds *)
Context {SV : StoreView S}.

Definition view_from (s : S) (v : IndexedVolume) (i : Z) (hash : option string) (from_base : bool) : option (list Z) :=
  let kind := packed (root v) && negb from_base in
  b ← match hash with
      | Some h =>
          b ← (if from_base then r ← base (root v); base_objects s !! (Base.image r, h)
               else objects s !! (volume (root v), h));
          if check_page kind (size (root v)) i h b then Some b else None
      | None => Some (blank kind i)
      end;
  Some (if packed (root v) && from_base then packed_page b else b).

Definition page_view (s : S) (v : IndexedVolume) (i : Z) : option (list Z) :=
  let hash := pages (root v) !! i in view_from s v i hash (page_inherited v i hash).
Definition base_view (s : S) (v : IndexedVolume) (i : Z) : option (list Z) := view_from s v i (cat_page v i) true.

Definition ok_some {A} (r : Result Error A) : option A := match r with Ok a => Some a | Err _ => None end.

(** The committed contents of a block. *)
Definition block_view (s : S) (v : IndexedVolume) (i : Z) : option (list Z) :=
  p ← page_view s v (i / SLOTS);
  match slot p i with
  | None => Some (zeros CHUNK_BYTES)
  | Some hash =>
      bp ← match cat v with Some _ => q ← base_view s v (i / SLOTS); Some (Some q) | None => Some None end;
      let inh := inherited bp p i hash in
      o ← object_slot p i;
      b ← (if inh then r ← base (root v); base_objects s !! (Base.image r, hash)
           else objects s !! (volume (root v), o.1));
      ok_some (cut inh o.1 o.2 hash b)
  end.

(** The contents of a block as the handle sees it, and the handle's disk. *)
Definition committed (s : S) (v : IndexedVolume) (i : Z) : list Z := default [] (block_view s v i).
Definition block (s : S) (v : IndexedVolume) (i : Z) : list Z := default (committed s v i) (dirty v !! i).
Definition disk_of (s : S) (v : IndexedVolume) : Disk := of_blocks (block s v).

Context {SHAL : Sha256Laws} {OSL : ObjectStoreLaws S} {JL : JsonLaws Root}.

Lemma cut_ok inh object offset hash b x : cut inh object offset hash b = Ok x →
  digest b = (if inh then hash else object) ∧ Zlen x = CHUNK_BYTES ∧ digest x = hash.
Proof.
  rewrite /cut. destruct inh; simpl.
  - case_match eqn:E; [done|]. intros [= <-].
    apply orb_false_iff in E as [Hl%negb_false_iff%Z.eqb_eq Hd%negb_false_iff%bool_decide_eq_true]. done.
  - case_bool_decide as Ho; simpl.
    + subst object. case_match eqn:E; [done|]. intros [= <-].
      apply orb_false_iff in E as [Hl%negb_false_iff%Z.eqb_eq Hd%negb_false_iff%bool_decide_eq_true]. done.
    + case_match eqn:E; [done|]. case_match eqn:E2; [done|]. intros [= <-].
      apply orb_false_iff in E2 as [Hl%negb_false_iff%Z.eqb_eq Hd%negb_false_iff%bool_decide_eq_true].
      rewrite !orb_false_iff !negb_false_iff bool_decide_eq_true in E. split_and!; try done. by destruct E as [[_ ?] _].
Qed.

Lemma page_from_spec s0 s v i hash fb : same_view s0 s →
  wp (page_from v i hash fb) s (λ r s', same_view s0 s' ∧
    match r with Ok p => view_from s0 v i hash fb = Some p | Err _ => True end).
Proof.
  intros Hv. rewrite /page_from /view_from. wp_step. destruct hash as [h|]; [|by wp_steps].
  wp_step. destruct fb.
  - wp_step. apply wp_ok_or; [intros r Hr|done]. eapply wp_mono; [apply base_chunk_law|].
    intros [b|e] s' [Hv' Hb]; [|split; [by trans s|done]]. wp_step. wp_step; [|split; [by trans s|done]].
    cbn beta iota. do 2 wp_step. split; [by trans s|]. rewrite Hr /=.
    destruct Hv as (_ & _ & <-). rewrite Hb; [by eapply check_digest|]. by rewrite /= H.
  - eapply wp_mono; [apply chunk_law|].
    intros [b|e] s' [Hv' Hb]; [|split; [by trans s|done]]. wp_step. wp_step; [|split; [by trans s|done]].
    cbn beta iota. do 2 wp_step. split; [by trans s|].
    destruct Hv as (<- & _ & _). rewrite Hb; [by eapply check_digest|]. by rewrite /= H.
Qed.

Lemma page_spec s0 s v i : same_view s0 s →
  wp (page v i) s (λ r s', same_view s0 s' ∧ match r with Ok p => page_view s0 v i = Some p | Err _ => True end).
Proof. intros. by apply page_from_spec. Qed.

Lemma base_page_spec s0 s v i : same_view s0 s →
  wp (base_page v i) s (λ r s', same_view s0 s' ∧ match r with Ok p => base_view s0 v i = Some p | Err _ => True end).
Proof. intros. by apply page_from_spec. Qed.

(** [load] returns the block the handle denotes, or an error. *)
Lemma indexed_load_spec s0 s v i pf : same_view s0 s →
  wp (load v i pf) s (λ r s', same_view s0 s' ∧ match r with
    | Ok b => dirty v !! i = Some b ∨ dirty v !! i = None ∧ block_view s0 v i = Some b
    | Err _ => True end).
Proof.
  intros Hv. rewrite /load. destruct (dirty v !! i) as [b|] eqn:Hd; [wp_step; auto|].
  wp_step. eapply wp_mono; [by apply page_spec|]. intros [p|e] s1 [Hv1 Hp]; [|done].
  rewrite /block_view Hp /=. destruct (slot p i) as [hash|] eqn:Hs; [|wp_step; auto].
  wp_step. eapply (wp_mono _ _ (λ r s', same_view s0 s' ∧ match r with
    | Ok bp => match cat v with Some _ => q ← base_view s0 v (i / SLOTS); Some (Some q) | None => Some None end = Some bp
    | Err _ => True end)).
  { destruct (cat v); [|by wp_step]. wp_step. eapply wp_mono; [by apply base_page_spec|].
    intros [q|e] s2 [Hv2 Hq]; [|done]. wp_step. by rewrite Hq. }
  intros [bp|e] s2 [Hv2 Hbp]; [|done]. rewrite Hbp /=. cbv zeta. wp_step. apply wp_ok_or; [intros [o off] Ho|done].
  rewrite Ho /=. set (inh := inherited bp p i hash). wp_step.
  eapply (wp_mono _ _ (λ r s', same_view s0 s' ∧ ∃ c, r = Ok c ∧
    ∀ b, c = Some b → inh = false ∧ (digest b = o → objects s0 !! (volume (root v), o) = Some b))).
  { destruct inh; wp_step; [split; [done|]; by exists None|]. split; [done|]. eexists. split; [done|].
    intros b Hc. split; [done|]. intros Hdg. destruct Hv2 as (<- & _ & _). by eapply cached_chunk_law. }
  intros r s3 [Hv3 (c & -> & Hc)]. wp_step.
  eapply (wp_mono _ _ (λ r s', same_view s0 s' ∧ r = Ok tt)).
  { destruct (pf && bool_decide (c = None)); [|by wp_step]. destruct (readahead v p bp i hash o) as [private shared].
    wp_step. wp_step. destruct (base (root v)) as [r|]; wp_step; (split; [|done]).
    - trans s3; [done|]. etrans; [apply prefetch_law|apply prefetch_base_law].
    - trans s3; [done|apply prefetch_law]. }
  intros r s4 [Hv4 ->]. wp_step.
  eapply (wp_mono _ _ (λ r s', same_view s0 s' ∧ match r with
    | Ok b => digest b = (if inh then hash else o) →
        (if inh then r ← base (root v); base_objects s0 !! (Base.image r, hash) else objects s0 !! (volume (root v), o)) = Some b
    | Err _ => True end)).
  { destruct inh.
    - wp_step. apply wp_ok_or; [intros r Hr|done]. eapply wp_mono; [apply base_chunk_law|].
      intros [b|e] s5 [Hv5 Hb]; (split; [by trans s4|]); [|done]. rewrite Hr /=. by destruct Hv4 as (_ & _ & <-).
    - destruct c as [b|]; [wp_step; split; [done|]; by apply Hc|]. eapply wp_mono; [apply chunk_law|].
      intros [b|e] s5 [Hv5 Hb]; (split; [by trans s4|]); [|done]. by destruct Hv4 as (<- & _ & _). }
  intros [b|e] s5 [Hv5 Hb]; [|done]. wp_step. destruct (cut inh o off hash b) as [x|e] eqn:Hcut; (split; [done|]); [|done].
  right. split; [done|]. destruct (cut_ok _ _ _ _ _ _ Hcut) as [Hdg _]. rewrite Hb //=. by rewrite Hcut.
Qed.

(** ** The invariant of a packed volume *)
Definition nblocks (v : IndexedVolume) : Z := size (root v) / CHUNK_BYTES.
Definition in_range (v : IndexedVolume) (i : Z) : Prop := 0 ≤ i < nblocks v.

(** Byte strings hold bytes. *)
Definition typed (s : S) : Prop :=
  (∀ k b, objects s !! k = Some b → bytes b) ∧ (∀ k b, base_objects s !! k = Some b → bytes b).

(** The stored catalog of a base image. *)
Definition cat_stored (s : S) (r : Base.BaseRef) (c : Base.Catalog) : Prop :=
  valid_hash (Base.image r) = true ∧ valid_hash (Base.catalog r) = true ∧
  ∃ b, base_objects s !! (Base.image r, Base.catalog r) = Some b ∧ Base.parse r b = Ok c.

Record vol_ok (s : S) (id : string) (v : IndexedVolume) : Prop := {
  ok_root : root_ok (root v) id = true;
  ok_packed : packed (root v) = true;
  ok_typed : typed s;
  ok_cat : match base (root v), cat v with
           | None, None => True
           | Some r, Some c => cat_stored s r c ∧ Base.cat_size c = size (root v)
           | _, _ => False end;
  (* the base image is complete *)
  ok_base : ∀ i, in_range v i → ∃ q, base_view s v (i / SLOTS) = Some q ∧
    ∀ h, slot q i = Some h → ∃ r b, base (root v) = Some r ∧ base_objects s !! (Base.image r, h) = Some b ∧
      Zlen b = CHUNK_BYTES ∧ digest b = h;
  (* every block resolves *)
  ok_blocks : ∀ i, in_range v i → is_Some (block_view s v i);
  (* a block inside a pack is not the base image's *)
  ok_private : ∀ i p q, in_range v i → page_view s v (i / SLOTS) = Some p → base_view s v (i / SLOTS) = Some q →
    located (record p (i mod SLOTS)) → slot q i ≠ slot p i;
  ok_dirty : ∀ i b, dirty v !! i = Some b → in_range v i ∧ Zlen b = CHUNK_BYTES ∧ bytes b;
}.

Lemma root_ok_spec r id : root_ok r id = true ↔
  one_of (format r) [2; 3; 6; 7; 8; 9; 10; 11] = true ∧
  one_of (format r) [3; 7; 9; 11] = bool_decide (is_Some (replication r)) ∧
  one_of (format r) [6; 7; 10; 11] = bool_decide (is_Some (base r)) ∧
  (∀ m, replication r = Some m → valid_hash (rep_id m) = true ∧ sequence m ≠ 0) ∧
  volume r = id ∧ size r ≠ 0 ∧ size r ≤ MAX_SIZE ∧ size r mod CHUNK_BYTES = 0 ∧
  (∀ i h, pages r !! i = Some h → i < div_ceil (size r / CHUNK_BYTES) SLOTS ∧ valid_hash h = true).
Proof.
  rewrite /root_ok negb_true_iff !orb_false_iff existsb_entries !negb_false_iff !eqb_true_iff /is_multiple_of.
  rewrite bool_decide_eq_true !Z.eqb_eq !Z.eqb_neq Z.ltb_ge. setoid_rewrite orb_false_iff.
  setoid_rewrite negb_false_iff. setoid_rewrite Z.leb_gt. destruct (replication r) as [m|].
  - rewrite orb_false_iff negb_false_iff Z.eqb_neq. naive_solver.
  - naive_solver.
Qed.

(** A page of the volume that overlaps its range. *)
Definition page_range (v : IndexedVolume) (pi : Z) : Prop := 0 ≤ pi ∧ pi * SLOTS < nblocks v.

Lemma range_page v i : in_range v i → page_range v (i / SLOTS).
Proof. rewrite /in_range /page_range /SLOTS. intros. split; dlia. Qed.

Lemma page_index v id pi : root_ok (root v) id = true → page_range v pi → 0 ≤ pi < 2 ^ 64.
Proof.
  intros Hr (Hp & Hlt). apply root_ok_spec in Hr as (_ & _ & _ & _ & _ & _ & Hsz & _).
  rewrite /nblocks in Hlt. rewrite /SLOTS in Hlt. split; [done|].
  assert (size (root v) / CHUNK_BYTES ≤ 2 ^ 40); [|lia].
  etrans; [apply Z.div_le_mono; [done|exact Hsz]|]. vm_compute. discriminate.
Qed.

(** What is known of a page that was accepted. *)
Record page_fine (v : IndexedVolume) (pi : Z) (p : list Z) : Prop := {
  fine_shape : shaped pi p;
  fine_good : ∀ j, 0 ≤ j < SLOTS → record_good (record p j);
  fine_zero : ∀ j, 0 ≤ j < SLOTS → nblocks v ≤ pi * SLOTS + j → record p j = rec_empty;
}.

Lemma base_view_records s id v pi q : root_ok (root v) id = true → packed (root v) = true → typed s →
  page_range v pi → ∀ hash, view_from s v pi hash true = Some q →
  page_fine v pi q ∧ ∀ j, 0 ≤ j < SLOTS → ∃ h, Zlen h = 32 ∧ record q j = rec_direct h.
Proof.
  intros Hr Hp Ht Hpi hash. pose proof (page_index v id pi Hr Hpi) as Hu. rewrite /view_from Hp /=.
  assert (∀ b, plain pi b → (∀ j, 0 ≤ j < SLOTS → nblocks v ≤ pi * SLOTS + j → slice b (16 + j * 32) 32 = zeros 32) →
    page_fine v pi (packed_page b) ∧ ∀ j, 0 ≤ j < SLOTS → ∃ h, Zlen h = 32 ∧ record (packed_page b) j = rec_direct h) as Hcase.
  { intros b Hb Hz. destruct (shaped_packed pi b Hb) as [Hs Hrec]. destruct Hb as (Hl & _).
    assert (∀ j, 0 ≤ j < SLOTS → Zlen (slice b (16 + j * 32) 32) = 32) as H32.
    { intros j Hj. apply Zlen_slice; [plia|done|rewrite Hl; change CHUNK_BYTES with 65536; plia]. }
    split; [split; [done| |]|].
    - intros j Hj. rewrite Hrec //. apply good_direct. by apply H32.
    - intros j Hj Hge. rewrite Hrec // Hz //.
    - intros j Hj. exists (slice b (16 + j * 32) 32). auto. }
  destruct hash as [h|]; simpl.
  - destruct (base (root v)) as [r|]; [|done]. simpl. destruct (base_objects s !! _) as [b|] eqn:Hb; [|done]. simpl.
    destruct (check_page false (size (root v)) pi h b) eqn:Hc; [|done]. intros <-%(inj Some).
    apply check_plain in Hc as [Hpl Hz]; [|done|apply Hpi|by eapply (proj2 Ht)]. by apply Hcase.
  - intros <-%(inj Some). apply Hcase; [apply plain_blank|]. intros j Hj _.
    rewrite /blank. assert (Zlen (to_be_bytes 8 pi) = 8) as H8 by by rewrite Zlen_to_be_bytes.
    assert (Zlen (zeros CHUNK_BYTES) = 65536) as Hz by (by apply Zlen_zeros).
    assert (Zlen MAGIC = 8) as Hm by done.
    assert (Zlen (splice (zeros CHUNK_BYTES) 0 MAGIC) = 65536) as Hz1 by (rewrite Zlen_splice; lia).
    rewrite !slice_splice_disj; [plia..|]. apply slice_zeros; [plia|done|change CHUNK_BYTES with 65536; plia].
Qed.

Lemma blank_fine v pi : page_fine v pi (blank true pi).
Proof.
  split; [apply shaped_blank| |].
  - intros j Hj. rewrite record_blank; [done|apply good_empty].
  - intros j Hj _. by apply record_blank.
Qed.

Lemma page_view_fine s id v pi p : root_ok (root v) id = true → packed (root v) = true → typed s →
  page_range v pi → page_view s v pi = Some p →
  page_fine v pi p ∧ ∀ j, 0 ≤ j < SLOTS → located (record p j) → bytes (record p j).
Proof.
  intros Hr Hp Ht Hpi. pose proof (page_index v id pi Hr Hpi) as Hu. rewrite /page_view. cbv zeta.
  destruct (page_inherited v pi (pages (root v) !! pi)).
  { intros Hv. edestruct (base_view_records s id v pi p) as [Hf Hd]; [done..|]. split; [done|].
    intros j Hj Hl. destruct (Hd j Hj) as (h & Hh & E). rewrite E in Hl. by destruct (direct_not_located h). }
  rewrite /view_from Hp /=. destruct (pages (root v) !! pi) as [h|]; simpl.
  - destruct (objects s !! _) as [b|] eqn:Hb; [|done]. simpl.
    destruct (check_page true (size (root v)) pi h b) eqn:Hc; [|done]. intros <-%(inj Some).
    assert (bytes b) as Hby by (by eapply (proj1 Ht)).
    apply check_packed in Hc as (Hs & _ & Hg & Hz); [|apply Hpi|apply Hpi|done|done].
    split; [by split|]. intros j _ _. by apply bytes_slice.
  - intros <-%(inj Some). split; [apply blank_fine|]. intros j Hj. rewrite record_blank; [done|]. by intros [? _].
Qed.

End indexed.
End Indexed.
