(* ===== verification/Staging.v ===== *)
(** What a packed commit of [ahvm-volume/src/indexed.rs] stages: the dirty blocks
    laid into their pages, the packs that hold the new blocks, and the map of the
    next root, related to the contents of every block. *)
From S2P Require Import Prelude Codec ObjectStore Blocks Base Page Indexed.

Module Staging.
Import Page Indexed.

Section staging.
Context {S : Type} {SHA : Sha256} {OS : ObjectStore S} {JR : Json Root} {SV : StoreView S}.
Context {SHAL : Sha256Laws} {OSL : ObjectStoreLaws S} {JL : JsonLaws Root}.

(** ** Blocks as records *)

(** The block a record denotes; [rb] is the base image's record. *)
Definition rec_inherited (r rb : list Z) (hash : string) : bool :=
  bool_decide (rslot rb = Some hash) && bool_decide (robject rb = robject r).
Definition rec_view (s : S) (v : IndexedVolume) (r rb : list Z) : option (list Z) :=
  match rslot r with
  | None => Some (zeros CHUNK_BYTES)
  | Some hash =>
      o ← robject r;
      let inh := rec_inherited r rb hash in
      b ← (if inh then r ← base (root v); base_objects s !! (Base.image r, hash)
           else objects s !! (volume (root v), o.1));
      ok_some (cut inh o.1 o.2 hash b)
  end.

Lemma block_rec s v i p q : page_view s v (i / SLOTS) = Some p → base_view s v (i / SLOTS) = Some q →
  shaped (i / SLOTS) p → shaped (i / SLOTS) q → (cat v = None → rslot (record q (i mod SLOTS)) = None) →
  block_view s v i = rec_view s v (record p (i mod SLOTS)) (record q (i mod SLOTS)).
Proof.
  intros Hp Hq Sp Sq Hc. rewrite /block_view /rec_view Hp /= (slot_record _ _ _ Sp).
  destruct (rslot (record p (i mod SLOTS))) as [hash|] eqn:Hs; [|done]. rewrite Hq (object_record _ _ _ Sp).
  destruct (cat v) as [c|]; simpl.
  - by rewrite /inherited /rec_inherited (slot_record _ _ _ Sq) !(object_record (i / SLOTS)).
  - by rewrite /rec_inherited Hc.
Qed.

(** The base image's view of a page depends on the base image only. *)
Definition same_base (v v' : IndexedVolume) : Prop :=
  volume (root v') = volume (root v) ∧ size (root v') = size (root v) ∧ base (root v') = base (root v) ∧ cat v' = cat v ∧
  packed (root v') = packed (root v).
Definition grows (s s' : S) : Prop := objects s ⊆ objects s' ∧ base_objects s' = base_objects s.

#[export] Instance grows_preorder : PreOrder grows.
Proof.
  split; [by intros ?|]. intros s1 s2 s3 [H1 E1] [H2 E2]. split; [by trans (objects s2)|congruence].
Qed.
Lemma same_view_grows s s' : same_view s s' → grows s s'.
Proof. intros (Ho & _ & Hb). split; [by rewrite Ho|done]. Qed.

Lemma base_view_same s s' v v' i : base_objects s' = base_objects s → same_base v v' →
  base_view s' v' i = base_view s v i.
Proof. intros Hb (Hv & Hs & Hbr & Hc & Hp). by rewrite /base_view /view_from /cat_page Hb Hs Hbr Hc Hp. Qed.

Lemma view_from_grows s s' v v' i h fb p : grows s s' → same_base v v' →
  view_from s v i h fb = Some p → view_from s' v' i h fb = Some p.
Proof.
  intros [Ho Hb] (Hv & Hs & Hbr & Hc & Hp). rewrite /view_from Hv Hs Hbr Hp Hb.
  destruct h as [h|]; [|done]. destruct fb; [done|]. destruct (objects s !! _) as [b|] eqn:E; [|done].
  by rewrite (lookup_weaken _ _ _ _ E Ho).
Qed.

Lemma page_view_grows s s' v v' i p : grows s s' → same_base v v' → pages (root v') !! i = pages (root v) !! i →
  page_view s v i = Some p → page_view s' v' i = Some p.
Proof.
  intros Hg Hsb Hpg. rewrite /page_view Hpg.
  assert (page_inherited v' i (pages (root v) !! i) = page_inherited v i (pages (root v) !! i)) as ->.
  { destruct Hsb as (_ & _ & _ & Hc & _). by rewrite /page_inherited Hc. }
  by apply view_from_grows.
Qed.

Lemma rec_view_grows s s' v v' r rb b : grows s s' → same_base v v' →
  rec_view s v r rb = Some b → rec_view s' v' r rb = Some b.
Proof.
  intros [Ho Hb] (Hv & _ & Hbr & _). rewrite /rec_view. destruct (rslot r) as [hash|]; [|done].
  destruct (robject r) as [o|]; [|done]. simpl. rewrite Hv Hbr Hb. destruct (rec_inherited r rb hash); [done|].
  destruct (objects s !! _) as [x|] eqn:E; [|done]. by rewrite (lookup_weaken _ _ _ _ E Ho).
Qed.

(** A block that has a record has that record's digest. *)
Lemma rec_view_digest s v r rb b hash : rec_view s v r rb = Some b → rslot r = Some hash →
  digest b = hash ∧ Zlen b = CHUNK_BYTES.
Proof.
  intros H Hs. rewrite /rec_view Hs in H. destruct (robject r) as [o|]; [|done]. simpl in H.
  destruct (if rec_inherited r rb hash then _ else _) as [x|]; [|done]. simpl in H.
  destruct (cut _ _ _ _ _) as [y|] eqn:Hc; [|done]. injection H as ->. by apply cut_ok in Hc as (_ & ? & ?).
Qed.

(** ** The pages of a well-formed volume *)
Record page_pair (s : S) (v : IndexedVolume) (pi : Z) (p q : list Z) : Prop := {
  pair_page : page_view s v pi = Some p;
  pair_base : base_view s v pi = Some q;
  pair_fine : page_fine v pi p;
  pair_base_fine : page_fine v pi q;
  pair_bytes : bytes p ∧ bytes q;
  pair_direct : ∀ j, 0 ≤ j < SLOTS → ∃ h, Zlen h = 32 ∧ record q j = rec_direct h;
  pair_none : cat v = None → ∀ j, 0 ≤ j < SLOTS → rslot (record q j) = None;
}.

Lemma range_of_page v pi j : page_range v pi → 0 ≤ j < SLOTS → pi * SLOTS + j < nblocks v →
  in_range v (pi * SLOTS + j) ∧ (pi * SLOTS + j) / SLOTS = pi ∧ (pi * SLOTS + j) mod SLOTS = j.
Proof.
  rewrite /page_range /in_range /SLOTS. intros. split; [lia|]. split; dlia.
Qed.

Lemma view_bytes s v i h fb p : typed s → view_from s v i h fb = Some p → bytes p.
Proof.
  intros [Ho Hb]. rewrite /view_from.
  assert (∀ k, bytes (blank k i)) as Hbl.
  { intros k. apply bytes_splice; [|apply bytes_to_be_bytes]. apply bytes_splice; [apply bytes_zeros|].
    by destruct k; repeat constructor. }
  assert (∀ b, bytes b → bytes (packed_page b)) as Hpp.
  { intros b Hbb. rewrite /packed_page. case_match; [done|].
    assert (bytes (splice (splice (zeros PACK_PAGE_BYTES) 0 PACK_MAGIC) 8 (slice b 8 8))) as Hout.
    { apply bytes_splice; [|auto with bytes]. apply bytes_splice; [apply bytes_zeros|]. by repeat constructor. }
    revert Hout. generalize (splice (splice (zeros PACK_PAGE_BYTES) 0 PACK_MAGIC) 8 (slice b 8 8)).
    induction (seqZ 0 SLOTS) as [|j l IH]; intros out Hout; [done|]. simpl. apply IH. rewrite /copy_slot. auto with bytes. }
  assert (∀ b, bytes b → (if packed (root v) && fb then packed_page b else b) = p → bytes p) as Hend.
  { intros b Hbb. destruct (packed (root v) && fb); intros <-; auto. }
  destruct h as [h|]; simpl; [|intros [= E]; by eapply Hend].
  destruct fb.
  - destruct (base (root v)) as [r|]; [|done]. simpl. destruct (base_objects s !! _) as [b|] eqn:E; [|done]. simpl.
    destruct (check_page _ _ _ _ _); [|done]. simpl. intros [= E']. by eapply (Hend b); [eapply Hb|].
  - destruct (objects s !! _) as [b|] eqn:E; [|done]. simpl.
    destruct (check_page _ _ _ _ _); [|done]. simpl. intros [= E']. by eapply (Hend b); [eapply Ho|].
Qed.

Lemma ok_pair s id v pi : vol_ok s id v → page_range v pi → ∃ p q, page_pair s v pi p q.
Proof.
  intros Hok Hpi. pose proof Hok as [Hr Hp Ht Hc Hb Hbl Hpr _].
  assert (in_range v (pi * SLOTS) ∧ pi * SLOTS / SLOTS = pi) as [Hi Hdiv].
  { destruct Hpi. split; [split; [unfold SLOTS; lia|done]|unfold SLOTS; dlia]. }
  destruct (Hbl _ Hi) as [b Hbv]. destruct (Hb _ Hi) as (q & Hq & _). rewrite Hdiv in Hq.
  rewrite /block_view Hdiv in Hbv. destruct (page_view s v pi) as [p|] eqn:Hpv; [|done].
  destruct (page_view_fine _ _ _ _ _ Hr Hp Ht Hpi Hpv) as [Hf _].
  destruct (base_view_records s id v pi q Hr Hp Ht Hpi _ Hq) as [Hfq Hdir].
  exists p, q. split; try done.
  { split; eapply view_bytes; eauto. }
  intros Hn j Hj. destruct (decide (pi * SLOTS + j < nblocks v)) as [Hlt|Hge].
  - destruct (range_of_page v pi j Hpi Hj Hlt) as (Hin & E1 & E2). destruct (Hb _ Hin) as (q' & Hq' & Hs).
    rewrite E1 in Hq'. assert (q' = q) as -> by congruence.
    destruct (rslot (record q j)) as [h|] eqn:Hs'; [|done].
    assert (slot q (pi * SLOTS + j) = Some h) as Hsl by (rewrite (slot_record pi) ?E2 //; apply Hfq).
    destruct (Hs h Hsl) as (r & _ & Hbr & _).
    by rewrite Hbr Hn in Hc.
  - rewrite (fine_zero _ _ _ Hfq j Hj); [lia|apply rslot_empty].
Qed.

Lemma pair_unique s v pi p q p' q' : page_pair s v pi p q → page_pair s v pi p' q' → p = p' ∧ q = q'.
Proof. intros [H1 H2] [H3 H4]. split; congruence. Qed.

(** Blocks of a pair of pages. *)
Lemma pair_block s v i p q : page_pair s v (i / SLOTS) p q →
  block_view s v i = rec_view s v (record p (i mod SLOTS)) (record q (i mod SLOTS)).
Proof.
  intros []. apply block_rec; try done; [by destruct pair_fine0|by destruct pair_base_fine0|].
  intros. apply pair_none0; [done|]. by apply slot_mod_bound.
Qed.

(** ** Laying dirty blocks into their pages *)

(** The block's record already names its contents. *)
Definition rec_same (force : bool) (b r : list Z) : bool := negb force && bool_decide (rslot r = Some (digest b)).
Definition laid (force : bool) (b r : list Z) : list Z :=
  if all_zero b then rec_empty else if rec_same force b r then r else rec_direct (sha256 b).
(** The block has to be uploaded. *)
Definition rec_changed (force : bool) (b r rb : list Z) : bool :=
  negb (all_zero b) && negb (rec_same force b r) && negb (bool_decide (rslot rb = Some (digest b))).

Lemma Zlen_sha b : Zlen (sha256 b) = 32.
Proof. by rewrite /Zlen sha256_length. Qed.

Lemma splice_zero_record idx p i : shaped idx p → bytes p →
  let p' := splice p (slot_at p i) (zeros PACK_SLOT_BYTES) in
  shaped idx p' ∧ bytes p' ∧ slot_at p' i = slot_at p i ∧
  ∀ j, 0 ≤ j < SLOTS → record p' j = if decide (j = i mod SLOTS) then rec_empty else record p j.
Proof.
  intros Hs Hb. cbv zeta. pose proof (slot_mod_bound i) as Hi. pose proof (shaped_len _ _ Hs) as Hl.
  assert (Zlen (zeros PACK_SLOT_BYTES) = PACK_SLOT_BYTES) as Hz by (by apply Zlen_zeros).
  assert (splice p (slot_at p i) (zeros PACK_SLOT_BYTES) = set_record (i mod SLOTS) rec_empty p) as E.
  { rewrite /set_record /slot_at (shaped_stride _ _ Hs). done. }
  rewrite E. assert (shaped idx (set_record (i mod SLOTS) rec_empty p)) as Hs' by by apply shaped_set.
  split_and!; [done|apply bytes_splice; [done|apply bytes_zeros]| |].
  - by rewrite /slot_at (shaped_stride _ _ Hs) (shaped_stride _ _ Hs').
  - intros j Hj. by apply record_set.
Qed.

Lemma splice_direct_record idx p i h : shaped idx p → bytes p → bytes h → Zlen h = 32 →
  let p' := splice (splice p (slot_at p i) (zeros PACK_SLOT_BYTES)) (slot_at p i) h in
  shaped idx p' ∧ bytes p' ∧
  ∀ j, 0 ≤ j < SLOTS → record p' j = if decide (j = i mod SLOTS) then rec_direct h else record p j.
Proof.
  intros Hs Hb Hbh Hh. cbv zeta. pose proof (slot_mod_bound i) as Hi.
  destruct (splice_zero_record idx p i Hs Hb) as (Hs1 & Hb1 & Hat & Hr1). cbv zeta in *.
  set (p1 := splice p _ (zeros _)) in *. rewrite -Hat -(Z.add_0_r (slot_at p1 i)).
  rewrite (splice_in_record idx); [done|lia|rewrite Hh; done|]. rewrite Hr1 // decide_True //.
  assert (splice rec_empty 0 h = rec_direct h) as -> by (rewrite /rec_empty splice_zeros Hh //).
  assert (Zlen (rec_direct h) = PACK_SLOT_BYTES) as Hl by (by apply direct_parts).
  split_and!; [by apply shaped_set| |].
  - apply bytes_splice; [done|]. apply bytes_app. split; [done|apply bytes_zeros].
  - intros j Hj. rewrite record_set //; [by eapply shaped_len|]. case_decide; [done|]. by rewrite Hr1 // decide_False.
Qed.

Lemma lay_block_spec force i b p bp st : shaped (i / SLOTS) p → shaped (i / SLOTS) bp → bytes p →
  st_pages st !! (i / SLOTS) = Some p →
  ∃ st' p', lay_block force (i, b) p bp st = Ok st' ∧ st_pages st' = <[i / SLOTS := p']> (st_pages st) ∧
    st_base st' = st_base st ∧ shaped (i / SLOTS) p' ∧ bytes p' ∧
    (∀ j, 0 ≤ j < SLOTS → record p' j = if decide (j = i mod SLOTS) then laid force b (record p j) else record p j) ∧
    (st_chunks st', st_changed st') =
      if rec_changed force b (record p (i mod SLOTS)) (record bp (i mod SLOTS))
      then (match st_chunks st !! digest b with Some _ => st_chunks st | None => <[digest b := b]> (st_chunks st) end,
            st_changed st ++ [(i, digest b)])
      else (st_chunks st, st_changed st).
Proof.
  intros Hs Hsb Hb Hp. rewrite /lay_block /rec_changed /laid /=.
  destruct (all_zero b) eqn:Hz; simpl.
  { destruct (splice_zero_record _ p i Hs Hb) as (Hs1 & Hb1 & _ & Hr1). by eexists _, _. }
  rewrite (slot_record _ _ _ Hs) (slot_record _ _ _ Hsb) /rec_same.
  destruct (negb force && bool_decide (rslot (record p (i mod SLOTS)) = Some (digest b))) eqn:Hsame; simpl.
  { exists st, p. rewrite insert_id //. split_and!; try done. intros j _.
    destruct (decide _) as [->|]; [|done]. by rewrite Hsame. }
  rewrite decode_digest. destruct (splice_direct_record _ p i (sha256 b) Hs Hb) as (Hs1 & Hb1 & Hr1);
    [apply sha256_bytes|apply Zlen_sha|].
  assert (∀ j, 0 ≤ j < SLOTS →
    record (splice (splice p (slot_at p i) (zeros PACK_SLOT_BYTES)) (slot_at p i) (sha256 b)) j =
    if decide (j = i mod SLOTS) then if negb force && bool_decide (rslot (record p j) = Some (digest b)) then record p j
      else rec_direct (sha256 b) else record p j) as Hr2.
  { intros j Hj. rewrite Hr1 //. destruct (decide _) as [->|]; [|done]. by rewrite Hsame. }
  destruct (bool_decide (rslot (record bp (i mod SLOTS)) = _)); simpl; eexists _, _; split_and!; try done.
Qed.

(** ** The loop over the dirty blocks *)
Lemma observes_stopped cancel : observes cancel → observes (stopped cancel).
Proof.
  intros Hc s. rewrite /stopped. specialize (Hc s). destruct (cancel s) as [[] s1]; [done|].
  etrans; [exact Hc|]. apply past_deadline_law.
Qed.

Lemma observes_never : observes (S := S) never.
Proof. done. Qed.

Section stage_loop.
Variables (s0 : S) (id : string) (v : IndexedVolume) (force : bool) (cancel : S → bool * S).
Hypotheses (Hok : vol_ok s0 id v) (Hcancel : observes cancel).

(** The dirty block [i], once processed. *)
Definition pend {A} (rest : list (Z * A)) (i : Z) : option (list Z) :=
  if decide (i ∈ rest.*1) then None else dirty v !! i.
Definition changed_at (i : Z) (b : list Z) : Prop :=
  ∃ p q, page_pair s0 v (i / SLOTS) p q ∧ rec_changed force b (record p (i mod SLOTS)) (record q (i mod SLOTS)) = true.

Record stage_inv (rest : list (Z * list Z)) (st : Stage) : Prop := {
  inv_pages : ∀ pi p', st_pages st !! pi = Some p' → page_range v pi ∧ ∃ p q, page_pair s0 v pi p q ∧
    st_base st !! pi = Some q ∧ shaped pi p' ∧ bytes p' ∧ ∀ j, 0 ≤ j < SLOTS →
    record p' j = match pend rest (pi * SLOTS + j) with Some b => laid force b (record p j) | None => record p j end;
  inv_done : ∀ i b, pend rest i = Some b → is_Some (st_pages st !! (i / SLOTS));
  inv_chunks : ∀ h b, st_chunks st !! h = Some b → h = digest b ∧ ∃ i, dirty v !! i = Some b;
  inv_changed : ∀ i h, (i, h) ∈ st_changed st →
    ∃ b, pend rest i = Some b ∧ h = digest b ∧ is_Some (st_chunks st !! h) ∧ changed_at i b;
  inv_all : ∀ i b, pend rest i = Some b → changed_at i b → (i, digest b) ∈ st_changed st;
  inv_nodup : NoDup (st_changed st).*1;
}.

Lemma stage_start : stage_inv (entries (dirty v)) (mkStage ∅ ∅ ∅ []).
Proof.
  assert (∀ i, pend (entries (dirty v)) i = None) as Hn.
  { intros i. rewrite /pend. case_decide as Hi; [done|]. apply eq_None_not_Some => ?.
    by apply Hi, elem_of_entries_keys. }
  split; simpl; try (intros *; by rewrite ?lookup_empty ?Hn).
  - by intros i h ?%elem_of_nil.
  - constructor.
Qed.

Lemma fetch_page_spec rest st pi s : stage_inv rest st → page_range v pi → same_view s0 s →
  wp (fetch_page v pi st) s (λ r s', same_view s0 s' ∧ match r with
    | Ok st' => stage_inv rest st' ∧ is_Some (st_pages st' !! pi)
    | Err _ => True end).
Proof using All.
  intros [Hp Hd Hc Hch Hall Hnd] Hpi Hv. rewrite /fetch_page. destruct (st_pages st !! pi) as [x|] eqn:E.
  { wp_step. rewrite E. split; [done|]. split; [by split|done]. }
  wp_step. eapply wp_mono; [by apply page_spec|]. intros [p|e] s1 [Hv1 Hpv]; [|done].
  wp_step. eapply wp_mono; [by apply base_page_spec|]. intros [q|e] s2 [Hv2 Hqv]; [|done].
  wp_step. split; [done|]. simpl. split; [|by rewrite lookup_insert_eq].
  destruct (ok_pair s0 id v pi Hok Hpi) as (p0 & q0 & Hpair).
  assert (p0 = p) as -> by (destruct Hpair; congruence). assert (q0 = q) as -> by (destruct Hpair; congruence).
  split; simpl; try done.
  - intros pi' p'. destruct (decide (pi = pi')) as [<-|Hne].
    + rewrite !lookup_insert_eq. intros [= <-]. split; [done|]. exists p, q. split; [done|]. split; [done|].
      split; [by destruct Hpair as [_ _ []]|]. split; [apply Hpair|]. intros j Hj.
      destruct (pend rest (pi * SLOTS + j)) as [b|] eqn:Hpd; [|done]. apply Hd in Hpd.
      assert ((pi * SLOTS + j) / SLOTS = pi) as Hdv by (unfold SLOTS in *; dlia).
      rewrite Hdv E in Hpd. by destruct Hpd.
    + rewrite !lookup_insert_ne //. apply Hp.
  - intros i b Hi. destruct (decide (pi = i / SLOTS)) as [<-|Hne]; [by rewrite lookup_insert_eq|].
    rewrite lookup_insert_ne //. by eapply Hd.
Qed.

Lemma pend_cons rest i b k : NoDup ((i, b) :: rest).*1 → dirty v !! i = Some b →
  pend rest k = if decide (k = i) then Some b else pend ((i, b) :: rest) k.
Proof.
  intros Hnd Hi. rewrite /pend /=. simpl in Hnd. apply NoDup_cons in Hnd as [Hni _].
  repeat case_decide; subst; set_solver.
Qed.

Lemma stage_block_spec rest i b st s : NoDup ((i, b) :: rest).*1 → dirty v !! i = Some b →
  stage_inv ((i, b) :: rest) st → same_view s0 s →
  wp (stage_block v force cancel st (i, b)) s (λ r s', same_view s0 s' ∧ match r with
    | Ok st' => stage_inv rest st' | Err _ => True end).
Proof using All.
  intros Hnd Hib Hinv Hv. rewrite /stage_block. cbn [fst snd].
  pose proof (ok_dirty _ _ _ Hok i b Hib) as (Hir & _ & _). pose proof (range_page v i Hir) as Hpi.
  wp_step. eapply wp_mono; [apply deadline_law|]. intros [[]|e] s1 Hv1; [|split; [by trans s|done]].
  wp_step. eapply wp_mono; [by apply check_cancel_law, observes_stopped|]. intros [[]|e] s2 Hv2; (assert (same_view s0 s2) as Hv02 by (etrans; [exact Hv|by trans s1])); [|done].
  wp_step. eapply wp_mono; [by eapply fetch_page_spec|]. intros [st1|e] s3 [Hv3 H3]; [|done].
  destruct H3 as [Hinv1 [p1 Hp1]]. wp_step. rewrite Hp1. simpl.
  destruct (inv_pages _ _ Hinv1 _ _ Hp1) as (_ & p & q & Hpair & Hq & Hsh & Hby & Hrec). rewrite Hq. simpl.
  destruct (lay_block_spec force i b p1 q st1) as (st2 & p2 & Heq & Hpg & Hbs & Hsh2 & Hby2 & Hrec2 & Hcc); try done.
  { by destruct Hpair as [_ _ _ []]. }
  rewrite Heq. split; [done|]. pose proof (pend_cons rest i b) as Hpend.
  assert (pend ((i, b) :: rest) i = None) as Hpi0 by (rewrite /pend decide_True //; by left).
  assert (record p1 (i mod SLOTS) = record p (i mod SLOTS)) as Hri.
  { rewrite Hrec; [apply slot_mod_bound|]. replace (i / SLOTS * SLOTS + i mod SLOTS) with i by (unfold SLOTS; dlia). by rewrite Hpi0. }
  rewrite Hri in Hcc. destruct Hinv1 as [Ip Id Ic Ich Iall Ind].
  split.
  - intros pi p'. rewrite Hpg Hbs. destruct (decide (i / SLOTS = pi)) as [<-|Hne].
    + rewrite lookup_insert_eq. intros [= <-]. split; [done|]. exists p, q. split_and!; try done.
      intros j Hj. rewrite Hrec2 // Hpend //. rewrite Hrec //.
      destruct (decide (j = i mod SLOTS)) as [->|Hj'].
      * replace (i / SLOTS * SLOTS + i mod SLOTS) with i by (unfold SLOTS; dlia). by rewrite decide_True // Hpi0.
      * rewrite (decide_False (P := _ = i)) //. unfold SLOTS in *. dlia.
    + rewrite lookup_insert_ne //. intros (? & p0 & q0 & ?&?&?&?& Hr)%Ip. split; [done|]. exists p0, q0. split_and!; try done.
      intros j Hj. rewrite Hr // Hpend // decide_False //. unfold SLOTS in *. intros <-. apply Hne. dlia.
  - intros k c. rewrite Hpend // Hpg. destruct (decide (k = i)) as [->|Hk].
    + intros _. by rewrite lookup_insert_eq.
    + intros Hkc%Id. destruct (decide (i / SLOTS = k / SLOTS)) as [->|]; [by rewrite lookup_insert_eq|by rewrite lookup_insert_ne].
  - destruct (rec_changed _ _ _ _); injection Hcc as -> _; [|done].
    destruct (st_chunks st1 !! digest b) eqn:E; [done|]. intros h c [[<- <-]|[_ ?]]%lookup_insert_Some; eauto.
  - assert (∀ k h, (k, h) ∈ st_changed st1 → ∃ c, pend rest k = Some c ∧ h = digest c ∧ is_Some (st_chunks st1 !! h) ∧ changed_at k c) as Hold.
    { intros k h (c & Hc & ?)%Ich. exists c. split; [|done]. rewrite Hpend //. destruct (decide (k = i)) as [->|]; [congruence|done]. }
    assert (is_Some (st_chunks st2 !! digest b) ∧ (∀ h, is_Some (st_chunks st1 !! h) → is_Some (st_chunks st2 !! h)) ∨
      st_chunks st2 = st_chunks st1 ∧ st_changed st2 = st_changed st1) as Hgrow.
    { destruct (rec_changed _ _ _ _); injection Hcc as E1 E2; [left|by right].
      rewrite E1. destruct (st_chunks st1 !! digest b) eqn:E; [by rewrite E|]. rewrite lookup_insert_eq. split; [done|].
      intros h ?. rewrite lookup_insert. by case_decide. }
    intros k h Hkh. destruct Hgrow as [[Hg1 Hg2]|[E1 E2]]; [|rewrite E1; apply Hold; congruence].
    destruct (rec_changed _ _ _ _) eqn:Hrc; injection Hcc as E1 E2; rewrite E2 in Hkh.
    + apply elem_of_app in Hkh as [(c & ?&?&?&?)%Hold|[= -> ->]%list_elem_of_singleton]; [exists c; eauto|].
      exists b. rewrite Hpend // decide_True //. split_and!; try done. by exists p, q.
    + apply Hold in Hkh as (c & ?&?&?&?). exists c. eauto.
  - intros k c. rewrite Hpend //. destruct (decide (k = i)) as [->|Hk].
    + intros [= <-] (p' & q' & Hpair' & Hrc). destruct (pair_unique _ _ _ _ _ _ _ Hpair Hpair') as [<- <-].
      rewrite Hrc in Hcc. injection Hcc as _ ->. apply elem_of_app. right. by apply list_elem_of_singleton.
    + intros Hkc Hch. pose proof (Iall _ _ Hkc Hch) as Hin.
      destruct (rec_changed _ _ _ _); injection Hcc as _ ->; [apply elem_of_app; by left|done].
  - destruct (rec_changed _ _ _ _); injection Hcc as _ ->; [|done]. rewrite fmap_app. apply NoDup_app. split_and!; [done| |apply NoDup_singleton].
    intros k (x & -> & Hx)%list_elem_of_fmap Hk. apply list_elem_of_singleton in Hk. destruct x as [k h]. simpl in Hk. subst k.
    apply Ich in Hx as (c & Hc & _). congruence.
Qed.

Lemma stage_blocks_spec s : same_view s0 s →
  wp (foldM (stage_block v force cancel) (mkStage ∅ ∅ ∅ []) (entries (dirty v))) s (λ r s', same_view s0 s' ∧
    match r with Ok st => stage_inv [] st | Err _ => True end).
Proof using All.
  intros Hv. apply (wp_foldM _ _ _ _ (λ st rest s, same_view s0 s ∧ stage_inv rest st ∧ NoDup rest.*1 ∧
    ∀ i b, (i, b) ∈ rest → dirty v !! i = Some b)).
  - split_and!; [done|apply stage_start|apply NoDup_entries|]. intros i b. by rewrite elem_of_entries.
  - intros st [i b] rest s' (Hv' & Hinv & Hnd & Hin). eapply wp_mono.
    { apply stage_block_spec; [exact Hnd|apply Hin; by left|exact Hinv|done]. }
    intros [st'|e] s2 [? ?]; [|done]. split_and!; try done.
    + simpl in Hnd. by apply NoDup_cons in Hnd as [_ ?].
    + intros k c Hk. apply Hin. by right.
  - by intros st s' (? & ? & _).
Qed.
End stage_loop.

(** ** Packs *)
Record pack_fine (pk : list Z) : Prop := {
  pack_len : Zlen pk mod CHUNK_BYTES = 0;
  pack_small : Zlen pk ≤ MAX_OBJECT_BYTES;
  pack_byte : bytes pk;
}.
Definition pack_has (pk : list Z) (off : Z) (b : list Z) : Prop :=
  0 ≤ off ∧ off mod CHUNK_BYTES = 0 ∧ off + CHUNK_BYTES ≤ Zlen pk ∧ slice pk off CHUNK_BYTES = b.

Lemma chunks_of_spec {A} n fuel (l : list A) : (0 < n)%nat → (length l ≤ fuel)%nat →
  concat (chunks_of fuel n l) = l ∧ Forall (λ g, length g ≤ n)%nat (chunks_of fuel n l).
Proof.
  intros Hn. revert l. induction fuel as [|fuel IH]; intros [|x l] Hl; simpl in *; try done; [lia|].
  destruct n as [|n]; [lia|]. simpl. destruct (IH (drop n l)) as [E Hf]; [rewrite length_drop; lia|].
  rewrite E take_drop. split; [done|]. constructor; [|done]. simpl. rewrite length_take. lia.
Qed.

Lemma group_slice (g : list (string * list Z)) k h b : Forall (λ x, Zlen x.2 = CHUNK_BYTES) g → g !! k = Some (h, b) →
  slice (pack_bytes g) (Z.of_nat k * CHUNK_BYTES) CHUNK_BYTES = b ∧ Z.of_nat k * CHUNK_BYTES + CHUNK_BYTES ≤ Zlen (pack_bytes g).
Proof.
  pose proof chunk_bytes_pos. rewrite /pack_bytes. intros Hf. revert k. induction Hf as [|x g Hx Hf IH]; intros k Hk; [done|].
  change (concat (x :: g).*2) with (x.2 ++ concat g.*2). rewrite Zlen_app Hx. pose proof (Zlen_nonneg (concat g.*2)). destruct k as [|k]; simpl in Hk.
  - injection Hk as ->. simpl in Hx. change (Z.of_nat 0 * CHUNK_BYTES) with 0. rewrite slice_app_l /=; [lia..|].
    split; [by apply slice_all|lia].
  - destruct (IH k Hk) as [E Hle]. rewrite slice_from_app ?Zlen_app; [lia..|].
    replace (Z.of_nat (Datatypes.S k) * CHUNK_BYTES - Zlen x.2) with (Z.of_nat k * CHUNK_BYTES) by lia. split; [done|lia].
Qed.

Lemma group_length (g : list (string * list Z)) : Forall (λ x, Zlen x.2 = CHUNK_BYTES) g →
  Zlen (pack_bytes g) = Z.of_nat (length g) * CHUNK_BYTES.
Proof. rewrite /pack_bytes. induction 1 as [|x g Hx Hf IH]; [done|].
  change (concat (x :: g).*2) with (x.2 ++ concat g.*2). rewrite Zlen_app Hx IH /=. lia. Qed.

Lemma add_locations_spec pack g m :
  (∀ h l, add_locations pack g m !! h = Some l →
     (∃ k b, g !! k = Some (h, b) ∧ l = (pack, Z.of_nat k * CHUNK_BYTES)) ∨ m !! h = Some l) ∧
  (∀ h, h ∈ g.*1 ∨ is_Some (m !! h) → is_Some (add_locations pack g m !! h)).
Proof.
  rewrite /add_locations. induction g as [|x g IH] using rev_ind; [split; [by right|by intros h [?%elem_of_nil|]]|].
  rewrite imap_app foldl_app /=. destruct IH as [H1 H2]. split.
  - intros h l. destruct (decide (x.1 = h)) as [<-|Hne].
    + rewrite lookup_insert_eq => [= <-]. left. exists (length g), x.2. rewrite lookup_app_r // Nat.sub_diag /=.
      destruct x; rewrite Nat.add_0_r. done.
    + rewrite lookup_insert_ne //. intros [(k & b & Hk & ->)|]%H1; [left|by right]. exists k, b. split; [|done].
      by apply lookup_app_l_Some.
  - intros h Hh. destruct (decide (x.1 = h)) as [<-|Hne]; [by rewrite lookup_insert_eq|]. rewrite lookup_insert_ne //.
    apply H2. rewrite fmap_app in Hh. set_solver.
Qed.

Section packs.
Variables (chunks : gmap string (list Z)) (cancel : S → bool * S).
Hypotheses (Hcancel : observes cancel) (Hlen : ∀ h b, chunks !! h = Some b → Zlen b = CHUNK_BYTES ∧ bytes b).

Record packs_inv (acc : list (string * list Z) * gmap string (string * Z)) : Prop := {
  inv_locations : ∀ h d off, acc.2 !! h = Some (d, off) → ∃ pk b, d = digest pk ∧ (d, pk) ∈ acc.1 ∧
    chunks !! h = Some b ∧ pack_has pk off b;
  inv_packs : ∀ d pk, (d, pk) ∈ acc.1 → d = digest pk ∧ pack_fine pk ∧
    ∃ l, pk = concat l ∧ ∀ b, b ∈ l → ∃ h, chunks !! h = Some b;
}.

Lemma pack_group_spec s0 acc g s : packs_inv acc → (∀ h b, (h, b) ∈ g → chunks !! h = Some b) → (length g ≤ 16)%nat →
  same_view s0 s →
  wp (pack_group cancel acc g) s (λ r s', same_view s0 s' ∧ match r with
    | Ok acc' => packs_inv acc' ∧ (∀ h, h ∈ g.*1 ∨ is_Some (acc.2 !! h) → is_Some (acc'.2 !! h))
    | Err _ => True end).
Proof using All.
  intros [Hl Hp] Hg Hn Hv. rewrite /pack_group.
  wp_step. eapply wp_mono; [apply deadline_law|]. intros [[]|e] s1 Hv1; [|split; [by trans s|done]].
  wp_step. eapply wp_mono; [by apply check_cancel_law, observes_stopped|].
  intros [[]|e] s2 Hv2; (assert (same_view s0 s2) as Hv02 by (etrans; [exact Hv|by trans s1])); [|done].
  cbv zeta. wp_step. split; [done|].
  assert (Forall (λ x, Zlen x.2 = CHUNK_BYTES) g) as Hfg.
  { apply Forall_forall. intros [h b] Hb%Hg. by apply Hlen in Hb as []. }
  destruct (add_locations_spec (digest (pack_bytes g)) g acc.2) as [A1 A2]. split; [split|]; simpl; [| |by apply A2].
  - intros h d off Hh. apply A1 in Hh as [(k & b & Hk & [= -> ->])|Hh].
    + destruct (group_slice _ _ _ _ Hfg Hk) as [E Hle]. exists (pack_bytes g), b. split; [done|].
      split; [apply elem_of_app; right; by apply list_elem_of_singleton|].
      split; [by eapply Hg, list_elem_of_lookup_2|]. pose proof chunk_bytes_pos.
      split_and!; [lia|apply Z.mod_mul; lia|done|done].
    + destruct (Hl _ _ _ Hh) as (pk & b & ? & ? & ? & ?). exists pk, b. split_and!; try done. apply elem_of_app. by left.
  - intros d pk [Hd|[= -> ->]%list_elem_of_singleton]%elem_of_app; [by apply Hp|]. split; [done|]. pose proof chunk_bytes_pos.
    split; [|exists g.*2; split; [done|]; intros b ([h b'] & -> & Hb%Hg)%list_elem_of_fmap; by exists h]. split.
    + rewrite group_length //. apply Z.mod_mul. lia.
    + rewrite group_length //. transitivity (16 * CHUNK_BYTES); [nia|]. by vm_compute.
    + rewrite /pack_bytes. apply Forall_concat, Forall_fmap, Forall_forall. intros [h b] Hb%Hg. by apply Hlen in Hb as [].
Qed.

Lemma pack_groups_spec s0 s : same_view s0 s →
  let unique := merge_sort by_string (map_to_list chunks) in
  wp (foldM (pack_group cancel) ([], ∅) (chunks_of (length unique) 16 unique)) s (λ r s', same_view s0 s' ∧
    match r with
    | Ok acc => packs_inv acc ∧ ∀ h, is_Some (chunks !! h) → is_Some (acc.2 !! h)
    | Err _ => True end).
Proof using All.
  intros Hv. cbv zeta. set (unique := merge_sort _ _).
  assert (∀ h b, (h, b) ∈ unique ↔ chunks !! h = Some b) as Hu.
  { intros. by rewrite /unique merge_sort_Permutation elem_of_map_to_list. }
  destruct (chunks_of_spec 16 (length unique) unique) as [E Hsz]; [lia|done|].
  apply (wp_foldM _ _ _ _ (λ acc rest s, same_view s0 s ∧ packs_inv acc ∧
    (∀ h b, (h, b) ∈ concat rest → chunks !! h = Some b) ∧ Forall (λ g, length g ≤ 16)%nat rest ∧
    ∀ h, is_Some (chunks !! h) → h ∈ (concat rest).*1 ∨ is_Some (acc.2 !! h))).
  - split; [done|]. split; [by split; [intros h d off; rewrite lookup_empty|intros d pk ?%elem_of_nil]|].
    rewrite E. split; [by intros; apply Hu|]. split; [done|]. intros h [b Hb%Hu]. left. apply list_elem_of_fmap. by exists (h, b).
  - intros acc g rest s' (Hv' & Hinv & Hin & Hf & Hall). apply Forall_cons in Hf as [Hg Hf]. simpl in Hin.
    eapply wp_mono; [apply pack_group_spec; [done| |done|done]|].
    { intros h b Hb. apply Hin, elem_of_app. by left. }
    intros [acc'|e] s2 [Hv2 H2]; [|done]. destruct H2 as [Hinv' Hgr]. split_and!; try done.
    + intros h b Hb. apply Hin, elem_of_app. by right.
    + intros h [Hh|Hh]%Hall; [|right; by apply Hgr; right]. simpl in Hh. rewrite fmap_app in Hh.
      apply elem_of_app in Hh as [|]; [right; by apply Hgr; left|by left].
  - intros acc s' (? & ? & _ & _ & Hall). split; [done|]. split; [done|]. intros h [?%elem_of_nil|]%Hall; done.
Qed.
End packs.

(** ** Writing the locations *)
Lemma unhex_digest b : unhex (digest b) = sha256 b.
Proof. rewrite /digest unhex_hex //. apply sha256_bytes. Qed.

Lemma splice_middle (a x y c : list Z) : Zlen x = Zlen y → splice (a ++ x ++ c) (Zlen a) y = a ++ y ++ c.
Proof.
  rewrite /splice /Zlen Nat2Z.id => Hl. rewrite take_app_length. do 2 f_equal.
  rewrite app_assoc drop_app_length' // length_app. lia.
Qed.

Lemma splice_packed_record idx p i h pk off : shaped idx p → bytes p → Zlen h = 32 → Zlen pk = 32 → bytes pk →
  record p (i mod SLOTS) = rec_direct h →
  let p' := splice (splice p (slot_at p i + 32) pk) (slot_at p i + 64) (to_be_bytes 4 off) in
  shaped idx p' ∧ bytes p' ∧
  ∀ j, 0 ≤ j < SLOTS → record p' j = if decide (j = i mod SLOTS) then rec_packed h pk off else record p j.
Proof.
  intros Hs Hb Hh Hpk Hbp Hr. cbv zeta. pose proof (slot_mod_bound i) as Hi.
  assert (Zlen (to_be_bytes 4 off) = 4) as Hoff by by rewrite Zlen_to_be_bytes.
  assert (Zlen (rec_direct h) = 72) as Hrd by by destruct (direct_parts h Hh) as (_&_&_&_&_&->).
  set (p1 := splice p (slot_at p i + 32) pk).
  assert (p1 = set_record (i mod SLOTS) (splice (rec_direct h) 32 pk) p) as E1.
  { rewrite /p1 (splice_in_record idx) ?Hr //. rewrite Hpk. by vm_compute. }
  assert (Zlen (splice (rec_direct h) 32 pk) = 72) as H1 by (rewrite Zlen_splice; lia).
  assert (shaped idx p1) as Hs1 by (rewrite E1; by apply shaped_set).
  assert (slot_at p1 i = slot_at p i) as Hat by (by rewrite /slot_at (shaped_stride _ _ Hs) (shaped_stride _ _ Hs1)).
  rewrite -Hat (splice_in_record idx); [done|lia|rewrite Hoff; by vm_compute|].
  assert (record p1 (i mod SLOTS) = splice (rec_direct h) 32 pk) as Hr1.
  { rewrite E1 record_set //; [by eapply shaped_len|]. by rewrite decide_True. }
  rewrite Hr1.
  assert (splice (splice (rec_direct h) 32 pk) 64 (to_be_bytes 4 off) = rec_packed h pk off) as ->.
  { rewrite /rec_direct /rec_packed. change (zeros 40) with (zeros 32 ++ zeros 4 ++ zeros 4).
    assert (Zlen (zeros 32) = 32 ∧ Zlen (zeros 4) = 4) as [Hz32 Hz4] by done.
    replace 32 with (Zlen h) at 2. rewrite splice_middle; [lia|].
    replace 64 with (Zlen (h ++ pk)) by (rewrite Zlen_app; lia). rewrite !(app_assoc h pk) splice_middle; [lia|done]. }
  assert (Zlen (rec_packed h pk off) = PACK_SLOT_BYTES) as Hl.
  { assert (Zlen (zeros 4) = 4) as Hz4 by done. rewrite /rec_packed !Zlen_app. plia. }
  assert (bytes p1) as Hb1 by (by apply bytes_splice).
  split_and!; [by apply shaped_set| |].
  - apply bytes_splice; [done|]. assert (bytes (record p (i mod SLOTS))) as Hbr by (by apply bytes_slice).
    rewrite Hr in Hbr. apply bytes_app in Hbr as [Hbh _].
    rewrite /rec_packed !bytes_app. split_and!; [done|done|apply bytes_to_be_bytes|apply bytes_zeros].
  - intros j Hj. rewrite record_set //; [by eapply shaped_len|]. case_decide; [done|]. rewrite E1 record_set //; [by eapply shaped_len|].
    by rewrite decide_False.
Qed.

(** A block that was staged, as its final record says. *)
Inductive rec_done (v : IndexedVolume) (packs : list (string * list Z)) (b r rb : list Z) : list Z → Prop :=
| done_zero : all_zero b = true → rec_done v packs b r rb rec_empty
| done_same : all_zero b = false → rslot r = Some (digest b) → rec_done v packs b r rb r
| done_base : all_zero b = false → rslot rb = Some (digest b) → rec_done v packs b r rb (rec_direct (sha256 b))
| done_packed pk off i b' : all_zero b = false → rslot rb ≠ Some (digest b) → (digest pk, pk) ∈ packs →
    pack_has pk off b' → dirty v !! i = Some b' → digest b' = digest b →
    rec_done v packs b r rb (rec_packed (sha256 b) (sha256 pk) off).

(** The pages a commit stages. *)
Record staged_ok (s0 : S) (v : IndexedVolume) (ps bases : gmap Z (list Z)) (packs : list (string * list Z)) : Prop := {
  out_page : ∀ pi p', ps !! pi = Some p' → page_range v pi ∧ ∃ p q, page_pair s0 v pi p q ∧ bases !! pi = Some q ∧
    shaped pi p' ∧ bytes p' ∧ ∀ j, 0 ≤ j < SLOTS → match dirty v !! (pi * SLOTS + j) with
      | Some b => rec_done v packs b (record p j) (record q j) (record p' j)
      | None => record p' j = record p j end;
  out_done : ∀ i b, dirty v !! i = Some b → is_Some (ps !! (i / SLOTS));
  out_packs : ∀ d pk, (d, pk) ∈ packs → d = digest pk ∧ pack_fine pk;
  out_contents : ∀ d pk, (d, pk) ∈ packs → ∃ l, pk = concat l ∧ ∀ b, b ∈ l → ∃ i, dirty v !! i = Some b;
}.

Lemma rslot_done v packs b r rb r' : rec_done v packs b r rb r' →
  rslot r' = if all_zero b then None else Some (digest b).
Proof.
  pose proof (Zlen_sha b) as Hl. pose proof (sha256_nonzero b) as Hn.
  destruct 1 as [-> | -> ? | -> ? |pk off i b' -> ? ? ? ? ?]; [apply rslot_empty|done| |].
  - by rewrite rslot_direct // Hn.
  - rewrite /rslot /rec_packed slice_app_l; [lia|done|lia|]. by rewrite (slice_all _ _ Hl) Hn.
Qed.

(** ** The staging function as a whole *)
Lemma pend_nil {A} v i : pend v (@nil (Z * A)) i = dirty v !! i.
Proof. rewrite /pend. destruct (decide _) as [H|]; [|done]. by apply elem_of_nil in H. Qed.

Section stage.
Variables (s0 : S) (id : string) (v : IndexedVolume) (force : bool) (cancel : S → bool * S).
Hypotheses (Hok : vol_ok s0 id v) (Hcancel : observes cancel).
Variables (st : Stage) (packs : list (string * list Z)) (locs : gmap string (string * Z)).
Hypotheses (Hst : stage_inv s0 v force [] st) (Hpacks : packs_inv (st_chunks st) (packs, locs)).

Definition packed_rec (h : string) : list Z :=
  match locs !! h with Some (d, off) => rec_packed (unhex h) (unhex d) off | None => [] end.

(** [p'] is the staged page [p1] with the locations of all changed blocks but [rest]. *)
Definition locating (rest : list (Z * string)) (pi : Z) (p1 p' : list Z) : Prop :=
  shaped pi p' ∧ bytes p' ∧ ∀ j, 0 ≤ j < SLOTS →
    (∀ h, (pi * SLOTS + j, h) ∈ st_changed st → pi * SLOTS + j ∉ rest.*1 →
       is_Some (locs !! h) ∧ record p' j = packed_rec h) ∧
    (pi * SLOTS + j ∉ (st_changed st).*1 ∨ pi * SLOTS + j ∈ rest.*1 → record p' j = record p1 j).
Definition locate_inv (rest : list (Z * string)) (ps : gmap Z (list Z)) : Prop :=
  ∀ pi, match st_pages st !! pi, ps !! pi with
        | Some p1, Some p' => locating rest pi p1 p'
        | None, None => True
        | _, _ => False end.

Lemma changed_direct i h p1 : (i, h) ∈ st_changed st → st_pages st !! (i / SLOTS) = Some p1 →
  record p1 (i mod SLOTS) = rec_direct (unhex h) ∧ Zlen (unhex h) = 32.
Proof using All.
  intros Hch Hp1. destruct (inv_changed _ _ _ _ _ Hst i h Hch) as (b & Hpd & -> & _ & (p & q & Hpair & Hrc)).
  destruct (inv_pages _ _ _ _ _ Hst _ _ Hp1) as (_ & p0 & q0 & Hpair0 & _ & _ & _ & Hrec).
  destruct (pair_unique _ _ _ _ _ _ _ Hpair Hpair0) as [<- <-]. rewrite unhex_digest. split; [|apply Zlen_sha].
  rewrite Hrec; [apply slot_mod_bound|]. replace (i / SLOTS * SLOTS + i mod SLOTS) with i by (unfold SLOTS; dlia).
  rewrite Hpd /laid. rewrite /rec_changed !andb_true_iff !negb_true_iff in Hrc. by destruct Hrc as [[-> ->] _].
Qed.

Lemma locate_spec rest i h ps s : NoDup ((i, h) :: rest).*1 → (i, h) ∈ st_changed st →
  locate_inv ((i, h) :: rest) ps → same_view s0 s →
  wp (locate cancel locs ps (i, h)) s (λ r s', same_view s0 s' ∧ match r with
    | Ok ps' => locate_inv rest ps' | Err _ => True end).
Proof using All.
  intros Hnd Hch Hinv Hv. rewrite /locate. cbn [fst snd].
  wp_step. eapply wp_mono; [by apply check_cancel_law, observes_stopped|].
  intros [[]|e] s2 Hv2; (assert (same_view s0 s2) as Hv02 by (etrans; [exact Hv|done])); [|done].
  cbv zeta. wp_step. apply wp_ok_or; [intros [d off] Hl|done]. wp_step. wp_step.
  destruct (inv_locations _ _ Hpacks h d off Hl) as (pk & b0 & -> & _ & _ & _).
  rewrite decode_digest. wp_step. split; [done|].
  destruct (inv_changed _ _ _ _ _ Hst i h Hch) as (b & Hpd & Hh & _).
  destruct (inv_done _ _ _ _ _ Hst i b Hpd) as [p1 Hp1]. pose proof (Hinv (i / SLOTS)) as Hi. rewrite Hp1 in Hi.
  destruct (ps !! (i / SLOTS)) as [p'|] eqn:Hp'; [|done]. simpl. destruct Hi as (Hs & Hb & Hr).
  destruct (changed_direct i h p1 Hch Hp1) as [Hdir Hlh].
  assert (i / SLOTS * SLOTS + i mod SLOTS = i) as Hdm by (unfold SLOTS; dlia).
  assert (record p' (i mod SLOTS) = rec_direct (unhex h)) as Hri.
  { rewrite (proj2 (Hr (i mod SLOTS) (slot_mod_bound i))) //. right. rewrite Hdm. by left. }
  destruct (splice_packed_record (i / SLOTS) p' i (unhex h) (sha256 pk) off) as (Hs2 & Hb2 & Hr2); try done;
    [apply Zlen_sha|apply sha256_bytes|].
  simpl in Hnd. apply NoDup_cons in Hnd as [Hni Hnd].
  intros pi. destruct (decide (i / SLOTS = pi)) as [<-|Hne].
  - rewrite Hp1 lookup_insert_eq. split_and!; [done|done|]. intros j Hj. rewrite Hr2 //.
    destruct (decide (j = i mod SLOTS)) as [->|Hji].
    + rewrite Hdm. split; [|intros [Hn|]; [|done]; exfalso; apply Hn, list_elem_of_fmap; by exists (i, h)].
      intros h' Hch' _. destruct (inv_changed _ _ _ _ _ Hst i h' Hch') as (b' & Hpd' & Hh' & _).
      assert (h' = h) as -> by congruence. rewrite /packed_rec Hl unhex_digest. done.
    + assert (i / SLOTS * SLOTS + j ≠ i) as Hni' by (unfold SLOTS in *; intros Hx; apply Hji; rewrite -Hx; dlia).
      destruct (Hr j Hj) as [A1 A2]. split; [intros h' Hc' Hn; apply A1; [done|]|intros [|]; apply A2; [by left|right]].
      * simpl. set_solver.
      * simpl. set_solver.
  - rewrite lookup_insert_ne //. specialize (Hinv pi). destruct (st_pages st !! pi), (ps !! pi); try done.
    destruct Hinv as (?&?&Hr'). split_and!; [done|done|]. intros j Hj.
    assert (pi * SLOTS + j ≠ i) as Hni' by (unfold SLOTS in *; intros Hx; apply Hne; rewrite -Hx; dlia).
    destruct (Hr' j Hj) as [A1 A2]. split; [intros h' Hc' Hn; apply A1; [done|]|intros [|]; apply A2; [by left|right]].
    + simpl. set_solver.
    + simpl. set_solver.
Qed.

Lemma locate_all_spec s : same_view s0 s →
  wp (foldM (locate cancel locs) (st_pages st) (st_changed st)) s (λ r s', same_view s0 s' ∧ match r with
    | Ok ps => locate_inv [] ps | Err _ => True end).
Proof using All.
  intros Hv. apply (wp_foldM _ _ _ _ (λ ps rest s, same_view s0 s ∧ locate_inv rest ps ∧ NoDup rest.*1 ∧
    ∀ x, x ∈ rest → x ∈ st_changed st)).
  - split_and!; [done| |apply Hst|done]. intros pi. destruct (st_pages st !! pi) as [p|] eqn:Hp; [|done].
    destruct (inv_pages _ _ _ _ _ Hst _ _ Hp) as (_ & ? & ? & _ & _ & ? & ? & _). split_and!; [done|done|]. intros j Hj.
    split; [|done]. intros h Hh []. apply list_elem_of_fmap. by exists (pi * SLOTS + j, h).
  - intros ps [i h] rest s' (Hv' & Hinv & Hnd & Hin). eapply wp_mono.
    { apply locate_spec; [exact Hnd|apply Hin; by left|done|done]. }
    intros [ps'|e] s2 [? ?]; [|done]. split_and!; try done; [simpl in Hnd; by apply NoDup_cons in Hnd as []|].
    intros x Hx. apply Hin. by right.
  - by intros ps s' (? & ? & _).
Qed.

Lemma located_done ps : locate_inv [] ps → staged_ok s0 v ps (st_base st) packs.
Proof using All.
  intros Hinv. split.
  3: { intros d pk Hin. by destruct (inv_packs _ _ Hpacks _ _ Hin) as (? & ? & _). }
  3: { intros d pk Hin. destruct (inv_packs _ _ Hpacks _ _ Hin) as (_ & _ & l & -> & Hl). exists l. split; [done|].
       intros b (h & Hb)%Hl. by destruct (inv_chunks _ _ _ _ _ Hst _ _ Hb) as [_ ?]. }
  - intros pi p' Hp'. specialize (Hinv pi). rewrite Hp' in Hinv. destruct (st_pages st !! pi) as [p1|] eqn:Hp1; [|done].
    destruct (inv_pages _ _ _ _ _ Hst _ _ Hp1) as (Hpi & p & q & Hpair & Hq & _ & _ & Hrec). split; [done|].
    exists p, q. destruct Hinv as (Hs & Hb & Hr). split_and!; try done. intros j Hj.
    destruct (Hr j Hj) as [A1 A2]. rewrite Hrec // pend_nil in A2.
    destruct (dirty v !! (pi * SLOTS + j)) as [b|] eqn:Hd.
    2: { apply A2. left. intros ([i h] & Hi & Hx)%list_elem_of_fmap. simpl in Hi. subst i.
         apply (inv_changed _ _ _ _ _ Hst) in Hx as (b & Hpd & _). rewrite pend_nil in Hpd. congruence. }
    assert (pend v (@nil (Z * list Z)) (pi * SLOTS + j) = Some b) as Hpd by by rewrite pend_nil.
    assert ((pi * SLOTS + j) / SLOTS = pi ∧ (pi * SLOTS + j) mod SLOTS = j) as [E1 E2] by (unfold SLOTS in *; split; dlia).
    destruct (rec_changed force b (record p j) (record q j)) eqn:Hrc.
    + assert ((pi * SLOTS + j, digest b) ∈ st_changed st) as Hch.
      { apply (inv_all _ _ _ _ _ Hst); [done|]. exists p, q. by rewrite E1 E2. }
      destruct (A1 _ Hch) as [[[d off] Hl] ->]; [by intros ?%elem_of_nil|]. rewrite /packed_rec Hl unhex_digest.
      destruct (inv_locations _ _ Hpacks _ _ _ Hl) as (pk & b' & -> & Hin & Hcb & Hhas). rewrite unhex_digest.
      destruct (inv_chunks _ _ _ _ _ Hst _ _ Hcb) as (Hdg & i & Hi).
      rewrite /rec_changed !andb_true_iff !negb_true_iff bool_decide_eq_false in Hrc. destruct Hrc as [[Hz _] Hb'].
      by eapply done_packed.
    + assert (record p' j = laid force b (record p j)) as ->.
      { apply A2. left. intros ([i h] & Hi & Hx)%list_elem_of_fmap. simpl in Hi. subst i.
        apply (inv_changed _ _ _ _ _ Hst) in Hx as (b' & Hpd' & _ & _ & (p0 & q0 & Hpair0 & Hrc')).
        rewrite E1 in Hpair0. destruct (pair_unique _ _ _ _ _ _ _ Hpair Hpair0) as [<- <-]. rewrite E2 in Hrc'. congruence. }
      rewrite /laid. rewrite /rec_changed /rec_same in Hrc |- *. destruct (all_zero b) eqn:Hz; [by apply done_zero|]. simpl in Hrc.
      destruct force; simpl in Hrc |- *.
      * apply negb_false_iff, bool_decide_eq_true in Hrc. by apply done_base.
      * case_bool_decide as Hs'; [by apply done_same|]. simpl in Hrc.
        apply negb_false_iff, bool_decide_eq_true in Hrc. by apply done_base.
  - intros i b Hd. assert (pend v (@nil (Z * list Z)) i = Some b) as Hpd by by rewrite pend_nil.
    destruct (inv_done _ _ _ _ _ Hst _ _ Hpd) as [p1 Hp1]. specialize (Hinv (i / SLOTS)). rewrite Hp1 in Hinv.
    by destruct (ps !! (i / SLOTS)).
Qed.
End stage.

(** Staging leaves the store as it is and stages every dirty block. *)
Lemma stage_spec s0 s id v force cancel : vol_ok s0 id v → observes cancel → same_view s0 s →
  wp (stage v force cancel) s (λ r s', same_view s0 s' ∧ match r with
    | Ok (ps, bases, packs) => staged_ok s0 v ps bases packs | Err _ => True end).
Proof.
  intros Hok Hc Hv. rewrite /stage. wp_step. eapply wp_mono; [by eapply stage_blocks_spec|].
  intros [st|e] s1 [Hv1 Hst]; [|done]. cbv zeta. wp_step. eapply wp_mono.
  { apply (pack_groups_spec (st_chunks st)); [done| |exact Hv1].
    intros h b [_ [i Hi]]%(inv_chunks _ _ _ _ _ Hst). by destruct (ok_dirty _ _ _ Hok _ _ Hi) as (_ & ? & ?). }
  intros [[packs locs]|e] s2 [Hv2 H2]; [|done]. destruct H2 as [Hpk _]. wp_step.
  eapply wp_mono; [by eapply (locate_all_spec s0 id v force)|]. intros [ps|e] s3 [Hv3 H3]; [|done].
  wp_step. split; [done|]. by eapply (located_done s0 id v force cancel).
Qed.

End staging.
End Staging.
