(* ===== verification/IndexedCommit.v ===== *)
(** Commits of the indexed volume of [ahvm-volume/src/indexed.rs]: what the staged
    pages and packs denote once they are at the store, the publication of the
    root, and the promises of [commit], [write], [open] and [read] to a client. *)
From S2P Require Import Prelude Codec ObjectStore Blocks Base Page Indexed Staging.

Module IndexedCommit.
Import Page Indexed Staging.

Section commit.
Context {S : Type} {SHA : Sha256} {OS : ObjectStore S} {JR : Json Root} {SV : StoreView S}.
Context {SHAL : Sha256Laws} {OSL : ObjectStoreLaws S} {JL : JsonLaws Root}.

(** ** The map of the next root *)
Definition settled (v : IndexedVolume) (bases : gmap Z (list Z)) (pi : Z) (p' : list Z) : option string :=
  if all_zero (drop 16 p') then None
  else if bool_decide (is_Some (cat v)) && bool_decide (Some p' = bases !! pi) then cat_page v pi
  else Some (digest p').

Record settle_ok (v : IndexedVolume) (bases ps : gmap Z (list Z)) (packs : list (string * list Z))
    (acc : gmap Z string * list (string * list Z)) : Prop := {
  settle_map : ∀ pi, acc.1 !! pi = match ps !! pi with Some p' => settled v bases pi p' | None => pages (root v) !! pi end;
  settle_packs : ∀ x, x ∈ packs → x ∈ acc.2;
  settle_new : ∀ pi p', ps !! pi = Some p' → acc.1 !! pi = Some (digest p') →
    pages (root v) !! pi = Some (digest p') ∨ (digest p', p') ∈ acc.2 ∨ cat_page v pi = Some (digest p');
  settle_only : ∀ x, x ∈ acc.2 → x ∈ packs ∨ ∃ pi p', ps !! pi = Some p' ∧ x = (digest p', p');
}.

Lemma settle_spec v bases ps packs cancel s0 s : observes cancel → same_view s0 s →
  wp (foldM (settle v bases cancel) (pages (root v), packs) (entries ps)) s (λ r s', same_view s0 s' ∧
    match r with Ok acc => settle_ok v bases ps packs acc | Err _ => True end).
Proof.
  intros Hc Hv. set (seen (rest : list (Z * list Z)) (pi : Z) := if decide (pi ∈ rest.*1) then None else ps !! pi).
  apply (wp_foldM _ _ _ _ (λ acc (rest : list (Z * list Z)) s, same_view s0 s ∧ NoDup rest.*1 ∧
    (∀ pi p, (pi, p) ∈ rest → ps !! pi = Some p) ∧
    (∀ pi, acc.1 !! pi = match seen rest pi with Some p' => settled v bases pi p' | None => pages (root v) !! pi end) ∧
    (∀ x, x ∈ packs → x ∈ acc.2) ∧
    (∀ pi p', seen rest pi = Some p' → acc.1 !! pi = Some (digest p') →
       pages (root v) !! pi = Some (digest p') ∨ (digest p', p') ∈ acc.2 ∨ cat_page v pi = Some (digest p')) ∧
    (∀ x, x ∈ acc.2 → x ∈ packs ∨ ∃ pi p', ps !! pi = Some p' ∧ x = (digest p', p')))).
  - assert (∀ pi, seen (entries ps) pi = None) as Hn.
    { intros pi. rewrite /seen. destruct (decide _) as [|Hi]; [done|]. apply eq_None_not_Some => ?.
      by apply Hi, elem_of_entries_keys. }
    split_and!; [done|apply NoDup_entries|by intros ??; rewrite elem_of_entries|by intros; rewrite Hn|done|by intros ??; rewrite Hn|].
    by left.
  - intros [m ups] [pi p] rest s' (Hv' & Hnd & Hin & Hmap & Hpk & Hnew & Honly). simpl in Hmap, Hpk, Hnew, Honly.
    simpl in Hnd. apply NoDup_cons in Hnd as [Hni Hnd].
    assert (ps !! pi = Some p) as Hp by (apply Hin; by left).
    assert (∀ k, seen rest k = if decide (k = pi) then Some p else seen ((pi, p) :: rest) k) as Hseen.
    { intros k. rewrite /seen /=. repeat case_decide; subst; set_solver. }
    rewrite /settle. cbn [fst snd]. wp_step. eapply wp_mono; [by apply check_cancel_law, observes_stopped|].
    intros [[]|e] s2 Hv2; (assert (same_view s0 s2) as Hv02 by (by trans s')); [|done]. cbv zeta.
    assert (∀ (m' : gmap Z string) (ups' : list (string * list Z)) hp, settled v bases pi p = hp → (∀ k, m' !! k = if decide (k = pi) then hp else m !! k) →
      (∀ x, x ∈ ups → x ∈ ups') → (∀ x, x ∈ ups' → x ∈ ups ∨ x = (digest p, p)) →
      (hp = Some (digest p) → pages (root v) !! pi = Some (digest p) ∨ (digest p, p) ∈ ups' ∨ cat_page v pi = Some (digest p)) →
      same_view s0 s2 ∧ NoDup rest.*1 ∧ (∀ k q, (k, q) ∈ rest → ps !! k = Some q) ∧
      (∀ k, m' !! k = match seen rest k with Some p' => settled v bases k p' | None => pages (root v) !! k end) ∧
      (∀ x, x ∈ packs → x ∈ ups') ∧
      (∀ k p', seen rest k = Some p' → m' !! k = Some (digest p') →
         pages (root v) !! k = Some (digest p') ∨ (digest p', p') ∈ ups' ∨ cat_page v k = Some (digest p')) ∧
      (∀ x, x ∈ ups' → x ∈ packs ∨ ∃ k p', ps !! k = Some p' ∧ x = (digest p', p'))) as Hstep.
    { intros m' ups' hp Hset Hm' Hu1 Hu2 Hh. split_and!; try done.
      - intros k q Hk. apply Hin. by right.
      - intros k. rewrite Hm' Hseen. destruct (decide (k = pi)) as [->|]; [done|by apply Hmap].
      - auto.
      - intros k p'. rewrite Hseen Hm'. destruct (decide (k = pi)) as [->|]; [by intros [= <-]|].
        intros Hk Hmk. destruct (Hnew _ _ Hk Hmk) as [|[|]]; auto.
      - intros x [Hx| ->]%Hu2; [auto|]. right. by exists pi, p. }
    destruct (all_zero (drop 16 p)) eqn:Hz.
    { wp_step. apply (Hstep _ _ None); try done; [by rewrite /settled Hz| |by left].
      intros k. simpl. destruct (decide (k = pi)) as [->|]; [by rewrite lookup_delete_eq|by rewrite lookup_delete_ne]. }
    destruct (bool_decide _ && bool_decide _) eqn:Hbase.
    { wp_step. apply wp_ok_or; [intros h Hh|done]. wp_step.
      apply (Hstep _ _ (Some h)); try done; [by rewrite /settled Hz Hbase| |by left|].
      + intros k. simpl. destruct (decide (k = pi)) as [->|]; [by rewrite lookup_insert_eq|by rewrite lookup_insert_ne].
      + intros [= ->]. auto. }
    assert (settled v bases pi p = Some (digest p)) as Hset by by rewrite /settled Hz Hbase.
    destruct (bool_decide (pages (root v) !! pi = _)) eqn:Hcur; wp_step; apply (Hstep _ _ _ Hset).
    + intros k. simpl. destruct (decide (k = pi)) as [->|]; [|done]. apply bool_decide_eq_true in Hcur.
      rewrite Hmap /seen decide_True //. by left.
    + done.
    + by left.
    + left. by apply bool_decide_eq_true in Hcur.
    + intros k. simpl. destruct (decide (k = pi)) as [->|]; [by rewrite lookup_insert_eq|by rewrite lookup_insert_ne].
    + intros x Hx. apply elem_of_app. by left.
    + intros x [|Hx%list_elem_of_singleton]%elem_of_app; auto.
    + intros _. right. left. apply elem_of_app. right. by apply list_elem_of_singleton.
  - intros [m ups] s' (? & _ & _ & Hmap & Hpk & Hnew & Honly). split; [done|].
    assert (∀ pi, seen [] pi = ps !! pi) as Hs.
    { intros pi. rewrite /seen. destruct (decide _) as [Hx|]; [|done]. by apply elem_of_nil in Hx. }
    split; [intros pi; by rewrite -Hs|done|intros pi p'; rewrite -Hs; apply Hnew|done].
Qed.

(** ** Uploads *)
Definition stored_all (s : S) (id : string) (objs : list (string * list Z)) : Prop :=
  ∀ o, o ∈ objs → objects s !! (id, o.1) = Some o.2.
(** The store after some uploads of [objs]. *)
Definition uploading (s s' : S) (objs : list (string * list Z)) : Prop :=
  grows s s' ∧ heads s' = heads s ∧
  ∀ k b, objects s' !! k = Some b → objects s !! k = Some b ∨ ∃ o, o ∈ objs ∧ b = o.2.

Lemma uploading_trans s1 s2 s3 objs : uploading s1 s2 objs → uploading s2 s3 objs → uploading s1 s3 objs.
Proof.
  intros (G1 & H1 & N1) (G2 & H2 & N2). split; [by trans s2|]. split; [congruence|].
  intros k b [Hk|]%N2; [by apply N1|by right].
Qed.
Lemma uploading_view s s' objs : same_view s s' → uploading s s' objs.
Proof. intros Hv. split; [by apply same_view_grows|]. destruct Hv as (Ho & Hh & _). split; [done|]. intros k b. rewrite Ho. auto. Qed.

Lemma stored_all_grows s s' id objs : grows s s' → stored_all s id objs → stored_all s' id objs.
Proof. intros [Ho _] Hs o Hin. eapply lookup_weaken; eauto. Qed.

Lemma put_uploading cancel s id o objs : observes cancel → o ∈ objs →
  wp (put_chunk_cancellable id o.1 o.2 cancel) s (λ r s', uploading s s' objs ∧
    match r with Ok _ => objects s' !! (id, o.1) = Some o.2 | Err _ => True end).
Proof.
  intros Hc Ho. eapply wp_mono; [by apply put_chunk_cancellable_law|]. intros r s' (Hh & Hb & H).
  assert (∀ s', heads s' = heads s → base_objects s' = base_objects s → objects s' = <[(id, o.1):=o.2]> (objects s) →
    (∀ b0, objects s !! (id, o.1) = Some b0 → b0 = o.2) → uploading s s' objs) as Hput.
  { intros t Hh' Hb' Hoo Hsame. split; [split; [by eapply objects_insert_sub|done]|]. split; [done|].
    intros k b. rewrite Hoo. intros [[<- <-]|[_ ?]]%lookup_insert_Some; eauto. }
  destruct r as [[]|e].
  - destruct H as [Hoo Hsame]. split; [by apply Hput|]. by rewrite Hoo lookup_insert_eq.
  - destruct H as [Hoo|[Hoo Hsame]]; (split; [|done]); [|by apply Hput]. by apply uploading_view.
Qed.

Lemma upload_worker_spec cancel s id l objs : observes cancel → (∀ o, o ∈ l → o ∈ objs) →
  wp (for_each l (λ o, deadline;; check_cancel cancel;; put_chunk_cancellable id o.1 o.2 cancel)) s (λ r s',
    uploading s s' objs ∧ match r with Ok _ => stored_all s' id l | Err _ => True end).
Proof.
  intros Hc Hl. apply (wp_for_each _ _ _ (λ rest s', uploading s s' objs ∧ (∀ o, o ∈ rest → o ∈ objs) ∧
    ∀ o, o ∈ l → o ∈ rest ∨ objects s' !! (id, o.1) = Some o.2)).
  - split; [by apply uploading_view|]. split; [done|]. by left.
  - intros o rest s1 (Hu & Hin & Hst). wp_step. eapply wp_mono; [apply deadline_law|].
    intros [[]|e] s2 Hv2; (assert (uploading s s2 objs) as Hu2 by (by eapply uploading_trans; [|by apply uploading_view])); [|done].
    wp_step. eapply wp_mono; [by apply check_cancel_law|].
    intros [[]|e] s3 Hv3; (assert (uploading s s3 objs) as Hu3 by (by eapply uploading_trans; [|by apply uploading_view])); [|done].
    eapply wp_mono; [apply put_uploading; [done|apply Hin; by left]|].
    intros [[]|e] s4 [Hu4 H4]; (split; [by eapply uploading_trans|]); [|done].
    split; [intros; apply Hin; by right|]. intros o' [Hr|Ho']%Hst.
    + apply elem_of_cons in Hr as [->|]; [by right|by left].
    + right. assert (grows s1 s4) as [Hg _].
      { transitivity s2; [by apply same_view_grows|]. transitivity s3; [by apply same_view_grows|]. apply Hu4. }
      by eapply lookup_weaken.
  - intros s' (Hu & _ & Hst). split; [done|]. intros o [?%elem_of_nil|]%Hst; done.
Qed.

(** Uploading joins all workers: on success every object is stored; whatever
    happens only objects of the list appear. *)
Lemma upload_spec cancel s id objs n : observes cancel → (0 < n)%nat →
  wp (upload_objects id objs n cancel) s (λ r s', uploading s s' objs ∧
    match r with Ok _ => stored_all s' id objs | Err _ => True end).
Proof.
  intros Hc Hn. rewrite /upload_objects.
  apply (wp_strided (λ l, for_each l (λ o, deadline;; check_cancel cancel;; put_chunk_cancellable id o.1 o.2 cancel)) n objs s
    (λ s s', uploading s s' objs) (λ o s', objects s' !! (id, o.1) = Some o.2)); [done|by intros; apply uploading_view|by intros; eapply uploading_trans|..].
  - intros o s1 s2 Hu Ho. eapply lookup_weaken; [exact Ho|apply Hu].
  - intros l s1 Hl. by apply upload_worker_spec.
Qed.

(** ** What the staged pages denote *)
Definition collision_free (K : list Z → Prop) : Prop := ∀ b b', K b → K b' → digest b = digest b' → b = b'.

(** The byte strings a commit deals with. *)
Inductive known (s : S) (v : IndexedVolume) (ps : gmap Z (list Z)) (packs : list (string * list Z)) (b : list Z) : Prop :=
| known_object k : objects s !! k = Some b → known s v ps packs b
| known_base k : base_objects s !! k = Some b → known s v ps packs b
| known_block i : block_view s v i = Some b → known s v ps packs b
| known_dirty i : dirty v !! i = Some b → known s v ps packs b
| known_pack d : (d, b) ∈ packs → known s v ps packs b
| known_page pi : ps !! pi = Some b → known s v ps packs b.

(** The block at a place of an object. *)
Definition content (c : list Z) (off : Z) : list Z := if Zlen c =? CHUNK_BYTES then c else slice c off CHUNK_BYTES.

Lemma cut_content object off hash c x : cut false object off hash c = Ok x → 0 ≤ off → x = content c off.
Proof.
  intros Hc Hoff. rewrite /content. revert Hc. rewrite /cut. cbv zeta. simpl.
  destruct (negb (bool_decide (object = hash))).
  - destruct (_ || _ || _ || _) eqn:E; [done|]. intros Hx. rewrite !orb_false_iff in E. destruct E as [_ Hlt%Z.ltb_ge].
    destruct (negb (Zlen (slice c off CHUNK_BYTES) =? CHUNK_BYTES) || _); [done|]. injection Hx as <-.
    case: Z.eqb_spec => Hl; [|done]. assert (off = 0) as -> by lia. by apply slice_all.
  - destruct (negb (Zlen c =? CHUNK_BYTES) || _) eqn:E; [done|]. intros [= <-].
    apply orb_false_iff in E as [->%negb_false_iff _]. done.
Qed.

Lemma pack_content pk off b : pack_has pk off b → content pk off = b.
Proof.
  intros (H0 & _ & Hl & <-). rewrite /content. case: Z.eqb_spec => E; [|done].
  assert (off = 0) as -> by lia. symmetry. by apply slice_all.
Qed.

Lemma blank_of_zero pi p : shaped pi p → all_zero (drop 16 p) = true → p = blank true pi.
Proof.
  intros Hs Hz. pose proof (shaped_len _ _ Hs) as Hl. apply (shaped_ext pi); [done|apply shaped_blank|]. intros j Hj.
  rewrite record_blank //. apply list_index_eq; [by rewrite Zlen_record // Zlen_zeros|]. rewrite Zlen_record //. intros k Hk.
  assert (drop 16 p = slice p 16 (PACK_PAGE_BYTES - 16)) as E.
  { rewrite /slice take_ge //. rewrite length_drop. rewrite /Zlen in Hl. rewrite /PACK_PAGE_BYTES in Hl |- *. lia. }
  rewrite E in Hz. apply all_zero_true in Hz. apply (f_equal (λ l, index l (j * PACK_SLOT_BYTES + k))) in Hz.
  rewrite index_zeros index_slice in Hz; [plia|plia|]. rewrite index_zeros /record index_slice; [plia..|]. rewrite -Hz. f_equal. lia.
Qed.

(** The cases of a view of a packed volume. *)
Lemma view_blank s v i : packed (root v) = true → view_from s v i None false = Some (blank true i).
Proof. rewrite /view_from. intros ->. reflexivity. Qed.
Lemma view_base_blank s v i : packed (root v) = true → view_from s v i None true = Some (packed_page (blank false i)).
Proof. rewrite /view_from. intros ->. reflexivity. Qed.
Lemma view_private s v i h : packed (root v) = true → view_from s v i (Some h) false =
  match objects s !! (volume (root v), h) with
  | Some b => if check_page true (size (root v)) i h b then Some b else None
  | None => None end.
Proof. rewrite /view_from. intros ->. simpl. destruct (objects s !! _) as [b|]; [|done]. simpl. by destruct (check_page _ _ _ _ _). Qed.
Lemma page_view_private s v i h : packed (root v) = true → pages (root v) !! i = Some h → cat_page v i ≠ Some h →
  page_view s v i = view_from s v i (Some h) false.
Proof.
  intros Hp Hh Hc. rewrite /page_view Hh. f_equal. rewrite /page_inherited bool_decide_eq_true_2 //.
  rewrite /cat_page in Hc. destruct (cat v) as [c|]; [|done]. by apply bool_decide_eq_false_2.
Qed.
Lemma page_view_none s v i : packed (root v) = true → pages (root v) !! i = None → page_view s v i = Some (blank true i).
Proof. intros Hp Hh. rewrite /page_view Hh. by apply view_blank. Qed.

Lemma blank_packed pi : packed_page (blank false pi) = blank true pi.
Proof.
  destruct (shaped_packed pi (blank false pi) (plain_blank pi)) as [Hs Hr].
  apply (shaped_ext pi); [done|apply shaped_blank|]. intros j Hj. 
  etrans; [exact (Hr j Hj)|]. etrans; [|symmetry; exact (record_blank pi j Hj)].
  assert (slice (blank false pi) (16 + j * 32) 32 = zeros 32) as E.
  2: { rewrite E. reflexivity. }
  rewrite /blank. assert (Zlen (to_be_bytes 8 pi) = 8) as H8 by by rewrite Zlen_to_be_bytes.
  assert (Zlen (zeros CHUNK_BYTES) = 65536) as Hz by (by apply Zlen_zeros).
  assert (Zlen Page.MAGIC = 8) as Hm by done.
  assert (Zlen (splice (zeros CHUNK_BYTES) 0 Page.MAGIC) = 65536) as Hz1 by (rewrite Zlen_splice; lia).
  rewrite !slice_splice_disj; [plia..|]. apply slice_zeros; [plia|done|change CHUNK_BYTES with 65536; plia].
Qed.

Lemma base_view_blank s v i : packed (root v) = true → cat_page v i = None → base_view s v i = Some (blank true i).
Proof.
  intros Hp Hc. rewrite /base_view Hc. etrans; [exact (view_base_blank s v i Hp)|]. exact (f_equal Some (blank_packed i)).
Qed.

Section after.
Variables (s0 : S) (id : string) (v : IndexedVolume) (ps bases : gmap Z (list Z)) (packs : list (string * list Z)).
Hypotheses (Hok : vol_ok s0 id v) (Hst : staged_ok s0 v ps bases packs) (Hnc : collision_free (known s0 v ps packs)).

Lemma block_committed i : in_range v i → ∃ x, block_view s0 v i = Some x ∧
  ∃ p q, page_pair s0 v (i / SLOTS) p q ∧ rec_view s0 v (record p (i mod SLOTS)) (record q (i mod SLOTS)) = Some x.
Proof using All.
  intros Hi. destruct (ok_blocks _ _ _ Hok i Hi) as [x Hx]. exists x. split; [done|].
  destruct (ok_pair _ _ _ (i / SLOTS) Hok (range_page _ _ Hi)) as (p & q & Hpair). exists p, q. split; [done|].
  by rewrite -(pair_block _ _ _ _ _ Hpair).
Qed.

(** A block of the base image resolves. *)
Lemma base_record i p q h : in_range v i → page_pair s0 v (i / SLOTS) p q →
  rslot (record q (i mod SLOTS)) = Some h → ∃ r b, base (root v) = Some r ∧ base_objects s0 !! (Base.image r, h) = Some b ∧
    Zlen b = CHUNK_BYTES ∧ digest b = h.
Proof using All.
  intros Hi Hpair Hs. destruct (ok_base _ _ _ Hok i Hi) as (q' & Hq' & Hall).
  assert (q' = q) as -> by (destruct Hpair; congruence). apply Hall.
  rewrite (slot_record (i / SLOTS)) //. by destruct Hpair as [_ _ _ []].
Qed.

Lemma direct_slot i p q h : page_pair s0 v (i / SLOTS) p q → rslot (record q (i mod SLOTS)) = Some h →
  robject (record q (i mod SLOTS)) = Some (h, 0).
Proof using All.
  intros Hpair Hs. destruct (pair_direct _ _ _ _ _ Hpair (i mod SLOTS) (slot_mod_bound i)) as (raw & Hl & E).
  rewrite E in Hs |- *. rewrite rslot_direct // in Hs. destruct (all_zero raw) eqn:Hz; [done|]. injection Hs as <-.
  by apply robject_direct.
Qed.

(** A block inside a pack already committed. *)
Lemma located_committed i p q : in_range v i → page_pair s0 v (i / SLOTS) p q → located (record p (i mod SLOTS)) →
  ∃ c, objects s0 !! (id, hex (slice (record p (i mod SLOTS)) 32 32)) = Some c ∧
    sha256 (content c (roffset (record p (i mod SLOTS)))) = slice (record p (i mod SLOTS)) 0 32.
Proof using All.
  intros Hi Hpair Hloc. pose proof Hpair as [Hp Hq [Hs Hg Hz] [Hsq _ _] [Hby _] _ _].
  destruct (block_committed i Hi) as (x & _ & p0 & q0 & Hpair0 & Hx).
  destruct (pair_unique _ _ _ _ _ _ _ Hpair Hpair0) as [<- <-].
  pose proof (ok_private _ _ _ Hok i p q Hi Hp Hq Hloc) as Hpriv. rewrite !(slot_record (i / SLOTS)) // in Hpriv.
  set (r := record p (i mod SLOTS)) in *. destruct Hloc as [L1 L2].
  assert (rslot r = Some (hex (slice r 0 32))) as Hsl by by rewrite /rslot L1.
  assert (robject r = Some (hex (slice r 32 32), roffset r)) as Hob by by rewrite /robject Hsl /= L2.
  rewrite /rec_view Hsl Hob /= in Hx.
  assert (rec_inherited r (record q (i mod SLOTS)) (hex (slice r 0 32)) = false) as Hinh.
  { rewrite /rec_inherited bool_decide_eq_false_2 //. by rewrite -Hsl. }
  rewrite Hinh in Hx. destruct (proj1 (root_ok_spec _ _) (ok_root _ _ _ Hok)) as (_&_&_&_&Hvol&_). rewrite Hvol in Hx.
  destruct (objects s0 !! _) as [c|] eqn:Hc; [|done]. simpl in Hx. exists c. split; [done|].
  destruct (cut _ _ _ _ _) as [y|] eqn:Hcut; [|done]. injection Hx as ->.
  assert (bytes r) as Hbr by (by apply bytes_slice).
  rewrite -(cut_content _ _ _ _ _ Hcut); [apply from_be_bytes_bound; by apply bytes_slice|].
  apply cut_ok in Hcut as (_ & _ & Hd). rewrite -(unhex_digest x) Hd unhex_hex //. by apply bytes_slice.
Qed.

(** *** A store that has the packs *)
Variable s2 : S.
Hypotheses (Hgrow : grows s0 s2).

Definition has_packs : Prop := ∀ pk, (digest pk, pk) ∈ packs → objects s2 !! (id, digest pk) = Some pk.

Lemma volume_id : volume (root v) = id.
Proof using Hok. by destruct (proj1 (root_ok_spec _ _) (ok_root _ _ _ Hok)) as (_&_&_&_&?&_). Qed.

(** The staged record of a block, resolved or not, is well formed, and its place
    holds the block. *)
Lemma staged_record pi p' j : ps !! pi = Some p' → has_packs → 0 ≤ j < SLOTS →
  record_good (record p' j) ∧ (nblocks v ≤ pi * SLOTS + j → record p' j = zeros PACK_SLOT_BYTES) ∧
  (located (record p' j) → ∃ c, objects s2 !! (id, hex (slice (record p' j) 32 32)) = Some c ∧
     slice (record p' j) 0 32 = sha256 (content c (roffset (record p' j)))).
Proof using All.
  intros Hp' Hpk Hj. destruct (out_page _ _ _ _ _ Hst _ _ Hp') as (Hpi & p & q & Hpair & _ & Hs & Hb & Hrec).
  specialize (Hrec j Hj). pose proof Hpair as [_ _ [Hsp Hg Hz] _ _ _ _].
  assert (record_good (record p j) ∧ (nblocks v ≤ pi * SLOTS + j → record p j = zeros PACK_SLOT_BYTES) ∧
    (located (record p j) → ∃ c, objects s2 !! (id, hex (slice (record p j) 32 32)) = Some c ∧
       slice (record p j) 0 32 = sha256 (content c (roffset (record p j))))) as Hold.
  { split_and!; [by apply Hg|by apply Hz|]. intros Hloc.
    destruct (decide (pi * SLOTS + j < nblocks v)) as [Hlt|Hge].
    - destruct (range_of_page v pi j Hpi Hj Hlt) as (Hin & E1 & E2).
      destruct (located_committed (pi * SLOTS + j) p q) as (c & Hc & E); rewrite ?E1 ?E2 //.
      rewrite E2 in Hc, E. exists c. split; [|done]. eapply lookup_weaken; [done|apply Hgrow].
    - exfalso. rewrite (Hz j Hj) in Hloc; [lia|]. by destruct Hloc. }
  destruct (dirty v !! (pi * SLOTS + j)) as [b|] eqn:Hd; [|by rewrite Hrec].
  destruct (ok_dirty _ _ _ Hok _ _ Hd) as (Hir & _ & _).
  destruct Hrec as [Hzero|Hnz Hsame|Hnz Hbase|pk off k b' Hnz Hne Hin Hhas Hk Hdg].
  - split; [apply good_empty|]. split; [done|]. by intros [? _].
  - exact Hold.
  - split; [apply good_direct, Zlen_sha|]. split; [rewrite /in_range in Hir; lia|].
    intros Hl. by apply direct_not_located in Hl; [|apply Zlen_sha].
  - pose proof Hhas as (Ho0 & Hom & Hol & _). destruct (out_packs _ _ _ _ _ Hst _ _ Hin) as [_ [_ Hsm _]].
    pose proof chunk_bytes_pos. assert (MAX_OBJECT_BYTES < 2 ^ 32) as Hmax by by vm_compute.
    assert (0 ≤ off < 2 ^ 32) as Hoff by lia.
    split; [apply good_packed; [apply Zlen_sha|apply Zlen_sha|done|apply sha256_nonzero|apply sha256_nonzero|done|lia]|].
    split; [rewrite /in_range in Hir; lia|]. intros _.
    destruct (packed_parts (sha256 b) (sha256 pk) off) as (-> & -> & -> & _); [apply Zlen_sha..|done|].
    exists pk. split; [by apply Hpk|]. rewrite (pack_content _ _ _ Hhas). symmetry. by apply digest_inj_sha.
Qed.

(** A staged page is accepted when it is read back. *)
Lemma staged_accepted pi p' : ps !! pi = Some p' → has_packs →
  check_page true (size (root v)) pi (digest p') p' = true.
Proof using All.
  intros Hp' Hpk. destruct (out_page _ _ _ _ _ Hst _ _ Hp') as (Hpi & p & q & Hpair & _ & Hs & _ & _).
  pose proof (page_index v id pi (ok_root _ _ _ Hok) Hpi) as Hu.
  apply (packed_check _ _ _ _ (λ k, match objects s2 !! (id, hex k.1) with Some c => sha256 (content c k.2) | None => [] end)).
  - done.
  - apply Hpi.
  - done.
  - done.
  - intros j Hj. by apply (staged_record pi p' j).
  - intros j Hj. by apply (staged_record pi p' j).
  - intros j Hj Hl. destruct (staged_record pi p' j) as (_ & _ & H); [done..|]. destruct (H Hl) as (c & Hc & E). by rewrite /= Hc.
Qed.

(** *** The next handle *)
Variable v' : IndexedVolume.
Hypotheses (Hsame : same_base v v')
  (Hmap : ∀ pi, pages (root v') !! pi = match ps !! pi with Some p' => settled v bases pi p' | None => pages (root v) !! pi end)
  (Hnew : ∀ pi p', ps !! pi = Some p' → pages (root v') !! pi = Some (digest p') →
     pages (root v) !! pi = Some (digest p') ∨ objects s2 !! (id, digest p') = Some p' ∧ has_packs).

(** A staged page is not a page of the base image. *)
Lemma staged_not_base pi p' : ps !! pi = Some p' → cat_page v pi ≠ Some (digest p').
Proof using Hok Hst Hnc.
  intros Hp' Hcat. destruct (out_page _ _ _ _ _ Hst _ _ Hp') as (Hpi & p & q & Hpair & _ & Hs & _ & _).
  pose proof (pair_base _ _ _ _ _ Hpair) as Hq. rewrite /base_view /view_from Hcat (ok_packed _ _ _ Hok) /= in Hq.
  destruct (base (root v)) as [r|]; [|done]. simpl in Hq. destruct (base_objects s0 !! _) as [b|] eqn:Hb; [|done]. simpl in Hq.
  destruct (check_page false _ _ _ _) eqn:Hc; [|done]. pose proof (check_digest _ _ _ _ _ Hc) as Hd.
  pose proof (check_length _ _ _ _ _ Hc) as Hl. assert (b = p') as ->.
  { apply Hnc; [by eapply known_base|by eapply known_page|done]. }
  rewrite (shaped_len _ _ Hs) in Hl. by vm_compute in Hl.
Qed.

Lemma page_after pi p' : ps !! pi = Some p' → page_view s2 v' pi = Some p'.
Proof using All.
  intros Hp'. destruct (out_page _ _ _ _ _ Hst _ _ Hp') as (Hpi & p & q & Hpair & Hq & Hs & Hb & Hrec).
  pose proof (Hmap pi) as Hm. rewrite Hp' in Hm. pose proof Hsame as (Ev & Es & Eb & Ec & Ep).
  assert (packed (root v') = true) as Hpk' by (rewrite Ep; apply Hok).
  assert (pages (root v') !! pi = None → p' = blank true pi → page_view s2 v' pi = Some p') as Hblank.
  { intros Hn ->. by apply page_view_none. }
  rewrite /settled Hq in Hm. destruct (all_zero (drop 16 p')) eqn:Hz; [by apply Hblank, blank_of_zero|].
  assert (cat_page v' pi = cat_page v pi) as Hcp by by rewrite /cat_page Ec.
  destruct (bool_decide (is_Some (cat v)) && bool_decide (Some p' = Some q)) eqn:Hbase.
  { apply andb_prop in Hbase as [_ Heq%bool_decide_eq_true%(inj Some)]. subst p'.
    pose proof (pair_base _ _ _ _ _ Hpair) as Hqv. rewrite /base_view in Hqv.
    destruct (cat_page v pi) as [h|] eqn:Hcat.
    - rewrite /page_view Hm. assert (page_inherited v' pi (Some h) = true) as ->.
      { rewrite /page_inherited bool_decide_eq_true_2 //=. rewrite /cat_page in Hcp.
        destruct (cat v') as [c|]; [|done]. by apply bool_decide_eq_true_2. }
      by eapply view_from_grows.
    - apply Hblank; [done|]. rewrite view_base_blank in Hqv; [apply Hok|].
      etrans; [|exact (blank_packed pi)]. symmetry. exact (inj Some _ _ Hqv). }
  pose proof (staged_not_base pi p' Hp') as Hnb.
  assert (objects s2 !! (id, digest p') = Some p' → check_page true (size (root v)) pi (digest p') p' = true →
    page_view s2 v' pi = Some p') as Hfin.
  { intros Ho Hc. rewrite (page_view_private s2 v' pi (digest p')) // ?Hcp // view_private // Ev volume_id Ho Es Hc. done. }
  destruct (Hnew _ _ Hp' Hm) as [Hold|[Ho Hpk]]; [|by apply Hfin, staged_accepted].
  pose proof (pair_page _ _ _ _ _ Hpair) as Hpv. pose proof (ok_packed _ _ _ Hok) as Hpkd.
  rewrite (page_view_private s0 v pi (digest p')) // view_private // volume_id in Hpv.
  destruct (objects s0 !! (id, digest p')) as [b|] eqn:Hob; [|done].
  destruct (check_page true _ _ _ b) eqn:Hc; [|done].
  assert (b = p') as ->. { apply Hnc; [by eapply known_object|by eapply known_page|by eapply check_digest]. }
  apply Hfin; [|done]. eapply lookup_weaken; [done|apply Hgrow].
Qed.

Lemma base_after i : base_view s2 v' i = base_view s0 v i.
Proof using Hgrow Hsame. apply base_view_same; [by destruct Hgrow|done]. Qed.

(** A dirty block whose record is final reads back. *)
Lemma done_view i p q b r' : in_range v i → page_pair s0 v (i / SLOTS) p q → has_packs → dirty v !! i = Some b →
  rec_done v packs b (record p (i mod SLOTS)) (record q (i mod SLOTS)) r' →
  rec_view s2 v' r' (record q (i mod SLOTS)) = Some b.
Proof using All.
  intros Hi Hpair Hpk Hd Hdone. destruct (ok_dirty _ _ _ Hok _ _ Hd) as (_ & Hl & _).
  pose proof Hsame as (Ev & Es & Eb & Ec & Ep). pose proof volume_id as Hvol.
  assert (known s0 v ps packs b) as Hkb by by eapply known_dirty.
  destruct Hdone as [Hz|Hnz Hs|Hnz Hs|pk off k b' Hnz Hne Hin Hhas Hk Hdg].
  - rewrite /rec_view rslot_empty. f_equal. symmetry. rewrite -Hl. by apply all_zero_true.
  - destruct (block_committed i Hi) as (x & Hx & p0 & q0 & Hpair0 & Hv).
    destruct (pair_unique _ _ _ _ _ _ _ Hpair Hpair0) as [<- <-].
    destruct (rec_view_digest _ _ _ _ _ _ Hv Hs) as [Hdx _].
    assert (x = b) as -> by (apply Hnc; [by eapply known_block|done|done]). by eapply rec_view_grows.
  - destruct (base_record i p q _ Hi Hpair Hs) as (r & x & Hr & Hx & Hlx & Hdx).
    assert (x = b) as -> by (apply Hnc; [by eapply known_base|done|done]).
    assert (rslot (rec_direct (sha256 b)) = Some (digest b)) as Hsl by by rewrite rslot_direct ?sha256_nonzero //; apply Zlen_sha.
    assert (robject (rec_direct (sha256 b)) = Some (digest b, 0)) as Hob by (apply robject_direct; [apply Zlen_sha|apply sha256_nonzero]).
    rewrite /rec_view Hsl Hob /rec_inherited Hs (direct_slot i p q _ Hpair Hs) !bool_decide_eq_true_2 //= Eb Hr /=.
    destruct Hgrow as [_ ->]. rewrite Hx /= /cut /= Hlx Z.eqb_refl bool_decide_eq_true_2 //.
  - pose proof Hhas as (Ho0 & Hom & Hol & Hsl'). destruct (out_packs _ _ _ _ _ Hst _ _ Hin) as [_ [Hpm Hsm _]].
    pose proof chunk_bytes_pos. assert (MAX_OBJECT_BYTES < 2 ^ 32) as Hmax by by vm_compute.
    assert (0 ≤ off < 2 ^ 32) as Hoff by lia.
    assert (b' = b) as -> by (apply Hnc; [by eapply known_dirty|done|done]).
    assert (rslot (rec_packed (sha256 b) (sha256 pk) off) = Some (digest b)) as Hsl.
    { apply rslot_packed; [apply Zlen_sha|apply Zlen_sha|done|apply sha256_nonzero]. }
    assert (robject (rec_packed (sha256 b) (sha256 pk) off) = Some (digest pk, off)) as Hob.
    { apply robject_packed; [apply Zlen_sha|apply Zlen_sha|done|apply sha256_nonzero|apply sha256_nonzero]. }
    rewrite /rec_view Hsl Hob /rec_inherited (bool_decide_eq_false_2 (rslot _ = _)) //= Ev Hvol (Hpk _ Hin) /=.
    rewrite /cut /=. case_bool_decide as Hobj; simpl.
    + assert (pk = b) as -> by (apply Hnc; [by eapply known_pack|done|done]).
      rewrite Hl Z.eqb_refl ?bool_decide_eq_true_2 //.
    + rewrite /is_multiple_of Hpm Z.eqb_refl bool_decide_eq_true_2 //.
      assert (MAX_OBJECT_BYTES <? Zlen pk = false) as -> by by apply Z.ltb_ge.
      assert (Zlen pk <? off + CHUNK_BYTES = false) as -> by by apply Z.ltb_ge.
      simpl. rewrite Hsl' Hl Z.eqb_refl bool_decide_eq_true_2 //.
Qed.

(** The next handle denotes the blocks of the old one, dirty ones included. *)
Lemma block_after i : in_range v i → has_packs → block_view s2 v' i = Some (block s0 v i).
Proof using All.
  intros Hi Hpk. destruct (block_committed i Hi) as (x & Hx & p & q & Hpair & Hv).
  pose proof Hpair as [Hp Hq [Hsp _ _] [Hsq _ _] _ _ Hn]. rewrite /block /committed Hx /=.
  pose proof Hsame as (_ & _ & _ & Ec & _). rewrite -base_after in Hq. rewrite -Ec in Hn.
  pose proof (slot_mod_bound i) as Hj. assert (i / SLOTS * SLOTS + i mod SLOTS = i) as Hdm by (unfold SLOTS; dlia).
  destruct (ps !! (i / SLOTS)) as [p'|] eqn:Hp'.
  - destruct (out_page _ _ _ _ _ Hst _ _ Hp') as (_ & p0 & q0 & Hpair0 & _ & Hs & _ & Hrec).
    destruct (pair_unique _ _ _ _ _ _ _ Hpair Hpair0) as [<- <-]. specialize (Hrec _ Hj). rewrite Hdm in Hrec.
    rewrite (block_rec _ _ _ p' q) //; [by apply page_after|by intros; apply Hn|].
    destruct (dirty v !! i) as [b|] eqn:Hd; [by eapply done_view|]. rewrite Hrec. by eapply rec_view_grows.
  - assert (dirty v !! i = None) as ->.
    { apply eq_None_not_Some. intros [b Hd]. destruct (out_done _ _ _ _ _ Hst _ _ Hd). congruence. }
    rewrite (block_rec _ _ _ p q) //; [|by intros; apply Hn|by eapply rec_view_grows].
    eapply page_view_grows; [done|done| |done]. by rewrite Hmap Hp'.
Qed.

(** Nothing inside a pack is the base image's. *)
Lemma private_after i p' q : in_range v i → page_view s2 v' (i / SLOTS) = Some p' → base_view s2 v' (i / SLOTS) = Some q →
  located (record p' (i mod SLOTS)) → slot q i ≠ slot p' i.
Proof using All.
  intros Hi Hp' Hq Hloc. rewrite base_after in Hq.
  destruct (block_committed i Hi) as (_ & _ & p & q0 & Hpair & _). pose proof Hpair as [Hp Hq0 [Hsp _ _] [Hsq _ _] _ _ _].
  assert (q0 = q) as -> by congruence.
  pose proof (slot_mod_bound i) as Hj. assert (i / SLOTS * SLOTS + i mod SLOTS = i) as Hdm by (unfold SLOTS; dlia).
  assert (∀ p1, shaped (i / SLOTS) p1 → record p1 (i mod SLOTS) = record p (i mod SLOTS) → located (record p1 (i mod SLOTS)) →
    slot q i ≠ slot p1 i) as Hold.
  { intros p1 Hs1 E Hl. rewrite E in Hl. pose proof (ok_private _ _ _ Hok i p q Hi Hp Hq Hl) as Hpriv.
    rewrite !(slot_record (i / SLOTS)) // in Hpriv. by rewrite !(slot_record (i / SLOTS)) // E. }
  destruct (ps !! (i / SLOTS)) as [p1|] eqn:Hp1.
  - rewrite (page_after _ _ Hp1) in Hp'. apply (inj Some) in Hp' as <-.
    destruct (out_page _ _ _ _ _ Hst _ _ Hp1) as (_ & p0 & q1 & Hpair0 & _ & Hs & _ & Hrec).
    destruct (pair_unique _ _ _ _ _ _ _ Hpair Hpair0) as [<- <-]. specialize (Hrec _ Hj). rewrite Hdm in Hrec.
    destruct (dirty v !! i) as [b|] eqn:Hd; [|by apply Hold].
    pose proof (rslot_done _ _ _ _ _ _ Hrec) as Hsl. rewrite !(slot_record (i / SLOTS)) // Hsl.
    remember (record p1 (i mod SLOTS)) as r' eqn:Hr'. destruct Hrec as [Hz|Hnz Hs'|Hnz Hs'|pk off k b' Hnz Hne ? ? ? ?].
    + by destruct Hloc.
    + rewrite -Hsl. rewrite -!(slot_record (i / SLOTS)) //. rewrite Hr' in Hloc.
      eapply (ok_private _ _ _ Hok i p q); try done. by rewrite Hr'.
    + by apply direct_not_located in Hloc; [|apply Zlen_sha].
    + by rewrite Hnz.
  - assert (page_view s2 v' (i / SLOTS) = Some p) as Hpv.
    { eapply page_view_grows; [done|done| |done]. by rewrite Hmap Hp1. }
    rewrite Hpv in Hp'. apply (inj Some) in Hp' as <-. by apply Hold.
Qed.
End after.

(** ** The next root *)
Lemma load_pages_valid b count l m m' : bytes b → Zlen b = CHUNK_BYTES → Forall (λ i, 0 ≤ i < Base.PAGES) l →
  (∀ i h, m !! i = Some h → i < count ∧ valid_hash h = true) →
  fold_left (Base.load_page b count) l (Ok m) = Ok m' → ∀ i h, m' !! i = Some h → i < count ∧ valid_hash h = true.
Proof.
  intros Hb Hl. assert (∀ e l, fold_left (Base.load_page b count) l (Err e) = Err e) as Herr by (by intros e l0; induction l0).
  intros Hr. revert m. induction Hr as [|i l Hi Hr IH]; intros m Hm; [by intros [= <-]|]. simpl.
  destruct (all_zero _); [by apply IH|]. destruct (count <=? i) eqn:Hci; [by rewrite Herr|]. apply IH.
  intros k h [[<- <-]|[_ ?]]%lookup_insert_Some; [|eauto]. split; [by apply Z.leb_gt in Hci|].
  apply valid_hash_hex; [by apply bytes_slice|].
  assert (Zlen (slice b (Base.HEADER + i * 32) 32) = 32) as E.
  { assert (CHUNK_BYTES = 65536) as HC by done. apply Zlen_slice; unfold Base.HEADER, Base.PAGES in *; lia. }
  rewrite /Zlen in E. lia.
Qed.

Lemma parse_valid r b c : bytes b → Base.parse r b = Ok c →
  Base.cat_size c ≠ 0 ∧ Base.cat_size c ≤ MAX_SIZE ∧ Base.cat_size c mod CHUNK_BYTES = 0 ∧
  ∀ i h, Base.cat_pages c !! i = Some h → i < div_ceil (Base.cat_size c / CHUNK_BYTES) SLOTS ∧ valid_hash h = true.
Proof.
  intros Hb. rewrite /Base.parse. destruct (_ || _ || _ || _ || _) eqn:E; [done|].
  rewrite !orb_false_iff in E. destruct E as ((((Hl & _) & _) & _) & _). apply negb_false_iff, Z.eqb_eq in Hl.
  destruct (_ || _ || _) eqn:Es; [done|]. rewrite !orb_false_iff in Es. destruct Es as ((E1%Z.eqb_neq & E2%Z.ltb_ge) & E3).
  apply negb_false_iff, Z.eqb_eq in E3. destruct (fold_left _ _ _) as [m|] eqn:Hf; [|done]. intros [= <-]. simpl.
  split_and!; [done|done|done|]. eapply load_pages_valid; [exact Hb|exact Hl| | |exact Hf].
  - apply Forall_forall. intros i Hi%elem_of_seqZ. unfold Base.PAGES in *. lia.
  - intros i h. by rewrite lookup_empty.
Qed.

Lemma next_root_ok r id mark gen : root_ok r id = true →
  (∀ m, mark = Some m → valid_hash (rep_id m) = true ∧ sequence m ≠ 0) → packed r = true →
  root_ok (next_root r mark gen) id = true ∧ packed (next_root r mark gen) = true.
Proof.
  rewrite !root_ok_spec /next_root /packed /mark_format. intros (Hf & Hrep & Hbase & Hm & Hv & Hs0 & Hs & Hsm & Hpg) Hmark Hp.
  destruct mark as [m|]; simpl; [|by split_and!].
  rewrite /packed Hp. case_bool_decide as Hb; simpl; split_and!; try done; by intros m' [= <-]; apply Hmark.
Qed.

Section next.
Variables (s0 : S) (id : string) (v : IndexedVolume) (ps bases : gmap Z (list Z)) (packs : list (string * list Z)).
Hypotheses (Hok : vol_ok s0 id v) (Hst : staged_ok s0 v ps bases packs).

Lemma next_pages_ok r m : root_ok r id = true → size r = size (root v) →
  (∀ pi, m !! pi = match ps !! pi with Some p' => settled v bases pi p' | None => pages (root v) !! pi end) →
  root_ok (with_pages r m) id = true.
Proof using All.
  intros Hr Hs Hm. pose proof (ok_root _ _ _ Hok) as Hrv. rewrite root_ok_spec in Hr. rewrite root_ok_spec in Hrv. rewrite root_ok_spec.
  destruct Hr as (? & ? & ? & ? & ? & ? & ? & ? & _). destruct Hrv as (_&_&_&_&_&_&_&_&Hpg).
  simpl. split_and!; try done. intros pi h. rewrite Hm Hs. destruct (ps !! pi) as [p'|] eqn:Hp'; [|apply Hpg].
  intros Hset. destruct (out_page _ _ _ _ _ Hst _ _ Hp') as ((Hpi0 & Hpi) & _).
  split.
  { rewrite /nblocks in Hpi. rewrite /div_ceil /SLOTS in Hpi |- *. dlia. }
  rewrite /settled in Hset. destruct (all_zero _); [done|]. destruct (_ && _); [|injection Hset as <-; apply valid_hash_digest].
  rewrite /cat_page in Hset. pose proof (ok_cat _ _ _ Hok) as Hc. destruct (cat v) as [c|]; [|done]. simpl in Hset.
  destruct (base (root v)) as [br|]; [|done]. destruct Hc as [(_ & _ & b & Hb & Hparse) _].
  destruct (parse_valid br b c) as (_ & _ & _ & Hv); [by eapply (proj2 (ok_typed _ _ _ Hok))|done|]. by eapply Hv.
Qed.

Variables (s2 : S) (v' : IndexedVolume).
Hypotheses (Hgrow : grows s0 s2) (Hty : typed s2) (Hnc : collision_free (known s0 v ps packs))
  (Hsame : same_base v v') (Hroot : root_ok (root v') id = true) (Hdirty : dirty v' = ∅)
  (Hmap : ∀ pi, pages (root v') !! pi = match ps !! pi with Some p' => settled v bases pi p' | None => pages (root v) !! pi end).

Lemma next_cat : match base (root v'), cat v' with
  | None, None => True
  | Some r, Some c => cat_stored s2 r c ∧ Base.cat_size c = size (root v')
  | _, _ => False end.
Proof using Hok Hgrow Hsame.
  pose proof Hsame as (_ & -> & -> & -> & _). pose proof (ok_cat _ _ _ Hok) as Hc.
  destruct (base (root v)), (cat v); try done. rewrite /cat_stored. by destruct Hgrow as [_ ->].
Qed.

Lemma next_base i : in_range v' i → ∃ q, base_view s2 v' (i / SLOTS) = Some q ∧
  ∀ h, slot q i = Some h → ∃ r b, base (root v') = Some r ∧ base_objects s2 !! (Base.image r, h) = Some b ∧
      Zlen b = CHUNK_BYTES ∧ digest b = h.
Proof using Hok Hgrow Hsame.
  rewrite /in_range /nblocks. pose proof Hsame as (_ & -> & -> & _). intros Hi.
  assert (base_view s2 v' (i / SLOTS) = base_view s0 v (i / SLOTS)) as -> by (apply base_view_same; [apply Hgrow|done]).
  destruct Hgrow as [_ ->]. by apply (ok_base _ _ _ Hok).
Qed.

(** The published handle is well formed and denotes the same disk. *)
Lemma vol_after : has_packs id packs s2 → (∀ pi p', ps !! pi = Some p' → pages (root v') !! pi = Some (digest p') →
     pages (root v) !! pi = Some (digest p') ∨ objects s2 !! (id, digest p') = Some p') →
  vol_ok s2 id v' ∧ disk_eq (size (root v)) (disk_of s2 v') (disk_of s0 v).
Proof using All.
  intros Hpk Hnew. pose proof Hsame as (Ev & Es & Eb & Ec & Ep).
  assert (∀ i, in_range v' i → in_range v i) as Hrg by (intros i; by rewrite /in_range /nblocks Es).
  assert (∀ i, in_range v i → block_view s2 v' i = Some (block s0 v i)) as Hbl.
  { intros i Hi. eapply block_after; try done. intros pi p' H1 H2. destruct (Hnew _ _ H1 H2); auto. }
  split.
  - split; [done|by rewrite Ep; apply Hok|done|apply next_cat|apply next_base| | |].
    + intros i Hi. rewrite Hbl; [by apply Hrg|done].
    + intros i p q Hi. eapply private_after; try done; [|by apply Hrg].
      intros pi p' H1 H2. destruct (Hnew _ _ H1 H2); auto.
    + intros i b. by rewrite Hdirty lookup_empty.
  - apply of_blocks_ext. intros i Hi Hlt. rewrite /block Hdirty lookup_empty /= /committed Hbl //.
    split; [done|]. apply chunk_index_lt; [|done]. by destruct (proj1 (root_ok_spec _ _) (ok_root _ _ _ Hok)) as (_&_&_&_&_&_&_&?&_).
Qed.
End next.

(** A handle on the same root, over a store that has grown. *)
Record rehandled (v v' : IndexedVolume) : Prop := {
  re_base : same_base v v';
  re_pages : pages (root v') = pages (root v);
  re_dirty : ∀ i b, dirty v' !! i = Some b → dirty v !! i = Some b;
}.

Lemma vol_grows s0 s1 id v v' : vol_ok s0 id v → grows s0 s1 → typed s1 → rehandled v v' → root_ok (root v') id = true →
  vol_ok s1 id v' ∧ ∀ i, in_range v i → block_view s1 v' i = block_view s0 v i.
Proof.
  intros Hok Hg Hty [Hsb Hpages Hdirty] Hroot. pose proof Hsb as (Ev & Es & Eb & Ec & Ep).
  assert (∀ i, base_view s1 v' i = base_view s0 v i) as Hbase by (intros i; apply base_view_same; [apply Hg|done]).
  assert (∀ i p q, page_pair s0 v i p q → page_view s1 v' i = Some p) as Hpv.
  { intros i p q [Hp _ _ _ _ _ _]. eapply page_view_grows; [done|done|by rewrite Hpages|done]. }
  assert (∀ i, in_range v i → block_view s1 v' i = block_view s0 v i) as Hbv.
  { intros i Hi. destruct (ok_blocks _ _ _ Hok i Hi) as [x Hx]. rewrite Hx.
    destruct (ok_pair _ _ _ (i / SLOTS) Hok (range_page _ _ Hi)) as (p & q & Hpair).
    rewrite (pair_block _ _ _ _ _ Hpair) in Hx. pose proof Hpair as [Hp Hq [Hsp _ _] [Hsq _ _] _ _ Hn].
    rewrite (block_rec _ _ _ p q); [by eapply Hpv|by rewrite Hbase|done|done| |by eapply rec_view_grows].
    rewrite Ec. intros. apply Hn; [done|apply slot_mod_bound]. }
  assert (∀ i, in_range v' i ↔ in_range v i) as Hrg by (intros i; by rewrite /in_range /nblocks Es).
  split; [|done]. split; [done|rewrite Ep; apply Hok|done|by eapply (next_cat s0 id v)| | | |].
  - by eapply (next_base s0 id v).
  - intros i Hi%Hrg. rewrite Hbv //. by apply Hok.
  - intros i p q Hi%Hrg Hp Hq. rewrite Hbase in Hq.
    destruct (ok_pair _ _ _ (i / SLOTS) Hok (range_page _ _ Hi)) as (p0 & q0 & Hpair).
    rewrite (Hpv _ _ _ Hpair) in Hp. apply (inj Some) in Hp as <-. apply (ok_private _ _ _ Hok); [done|apply Hpair|done].
  - intros i b Hb. rewrite Hrg. by apply (ok_dirty _ _ _ Hok), Hdirty.
Qed.

Lemma range_lt s id v i : vol_ok s id v → 0 ≤ i → i * CHUNK_BYTES < size (root v) → in_range v i.
Proof.
  intros Hok Hi Hlt. split; [done|]. apply chunk_index_lt; [|done].
  by destruct (proj1 (root_ok_spec _ _) (ok_root _ _ _ Hok)) as (_&_&_&_&_&_&_&?&_).
Qed.

(** A commit that changes no page: the handle's disk is what is committed. *)
Lemma vol_clean s0 s1 id v ps bases packs : vol_ok s0 id v → staged_ok s0 v ps bases packs → same_view s0 s1 →
  collision_free (known s0 v ps packs) →
  (∀ pi, pages (root v) !! pi = match ps !! pi with Some p' => settled v bases pi p' | None => pages (root v) !! pi end) →
  vol_ok s1 id (clear_dirty v) ∧ disk_eq (size (root v)) (disk_of s1 (clear_dirty v)) (disk_of s0 v).
Proof.
  intros Hok Hst Hv Hnc Hmap.
  destruct (vol_grows s0 s1 id v (clear_dirty v)) as [Hok1 Hbv]; try done.
  { by apply same_view_grows. }
  { destruct Hv as (Ho & _ & Hb). rewrite /typed Ho Hb. apply Hok. }
  { exact (ok_root _ _ _ Hok). }
  split; [done|]. apply of_blocks_ext. intros i Hi Hlt.
  pose proof (range_lt _ _ _ _ Hok Hi Hlt) as Hir.
  rewrite /block lookup_empty /= /committed Hbv //. destruct (dirty v !! i) as [b|] eqn:Hd; [|done]. simpl.
  destruct (block_committed s0 id v ps bases packs Hok Hst Hnc i Hir) as (x & Hx & p & q & Hpair & Hr). rewrite Hx /=.
  destruct (out_done _ _ _ _ _ Hst _ _ Hd) as [p' Hp'].
  assert (page_view s0 v (i / SLOTS) = Some p') as Hpv'.
  { eapply (page_after s0 id v ps bases packs); try done. intros pi p1 _ H. by left. }
  pose proof (pair_page _ _ _ _ _ Hpair) as Hpp. assert (p' = p) as -> by congruence.
  destruct (out_page _ _ _ _ _ Hst _ _ Hp') as (_ & p0 & q0 & Hpair0 & _ & Hs & _ & Hrec).
  specialize (Hrec _ (slot_mod_bound i)). replace (i / SLOTS * SLOTS + i mod SLOTS) with i in Hrec by (unfold SLOTS; dlia).
  rewrite Hd in Hrec. apply rslot_done in Hrec. destruct (ok_dirty _ _ _ Hok _ _ Hd) as (_ & Hl & _).
  destruct (all_zero b) eqn:Hz.
  + rewrite /rec_view Hrec in Hr. apply (inj Some) in Hr as <-. rewrite -Hl. symmetry. by apply all_zero_true.
  + destruct (rec_view_digest _ _ _ _ _ _ Hr Hrec) as [Hdg _]. apply Hnc; [by eapply known_block|by eapply known_dirty|done].
Qed.

(** ** The promise of a commit *)
Definition current (s : S) (id : string) (v : IndexedVolume) : Prop :=
  ∃ h, heads s !! id = Some h ∧ revision h = vol_revision v ∧ revision h ≠ "" ∧
    Zlen (manifest h) ≤ MAX_MANIFEST_BYTES ∧ from_slice (manifest h) = Some (root v).

(** What a reader that opens the volume finds: a disk and a replication mark. *)
Definition persisted_with (s : S) (id : string) (sz : Z) (d : Disk) (mark : option Replication) : Prop :=
  ∃ v, current s id v ∧ vol_ok s id v ∧ dirty v = ∅ ∧ poisoned v = false ∧ size (root v) = sz ∧ disk_eq sz (disk_of s v) d ∧
    replication (root v) = mark.
Definition persisted (s : S) (id : string) (sz : Z) (d : Disk) : Prop := ∃ mark, persisted_with s id sz d mark.

(** SHA-256 does not collide on the byte strings of a commit: what the store
    holds, the volume's blocks, and the packs and pages that staging computes. *)
Definition no_collision (s : S) (v : IndexedVolume) : Prop :=
  ∀ s1 force cancel ps bases packs, same_view s s1 → observes cancel →
    (stage v force cancel s1).1 = Ok (ps, bases, packs) → collision_free (known s v ps packs).

Definition commit_post (s : S) (id : string) (v : IndexedVolume) (mark : option Replication) (r : Result Error Z)
    (t : IndexedVolume * S) : Prop :=
  let sz := size (root v) in
  grows s t.2 ∧ vol_ok t.2 id t.1 ∧ size (root t.1) = sz ∧ disk_eq sz (disk_of t.2 t.1) (disk_of s v) ∧
  match r with
  | Ok g => current t.2 id t.1 ∧ dirty t.1 = ∅ ∧ poisoned t.1 = false ∧ g = generation (root t.1) ∧
      replication (root t.1) = mark ∧ persisted_with t.2 id sz (disk_of s v) mark
  | Err e => (root t.1 = root v ∧ cat t.1 = cat v ∧ dirty t.1 = dirty v) ∧
      (heads t.2 = heads s ∧ t.1 = v ∨ poisoned t.1 = true) ∧
      (heads t.2 = heads s ∧ persisted t.2 id sz (of_blocks (committed s v)) ∨ persisted_with t.2 id sz (disk_of s v) mark)
  end.

Definition clean_of (v : IndexedVolume) : IndexedVolume := mkIndexed (root v) (cat v) (vol_revision v) ∅ false.

Lemma persisted_head s id v : vol_ok s id v → current s id v →
  persisted_with s id (size (root v)) (of_blocks (committed s v)) (replication (root v)).
Proof.
  intros Hok Hc. exists (clean_of v). split; [done|].
  destruct (vol_grows s s id v (clean_of v)) as [Hok1 Hbv]; [done..|apply (ok_typed _ _ _ Hok)| |exact (ok_root _ _ _ Hok)|].
  { split; [by split_and!|done|]. intros i b. by rewrite lookup_empty. }
  by split_and!.
Qed.

Section commit_cases.
Variables (s0 : S) (id : string) (v : IndexedVolume).
Hypotheses (Hok : vol_ok s0 id v) (Hcur : current s0 id v).

Lemma disk_grows s1 v' : grows s0 s1 → typed s1 → rehandled v v' → root_ok (root v') id = true → dirty v' = dirty v →
  vol_ok s1 id v' ∧ disk_eq (size (root v)) (disk_of s1 v') (disk_of s0 v) ∧
  disk_eq (size (root v)) (of_blocks (committed s1 v')) (of_blocks (committed s0 v)).
Proof using All.
  intros Hg Hty Hre Hr Hd. destruct (vol_grows s0 s1 id v v') as [Hok1 Hbv]; [done..|]. split; [done|].
  split; apply of_blocks_ext; intros i Hi Hlt; pose proof (range_lt _ _ _ _ Hok Hi Hlt) as Hir.
  - rewrite /block Hd. destruct (dirty v !! i); [done|]. by rewrite /= /committed Hbv.
  - by rewrite /committed Hbv.
Qed.

Lemma rehandled_poisoned p : rehandled v (mkIndexed (root v) (cat v) (vol_revision v) (dirty v) p).
Proof. by split. Qed.

(** The head still names the handle's root. *)
Lemma persisted_old s1 : grows s0 s1 → typed s1 → heads s1 = heads s0 →
  persisted s1 id (size (root v)) (of_blocks (committed s0 v)).
Proof using All.
  intros Hg Hty Hh. destruct (disk_grows s1 v) as (Hok1 & _ & Hd); [done|done|by split|exact (ok_root _ _ _ Hok)|done|].
  assert (current s1 id v) as Hc1 by (destruct Hcur as (h & ?); exists h; by rewrite Hh).
  destruct (persisted_head s1 id v Hok1 Hc1) as (w & ?&?&?&?&?& Hw & ?). exists (replication (root v)), w.
  split_and!; try done. by etrans.
Qed.

Lemma commit_refused s1 e mark : grows s0 s1 → typed s1 → heads s1 = heads s0 → commit_post s0 id v mark (Err e) (v, s1).
Proof using All.
  intros Hg Hty Hh. destruct (disk_grows s1 v) as (Hok1 & Hd & _); [done|done|by split|exact (ok_root _ _ _ Hok)|done|].
  split_and!; try done; [by left|]. left. split; [done|]. by apply persisted_old.
Qed.
End commit_cases.

(** *** Publishing the next root *)
Definition next_handle (v : IndexedVolume) (next : Root) (rev : string) : IndexedVolume := mkIndexed next (cat v) rev ∅ false.

Section publish.
Variables (s0 s1 : S) (id : string) (v : IndexedVolume) (next : Root) (cancel : S → bool * S).
Hypotheses (Hok : vol_ok s0 id v) (Hcur : current s0 id v) (Hpoison : poisoned v = false) (Hcancel : observes cancel).
Hypotheses (Hg1 : grows s0 s1) (Hty1 : typed s1) (Hh1 : heads s1 = heads s0) (Hvol : volume next = id)
  (Hsize : size next = size (root v)) (Hokn : vol_ok s1 id (next_handle v next ""))
  (Hdn : disk_eq (size (root v)) (disk_of s1 (next_handle v next "")) (disk_of s0 v)).

(** After a compare-and-swap that took effect. *)
Lemma published_next s2 rev b : objects s2 = objects s1 → base_objects s2 = base_objects s1 →
  published s1 s2 id (Some (vol_revision v)) rev b → to_vec next = Some b → Zlen b ≤ MAX_MANIFEST_BYTES →
  current s2 id (next_handle v next rev) ∧ vol_ok s2 id (next_handle v next rev) ∧
  disk_eq (size (root v)) (disk_of s2 (next_handle v next rev)) (disk_of s0 v) ∧
  persisted_with s2 id (size (root v)) (disk_of s0 v) (replication next).
Proof using All.
  intros Ho Hb (_ & Hrev & Hp) Hjson Hfit.
  assert (grows s1 s2) as Hg by (split; [by rewrite Ho|done]).
  assert (typed s2) as Hty by (by rewrite /typed Ho Hb).
  destruct (vol_grows s1 s2 id _ (next_handle v next rev) Hokn) as [Hok2 Hbv]; [done|done|by split|apply Hokn|].
  assert (current s2 id (next_handle v next rev)) as Hc2.
  { exists (mkHead rev b). rewrite Hp lookup_insert_eq /=. split_and!; auto using json_roundtrip. }
  assert (disk_eq (size (root v)) (disk_of s2 (next_handle v next rev)) (disk_of s0 v)) as Hd.
  { etrans; [|exact Hdn]. apply of_blocks_ext. intros i Hi Hlt. rewrite /block /committed Hbv //.
    eapply range_lt; [done|done|]. simpl. by rewrite Hsize. }
  split_and!; try done. by exists (next_handle v next rev).
Qed.

Lemma publish_spec : wp (publish_root next cancel) (v, s1) (commit_post s0 id v (replication next)).
Proof using All.
  assert (∀ s2 e, same_view s1 s2 → commit_post s0 id v (replication next) (Err e) (v, s2)) as Href.
  { intros s2 e (Ho & Hh & Hb). apply commit_refused; try done; [|by rewrite /typed Ho Hb|congruence].
    split; [rewrite Ho; apply Hg1|rewrite Hb; apply Hg1]. }
  rewrite /publish_root. wp_step. apply wp_gets. simpl. wp_step. apply wp_ok_or; [intros b Hb|intros _; by apply Href].
  wp_step. apply wp_guard; [intros Hfit%Z.leb_le|intros _; by apply Href].
  wp_step. apply wp_on_store. eapply wp_mono; [apply deadline_law|]. intros [[]|e] s2 Hv2; [|by apply Href].
  wp_step. apply wp_on_store. eapply wp_mono; [by apply check_cancel_law|].
  intros [[]|e] s3 Hv3; (assert (same_view s1 s3) as Hv13 by (by trans s2)); [|by apply Href].
  wp_step. apply wp_try, wp_on_store. rewrite Hvol. eapply wp_mono; [by apply publish_cancellable_law|].
  intros r s4 (Ho4 & Hb4 & H4). pose proof Hv13 as (Ho3 & Hh3 & Hb3). rewrite Ho3 in Ho4. rewrite Hb3 in Hb4.
  assert (∀ s', objects s' = objects s1 → base_objects s' = base_objects s1 → ∀ e,
    heads s' = heads s3 ∨ (∃ rev, published s3 s' id (Some (vol_revision v)) rev b) →
    commit_post s0 id v (replication next) (Err e) (set_poisoned v, s')) as Hpois.
  { intros s' Ho Hb' e Hor. assert (grows s0 s') as Hg by (split; [rewrite Ho; apply Hg1|rewrite Hb'; apply Hg1]).
    assert (typed s') as Hty by (by rewrite /typed Ho Hb').
    destruct (disk_grows s0 id v Hok Hcur s' (set_poisoned v)) as (Hok' & Hd' & _); try done; [exact (ok_root _ _ _ Hok)|].
    split_and!; try done; [by right|]. destruct Hor as [Hsame|[rev Hrev]]; [left; split; [simpl; congruence|]|right].
    - apply (persisted_old s0 id v Hok Hcur); simpl; [done|done|congruence].
    - simpl. eapply published_next; try done. by eapply published_view. }
  destruct r as [rev|e].
  - destruct H4 as (rev' & Hp & Hrev). case_decide as Hre.
    + apply wp_bind, wp_modify, wp_fail. apply Hpois; [done|done|]. right. by exists rev'.
    + destruct Hrev as [?|<-]; [done|]. apply wp_bind, wp_modify, wp_ret.
      destruct (published_next s4 rev b) as (Hc & Ho & Hd & Hper); try done; [by eapply published_view|].
      rewrite Hpoison. split_and!; try done. split; [rewrite /= Ho4; apply Hg1|rewrite /= Hb4; apply Hg1].
  - destruct (decide (e = Deadline)) as [->|Hne].
    { apply wp_fail. apply commit_refused; try done; [|by rewrite /typed Ho4 Hb4|by rewrite H4 Hh3].
      split; [rewrite Ho4; apply Hg1|rewrite Hb4; apply Hg1]. }
    assert (heads s4 = heads s3 ∨ ∃ rev, published s3 s4 id (Some (vol_revision v)) rev b) as Hor by (by destruct e).
    destruct e; try done; apply wp_bind, wp_modify, wp_fail; by apply Hpois.
Qed.
End publish.

(** *** Packed commits *)
Lemma packed_commit_spec s0 s id v next concurrency force cancel :
  vol_ok s0 id v → current s0 id v → same_view s0 s → poisoned v = false → observes cancel → (0 < concurrency)%nat →
  no_collision s0 v → root_ok next id = true → packed next = true → size next = size (root v) → base next = base (root v) →
  pages next = pages (root v) →
  wp (commit_packed next concurrency force cancel) (v, s) (commit_post s0 id v (replication next)).
Proof.
  intros Hok Hcur Hv Hpo Hc Hconc Hnc Hrn Hpn Hsn Hbn Hpg.
  assert (volume next = id ∧ volume (root v) = id) as [Hvn Hvv].
  { split; [by apply root_ok_spec in Hrn as (_&_&_&_&?&_)|].
    by destruct (proj1 (root_ok_spec _ _) (ok_root _ _ _ Hok)) as (_&_&_&_&?&_). }
  assert (∀ s2 e, same_view s0 s2 → commit_post s0 id v (replication next) (Err e) (v, s2)) as Href.
  { intros s2 e Hv2. apply commit_refused; try done; [by apply same_view_grows| |by destruct Hv2 as (_ & ? & _)].
    destruct Hv2 as (Ho & _ & Hb). rewrite /typed Ho Hb. apply (ok_typed _ _ _ Hok). }
  rewrite /commit_packed. wp_step. apply wp_gets. simpl. wp_step. apply wp_on_store.
  assert (∀ A (m : M Error S A) t, wp m t (λ r t', r = (m t).1)) as Hrun by done.
  eapply wp_mono; [apply wp_and; [by apply (stage_spec s0 s id v force cancel)|apply Hrun]|].
  intros [[[ps bases] packs]|e] s1 [[Hv1 Hst] Heq]; [|by apply Href].
  assert (collision_free (known s0 v ps packs)) as Hcf by exact (Hnc s force cancel ps bases packs Hv Hc (eq_sym Heq)).
  wp_step. apply wp_on_store. rewrite Hpg. eapply wp_mono; [by eapply settle_spec|].
  intros [[m ups]|e] s2 [Hv2 H2]; [|by apply Href]. destruct H2 as [Hmap Hpk Hnew Honly]. simpl in Hmap, Hpk, Hnew, Honly.
  destruct (bool_decide (m = pages (root v)) && bool_decide (replication next = replication (root v))) eqn:Hsame.
  { apply andb_prop in Hsame as [->%bool_decide_eq_true Hrep%bool_decide_eq_true]. apply wp_bind, wp_modify, wp_ret.
    destruct (vol_clean s0 s2 id v ps bases packs) as [Hok2 Hd2]; try done.
    assert (current s2 id (clear_dirty v)) as Hc2.
    { destruct Hcur as (h & Hh & ?). exists h. destruct Hv2 as (_ & -> & _). done. }
    rewrite Hrep. split_and!; try done; [by apply same_view_grows|]. exists (clear_dirty v). by split_and!. }
  wp_step. apply wp_on_store. rewrite Hvv. eapply wp_mono; [apply upload_spec; [by apply observes_stopped|done]|].
  intros r s3 [(Hg23 & Hh23 & Hn23) H3]. pose proof Hv2 as (Ho2 & Hh2 & Hb2).
  assert (grows s0 s3) as Hg by (trans s2; [by apply same_view_grows|done]).
  assert (typed s3) as Hty.
  { destruct (ok_typed _ _ _ Hok) as [T1 T2]. split; [|destruct Hg as [_ ->]; done].
    intros k b [Hk|(o & Ho & ->)]%Hn23; [rewrite Ho2 in Hk; eauto|].
    apply Honly in Ho as [Ho|(pi & p' & Hp' & ->)].
    - destruct o as [d pk]. by destruct (out_packs _ _ _ _ _ Hst _ _ Ho) as [_ []].
    - by destruct (out_page _ _ _ _ _ Hst _ _ Hp') as (_ & ? & ? & _ & _ & _ & ? & _). }
  assert (heads s3 = heads s0) as Hh3 by congruence.
  destruct r as [[]|e]; [|by apply commit_refused].
  assert (has_packs id packs s3) as Hhp by (intros pk Hin; apply (H3 (digest pk, pk)); auto).
  destruct (vol_after s0 id v ps bases packs) with (s2 := s3) (v' := next_handle v (with_pages next m) "") as [Hokn Hdn]; try done.
  - split_and!; simpl; try done; [congruence|]. rewrite (ok_packed _ _ _ Hok). exact Hpn.
  - by apply (next_pages_ok s0 id v ps bases packs).
  - intros pi p' Hp' Hm. destruct (Hnew _ _ Hp' Hm) as [|[Hin|Hcat]]; [by left|right; by apply (H3 (digest p', p'))|].
    exfalso. by eapply (staged_not_base s0 id v ps bases packs).
  - change (replication next) with (replication (with_pages next m)).
    by apply publish_spec; try done; apply observes_stopped.
Qed.

End commit.
End IndexedCommit.
