(* ===== verification/IndexedApi.v ===== *)
(** What the indexed volume promises its clients: [commit], [open], [read] and
    [write] of [ahvm-volume/src/indexed.rs] against the flat disk, for the packed
    formats 8 to 11. *)
From S2P Require Import Prelude Codec ObjectStore Blocks Base Page Indexed Staging IndexedCommit.

Module IndexedApi.
Import Page Indexed Staging IndexedCommit.

Section api.
Context {S : Type} {SHA : Sha256} {OS : ObjectStore S} {JR : Json Root} {SV : StoreView S}.
Context {SHAL : Sha256Laws} {OSL : ObjectStoreLaws S} {JL : JsonLaws Root}.

Lemma check_ok v at_ len : check v at_ len = Ok tt ↔ poisoned v = false ∧ at_ + len ≤ u64_max ∧ at_ + len ≤ size (root v).
Proof.
  rewrite /check /u64_checked_add. destruct (poisoned v); [naive_solver|].
  repeat case_match; simplify_eq; split; try done; lia.
Qed.

(** ** Commits *)
Lemma current_view s s' id v : same_view s s' → current s id v → current s' id v.
Proof. intros (_ & Hh & _) (h & Hx). exists h. by rewrite Hh. Qed.

Lemma refused_view s s' id v e mark : vol_ok s id v → current s id v → same_view s s' →
  commit_post s id v mark (Err e) (v, s').
Proof.
  intros Hok Hcur Hv. apply commit_refused; try done; [by apply same_view_grows| |by destruct Hv as (_ & ? & _)].
  destruct Hv as (Ho & _ & Hb). rewrite /typed Ho Hb. apply (ok_typed _ _ _ Hok).
Qed.

(** The mark of the root that a commit publishes. *)
Definition next_mark (v : IndexedVolume) (mark : option Replication) : option Replication :=
  match mark with Some m => Some m | None => replication (root v) end.

Lemma commit_inner_spec s id v mark concurrency : vol_ok s id v → current s id v → no_collision s v →
  (∀ m, mark = Some m → valid_hash (rep_id m) = true ∧ sequence m ≠ 0) → (0 < concurrency)%nat →
  wp (commit_inner mark concurrency) (v, s) (commit_post s id v (next_mark v mark)).
Proof.
  intros Hok Hcur Hnc Hmark Hc. rewrite /commit_inner. wp_step. apply wp_gets. simpl. wp_step. apply wp_of_result.
  destruct (check v 0 0) as [[]|e] eqn:Hch; [|by apply refused_view]. apply check_ok in Hch as (Hpo & _).
  destruct (bool_decide (dirty v = ∅) && bool_decide (mark = None)) eqn:Hcl.
  { apply andb_prop in Hcl as [Hd%bool_decide_eq_true ->%bool_decide_eq_true]. apply wp_ret. split_and!; try done.
    destruct (persisted_head s id v Hok Hcur) as (w & ?&?&?&?&?& Hw & ?). exists w. split_and!; try done. etrans; [exact Hw|].
    apply of_blocks_ext. intros i _ _. by rewrite /block Hd lookup_empty. }
  wp_step. apply wp_on_store. eapply wp_mono; [apply deadline_law|]. intros [[]|e] s1 Hv1; [|by apply refused_view].
  wp_step. apply wp_ok_or; [intros gen _|intros _; by apply refused_view]. cbv zeta. rewrite (ok_packed _ _ _ Hok).
  destruct (next_root_ok (root v) id mark gen) as [Hr Hp]; [exact (ok_root _ _ _ Hok)|done|exact (ok_packed _ _ _ Hok)|].
  change (next_mark v mark) with (replication (next_root (root v) mark gen)). by eapply packed_commit_spec.
Qed.

Lemma indexed_commit_spec s id v : vol_ok s id v → current s id v → no_collision s v →
  wp commit (v, s) (commit_post s id v (replication (root v))).
Proof.
  intros. rewrite /commit. wp_step. apply wp_gets. simpl. wp_step. apply wp_guard; intros _; [|by apply refused_view].
  apply commit_inner_spec; try done. unfold WORKERS. lia.
Qed.

Lemma commit_replication_spec s id v mark : vol_ok s id v → current s id v → no_collision s v →
  wp (commit_replication mark) (v, s) (commit_post s id v (Some mark)).
Proof.
  intros. rewrite /commit_replication. wp_step. apply wp_guard; [intros [Hh Hq]%andb_prop|intros _; by apply refused_view].
  apply commit_inner_spec; try done; [|unfold WORKERS; lia].
  intros m [= <-]. split; [done|]. by apply negb_true_iff, Z.eqb_neq in Hq.
Qed.

(** ** Opening *)
Lemma load_catalog_spec s r : wp (Base.load r) s (λ x s', same_view s s' ∧
  match x with Ok c => ∃ b, base_objects s !! (Base.image r, Base.catalog r) = Some b ∧ Base.parse r b = Ok c | Err _ => True end).
Proof.
  rewrite /Base.load. wp_step. apply wp_of_result. destruct (decode (Base.image r)); [|done].
  wp_step. apply wp_of_result. destruct (decode (Base.catalog r)); [|done].
  wp_step. eapply wp_mono; [apply base_chunk_law|]. intros [b|e] s' [Hv Hb]; [|done].
  apply wp_of_result. split; [done|]. destruct (Base.parse r b) as [c|] eqn:Hp; [|done]. exists b. split; [|done].
  apply Hb. rewrite /Base.parse in Hp. destruct (_ || _ || _ || _ || _) eqn:E; [done|].
  rewrite !orb_false_iff in E. destruct E as ((((_ & Hd) & _) & _) & _). by apply negb_false_iff, bool_decide_eq_true in Hd.
Qed.

(** A head is read back as the handle that it describes. *)
Lemma from_head_spec s s1 id v h : same_view s s1 → vol_ok s id v → from_slice (manifest h) = Some (root v) → revision h = vol_revision v →
  wp (from_head id h) s1 (λ r s', same_view s s' ∧ match r with Ok v' => v' = clean_of v | Err _ => True end).
Proof.
  intros Hv1 Hok Hjson Hrev.
  rewrite /from_head /decode_head. wp_step. apply wp_guard; [intros _|done]. rewrite Hjson. wp_step. apply wp_ret.
  wp_step. apply wp_guard; [intros _|done]. wp_step. apply wp_guard; [intros _|done]. wp_step.
  eapply (wp_mono _ _ (λ r s', same_view s s' ∧ match r with Ok c => c = cat v | Err _ => True end)).
  { pose proof (ok_cat _ _ _ Hok) as Hc. destruct (base (root v)) as [r|], (cat v) as [c|]; try done.
    wp_step. eapply wp_mono; [apply load_catalog_spec|]. intros [c'|e] s2 [Hv2 H2]; [|split; [by trans s1|done]].
    apply wp_ret. split; [by trans s1|]. destruct H2 as (b & Hb & Hpar). destruct Hc as [(_ & _ & b' & Hb' & Hpar') _].
    destruct Hv1 as (_ & _ & Hbo). rewrite Hbo in Hb. congruence. }
  intros [c|e] s2 [Hv2 Hc]; [subst c|done]. wp_step. apply wp_guard; [intros _|done]. apply wp_ret. split; [done|].
  by rewrite /clean_of Hrev.
Qed.

(** Opening gives back the handle that the head describes. *)
Lemma open_current_spec s id v : current s id v → vol_ok s id v → dirty v = ∅ → poisoned v = false →
  wp (open id) s (λ r s', same_view s s' ∧ match r with Ok v' => v' = v | Err _ => True end).
Proof.
  intros Hcur Hok Hd Hpo. rewrite /open. wp_step. apply wp_guard; [intros _|done].
  wp_step. eapply wp_mono; [apply head_law|]. intros [oh|e] s1 [Hv1 Hoh]; [|done].
  destruct Hcur as (h & Hh & Hrev & Hne & Hfit & Hjson). rewrite Hh in Hoh. subst oh. simpl. wp_step. apply wp_ret.
  eapply wp_mono; [by eapply from_head_spec|]. intros [v'|e] s2 [Hv2 H2]; [|done]. split; [done|]. subst v'.
  rewrite /clean_of -Hd -Hpo. by destruct v.
Qed.

(** What reads alone leave as it is. *)
Lemma calm_ok s s' id v : same_view s s' → vol_ok s id v →
  vol_ok s' id v ∧ disk_eq (size (root v)) (disk_of s' v) (disk_of s v) ∧ (current s id v → current s' id v).
Proof.
  intros Hv Hok. destruct (vol_grows s s' id v v) as [Hok2 Hbv]; [done|by apply same_view_grows| |by split|exact (ok_root _ _ _ Hok)|].
  { destruct Hv as (Ho & _ & Hb). rewrite /typed Ho Hb. apply (ok_typed _ _ _ Hok). }
  split_and!; [done| |by apply current_view]. apply of_blocks_ext. intros i Hi Hlt. rewrite /block /committed Hbv //.
  eapply range_lt; [done|done|lia].
Qed.

Lemma indexed_open_spec s id sz d : persisted s id sz d → wp (open id) s (λ r s', same_view s s' ∧ match r with
    | Ok v => vol_ok s' id v ∧ current s' id v ∧ dirty v = ∅ ∧ poisoned v = false ∧ size (root v) = sz ∧
        disk_eq sz (disk_of s' v) d
    | Err _ => True end).
Proof.
  intros (mark & v & Hcur & Hok & Hd & Hpo & Hsz & Hdisk & _). eapply wp_mono; [by eapply open_current_spec|].
  intros [v'|e] s' [Hv H]; [subst v'|done]. destruct (calm_ok s s' id v Hv Hok) as (Hok' & Hd' & Hc').
  rewrite Hsz in Hd'. split_and!; auto. by etrans.
Qed.

(** ** Reading *)
Lemma block_view_whole s v i x : typed s → block_view s v i = Some x → Zlen x = CHUNK_BYTES ∧ bytes x.
Proof.
  intros [To Tb]. rewrite /block_view. destruct (page_view s v (i / SLOTS)) as [p|]; [|done]. cbn [mbind option_bind].
  destruct (slot p i) as [hash|].
  2: { intros Hx%(inj Some). rewrite -Hx. split; [by apply Zlen_zeros|apply bytes_zeros]. }
  destruct (match cat v with Some _ => _ | None => _ end) as [bp|]; [|done]. cbn [mbind option_bind].
  destruct (object_slot p i) as [[o off]|]; [|done]. cbn [mbind option_bind fst snd].
  destruct (if inherited bp p i hash then _ else _) as [b|] eqn:Hb; [|done]. cbn [mbind option_bind].
  destruct (cut _ _ _ _ _) as [y|] eqn:Hc; [|done]. intros Hx%(inj Some). subst y.
  split; [by apply cut_ok in Hc as (_ & ? & _)|].
  assert (bytes b) as Hbb.
  { destruct (inherited bp p i hash); [|by eapply To]. destruct (base (root v)) as [r|]; [|done]. by eapply Tb. }
  revert Hc. rewrite /cut. cbv zeta. repeat case_match; try done; intros [= <-]; auto using bytes_slice.
Qed.

Lemma block_whole s id v i : vol_ok s id v → in_range v i → Zlen (block s v i) = CHUNK_BYTES ∧ bytes (block s v i).
Proof.
  intros Hok Hi. rewrite /block. destruct (dirty v !! i) as [b|] eqn:Hd.
  - by destruct (ok_dirty _ _ _ Hok _ _ Hd) as (_ & ? & ?).
  - rewrite /= /committed. destruct (ok_blocks _ _ _ Hok i Hi) as [x Hx]. rewrite Hx.
    eapply block_view_whole; [exact (ok_typed _ _ _ Hok)|done].
Qed.

Lemma load_block s0 s id v i pf : vol_ok s0 id v → in_range v i → same_view s0 s →
  wp (load v i pf) s (λ r s', match r with
    | Ok b => same_view s0 s' ∧ Zlen b = CHUNK_BYTES ∧ b = block s0 v i
    | Err _ => same_view s0 s' end).
Proof.
  intros Hok Hi Hv. eapply wp_mono; [by apply indexed_load_spec|]. intros [b|e] s' [Hv' H]; [|done].
  assert (b = block s0 v i) as ->.
  { rewrite /block. destruct H as [->|[-> Hb]]; [done|]. by rewrite /= /committed Hb. }
  split_and!; [done|by eapply block_whole|done].
Qed.

Lemma indexed_read_spec s0 s id v offset output : vol_ok s0 id v → same_view s0 s → 0 ≤ offset →
  wp (read v offset output) s (λ r s', same_view s0 s' ∧ match r with
    | Ok out => check v offset (Zlen output) = Ok tt ∧ out = disk_read (disk_of s0 v) offset (Zlen output)
    | Err _ => True end).
Proof.
  intros Hok Hv Hoff. rewrite /read. wp_step. apply wp_of_result. destruct (check v offset (Zlen output)) as [[]|e] eqn:Hc; [|done].
  apply check_ok in Hc as (_ & _ & Hsz). wp_step. apply wp_guard; [intros _|done]. pose proof (Zlen_nonneg output).
  eapply wp_mono; [apply (wp_read_loop (same_view s0) (λ _ s', same_view s0 s') (block s0 v))|]; try done.
  - intros s' i Hs' Hi Hlt. eapply load_block; [done| |done]. eapply range_lt; [done|done|lia].
  - rewrite /fuel_for. lia.
  - lia.
  - intros [o|e] s' H'; [destruct H'|]; auto.
Qed.

(** ** Writing *)
(** The staged blocks over a well-formed handle. *)
Lemma write_staged s s' id v offset input m : vol_ok s id v → same_view s s' → bytes input → 0 ≤ offset →
  offset + Zlen input ≤ size (root v) → staged (disk_write (disk_of s v) offset input) offset (Zlen input) m →
  let v' := mkIndexed (root v) (cat v) (vol_revision v) (m ∪ dirty v) (poisoned v) in
  vol_ok s' id v' ∧ disk_eq (size (root v)) (disk_of s' v') (disk_write (disk_of s v) offset input).
Proof.
  intros Hok Hv Hin Hoff Hsz Hst. cbv zeta. pose proof chunk_bytes_pos.
  assert (typed s') as Hty by (destruct Hv as (Ho & _ & Hb); rewrite /typed Ho Hb; apply (ok_typed _ _ _ Hok)).
  destruct (vol_grows s s' id v v) as [Hok1 Hbv]; [done|by apply same_view_grows|done|by split|exact (ok_root _ _ _ Hok)|].
  assert (∀ i b, m !! i = Some b → in_range v i ∧ Zlen b = CHUNK_BYTES ∧ bytes b) as Hm.
  { intros i b Hib. pose proof (proj1 Hst i b Hib) as (Hi1 & Hi2 & Hl & Hk).
    assert (0 ≤ offset / CHUNK_BYTES) by (by apply Z.div_pos). assert (in_range v i) as Hir by (eapply range_lt; [done|lia|lia]).
    split_and!; [done|done|]. eapply staged_bytes; [done|done|]. intros k Hkk. rewrite /disk_write. case_decide.
    - apply bytes_index; [done|lia].
    - rewrite /disk_of of_blocks_at //. destruct (block_whole s id v i Hok Hir) as [Hl' Hb']. apply bytes_index; [done|lia]. }
  split.
  - destruct Hok1. split; try done. intros i b [Hi|[_ Hi]]%lookup_union_Some_raw; [by apply Hm|by apply ok_dirty0].
  - trans (of_blocks (λ i, default (block s v i) (m !! i))).
    + apply of_blocks_ext. intros i Hi Hlt. rewrite /block lookup_union /=.
      destruct (m !! i), (dirty v !! i); simpl; try done. rewrite /committed.
      pose proof (Hbv i (range_lt _ _ _ _ Hok Hi Hlt)) as E. rewrite -E. done.
    + by apply staged_blocks.
Qed.

Lemma write_loop_spec s id v offset input : vol_ok s id v → 0 ≤ offset → offset + Zlen input ≤ size (root v) →
  wp (write_loop (λ i within n,
      if (within =? 0) && (n =? CHUNK_BYTES) then mret (zeros CHUNK_BYTES) else load v i false)
    (fuel_for (Zlen input)) offset input 0 ∅) s (λ r s', match r with
    | Ok m => same_view s s' ∧ staged (disk_write (disk_of s v) offset input) offset (Zlen input) m
    | Err _ => same_view s s' end).
Proof.
  intros Hok Hoff Hsz. pose proof (Zlen_nonneg input). pose proof chunk_bytes_pos.
  apply (wp_write_loop (same_view s) (λ _ s', same_view s s') (disk_of s v)); try done.
  - intros s' copied Hs' Hcp. cbv zeta. set (pos := offset + copied). destruct (chunk_pos pos) as [Hp1 Hp2].
    destruct (_ && _) eqn:Hfull.
    + apply andb_prop in Hfull as [Hw%Z.eqb_eq Hn%Z.eqb_eq]. apply wp_ret. split; [done|].
      split; [by apply Zlen_zeros|]. lia.
    + assert (in_range v (pos / CHUNK_BYTES)) as Hir by (eapply range_lt; [done|apply Z.div_pos; lia|lia]).
      eapply wp_mono; [by eapply load_block|]. intros [b|e] s'' H''; [|done]. destruct H'' as (Hv'' & Hl & ->).
      split; [done|]. split; [done|]. intros k Hk _. by rewrite /disk_of of_blocks_at.
  - rewrite /fuel_for. lia.
  - by left.
Qed.

Definition write_post (s : S) (id : string) (v : IndexedVolume) (offset : Z) (input : list Z) (r : Result Error unit)
    (t : IndexedVolume * S) : Prop :=
  vol_ok t.2 id t.1 ∧ size (root t.1) = size (root v) ∧
  match r with
  | Ok _ => current t.2 id t.1 ∧ disk_eq (size (root v)) (disk_of t.2 t.1) (disk_write (disk_of s v) offset input)
  | Err _ => disk_eq (size (root v)) (disk_of t.2 t.1) (disk_of s v)
  end.

Lemma indexed_write_spec s id v offset input : vol_ok s id v → current s id v → no_collision s v → bytes input → 0 ≤ offset →
  wp (write offset input) (v, s) (write_post s id v offset input).
Proof.
  intros Hok Hcur Hnc Hin Hoff. rewrite /write.
  assert (∀ e, write_post s id v offset input (Err e) (v, s)) as Hearly by by intros e; rewrite /write_post; split_and!.
  wp_step. apply wp_gets. simpl. wp_step. apply wp_of_result.
  destruct (check v offset (Zlen input)) as [[]|e] eqn:Hc; [|done]. apply check_ok in Hc as (_ & _ & Hsz).
  wp_step. apply wp_guard; [intros _|done]. case_bool_decide as Hemp.
  { apply wp_ret. rewrite /write_post. split_and!; try done. intros p _. rewrite /disk_write Hemp decide_False //. change (Zlen []) with 0. lia. }
  wp_step. eapply (wp_mono _ _ (λ r t, vol_ok t.2 id t.1 ∧ size (root t.1) = size (root v) ∧
    disk_eq (size (root v)) (disk_of t.2 t.1) (disk_of s v) ∧ match r with Ok _ => current t.2 id t.1 | Err _ => True end)).
  { destruct (DIRTY_LIMIT <? _); [|by apply wp_ret]. apply wp_bind. eapply wp_mono; [by apply indexed_commit_spec|].
    intros [g|e] [v1 s1] (_ & Hok1 & Hsz1 & Hd1 & H1); [|done]. apply wp_ret. split_and!; try done. by destruct H1. }
  intros [[]|e] [v1 s1] (Hok1 & Hsz1 & Hd1 & H1); [|done]. simpl in *. wp_step. apply wp_gets. simpl.
  wp_step. apply wp_on_store. eapply wp_mono; [eapply write_loop_spec; [done|done|by rewrite Hsz1]|].
  intros [m|e] s2 H2.
  - destruct H2 as [Hv2 Hst]. apply wp_modify. simpl.
    destruct (write_staged s1 s2 id v1 offset input m) as [Hok2 Hd2]; try done; [by rewrite Hsz1|].
    rewrite /write_post. split_and!; try done; [by eapply current_view|]. simpl. rewrite Hsz1 in Hd2. etrans; [exact Hd2|].
    intros p Hp. rewrite /disk_write. case_decide; [done|]. by apply Hd1.
  - destruct (vol_grows s1 s2 id v1 v1) as [Hok2 Hbv]; [done|by apply same_view_grows| |by split|exact (ok_root _ _ _ Hok1)|].
    { destruct H2 as (Ho & _ & Hb). rewrite /typed Ho Hb. apply (ok_typed _ _ _ Hok1). }
    rewrite /write_post. split_and!; try done. simpl. etrans; [|exact Hd1]. apply of_blocks_ext. intros i Hi Hlt. rewrite /block.
    destruct (dirty v1 !! i); [done|]. rewrite /= /committed Hbv //. eapply range_lt; [done|done|lia].
Qed.

(** ** Creating *)
Lemma slot_blank pi i : slot (blank true pi) i = None.
Proof.
  rewrite (slot_record pi); [apply shaped_blank|]. rewrite (record_blank pi); [apply slot_mod_bound|]. exact rslot_empty.
Qed.

(** A volume with an empty map and no base image reads as zeros. *)
Lemma fresh_ok s id r rev : root_ok r id = true → packed r = true → pages r = ∅ → base r = None → typed s →
  let v := mkIndexed r None rev ∅ false in vol_ok s id v ∧ ∀ i, block_view s v i = Some (zeros CHUNK_BYTES).
Proof.
  intros Hr Hp Hpg Hb Hty. cbv zeta. set (v := mkIndexed r None rev ∅ false).
  assert (∀ i, page_view s v i = Some (blank true i)) as Hpv.
  { intros i. apply page_view_none; [done|]. simpl. by rewrite Hpg lookup_empty. }
  assert (∀ i, base_view s v i = Some (blank true i)) as Hbv.
  { intros i. by apply base_view_blank. }
  assert (∀ i, block_view s v i = Some (zeros CHUNK_BYTES)) as Hbl.
  { intros i. rewrite /block_view Hpv. cbn [mbind option_bind]. by rewrite slot_blank. }
  split; [|done]. split; [done|done|done|by rewrite /= Hb| | | |].
  - intros i _. exists (blank true (i / SLOTS)). split; [apply Hbv|]. intros h. by rewrite slot_blank.
  - intros i _. by rewrite Hbl.
  - intros i p q _ Hpi _ Hl. rewrite Hpv in Hpi. apply (inj Some) in Hpi. subst p.
    rewrite record_blank in Hl; [apply slot_mod_bound|]. by destruct Hl.
  - intros i b. by rewrite lookup_empty.
Qed.

(** Publishing a first root; nothing else changes. *)
Lemma publish_new_spec s id r c limited : wp (publish_new id r c limited) s (λ x s', objects s' = objects s ∧
  base_objects s' = base_objects s ∧ match x with
  | Ok v => ∃ rev, v = mkIndexed r c rev ∅ false ∧ heads s !! id = None ∧
      ((limited = true ∨ ∀ b, to_vec r = Some b → Zlen b ≤ MAX_MANIFEST_BYTES) → current s' id v)
  | Err _ => True end).
Proof.
  rewrite /publish_new. wp_step. apply wp_ok_or; [intros b Hb|done]. wp_step. apply wp_guard; [intros Hl|done].
  wp_step. apply wp_map_err. eapply wp_mono; [apply publish_law|]. intros [rev|e] s' (Ho & Hbo & H); [|done].
  wp_step. apply wp_guard; [intros Hr|done]. apply wp_ret. split_and!; try done. exists rev.
  destruct H as (rev' & (Hn & Hne & Hh) & Hrev). apply negb_true_iff, bool_decide_eq_false in Hr.
  assert (rev' = rev) as -> by (by destruct Hrev). split; [done|]. split; [by destruct (heads s !! id)|].
  intros Hfit. exists (mkHead rev b). rewrite Hh lookup_insert_eq /=. split_and!; try done; [|by apply json_roundtrip].
  destruct Hfit as [->|Hf]; [|by apply Hf]. simpl in Hl. by apply negb_true_iff, Z.ltb_ge in Hl.
Qed.

Lemma create_spec s id sz : typed s → wp (create id sz) s (λ x s', match x with
  | Ok v => vol_ok s' id v ∧ size (root v) = sz ∧ dirty v = ∅ ∧ disk_eq sz (disk_of s' v) zero_disk ∧
      ((∀ b, to_vec (root v) = Some b → Zlen b ≤ MAX_MANIFEST_BYTES) → current s' id v)
  | Err _ => objects s' = objects s ∧ base_objects s' = base_objects s end).
Proof.
  intros Hty. rewrite /create /create_inner. wp_step. apply wp_guard; [intros Hg|done].
  rewrite negb_true_iff !orb_false_iff Z.eqb_neq Z.ltb_ge !negb_false_iff /is_multiple_of Z.eqb_eq in Hg.
  destruct Hg as (((Hid & Hz) & Hmax) & Hm). eapply wp_mono; [apply publish_new_spec|].
  intros [v|e] s' (Ho & Hb & H); [|done]. destruct H as (rev & -> & _ & Hc).
  set (r := mkRoot 8 id sz 0 true ∅ None None).
  destruct (fresh_ok s' id r rev) as [Hok Hbl]; try done; [|by rewrite /typed Ho Hb|].
  { rewrite root_ok_spec. by split_and!. }
  split_and!; try done; [|intros Hf; apply Hc; by right].
  intros p _. by rewrite /disk_of /of_blocks /block lookup_empty /= /committed Hbl /= index_zeros.
Qed.

(** *** From a base image *)
Definition from_base (id : string) (r : Base.BaseRef) (c : Base.Catalog) (rev : string) : IndexedVolume :=
  mkIndexed (mkRoot 10 id (Base.cat_size c) 0 true (Base.cat_pages c) None (Some r)) (Some c) rev ∅ false.
(** Every page and block of the image is stored. *)
Definition image_complete (s : S) (r : Base.BaseRef) (c : Base.Catalog) : Prop :=
  ∀ id rev i, in_range (from_base id r c rev) i → ∃ q, base_view s (from_base id r c rev) (i / SLOTS) = Some q ∧
    ∀ h, slot q i = Some h → ∃ b, base_objects s !! (Base.image r, h) = Some b ∧ Zlen b = CHUNK_BYTES ∧ digest b = h.
(** The contents of a block of the image. *)
Definition image_block (s : S) (r : Base.BaseRef) (c : Base.Catalog) (i : Z) : list Z :=
  match base_view s (from_base "" r c "") (i / SLOTS) with
  | Some q => match slot q i with Some h => default [] (base_objects s !! (Base.image r, h)) | None => zeros CHUNK_BYTES end
  | None => []
  end.

Lemma from_base_ok s id r c rev : cat_stored s r c → typed s → image_complete s r c →
  let v := from_base id r c rev in
  vol_ok s id v ∧ disk_eq (Base.cat_size c) (disk_of s v) (of_blocks (image_block s r c)).
Proof.
  intros Hcs Hty Him. cbv zeta. set (v := from_base id r c rev). pose proof Hcs as (_ & _ & cb & Hcb & Hpar).
  assert (bytes cb) as Hbc by (by eapply (proj2 Hty)). destruct (parse_valid _ _ _ Hbc Hpar) as (Hz & Hmax & Hm & Hpg).
  assert (root_ok (root v) id = true) as Hroot by (rewrite root_ok_spec; by split_and!).
  assert (∀ i, base_view s (from_base "" r c "") i = base_view s v i) as Hbv0 by done.
  assert (∀ i, page_view s v i = base_view s v i) as Hpv.
  { intros i. destruct (Base.cat_pages c !! i) as [h|] eqn:Hh.
    - assert (pages (root v) !! i = Some h ∧ cat_page v i = Some h) as [E1 E2] by done.
      rewrite /page_view /base_view E1 E2. f_equal.
      rewrite /page_inherited bool_decide_eq_true_2 //=. by apply bool_decide_eq_true_2.
    - etrans; [apply page_view_none; [done|exact Hh]|]. symmetry. exact (base_view_blank s v i eq_refl Hh). }
  assert (∀ i, in_range v i → ∃ q, base_view s v (i / SLOTS) = Some q ∧ shaped (i / SLOTS) q ∧
    (∃ h, Zlen h = 32 ∧ record q (i mod SLOTS) = rec_direct h) ∧
    ∀ h, slot q i = Some h → ∃ b, base_objects s !! (Base.image r, h) = Some b ∧ Zlen b = CHUNK_BYTES ∧ digest b = h) as Hq.
  { intros i Hi. destruct (Him id rev i Hi) as (q & Hqv & Hall). exists q. split; [done|].
    destruct (base_view_records s id v (i / SLOTS) q Hroot eq_refl Hty (range_page _ _ Hi) _ Hqv) as [[Hs _ _] Hdir].
    split_and!; [done|apply Hdir, slot_mod_bound|done]. }
  assert (∀ i, in_range v i → block_view s v i = Some (image_block s r c i)) as Hbl.
  { intros i Hi. destruct (Hq i Hi) as (q & Hqv & Hs & (h & Hlh & Hrec) & Hall).
    rewrite /block_view Hpv /image_block Hbv0 Hqv. cbn [mbind option_bind].
    destruct (slot q i) as [hash|] eqn:Hsl; [|done]. simpl.
    assert (object_slot q i = Some (hash, 0)) as Hob.
    { rewrite (slot_record (i / SLOTS)) // Hrec rslot_direct // in Hsl. rewrite (object_record (i / SLOTS)) // Hrec.
      destruct (all_zero h) eqn:Hzh; [done|]. apply (inj Some) in Hsl as <-. by apply robject_direct. }
    rewrite Hsl Hob !bool_decide_eq_true_2 //=.
    destruct (Hall _ eq_refl) as (b & Hb & Hl & Hd). rewrite Hb /= /cut /= Hl Z.eqb_refl bool_decide_eq_true_2 //. }
  split.
  - split; [done|done|done|by split| | | |].
    + intros i Hi. destruct (Hq i Hi) as (q & Hqv & _ & _ & Hall). exists q. split; [done|]. intros h Hh.
      destruct (Hall h Hh) as (b & Hb). by exists r, b.
    + intros i Hi. by rewrite Hbl.
    + intros i p q Hi Hp Hq' Hl. rewrite Hpv in Hp. destruct (Hq i Hi) as (q0 & Hqv & _ & (h & Hlh & Hrec) & _).
      assert (p = q0) as -> by congruence. rewrite Hrec in Hl. by destruct (direct_not_located h Hlh).
    + intros i b. by rewrite lookup_empty.
  - apply of_blocks_ext. intros i Hi Hlt. rewrite /block lookup_empty /= /committed Hbl //.
    split; [done|]. by apply chunk_index_lt.
Qed.

Lemma create_from_base_spec s id r : typed s → (∀ c, cat_stored s r c → image_complete s r c) →
  wp (create_from_base id r) s (λ x s', base_objects s' = base_objects s ∧ match x with
  | Ok v => ∃ c, cat_stored s r c ∧ vol_ok s' id v ∧ current s' id v ∧ dirty v = ∅ ∧ size (root v) = Base.cat_size c ∧
      disk_eq (Base.cat_size c) (disk_of s' v) (of_blocks (image_block s r c))
  | Err _ => objects s' = objects s end).
Proof.
  intros Hty Him. rewrite /create_from_base. wp_step. apply wp_guard; [intros Hid|done]. wp_step.
  eapply wp_mono; [apply wp_and; [apply load_catalog_spec|]|].
  { instantiate (1 := λ x _, match x with Ok _ => valid_hash (Base.image r) = true ∧ valid_hash (Base.catalog r) = true | Err _ => True end).
    rewrite /Base.load. wp_step. apply wp_of_result. rewrite /decode. destruct (valid_hash (Base.image r)); [|done].
    wp_step. apply wp_of_result. destruct (valid_hash (Base.catalog r)); [|done]. wp_step.
    eapply (wp_mono _ _ (λ _ _, True)); [done|]. intros [b|e] s' _; [|done]. wp_step. by destruct (Base.parse r b). }
  intros [c|e] s1 [[Hv1 H1] H2]; [|by destruct Hv1 as (? & _ & ?)]. destruct H1 as (b & Hb & Hpar).
  assert (cat_stored s r c) as Hcs by (by split_and!; try apply H2; exists b).
  eapply wp_mono; [apply publish_new_spec|]. intros [v|e] s' (Ho & Hbo & H); destruct Hv1 as (Ho1 & _ & Hb1);
    (split; [congruence|]); [|congruence]. destruct H as (rev & -> & _ & Hc). exists c. split; [done|].
  assert (base_objects s' = base_objects s) as Hb' by congruence.
  assert (∀ v i, base_view s' v i = base_view s v i) as Hbv by (intros; apply base_view_same; [done|by split_and!]).
  destruct (from_base_ok s' id r c rev) as [Hok Hd].
  { by rewrite /cat_stored Hb'. }
  { by rewrite /typed Hb' Ho Ho1. }
  { intros id' rev' i Hi. rewrite Hbv Hb'. by apply Him. }
  split_and!; try done; [apply Hc; by left|]. etrans; [exact Hd|]. apply of_blocks_ext. intros i _ _.
  by rewrite /image_block Hbv Hb'.
Qed.

(** ** Properties *)

(** C5: a commit of an indexed volume is atomic.  Whatever the store replies, the
    handle keeps denoting the same disk; on success the store holds exactly that
    disk and the handle is clean; on failure the dirty blocks are kept, the store
    holds the previous disk or the new one, and unless the head is untouched the
    handle demands to be reopened.  The same holds of a replication commit. *)
Theorem indexed_commit_atomic s id v : vol_ok s id v → current s id v → no_collision s v →
  wp commit (v, s) (commit_post s id v (replication (root v))) ∧
  ∀ mark, wp (commit_replication mark) (v, s) (commit_post s id v (Some mark)).
Proof. intros. split; [by apply indexed_commit_spec|intros; by apply commit_replication_spec]. Qed.

(** C6: durability.  Data written at an offset (committing on the way when the
    dirty limit is reached) and committed successfully is what a later reader that
    opens the volume gets, and an unrelated range reads as before the write. *)
Theorem indexed_durable s id v offset input o n :
  vol_ok s id v → current s id v → no_collision s v → bytes input → 0 ≤ offset → 0 ≤ o →
  o + Zlen n ≤ offset ∨ offset + Zlen input ≤ o →
  wp (write offset input) (v, s) (λ r t, is_ok r = true → no_collision t.2 t.1 →
    wp commit t (λ r' t', is_ok r' = true →
      wp (v' ← open id; a ← read v' offset input; b ← read v' o n; mret (a, b)) t'.2
        (λ r'' _, match r'' with
                  | Ok (a, b) => a = input ∧ b = disk_read (disk_of s v) o (Zlen n)
                  | Err _ => True
                  end))).
Proof.
  intros Hok Hcur Hnc Hin Hoff Ho Hdisj. eapply wp_mono; [by apply indexed_write_spec|].
  intros [[]|e] [v1 s1] H1 Hr1 Hnc1; [|done]. destruct H1 as (Hok1 & Hsz1 & Hcur1 & Hd1). simpl in *.
  eapply wp_mono; [by apply indexed_commit_spec|]. intros [g|e] [v2 s2] H2 Hr2; [|done].
  destruct H2 as (_ & _ & _ & _ & _ & _ & _ & _ & _ & Hper). simpl in *.
  wp_step. eapply wp_mono; [eapply indexed_open_spec; by exists (replication (root v1))|]. intros [v3|e] s3 [Hv3 H3]; [|done].
  destruct H3 as (Hok3 & _ & _ & _ & Hsz3 & Hd3). rewrite Hsz1 in Hsz3, Hd3.
  assert (disk_eq (size (root v)) (disk_of s3 v3) (disk_write (disk_of s v) offset input)) as Hd by (etrans; [exact Hd3|exact Hd1]).
  wp_step. eapply wp_mono; [by eapply indexed_read_spec|]. intros [a|e] s4 [Hv4 H4]; [|done]. destruct H4 as [Hc4 ->].
  wp_step. eapply wp_mono; [by eapply indexed_read_spec|]. intros [b|e] s5 [Hv5 H5]; [|done]. destruct H5 as [Hc5 ->].
  apply check_ok in Hc4 as (_ & _ & Hs4), Hc5 as (_ & _ & Hs5). rewrite Hsz3 in Hs4, Hs5.
  pose proof (Zlen_nonneg input). pose proof (Zlen_nonneg n). apply wp_ret. split.
  - rewrite (disk_read_eq _ _ _ _ _ Hd) //. by apply disk_read_write.
  - rewrite -(disk_read_write_other (disk_of s v) offset input) //. by eapply disk_read_eq.
Qed.

(** C7: a volume created from a base image reads as the image, and creating it
    leaves the image untouched. *)
Theorem indexed_from_base s id r : typed s → (∀ c, cat_stored s r c → image_complete s r c) →
  wp (create_from_base id r) s (λ x s', base_objects s' = base_objects s ∧ match x with
  | Ok v => ∃ c, cat_stored s r c ∧ vol_ok s' id v ∧ current s' id v ∧ dirty v = ∅ ∧ size (root v) = Base.cat_size c ∧
      disk_eq (Base.cat_size c) (disk_of s' v) (of_blocks (image_block s r c))
  | Err _ => objects s' = objects s end).
Proof. apply create_from_base_spec. Qed.

End api.

(** ** A concrete volume: 64 KiB on the reference store, with one dirty block. *)
Module Example.
Import Memory.

(** A digest that tells byte strings apart by their first byte and length. *)
#[local] Instance sha : Sha256 := λ b, 1 :: Z.land (index b 0) 255 :: to_be_bytes 4 (Zlen b) ++ replicate 26 0.
#[local] Instance sha_laws : Sha256Laws.
Proof.
  split; intros b; [done| |done]. rewrite /sha256 /sha. constructor; [done|]. constructor.
  - rewrite byte_land /is_byte. dlia.
  - apply bytes_app. split; [apply bytes_to_be_bytes|]. by apply Forall_replicate.
Qed.

#[local] Existing Instance Base.BaseRef_eq_dec.
#[local] Instance BaseRef_countable : Countable Base.BaseRef :=
  inj_countable' (λ r, (Base.image r, Base.catalog r)) (λ '(a, b), Base.mkBaseRef a b) ltac:(by intros []).
#[local] Instance Replication_countable : Countable Replication :=
  inj_countable' (λ r, (rep_id r, sequence r)) (λ '(a, b), mkReplication a b) ltac:(by intros []).
#[local] Instance Root_eq_dec : EqDecision Root.
Proof. solve_decision. Defined.
#[local] Instance Root_countable : Countable Root :=
  inj_countable' (λ r, (format r, volume r, size r, generation r, ready r, pages r, replication r, base r))
    (λ '(a, b, c, d, e, f, g, h), mkRoot a b c d e f g h) ltac:(by intros []).
#[local] Instance json : Json Root := BitJson.bit_json Root.
#[local] Instance json_laws : JsonLaws Root := BitJson.bit_json_laws Root.

Definition r0 : Root := mkRoot 8 "v" 65536 0 true ∅ None None.
Definition s0 : Memory.Mem := (create "v" 65536 Memory.empty).2.
Definition block7 : list Z := replicate (Z.to_nat 65536) 7.
Definition v1 : IndexedVolume := mkIndexed r0 None "r0" {[0 := block7]} false.

Lemma s0_empty : objects s0 = ∅ ∧ base_objects s0 = ∅.
Proof. vm_compute. done. Qed.
Lemma s0_typed : typed s0.
Proof. destruct s0_empty as [E1 E2]. split; intros k b; by rewrite ?E1 ?E2 lookup_empty. Qed.
Lemma block7_whole : Zlen block7 = CHUNK_BYTES ∧ bytes block7.
Proof. split; [rewrite /Zlen /block7 length_replicate; by vm_compute|by apply Forall_replicate]. Qed.
Lemma disk1_dirty i b : dirty v1 !! i = Some b → i = 0 ∧ b = block7.
Proof.
  change (dirty v1) with ({[0 := block7]} : gmap Z (list Z)). intros [E1 E2]%lookup_singleton_Some. split; symmetry; done.
Qed.

Lemma r0_ok : root_ok r0 "v" = true.
Proof. vm_compute. done. Qed.
Lemma disk1_ok : vol_ok s0 "v" v1 ∧ ∀ i, block_view s0 v1 i = Some (zeros CHUNK_BYTES).
Proof.
  destruct (fresh_ok s0 "v" r0 "r0" r0_ok eq_refl eq_refl eq_refl s0_typed) as [[] Hbl]. split; [|exact Hbl].
  split; try done. intros i b [-> ->]%disk1_dirty. split; [by vm_compute|exact block7_whole].
Qed.
Lemma disk1_current : current s0 "v" v1.
Proof. exists (mkHead "r0" (BitJson.bits (encode r0))). split; [vm_compute; done|]. by split_and!; vm_compute. Qed.

(** What the digest tells apart. *)
Lemma sha_first b b' : digest b = digest b' → Zlen b < 2 ^ 32 → Zlen b' < 2 ^ 32 →
  Z.land (index b 0) 255 = Z.land (index b' 0) 255 ∧ Zlen b = Zlen b'.
Proof.
  intros E%digest_inj_sha Hl Hl'. rewrite /sha256 /sha in E. pose proof (Zlen_nonneg b). pose proof (Zlen_nonneg b').
  assert (Z.land (index b 0) 255 = Z.land (index b' 0) 255 ∧
    to_be_bytes 4 (Zlen b) ++ replicate 26 0 = to_be_bytes 4 (Zlen b') ++ replicate 26 0) as [E1 E2]
    by (split; [exact (f_equal (λ l, nth 1 l 0) E)|exact (f_equal (drop 2) E)]).
  split; [done|]. apply app_inj_1 in E2 as [E2 _]; [|by rewrite !length_to_be_bytes].
  rewrite -(from_to_be_bytes 4 (Zlen b)); [lia|]. rewrite E2. apply from_to_be_bytes. lia.
Qed.

Lemma concat_block7 l : (∀ b, b ∈ l → b = block7) → ∃ k, concat l = replicate k 7.
Proof.
  intros Hl. induction l as [|b l IH]; [by exists 0%nat|]. destruct IH as [k Hk]; [intros; apply Hl; by right|].
  exists (Z.to_nat 65536 + k)%nat. rewrite replicate_add -Hk (Hl b) //. by left.
Qed.

Lemma disk1_no_collision : no_collision s0 v1.
Proof.
  intros s1 force cancel ps bases packs Hv Hc Hrun. destruct disk1_ok as [Hok Hbl]. destruct s0_empty as [E1 E2].
  pose proof (stage_spec s0 s1 "v" v1 force cancel Hok Hc Hv) as Hst. rewrite /wp Hrun in Hst. destruct Hst as [_ Hst].
  assert (∀ b, known s0 v1 ps packs b → (∃ k, b = replicate k 7 ∧ Zlen b ≤ MAX_OBJECT_BYTES) ∨ b = zeros CHUNK_BYTES ∨
    ps !! 0 = Some b ∧ index b 0 = 65 ∧ Zlen b = PACK_PAGE_BYTES) as Hkn.
  { intros b [k Hb|k Hb|i Hb|i Hb|d Hb|pi Hb].
    - by rewrite E1 lookup_empty in Hb.
    - by rewrite E2 lookup_empty in Hb.
    - rewrite Hbl in Hb. apply (inj Some) in Hb. auto.
    - apply disk1_dirty in Hb as [_ ->]. left. exists (Z.to_nat 65536). split; [done|]. destruct block7_whole as [-> _]. by vm_compute.
    - left. destruct (out_contents _ _ _ _ _ Hst _ _ Hb) as (l & E & Hl). destruct (out_packs _ _ _ _ _ Hst _ _ Hb) as [_ [_ Hs _]].
      destruct (concat_block7 l) as [k Hk]; [intros c Hcl; by destruct (Hl c Hcl) as [i [_ ->]%disk1_dirty]|]. exists k. by rewrite E in Hs |- *.
    - right. right. destruct (out_page _ _ _ _ _ Hst _ _ Hb) as ((H0 & H1) & _ & _ & _ & _ & Hs & _).
      assert (pi = 0) as ->. { rewrite /nblocks /SLOTS /= in H1. assert (65536 / CHUNK_BYTES = 1) as E by done. lia. }
      split; [done|]. split; [|by eapply shaped_len]. pose proof (shaped_magic _ _ Hs) as Hm.
      apply (f_equal (λ l, index l 0)) in Hm. rewrite index_slice in Hm; [lia..|]. exact Hm. }
  assert (∀ k, index (replicate k 7) 0 = 7 ∨ k = 0%nat) as H7 by (intros [|k]; auto).
  assert (CHUNK_BYTES = 65536 ∧ MAX_OBJECT_BYTES = 1048576 ∧ PACK_PAGE_BYTES = 131072) as (HC & HM & HP) by done.
  assert (Zlen (zeros CHUNK_BYTES) = 65536) as Hlz by (by apply Zlen_zeros).
  assert (∀ b, known s0 v1 ps packs b → Zlen b < 2 ^ 32) as Hsm.
  { intros b [(k & _ & Hl)|[->|(_ & _ & Hl)]]%Hkn; lia. }
  assert (index (zeros CHUNK_BYTES) 0 = 0) as Hz0 by apply index_zeros.
  clear Hbl Hst. revert Hkn Hlz Hz0. generalize (zeros CHUNK_BYTES). intros z Hkn Hlz Hz0.
  intros b b' Hb Hb' Heq. destruct (sha_first _ _ Heq (Hsm _ Hb) (Hsm _ Hb')) as [Hi Hl].
  apply Hkn in Hb, Hb'.
  destruct Hb as [(k & -> & _)|[->|(Hp & Hib & Hpl)]], Hb' as [(k' & -> & _)|[->|(Hp' & Hib' & Hpl')]]; try done.
  - rewrite /Zlen !length_replicate in Hl. f_equal. lia.
  - rewrite Hz0 in Hi. destruct (H7 k) as [E| ->]; [by rewrite E in Hi|by rewrite Hlz in Hl].
  - rewrite Hib' in Hi. destruct (H7 k) as [E| ->]; [by rewrite E in Hi|by rewrite Hpl' in Hl].
  - rewrite Hz0 in Hi. destruct (H7 k') as [E| ->]; [by rewrite E in Hi|by rewrite Hlz in Hl].
  - by rewrite Hz0 Hib' in Hi.
  - rewrite Hib in Hi. destruct (H7 k') as [E| ->]; [by rewrite E in Hi|by rewrite Hpl in Hl].
  - by rewrite Hz0 Hib in Hi.
  - congruence.
Qed.

Lemma indexed_commit_atomic_witness : wp commit (v1, s0) (commit_post s0 "v" v1 None) ∧
  ∀ mark, wp (commit_replication mark) (v1, s0) (commit_post s0 "v" v1 (Some mark)).
Proof. apply (indexed_commit_atomic s0 "v" v1); [apply disk1_ok|apply disk1_current|apply disk1_no_collision]. Defined.

Lemma indexed_durable_witness :
  wp (write 512 [1; 2; 3]) (v1, s0) (λ r t, is_ok r = true → no_collision t.2 t.1 →
    wp commit t (λ r' t', is_ok r' = true →
      wp (v' ← open "v"; a ← read v' 512 [1; 2; 3]; b ← read v' 0 [0; 0]; mret (a, b)) t'.2
        (λ r'' _, match r'' with
                  | Ok (a, b) => a = [1; 2; 3] ∧ b = disk_read (disk_of s0 v1) 0 (Zlen [0; 0])
                  | Err _ => True
                  end))).
Proof.
  apply (indexed_durable s0 "v" v1 512 [1; 2; 3] 0 [0; 0]);
    [apply disk1_ok|apply disk1_current|apply disk1_no_collision|by repeat constructor|lia|lia|by left].
Defined.

(** A store that holds the catalog of a blank base image. *)
Definition image0 : Base.BaseRef := Base.mkBaseRef Base.Example.name (digest Base.Example.bytes_of_blank).
Definition sb : Memory.Mem :=
  mkMem ∅ ∅ {[(Base.Example.name, digest Base.Example.bytes_of_blank) := Base.Example.bytes_of_blank]} 0 [] [].

Lemma sb_base k b : base_objects sb !! k = Some b → b = Base.Example.bytes_of_blank.
Proof.
  change (base_objects sb) with ({[(Base.Example.name, digest Base.Example.bytes_of_blank) := Base.Example.bytes_of_blank]}
    : gmap (string * string) (list Z)). intros [_ E]%lookup_singleton_Some. symmetry. exact E.
Qed.

Lemma sb_typed : typed sb.
Proof.
  split; intros k b; [by rewrite lookup_empty|]. intros Hb%sb_base. rewrite Hb.
  destruct Base.Example.raw_name_ok as [Hr _]. rewrite /Base.Example.bytes_of_blank.
  apply bytes_splice; [|done]. apply bytes_splice; [|apply bytes_to_be_bytes]. apply bytes_splice; [apply bytes_zeros|].
  by repeat constructor.
Qed.

Lemma sb_image c : cat_stored sb image0 c → image_complete sb image0 c.
Proof.
  intros (_ & _ & b & Hb%sb_base & Hp). rewrite Hb in Hp.
  assert (c = Base.Example.blank_catalog) as ->.
  { pose proof (Base.catalog_roundtrip_spec _ _ _ Base.Example.blank_catalog_ok Base.Example.blank_encode) as E.
    rewrite /image0 E in Hp. congruence. }
  intros id rev i _. exists (blank true (i / SLOTS)). split; [by apply base_view_blank|]. intros h. by rewrite slot_blank.
Qed.

Lemma indexed_from_base_witness : wp (create_from_base "v" image0) sb (λ x s', base_objects s' = base_objects sb ∧ match x with
  | Ok v => ∃ c, cat_stored sb image0 c ∧ vol_ok s' "v" v ∧ current s' "v" v ∧ dirty v = ∅ ∧ size (root v) = Base.cat_size c ∧
      disk_eq (Base.cat_size c) (disk_of s' v) (of_blocks (image_block sb image0 c))
  | Err _ => objects s' = objects sb end).
Proof. apply (indexed_from_base sb "v" image0); [apply sb_typed|intros c; apply sb_image]. Defined.

End Example.
End IndexedApi.
