(* ===== verification/Repack.v ===== *)
(** Pack compaction, [IndexedVolume::compact_packs] of [ahvm-volume/src/indexed.rs]:
    one pass stages the live blocks of the sparse packs that one index page names
    and commits them into fresh packs.  A pass keeps the volume's disk and its
    replication mark whatever the store does, stays inside its budget, and either
    rewrites a block or moves its cursor. *)
From S2P Require Import Prelude Codec ObjectStore Blocks Base Page Indexed Staging IndexedCommit IndexedApi.

Module Repack.
Import Page Indexed Staging IndexedCommit IndexedApi.

(** A block of a group: its index, its offset in the pack and its hash. *)
Definition Entry : Type := (Z * Z * string)%type.
Definition at_index (e : Entry) : Z := e.1.1.
Definition at_offset (e : Entry) : Z := e.1.2.
Definition at_hash (e : Entry) : string := e.2.

Definition nothing : Compaction := mkCompaction 0 None.

Section repack.
Context {S : Type} {SHA : Sha256} {OS : ObjectStore S} {JR : Json Root}.

(** [bytes.get(offset..offset + CHUNK_BYTES)] *)
Definition get_chunk (b : list Z) (offset : Z) : option (list Z) :=
  if offset + CHUNK_BYTES <=? Zlen b then Some (slice b offset CHUNK_BYTES) else None.

(** The cursor that the caller may resume from. *)
Definition cursor_ok (v : IndexedVolume) (c : CompactionCursor) : bool :=
  (page_at c <? div_ceil (size (root v) / CHUNK_BYTES) SLOTS)
  && match after_pack c with Some h => valid_hash h | None => true end.

(** [groups.entry(pack).or_default().push(..)] *)
Definition group_slot (page : list Z) (page_index : Z) (groups : gmap string (list Entry)) (within : Z)
    : M Error S (gmap string (list Entry)) :=
  let index := page_index * SLOTS + within in
  match object_slot page index with
  | Some (pack, offset) =>
      chunk ← ok_or (slot page index) Corrupt;
      if bool_decide (pack = chunk) then mret groups
      else mret (<[pack := default [] (groups !! pack) ++ [(index, offset, chunk)]]> groups)
  | None => mret groups
  end.

(** The check of one block of the pack, each place and hash once. *)
Definition verify_entry (cancel : S → bool * S) (b : list Z) (verified : gset (Z * string)) (e : Entry)
    : M Error S (gset (Z * string)) :=
  check_cancel cancel;;
  chunk ← ok_or (get_chunk b (at_offset e)) Corrupt;
  if bool_decide ((at_offset e, at_hash e) ∈ verified) then mret verified
  else
    guard_err (bool_decide (digest chunk = at_hash e)) Corrupt;;
    mret ({[(at_offset e, at_hash e)]} ∪ verified).

Definition offsets (es : list Entry) : gset Z := list_to_set (at_offset <$> es).

(** [self.dirty.insert(index, chunk)] *)
Definition stage_entry (b : list Z) (e : Entry) : M Error (IndexedVolume * S) unit :=
  chunk ← ok_or (get_chunk b (at_offset e)) Corrupt;
  guard_err (bool_decide (digest chunk = at_hash e)) Corrupt;;
  v ← gets fst;
  set_handle (mkIndexed (root v) (cat v) (vol_revision v) (<[at_index e := chunk]> (dirty v)) (poisoned v)).

(** [for (pack, entries) in groups]: the next cursor, when the pass stops inside
    this page, and the bytes it consumed. *)
Fixpoint repack_groups (page_index budget : Z) (resume : option string) (cancel : S → bool * S)
    (groups : list (string * list Entry)) (consumed : Z) (completed : option string)
    : M Error (IndexedVolume * S) (option CompactionCursor * Z) :=
  match groups with
  | [] => mret (None, consumed)
  | (pack, es) :: groups =>
      if match resume with Some h => String.leb pack h | None => false end
      then repack_groups page_index budget resume cancel groups consumed completed
      else
        on_store (check_cancel cancel);;
        if budget <? consumed + MAX_OBJECT_BYTES + CHUNK_BYTES then
          mret (Some (mkCursor page_index completed), consumed)
        else
          v ← gets fst;
          b ← on_store (chunk (volume (root v)) pack);
          guard_err ((Zlen b <=? MAX_OBJECT_BYTES) && is_multiple_of (Zlen b) CHUNK_BYTES && bool_decide (digest b = pack)) Corrupt;;
          let consumed := consumed + Zlen b in
          guard_err (CHUNK_BYTES <=? Zlen b) Corrupt;;
          on_store (foldM (verify_entry cancel b) ∅ es);;
          if Zlen b <=? Z.of_nat (base.size (offsets es)) * CHUNK_BYTES
          then repack_groups page_index budget resume cancel groups consumed (Some pack)
          else
            let available := (budget - consumed) / CHUNK_BYTES in
            let taken := take (Z.to_nat available) es in
            for_each taken (stage_entry b);;
            let consumed := consumed + Zlen taken * CHUNK_BYTES in
            if available <? Zlen es then mret (Some (mkCursor page_index completed), consumed)
            else repack_groups page_index budget resume cancel groups consumed (Some pack)
  end.

Definition resume_of (after : option CompactionCursor) (page_index : Z) : option string :=
  c ← after; if page_at c =? page_index then after_pack c else None.
(** [self.root.pages.iter().find(|(index, _)| ...)] *)
Definition first_page (v : IndexedVolume) (f : Z → bool) : option Z := List.find f (entries (pages (root v))).*1.
Definition from_cursor (after : option CompactionCursor) (i : Z) : bool :=
  match after with Some c => page_at c <=? i | None => true end.

(** [commit_packed(next, ..., true, cancel)] of a staged pass. *)
Definition commit_pass (count : Z) (cancel : S → bool * S) : M Error (IndexedVolume * S) unit :=
  if count =? 0 then mret tt else
    r ← try_ (on_store (check_cancel cancel));
    match r with
    | Err e => v ← gets fst; set_handle (clear_dirty v);; fail e
    | Ok _ =>
        v ← gets fst;
        let r := root v in
        gen ← ok_or (u64_checked_add (generation r) 1) Corrupt;
        commit_packed (mkRoot (format r) (volume r) (size r) gen (ready r) (pages r) (replication r) (base r))
          WORKERS true cancel;;
        mret tt
    end.

Definition compact_packs_inner (after : option CompactionCursor) (budget : Z) (cancel : S → bool * S)
    : M Error (IndexedVolume * S) Compaction :=
  v ← gets fst;
  of_result (check v 0 0);;
  guard_err (match after with Some c => cursor_ok v c | None => true end) InvalidInput;;
  guard_err (bool_decide (dirty v = ∅) && (2 * MAX_OBJECT_BYTES <=? budget) && (budget <=? 8 * MAX_OBJECT_BYTES)) InvalidInput;;
  if negb (packed (root v)) then mret nothing else
  match first_page v (from_cursor after) with
  | None => mret nothing
  | Some page_index =>
      on_store (check_cancel cancel);;
      p ← on_store (page v page_index);
      groups ← on_store (foldM (group_slot p page_index) ∅ (seqZ 0 SLOTS));
      let resume := resume_of after page_index in
      '(next_cursor, consumed) ← repack_groups page_index budget resume cancel
        (merge_sort by_string (map_to_list groups)) 0 resume;
      v ← gets fst;
      let count := Z.of_nat (base.size (dirty v)) in
      commit_pass count cancel;;
      v ← gets fst;
      mret (mkCompaction count (match next_cursor with
        | Some c => Some c
        | None => (λ i, mkCursor i None) <$> first_page v (λ i, page_index <? i)
        end))
  end.

Definition compact_packs (after : option CompactionCursor) (budget : Z) (cancel : S → bool * S)
    : M Error (IndexedVolume * S) Compaction :=
  v ← gets fst;
  of_result (check v 0 0);;
  guard_err (bool_decide (dirty v = ∅)) InvalidInput;;
  r ← try_ (compact_packs_inner after budget cancel);
  match r with
  | Ok c => mret c
  | Err e => v ← gets fst; set_handle (clear_dirty v);; fail e
  end.

(** ** The blocks that a pass may stage *)
Context {SV : StoreView S} {SHAL : Sha256Laws} {OSL : ObjectStoreLaws S} {JL : JsonLaws Root}.

(** Copies of committed blocks. *)
Definition copies (s : S) (v : IndexedVolume) (m : gmap Z (list Z)) : Prop :=
  ∀ i b, m !! i = Some b → in_range v i ∧ block_view s v i = Some b.
Definition holding (v : IndexedVolume) (m : gmap Z (list Z)) : IndexedVolume :=
  mkIndexed (root v) (cat v) (vol_revision v) m (poisoned v).

Lemma copies_empty s v : copies s v ∅.
Proof. intros i b. by rewrite lookup_empty. Qed.

Lemma copies_insert s v m i b : copies s v m → in_range v i → block_view s v i = Some b → copies s v (<[i := b]> m).
Proof. intros Hm Hi Hb j c [[<- <-]|[_ Hj]]%lookup_insert_Some; [done|by apply Hm]. Qed.

(** A handle that holds copies is a handle of the same disk. *)
Lemma holding_ok s id v m : vol_ok s id v → dirty v = ∅ → copies s v m →
  vol_ok s id (holding v m) ∧ disk_eq (size (root v)) (disk_of s (holding v m)) (disk_of s v).
Proof.
  intros Hok Hd Hm. split.
  - destruct Hok. split; try done. intros i b Hb. destruct (Hm i b Hb) as [Hi Hv]. split; [done|]. by eapply block_view_whole.
  - apply of_blocks_ext. intros i _ _. rewrite /block Hd lookup_empty /=. destruct (m !! i) as [b|] eqn:Hb; [|done].
    destruct (Hm i b Hb) as [_ Hv]. by rewrite /= /committed Hv.
Qed.

(** The entry names a slot of the page whose block lives inside the pack. *)
Definition live_entry (p : list Z) (pi : Z) (pack : string) (e : Entry) : Prop :=
  at_index e / SLOTS = pi ∧ object_slot p (at_index e) = Some (pack, at_offset e) ∧
  slot p (at_index e) = Some (at_hash e) ∧ pack ≠ at_hash e.

Lemma get_chunk_Some b off c : get_chunk b off = Some c → off + CHUNK_BYTES ≤ Zlen b ∧ c = slice b off CHUNK_BYTES.
Proof. rewrite /get_chunk. case: Z.leb_spec => ? // [= <-]. done. Qed.

Section pass.
Variables (s0 : S) (id : string) (v : IndexedVolume) (p : list Z) (pi : Z).
Hypotheses (Hok : vol_ok s0 id v) (Hrange : page_range v pi) (Hp : page_view s0 v pi = Some p).

Lemma page_shaped : page_fine v pi p.
Proof using All. by destruct (page_view_fine s0 id v pi p (ok_root _ _ _ Hok) (ok_packed _ _ _ Hok) (ok_typed _ _ _ Hok) Hrange Hp). Qed.

(** Slots beyond the end of the volume are empty. *)
Lemma slot_in_range i h : i / SLOTS = pi → slot p i = Some h → in_range v i.
Proof using All.
  intros Hi Hs. destruct page_shaped as [Hsh _ Hz]. rewrite (slot_record pi) // in Hs.
  pose proof (slot_mod_bound i) as Hb. destruct Hrange as [H0 _]. split; [unfold SLOTS in *; dlia|].
  apply Z.nle_gt. intros Hge. rewrite Hz // in Hs. replace (pi * SLOTS + i mod SLOTS) with i by (unfold SLOTS in *; dlia). done.
Qed.

Lemma live_block pack e b c : live_entry p pi pack e → digest b = pack → objects s0 !! (volume (root v), pack) = Some b →
  get_chunk b (at_offset e) = Some c → in_range v (at_index e) ∧ block_view s0 v (at_index e) = Some c.
Proof using All.
  intros (Hi & Ho & Hs & Hne) Hd Hb [Hle ->]%get_chunk_Some. pose proof (slot_in_range _ _ Hi Hs) as Hir. split; [done|].
  destruct (ok_blocks _ _ _ Hok _ Hir) as [x Hx]. destruct page_shaped as [Hsh _ _].
  destruct (ok_base _ _ _ Hok _ Hir) as (q & Hq & _).
  assert (located (record p (at_index e mod SLOTS))) as Hloc.
  { rewrite (object_record pi) // in Ho. rewrite (slot_record pi) // in Hs. rewrite /robject Hs /= in Ho. rewrite /rslot in Hs.
    rewrite /located. by destruct (all_zero (slice _ 0 32)), (all_zero (slice _ 32 32)); simplify_eq. }
  pose proof (ok_private _ _ _ Hok _ p q Hir ltac:(by rewrite Hi) Hq Hloc) as Hpriv.
  rewrite Hx. rewrite /block_view Hi Hp /= Hs in Hx. rewrite -Hi Hq /= in Hx.
  assert (∀ bp, match cat v with Some _ => Some (Some q) | None => Some None end = Some bp → inherited bp p (at_index e) (at_hash e) = false) as Hinh.
  { intros bp. destruct (cat v); intros [= <-]; [|done]. rewrite /inherited bool_decide_eq_false_2 //. by rewrite -Hs. }
  destruct (match cat v with Some _ => Some (Some q) | None => Some None end) as [bp|]; [|done]. rewrite /= Hinh // Ho /= Hb /= in Hx.
  rewrite /cut bool_decide_eq_false_2 //= in Hx. case_match; [done|]. case_match; [done|]. by apply (inj Some) in Hx as <-.
Qed.

(** *** Grouping *)
Definition groups_ok (groups : gmap string (list Entry)) : Prop :=
  ∀ pack es, groups !! pack = Some es → es ≠ [] ∧ ∀ e, e ∈ es → live_entry p pi pack e.

Lemma group_slot_spec groups j s : 0 ≤ j < SLOTS → groups_ok groups →
  wp (group_slot p pi groups j) s (λ r s', s' = s ∧ match r with Ok g => groups_ok g | Err _ => True end).
Proof using Type.
  intros Hj Hg. rewrite /group_slot. destruct (object_slot p (pi * SLOTS + j)) as [[pack off]|] eqn:Ho; [|by wp_step].
  wp_step. apply wp_ok_or; [intros h Hs|done]. case_bool_decide as Hne; wp_step; (split; [done|]); [done|].
  intros pk es [[<- <-]|[_ He]]%lookup_insert_Some; [|by apply Hg]. split; [by destruct (default _ _)|].
  intros e [He|He%list_elem_of_singleton]%elem_of_app.
  - destruct (groups !! pack) as [es|] eqn:E; [by eapply Hg|by apply not_elem_of_nil in He].
  - subst e. split_and!; try done. rewrite /at_index /=. unfold SLOTS in *. dlia.
Qed.

Lemma groups_spec s : wp (foldM (group_slot p pi) ∅ (seqZ 0 SLOTS)) s (λ r s', s' = s ∧
  match r with Ok g => groups_ok g | Err _ => True end).
Proof using Type.
  apply (wp_foldM _ _ _ _ (λ g l s', s' = s ∧ groups_ok g ∧ ∀ j, j ∈ l → 0 ≤ j < SLOTS)).
  - split_and!; [done| |]; [intros ??; by rewrite lookup_empty|]. intros j Hj%elem_of_seqZ. lia.
  - intros g j l s' (-> & Hg & Hl). eapply wp_mono; [apply group_slot_spec; [apply Hl; by left|done]|].
    intros [g'|e] s' [-> Hg']; [|done]. split_and!; [done..|]. intros k Hk. apply Hl. by right.
  - intros g s' (-> & Hg & _). done.
Qed.

(** *** Staging *)
Variable cancel : S → bool * S.
Hypothesis Hcancel : observes cancel.

Lemma verify_spec b es done_ s : same_view s0 s → wp (foldM (verify_entry cancel b) done_ es) s (λ _ s', same_view s0 s').
Proof using All.
  intros Hv. apply (wp_foldM _ _ _ _ (λ _ _ s', same_view s0 s')); [done| |done].
  intros m e l s1 Hv1. rewrite /verify_entry. wp_step. eapply wp_mono; [by apply check_cancel_law|].
  intros [[]|e'] s2 Hv2; (assert (same_view s0 s2) as Hv02 by (by etrans)); [|done].
  by wp_steps.
Qed.

(** The handle holds copies beside its committed root. *)
Definition held (m : gmap Z (list Z)) (t : IndexedVolume * S) : Prop :=
  t.1 = holding v m ∧ copies s0 v m ∧ same_view s0 t.2.

Lemma stage_entry_spec pack b e m t : live_entry p pi pack e → digest b = pack → objects s0 !! (volume (root v), pack) = Some b →
  held m t → wp (stage_entry b e) t (λ r t', match r with
    | Ok _ => ∃ m', held m' t' ∧ m' ≠ ∅ ∧ (base.size m' ≤ base.size m + 1)%nat
    | Err _ => held m t' end).
Proof using All.
  intros Hl Hd Hb (Ht & Hm & Hv). rewrite /stage_entry. wp_step. apply wp_ok_or; [intros c Hc|done].
  wp_step. apply wp_guard; intros _; [|done]. wp_step. apply wp_gets. apply wp_modify. rewrite Ht /=.
  destruct (live_block _ _ _ _ Hl Hd Hb Hc) as [Hi Hbv]. exists (<[at_index e := c]> m). split_and!.
  - split_and!; try done. by apply copies_insert.
  - apply insert_non_empty.
  - rewrite map_size_insert. destruct (m !! at_index e); simpl; lia.
Qed.

Lemma stage_entries_spec pack b es m t : (∀ e, e ∈ es → live_entry p pi pack e) → digest b = pack →
  objects s0 !! (volume (root v), pack) = Some b → held m t →
  wp (for_each es (stage_entry b)) t (λ r t', ∃ m', held m' t' ∧ match r with
    | Ok _ => (es ≠ [] → m' ≠ ∅) ∧ (m ≠ ∅ → m' ≠ ∅) ∧ (base.size m' ≤ base.size m + length es)%nat
    | Err _ => True end).
Proof using All.
  intros Hl Hd Hb. revert m t. induction es as [|e es IH]; intros m t Hh; simpl.
  - wp_step. exists m. split_and!; [done..|lia].
  - wp_step. eapply wp_mono; [by eapply stage_entry_spec; [apply Hl; left| | |]|].
    intros [[]|x] t' H'; [|by exists m]. destruct H' as (m1 & Hh1 & Hne & Hsz).
    eapply wp_mono; [apply (IH ltac:(intros; apply Hl; by right) m1 t' Hh1)|].
    intros [[]|x] t2 (m2 & Hh2 & H2); exists m2; (split; [done|]); [|done]. destruct H2 as (_ & H2 & Hsz2).
    split_and!; [auto..|lia].
Qed.

(** *** The packs of the page *)
Variables (budget : Z) (resume : option string).
Hypothesis Hbudget : 2 * MAX_OBJECT_BYTES ≤ budget.

(** The pass went past the pack it resumed after. *)
Definition moved (completed : option string) : Prop :=
  ∃ h, completed = Some h ∧ valid_hash h = true ∧ match resume with Some r => String.leb h r = false | None => True end.
(** What the loop keeps. *)
Record pass_inv (consumed : Z) (completed : option string) (m : gmap Z (list Z)) : Prop := {
  pi_bytes : 0 ≤ consumed ≤ budget;
  pi_blocks : Z.of_nat (base.size m) * CHUNK_BYTES ≤ consumed;
  pi_place : completed = resume ∨ moved completed;
  pi_moved : consumed = 0 ∨ moved completed ∨ m ≠ ∅;
}.
Definition pass_post (r : Result Error (option CompactionCursor * Z)) (t : IndexedVolume * S) : Prop :=
  ∃ m, held m t ∧ match r with
  | Ok (c, consumed) => (∃ completed, pass_inv consumed completed m ∧
      match c with Some c => c = mkCursor pi completed ∧ (moved completed ∨ m ≠ ∅) | None => True end)
  | Err _ => True end.

Lemma repack_groups_spec groups consumed completed m t :
  (∀ pack es, (pack, es) ∈ groups → es ≠ [] ∧ ∀ e, e ∈ es → live_entry p pi pack e) →
  held m t → pass_inv consumed completed m →
  wp (repack_groups pi budget resume cancel groups consumed completed) t pass_post.
Proof using All.
  assert (CHUNK_BYTES = 65536 ∧ MAX_OBJECT_BYTES = 1048576) as [HC HM] by done.
  revert consumed completed m t. induction groups as [|[pack es] groups IH]; intros consumed completed m t Hgr Hh Hi; simpl.
  { wp_step. exists m. split; [done|]. by exists completed. }
  assert (∀ c d m t, held m t → pass_inv c d m → wp (repack_groups pi budget resume cancel groups c d) t pass_post) as IH'.
  { intros c d m' t' ??. apply (IH c d m'); [|done..]. intros pk l Hin. apply Hgr. by right. }
  destruct (Hgr pack es) as [Hne Hes]; [by left|]. destruct (match resume with Some h => String.leb pack h | None => false end) eqn:Hres.
  { by apply (IH' consumed completed m). }
  destruct t as [v1 s1]. destruct Hh as (Hv1 & Hm & Hs1). cbn [fst snd] in *. subst v1.
  wp_step. apply wp_on_store. eapply wp_mono; [by apply check_cancel_law|]. intros r s2 Hs2.
  assert (same_view s0 s2) as Hs02 by (by etrans). destruct r as [[]|x]; [|by exists m].
  destruct (Z.ltb_spec budget (consumed + MAX_OBJECT_BYTES + CHUNK_BYTES)) as [Hfull|Hroom].
  { wp_step. exists m. split; [done|]. exists completed. split; [done|]. split; [done|]. destruct Hi as [? _ _ [?|?]]; [lia|done]. }
  wp_step. apply wp_gets. cbn [fst root holding]. wp_step. apply wp_on_store. eapply wp_mono; [apply chunk_law|].
  intros r s3 [Hs3 Hb]. assert (same_view s0 s3) as Hs03 by (by etrans). destruct r as [b|x]; [|by exists m].
  wp_step. apply wp_guard; [intros [[Hlen%Z.leb_le Hmul]%andb_prop Hd%bool_decide_eq_true]%andb_prop|intros _; by exists m].
  assert (objects s0 !! (volume (root v), pack) = Some b) as Hob by (destruct Hs02 as (<- & _); by apply Hb).
  cbv zeta. wp_step. apply wp_guard; [intros Hmin%Z.leb_le|intros _; by exists m].
  wp_step. apply wp_on_store. eapply wp_mono; [by apply verify_spec|]. intros r s4 Hs4. destruct r as [vs|x]; [|by exists m].
  assert (moved (Some pack)) as Hmv.
  { exists pack. split_and!; [done|subst pack; apply valid_hash_digest|]. by destruct resume. }
  destruct Hi as [Hby Hbl Hpl _].
  destruct (Zlen b <=? _) eqn:Hlive.
  { apply (IH' _ _ m); [done|]. split; [lia|lia|by right|by right; left]. }
  set (avail := (budget - (consumed + Zlen b)) / CHUNK_BYTES). set (taken := take (Z.to_nat avail) es).
  assert (1 ≤ avail) as Hav by (apply Z.div_le_lower_bound; lia).
  assert (avail * CHUNK_BYTES ≤ budget - (consumed + Zlen b)) as Hfit by (rewrite Z.mul_comm; apply Z.mul_div_le; lia).
  assert (Zlen taken ≤ avail) as Htk by (rewrite /Zlen /taken length_take; lia).
  assert (taken ≠ []) as Htne by (rewrite /taken; destruct es; [done|]; by replace (Z.to_nat avail) with (1 + Z.to_nat (avail - 1))%nat by lia).
  pose proof (Zlen_nonneg taken) as Hpos.
  wp_step. eapply wp_mono; [eapply (stage_entries_spec pack b taken m); try done|].
  { intros e He. apply Hes. rewrite -(take_drop (Z.to_nat avail) es) elem_of_app. by left. }
  intros r t5 (m5 & Hh5 & H5). destruct r as [[]|x]; [|by exists m5]. destruct H5 as (Hne5 & _ & Hsz5).
  assert (pass_inv (consumed + Zlen b + Zlen taken * CHUNK_BYTES) (Some pack) m5) as Hi5.
  { split; [nia| |by right|by right; left]. rewrite /Zlen in Hsz5 |- *. nia. }
  destruct (avail <? Zlen es); [|by apply (IH' _ _ m5)].
  wp_step. exists m5. split; [done|]. exists completed. destruct Hi5. split; [split; auto|auto].
Qed.
End pass.

(** ** One pass *)
(** SHA-256 does not collide on what the commit of any copies computes. *)
Definition no_collision_pass (s : S) (v : IndexedVolume) : Prop := ∀ m, copies s v m → no_collision s (holding v m).

Definition sound_cursor (v : IndexedVolume) (after : option CompactionCursor) : bool :=
  match after with Some c => cursor_ok v c | None => true end.
(** The pass resumes strictly later. *)
Definition cursor_lt (after : option CompactionCursor) (c : CompactionCursor) : Prop :=
  match after with
  | None => page_at c ≠ 0 ∨ is_Some (after_pack c)
  | Some a => page_at a < page_at c ∨ page_at a = page_at c ∧
      ∃ h, after_pack c = Some h ∧ match after_pack a with Some r => String.leb h r = false | None => True end
  end.

Lemma holding_empty v : dirty v = ∅ → holding v ∅ = v.
Proof. intros Hd. rewrite /holding -Hd. by destruct v. Qed.

Section kept.
Variables (s0 : S) (id : string) (v : IndexedVolume).
Hypotheses (Hok : vol_ok s0 id v) (Hcur : current s0 id v) (Hclean : dirty v = ∅).

Lemma committed_clean : disk_eq (size (root v)) (of_blocks (committed s0 v)) (disk_of s0 v).
Proof using All. apply of_blocks_ext. intros i _ _. by rewrite /block Hclean lookup_empty. Qed.

Lemma persisted_kept s1 : grows s0 s1 → typed s1 → heads s1 = heads s0 →
  persisted_with s1 id (size (root v)) (disk_of s0 v) (replication (root v)).
Proof using All.
  intros Hg Hty Hh. destruct (disk_grows s0 id v Hok Hcur s1 v) as (Hok1 & _ & Hd); [done|done|by split|exact (ok_root _ _ _ Hok)|done|].
  assert (current s1 id v) as Hc1 by (destruct Hcur as (h & ?); exists h; by rewrite Hh).
  destruct (persisted_head s1 id v Hok1 Hc1) as (w & ?&?&?&?&?& Hw & ?). exists w. split_and!; try done.
  etrans; [done|]. etrans; [done|apply committed_clean].
Qed.

(** What holds of the handle and the store after any pass. *)
Record pass_keeps (t : IndexedVolume * S) : Prop := {
  pk_grows : grows s0 t.2;
  pk_ok : vol_ok t.2 id t.1;
  pk_size : size (root t.1) = size (root v);
  pk_dirty : dirty t.1 = ∅;
  pk_disk : disk_eq (size (root v)) (disk_of t.2 t.1) (disk_of s0 v);
  pk_persisted : persisted_with t.2 id (size (root v)) (disk_of s0 v) (replication (root v));
}.
Definition keeps (r : bool) (t : IndexedVolume * S) : Prop := pass_keeps t ∧
  if r then current t.2 id t.1 ∧ poisoned t.1 = poisoned v ∧ replication (root t.1) = replication (root v)
  else heads t.2 = heads s0 ∧ t.1 = v ∨ poisoned t.1 = true.

(** A handle of the same root with nothing staged. *)
Lemma root_keeps v' s : grows s0 s → typed s → root v' = root v → cat v' = cat v → dirty v' = ∅ →
  persisted_with s id (size (root v)) (disk_of s0 v) (replication (root v)) → pass_keeps (v', s).
Proof using All.
  intros Hg Hty Hr Hc Hd Hper. destruct (disk_grows s0 id v Hok Hcur s v') as (Hok1 & Hd1 & _); [done|done| | |congruence|].
  - split; [split_and!; by rewrite ?Hr|by rewrite Hr|]. intros i b. by rewrite Hd lookup_empty.
  - rewrite Hr. exact (ok_root _ _ _ Hok).
  - split; try done. by rewrite /= Hr.
Qed.

Lemma keeps_heads (r : bool) s : grows s0 s → typed s → heads s = heads s0 → keeps r (v, s).
Proof using All.
  intros Hg Hty Hh. split; [apply root_keeps; try done; by apply persisted_kept|].
  destruct r; [|by left]. split_and!; [|done..]. destruct Hcur as (h & ?). exists h. by rewrite Hh.
Qed.

Lemma keeps_view (r : bool) s : same_view s0 s → keeps r (v, s).
Proof using All.
  intros Hv. apply keeps_heads; [by apply same_view_grows| |by destruct Hv as (_ & <- & _)].
  destruct Hv as (Ho & _ & Hb). rewrite /typed Ho Hb. apply (ok_typed _ _ _ Hok).
Qed.

Lemma held_keeps m t : held s0 v m t → keeps false (clear_dirty t.1, t.2).
Proof using All.
  destruct t as [v1 s1]. intros (E & _ & Hv). cbn [fst snd] in *. subst v1. change (clear_dirty _) with (holding v ∅). rewrite holding_empty //. by apply keeps_view.
Qed.

(** The commit of the staged copies. *)
Lemma commit_pass_spec count cancel m s : observes cancel → no_collision_pass s0 v → poisoned v = false → copies s0 v m →
  same_view s0 s → (count = 0 → m = ∅) →
  wp (commit_pass count cancel) (holding v m, s) (λ r t, match r with
    | Ok _ => keeps true t ∧ (count = 0 → t.1 = v) | Err _ => keeps false (clear_dirty t.1, t.2) end).
Proof using All.
  intros Hc Hnc Hpo Hm Hv Hzero. rewrite /commit_pass. case: Z.eqb_spec => Hcount.
  { wp_step. rewrite (Hzero Hcount) holding_empty //. split; [by apply keeps_view|done]. }
  wp_step. wp_step. apply wp_on_store. eapply wp_mono; [by apply check_cancel_law|]. intros r s1 Hv1.
  assert (same_view s0 s1) as Hv01 by (by etrans).
  assert (keeps false (clear_dirty (holding v m), s1)) as Hhold by (apply (held_keeps m (holding v m, s1)); by split_and!).
  destruct r as [[]|e]; [|apply wp_bind, wp_gets, wp_bind, wp_modify, wp_fail; exact Hhold].
  apply wp_bind, wp_gets. cbv zeta. cbn [fst root holding]. apply wp_bind, wp_ok_or; [intros gen _|intros _; exact Hhold].
  destruct (holding_ok s0 id v m Hok Hclean Hm) as [Hok' Hd'].
  assert (root_ok (root v) id = true) as Hroot by apply Hok.
  wp_step. eapply wp_mono; [eapply (packed_commit_spec s0 s1 id (holding v m)); try done|].
  - unfold WORKERS. lia.
  - by apply Hnc.
  - exact (ok_packed _ _ _ Hok).
  - intros r [v2 s2] (Hg & Hok2 & Hsz & Hd & Hr). cbn [fst snd root holding replication] in *. change (root (holding v m)) with (root v) in *.
    assert (disk_eq (size (root v)) (disk_of s2 v2) (disk_of s0 v)) as Hd2 by (by etrans).
    assert (∀ mk, persisted_with s2 id (size (root v)) (disk_of s0 (holding v m)) mk → persisted_with s2 id (size (root v)) (disk_of s0 v) mk) as Hpers.
    { intros mk (w & ?&?&?&?&?& Hw & ?). exists w. split_and!; try done. by etrans. }
    destruct r as [g|e].
    + destruct Hr as (Hc2 & Hdi & Hpo2 & _ & Hrep & Hper). wp_step. split; [|done]. split; [split; auto|]. cbn [fst snd] in *. split_and!; [done|congruence|done].
    + destruct Hr as ((Hr2 & Hc2 & _) & Hor & Hper). cbn [fst snd] in *. pose proof (ok_typed _ _ _ Hok2) as Hty2. destruct Hv01 as (_ & Hh01 & _).
      destruct Hor as [[Hh ->]|Hpo2].
      { change (clear_dirty _) with (holding v ∅). rewrite holding_empty //. by apply keeps_heads. }
      split; [|by right]. apply root_keeps; try done. destruct Hper as [[Hh _]|Hper]; [by apply persisted_kept|by apply Hpers].
Qed.
End kept.

(** A page of the map that was accepted lies inside the volume. *)
Lemma accepted_range s id v pi h p : vol_ok s id v → pages (root v) !! pi = Some h → page_view s v pi = Some p → page_range v pi.
Proof.
  intros Hok Hh Hp. pose proof (proj1 (root_ok_spec _ _) (ok_root _ _ _ Hok)) as (_&_&_&_&_&_&_&_&Hpg).
  destruct (Hpg _ _ Hh) as [Hlt _]. split.
  - rewrite /page_view Hh in Hp. cbv zeta in Hp. rewrite /view_from in Hp.
    assert (∃ b kind, bytes b ∧ check_page kind (size (root v)) pi h b = true) as (b & kind & Hb & Hc).
    { destruct (page_inherited _ _ _).
      - destruct (base (root v)) as [r|]; [|done]. simpl in Hp. destruct (base_objects s !! _) as [b|] eqn:Hb; [|done]. simpl in Hp.
        destruct (check_page _ _ _ _ b) eqn:Hc; [|done]. exists b. eexists. split; [|done]. by eapply (proj2 (ok_typed _ _ _ Hok)).
      - simpl in Hp. destruct (objects s !! _) as [b|] eqn:Hb; [|done]. simpl in Hp.
        destruct (check_page _ _ _ _ b) eqn:Hc; [|done]. exists b. eexists. split; [|done]. by eapply (proj1 (ok_typed _ _ _ Hok)). }
    rewrite /check_page in Hc. apply andb_prop in Hc as [[Hc _]%andb_prop _].
    rewrite negb_true_iff !orb_false_iff !negb_false_iff in Hc. destruct Hc as [[_ <-%Z.eqb_eq] _].
    apply from_be_bytes_bound. by apply bytes_slice.
  - rewrite /nblocks. rewrite /div_ceil in Hlt. unfold SLOTS in *. dlia.
Qed.

Lemma first_page_Some v f i : first_page v f = Some i → f i = true ∧ is_Some (pages (root v) !! i).
Proof. intros [Hin Hf]%List.find_some. split; [done|]. by apply elem_of_entries_keys, list_elem_of_In. Qed.

Lemma by_string_groups (m : gmap string (list Entry)) pack es : (pack, es) ∈ merge_sort by_string (map_to_list m) → m !! pack = Some es.
Proof. by rewrite merge_sort_Permutation elem_of_map_to_list. Qed.

(** ** What a pass returns *)
Definition pass_result (s0 : S) (id : string) (v : IndexedVolume) (after : option CompactionCursor) (budget : Z)
    (r : Result Error Compaction) (t : IndexedVolume * S) : Prop :=
  match r with
  | Ok c => keeps s0 id v true t ∧ 0 ≤ rewritten_blocks c ∧ rewritten_blocks c * CHUNK_BYTES ≤ budget ∧
      (∀ c', next_page c = Some c' → cursor_ok t.1 c' = true ∧ (0 < rewritten_blocks c ∨ cursor_lt after c')) ∧
      (rewritten_blocks c = 0 → t.1 = v)
  | Err _ => keeps s0 id v false (clear_dirty t.1, t.2)
  end.

Section result.
Variables (s0 : S) (id : string) (v : IndexedVolume) (after : option CompactionCursor) (budget : Z) (cancel : S → bool * S).
Hypotheses (Hok : vol_ok s0 id v) (Hcur : current s0 id v) (Hclean : dirty v = ∅) (Hcancel : observes cancel)
  (Hnc : no_collision_pass s0 v).

(** Where the next pass starts. *)
Lemma next_cursor_ok pi v' m completed consumed (c : option CompactionCursor) :
  sound_cursor v after = true → from_cursor after pi = true → page_range v pi →
  root_ok (root v') id = true → size (root v') = size (root v) → pass_inv budget (resume_of after pi) consumed completed m →
  match c with Some c => c = mkCursor pi completed ∧ (moved (resume_of after pi) completed ∨ m ≠ ∅) | None => True end →
  ∀ c', match c with Some c => Some c | None => (λ i, mkCursor i None) <$> first_page v' (λ i, pi <? i) end = Some c' →
  cursor_ok v' c' = true ∧ (0 < Z.of_nat (base.size m) ∨ cursor_lt after c').
Proof using All.
  intros Hs Hf [Hpi Hlt] Hr Hsz [_ _ Hpl _] Hc c' Hc'.
  destruct c as [c|]; [apply (inj Some) in Hc' as <-; destruct Hc as [-> Hc]|].
  - split.
    + rewrite /cursor_ok Hsz /=. apply andb_true_intro. split.
      { apply Z.ltb_lt. rewrite /nblocks in Hlt. rewrite /div_ceil. unfold SLOTS in *. dlia. }
      destruct Hpl as [->|(h & -> & ? & _)]; [|done]. rewrite /resume_of. destruct after as [a|]; [|done]. simpl.
      destruct (page_at a =? pi); [|done]. by apply andb_prop in Hs as [_ ?].
    + destruct Hc as [(h & -> & _ & Hh)|Hm]; [right|left].
      * rewrite /cursor_lt /resume_of in Hh |- *. destruct after as [a|]; [|by right]. cbn -[String.leb] in Hf, Hh |- *. apply Z.leb_le in Hf.
        destruct (Z.eqb_spec (page_at a) pi); [right; split; [done|]; by exists h|left; lia].
      * destruct (decide (base.size m = 0%nat)) as [E|]; [|lia]. by apply map_size_empty_inv in E.
  - apply fmap_Some in Hc' as (i & [Hi%Z.ltb_lt [h Hh]]%first_page_Some & ->).
    pose proof (proj1 (root_ok_spec _ _) Hr) as (_&_&_&_&_&_&_&_&Hpg). destruct (Hpg _ _ Hh) as [Hil _]. split.
    + rewrite /cursor_ok /= andb_true_r. by apply Z.ltb_lt.
    + right. rewrite /cursor_lt. destruct after as [a|]; [|left; simpl; lia]. left. simpl in *. apply Z.leb_le in Hf. lia.
Qed.

Lemma inner_spec : wp (compact_packs_inner after budget cancel) (v, s0) (pass_result s0 id v after budget).
Proof using All.
  assert (∀ s e, same_view s0 s → pass_result s0 id v after budget (Err e) (v, s)) as Href.
  { intros s e Hv. apply (held_keeps s0 id v Hok Hcur Hclean ∅ (v, s)). split_and!; [by rewrite holding_empty|apply copies_empty|done]. }
  assert (0 ≤ budget → pass_result s0 id v after budget (Ok nothing) (v, s0)) as Hnone.
  { intros Hb. split; [by apply keeps_view|]. split_and!; simpl; [done|lia|done|done]. }
  rewrite /compact_packs_inner. wp_step. apply wp_gets. cbn [fst]. wp_step. apply wp_of_result.
  destruct (check v 0 0) as [[]|e] eqn:Hch; [|by apply Href]. apply check_ok in Hch as (Hpo & _).
  wp_step. apply wp_guard; [intros Hsound|intros _; by apply Href].
  wp_step. apply wp_guard; [intros [[_ Hlo%Z.leb_le]%andb_prop Hhi%Z.leb_le]%andb_prop|intros _; by apply Href].
  assert (0 ≤ budget) as Hb0 by (unfold MAX_OBJECT_BYTES in Hlo; lia).
  rewrite (ok_packed _ _ _ Hok). cbn [negb].
  destruct (first_page v (from_cursor after)) as [pi|] eqn:Hfp; [|wp_step; by apply Hnone].
  apply first_page_Some in Hfp as [Hfrom [h Hh]].
  wp_step. apply wp_on_store. eapply wp_mono; [by apply check_cancel_law|]. intros [[]|e] s1 Hv1; [|by apply Href].
  wp_step. apply wp_on_store. eapply wp_mono; [by apply page_spec|]. intros [p|e] s2 [Hv2 Hp]; [|by apply Href].
  pose proof (accepted_range _ _ _ _ _ _ Hok Hh Hp) as Hrange.
  wp_step. apply wp_on_store. eapply wp_mono; [by eapply (groups_spec p pi)|]. intros [groups|e] s3 [-> Hg]; [|by apply Href].
  cbv zeta. wp_step. eapply wp_mono; [eapply (repack_groups_spec s0 id v p pi) with (m := ∅)|]; try done.
  { intros pack es Hin%by_string_groups. by apply Hg. }
  { split_and!; [by rewrite holding_empty|apply copies_empty|done]. }
  { split; [lia|by rewrite map_size_empty|by left|by left]. }
  intros r [v4 s4] (m & Hheld & Hr). destruct r as [[c consumed]|e]; [|by eapply held_keeps].
  destruct Hr as (completed & Hinv & Hc). pose proof Hheld as (E & Hm & Hv4). cbn [fst snd] in E, Hv4. subst v4.
  cbn beta iota. wp_step. apply wp_gets. cbn [fst dirty holding]. cbv zeta. wp_step.
  eapply wp_mono; [apply (commit_pass_spec s0 id v Hok Hcur Hclean _ _ m); try done|].
  { intros H0. apply map_size_empty_inv. lia. }
  intros [[]|e] [v5 s5] H5; [|done]. wp_step. apply wp_gets. cbn [fst]. wp_step.
  destruct H5 as [H5 H5v]. split; [done|]. destruct H5 as [[_ Hok5 Hsz5 _ _ _] _]. cbn [fst snd] in *. split_and!; cbn [rewritten_blocks next_page].
  - lia.
  - destruct Hinv as [? ? _ _]. lia.
  - by eapply next_cursor_ok; [| |done|apply Hok5| | |].
  - done.
Qed.


Lemma compact_packs_spec : wp (compact_packs after budget cancel) (v, s0) (λ r t,
  pass_result s0 id v after budget r t ∧ match r with Err _ => dirty t.1 = ∅ | Ok _ => True end).
Proof using All.
  assert (∀ e, pass_result s0 id v after budget (Err e) (v, s0)) as Href.
  { intros e. apply (held_keeps s0 id v Hok Hcur Hclean ∅ (v, s0)). split_and!; [by rewrite holding_empty|apply copies_empty|done]. }
  rewrite /compact_packs. wp_step. apply wp_gets. cbn [fst]. wp_step. apply wp_of_result.
  destruct (check v 0 0) as [[]|e]; [|by split].
  wp_step. apply wp_guard; [intros _|by split]. wp_step. wp_step. eapply wp_mono; [apply inner_spec|].
  intros [c|e] t Hr; [by wp_step|]. apply wp_bind, wp_gets, wp_bind, wp_modify, wp_fail. by split.
Qed.
End result.

(** C8: one pass of compaction, whatever the store does and wherever it is
    cancelled, keeps the volume: the handle and the head still read as the same
    disk and carry the same replication mark, and nothing stored is lost; on
    success the handle is current and holds nothing unsaved, on an error it is the
    old handle on the old head or must be reopened.  A pass that succeeds copied
    at most the bytes of its budget; when it asks to be continued, its cursor is
    one that the next pass accepts, and it either rewrote a block or moved
    strictly past where it started.  A handle with pending writes is refused
    untouched. *)
Theorem compact_packs_keeps s id v after budget cancel : vol_ok s id v → current s id v → observes cancel →
  (dirty v = ∅ → no_collision_pass s v) →
  wp (compact_packs after budget cancel) (v, s) (λ r t,
    if decide (dirty v = ∅) then match r with
      | Ok c => keeps s id v true t ∧ 0 ≤ rewritten_blocks c ∧ rewritten_blocks c * CHUNK_BYTES ≤ budget ∧
          ∀ c', next_page c = Some c' → cursor_ok t.1 c' = true ∧ (0 < rewritten_blocks c ∨ cursor_lt after c')
      | Err _ => keeps s id v false t
      end
    else is_ok r = false ∧ t = (v, s)).
Proof.
  intros Hok Hcur Hc Hnc. destruct (decide (dirty v = ∅)) as [Hd|Hd].
  - eapply wp_mono; [exact (compact_packs_spec s id v after budget cancel Hok Hcur Hd Hc (Hnc Hd))|]. intros [c|e] [v' s'] Hr; [by destruct Hr as [(?&?&?&?&_) _]|].
    destruct Hr as [Hr Hd'], v'. cbn [dirty fst] in Hd'. by subst.
  - rewrite /compact_packs. wp_step. apply wp_gets. cbn [fst]. wp_step. apply wp_of_result. destruct (check v 0 0); [|done].
    wp_step. rewrite bool_decide_false //.
Qed.

(** A block inside a pack of a volume without a base image. *)
Lemma block_private s v i p q h o off pk x : page_view s v (i / SLOTS) = Some p → base_view s v (i / SLOTS) = Some q →
  shaped (i / SLOTS) p → shaped (i / SLOTS) q → rslot (record q (i mod SLOTS)) = None →
  rslot (record p (i mod SLOTS)) = Some h → robject (record p (i mod SLOTS)) = Some (o, off) →
  objects s !! (volume (root v), o) = Some pk → cut false o off h pk = Ok x → block_view s v i = Some x.
Proof.
  intros Hp Hq Sp Sq Hb Hs Ho Hpk Hc. rewrite (block_rec s v i p q) // /rec_view Hs Ho /=.
  rewrite /rec_inherited Hb bool_decide_eq_false_2 //= Hpk /=. by rewrite Hc.
Qed.
End repack.

(** ** A concrete pass: a 64-KiB volume whose only block shares a pack with a dead
    one. *)
Module Example.
Import Memory.

#[local] Existing Instance IndexedApi.Example.json.
#[local] Existing Instance IndexedApi.Example.json_laws.

(** A digest that tells byte strings apart by their ends, their length and the
    pack that the first slot of a page names. *)
Definition byte_at (b : list Z) (i : Z) : Z := Z.land (index b i) 255.
Definition mark (b : list Z) : list Z :=
  byte_at b 0 :: byte_at b (Zlen b - 1) :: to_be_bytes 4 (Zlen b) ++ [byte_at b 49; byte_at b 50].
#[local] Instance sha : Sha256 := λ b, 1 :: mark b ++ replicate 23 0.
#[local] Instance sha_laws : Sha256Laws.
Proof.
  assert (∀ b i, is_byte (byte_at b i)) as Hb by (intros; rewrite /byte_at byte_land /is_byte; dlia).
  split; intros b; [done| |done]. rewrite /sha256 /sha /mark. repeat (constructor; [done||by apply Hb|]).
  apply bytes_app. split; [|by apply Forall_replicate].
  repeat (constructor; [done||by apply Hb|]). apply bytes_app. split; [apply bytes_to_be_bytes|].
  repeat (constructor; [by apply Hb|]). constructor.
Qed.

Lemma sha_mark b b' : digest b = digest b' → mark b = mark b'.
Proof.
  intros E%digest_inj_sha. rewrite /sha256 /sha in E. exact (f_equal (λ l, take 8 (drop 1 l)) E).
Qed.
Lemma mark_parts b b' : mark b = mark b' → Zlen b < 2 ^ 32 → Zlen b' < 2 ^ 32 →
  byte_at b 0 = byte_at b' 0 ∧ byte_at b (Zlen b - 1) = byte_at b' (Zlen b' - 1) ∧ Zlen b = Zlen b' ∧ byte_at b 50 = byte_at b' 50.
Proof.
  intros E Hl Hl'. pose proof (Zlen_nonneg b). pose proof (Zlen_nonneg b'). rewrite /mark in E. pose proof (f_equal (λ l, nth 0 l 0) E) as E0.
  pose proof (f_equal (λ l, nth 1 l 0) E) as E1. pose proof (f_equal (λ l, nth 7 l 0) E) as E3. pose proof (f_equal (λ l, take 4 (drop 2 l)) E) as E2.
  split_and!; [exact E0|exact E1| |exact E3]. change (to_be_bytes 4 (Zlen b) = to_be_bytes 4 (Zlen b')) in E2.
  rewrite -(from_to_be_bytes 4 (Zlen b)); [lia|]. rewrite E2. apply from_to_be_bytes. lia.
Qed.

Definition block7 : list Z := replicate (Z.to_nat 65536) 7.
Definition block8 : list Z := replicate (Z.to_nat 65536) 8.
Definition pack : list Z := block7 ++ block8.
Definition first_record : list Z := rec_packed (sha256 block7) (sha256 pack) 0.
Definition page0 : list Z := set_record 0 first_record (blank true 0).
Definition r1 : Root := mkRoot 8 "v" 65536 1 true {[0 := digest page0]} None None.
Definition s1 : Memory.Mem :=
  mkMem (<[("v"%string, digest pack) := pack]> {[("v"%string, digest page0) := page0]}) {["v"%string := mkHead "r1" (default [] (to_vec r1))]} ∅ 0 [] [].
Definition v1 : IndexedVolume := mkIndexed r1 None "r1" ∅ false.


Lemma sizes : Zlen block7 = 65536 ∧ Zlen block8 = 65536 ∧ Zlen pack = 131072.
Proof.
  assert (Zlen block7 = 65536 ∧ Zlen block8 = 65536) as [H7 H8].
  { split; rewrite /Zlen ?/block7 ?/block8 length_replicate; by vm_compute. }
  split_and!; [done..|]. by rewrite /pack Zlen_app H7 H8.
Qed.
Lemma byte_replicate n z i : 0 ≤ i < Z.of_nat n → byte_at (replicate n z) i = Z.land z 255.
Proof. intros Hi. rewrite /byte_at. f_equal. rewrite index_lookup lookup_replicate_2 //. lia. Qed.
Lemma byte7 i : 0 ≤ i < 65536 → byte_at block7 i = 7.
Proof. intros. by rewrite byte_replicate. Qed.
Lemma sha_parts b : slice (sha256 b) 1 1 = [byte_at b 0] ∧ slice (sha256 b) 2 1 = [byte_at b (Zlen b - 1)].
Proof. done. Qed.

(** The record names the pack, whose last byte is the dead block's. *)
Lemma record_last b pk off : 0 ≤ off < 2 ^ 32 → index (rec_packed (sha256 b) (sha256 pk) off) 34 = byte_at pk (Zlen pk - 1).
Proof.
  intros Hoff. destruct (packed_parts (sha256 b) (sha256 pk) off (Zlen_sha b) (Zlen_sha pk) Hoff) as (_ & Hpk & _).
  apply (f_equal (λ l, index l 2)) in Hpk. rewrite index_slice in Hpk; [lia..|]. exact Hpk.
Qed.
Lemma page_byte p : shaped 0 p → byte_at p 50 = Z.land (index (record p 0) 34) 255.
Proof. intros Hs. rewrite /byte_at /record index_slice; [plia..|]. done. Qed.

Lemma first_record_len : Zlen first_record = PACK_SLOT_BYTES.
Proof. apply packed_parts; [apply Zlen_sha..|lia]. Qed.
Lemma page0_shaped : shaped 0 page0.
Proof. apply shaped_set; [apply shaped_blank|apply first_record_len|plia]. Qed.
Lemma page0_record j : 0 ≤ j < SLOTS → record page0 j = if decide (j = 0) then first_record else rec_empty.
Proof.
  intros Hj. pose proof (shaped_len _ _ (shaped_blank 0)) as Hl. assert (0 ≤ 0 < SLOTS) as H0 by plia.
  rewrite /page0 (record_set 0 first_record (blank true 0) j Hl first_record_len H0 Hj). case_decide; [reflexivity|by apply record_blank].
Qed.

Lemma r1_fits : Zlen (default [] (to_vec r1)) ≤ MAX_MANIFEST_BYTES.
Proof. vm_compute. discriminate. Qed.
Lemma r1_ok : root_ok r1 "v" = true.
Proof. vm_compute. done. Qed.
Lemma head1_current : current s1 "v" v1.
Proof. exists (mkHead "r1" (default [] (to_vec r1))). split_and!; [done..|exact r1_fits|by apply json_roundtrip]. Qed.

Lemma pack_bytes : bytes pack.
Proof. rewrite /pack bytes_app /block7 /block8. split; by apply Forall_replicate. Qed.
Lemma ends (a b : list Z) : Zlen a = 65536 → Zlen b = 65536 →
  byte_at (a ++ b) 0 = byte_at a 0 ∧ byte_at (a ++ b) (131072 - 1) = byte_at b 65535.
Proof.
  intros Ha Hb. rewrite /byte_at (index_app a b 0) // (index_app a b (131072 - 1)) // Ha.
  split; (case_decide; [|lia]) || (case_decide; [lia|]); reflexivity.
Qed.
Lemma byte_first : byte_at pack 0 = 7 ∧ byte_at pack (Zlen pack - 1) = 8.
Proof.
  destruct sizes as (H7 & H8 & Hp). rewrite Hp. destruct (ends block7 block8 H7 H8) as [E1 E2]. split.
  - etrans; [exact E1|]. apply byte7. lia.
  - etrans; [exact E2|]. apply byte_replicate. lia.
Qed.
Lemma page_first p : shaped 0 p → byte_at p 0 = 65 ∧ Zlen p = 131072.
Proof.
  intros Hs. split; [|by eapply shaped_len]. pose proof (shaped_magic _ _ Hs) as Hm. apply (f_equal (λ l, index l 0)) in Hm.
  rewrite index_slice in Hm; [lia..|]. rewrite /byte_at. change (0 + 0) with 0 in Hm. by rewrite Hm.
Qed.
Lemma slots_of_first : rslot first_record = Some (digest block7) ∧ robject first_record = Some (digest pack, 0) ∧ record_good first_record ∧
  slice first_record 0 32 = sha256 block7.
Proof.
  assert (0 ≤ 0 < 2 ^ 32) as H0 by lia.
  split_and!; [apply rslot_packed|apply robject_packed|apply good_packed|apply packed_parts]; try apply Zlen_sha; try apply sha256_nonzero; done.
Qed.
Lemma page0_bytes : bytes page0.
Proof.
  apply bytes_splice; [|apply bytes_app; split; [apply sha256_bytes|]; apply bytes_app; split; [apply sha256_bytes|];
    apply bytes_app; split; [apply bytes_to_be_bytes|apply bytes_zeros]].
  rewrite /blank. apply bytes_splice; [|apply bytes_to_be_bytes]. apply bytes_splice; [apply bytes_zeros|]. by repeat constructor.
Qed.
Lemma page0_byte : byte_at page0 50 = 8.
Proof.
  rewrite (page_byte _ page0_shaped) (page0_record 0); [plia|]. case_decide; [|done].
  etrans; [apply (f_equal (λ z, Z.land z 255)), record_last; lia|]. by destruct byte_first as [_ ->].
Qed.
Lemma block_apart : digest pack ≠ digest block7.
Proof.
  destruct sizes as (H7 & _ & Hp). intros (_ & _ & E & _)%sha_mark%mark_parts; lia.
Qed.
Lemma cut_first (a b : list Z) o h : o ≠ h → Zlen a = 65536 → Zlen b = 65536 → digest (a ++ b) = o → digest a = h →
  cut false o 0 h (a ++ b) = Ok a.
Proof.
  intros Hne Ha Hb Ho Hh. rewrite /cut (bool_decide_eq_false_2 (o = h)) // (bool_decide_eq_true_2 (digest (a ++ b) = o)) //.
  rewrite Zlen_app Ha Hb slice_app_l; [lia|done|by rewrite Ha|]. rewrite slice_all // Ha bool_decide_eq_true_2 //.
Qed.
Lemma cut_block7 : cut false (digest pack) 0 (digest block7) pack = Ok block7.
Proof. destruct sizes as (H7 & H8 & _). exact (cut_first block7 block8 _ _ block_apart H7 H8 eq_refl eq_refl). Qed.
Lemma concat_sevens l : (∀ b, b ∈ l → b = block7) → ∃ k, concat l = replicate k 7.
Proof. exact (IndexedApi.Example.concat_block7 l). Qed.
Lemma block7_replicate : ∃ k, block7 = replicate k 7.
Proof. by eexists. Qed.
#[local] Opaque block7 block8 pack page0 first_record.

(** What the store holds. *)
Lemma two_entries {A} (k1 k2 : string * string) (a1 a2 : A) k b :
  (<[k1 := a1]> {[k2 := a2]} : gmap _ A) !! k = Some b → b = a1 ∨ b = a2.
Proof. intros [[_ <-]|[_ [_ <-]%lookup_singleton_Some]]%lookup_insert_Some; auto. Qed.
Lemma second_entry {A} (k1 k2 : string * string) (a1 a2 : A) : k1 ≠ k2 → (<[k1 := a1]> {[k2 := a2]} : gmap _ A) !! k2 = Some a2.
Proof. intros. rewrite lookup_insert_ne //. apply lookup_singleton_eq. Qed.
Lemma stored b k : objects s1 !! k = Some b → b = pack ∨ b = page0.
Proof. exact (two_entries _ _ _ _ k b). Qed.


Lemma pack_apart : digest pack ≠ digest page0.
Proof.
  destruct byte_first as [E1 _], (page_first _ page0_shaped) as [E2 Hl], sizes as (_ & _ & Hp).
  intros (E & _)%sha_mark%mark_parts; [congruence|lia..].
Qed.
Lemma stored_page : objects s1 !! ("v"%string, digest page0) = Some page0.
Proof. apply (second_entry ("v"%string, digest pack)). intros E. apply pack_apart. exact (f_equal snd E). Qed.
Lemma stored_pack : objects s1 !! ("v"%string, digest pack) = Some pack.
Proof. exact (lookup_insert_eq _ _ _). Qed.


Lemma page0_accepted : check_page true 65536 0 (digest page0) page0 = true.
Proof.
  apply (packed_check _ _ _ _ (λ _, sha256 block7)); [lia|by vm_compute|exact page0_shaped|reflexivity| | |].
  - intros j Hj. rewrite page0_record //. case_decide; [apply slots_of_first|apply good_empty].
  - intros j Hj Hge. rewrite page0_record // decide_False //. change (65536 / CHUNK_BYTES) with 1 in Hge. lia.
  - intros j Hj Hl. rewrite page0_record // in Hl |- *. case_decide; [|by destruct Hl].
    apply slots_of_first.
Qed.

Lemma v1_page : page_view s1 v1 0 = Some page0.
Proof.
  etrans; [apply (page_view_private s1 v1 0 (digest page0)); done|]. etrans; [by apply view_private|].
  change (volume (root v1)) with "v"%string. rewrite stored_page. change (size (root v1)) with 65536. by rewrite page0_accepted.
Qed.
Lemma v1_other i : i ≠ 0 → page_view s1 v1 i = Some (blank true i).
Proof.
  intros Hi. apply page_view_none; [done|]. change (pages (root v1)) with ({[0 := digest page0]} : gmap Z string). by rewrite lookup_singleton_ne.
Qed.
Lemma v1_base i : base_view s1 v1 i = Some (blank true i).
Proof. by apply base_view_blank. Qed.

Lemma page_of_record i : in_range v1 i ↔ i = 0.
Proof. rewrite /in_range. change (nblocks v1) with 1. lia. Qed.
Lemma record0 : record page0 0 = first_record.
Proof. rewrite page0_record; [plia|]. by case_decide. Qed.
Lemma blank0 j : 0 ≤ j < SLOTS → rslot (record (blank true 0) j) = None.
Proof. intros. rewrite record_blank //. Qed.
Lemma v1_first : block_view s1 v1 0 = Some block7.
Proof.
  destruct slots_of_first as (Hs & Ho & _).
  apply (block_private s1 v1 0 page0 (blank true 0) (digest block7) (digest pack) 0 pack block7).
  - exact v1_page.
  - exact (v1_base 0).
  - exact page0_shaped.
  - apply shaped_blank.
  - change (0 mod SLOTS) with 0. apply blank0. plia.
  - change (0 mod SLOTS) with 0. by rewrite record0.
  - change (0 mod SLOTS) with 0. by rewrite record0.
  - exact stored_pack.
  - exact cut_block7.
Qed.
Lemma v1_slot i : i ≠ 0 → block_view s1 v1 i = Some (zeros CHUNK_BYTES).
Proof.
  intros Hne. rewrite /block_view. destruct (decide (i / SLOTS = 0)) as [Hp|Hp].
  - rewrite Hp v1_page. cbn [mbind option_bind]. rewrite (slot_record 0); [exact page0_shaped|]. rewrite page0_record; [apply slot_mod_bound|].
    case_decide; [unfold SLOTS in *; dlia|]. by rewrite rslot_empty.
  - rewrite v1_other //. cbn [mbind option_bind]. by rewrite slot_blank.
Qed.

Lemma v1_typed : typed s1.
Proof.
  split; intros k b; [|by rewrite lookup_empty]. intros [->| ->]%stored; [exact pack_bytes|exact page0_bytes].
Qed.
Lemma slot0 : slot page0 0 = Some (digest block7).
Proof. etrans; [exact (slot_record 0 page0 0 page0_shaped)|]. change (0 mod SLOTS) with 0. rewrite record0. apply slots_of_first. Qed.
Lemma v1_ok : vol_ok s1 "v" v1.
Proof.
  split; [exact r1_ok|done|exact v1_typed|done| | | |].
  - intros i _. exists (blank true (i / SLOTS)). split; [apply v1_base|]. intros h. by rewrite slot_blank.
  - intros i ->%page_of_record. by rewrite v1_first.
  - intros i p q ->%page_of_record Hpv Hq _. change (0 / SLOTS) with 0 in Hpv, Hq. rewrite v1_page in Hpv. rewrite v1_base in Hq.
    intros E. assert (slot (blank true 0) 0 = slot page0 0) as E' by congruence.
    pose proof (slot_blank 0 0) as E1. pose proof slot0 as E2. congruence.
  - intros i b. by rewrite lookup_empty.
Qed.

Lemma copies_of m i b : copies s1 v1 m → m !! i = Some b → i = 0 ∧ b = block7.
Proof. intros Hm Hb. destruct (Hm i b Hb) as [->%page_of_record Hv]. rewrite v1_first in Hv. split; [done|congruence]. Qed.

(** What a commit of copies stages, and what it compares. *)
Definition staged_page (b : list Z) : Prop := shaped 0 b ∧ byte_at b 50 ≠ 8.
Inductive candidate (ps : gmap Z (list Z)) (b : list Z) : Prop :=
| c_pack : b = pack → candidate ps b
| c_page : b = page0 → candidate ps b
| c_sevens k : b = replicate k 7 → Zlen b ≤ MAX_OBJECT_BYTES → candidate ps b
| c_zeros : b = zeros CHUNK_BYTES → candidate ps b
| c_staged : ps !! 0 = Some b → staged_page b → candidate ps b.

Lemma staged_page_of m ps bases packs p' : copies s1 v1 m → vol_ok s1 "v" (holding v1 m) → staged_ok s1 (holding v1 m) ps bases packs →
  (∀ d pk, (d, pk) ∈ packs → ∃ k, pk = replicate k 7) → ps !! 0 = Some p' → p' = page0 ∨ staged_page p'.
Proof.
  intros Hm Hok Hst Hpk Hp'. destruct (out_page _ _ _ _ _ Hst _ _ Hp') as (_ & p & q & [Hp Hq _ _ _ _ Hn] & _ & Hs & _ & Hrec).
  assert (p = page0) as -> by (change (page_view s1 v1 0 = Some p) in Hp; pose proof v1_page; congruence).
  assert (∀ j, 0 ≤ j < SLOTS → j ≠ 0 → m !! (0 * SLOTS + j) = None) as Hmj.
  { intros j Hj Hne. destruct (m !! _) as [b|] eqn:E; [|done]. destruct (copies_of _ _ _ Hm E). lia. }
  assert (record p' 0 = record page0 0 → p' = page0) as Hsame.
  { intros E0. apply (shaped_ext 0); [exact Hs|exact page0_shaped|]. intros j Hj. destruct (decide (j = 0)) as [->|Hne]; [done|].
    specialize (Hrec j Hj). cbn [dirty holding] in Hrec. by rewrite (Hmj j Hj Hne) in Hrec. }
  assert (0 ≤ 0 < SLOTS) as H0 by plia. specialize (Hrec 0 H0). cbn [dirty holding] in Hrec.
  destruct (m !! (0 * SLOTS + 0)) as [b|] eqn:E; [|left; auto]. destruct (copies_of _ _ _ Hm E) as [_ Hb].
  assert (rslot (record q 0) = None) as Hq0 by (by apply Hn).
  remember (record p' 0) as r0 eqn:Er. destruct Hrec as [Hz|_ _|_ Hbase|pk off i b' _ _ Hin Hhas _ _].
  - subst b. destruct sizes as (H7 & _). rewrite all_zero_index H7 in Hz. specialize (Hz 0 ltac:(lia)).
    pose proof (byte7 0 ltac:(lia)) as E7. by rewrite /byte_at Hz in E7.
  - left. by apply Hsame.
  - congruence.
  - right. split; [exact Hs|]. rewrite (page_byte _ Hs) -Er. destruct (out_packs _ _ _ _ _ Hst _ _ Hin) as [_ [_ Hsm _]].
    destruct Hhas as (Ho & _ & Hlen & _). assert (MAX_OBJECT_BYTES = 1048576) as HM by done. pose proof chunk_bytes_pos.
    rewrite record_last; [lia|]. destruct (Hpk _ _ Hin) as [k ->]. assert (Zlen (replicate k 7) = Z.of_nat k) as Hk by by rewrite /Zlen length_replicate.
    rewrite Hk. by rewrite byte_replicate; [lia|].
Qed.

(** The digest tells the candidates apart. *)
Lemma candidate_small ps b : candidate ps b → Zlen b < 2 ^ 32.
Proof.
  destruct sizes as (_ & _ & Hp). assert (MAX_OBJECT_BYTES = 1048576) as HM by done. intros [->| ->|k _ Hl| ->|_ [Hs _]].
  - lia.
  - destruct (page_first _ page0_shaped) as [_ ->]. lia.
  - lia.
  - by rewrite Zlen_zeros.
  - destruct (page_first _ Hs) as [_ ->]. lia.
Qed.
Lemma sevens_ends k : replicate k 7 = [] ∨ byte_at (replicate k 7) 0 = 7 ∧ byte_at (replicate k 7) (Zlen (replicate k 7) - 1) = 7.
Proof.
  destruct k as [|k]; [by left|right]. assert (Zlen (replicate (Datatypes.S k) 7) = Z.of_nat (Datatypes.S k)) as -> by by rewrite /Zlen length_replicate.
  split; apply byte_replicate; lia.
Qed.
Lemma zeros_ends : byte_at (zeros CHUNK_BYTES) 0 = 0 ∧ Zlen (zeros CHUNK_BYTES) = 65536.
Proof. split; [|by apply Zlen_zeros]. rewrite /byte_at index_zeros. done. Qed.

(** The class of a candidate shows in its bytes. *)
Definition last_byte (b : list Z) : Z := byte_at b (Zlen b - 1).
Inductive class (ps : gmap Z (list Z)) (b : list Z) : Prop :=
| cl_pack : b = pack → byte_at b 0 = 7 → last_byte b = 8 → class ps b
| cl_page : b = page0 → byte_at b 0 = 65 → byte_at b 50 = 8 → class ps b
| cl_nil : b = [] → byte_at b 0 = 0 → Zlen b = 0 → class ps b
| cl_sevens k : b = replicate k 7 → byte_at b 0 = 7 → last_byte b = 7 → class ps b
| cl_zeros : b = zeros CHUNK_BYTES → byte_at b 0 = 0 → Zlen b = 65536 → class ps b
| cl_staged : ps !! 0 = Some b → byte_at b 0 = 65 → byte_at b 50 ≠ 8 → class ps b.

Lemma classify ps b : candidate ps b → class ps b.
Proof.
  intros [Hb|Hb|k Hb _|Hb|Hb [Hs Hne]].
  - destruct byte_first as [P0 P1]. rewrite -Hb in P0, P1. by apply cl_pack.
  - destruct (page_first _ page0_shaped) as [G0 _]. pose proof page0_byte as G1. rewrite -Hb in G0, G1. by apply cl_page.
  - destruct (sevens_ends k) as [E|[E0 E1]]; [|rewrite -Hb in E0, E1; by apply (cl_sevens _ _ k)].
    rewrite E in Hb. apply cl_nil; [exact Hb|rewrite Hb; reflexivity..].
  - destruct zeros_ends as [Z0 Zl]. rewrite -Hb in Z0, Zl. by apply cl_zeros.
  - destruct (page_first _ Hs) as [G0 _]. by apply cl_staged.
Qed.

Lemma candidates_apart ps b b' : candidate ps b → candidate ps b' → digest b = digest b' → b = b'.
Proof.
  intros Hb Hb' Heq. destruct (mark_parts b b' (sha_mark _ _ Heq) (candidate_small _ _ Hb) (candidate_small _ _ Hb')) as (E0 & E1 & E2 & E3).
  apply classify in Hb, Hb'. change (last_byte b = last_byte b') in E1. clear Heq.
  destruct Hb as [Hb ? ?|Hb ? ?|Hb ? ?|k Hb ? ?|Hb ? ?|Hb ? ?], Hb' as [Hb' ? ?|Hb' ? ?|Hb' ? ?|k' Hb' ? ?|Hb' ? ?|Hb' ? ?];
    first [lia|exact (eq_trans Hb (eq_sym Hb'))|idtac].
  - rewrite Hb Hb' /Zlen !length_replicate in E2 |- *. f_equal. lia.
  - congruence.
Qed.

Lemma v1_no_collision : no_collision_pass s1 v1.
Proof.
  intros m Hm s' force cancel ps bases packs Hv Hc Hrun.
  destruct (holding_ok s1 "v" v1 m v1_ok eq_refl Hm) as [Hok _].
  pose proof (stage_spec s1 s' "v" (holding v1 m) force cancel Hok Hc Hv) as Hst. rewrite /wp Hrun in Hst. destruct Hst as [_ Hst].
  assert (∀ d pk, (d, pk) ∈ packs → ∃ k, pk = replicate k 7) as Hpk.
  { intros d pk Hin. destruct (out_contents _ _ _ _ _ Hst _ _ Hin) as (l & -> & Hl). apply concat_sevens.
    intros b Hb. destruct (Hl b Hb) as [i Hi]. by destruct (copies_of _ _ _ Hm Hi). }
  assert (∀ b, known s1 (holding v1 m) ps packs b → candidate ps b) as Hkn.
  { intros b [k Hb|k Hb|i Hb|i Hb|d Hb|pi Hb].
    - apply stored in Hb as [?|?]; [by apply c_pack|by apply c_page].
    - by rewrite lookup_empty in Hb.
    - destruct (decide (i = 0)) as [->|Hi].
      + change (block_view s1 v1 0 = Some b) in Hb. rewrite v1_first in Hb. destruct sizes as (H7 & _), block7_replicate as [k Hk].
        assert (b = block7) as -> by congruence. by apply (c_sevens _ _ k); [|rewrite H7].
      + change (block_view s1 v1 i = Some b) in Hb. rewrite v1_slot // in Hb. apply c_zeros. congruence.
    - destruct (copies_of _ _ _ Hm Hb) as [_ ->]. destruct sizes as (H7 & _), block7_replicate as [k Hk]. by apply (c_sevens _ _ k); [|rewrite H7].
    - destruct (Hpk _ _ Hb) as [k Hk]. destruct (out_packs _ _ _ _ _ Hst _ _ Hb) as [_ [_ Hs _]]. by apply (c_sevens _ _ k).
    - destruct (out_page _ _ _ _ _ Hst _ _ Hb) as ((H0 & H1) & _). change (nblocks (holding v1 m)) with 1 in H1.
      assert (pi = 0) as -> by (unfold SLOTS in *; lia).
      destruct (staged_page_of m ps bases packs b Hm Hok Hst Hpk Hb) as [?|?]; [by apply c_page|by apply c_staged]. }
  intros b b' Hb%Hkn Hb'%Hkn Heq. by eapply candidates_apart.
Qed.

Lemma compact_packs_keeps_witness : wp (compact_packs None (2 * MAX_OBJECT_BYTES) never) (v1, s1) (λ r t,
    if decide (dirty v1 = ∅) then match r with
      | Ok c => keeps s1 "v" v1 true t ∧ 0 ≤ rewritten_blocks c ∧ rewritten_blocks c * CHUNK_BYTES ≤ 2 * MAX_OBJECT_BYTES ∧
          ∀ c', next_page c = Some c' → cursor_ok t.1 c' = true ∧ (0 < rewritten_blocks c ∨ cursor_lt None c')
      | Err _ => keeps s1 "v" v1 false t
      end
    else is_ok r = false ∧ t = (v1, s1)).
Proof.
  apply (compact_packs_keeps s1 "v" v1 None (2 * MAX_OBJECT_BYTES) never);
    [exact v1_ok|exact head1_current|done|intros _; exact v1_no_collision].
Defined.

End Example.
End Repack.
