(* ===== verification/Nbd.v ===== *)
(** The NBD transport of [ahvm-volume/src/nbd.rs]: the negotiation, and the loop
    that serves one client.  A connection is the bytes the client will have sent,
    the bytes it has been sent, and how many more writes it accepts before it goes
    away; the exported disk is any implementation of the [Disk] interface, of
    which the format-1 volume is an instance.  [Op], [perform] and [transcript]
    are the abstract service: operations executed one after another, each
    answered before the next is looked at. *)
From S2P Require Import Prelude Codec ObjectStore Blocks Volume.

Module Nbd.

Definition MAX_REQUEST : Z := 32 * 1024 * 1024.
Definition OPT_MAGIC : Z := 0x49484156454f5054.
Definition FLAGS : Z := Z.lor (Z.lor 1 4) 8.
Definition INVALID : Z := 22.
Definition IO_ERROR : Z := 5.

(** The interface of an exported disk. *)
Class Disk (D : Type) := {
  dev_size : D → Z;
  dev_read : Z → list Z → M Error D (list Z);
  dev_write : Z → list Z → M Error D unit;
  dev_flush : M Error D unit;
}.

(** [impl Disk for Volume]: the handle together with its store. *)
#[export] Instance volume_disk {S} {SHA : Sha256} {OS : ObjectStore S} {JM : Json Vol.Manifest}
    : Disk (Vol.Volume * S) := {
  dev_size := λ t, Vol.size (Vol.vol_manifest t.1);
  dev_read := λ offset data, v ← gets fst; on_store (Vol.read v offset data);
  dev_write := Vol.write;
  dev_flush := (Vol.commit ≫= λ _, mret tt);
}.

(** ** The stream

    [InvalidData] is the error of [invalid()], [Disconnected] any error of the
    transport.  [OutOfFuel] is not an error of the code: it marks a run cut short
    by its fuel, and is shown never to arise. *)
Inductive IoError : Type := InvalidData | Disconnected | OutOfFuel.

Record Conn := mkConn {
  input : list Z;
  output : list Z;
  patience : nat;
}.

Definition read_exact (n : Z) : M IoError Conn (list Z) := λ c,
  if Zlen (input c) <? n then (Err Disconnected, mkConn [] (output c) (patience c))
  else (Ok (take (Z.to_nat n) (input c)),
        mkConn (drop (Z.to_nat n) (input c)) (output c) (patience c)).

Definition write_all (data : list Z) : M IoError Conn unit := λ c,
  match patience c with
  | O => (Err Disconnected, c)
  | S p => (Ok tt, mkConn (input c) (output c ++ data) p)
  end.
Definition flush : M IoError Conn unit := write_all [].

Definition u16_at (b : list Z) (at_ : Z) : Z := from_be_bytes (slice b at_ 2).
Definition u32_at (b : list Z) (at_ : Z) : Z := from_be_bytes (slice b at_ 4).
Definition u64_at (b : list Z) (at_ : Z) : Z := from_be_bytes (slice b at_ 8).

Definition option_reply (option kind : Z) (data : list Z) : M IoError Conn unit :=
  write_all (to_be_bytes 8 0x3e889045565a9);;
  write_all (to_be_bytes 4 option);;
  write_all (to_be_bytes 4 kind);;
  write_all (to_be_bytes 4 (Zlen data));;
  write_all data.

(** [INFO_EXPORT] and [INFO_BLOCK_SIZE]. *)
Definition export_info (size : Z) : list Z :=
  to_be_bytes 2 0 ++ to_be_bytes 8 size ++ to_be_bytes 2 FLAGS.
Definition block_info : list Z :=
  to_be_bytes 2 3 ++ to_be_bytes 4 512 ++ to_be_bytes 4 65536 ++ to_be_bytes 4 MAX_REQUEST.

(** One pass of the option loop; [Some b] is [return Ok(b)]. *)
Definition negotiate (flags size : Z) : M IoError Conn (option bool) :=
  header ← read_exact 16;
  if negb (u64_at header 0 =? OPT_MAGIC) then fail InvalidData
  else
    let option := u32_at header 8 in
    let length := u32_at header 12 in
    if 4096 <? length then fail InvalidData
    else
      data ← read_exact length;
      if option =? 1 then
        if negb (Zlen data =? 0) then fail InvalidData
        else
          write_all (to_be_bytes 8 size);;
          write_all (to_be_bytes 2 FLAGS);;
          (if Z.land flags 2 =? 0 then write_all (zeros 124) else mret tt);;
          flush;;
          mret (Some true)
      else if (option =? 2) && (Zlen data =? 0) then
        option_reply option 1 [];; flush;; mret (Some false)
      else if (option =? 6) || (option =? 7) then
        if Zlen data <? 6 then fail InvalidData
        else
          let name_len := u32_at data 0 in
          if Zlen data - 6 <? name_len then fail InvalidData
          else
            let n := u16_at data (4 + name_len) in
            if negb (Zlen data =? 6 + name_len + 2 * n) then fail InvalidData
            else if negb (name_len =? 0) then
              option_reply option 0x80000006 [];; flush;; mret None
            else
              option_reply option 3 (export_info size);;
              option_reply option 3 block_info;;
              option_reply option 1 [];;
              flush;;
              if option =? 7 then mret (Some true) else flush;; mret None
      else option_reply option 0x80000001 [];; flush;; mret None.

Fixpoint options (n : nat) (flags size : Z) : M IoError Conn bool :=
  match n with
  | O => fail InvalidData
  | S n =>
      r ← negotiate flags size;
      match r with
      | Some b => mret b
      | None => options n flags size
      end
  end.

Definition handshake (size : Z) : M IoError Conn bool :=
  write_all (to_be_bytes 8 0x4e42444d41474943);;
  write_all (to_be_bytes 8 OPT_MAGIC);;
  write_all (to_be_bytes 2 3);;
  flush;;
  client ← read_exact 4;
  let flags := from_be_bytes client in
  if negb (Z.land flags (Z.lxor u32_max 3) =? 0) || (Z.land flags 1 =? 0)
  then fail InvalidData
  else options 32 flags size.

(** ** Serving *)
Section serve.
Context {D : Type} {DISK : Disk D}.

Definition stream {A} (m : M IoError Conn A) : M IoError (Conn * D) A :=
  zoom fst (λ c t, (c, t.2)) m.
(** A call on the disk; its [Result] is data for the reply. *)
Definition device {A} (m : M Error D A) : M IoError (Conn * D) (Result Error A) := λ t,
  let '(r, d) := m t.2 in (Ok r, (t.1, d)).

(** [offset.checked_add(length).is_some_and(|end| end <= disk.size())] *)
Definition in_range (offset length size : Z) : bool :=
  match u64_checked_add offset length with
  | Some end_ => end_ <=? size
  | None => false
  end.
Definition aligned (offset length size : Z) : bool :=
  (0 <? length) && is_multiple_of length 512 && is_multiple_of offset 512
  && in_range offset length size.

Definition valid (command flags offset length size : Z) : bool :=
  if (command =? 0) || (command =? 1) then
    (Z.land flags (Z.lxor u16_max (if command =? 1 then 1 else 0)) =? 0)
    && aligned offset length size
  else if command =? 3 then (flags =? 0) && (offset =? 0) && (length =? 0)
  else false.

(** The [match command] of a valid request: the buffer to send after a read. *)
Definition execute (command flags offset : Z) (data : list Z) : M Error D (list Z) :=
  if command =? 0 then dev_read offset data
  else if command =? 1 then
    dev_write offset data;;
    (if negb (Z.land flags 1 =? 0) then dev_flush else mret tt);;
    mret data
  else dev_flush;; mret data.

Definition errno_of {A} (r : Result Error A) : Z :=
  match r with Ok _ => 0 | Err InvalidInput => INVALID | Err _ => IO_ERROR end.

(** One pass of the loop; [false] is [return Ok(())]. *)
Definition request : M IoError (Conn * D) bool :=
  header ← stream (read_exact 28);
  if negb (u32_at header 0 =? 0x25609513) then fail InvalidData
  else
    let flags := u16_at header 4 in
    let command := u16_at header 6 in
    let offset := u64_at header 16 in
    let length := u32_at header 24 in
    if MAX_REQUEST <? length then fail InvalidData
    else if command =? 2 then mret false
    else
      data ← (if command =? 1 then stream (read_exact length) else mret (zeros length));
      size ← gets (λ t, dev_size t.2);
      result ← (if valid command flags offset length size
                then device (execute command flags offset data)
                else mret (Err InvalidInput));
      let errno := errno_of result in
      stream (write_all (to_be_bytes 4 0x67446698));;
      stream (write_all (to_be_bytes 4 errno));;
      stream (write_all (slice header 8 8));;
      match result with
      | Ok buffer => if command =? 0 then stream (write_all buffer) else mret tt
      | Err _ => mret tt
      end;;
      stream flush;;
      mret true.

Fixpoint serve_loop (fuel : nat) : M IoError (Conn * D) unit :=
  match fuel with
  | O => fail OutOfFuel
  | S fuel =>
      more ← request;
      if (more : bool) then serve_loop fuel else mret tt
  end.

(** Every pass takes a 28-byte header, so the bytes of the client bound the passes. *)
Definition serve : M IoError (Conn * D) unit :=
  size ← gets (λ t, dev_size t.2);
  go ← stream (handshake size);
  fuel ← gets (λ t, S (length (input t.1)));
  if (go : bool) then serve_loop fuel else mret tt.
End serve.

(** ** The abstract service *)

(** What a client may ask, with the flag, offset and length fields as sent. *)
Inductive Op : Type :=
| Read (flags offset length : Z)
| Write (flags offset : Z) (data : list Z)
| Flush (flags offset length : Z)
| Other (command flags offset length : Z).
Record Request := mkRequest { handle : list Z; op : Op }.

Definition op_fields (o : Op) : Z * Z * Z * Z :=
  match o with
  | Read f off n => (0, f, off, n)
  | Write f off data => (1, f, off, Zlen data)
  | Flush f off n => (3, f, off, n)
  | Other c f off n => (c, f, off, n)
  end.
Definition payload (o : Op) : list Z := match o with Write _ _ data => data | _ => [] end.

Definition encode (q : Request) : list Z :=
  let '(command, flags, offset, length) := op_fields (op q) in
  to_be_bytes 4 0x25609513 ++ to_be_bytes 2 flags ++ to_be_bytes 2 command ++ handle q
    ++ to_be_bytes 8 offset ++ to_be_bytes 4 length ++ payload (op q).

(** The fields fit the wire, the length fits the limit, and the command is not
    one the loop ends on. *)
Definition wf_request (q : Request) : Prop :=
  let '(command, flags, offset, length) := op_fields (op q) in
  Zlen (handle q) = 8 ∧ 0 ≤ flags ≤ u16_max ∧ is_u64 offset ∧ 0 ≤ length ≤ MAX_REQUEST ∧
  0 ≤ command ≤ u16_max ∧ command ≠ 2 ∧
  match op q with Other c _ _ _ => c ≠ 0 ∧ c ≠ 1 ∧ c ≠ 3 | _ => True end.

Section service.
Context {D : Type} {DISK : Disk D}.

(** One operation on the disk. *)
Definition perform (o : Op) : M Error D (list Z) :=
  size ← gets dev_size;
  match o with
  | Read flags offset length =>
      if (flags =? 0) && aligned offset length size then dev_read offset (zeros length)
      else fail InvalidInput
  | Write flags offset data =>
      if ((flags =? 0) || (flags =? 1)) && aligned offset (Zlen data) size then
        dev_write offset data;;
        (if flags =? 1 then dev_flush else mret tt);;
        mret []
      else fail InvalidInput
  | Flush flags offset length =>
      if (flags =? 0) && (offset =? 0) && (length =? 0) then dev_flush;; mret []
      else fail InvalidInput
  | Other _ _ _ _ => fail InvalidInput
  end.

Definition reply (h : list Z) (r : Result Error (list Z)) : list Z :=
  to_be_bytes 4 0x67446698 ++ to_be_bytes 4 (errno_of r) ++ h
    ++ match r with Ok data => data | Err _ => [] end.

(** The replies to a sequence of requests, and the disk after it. *)
Fixpoint transcript (qs : list Request) (d : D) : list Z * D :=
  match qs with
  | [] => ([], d)
  | q :: qs =>
      let '(r, d1) := perform (op q) d in
      let '(out, d2) := transcript qs d1 in
      (reply (handle q) r ++ out, d2)
  end.
End service.

(** How a client enters transmission. *)
Inductive Client : Type :=
| ExportName (no_zeroes : bool)
| Go (infos : list Z).

Definition client_hello (c : Client) : list Z :=
  match c with
  | ExportName nz =>
      to_be_bytes 4 (if nz then 3 else 1) ++ to_be_bytes 8 OPT_MAGIC ++ to_be_bytes 4 1 ++ to_be_bytes 4 0
  | Go infos =>
      to_be_bytes 4 3 ++ to_be_bytes 8 OPT_MAGIC ++ to_be_bytes 4 7
        ++ to_be_bytes 4 (6 + 2 * Zlen infos)
        ++ to_be_bytes 4 0 ++ to_be_bytes 2 (Zlen infos) ++ concat (map (to_be_bytes 2) infos)
  end.
Definition wf_client (c : Client) : Prop :=
  match c with ExportName _ => True | Go infos => 6 + 2 * Zlen infos ≤ 4096 end.

Definition greeting : list Z :=
  to_be_bytes 8 0x4e42444d41474943 ++ to_be_bytes 8 OPT_MAGIC ++ to_be_bytes 2 3.
Definition option_bytes (option kind : Z) (data : list Z) : list Z :=
  to_be_bytes 8 0x3e889045565a9 ++ to_be_bytes 4 option ++ to_be_bytes 4 kind
    ++ to_be_bytes 4 (Zlen data) ++ data.
Definition server_hello (c : Client) (size : Z) : list Z :=
  match c with
  | ExportName nz =>
      to_be_bytes 8 size ++ to_be_bytes 2 FLAGS ++ (if nz then [] else zeros 124)
  | Go _ =>
      option_bytes 7 3 (export_info size) ++ option_bytes 7 3 block_info ++ option_bytes 7 1 []
  end.

(** How a client leaves: with a [DISC] request, or by hanging up. *)
Definition farewell (disc : bool) : list Z :=
  if disc then to_be_bytes 4 0x25609513 ++ to_be_bytes 2 0 ++ to_be_bytes 2 2 ++ zeros 20 else [].

(** ** Steps of the stream *)

(** [m] reads the bytes in front of [rest], sends [out] in at most [k] writes, and
    returns [a]. *)
Definition exchanges {A} (m : M IoError Conn A) (c : Conn) (rest out : list Z) (k : nat) (a : A) : Prop :=
  ∃ c', m c = (Ok a, c') ∧ input c' = rest ∧ output c' = output c ++ out ∧
    (patience c ≤ k + patience c')%nat.

Lemma exchanges_ret {A} (a : A) c rest k : input c = rest → exchanges (mret a) c rest [] k a.
Proof. exists c. rewrite app_nil_r. split; [done|]. split; [done|]. split; [done|lia]. Qed.

Lemma exchanges_bind {A B} (m : M IoError Conn A) (f : A → M IoError Conn B) c r1 r2 o1 o2 k1 k2 a b :
  exchanges m c r1 o1 k1 a →
  (∀ c', input c' = r1 → (patience c ≤ k1 + patience c')%nat → exchanges (f a) c' r2 o2 k2 b) →
  exchanges (m ≫= f) c r2 (o1 ++ o2) (k1 + k2) b.
Proof.
  intros (c1 & Hm & Hi & Ho & Hp) Hf. destruct (Hf c1 Hi Hp) as (c2 & Hf2 & Hi2 & Ho2 & Hp2).
  exists c2. rewrite /mbind /M_bind Hm Hf2 Hi2 Ho2 Ho app_assoc. split_and!; try done. lia.
Qed.

Lemma exchanges_read c x rest n : input c = x ++ rest → Zlen x = n →
  exchanges (read_exact n) c rest [] 0 x.
Proof.
  intros Hi <-. rewrite /exchanges /read_exact Hi Zlen_app. pose proof (Zlen_nonneg rest).
  replace (Zlen x + Zlen rest <? Zlen x) with false by (symmetry; apply Z.ltb_ge; lia).
  rewrite /Zlen Nat2Z.id take_app_length drop_app_length. eexists. split; [done|]. simpl.
  rewrite app_nil_r. split; [done|]. split; [done|lia].
Qed.

Lemma exchanges_write c rest data : input c = rest → (1 ≤ patience c)%nat →
  exchanges (write_all data) c rest data 1 tt.
Proof.
  intros <-. rewrite /exchanges /write_all. destruct (patience c) as [|p] eqn:E; [lia|]. intros _.
  eexists. split; [done|]. simpl. split; [done|]. split; [done|lia].
Qed.

Lemma exchanges_eq {A} (m : M IoError Conn A) c rest rest' out out' k a :
  exchanges m c rest out k a → rest = rest' → out = out' → exchanges m c rest' out' k a.
Proof. by intros ? <- <-. Qed.

(** A sequence of writes. *)
Ltac xwrite k :=
  eapply (exchanges_bind _ _ _ _ _ _ _ 1 k); [apply exchanges_write; [eassumption|lia]|intros ? ? ?].

Lemma exchanges_option_reply option kind data c rest : input c = rest → (5 ≤ patience c)%nat →
  exchanges (option_reply option kind data) c rest (option_bytes option kind data) 5 tt.
Proof.
  intros Hi Hp. rewrite /option_reply /option_bytes.
  xwrite 4%nat. xwrite 3%nat. xwrite 2%nat. xwrite 1%nat. apply exchanges_write; [done|lia].
Qed.

Lemma option_header option n rest l : 0 ≤ option < 2 ^ 32 → 0 ≤ n < 2 ^ 32 →
  l = to_be_bytes 8 OPT_MAGIC ++ to_be_bytes 4 option ++ to_be_bytes 4 n ++ rest →
  ∃ h, l = h ++ rest ∧ Zlen h = 16 ∧ u64_at h 0 = OPT_MAGIC ∧ u32_at h 8 = option ∧ u32_at h 12 = n.
Proof.
  intros Ho Hn ->. exists (to_be_bytes 8 OPT_MAGIC ++ to_be_bytes 4 option ++ to_be_bytes 4 n).
  split; [by rewrite -!app_assoc|]. split; [by rewrite !Zlen_app !Zlen_to_be_bytes|].
  rewrite /u64_at /u32_at. split; [|split].
  - by read_field.
  - read_field; done.
  - read_field; done.
Qed.

Lemma exchanges_read0 c rest : input c = rest → exchanges (read_exact 0) c rest [] 0 [].
Proof. intros Hi. by apply exchanges_read. Qed.

Lemma exchanges_when (b : bool) c rest data : input c = rest → (1 ≤ patience c)%nat →
  exchanges (if b then write_all data else mret tt) c rest (if b then data else []) 1 tt.
Proof. intros. destruct b; [by apply exchanges_write|by apply exchanges_ret]. Qed.

(** A final [flush] and [return]. *)
Lemma exchanges_finish {A} c rest (a : A) : input c = rest → (1 ≤ patience c)%nat →
  exchanges (flush;; mret a) c rest [] 1 a.
Proof.
  intros. change (@nil Z) with (@nil Z ++ []). xwrite 0%nat. by apply exchanges_ret.
Qed.

Lemma negotiate_export c size nz flags rest :
  input c = to_be_bytes 8 OPT_MAGIC ++ to_be_bytes 4 1 ++ to_be_bytes 4 0 ++ rest →
  (Z.land flags 2 =? 0) = negb nz → (4 ≤ patience c)%nat →
  exchanges (negotiate flags size) c rest (server_hello (ExportName nz) size) 4 (Some true).
Proof.
  intros Hi Hf Hp. eapply option_header in Hi as (h & Hi & Hl & Hm & Ho & Hn); [|done..].
  eapply (exchanges_eq _ _ rest _ ([] ++ [] ++ _)); [|done|].
  - eapply (exchanges_bind _ _ _ _ _ _ _ 0 4); [by eapply exchanges_read|]. intros c1 Hi1 Hp1.
    rewrite Hm Ho Hn /=. eapply (exchanges_bind _ _ _ _ _ _ _ 0 4); [by apply exchanges_read0|].
    intros c2 Hi2 Hp2. simpl.
    xwrite 3%nat. xwrite 2%nat.
    eapply (exchanges_bind _ _ _ _ _ _ _ 1 1); [apply exchanges_when; [done|lia]|intros ? ? ?].
    apply exchanges_finish; [done|lia].
  - simpl. rewrite Hf app_nil_r. by destruct nz.
Qed.

Lemma Zlen_infos (infos : list Z) : Zlen (concat (map (to_be_bytes 2) infos)) = 2 * Zlen infos.
Proof.
  induction infos as [|x l IH]; [done|]. change (Zlen (to_be_bytes 2 x ++ concat (map (to_be_bytes 2) l)) = 2 * Zlen (x :: l)).
  rewrite Zlen_app IH Zlen_to_be_bytes Zlen_cons. lia.
Qed.

Lemma negotiate_go c size infos flags rest :
  input c = to_be_bytes 8 OPT_MAGIC ++ to_be_bytes 4 7 ++ to_be_bytes 4 (6 + 2 * Zlen infos)
    ++ (to_be_bytes 4 0 ++ to_be_bytes 2 (Zlen infos) ++ concat (map (to_be_bytes 2) infos)) ++ rest →
  6 + 2 * Zlen infos ≤ 4096 → (16 ≤ patience c)%nat →
  exchanges (negotiate flags size) c rest (server_hello (Go infos) size) 16 (Some true).
Proof.
  intros Hi Hlen Hp. pose proof (Zlen_nonneg infos) as H0.
  eapply option_header in Hi as (h & Hi & Hl & Hm & Ho & Hn); [|done|lia].
  set (data := to_be_bytes 4 0 ++ _) in Hi.
  assert (Zlen data = 6 + 2 * Zlen infos) as Hd.
  { rewrite !Zlen_app !Zlen_to_be_bytes Zlen_infos. lia. }
  assert (u32_at data 0 = 0) as Hname by (rewrite /u32_at; read_field; done).
  assert (u16_at data (4 + 0) = Zlen infos) as Hinfos by (rewrite /u16_at; read_field; lia).
  clearbody data.
  eapply (exchanges_eq _ _ rest _ ([] ++ [] ++ _)); [|done|].
  - eapply (exchanges_bind _ _ _ _ _ _ _ 0 16); [by eapply exchanges_read|]. intros c1 Hi1 Hp1.
    rewrite Hm Ho Hn /=. replace (4096 <? _) with false by (symmetry; apply Z.ltb_ge; lia).
    eapply (exchanges_bind _ _ _ _ _ _ _ 0 16); [by apply exchanges_read|].
    intros c2 Hi2 Hp2. simpl.
    replace (Zlen data <? 6) with false by (symmetry; apply Z.ltb_ge; lia).
    rewrite Hname Hinfos. replace (Zlen data - 6 <? 0) with false by (symmetry; apply Z.ltb_ge; lia).
    replace (6 + 0 + _) with (Zlen data) by lia. rewrite Z.eqb_refl /=.
    eapply (exchanges_bind _ _ _ _ _ _ _ 5 11); [apply exchanges_option_reply; [done|lia]|intros ? ? ?].
    eapply (exchanges_bind _ _ _ _ _ _ _ 5 6); [apply exchanges_option_reply; [done|lia]|intros ? ? ?].
    eapply (exchanges_bind _ _ _ _ _ _ _ 5 1); [apply exchanges_option_reply; [done|lia]|intros ? ? ?].
    apply exchanges_finish; [done|lia].
  - by rewrite app_nil_r.
Qed.

Lemma handshake_spec c cl size rest : wf_client cl → input c = client_hello cl ++ rest →
  (20 ≤ patience c)%nat →
  exchanges (handshake size) c rest (greeting ++ server_hello cl size) 20 true.
Proof.
  intros Hwf Hi Hp.
  assert (∃ f hello, client_hello cl = to_be_bytes 4 f ++ hello ∧ (f = 1 ∨ f = 3) ∧
    ∀ c', input c' = hello ++ rest → (16 ≤ patience c')%nat →
      exchanges (options 32 f size) c' rest (server_hello cl size) 16 true) as (f & hello & Hf & Hf' & Hneg).
  { assert (∀ c' f k, (k ≤ 16)%nat → exchanges (negotiate f size) c' rest (server_hello cl size) k (Some true) →
      exchanges (options 32 f size) c' rest (server_hello cl size) 16 true) as Hstep.
    { intros c' f k Hk (c2 & Hr & ? & ? & ?). exists c2. rewrite /= /mbind /M_bind Hr /=.
      split_and!; try done. lia. }
    destruct cl as [nz|infos].
    - exists (if nz then 3 else 1). eexists. split; [done|]. split; [destruct nz; auto|].
      intros c' Hi' Hp'. apply (Hstep _ _ 4%nat); [lia|]. apply negotiate_export; [|by destruct nz|lia].
      by rewrite Hi' -!app_assoc.
    - exists 3. eexists. split; [done|]. split; [auto|].
      intros c' Hi' Hp'. apply (Hstep _ _ 16%nat); [lia|]. apply negotiate_go; [|done|lia].
      by rewrite Hi' -!app_assoc. }
  rewrite Hf -app_assoc in Hi.
  eapply (exchanges_eq _ _ rest _ (_ ++ _ ++ _ ++ [] ++ [] ++ _)); [|done|by rewrite /greeting -!app_assoc].
  rewrite /handshake. xwrite 19%nat. xwrite 18%nat. xwrite 17%nat. xwrite 16%nat.
  eapply (exchanges_bind _ _ _ _ _ _ _ 0 16).
  { apply exchanges_read; [eassumption|by rewrite Zlen_to_be_bytes]. }
  intros cx Hix Hpx. rewrite from_to_be_bytes; [destruct Hf' as [->| ->]; done|].
  assert (negb (Z.land f (Z.lxor u32_max 3) =? 0) || (Z.land f 1 =? 0) = false) as ->
    by (by destruct Hf' as [->| ->]).
  apply Hneg; [done|lia].
Qed.

(** ** One request *)

Lemma flags_read f : 0 ≤ f ≤ u16_max → (Z.land f (Z.lxor u16_max 0) =? 0) = (f =? 0).
Proof.
  intros Hf. change (Z.lxor u16_max 0) with (Z.ones 16). rewrite Z.land_ones; [lia|].
  by rewrite Z.mod_small; [rewrite /u16_max in Hf; lia|].
Qed.

Lemma flags_write f : 0 ≤ f ≤ u16_max →
  (Z.land f (Z.lxor u16_max 1) =? 0) = (f =? 0) || (f =? 1).
Proof.
  intros Hf. destruct (Z.eqb_spec f 0) as [->|]; [done|]. destruct (Z.eqb_spec f 1) as [->|]; [done|].
  apply Z.eqb_neq. intros H0.
  assert (f = Z.lor (Z.land f 65534) (Z.land f 1)) as Hs.
  { rewrite -Z.land_lor_distr_r. change (Z.lor 65534 1) with (Z.ones 16). rewrite Z.land_ones; [lia|].
    rewrite Z.mod_small; rewrite /u16_max in Hf; lia. }
  change (Z.lxor u16_max 1) with 65534 in H0. rewrite H0 Z.lor_0_l in Hs.
  change (Z.land f 1) with (Z.land f (Z.ones 1)) in Hs. rewrite Z.land_ones in Hs; [lia|].
  pose proof (Z.mod_pos_bound f (2 ^ 1)). lia.
Qed.

Section requests.
Context {D : Type} {DISK : Disk D}.
Implicit Types (d : D) (c : Conn).

(** What the loop does with the fields of an operation. *)
Definition handled (o : Op) : M Error D (list Z) :=
  let '(command, flags, offset, length) := op_fields o in
  size ← gets dev_size;
  if valid command flags offset length size
  then execute command flags offset (if command =? 1 then payload o else zeros length)
  else fail InvalidInput.

Definition sent_back (o : Op) (r : Result Error (list Z)) : Result Error (list Z) :=
  match r with
  | Ok data => Ok (if (op_fields o).1.1.1 =? 0 then data else [])
  | Err e => Err e
  end.

Lemma handled_perform q d : wf_request q →
  perform (op q) d = (sent_back (op q) (handled (op q) d).1, (handled (op q) d).2).
Proof.
  rewrite /wf_request /perform /handled /sent_back /valid /execute.
  destruct q as [h o]. destruct o as [f off n|f off data|f off n|cm f off n]; simpl;
    intros (_ & Hf & _ & _ & _ & _ & Ho).
  - rewrite flags_read //. rewrite /mbind /M_bind /=.
    destruct (_ && _); [|done].
    by destruct (dev_read _ _ _) as [[] ?].
  - rewrite flags_write //. rewrite /mbind /M_bind /=.
    destruct (Z.eqb_spec f 0) as [->|H0]; [|destruct (Z.eqb_spec f 1) as [->|H1]]; simpl;
      [..|done]; destruct (aligned _ _ _); try done; destruct (dev_write _ _ _) as [[] d']; try done.
    simpl. by destruct (dev_flush d') as [[] d''].
  - rewrite /mbind /M_bind /=. destruct (_ && _); [|done].
    by destruct (dev_flush d) as [[] d'].
  - destruct Ho as (H0 & H1 & H3). rewrite (proj2 (Z.eqb_neq cm 0)) // (proj2 (Z.eqb_neq cm 1)) //
      (proj2 (Z.eqb_neq cm 3)) //.
Qed.

(** [exchanges] for a program that may also use the disk, from [d] to [d']. *)
Definition serves {A} (m : M IoError (Conn * D) A) c d rest out k (a : A) d' : Prop :=
  ∃ c', m (c, d) = (Ok a, (c', d')) ∧ input c' = rest ∧ output c' = output c ++ out ∧
    (patience c ≤ k + patience c')%nat.

Lemma serves_stream {A} (m : M IoError Conn A) c d rest out k a :
  exchanges m c rest out k a → serves (stream m) c d rest out k a d.
Proof. intros (c' & Hm & H). exists c'. by rewrite /stream /zoom /= Hm. Qed.

Lemma serves_pure {A} (m : M IoError (Conn * D) A) c d rest k a d' : m (c, d) = (Ok a, (c, d')) →
  input c = rest → serves m c d rest [] k a d'.
Proof. intros Hm Hi. exists c. rewrite app_nil_r. split_and!; try done. lia. Qed.

Lemma serves_bind {A B} (m : M IoError (Conn * D) A) (f : A → M IoError (Conn * D) B)
    c d r1 r2 o1 o2 k1 k2 a b d1 d2 :
  serves m c d r1 o1 k1 a d1 →
  (∀ c', input c' = r1 → (patience c ≤ k1 + patience c')%nat → serves (f a) c' d1 r2 o2 k2 b d2) →
  serves (m ≫= f) c d r2 (o1 ++ o2) (k1 + k2) b d2.
Proof.
  intros (c1 & Hm & Hi & Ho & Hp) Hf. destruct (Hf c1 Hi Hp) as (c2 & Hf2 & Hi2 & Ho2 & Hp2).
  exists c2. rewrite /mbind /M_bind Hm Hf2 Hi2 Ho2 Ho app_assoc. split_and!; try done. lia.
Qed.

Lemma serves_eq {A} (m : M IoError (Conn * D) A) c d rest out out' k a d' :
  serves m c d rest out k a d' → out = out' → serves m c d rest out' k a d'.
Proof. by intros ? <-. Qed.

Ltac swrite k :=
  eapply (serves_bind _ _ _ _ _ _ _ _ 1 k);
    [apply serves_stream, exchanges_write; [eassumption|lia]|intros ? ? ?].

Lemma request_header q rest l : wf_request q → l = encode q ++ rest →
  let '(command, flags, offset, length) := op_fields (op q) in
  ∃ h, l = h ++ payload (op q) ++ rest ∧ Zlen h = 28 ∧ u32_at h 0 = 0x25609513 ∧
    u16_at h 4 = flags ∧ u16_at h 6 = command ∧ slice h 8 8 = handle q ∧
    u64_at h 16 = offset ∧ u32_at h 24 = length.
Proof.
  rewrite /wf_request /encode. destruct (op_fields (op q)) as [[[cm f] off] n].
  intros (Hh & Hf & Ho & Hn & Hc & _) ->.
  exists (to_be_bytes 4 0x25609513 ++ to_be_bytes 2 f ++ to_be_bytes 2 cm ++ handle q
    ++ to_be_bytes 8 off ++ to_be_bytes 4 n).
  split; [by rewrite -!app_assoc|]. split; [rewrite !Zlen_app !Zlen_to_be_bytes; lia|].
  rewrite /u16_max in Hf Hc. rewrite /is_u64 /u64_max in Ho. rewrite /MAX_REQUEST in Hn.
  rewrite /u16_at /u32_at /u64_at.
  repeat split; read_field; done || lia.
Qed.

Lemma request_payload q : wf_request q → let '(command, _, _, length) := op_fields (op q) in
  if command =? 1 then Zlen (payload (op q)) = length else payload (op q) = [].
Proof.
  rewrite /wf_request. destruct (op q); try done. intros (_ & _ & _ & _ & _ & _ & _ & H & _).
  by rewrite /= (proj2 (Z.eqb_neq _ _) H).
Qed.

Lemma serves_finish c d rest : input c = rest → (1 ≤ patience c)%nat →
  serves (stream flush;; mret true) c d rest [] 1 true d.
Proof.
  intros. change (@nil Z) with (@nil Z ++ []). swrite 0%nat. by apply serves_pure.
Qed.

(** The buffer follows a successful read only. *)
Lemma serves_buffer c d rest (b : bool) (r : Result Error (list Z)) : input c = rest → (1 ≤ patience c)%nat →
  serves (match r with Ok buffer => if b then stream (write_all buffer) else mret tt | Err _ => mret tt end)
    c d rest (match r with Ok x => if b then x else [] | Err _ => [] end) 1 tt d.
Proof.
  intros. destruct r; [destruct b|]; try by apply serves_pure. by apply serves_stream, exchanges_write.
Qed.

(** One pass of the loop answers one request. *)
Lemma request_spec q c d rest : wf_request q → input c = encode q ++ rest → (5 ≤ patience c)%nat →
  serves request c d rest (reply (handle q) (perform (op q) d).1) 5 true (perform (op q) d).2.
Proof.
  intros Hq Hi Hp. rewrite handled_perform // /handled /=.
  pose proof (request_header q rest _ Hq Hi) as Hh. pose proof (request_payload q Hq) as Hpay.
  rewrite /wf_request in Hq.
  destruct (op_fields (op q)) as [[[cm f] off] n] eqn:Hop.
  destruct Hh as (h & Hih & Hl & Hmg & Hf & Hcm & Hhd & Hof & Hn).
  destruct Hq as (Hhl & _ & _ & Hlen & _ & Hc2 & _).
  set (data := if cm =? 1 then payload (op q) else zeros n).
  set (res := (if valid cm f off n (dev_size d) then execute cm f off data else fail InvalidInput) d).
  assert ((gets dev_size ≫= λ size, if valid cm f off n size then execute cm f off data
    else fail InvalidInput) d = res) as -> by done.
  assert (sent_back (op q) res.1 = match res.1 with
    | Ok b => Ok (if cm =? 0 then b else []) | Err e => Err e end) as -> by (by rewrite /sent_back Hop).
  assert (∀ c1, input c1 = payload (op q) ++ rest → serves
    (if cm =? 1 then stream (read_exact n) else mret (zeros n)) c1 d rest [] 0 data d) as Hdata.
  { intros c1 Hc1. rewrite /data. destruct (cm =? 1).
    - apply serves_stream. by apply exchanges_read.
    - rewrite Hpay in Hc1. by apply serves_pure. }
  eapply serves_eq.
  { eapply (serves_bind _ _ _ _ _ _ _ _ 0 5); [by apply serves_stream, exchanges_read|]. intros c1 Hi1 Hp1.
    rewrite Hmg Hf Hcm Hof Hn /=. replace (MAX_REQUEST <? n) with false by (symmetry; apply Z.ltb_ge; lia).
    rewrite (proj2 (Z.eqb_neq cm 2) Hc2).
    eapply (serves_bind _ _ _ _ _ _ _ _ 0 5); [by apply Hdata|]. intros c2 Hi2 Hp2.
    eapply (serves_bind _ _ _ _ _ _ _ _ 0 5 (dev_size d)); [by apply serves_pure|]. intros c3 Hi3 Hp3.
    eapply (serves_bind _ _ _ _ _ _ _ _ 0 5 res.1 _ res.2).
    { apply serves_pure; [|done]. rewrite /res /device. destruct (valid _ _ _ _ _); [|done]. simpl.
      by destruct (execute _ _ _ _ _). }
    intros c4 Hi4 Hp4. swrite 4%nat. swrite 3%nat. swrite 2%nat.
    eapply (serves_bind _ _ _ _ _ _ _ _ 1 1 tt).
    - by apply serves_buffer; [|lia].
    - intros ? ? ?. by apply serves_finish; [|lia]. }
  rewrite Hhd /reply. destruct res.1; by rewrite ?app_nil_r.
Qed.
End requests.

(** ** Whatever the client sends *)

(** [m] only takes bytes off the input, and its errors are the stream's. *)
Definition frugal {A} (m : M IoError Conn A) : Prop := ∀ c, bytes (input c) →
  wp m c (λ r c', bytes (input c') ∧ (length (input c') ≤ length (input c))%nat ∧ r ≠ Err OutOfFuel).

Lemma frugal_ret {A} (a : A) : frugal (mret a).
Proof. intros c Hc. apply wp_ret. by split_and!. Qed.

Lemma frugal_invalid {A} : frugal (@fail IoError Conn A InvalidData).
Proof. intros c Hc. apply wp_fail. by split_and!. Qed.

Lemma frugal_bind {A B} (m : M IoError Conn A) (f : A → M IoError Conn B) :
  frugal m → (∀ a, frugal (f a)) → frugal (m ≫= f).
Proof.
  intros Hm Hf c Hc. apply wp_bind. eapply wp_mono; [by apply Hm|].
  intros [a|e] c1 (H1 & H2 & H3).
  - eapply wp_mono; [by apply Hf|]. intros r c2 (H4 & H5 & H6). split_and!; try done. lia.
  - split_and!; try done. congruence.
Qed.

Lemma frugal_read n : frugal (read_exact n).
Proof.
  intros c Hc. rewrite /wp /read_exact. destruct (_ <? _); simpl.
  - split_and!; [constructor|lia|done].
  - split_and!; [by apply bytes_drop|rewrite length_drop; lia|done].
Qed.

Lemma frugal_write data : frugal (write_all data).
Proof. intros c Hc. rewrite /wp /write_all. by destruct (patience c). Qed.

Lemma frugal_if {A} (b : bool) (m n : M IoError Conn A) : frugal m → frugal n → frugal (if b then m else n).
Proof. by destruct b. Qed.

Create HintDb frugal.
#[export] Hint Resolve frugal_ret frugal_invalid frugal_read frugal_write frugal_if : frugal.
#[export] Hint Extern 1 (frugal (_ ≫= _)) => apply frugal_bind; [|intros ?] : frugal.
#[export] Hint Extern 1 (frugal flush) => apply frugal_write : frugal.

Lemma frugal_option_reply option kind data : frugal (option_reply option kind data).
Proof. rewrite /option_reply. auto 20 with frugal. Qed.
#[export] Hint Resolve frugal_option_reply : frugal.

Lemma frugal_negotiate flags size : frugal (negotiate flags size).
Proof. rewrite /negotiate. cbv zeta. auto 60 with frugal. Qed.

Lemma frugal_options n flags size : frugal (options n flags size).
Proof.
  induction n as [|n IH]; simpl; [auto with frugal|].
  apply frugal_bind; [apply frugal_negotiate|]. intros [b|]; auto with frugal.
Qed.

Lemma frugal_handshake size : frugal (handshake size).
Proof.
  rewrite /handshake. cbv zeta. pose proof (λ f, frugal_options 32 f size). auto 30 with frugal.
Qed.

(** The obligations of a predicate on disks that the loop maintains: reads,
    writes and flushes, as far as the loop ever calls them. *)
Definition inside (offset n size : Z) : Prop :=
  0 < n ∧ n mod 512 = 0 ∧ offset mod 512 = 0 ∧ offset + n ≤ size.
Record Kept {D} {DISK : Disk D} (P : D → Prop) : Prop := {
  kept_read d offset n : P d → is_u64 offset → n ≤ MAX_REQUEST →
    inside offset n (dev_size d) → P (dev_read offset (zeros n) d).2;
  kept_write d offset data : P d → is_u64 offset → Zlen data ≤ MAX_REQUEST → bytes data →
    inside offset (Zlen data) (dev_size d) → P (dev_write offset data d).2;
  kept_flush d : P d → P (dev_flush d).2;
}.

Lemma aligned_inside offset n size : aligned offset n size = true → inside offset n size.
Proof.
  rewrite /aligned /in_range /is_multiple_of /u64_checked_add !andb_true_iff Z.ltb_lt !Z.eqb_eq.
  intros [[[? ?] ?] Hr]. case_match; [|done]. case_match; simplify_eq. by split_and!; [..|apply Z.leb_le in Hr].
Qed.

Section confined.
Context {D : Type} {DISK : Disk D} (P : D → Prop).

(** A pass that ends well has taken a whole header. *)
Definition confined {A} (k : nat) (m : M IoError (Conn * D) A) : Prop := ∀ t, bytes (input t.1) → P t.2 →
  wp m t (λ r t', bytes (input t'.1) ∧ P t'.2 ∧ r ≠ Err OutOfFuel ∧
    match r with Ok _ => (length (input t'.1) + k ≤ length (input t.1))%nat | Err _ => True end).

Lemma confined_stream {A} (m : M IoError Conn A) : frugal m → confined 0 (stream m).
Proof.
  intros Hm t Hb Hd. apply wp_zoom. eapply wp_mono; [by apply Hm|]. intros r c (H1 & H2 & H3).
  split_and!; try done. destruct r; [|done]. simpl. lia.
Qed.

Lemma confined_ret {A} (a : A) : confined 0 (mret a).
Proof. intros t Hb Hd. apply wp_ret. split_and!; try done. lia. Qed.

Lemma confined_fail {A} k : confined k (@fail IoError (Conn * D) A InvalidData).
Proof. intros t Hb Hd. apply wp_fail. by split_and!. Qed.

Lemma confined_bind {A B} k l (m : M IoError (Conn * D) A) (f : A → M IoError (Conn * D) B) :
  confined k m → (∀ a, confined l (f a)) → confined (k + l) (m ≫= f).
Proof.
  intros Hm Hf t Hb Hd. apply wp_bind. eapply wp_mono; [by apply Hm|].
  intros [a|e] t1 (H1 & H2 & H3 & H4).
  - eapply wp_mono; [by apply Hf|]. intros r t2 (H5 & H6 & H7 & H8). split_and!; try done.
    destruct r; [lia|done].
  - split_and!; try done. congruence.
Qed.

Lemma confined_if {A} k (b : bool) (m n : M IoError (Conn * D) A) :
  confined k m → confined k n → confined k (if b then m else n).
Proof. by destruct b. Qed.

Lemma wp_stream_read n t (Q : Result IoError (list Z) → Conn * D → Prop) : 0 ≤ n → bytes (input t.1) →
  (∀ x c, bytes x → Zlen x = n → bytes (input c) →
    (length (input c) + Z.to_nat n = length (input t.1))%nat → Q (Ok x) (c, t.2)) →
  (∀ c, input c = [] → Q (Err Disconnected) (c, t.2)) →
  wp (stream (read_exact n)) t Q.
Proof.
  intros Hn Hb Hok Herr. apply wp_zoom. rewrite /wp /read_exact.
  destruct (Z.ltb_spec (Zlen (input t.1)) n) as [|Hl]; simpl; [by apply Herr|].
  rewrite /Zlen in Hl. apply Hok; [by apply bytes_take|rewrite /Zlen length_take; lia|by apply bytes_drop|].
  rewrite length_drop. lia.
Qed.

Lemma field_bound h at_ n : bytes h → 0 ≤ at_ → 0 ≤ n → at_ + n ≤ Zlen h →
  0 ≤ from_be_bytes (slice h at_ n) < 2 ^ (8 * n).
Proof.
  intros Hb ???. pose proof (from_be_bytes_bound (slice h at_ n)) as H'.
  rewrite Zlen_slice in H'; [lia..|]. apply H'. by apply bytes_slice.
Qed.

Context (HP : Kept P).

Lemma execute_kept command flags offset data d : P d → is_u64 offset → Zlen data ≤ MAX_REQUEST →
  (if command =? 1 then bytes data else data = zeros (Zlen data)) →
  valid command flags offset (Zlen data) (dev_size d) = true →
  P (execute command flags offset data d).2.
Proof using All.
  intros Hd Ho Hn Hdata. rewrite /valid /execute. destruct (Z.eqb_spec command 0) as [->|H0]; simpl.
  - intros [_ Ha%aligned_inside]%andb_true_iff. rewrite Hdata. by apply (kept_read _ HP).
  - destruct (Z.eqb_spec command 1) as [->|H1]; simpl.
    + intros [_ Ha%aligned_inside]%andb_true_iff. rewrite /mbind /M_bind.
      pose proof (kept_write _ HP d offset data Hd Ho Hn Hdata Ha) as Hw.
      destruct (dev_write offset data d) as [[[]|] d1]; [|done]. simpl in Hw.
      destruct (negb _); [|done]. pose proof (kept_flush _ HP d1 Hw) as Hf.
      by destruct (dev_flush d1) as [[] d2].
    + intros _. rewrite /mbind /M_bind. pose proof (kept_flush _ HP d Hd) as Hf.
      by destruct (dev_flush d) as [[] d2].
Qed.

(** The reply of a pass. *)
Lemma answer_confined errno h command (result : Result Error (list Z)) : confined 0 (
  stream (write_all (to_be_bytes 4 0x67446698));;
  stream (write_all (to_be_bytes 4 errno));;
  stream (write_all h);;
  match result with
  | Ok buffer => if (command =? 0) then stream (write_all buffer) else mret tt
  | Err _ => mret tt
  end;;
  stream flush;;
  mret true).
Proof using D DISK.
  do 3 (apply (confined_bind 0 0); [by apply confined_stream, frugal_write|intros _]).
  apply (confined_bind 0 0).
  { destruct result; [|apply confined_ret]. apply confined_if; [|apply confined_ret].
    by apply confined_stream, frugal_write. }
  intros _. apply (confined_bind 0 0); [by apply confined_stream, frugal_write|].
  intros _. apply confined_ret.
Qed.

Lemma request_confined : confined 28 request.
Proof using All.
  intros [c0 d] Hb Hd. rewrite /request. apply wp_bind. apply wp_stream_read; [done|done| |].
  2: { intros c Hc. split_and!; try done. rewrite /= Hc. constructor. }
  intros h c Hh Hhl Hc Hlen. cbv zeta. rewrite Z2Nat.inj_pos in Hlen. simpl in Hlen.
  wp_step; [by apply wp_fail; split_and!|].
  wp_step; [by apply wp_fail; split_and!|]. apply Z.ltb_ge in Heqb0.
  wp_step; [apply wp_ret; split_and!; try done; simpl in *; lia|].
  set (cm := u16_at h 6) in *. set (n := u32_at h 24) in *.
  assert (0 ≤ n < 2 ^ 32) as Hn by (apply (field_bound h 24 4); lia || done).
  assert (is_u64 (u64_at h 16)) as Ho.
  { pose proof (field_bound h 16 8 Hh). rewrite /is_u64 /u64_max /u64_at. lia. }
  apply wp_bind.
  assert (wp (if cm =? 1 then stream (read_exact n) else mret (zeros n)) (c, d) (λ r t',
    t'.2 = d ∧ bytes (input t'.1) ∧ (length (input t'.1) ≤ length (input c))%nat ∧
    match r with
    | Ok data => Zlen data = n ∧ if cm =? 1 then bytes data else data = zeros (Zlen data)
    | Err e => e = Disconnected
    end)) as Hread.
  { destruct (cm =? 1).
    - apply wp_stream_read; [lia|done|..]; intros; split_and!; try done; simpl in *; try lia.
      + rewrite H. constructor.
      + rewrite H /=. lia.
    - apply wp_ret. rewrite Zlen_zeros; [lia|]. by split_and!. }
  eapply wp_mono; [exact Hread|]. intros [data|e] [c1 d1] (Hd1 & Hc1 & Hlen1 & Hr); simpl in *; [|by subst].
  subst d1. destruct Hr as [Hl Hdata]. wp_step. apply wp_gets. simpl. apply wp_bind.
  apply (wp_mono _ _ (λ r t', t'.1 = c1 ∧ P t'.2 ∧ is_ok r = true)).
  { wp_step; [|by apply wp_ret]. rewrite /wp /device /=.
    pose proof (execute_kept cm (u16_at h 4) (u64_at h 16) data d) as He. rewrite Hl in He Hdata.
    destruct (execute _ _ _ _ _) as [r d1]. split_and!; [done| |done]. by apply He. }
  intros [r|e] [c2 d2] (Hc2 & Hd2 & Hok); [|done]. simpl in *. subst c2.
  eapply wp_mono; [by apply answer_confined|]. intros [b|e] t (H1 & H2 & H3 & H4); split_and!; try done.
  simpl in *. lia.
Qed.

Lemma serve_loop_confined fuel t : bytes (input t.1) → P t.2 → (length (input t.1) < fuel)%nat →
  wp (serve_loop fuel) t (λ r t', P t'.2 ∧ r ≠ Err OutOfFuel).
Proof using All.
  revert t. induction fuel as [|fuel IH]; intros t Hb Hd Hf; [lia|]. simpl. wp_step.
  eapply wp_mono; [by apply request_confined|]. intros [[]|e] t1 (H1 & H2 & H3 & H4).
  - apply IH; [done|done|lia].
  - by apply wp_ret.
  - split; [done|]. congruence.
Qed.

Lemma serve_confined t : bytes (input t.1) → P t.2 → wp serve t (λ r t', P t'.2 ∧ r ≠ Err OutOfFuel).
Proof using All.
  intros Hb Hd. rewrite /serve. wp_step. apply wp_gets. wp_step.
  eapply wp_mono; [by apply (confined_stream _ (frugal_handshake _))|]. intros [go|e] t1 (H1 & H2 & H3 & H4).
  - wp_step. apply wp_gets. wp_step; [|by apply wp_ret]. apply serve_loop_confined; [done|done|lia].
  - split; [done|]. congruence.
Qed.
End confined.

(** More fuel than bytes changes nothing. *)
Lemma kept_true {D} {DISK : Disk D} : Kept (λ _ : D, True).
Proof. done. Qed.

Lemma serve_loop_fuel {D} {DISK : Disk D} n fuel t : bytes (input t.1) → (length (input t.1) < fuel)%nat →
  serve_loop (fuel + n) t = serve_loop fuel t.
Proof.
  revert t. induction fuel as [|fuel IH]; intros t Hb Hf; [lia|]. simpl. rewrite /mbind /M_bind.
  pose proof (request_confined _ kept_true t Hb I) as Hr. rewrite /wp in Hr.
  destruct (request t) as [[[]|e] t1]; simpl in Hr; try done. destruct Hr as (H1 & _ & _ & H4).
  apply IH; [done|lia].
Qed.

(** ** Theorems *)

Lemma serve_loop_spec {D} {DISK : Disk D} disc qs c d fuel : Forall wf_request qs →
  input c = concat (map encode qs) ++ farewell disc → (5 * length qs ≤ patience c)%nat →
  (length (input c) < fuel)%nat →
  ∃ c', serve_loop fuel (c, d) =
      (if disc then Ok tt else Err Disconnected, (c', (transcript qs d).2)) ∧
    input c' = [] ∧ output c' = output c ++ (transcript qs d).1.
Proof.
  revert c d fuel. induction qs as [|q qs IH]; intros c d [|fuel] Hqs Hi Hp Hf; try lia; simpl in *.
  - exists (mkConn [] (output c) (patience c)). rewrite app_nil_r. split; [|done].
    rewrite /mbind /M_bind /request /mbind /M_bind /stream /zoom /read_exact Hi. by destruct disc.
  - apply Forall_cons in Hqs as [Hq Hqs]. rewrite -app_assoc in Hi.
    destruct (request_spec q c d _ Hq Hi) as (c1 & Hr & Hi1 & Ho1 & Hp1); [lia|].
    rewrite /mbind /M_bind Hr. destruct (perform (op q) d) as [r d1]. simpl in *.
    assert (length (input c1) < length (input c))%nat as Hlt.
    { rewrite Hi Hi1 length_app /encode. destruct (op_fields (op q)) as [[[? ?] ?] ?].
      rewrite !length_app !length_to_be_bytes. lia. }
    destruct (IH c1 d1 fuel Hqs Hi1) as (c2 & Hr2 & Hi2 & Ho2); [lia..|].
    exists c2. destruct (transcript qs d1) as [out d2]. split_and!; try done.
    by rewrite Ho2 Ho1 -app_assoc.
Qed.

(** C30: refinement.  To a client that negotiates either way, sends any
    well-formed requests, keeps reading and then disconnects or hangs up, [serve]
    sends exactly the greeting and the replies of the abstract service, which
    executes the operations one after another, each once and in order, with a
    flush behind a forced-unit-access write before its reply; invalid operations
    and failures of the disk are reported under the request's handle without
    ending the session. *)
Theorem nbd_serves_requests {D} {DISK : Disk D} cl qs disc p d :
  wf_client cl → Forall wf_request qs → (20 + 5 * length qs ≤ p)%nat →
  ∃ c', serve (mkConn (client_hello cl ++ concat (map encode qs) ++ farewell disc) [] p, d)
      = (if disc then Ok tt else Err Disconnected, (c', (transcript qs d).2)) ∧
    input c' = [] ∧ output c' = greeting ++ server_hello cl (dev_size d) ++ (transcript qs d).1.
Proof.
  intros Hcl Hqs Hp. set (c := mkConn _ [] p).
  destruct (handshake_spec c cl (dev_size d) _ Hcl eq_refl) as (c1 & Hh & Hi1 & Ho1 & Hp1); [simpl; lia|].
  destruct (serve_loop_spec disc qs c1 d (S (length (input c1))) Hqs Hi1) as (c2 & Hs & Hi2 & Ho2); [simpl in *; lia..|].
  assert (serve (c, d) = serve_loop (S (length (input c1))) (c1, d)) as ->.
  { cbv beta iota delta [serve mbind M_bind gets stream zoom fst snd]. by rewrite Hh. }
  exists c2. split_and!; [done..|]. by rewrite Ho2 Ho1 !app_assoc.
Qed.

(** C31: confinement.  Whatever bytes the client sends and wherever it stops
    reading, every property of the disk that is kept by reads, writes and flushes
    of non-empty, 512-byte-aligned ranges inside the disk and of at most 32 MiB is
    kept by a whole session. *)
Theorem nbd_confined {D} {DISK : Disk D} (P : D → Prop) (HP : Kept P) c d :
  bytes (input c) → P d → P (serve (c, d)).2.2.
Proof. intros Hb Hd. by apply (serve_confined P HP (c, d)). Qed.

(** C32: termination.  On every input, however malformed, [serve] ends: its loop
    never runs out of the fuel that the length of the input gives it, and more
    fuel would not change the outcome. *)
Theorem nbd_serve_terminates {D} {DISK : Disk D} c d :
  bytes (input c) →
  (serve (c, d)).1 ≠ Err OutOfFuel ∧
  ∀ c1 d1 n, bytes (input c1) →
    serve_loop (S (length (input c1)) + n) (c1, d1) = serve_loop (S (length (input c1))) (c1, d1).
Proof.
  intros Hb. split; [by apply (serve_confined _ kept_true (c, d))|].
  intros c1 d1 n Hb1. by apply serve_loop_fuel; [|simpl; lia].
Qed.

(** ** The format-1 volume behind the transport *)
Section volume.
Context {S : Type} {SHA : Sha256} {OS : ObjectStore S} {JM : Json Vol.Manifest} {SV : StoreView S}.
Context {SHAL : Sha256Laws} {OSL : ObjectStoreLaws S} {JML : JsonLaws Vol.Manifest}.

(** A usable or a retired handle on the volume [id]. *)
Definition sound (id : string) (t : Vol.Volume * S) : Prop :=
  Vol.vol_inv t.2 id t.1 ∧ (Vol.current t.2 id t.1 ∨ Vol.reopen t.1 = true).

Lemma sound_view id v s s' : same_view s s' → sound id (v, s) → sound id (v, s').
Proof.
  intros Hv [Hi Hc]. split; [by eapply Vol.vol_inv_view|]. destruct Hc as [(h & Hh & Hr)|]; [|by right].
  left. exists h. destruct Hv as (_ & Hh' & _). by rewrite Hh'.
Qed.

Lemma sound_flush id t : sound id t → sound id (Vol.commit t).2.
Proof.
  destruct t as [v s]. intros [Hi Hc]. simpl in Hi, Hc. destruct (Vol.reopen v) eqn:Hre.
  { rewrite /Vol.commit /mbind /M_bind /gets /= Hre. by split; [|right]. }
  destruct Hc as [Hc|]; [|congruence].
  pose proof (Vol.commit_spec s id v Hi Hc) as (H1 & _ & H3). split; [done|].
  destruct (Vol.commit (v, s)) as [[g|e] [v' s']]; simpl in *.
  - left. by destruct H3 as (? & _).
  - destruct H3 as (_ & [[Hh ->]|Hr] & _); [left|by right].
    destruct Hc as (h & Hh' & Hr). exists h. by rewrite Hh.
Qed.

Lemma volume_kept id : Kept (sound id).
Proof.
  split.
  - intros [v s] off n Hs [Ho _] Hn Ha. simpl. rewrite /mbind /M_bind /= /on_store /zoom /=.
    pose proof (Vol.read_spec s id v off (zeros n) (proj1 Hs) Ho) as [Hv _].
    destruct (Vol.read v off (zeros n) s) as [r s']. by eapply sound_view.
  - intros [v s] off data [Hi Hc] [Ho _] Hn Hb Ha. simpl.
    pose proof (Vol.write_spec s id v off data Hi Ho) as [Hv Hw].
    destruct (Vol.write off data (v, s)) as [[[]|e] [v' s']]; simpl in *.
    + destruct Hw as (Hok & Hi' & Hm & Hr & _). apply Vol.check_range_ok in Hok as (Hre' & _). split; [done|].
      destruct Hc as [(h & Hh & Hrest)|Hre].
      * left. exists h. destruct Hv as (_ & Hh' & _). by rewrite Hh' Hr Hm.
      * congruence.
    + subst v'. by eapply sound_view.
  - intros t Hs. pose proof (sound_flush id t Hs) as H. simpl. rewrite /mbind /M_bind.
    by destruct (Vol.commit t) as [[] ?].
Qed.
End volume.

(** ** A session with a disk of two sectors in memory *)
Module Example.
#[local] Instance ram : Disk (list Z) := {
  dev_size := Zlen;
  dev_read off data := λ d, (Ok (slice d off (Zlen data)), d);
  dev_write off data := λ d, (Ok tt, splice d off data);
  dev_flush := λ d, (Ok tt, d);
}.

Definition sevens : list Z := replicate 512 7.
Definition session : list Request :=
  [mkRequest [0;0;0;0;0;0;0;1] (Write 1 512 sevens);
   mkRequest [0;0;0;0;0;0;0;2] (Read 0 512 512);
   mkRequest [0;0;0;0;0;0;0;3] (Read 0 512 1024);
   mkRequest [0;0;0;0;0;0;0;4] (Flush 0 0 0)].

(** The write is acknowledged, read back, the range past the end refused. *)
Example session_replies : (transcript session (zeros 1024)).1 =
  to_be_bytes 4 0x67446698 ++ to_be_bytes 4 0 ++ [0;0;0;0;0;0;0;1] ++
  to_be_bytes 4 0x67446698 ++ to_be_bytes 4 0 ++ [0;0;0;0;0;0;0;2] ++ sevens ++
  to_be_bytes 4 0x67446698 ++ to_be_bytes 4 22 ++ [0;0;0;0;0;0;0;3] ++
  to_be_bytes 4 0x67446698 ++ to_be_bytes 4 0 ++ [0;0;0;0;0;0;0;4].
Proof. vm_compute. reflexivity. Qed.

Lemma session_wf : Forall wf_request session.
Proof.
  repeat apply Forall_cons_2; [..|apply Forall_nil_2];
    repeat split; done || (vm_compute; congruence).
Qed.

Lemma nbd_serves_requests_witness :
  ∃ c', serve (mkConn (client_hello (Go [3]) ++ concat (map encode session) ++ farewell true) [] 99, zeros 1024)
      = (Ok tt, (c', (transcript session (zeros 1024)).2)) ∧
    input c' = [] ∧
    output c' = greeting ++ server_hello (Go [3]) (dev_size (zeros 1024)) ++ (transcript session (zeros 1024)).1.
Proof.
  apply (nbd_serves_requests (Go [3]) session true 99 (zeros 1024));
    [vm_compute; congruence|apply session_wf|simpl; lia].
Defined.

Import Memory.
#[local] Instance toy : Sha256 := ToySha.toy.
#[local] Instance toy_laws : Sha256Laws := ToySha.toy_laws.
#[local] Existing Instance Vol.Manifest_eq_dec.
#[local] Existing Instance Vol.Manifest_countable.
#[local] Instance json : Json Vol.Manifest := BitJson.bit_json Vol.Manifest.
#[local] Instance json_laws : JsonLaws Vol.Manifest := BitJson.bit_json_laws Vol.Manifest.

(** A client that writes a sector and is cut off in the middle of a header. *)
Definition broken : Conn :=
  mkConn (client_hello (Go []) ++ encode (mkRequest [0;0;0;0;0;0;0;1] (Write 1 512 sevens)) ++ [37; 96]) [] 50.

Lemma broken_bytes : bytes (input broken).
Proof. apply (bool_decide_unpack (Forall (λ b, 0 ≤ b < 256) (input broken))). by vm_compute. Qed.

Lemma nbd_confined_witness :
  sound "v" (serve (broken, (Vol.Example.v1, Vol.Example.s0))).2.2.
Proof.
  apply (nbd_confined (sound "v") (volume_kept "v") broken (Vol.Example.v1, Vol.Example.s0) broken_bytes).
  split; [apply Vol.Example.v1_inv|left; apply Vol.Example.v1_current].
Defined.

Lemma nbd_serve_terminates_witness :
  (serve (broken, zeros 1024)).1 ≠ Err OutOfFuel ∧
  ∀ c1 (d1 : list Z) n, bytes (input c1) →
    serve_loop (S (length (input c1)) + n) (c1, d1) = serve_loop (S (length (input c1))) (c1, d1).
Proof. apply (nbd_serve_terminates broken (zeros 1024) broken_bytes). Defined.
End Example.
End Nbd.
