(* ===== verification/Files.v ===== *)
(** The files of a journal directory, as [ahvm-volume/src/local.rs] uses them
    through [std::fs]: one directory of regular files, what each call does to
    them, that any call may fail, and what a crash of the host leaves behind.
    A crash keeps of every file at least what its last successful [sync_all]
    covered, and of the bytes appended since then some prefix; it may bring back
    a directory from before the last successful sync of the directory. *)
From S2P Require Import Prelude Codec.

Module Files.

(** A file: its contents, the contents a crash cannot take away, and whether it
    is a regular file without group and other permissions. *)
Record Inode := mkInode { data : list Z; synced : list Z; private : bool }.

(** [plan] fixes the outcome of the calls to come, in order: [None] is success,
    [Some k] an I/O error, in a write after [k] bytes; an exhausted plan is a file
    system without faults. *)
Record Fs := mkFs {
  inodes : gmap nat Inode;
  dir : gmap string nat;
  past : list (gmap string nat);
  locked : bool;
  dir_private : bool;
  plan : list (option nat);
}.

Definition set_inodes (m : gmap nat Inode) (fs : Fs) : Fs :=
  mkFs m (dir fs) (past fs) (locked fs) (dir_private fs) (plan fs).
Definition set_plan (p : list (option nat)) (fs : Fs) : Fs :=
  mkFs (inodes fs) (dir fs) (past fs) (locked fs) (dir_private fs) p.
(** A change of the directory, not durable yet. *)
Definition set_dir (d : gmap string nat) (fs : Fs) : Fs :=
  mkFs (inodes fs) d (dir fs :: past fs) (locked fs) (dir_private fs) (plan fs).

(** The outcome of the next call. *)
Definition outcome : M Error Fs (option nat) := λ fs,
  match plan fs with
  | [] => (Ok None, fs)
  | o :: p => (Ok o, set_plan p fs)
  end.
(** [io(call)]: a call with no other effect. *)
Definition sys : M Error Fs unit :=
  o ← outcome; match o with None => mret tt | Some _ => fail Store end.

Definition lookup_file (name : string) (fs : Fs) : option Inode :=
  i ← dir fs !! name; inodes fs !! i.

(** [secure(path)] *)
Definition secure (name : string) : M Error Fs unit :=
  sys;;
  f ← gets (lookup_file name);
  match f with
  | Some n => guard_err (private n) InvalidInput
  | None => mret tt
  end.

(** [path.exists()]: a failing [stat] reads as absence. *)
Definition exists_ (name : string) : M Error Fs bool :=
  o ← outcome;
  match o with
  | None => gets (λ fs, bool_decide (is_Some (dir fs !! name)))
  | Some _ => mret false
  end.

Definition fresh_inode (fs : Fs) : nat := fresh (dom (inodes fs)).
Definition make (name : string) : M Error Fs nat := λ fs,
  let i := fresh_inode fs in
  (Ok i, set_dir (<[name := i]> (dir fs)) (set_inodes (<[i := mkInode [] [] true]> (inodes fs)) fs)).

(** [OpenOptions::new().read(true).write(true).create(true).truncate(false).mode(0o600)] *)
Definition open_or_create (name : string) : M Error Fs nat :=
  sys;;
  i ← gets (λ fs, dir fs !! name);
  match i with Some i => mret i | None => make name end.
(** [.create_new(true).mode(0o600)] *)
Definition create_new (name : string) : M Error Fs nat :=
  sys;;
  i ← gets (λ fs, dir fs !! name);
  match i with Some _ => fail Store | None => make name end.
Definition remove_file (name : string) : M Error Fs unit :=
  sys;; modify (λ fs, set_dir (delete name (dir fs)) fs).
Definition rename (a b : string) : M Error Fs unit :=
  sys;;
  i ← gets (λ fs, dir fs !! a);
  match i with
  | Some i => modify (λ fs, set_dir (<[b := i]> (delete a (dir fs))) fs)
  | None => fail Store
  end.
(** [.create(true).truncate(true).mode(0o600)] *)
Definition truncated (o : option Inode) : option Inode :=
  Some (match o with Some n => mkInode [] (synced n) (private n) | None => mkInode [] [] true end).
Definition open_truncate (name : string) : M Error Fs nat :=
  sys;;
  i ← gets (λ fs, dir fs !! name);
  match i with
  | Some i => modify (λ fs, set_inodes (partial_alter truncated i (inodes fs)) fs);; mret i
  | None => make name
  end.
(** [File::open(directory)?.sync_all()] *)
Definition sync_dir : M Error Fs unit :=
  sys;; sys;; modify (λ fs, mkFs (inodes fs) (dir fs) [] (locked fs) (dir_private fs) (plan fs)).
(** [lock.try_lock().map_err(|_| Error::Conflict)] *)
Definition try_lock : M Error Fs unit :=
  o ← outcome;
  held ← gets locked;
  guard_err (bool_decide (o = None) && negb held) Conflict;;
  modify (λ fs, mkFs (inodes fs) (dir fs) (past fs) true (dir_private fs) (plan fs)).

Definition alter_inode (f : Inode → Inode) (i : nat) (fs : Fs) : Fs := set_inodes (alter f i (inodes fs)) fs.
Definition append (b : list Z) (n : Inode) : Inode := mkInode (data n ++ b) (synced n) (private n).

(** [file.write_all(b)] at the end of the file. *)
Definition write_all (i : nat) (b : list Z) : M Error Fs unit :=
  o ← outcome;
  match o with
  | None => modify (alter_inode (append b) i)
  | Some k => modify (alter_inode (append (take k b)) i);; fail Store
  end.
(** [file.write_all(b)] at position [pos], over what is there. *)
Definition overwrite (pos : Z) (b : list Z) (n : Inode) : Inode :=
  mkInode (take (Z.to_nat pos) (data n) ++ b ++ drop (Z.to_nat pos + length b) (data n)) (synced n) (private n).
Definition write_at (i : nat) (pos : Z) (b : list Z) : M Error Fs unit :=
  o ← outcome;
  match o with
  | None => modify (alter_inode (overwrite pos b) i)
  | Some k => modify (alter_inode (overwrite pos (take k b)) i);; fail Store
  end.
(** [file.sync_all()] *)
Definition sync_all (i : nat) : M Error Fs unit :=
  sys;; modify (alter_inode (λ n, mkInode (data n) (data n) (private n)) i).
(** [file.set_len(n)], to a smaller size. *)
Definition set_len (i : nat) (len : Z) : M Error Fs unit :=
  sys;; modify (alter_inode (λ n, mkInode (take (Z.to_nat len) (data n)) (synced n) (private n)) i).
(** The bytes of the file, as [metadata] and the reads find them. *)
Definition contents (i : nat) (fs : Fs) : list Z := default [] (data <$> inodes fs !! i).
Definition file_len (i : nat) : M Error Fs Z := sys;; gets (λ fs, Zlen (contents i fs)).
(** [file.read_exact(buf)] at position [at_]. *)
Definition read_exact (i : nat) (at_ n : Z) : M Error Fs (list Z) :=
  sys;;
  b ← gets (contents i);
  if Zlen b <? at_ + n then fail Store else mret (slice b at_ n).

(** ** Crashes *)

(** What may be left of a file: of a file that was extended or cut back since its
    last sync something in between, of one that was overwritten anything. *)
Definition settled (n n' : Inode) : Prop :=
  private n' = private n ∧ synced n' = data n' ∧
  (synced n `prefix_of` data n' ∧ data n' `prefix_of` data n ∨
   data n `prefix_of` data n' ∧ data n' `prefix_of` synced n ∨
   ¬ synced n `prefix_of` data n ∧ ¬ data n `prefix_of` synced n).

Definition crashed (fs fs' : Fs) : Prop :=
  (dir fs' = dir fs ∨ dir fs' ∈ past fs) ∧ past fs' = [] ∧ locked fs' = false ∧
  dir_private fs' = dir_private fs ∧
  ∀ i, match inodes fs !! i, inodes fs' !! i with
       | Some n, Some n' => settled n n'
       | None, None => True
       | _, _ => False
       end.

(** ** Rules of the calls *)
Lemma wp_sys fs (Q : Result Error unit → Fs → Prop) :
  (∀ p, Q (Ok tt) (set_plan p fs)) → (∀ p, Q (Err Store) (set_plan p fs)) → wp sys fs Q.
Proof.
  intros H1 H2. rewrite /wp /sys /mbind /M_bind /outcome. destruct fs as [a b c d e pl]. simpl.
  destruct pl as [|[k|] p]; [apply (H1 [])|apply (H2 p)|apply (H1 p)].
Qed.

Lemma wp_outcome fs (Q : Result Error (option nat) → Fs → Prop) :
  (∀ o p, Q (Ok o) (set_plan p fs)) → wp outcome fs Q.
Proof. intros H. destruct fs as [a b c d e pl]. rewrite /wp /outcome /=. destruct pl as [|o p]; [apply (H None [])|apply (H o p)]. Qed.

(** Calls that use up [k] outcomes when they succeed. *)
Definition uses (k : nat) {A} (m : M Error Fs A) (fs : Fs) : Prop :=
  wp m fs (λ r fs', match r with Ok _ => plan fs' = drop k (plan fs) | Err _ => True end).

Lemma uses_sys fs : uses 1 sys fs.
Proof. rewrite /uses /wp /sys /mbind /M_bind /outcome. destruct fs as [a b c d e [|[k|] p]]; done. Qed.
Lemma uses_secure name fs : uses 1 (secure name) fs.
Proof.
  rewrite /uses /secure. wp_step. eapply wp_mono; [apply uses_sys|]. intros [[]|e] fs1 E; [|done].
  wp_step. apply wp_gets. by repeat wp_step.
Qed.
Lemma uses_open name fs : uses 1 (open_or_create name) fs.
Proof.
  rewrite /uses /open_or_create. wp_step. eapply wp_mono; [apply uses_sys|]. intros [[]|e] fs1 E; [|done].
  wp_step. apply wp_gets. by destruct (dir fs1 !! name); [apply wp_ret|].
Qed.
Lemma uses_lock fs : uses 1 try_lock fs.
Proof.
  rewrite /uses /try_lock /wp /mbind /M_bind /outcome. destruct fs as [a b c d e pl]. cbn. destruct pl as [|[k|] p]; by destruct d.
Qed.

(** [path.exists()] where the next call does not fail. *)
Lemma wp_seen name fs (Q : Result Error bool → Fs → Prop) : dir fs !! name = None ∨ (∀ k, plan fs !! 0%nat ≠ Some (Some k)) →
  (∀ p, Q (Ok (bool_decide (is_Some (dir fs !! name)))) (set_plan p fs)) → wp (exists_ name) fs Q.
Proof.
  intros Hs HQ. destruct fs as [a b c d e pl]. rewrite /wp /exists_ /mbind /M_bind /outcome. cbn in *.
  destruct pl as [|[k|] p]; [apply (HQ [])| |apply (HQ p)]. destruct Hs as [Hn|Hs]; [|by destruct (Hs k)].
  specialize (HQ p). rewrite Hn in HQ |- *. by rewrite bool_decide_false in HQ; [intros []|].
Qed.

Lemma wp_exists name fs (Q : Result Error bool → Fs → Prop) :
  (∀ p, Q (Ok (bool_decide (is_Some (dir fs !! name)))) (set_plan p fs)) → (∀ p, Q (Ok false) (set_plan p fs)) → wp (exists_ name) fs Q.
Proof.
  intros H1 H2. rewrite /exists_. wp_step. apply wp_outcome. intros [k|] p; [by apply wp_ret|]. apply wp_gets, H1.
Qed.

(** Only the file [i] has changed. *)
Definition writes (i : nat) (fs fs' : Fs) : Prop :=
  dir fs' = dir fs ∧ past fs' = past fs ∧ locked fs' = locked fs ∧ dir_private fs' = dir_private fs ∧
  ∀ j, j ≠ i → inodes fs' !! j = inodes fs !! j.

#[export] Instance writes_preorder i : PreOrder (writes i).
Proof.
  split; [done|]. intros a b c (?&?&?&?&HA) (?&?&?&?&HB). split_and!; try congruence.
  intros j Hj. rewrite HB // HA //.
Qed.

Lemma writes_plan i p fs : writes i fs (set_plan p fs).
Proof. done. Qed.

Lemma writes_alter i f fs : writes i fs (alter_inode f i fs).
Proof. split_and!; try done. intros j Hj. by rewrite /= lookup_alter_ne. Qed.

Lemma alter_inode_lookup f i fs n : inodes fs !! i = Some n → inodes (alter_inode f i fs) !! i = Some (f n).
Proof. intros H. by rewrite /= lookup_alter_eq H. Qed.

Lemma write_all_spec i b fs n : inodes fs !! i = Some n → wp (write_all i b) fs (λ r fs', writes i fs fs' ∧
  match r with
  | Ok _ => inodes fs' !! i = Some (append b n)
  | Err e => e = Store ∧ ∃ x, x `prefix_of` b ∧ inodes fs' !! i = Some (append x n)
  end).
Proof.
  intros Hn. rewrite /write_all. wp_step. apply wp_outcome. intros o p. destruct o as [k|].
  - wp_step. apply wp_modify, wp_fail. split; [exact (writes_alter _ _ (set_plan p fs))|]. split; [done|]. exists (take k b).
    split; [apply prefix_take|]. by apply (alter_inode_lookup _ i (set_plan p fs)).
  - apply wp_modify. split; [exact (writes_alter _ _ (set_plan p fs))|]. by apply (alter_inode_lookup _ i (set_plan p fs)).
Qed.

(** At the end of the file a write appends. *)
Lemma overwrite_end b n : overwrite (Zlen (data n)) b n = append b n.
Proof. rewrite /overwrite /append /Zlen Nat2Z.id take_ge // drop_ge ?app_nil_r //. lia. Qed.

Lemma write_at_spec i pos b fs n : inodes fs !! i = Some n → Zlen (data n) = pos → wp (write_at i pos b) fs (λ r fs', writes i fs fs' ∧
  match r with
  | Ok _ => inodes fs' !! i = Some (append b n)
  | Err e => e = Store ∧ ∃ x, x `prefix_of` b ∧ inodes fs' !! i = Some (append x n)
  end).
Proof.
  intros Hn <-. rewrite /write_at. wp_step. apply wp_outcome. intros [k|] p.
  - wp_step. apply wp_modify, wp_fail. split; [exact (writes_alter _ _ (set_plan p fs))|]. split; [done|]. exists (take k b).
    split; [apply prefix_take|]. rewrite -overwrite_end. by apply (alter_inode_lookup _ i (set_plan p fs)).
  - apply wp_modify. split; [exact (writes_alter _ _ (set_plan p fs))|]. rewrite -overwrite_end. by apply (alter_inode_lookup _ i (set_plan p fs)).
Qed.

Lemma sync_all_spec i fs n : inodes fs !! i = Some n → wp (sync_all i) fs (λ r fs', writes i fs fs' ∧
  match r with
  | Ok _ => inodes fs' !! i = Some (mkInode (data n) (data n) (private n))
  | Err e => e = Store ∧ inodes fs' !! i = Some n
  end).
Proof.
  intros Hn. rewrite /sync_all. wp_step. apply wp_sys; intros p; [|done]. apply wp_modify. split; [exact (writes_alter _ _ (set_plan p fs))|].
  exact (alter_inode_lookup _ i (set_plan p fs) n Hn).
Qed.

Lemma fresh_inode_None fs : inodes fs !! fresh_inode fs = None.
Proof. apply (not_elem_of_dom (D:=gset nat)). rewrite /fresh_inode. apply (is_fresh (dom (inodes fs) : gset nat)). Qed.
End Files.
