(* ===== verification/Local.v ===== *)
(** The local-durable disk of [ahvm-volume/src/local.rs]: a journal of blocks on
    the host that a guest flush makes durable, and its asynchronous replication
    to the remote volume.  The remote volume is used through the [Remote]
    interface, which [IndexedVolume] implements; the journal directory is the
    file system of [Files].  [replicate] is given in the pieces between which it
    gives up the lock. *)
From S2P Require Import Prelude Codec ObjectStore Blocks Files.
From Stdlib Require Ascii String.

Module Local.
Import Files.

Definition MAGIC : list Z := [65; 72; 86; 77; 87; 76; 48; 49].
Definition RECORD : Z := 16 + CHUNK_BYTES + 64.
Definition LOG_LIMIT : Z := 256 * 1024 * 1024.
(** [indexed::DIRTY_LIMIT], [indexed::WRITE_LIMIT] *)
Definition DIRTY_LIMIT : Z := 64 * 1024 * 1024.
Definition WRITE_LIMIT : Z := 32 * 1024 * 1024.

Record Replication := mkReplication { rep_id : string; rep_sequence : Z }.

(** What [LocalDisk] calls on an [IndexedVolume] handle [V] over a store [S]. *)
Class Remote (V S : Type) := {
  r_open : string → M Error S V;
  r_size : V → Z;
  r_revision : V → string;
  r_replication : V → option Replication;
  r_copy : V → Result Error V;
  r_read : V → Z → list Z → M Error S (list Z);
  r_write : Z → list Z → M Error (V * S) unit;
  r_commit : Replication → M Error (V * S) Z;
  r_compact : option CompactionCursor → Z → (S → bool * S) → M Error (V * S) Compaction;
}.

Record Header := mkHeader {
  h_volume : string;
  h_id : string;
  h_base : string;
  acknowledged : Z;
  h_sequence : Z;
}.
Record Pending := mkPending { p_sequence : Z; p_bytes : list Z }.

Record State {V : Type} := mkState {
  hdr : Header;
  file : nat;
  reader : V;
  pending : gmap Z Pending;
  sequence : Z;
  local_sequence : Z;
  failed : bool;
  replication_failed : bool;
}.
Arguments State : clear implicits.
Arguments mkState {V}.

Record Status := mkStatus {
  local_failed : bool;
  status_sequence : Z;
  remote_sequence : Z;
  pending_bytes : Z;
  status_replication_failed : bool;
}.

Definition as_bytes (s : string) : list Z := ascii_val <$> String.list_ascii_of_string s.
Definition is_ascii_hexdigit (c : Ascii.ascii) : bool :=
  let z := ascii_val c in
  (48 <=? z) && (z <=? 57) || (97 <=? z) && (z <=? 102) || (65 <=? z) && (z <=? 70).

(** *** Writing the journal *)
Section journal.
Context {SHA : Sha256} {JH : Json Header}.

(** The file is open at its start: a new file, or one that was taken for new. *)
Definition header (i : nat) (h : Header) : M Error Fs unit :=
  b ← ok_or (to_vec h) Corrupt;
  guard_err (Zlen b <=? 4096) Corrupt;;
  write_at i 0 MAGIC;;
  write_at i 8 (to_be_bytes 4 (Zlen b));;
  write_at i 12 b;;
  write_at i (12 + Zlen b) (as_bytes (digest b)).

(** The bytes of a record. *)
Definition record_body (index : Z) (p : Pending) : list Z :=
  to_be_bytes 8 (p_sequence p) ++ to_be_bytes 8 index ++ p_bytes p.
Definition record_bytes (index : Z) (p : Pending) : list Z :=
  record_body index p ++ as_bytes (digest (record_body index p)).
Definition record (i : nat) (index : Z) (p : Pending) : M Error Fs unit := write_all i (record_bytes index p).

(** [entries.sort_by_key(|(index, p)| (p.sequence, **index))] *)
Definition by_sequence (x y : Z * Pending) : Prop :=
  p_sequence x.2 < p_sequence y.2 ∨ p_sequence x.2 = p_sequence y.2 ∧ x.1 ≤ y.1.
#[export] Instance by_sequence_dec x y : Decision (by_sequence x y).
Proof. rewrite /by_sequence. apply _. Defined.

(** *** The state under the lock *)
Section state.
Context {V : Type}.

Definition status (s : State V) : Status :=
  mkStatus (failed s) (local_sequence s) (acknowledged (hdr s))
    (Z.of_nat (base.size (pending s)) * CHUNK_BYTES) (replication_failed s).

Definition set_failed (s : State V) : State V :=
  mkState (hdr s) (file s) (reader s) (pending s) (sequence s) (local_sequence s) true (replication_failed s).
Definition set_hdr (h : Header) (s : State V) : State V :=
  mkState h (file s) (reader s) (pending s) (sequence s) (local_sequence s) (failed s) (replication_failed s).
Definition set_file (i : nat) (s : State V) : State V :=
  mkState (hdr s) i (reader s) (pending s) (sequence s) (sequence s) (failed s) (replication_failed s).
Definition set_synced (s : State V) : State V :=
  mkState (hdr s) (file s) (reader s) (pending s) (sequence s) (sequence s) (failed s) (replication_failed s).
Definition set_pending (q : Z) (m : gmap Z Pending) (s : State V) : State V :=
  mkState (hdr s) (file s) (reader s) m q (local_sequence s) (failed s) (replication_failed s).
Definition set_replication_failed (b : bool) (s : State V) : State V :=
  mkState (hdr s) (file s) (reader s) (pending s) (sequence s) (local_sequence s) (failed s) b.

Definition on_fs {A} (m : M Error Fs A) : M Error (State V * Fs) A := zoom snd (λ f t, (t.1, f)) m.
Definition on_state (f : State V → State V) : M Error (State V * Fs) unit := modify (λ t, (f t.1, t.2)).

Definition compact_inner : M Error (State V * Fs) unit :=
  on_fs (secure "journal.new");;
  e ← on_fs (exists_ "journal.new");
  (if (e : bool) then on_fs (remove_file "journal.new") else mret tt);;
  out ← on_fs (create_new "journal.new");
  on_state (λ s, set_hdr (mkHeader (h_volume (hdr s)) (h_id (hdr s)) (h_base (hdr s)) (acknowledged (hdr s)) (sequence s)) s);;
  s ← gets fst;
  on_fs (header out (hdr s));;
  on_fs (for_each (merge_sort by_sequence (entries (pending s))) (λ e, record out e.1 e.2));;
  on_fs (sync_all out);;
  on_fs (rename "journal.new" "journal");;
  on_fs sync_dir;;
  on_state (set_file out).

Definition compact : M Error (State V * Fs) unit :=
  r ← try_ compact_inner;
  match r with
  | Ok _ => mret tt
  | Err e => on_state set_failed;; fail e
  end.

(** A failing [sync_all] of the journal retires the disk. *)
Definition sync_journal : M Error (State V * Fs) unit :=
  s ← gets fst;
  r ← try_ (on_fs (sync_all (file s)));
  match r with
  | Ok _ => on_state set_synced
  | Err e => on_state set_failed;; fail e
  end.
End state.

Section disk.
Context {V S : Type} {R : Remote V S}.

Definition check (s : State V) (at_ len : Z) : Result Error unit :=
  if failed s then Err ReopenRequired
  else if (WRITE_LIMIT <? len) || match u64_checked_add at_ len with
                                  | Some end_ => r_size (reader s) <? end_
                                  | None => true
                                  end
  then Err InvalidInput else Ok tt.

Definition accept (remote : V) (s : State V) : Result Error (State V) :=
  let h := hdr s in
  let ack :=
    if bool_decide (r_revision remote = h_base h) then Some (acknowledged h)
    else match r_replication remote with
         | Some r =>
             if bool_decide (rep_id r = h_id h) && (acknowledged h <=? rep_sequence r) && (rep_sequence r <=? sequence s)
             then Some (rep_sequence r) else None
         | None => None
         end in
  match ack with
  | None => Err Conflict
  | Some ack =>
      Ok (mkState (mkHeader (h_volume h) (h_id h) (r_revision remote) ack (h_sequence h)) (file s) remote
            (filter (λ e, ack < p_sequence e.2) (pending s)) (sequence s) (local_sequence s)
            (failed s) (replication_failed s))
  end.

(** *** Opening *)

(** The replay state: position, sequence, last sequence, pending blocks. *)
Definition replay_one (replay_ack size : Z) (b : list Z) (seq last : Z) (m : gmap Z Pending)
    : Result Error (Z * Z * gmap Z Pending) :=
  if negb (bool_decide (as_bytes (digest (take (Z.to_nat (RECORD - 64)) b)) = drop (Z.to_nat (RECORD - 64)) b)) then Err Corrupt
  else
    let q := from_be_bytes (slice b 0 8) in
    let index := from_be_bytes (slice b 8 8) in
    if (q =? 0) || (q <? last) || (size / CHUNK_BYTES <=? index) then Err Corrupt
    else
      let m := if replay_ack <? q then <[index := mkPending q (slice b 16 CHUNK_BYTES)]> m else m in
      if DIRTY_LIMIT <? Z.of_nat (base.size m) * CHUNK_BYTES then Err Corrupt
      else Ok (Z.max seq q, q, m).

Fixpoint replay (fuel : nat) (i : nat) (replay_ack size : Z) (at_ seq last : Z) (m : gmap Z Pending)
    : M Error Fs (Z * gmap Z Pending) :=
  match fuel with
  | O => mret (seq, m)
  | Datatypes.S fuel =>
      len ← file_len i;
      let left := len - at_ in
      if left =? 0 then mret (seq, m)
      else if left <? RECORD then set_len i at_;; mret (seq, m)
      else
        b ← read_exact i at_ RECORD;
        '(seq, last, m) ← of_result (replay_one replay_ack size b seq last m);
        replay fuel i replay_ack size (at_ + RECORD) seq last m
  end.

Definition header_ok (id : string) (h : Header) : bool :=
  bool_decide (h_volume h = id) && (String.length (h_id h) =? 64)%nat && string_all is_ascii_hexdigit (h_id h)
  && (acknowledged h <=? h_sequence h).

Definition read_header (i : nat) (id : string) : M Error Fs (Header * Z) :=
  start ← read_exact i 0 12;
  let len := from_be_bytes (drop 8 start) in
  guard_err (bool_decide (take 8 start = MAGIC) && (len <=? 4096)) Corrupt;;
  b ← read_exact i 12 len;
  checksum ← read_exact i (12 + len) 64;
  guard_err (bool_decide (as_bytes (digest b) = checksum)) Corrupt;;
  h ← ok_or (from_slice b) Corrupt;
  guard_err (header_ok id h) Corrupt;;
  mret (h, 12 + len + 64).

Definition replay_from (h : Header) (remote : V) : Z :=
  match r_replication remote with
  | Some r => if bool_decide (rep_id r = h_id h) then Z.max (rep_sequence r) (acknowledged h) else acknowledged h
  | None => acknowledged h
  end.

(** An existing journal: its header, sequence and pending blocks. *)
Definition load_journal (i : nat) (id : string) (remote : V) : M Error Fs (Header * Z * gmap Z Pending) :=
  '(h, at_) ← read_header i id;
  fuel ← gets (λ fs, Datatypes.S (Z.to_nat (Zlen (contents i fs) / RECORD)));
  '(seq, m) ← replay fuel i (replay_from h remote) (r_size remote) at_ (h_sequence h) (acknowledged h) ∅;
  mret (h, seq, m).

(** A new journal, its identity drawn from [random]. *)
Definition new_journal (i : nat) (id : string) (random : list Z) (remote : V) : M Error Fs (Header * Z * gmap Z Pending) :=
  sys;; sys;;
  let h := mkHeader id (digest random) (r_revision remote) 0 0 in
  header i h;;
  sync_all i;;
  sync_dir;;
  mret (h, 0, ∅).

Definition on_files {A} (m : M Error Fs A) : M Error (Fs * S) A := zoom fst (λ f t, (f, t.2)) m.

(** [s.compact()?; Ok(..)] *)
Definition first_compact (s : State V) : M Error (Fs * S) (State V) := λ t,
  let '(r, (s', fs')) := compact (s, t.1) in
  (match r with Ok _ => Ok s' | Err e => Err e end, (fs', t.2)).

Definition open_locked (id : string) (random : list Z) : M Error (Fs * S) (State V) :=
  remote ← on_store (r_open id);
  on_files (secure "journal");;
  exists' ← on_files (exists_ "journal");
  i ← on_files (open_or_create "journal");
  len ← on_files (file_len i);
  guard_err (len <=? LOG_LIMIT) Corrupt;;
  '(h, seq, m) ← on_files (if (exists' : bool) then load_journal i id remote else new_journal i id random remote);
  copy ← of_result (r_copy remote);
  s ← of_result (accept remote (mkState h i copy m seq seq false false));
  first_compact s.

(** The lock is given back when opening fails. *)
Definition unlock (fs : Fs) : Fs := mkFs (inodes fs) (dir fs) (past fs) false (dir_private fs) (plan fs).
Definition open (id : string) (random : list Z) : M Error (Fs * S) (State V) :=
  on_files sys;;
  ok ← gets (λ t, dir_private t.1);
  guard_err ok InvalidInput;;
  on_files (secure "lock");;
  on_files (open_or_create "lock");;
  on_files try_lock;;
  r ← try_ (open_locked id random);
  match r with
  | Ok s => mret s
  | Err e => on_files (modify unlock);; fail e
  end.

(** *** [impl Disk for LocalDisk] *)
Definition on_disk {A} (m : M Error (State V * Fs) A) : M Error (State V * Fs * S) A := zoom fst (λ d t, (d, t.2)) m.

Fixpoint read_loop (s : State V) (fuel : nat) (at_ len done : Z) (out : list Z) : M Error S (list Z) :=
  match fuel with
  | O => mret out
  | Datatypes.S fuel =>
      if done <? len then
        let pos := at_ + done in
        let within := pos mod CHUNK_BYTES in
        let n := Z.min (CHUNK_BYTES - within) (len - done) in
        b ← match pending s !! (pos / CHUNK_BYTES) with
            | Some p => mret (slice (p_bytes p) within n)
            | None => r_read (reader s) pos (slice out done n)
            end;
        read_loop s fuel at_ len (done + n) (splice out done b)
      else mret out
  end.

Definition read (at_ : Z) (out : list Z) : M Error (State V * Fs * S) (list Z) :=
  s ← gets (λ t, t.1.1);
  of_result (check s at_ (Zlen out));;
  on_store (read_loop s (fuel_for (Zlen out)) at_ (Zlen out) 0 out).

Definition extra_blocks (s : State V) (at_ len : Z) : Z :=
  let first := at_ / CHUNK_BYTES in
  let last := (at_ + len - 1) / CHUNK_BYTES in
  Zlen (filter (λ i, pending s !! i = None) (seqZ first (last - first + 1))).

(** The block that the new bytes are copied into. *)
Definition fetch (s : State V) (index within n : Z) : M Error S (list Z) :=
  if negb (within =? 0) || negb (n =? CHUNK_BYTES) then
    match pending s !! index with
    | Some p => mret (p_bytes p)
    | None => r_read (reader s) (index * CHUNK_BYTES) (zeros CHUNK_BYTES)
    end
  else mret (zeros CHUNK_BYTES).

(** The closure that appends the staged blocks. *)
Definition log_blocks (staged : gmap Z Pending) : M Error (State V * Fs) unit :=
  s ← gets fst;
  len ← on_fs (file_len (file s));
  (if LOG_LIMIT <? len + Z.of_nat (base.size staged) * RECORD then compact else mret tt);;
  s ← gets fst;
  on_fs (for_each (entries staged) (λ e, record (file s) e.1 e.2)).

Definition write (at_ : Z) (input : list Z) : M Error (State V * Fs * S) unit :=
  s ← gets (λ t, t.1.1);
  of_result (check s at_ (Zlen input));;
  if bool_decide (input = []) then mret tt
  else if DIRTY_LIMIT <? (Z.of_nat (base.size (pending s)) + extra_blocks s at_ (Zlen input)) * CHUNK_BYTES then fail Backpressure
  else
    q ← ok_or (u64_checked_add (sequence s) 1) Corrupt;
    blocks ← on_store (write_loop (fetch s) (fuel_for (Zlen input)) at_ input 0 ∅);
    let staged := mkPending q <$> blocks in
    r ← try_ (on_disk (log_blocks staged));
    match r with
    | Err e => on_disk (on_state set_failed);; fail e
    | Ok _ => on_disk (on_state (λ s, set_pending q (staged ∪ pending s) s))
    end.

Definition flush : M Error (State V * Fs * S) unit :=
  s ← gets (λ t, t.1.1);
  of_result (check s 0 0);;
  on_disk sync_journal.

(** *** [replicate], between the points where it gives up the lock *)

(** The first section: [None] when there is nothing to do. *)
Definition rep_begin : M Error (State V * Fs * S) bool :=
  s ← gets (λ t, t.1.1);
  of_result (check s 0 0);;
  mret (negb (bool_decide (pending s = ∅))).

(** The second section: accept the remote, sync the journal, take a snapshot. *)
Definition rep_snapshot (remote : V) : M Error (State V * Fs * S) (option (gmap Z Pending * Replication)) :=
  copy ← of_result (r_copy remote);
  s ← gets (λ t, t.1.1);
  match accept copy s with
  | Err e => on_disk (on_state set_failed);; fail e
  | Ok s =>
      on_disk (on_state (λ _, s));;
      on_disk sync_journal;;
      s ← gets (λ t, t.1.1);
      if bool_decide (pending s = ∅) then on_disk compact;; mret None
      else mret (Some (pending s, mkReplication (h_id (hdr s)) (sequence s)))
  end.

(** Without the lock: the blocks and the mark go to the remote handle. *)
Definition rep_push (blocks : gmap Z Pending) (mark : Replication) : M Error (V * S) unit :=
  for_each (entries blocks) (λ e, r_write (e.1 * CHUNK_BYTES) (p_bytes e.2));;
  r_commit mark;;
  mret tt.

(** The third section. *)
Definition rep_finish (remote : V) : M Error (State V * Fs * S) unit :=
  s ← gets (λ t, t.1.1);
  s ← of_result (accept remote s);
  on_disk (on_state (λ _, s));;
  on_disk compact.

(** *** [sync_remote], when nobody else uses the disk: the sections in a row *)
Definition run_remote {A} (v : V) (m : M Error (V * S) A) : M Error (State V * Fs * S) (Result Error A * V) := λ t,
  let '(r, (v', st')) := m (v, t.2) in (Ok (r, v'), (t.1, st')).


(** [replicate] up to the push: [None] when there is nothing to push. *)
Definition rep_prepare (id : string) : M Error (State V * Fs * S) (option (V * gmap Z Pending * Replication)) :=
  go ← rep_begin;
  if (go : bool) then
    remote ← on_store (r_open id);
    o ← rep_snapshot remote;
    mret (match o with Some (blocks, mark) => Some (remote, blocks, mark) | None => None end)
  else mret None.
Definition replicate (id : string) : M Error (State V * Fs * S) unit :=
  o ← rep_prepare id;
  match o with
  | None => mret tt
  | Some (remote, blocks, mark) =>
      '(r, remote) ← run_remote remote (rep_push blocks mark);
      of_result r;;
      rep_finish remote
  end.
Definition sync_remote (id : string) : M Error (State V * Fs * S) Status :=
  r ← try_ (replicate id);
  on_disk (on_state (set_replication_failed (negb (is_ok r))));;
  of_result r;;
  gets (λ t, status t.1.1).

(** *** [compact_remote], under both locks *)

(** Errors after which the head may have moved. *)
Definition moved_head (e : Error) : bool :=
  match e with Conflict | Uncertain | ReopenRequired => true | _ => false end.
(** [state.header.base = ..; state.reader = remote] *)
Definition rebound (remote : V) (s : State V) : State V :=
  mkState (mkHeader (h_volume (hdr s)) (h_id (hdr s)) (r_revision remote) (acknowledged (hdr s)) (h_sequence (hdr s)))
    (file s) remote (pending s) (sequence s) (local_sequence s) (failed s) (replication_failed s).
Definition compact_remote (id : string) (after : option CompactionCursor) (budget : Z) (cancel : S → bool * S)
    : M Error (State V * Fs * S) Compaction :=
  s ← gets (λ t, t.1.1);
  guard_err (negb (failed s)) ReopenRequired;;
  guard_err (bool_decide (pending s = ∅)) Backpressure;;
  v ← on_store (r_open id);
  guard_err (bool_decide (r_revision v = r_revision (reader s))) Conflict;;
  '(r, v') ← run_remote v (r_compact after budget cancel);
  match r with
  | Err e => (if moved_head e then on_disk (on_state set_failed) else mret tt);; fail e
  | Ok c =>
      (if rewritten_blocks c =? 0 then mret tt else on_disk (on_state (rebound v'));; on_disk compact);;
      mret c
  end.
End disk.
End journal.
End Local.
