(* ===== verification/LocalLog.v ===== *)
(** The history of a local-durable disk, apart from files: lists of journal
    records, the block map they lay over a disk, and what acknowledging a prefix,
    compacting and replaying do to it. *)
From S2P Require Import Prelude Codec ObjectStore Blocks Files Local.

Module LocalLog.
Import Local.

(** A record as the journal and [pending] hold it. *)
Abbreviation rec := (Z * Pending)%type.
Definition seq_of (r : rec) : Z := p_sequence r.2.

(** The latest block of every index. *)
Definition overlay_from (m : gmap Z Pending) (l : list rec) : gmap Z Pending :=
  fold_left (λ m r, <[r.1 := r.2]> m) l m.
Definition overlay (l : list rec) : gmap Z Pending := overlay_from ∅ l.
(** A disk under a map of blocks. *)
Definition lay (d : Disk) (m : gmap Z Pending) : Disk := λ p,
  match m !! (p / CHUNK_BYTES) with
  | Some q => index (p_bytes q) (p mod CHUNK_BYTES)
  | None => d p
  end.
Definition newer (a : Z) (m : gmap Z Pending) : gmap Z Pending := filter (λ e, a < p_sequence e.2) m.
Definition above (a : Z) (l : list rec) : list rec := filter (λ r, a < seq_of r) l.
Definition upto (a : Z) (l : list rec) : list rec := filter (λ r, seq_of r ≤ a) l.
(** Sequence numbers never go down. *)
Definition ordered (l : list rec) : Prop := StronglySorted (λ r r', seq_of r ≤ seq_of r') l.
Definition whole (sz : Z) (r : rec) : Prop :=
  0 < seq_of r ≤ u64_max ∧ 0 ≤ r.1 < sz / CHUNK_BYTES ∧ Zlen (p_bytes r.2) = CHUNK_BYTES ∧ bytes (p_bytes r.2).

Lemma overlay_from_app m l k : overlay_from m (l ++ k) = overlay_from (overlay_from m l) k.
Proof. apply fold_left_app. Qed.

Lemma overlay_from_union m l : overlay_from m l = overlay l ∪ m.
Proof.
  rewrite /overlay. induction l as [|r l IH] using rev_ind; [by rewrite left_id_L|].
  rewrite !overlay_from_app /= IH. by rewrite insert_union_l.
Qed.

Lemma overlay_app l k : overlay (l ++ k) = overlay k ∪ overlay l.
Proof. by rewrite {1}/overlay overlay_from_app overlay_from_union. Qed.

Lemma overlay_snoc l r : overlay (l ++ [r]) = <[r.1 := r.2]> (overlay l).
Proof. by rewrite /overlay overlay_from_app. Qed.

Lemma overlay_elem l i q : overlay l !! i = Some q → (i, q) ∈ l.
Proof.
  induction l as [|r l IH] using rev_ind; [done|]. rewrite overlay_snoc lookup_insert_Some elem_of_app.
  intros [[<- <-]|[_ H]]; [right; by destruct r; apply list_elem_of_singleton|left; by apply IH].
Qed.

Lemma overlay_none l i : overlay l !! i = None → ∀ q, (i, q) ∉ l.
Proof.
  induction l as [|r l IH] using rev_ind; intros H q; [by apply not_elem_of_nil|].
  rewrite overlay_snoc lookup_insert_None in H. destruct H as [H Hne].
  rewrite elem_of_app list_elem_of_singleton. intros [Hin|Hq]; [by eapply IH|by subst r].
Qed.

Lemma lay_union d m m' p : lay d (m ∪ m') p = lay (lay d m') m p.
Proof. rewrite /lay lookup_union. by destruct (m !! _), (m' !! _). Qed.

Lemma lay_eq sz d d' m : disk_eq sz d d' → disk_eq sz (lay d m) (lay d' m).
Proof. intros H p Hp. rewrite /lay. destruct (m !! _); [done|by apply H]. Qed.

(** ** Order *)
Lemma ordered_app l k : ordered (l ++ k) ↔
  ordered l ∧ ordered k ∧ ∀ r r', r ∈ l → r' ∈ k → seq_of r ≤ seq_of r'.
Proof.
  rewrite /ordered. induction l as [|x l IH]; simpl.
  { split; [intros; split_and!; [constructor|done|]; set_solver|tauto]. }
  split.
  - intros [Hs Hx]%StronglySorted_inv. apply IH in Hs as (H1 & H2 & H3). rewrite Forall_app in Hx. destruct Hx as [Hx1 Hx2].
    split_and!; [by constructor|done|]. intros r r' [->|Hr]%elem_of_cons Hr'; [|by apply H3].
    by eapply Forall_forall in Hx2.
  - intros (H1 & H2 & H3). apply StronglySorted_inv in H1 as [H1 Hx]. constructor.
    + apply IH. split_and!; [done|done|]. intros. apply H3; set_solver.
    + apply Forall_app. split; [done|]. apply Forall_forall. intros. apply H3; set_solver.
Qed.

Lemma newer_lookup a m i q : newer a m !! i = Some q ↔ m !! i = Some q ∧ a < p_sequence q.
Proof. rewrite /newer map_lookup_filter_Some. done. Qed.

Lemma newer_newer a b m : newer a (newer b m) = newer (Z.max a b) m.
Proof. apply map_eq_iff. intros i. apply option_eq. intros q. rewrite !newer_lookup. naive_solver lia. Qed.

Lemma newer_sub a b m : b ≤ a → newer a m ⊆ newer b m.
Proof. intros Hab. apply map_subseteq_spec. intros i q. rewrite !newer_lookup. naive_solver lia. Qed.

Lemma newer_union a m m' : (∀ i q, m !! i = Some q → a < p_sequence q) → newer a (m ∪ m') = m ∪ newer a m'.
Proof.
  intros Hm. apply map_eq_iff. intros i. apply option_eq. intros q.
  rewrite newer_lookup !lookup_union_Some_raw newer_lookup. naive_solver.
Qed.

(** In an ordered history the records after a point determine the recent part of
    the block map. *)
Lemma overlay_above a l : ordered l → overlay (above a l) = newer a (overlay l).
Proof.
  induction l as [|r l IH] using rev_ind; intros Hl; [done|].
  apply ordered_app in Hl as (Hl & _ & Hr). rewrite /above filter_app filter_cons filter_nil.
  case_decide as Ha.
  - rewrite !overlay_snoc IH //. apply map_eq_iff. intros i. apply option_eq. intros q.
    rewrite newer_lookup !lookup_insert_Some newer_lookup /seq_of in Ha |- *. naive_solver.
  - rewrite app_nil_r IH // overlay_snoc. apply map_eq_iff. intros i. apply option_eq. intros q.
    rewrite !newer_lookup lookup_insert_Some. split; [|naive_solver].
    intros [Hq Hlt]. split; [right; split; [|done]|done]. intros <-.
    apply overlay_elem in Hq. apply (Hr _ r) in Hq; [|set_solver]. rewrite /seq_of /= in Hq Ha. lia.
Qed.

Lemma overlay_upto a l i q : ordered l → overlay l !! i = Some q → p_sequence q ≤ a → overlay (upto a l) !! i = Some q.
Proof.
  induction l as [|r l IH] using rev_ind; intros Hl; [done|].
  apply ordered_app in Hl as (Hl & _ & Hr). rewrite /upto filter_app filter_cons filter_nil.
  rewrite overlay_snoc lookup_insert_Some. intros [[<- <-]|[Hne Hq]] Hle.
  - rewrite decide_True; [done|]. by rewrite overlay_snoc lookup_insert_eq.
  - case_decide; [rewrite overlay_snoc lookup_insert_ne //|rewrite app_nil_r]; by apply IH.
Qed.

Lemma overlay_upto_none a l i : overlay l !! i = None → overlay (upto a l) !! i = None.
Proof.
  intros H. destruct (overlay (upto a l) !! i) as [q|] eqn:E; [|done].
  apply overlay_elem, list_elem_of_filter in E as [_ E]. by apply (overlay_none _ _ H) in E.
Qed.

Lemma upto_app a l k : upto a (l ++ k) = upto a l ++ upto a k.
Proof. apply filter_app. Qed.

Lemma upto_all a l : (∀ r, r ∈ l → seq_of r ≤ a) → upto a l = l.
Proof.
  intros H. induction l as [|r l IH]; [done|]. rewrite /upto filter_cons decide_True; [apply H; set_solver|].
  f_equal. apply IH. set_solver.
Qed.

Lemma upto_none a l : (∀ r, r ∈ l → a < seq_of r) → upto a l = [].
Proof.
  intros H. induction l as [|r l IH]; [done|]. rewrite /upto filter_cons decide_False.
  - specialize (H r (list_elem_of_here _ _)). lia.
  - apply IH. set_solver.
Qed.

(** The disk after a history is the disk after its acknowledged part under the
    pending blocks. *)
Lemma lay_newer d a m l p : ordered l → a ≤ m →
  lay (lay d (overlay (upto m l))) (newer a (overlay l)) p = lay d (overlay l) p.
Proof.
  intros Hl Ham. rewrite {1}/lay. set (i := p / CHUNK_BYTES).
  destruct (newer a (overlay l) !! i) as [q|] eqn:E.
  - apply newer_lookup in E as [E _]. by rewrite /lay -/i E.
  - rewrite /lay -/i. destruct (overlay l !! i) as [q|] eqn:E'.
    + assert (p_sequence q ≤ a) as Hq.
      { destruct (decide (p_sequence q ≤ a)); [done|]. assert (newer a (overlay l) !! i = Some q); [|congruence].
        apply newer_lookup. split; [done|lia]. }
      rewrite (overlay_upto m l i q) //. lia.
    + by rewrite overlay_upto_none.
Qed.

Lemma newer_compact a b m m' : a ≤ b → newer b (m ∪ newer a m') = newer b (m ∪ m').
Proof.
  intros Hab. apply map_eq_iff. intros i. apply option_eq. intros q.
  rewrite !newer_lookup !lookup_union_Some_raw newer_lookup. split; intros [[Hm|[Hm Hq]] Hlt]; try naive_solver lia.
Qed.

Lemma newer_below a m : (∀ i q, m !! i = Some q → a < p_sequence q) → newer a m = m.
Proof.
  intros Hm. apply map_eq_iff. intros i. apply option_eq. intros q. rewrite newer_lookup. naive_solver.
Qed.

Lemma size_sub (m m' : gmap Z Pending) : dom m ⊆ dom m' → (base.size m ≤ base.size m')%nat.
Proof. intros Hd. rewrite -!size_dom. by apply subseteq_size. Qed.

(** The pending blocks of an earlier point are among those of a later one. *)
Lemma size_above a P K : ordered (P ++ K) →
  (base.size (overlay (above a P)) ≤ base.size (newer a (overlay (P ++ K))))%nat.
Proof.
  intros Ho. rewrite -overlay_above //. rewrite /above filter_app overlay_app. apply size_sub. set_solver.
Qed.

(** The largest sequence of a list, and of what came before. *)
Definition top (q : Z) (l : list rec) : Z := fold_left (λ a r, Z.max a (seq_of r)) l q.

Lemma top_spec q l : q ≤ top q l ∧ (∀ r, r ∈ l → seq_of r ≤ top q l) ∧ (top q l = q ∨ ∃ r, r ∈ l ∧ top q l = seq_of r).
Proof.
  rewrite /top. revert q. induction l as [|x l IH]; intros q; simpl.
  { split_and!; [done| |by left]. intros r Hr. by apply not_elem_of_nil in Hr. }
  destruct (IH (Z.max q (seq_of x))) as (H1 & H2 & H3). split_and!; [lia| |].
  - intros r [->|Hr]%elem_of_cons; [lia|by apply H2].
  - destruct H3 as [H3|(r & Hr & H3)]; [|right; exists r; set_solver].
    destruct (decide (q ≤ seq_of x)); [right; exists x; split; [set_solver|lia]|left; lia].
Qed.

Lemma ordered_prefix l k : ordered (l ++ k) → ordered l.
Proof. intros H. by apply ordered_app in H as (H & _). Qed.

(** A point of an ordered history. *)
Lemma upto_split a l : ordered l → ∃ k, l = upto a l ++ k ∧ ∀ r, r ∈ k → a < seq_of r.
Proof.
  induction l as [|x l IH]; intros Ho; [exists []; split; [done|set_solver]|].
  change (x :: l) with ([x] ++ l) in Ho. apply ordered_app in Ho as (_ & Ho & Hx). rewrite /upto filter_cons. case_decide as Hd.
  - destruct (IH Ho) as (k & Hk & Hr). exists k. split; [|done]. by rewrite {1}Hk.
  - exists (x :: l). assert (upto a l = []) as E.
    { apply upto_none. intros r Hr. specialize (Hx x r (list_elem_of_here _ _) Hr). lia. }
    rewrite /upto in E. rewrite E. split; [done|]. intros r [->|Hr]%elem_of_cons; [lia|]. specialize (Hx x r (list_elem_of_here _ _) Hr). lia.
Qed.

Lemma ordered_upto a l : ordered l → ordered (upto a l).
Proof. intros Ho. destruct (upto_split a l Ho) as (k & Hk & _). rewrite Hk in Ho. by eapply ordered_prefix. Qed.

(** The records of a disk: the history, and behind it those of a failed write. *)
Record log_ok (sz : Z) (H X : list rec) (q : Z) : Prop := {
  log_ordered : ordered (H ++ X);
  log_whole : Forall (whole sz) (H ++ X);
  log_doubt : ∀ r, r ∈ X → q < seq_of r;
}.

Lemma log_prefix sz H X q : log_ok sz H X q → ordered H ∧ Forall (whole sz) H ∧ log_ok sz H [] q.
Proof.
  intros [H1 H2 H3]. apply ordered_prefix in H1. apply Forall_app in H2 as [H2 _].
  split_and!; try done. split; rewrite ?app_nil_r; try done. set_solver.
Qed.

(** What a crash leaves of a history: *)
(** [H1] is the history up to some point behind everything durable, or the
    history with some doubtful records. *)
Definition survives (H X : list rec) (Q : Z) (H1 X1 : list rec) : Prop :=
  H1 ++ X1 `prefix_of` H ++ X ∧ ∀ K r, H = H1 ++ K → r ∈ K → Q < seq_of r.

Lemma survives_split sz H X Q H1 X1 : log_ok sz H X Q → survives H X Q H1 X1 →
  (∃ K, H = H1 ++ K ∧ (∀ r, r ∈ K → Q < seq_of r) ∧ X1 `prefix_of` K ++ X) ∨
  (∃ K, H1 = H ++ K ∧ (∀ r, r ∈ K → Q < seq_of r) ∧ K ++ X1 `prefix_of` X).
Proof.
  intros Hl [[k Hk] Hs]. rewrite -app_assoc in Hk. apply app_eq_inv in Hk as [(K & -> & HK)|(K & -> & HK)].
  - left. exists K. split; [done|]. split; [intros r Hr; by eapply Hs|]. exists k. by rewrite -HK -?app_assoc.
  - right. exists K. split; [done|]. split.
    + intros r Hr. apply (log_doubt _ _ _ _ Hl). rewrite HK. set_solver.
    + exists k. by rewrite -app_assoc.
Qed.

Lemma survives_log sz H X Q H1 X1 : log_ok sz H X Q → survives H X Q H1 X1 → log_ok sz H1 X1 Q.
Proof.
  intros Hl Hs. pose proof Hs as [[k Hk] _]. pose proof (log_ordered _ _ _ _ Hl) as Ho. pose proof (log_whole _ _ _ _ Hl) as Hw.
  rewrite Hk in Ho Hw. split; [by eapply ordered_prefix|by apply Forall_app in Hw as [Hw _]|].
  intros r Hr. destruct (survives_split _ _ _ _ _ _ Hl Hs) as [(K & -> & HK & Hp)|(K & -> & HK & Hp)];
    destruct Hp as [k' Hp]; assert (r ∈ X1 ++ k') as Hin by set_solver.
  - rewrite -Hp in Hin. apply elem_of_app in Hin as [Hin|Hin]; [by apply HK|by apply (log_doubt _ _ _ _ Hl)].
  - apply (log_doubt _ _ _ _ Hl). rewrite Hp. set_solver.
Qed.

Lemma survives_upto sz a H X Q H1 X1 : log_ok sz H X Q → survives H X Q H1 X1 → a ≤ Q → upto a H1 = upto a H.
Proof.
  intros Hl Hs Ha. destruct (survives_split _ _ _ _ _ _ Hl Hs) as [(K & -> & HK & _)|(K & -> & HK & _)];
    rewrite upto_app (upto_none a K) ?app_nil_r //; intros r Hr; specialize (HK r Hr); lia.
Qed.
End LocalLog.
