(* ===== verification/LocalInv.v ===== *)
(** What a local-durable disk keeps true: the laws of the remote volume it uses,
    what the journal files hold, and that compaction renews them. *)
From S2P Require Import Prelude Codec ObjectStore Blocks Files Local LocalLog.
From Stdlib Require Ascii String.

Module LocalInv.
Import Files Local LocalLog.

(** The promise of the remote volume.  [good]: the handle is whole and its blocks
    are stored; [based]: it names the current head; [clean]: it holds no unsaved
    blocks; [view]: the disk it reads as; [calm]: the store is as it was, up to
    what nobody can observe; [later]: objects were only added; [safe]: the commit
    of the handle meets no digest collision, and [safe_pass]: nor does a pass of
    compaction. *)
Class RemoteLaws (V S : Type) {R : Remote V S} := {
  good : S → string → V → Prop;
  based : S → string → V → Prop;
  clean : V → Prop;
  unsaved : V → Z;
  view : S → V → Disk;
  calm : S → S → Prop;
  later : S → S → Prop;
  safe : S → V → Prop;
  safe_pass : S → V → Prop;
  calm_preorder :: PreOrder calm;
  later_preorder :: PreOrder later;
  calm_later s s' id v : calm s s' → good s id v → later s s';
  calm_based s s' id v : calm s s' → based s id v → based s' id v;
  later_good s s' id v : later s s' → good s id v →
    good s' id v ∧ disk_eq (r_size v) (view s' v) (view s v);
  good_size s id v : good s id v → 0 < r_size v ∧ r_size v ≤ 2 ^ 50 ∧ r_size v mod CHUNK_BYTES = 0;
  good_bytes s id v p : good s id v → 0 ≤ p < r_size v → is_byte (view s v p);
  good_mark s id v r : good s id v → r_replication v = Some r → 0 < rep_sequence r;
  clean_unsaved v : clean v → unsaved v = 0;
  r_open_law s id w : good s id w → based s id w → clean w →
    wp (r_open id) s (λ r s', calm s s' ∧ match r with Ok v => v = w | Err _ => True end);
  r_copy_law s id v : good s id v → clean v → r_copy v = Ok v;
  r_read_law s id v offset out : good s id v → 0 ≤ offset → offset + Zlen out ≤ r_size v →
    wp (r_read v offset out) s (λ r s', calm s s' ∧ match r with
      | Ok o => o = disk_read (view s v) offset (Zlen out) | Err _ => True end);
  r_write_law s id v i b : good s id v → based s id v → 0 ≤ i < r_size v / CHUNK_BYTES →
    Zlen b = CHUNK_BYTES → bytes b → (unsaved v + 1) * CHUNK_BYTES ≤ DIRTY_LIMIT →
    wp (r_write (i * CHUNK_BYTES) b) (v, s) (λ r t, calm s t.2 ∧ match r with
      | Ok _ => good t.2 id t.1 ∧ based t.2 id t.1 ∧ r_size t.1 = r_size v ∧ unsaved t.1 ≤ unsaved v + 1 ∧
          disk_eq (r_size v) (view t.2 t.1) (disk_write (view s v) (i * CHUNK_BYTES) b)
      | Err _ => True end);
  r_commit_law s id v mark : good s id v → based s id v → safe s v → 0 < rep_sequence mark →
    wp (r_commit mark) (v, s) (λ r t, later s t.2 ∧ match r with
      | Ok _ => good t.2 id t.1 ∧ based t.2 id t.1 ∧ clean t.1 ∧ r_size t.1 = r_size v ∧
          disk_eq (r_size v) (view t.2 t.1) (view s v) ∧ r_replication t.1 = Some mark
      | Err _ => (∀ w, based s id w → based t.2 id w) ∨
          ∃ w, good t.2 id w ∧ based t.2 id w ∧ clean w ∧ r_size w = r_size v ∧
            disk_eq (r_size v) (view t.2 w) (view s v) ∧ r_replication w = Some mark
      end);
  r_compact_law s id v after budget cancel : good s id v → based s id v → clean v → safe_pass s v →
    (∀ s, calm s (cancel s).2) →
    wp (r_compact after budget cancel) (v, s) (λ r t, later s t.2 ∧
      let kept w := good t.2 id w ∧ based t.2 id w ∧ clean w ∧ r_size w = r_size v ∧
        disk_eq (r_size v) (view t.2 w) (view s v) ∧ r_replication w = r_replication v in
      match r with Ok c => kept t.1 ∧ (rewritten_blocks c = 0 → t.1 = v) | Err _ => ∃ w, kept w end);
}.

(** ** The bytes of a journal *)
Section image.
Context {SHA : Sha256} {JH : Json Header}.

Definition header_bytes (hb : list Z) : list Z :=
  MAGIC ++ to_be_bytes 4 (Zlen hb) ++ hb ++ as_bytes (digest hb).
Definition records (l : list (Z * Pending)) : list Z := concat (map (λ r, record_bytes r.1 r.2) l).
#[global] Arguments header_bytes : simpl never.
#[global] Arguments records : simpl never.
Definition journal (hb : list Z) (l : list (Z * Pending)) : list Z := header_bytes hb ++ records l.

#[global] Arguments journal : simpl never.

Lemma records_app l k : records (l ++ k) = records l ++ records k.
Proof. rewrite /records map_app. apply concat_app. Qed.

Lemma journal_app hb l k : journal hb (l ++ k) = journal hb l ++ records k.
Proof. by rewrite /journal records_app app_assoc. Qed.

Context {V S : Type} {R : Remote V S}.
Variables (id jid : string) (sz : Z).
Hypothesis (Hsz : 0 < sz ≤ 2 ^ 50).

(** How far the remote has acknowledged this journal. *)
Definition level (w : V) : Z :=
  match r_replication w with
  | Some r => if bool_decide (rep_id r = jid) then rep_sequence r else 0
  | None => 0
  end.
(** The remote carries a mark of this journal, or is still the root that the
    journal was made on. *)
Definition known_root (w : V) (h_base : string) : Prop :=
  r_revision w = h_base ∨ ∃ r, r_replication w = Some r ∧ rep_id r = jid.

(** A journal file: its header [h] of bytes [hb], the blocks [C] compacted from
    the history [Hc] acknowledged up to [a], and the records since, of which [T1]
    is durable and [X] belongs to a write that failed. *)
Record Img := mkImg {
  i_h : Header; i_hb : list Z; i_C : list (Z * Pending); i_Hc : list (Z * Pending);
  i_T1 : list (Z * Pending); i_T2 : list (Z * Pending); i_X : list (Z * Pending); i_a : Z;
}.
Definition i_all (g : Img) : list (Z * Pending) := i_C g ++ i_T1 g ++ i_T2 g ++ i_X g.

(** The file holds the history [H], perhaps with some of the doubtful [X] behind
    it; [Q] is the last sequence reported durable to the guest, [w] the remote
    root. *)
Record img_ok (g : Img) (H X : list (Z * Pending)) (Q : Z) (w : V) (n : Inode) : Prop := {
  ok_vol : h_volume (i_h g) = id;
  ok_id : h_id (i_h g) = jid;
  ok_json : to_vec (i_h g) = Some (i_hb g);
  ok_small : Zlen (i_hb g) ≤ 4096;
  ok_ack : 0 ≤ acknowledged (i_h g) ≤ i_a g;
  ok_acked : acknowledged (i_h g) ≤ h_sequence (i_h g);
  ok_level : i_a g ≤ level w;
  ok_root : known_root w (h_base (i_h g));
  ok_hist : H `prefix_of` i_Hc g ++ i_T1 g ++ i_T2 g;
  ok_doubt : i_Hc g ++ i_T1 g ++ i_T2 g ++ i_X g `prefix_of` H ++ X;
  ok_compact : overlay (i_C g) = newer (i_a g) (overlay (i_Hc g));
  ok_ordered : ordered (i_all g);
  ok_whole : Forall (whole sz) (i_all g);
  ok_C : ∀ r, r ∈ i_C g → acknowledged (i_h g) < seq_of r ≤ h_sequence (i_h g);
  ok_Hc : ∀ r, r ∈ i_Hc g → seq_of r ≤ h_sequence (i_h g);
  ok_T : ∀ r, r ∈ i_T1 g ++ i_T2 g ++ i_X g → h_sequence (i_h g) < seq_of r;
  ok_synced : journal (i_hb g) (i_C g ++ i_T1 g) `prefix_of` synced n ∧ synced n `prefix_of` journal (i_hb g) (i_all g);
  ok_data : journal (i_hb g) (i_C g ++ i_T1 g ++ i_T2 g) `prefix_of` data n ∧ data n `prefix_of` journal (i_hb g) (i_all g);
  ok_durable : Q ≤ h_sequence (i_h g) ∨ ∃ r, r ∈ i_T1 g ∧ Q ≤ seq_of r;
  ok_late : ∀ r, r ∈ i_T2 g ++ i_X g → Q < seq_of r;
  ok_limit : Z.of_nat (base.size (newer (level w) (overlay (i_all g)))) * CHUNK_BYTES ≤ DIRTY_LIMIT;
  ok_log : Zlen (journal (i_hb g) (i_all g)) ≤ LOG_LIMIT;
  ok_private : private n = true;
}.
Definition image H X Q w n : Prop := ∃ g, img_ok g H X Q w n.

Context {SHAL : Sha256Laws}.

(** ** Parsing *)
Lemma Zlen_as_bytes s : Zlen (as_bytes s) = Z.of_nat (String.length s).
Proof. rewrite /Zlen /as_bytes length_fmap. f_equal. induction s; simpl; auto. Qed.

Lemma Zlen_digest b : Zlen (as_bytes (digest b)) = 64.
Proof.
  rewrite Zlen_as_bytes. rewrite /digest length_hex. rewrite sha256_length. lia.
Qed.

Lemma Zlen_header_bytes hb : Zlen (header_bytes hb) = 12 + Zlen hb + 64.
Proof using SHA SHAL.
  clear Hsz. rewrite /header_bytes !Zlen_app Zlen_to_be_bytes Zlen_digest. change (Zlen MAGIC) with 8. lia.
Qed.

Lemma Zlen_record_bytes r : whole sz r → Zlen (record_bytes r.1 r.2) = RECORD.
Proof.
  intros (_ & _ & Hl & _). rewrite /record_bytes /record_body !Zlen_app !Zlen_to_be_bytes Zlen_digest Hl /RECORD. lia.
Qed.

Lemma record_pos : 80 < RECORD.
Proof. rewrite /RECORD. pose proof chunk_bytes_pos. lia. Qed.

Lemma Zlen_records l : Forall (whole sz) l → Zlen (records l) = Zlen l * RECORD.
Proof.
  induction 1 as [|r l Hr Hl IH]; [done|]. change (records (r :: l)) with (record_bytes r.1 r.2 ++ records l).
  rewrite Zlen_app IH Zlen_record_bytes // Zlen_cons. lia.
Qed.

(** What a crash makes of the records: some of them, and a torn one. *)
Lemma cut_records x L : Forall (whole sz) L → x `prefix_of` records L →
  ∃ Y rest torn, L = Y ++ rest ∧ x = records Y ++ torn ∧ Zlen torn < RECORD ∧
    match rest with [] => torn = [] | r :: _ => torn `prefix_of` record_bytes r.1 r.2 end.
Proof.
  intros HL. revert x. induction HL as [|r L Hr HL IH]; intros x Hx.
  { exists [], [], []. apply prefix_nil_inv in Hx as ->. pose proof record_pos. by split_and!. }
  change (records (r :: L)) with (record_bytes r.1 r.2 ++ records L) in Hx.
  pose proof (Zlen_record_bytes r Hr) as Hl. destruct Hx as [k Hk]. apply app_eq_inv in Hk as [(y & Hy & _)|(y & -> & Hy)].
  - destruct (decide (y = [])) as [->|Hne].
    + rewrite app_nil_r in Hy. exists [r], L, []. pose proof record_pos. split_and!; [done| |done|].
      { by rewrite /records /= !app_nil_r. }
      destruct L; [done|apply prefix_nil].
    + exists [], (r :: L), x. split_and!; [done|done| |by exists y].
      rewrite -Hl Hy Zlen_app. destruct y; [done|]. rewrite Zlen_cons. pose proof (Zlen_nonneg y). lia.
  - destruct (IH y) as (Y & rest & torn & -> & -> & Ht & Hr'); [by exists k|].
    exists (r :: Y), rest, torn. split_and!; try done.
    change (records (r :: Y)) with (record_bytes r.1 r.2 ++ records Y). by rewrite app_assoc.
Qed.

(** ** File-system steps *)
Lemma set_plan_plan p q fs : set_plan p (set_plan q fs) = set_plan p fs.
Proof. done. Qed.

Lemma wp_file_len i fs (Q : Result Error Z → Fs → Prop) :
  (∀ p, Q (Ok (Zlen (contents i fs))) (set_plan p fs)) → (∀ p, Q (Err Store) (set_plan p fs)) → wp (file_len i) fs Q.
Proof. intros H1 H2. rewrite /file_len. wp_step. apply wp_sys; intros p; [apply wp_gets, H1|apply H2]. Qed.

Lemma wp_read_exact i at_ n fs (Q : Result Error (list Z) → Fs → Prop) :
  (∀ p, at_ + n ≤ Zlen (contents i fs) → Q (Ok (slice (contents i fs) at_ n)) (set_plan p fs)) →
  (∀ p, Q (Err Store) (set_plan p fs)) → wp (read_exact i at_ n) fs Q.
Proof.
  intros H1 H2. rewrite /read_exact. wp_step. apply wp_sys; intros p; [|apply H2]. wp_step. apply wp_gets.
  change (contents i (set_plan p fs)) with (contents i fs). case: Z.ltb_spec => ?; [by apply wp_fail|]. apply wp_ret. by apply H1; lia.
Qed.

(** ** Replaying *)
Lemma replay_one_ok ra r seq last m : whole sz r → last ≤ seq_of r →
  let m' := if ra <? seq_of r then <[r.1 := r.2]> m else m in
  Z.of_nat (base.size m') * CHUNK_BYTES ≤ DIRTY_LIMIT →
  replay_one ra sz (record_bytes r.1 r.2) seq last m = Ok (Z.max seq (seq_of r), seq_of r, m').
Proof.
  intros Hr Hlast. pose proof Hr as ((Hs0 & Hs1) & Hi & Hl & Hb). cbv zeta. intros Hm.
  assert (Zlen (record_body r.1 r.2) = RECORD - 64) as Hbody.
  { rewrite /record_body !Zlen_app !Zlen_to_be_bytes Hl /RECORD. lia. }
  assert (0 ≤ r.1 < 2 ^ 64) as Hidx.
  { pose proof chunk_bytes_pos. assert (sz / CHUNK_BYTES ≤ sz) by (apply Z.div_le_upper_bound; nia). lia. }
  rewrite /replay_one {1 2}/record_bytes -Hbody /Zlen Nat2Z.id take_app_length drop_app_length bool_decide_true //.
  assert (from_be_bytes (slice (record_bytes r.1 r.2) 0 8) = seq_of r) as ->.
  { rewrite /record_bytes /record_body -!app_assoc slice_here; [by rewrite Zlen_to_be_bytes|].
    rewrite from_to_be_bytes; [rewrite /u64_max in Hs1; rewrite /seq_of in Hs0 Hs1; lia|done]. }
  assert (from_be_bytes (slice (record_bytes r.1 r.2) 8 8) = r.1) as ->.
  { rewrite /record_bytes /record_body -!app_assoc. by read_field. }
  assert (slice (record_bytes r.1 r.2) 16 CHUNK_BYTES = p_bytes r.2) as ->.
  { rewrite /record_bytes /record_body -!app_assoc. by read_field. }
  replace (seq_of r =? 0) with false by (symmetry; apply Z.eqb_neq; lia).
  replace (seq_of r <? last) with false by (symmetry; apply Z.ltb_ge; lia).
  replace (sz / CHUNK_BYTES <=? r.1) with false by (symmetry; apply Z.leb_gt; lia). simpl.
  assert (mkPending (seq_of r) (p_bytes r.2) = r.2) as -> by (by rewrite /seq_of; destruct r.2).
  by replace (DIRTY_LIMIT <? _) with false by (symmetry; apply Z.ltb_ge; lia).
Qed.

Definition trunc (k : Z) (n : Inode) : Inode := mkInode (take (Z.to_nat k) (data n)) (synced n) (private n).
(** Only the torn end of the file [i], behind [k] bytes, may be gone. *)
Definition trimmed (i : nat) (k : Z) (fs fs' : Fs) : Prop :=
  dir fs' = dir fs ∧ past fs' = past fs ∧ locked fs' = locked fs ∧ dir_private fs' = dir_private fs ∧
  (inodes fs' = inodes fs ∨ inodes fs' = alter (trunc k) i (inodes fs)).

Lemma trimmed_plan i k fs p : trimmed i k fs (set_plan p fs).
Proof. split_and!; auto. Qed.

Lemma trimmed_from i k fs fs' p : trimmed i k (set_plan p fs) fs' → trimmed i k fs fs'.
Proof. done. Qed.

Lemma replay_spec ra i J fuel fs at_ seq last m pre torn :
  contents i fs = pre ++ records J ++ torn → Zlen pre = at_ → Zlen torn < RECORD → ordered J → Forall (whole sz) J →
  (∀ r, r ∈ J → last ≤ seq_of r) → (length J < fuel)%nat →
  (∀ P K, J = P ++ K → Z.of_nat (base.size (overlay_from m (above ra P))) * CHUNK_BYTES ≤ DIRTY_LIMIT) →
  wp (replay fuel i ra sz at_ seq last m) fs (λ r fs', trimmed i (at_ + Zlen (records J)) fs fs' ∧
    match r with Ok x => x = (top seq J, overlay_from m (above ra J)) | Err e => e = Store end).
Proof using All.
  revert fuel fs at_ seq last m pre. induction J as [|r J IH]; intros [|fuel] fs at_ seq last m pre Hc Hpre Htorn Hord Hw Hlast Hfuel Hlim;
    simpl in Hfuel; try lia; cbn [replay]; wp_step; (apply wp_file_len; intros p; [|split; [apply (trimmed_plan i _ fs)|done]]);
    rewrite Hc (Zlen_app pre) Hpre (Zlen_app (records _) torn).
  - change (Zlen (records [])) with 0. replace (at_ + (0 + Zlen torn) - at_) with (Zlen torn) by lia. cbv zeta.
    case: Z.eqb_spec => Ht0; [apply wp_ret; split; [apply (trimmed_plan i _ fs)|done]|].
    case: Z.ltb_spec => ?; [|lia]. rewrite /set_len. wp_step. wp_step.
    apply wp_sys; intros p'; [|split; [apply (trimmed_plan i _ fs)|done]]. apply wp_modify. apply wp_ret. split; [|done].
    split_and!; try done. right. by rewrite Z.add_0_r.
  - apply Forall_cons in Hw as [Hr Hw]. change (r :: J) with ([r] ++ J) in Hord. apply ordered_app in Hord as (_ & Hord & Hle).
    change (records (r :: J)) with (record_bytes r.1 r.2 ++ records J) in *.
    rewrite (Zlen_app (record_bytes r.1 r.2) (records J)) Zlen_record_bytes //.
    replace (at_ + (RECORD + Zlen (records J) + Zlen torn) - at_) with (RECORD + Zlen (records J) + Zlen torn) by lia.
    pose proof (Zlen_nonneg (records J)). pose proof (Zlen_nonneg torn). pose proof record_pos. cbv zeta.
    case: Z.eqb_spec => ?; [lia|]. case: Z.ltb_spec => ?; [lia|]. wp_step.
    apply wp_read_exact; intros p'; [intros _|split; [apply (trimmed_plan i _ fs)|done]].
    change (contents i (set_plan p fs)) with (contents i fs). rewrite Hc -app_assoc.
    rewrite slice_skip; [lia|]. rewrite Hpre Z.sub_diag slice_here; [by apply Zlen_record_bytes|].
    rewrite replay_one_ok; [done|set_solver| |]; cbv zeta.
    { pose proof (Hlim [r] J eq_refl) as HL. rewrite /above filter_cons filter_nil in HL.
      destruct (Z.ltb_spec ra (seq_of r)); [rewrite decide_True in HL; [done|done]|rewrite decide_False in HL; [lia|done]]. }
    wp_step. apply wp_ret.
    assert (overlay_from m (above ra (r :: J)) = overlay_from (if ra <? seq_of r then <[r.1:=r.2]> m else m) (above ra J)) as Heq.
    { rewrite /above filter_cons. destruct (Z.ltb_spec ra (seq_of r)); [by rewrite decide_True|rewrite decide_False; [lia|done]]. }
    eapply wp_mono; [eapply (IH _ _ _ _ _ _ (pre ++ record_bytes r.1 r.2)); try done|].
    + change (contents i (set_plan p' (set_plan p fs))) with (contents i fs). by rewrite Hc -!app_assoc.
    + rewrite (Zlen_app pre) Zlen_record_bytes //. lia.
    + intros r' Hr'. apply Hle; set_solver.
    + lia.
    + intros P K ->. pose proof (Hlim (r :: P) K eq_refl) as HL. rewrite /above filter_cons in HL.
      destruct (Z.ltb_spec ra (seq_of r)); [rewrite decide_True in HL; done|rewrite decide_False in HL; [lia|done]].
    + intros x fs' [Ht Hx]. split.
      { replace (at_ + (RECORD + _)) with (at_ + RECORD + Zlen (records J)) by lia. exact Ht. }
      destruct x as [x|e]; [|done]. by rewrite Heq.
Qed.

(** ** After a crash *)
Lemma journal_between hb A L x : Forall (whole sz) L → journal hb A `prefix_of` x → x `prefix_of` journal hb (A ++ L) →
  ∃ Y rest torn, L = Y ++ rest ∧ x = journal hb (A ++ Y) ++ torn ∧ Zlen torn < RECORD ∧
    match rest with [] => torn = [] | r :: _ => torn `prefix_of` record_bytes r.1 r.2 end.
Proof.
  intros HL [y ->] Hx. rewrite journal_app in Hx. apply prefix_app_inv in Hx.
  destruct (cut_records y L HL Hx) as (Y & rest & torn & -> & -> & Ht & Hr).
  exists Y, rest, torn. split_and!; try done. by rewrite journal_app app_assoc.
Qed.

Lemma journal_mono hb A L : journal hb A `prefix_of` journal hb (A ++ L).
Proof. rewrite journal_app. by apply prefix_app_r. Qed.

Lemma image_settled H X Q w n n' : image H X Q w n → settled n n' → (∀ r, r ∈ X → Q < seq_of r) →
  ∃ H1 X1, H1 ++ X1 `prefix_of` H ++ X ∧ (∀ K r, H = H1 ++ K → r ∈ K → Q < seq_of r) ∧ image H1 X1 Q w n'.
Proof.
  intros [g Hg] (Hp & Hs & Hb) HX.
  assert (journal (i_hb g) (i_C g ++ i_T1 g) `prefix_of` data n' ∧ data n' `prefix_of` journal (i_hb g) (i_all g)) as [H1 H2].
  { destruct (ok_synced _ _ _ _ _ _ Hg) as [Hs1 Hs2], (ok_data _ _ _ _ _ _ Hg) as [Hd1 Hd2].
    assert (journal (i_hb g) (i_C g ++ i_T1 g) `prefix_of` data n).
    { etrans; [|exact Hd1]. rewrite app_assoc. apply journal_mono. }
    destruct Hb as [[Hb1 Hb2]|[[Hb1 Hb2]|[Hn1 Hn2]]]; [split; [etrans; [|exact Hb1]|etrans; [exact Hb2|]]; done..|].
    by destruct (prefix_weak_total _ _ _ Hs2 Hd2). }
  pose proof (ok_whole _ _ _ _ _ _ Hg) as Hw. rewrite /i_all app_assoc in H2. rewrite /i_all app_assoc in Hw.
  apply Forall_app in Hw as [Hw1 Hw2].
  destruct (journal_between _ _ _ _ Hw2 H1 H2) as (Y & rest & torn & HY & Hx & Ht & _).
  exists (i_Hc g ++ i_T1 g ++ Y), rest. pose proof (ok_late _ _ _ _ _ _ Hg) as Hlate. rewrite HY in Hlate.
  assert (i_all g = i_C g ++ (i_T1 g ++ Y) ++ [] ++ rest) as Hall by (by rewrite /i_all HY -!app_assoc).
  split; [|split].
  - etrans; [|exact (ok_doubt _ _ _ _ _ _ Hg)]. by rewrite HY -!app_assoc.
  - intros K r HK Hr. pose proof (ok_hist _ _ _ _ _ _ Hg) as [k Hk]. apply (ok_late _ _ _ _ _ _ Hg).
    rewrite HK -!app_assoc in Hk. do 2 apply app_inv_head in Hk. rewrite elem_of_app Hk. set_solver.
  - exists (mkImg (i_h g) (i_hb g) (i_C g) (i_Hc g) (i_T1 g ++ Y) [] rest (i_a g)).
    assert (journal (i_hb g) (i_C g ++ i_T1 g ++ Y) `prefix_of` data n' ∧
      data n' `prefix_of` journal (i_hb g) (i_C g ++ (i_T1 g ++ Y) ++ [] ++ rest)) as [Hd1 Hd2].
    { split; [rewrite Hx -(app_assoc (i_C g)); by eexists|]. etrans; [exact H2|]. by rewrite HY -!app_assoc. }
    split; cbn [i_h i_hb i_C i_Hc i_T1 i_T2 i_X i_a]; rewrite /i_all; cbn [i_C i_T1 i_T2 i_X]; rewrite -?Hall.
    + exact (ok_vol _ _ _ _ _ _ Hg).
    + exact (ok_id _ _ _ _ _ _ Hg).
    + exact (ok_json _ _ _ _ _ _ Hg).
    + exact (ok_small _ _ _ _ _ _ Hg).
    + exact (ok_ack _ _ _ _ _ _ Hg).
    + exact (ok_acked _ _ _ _ _ _ Hg).
    + exact (ok_level _ _ _ _ _ _ Hg).
    + exact (ok_root _ _ _ _ _ _ Hg).
    + by rewrite app_nil_r.
    + by rewrite -!app_assoc.
    + exact (ok_compact _ _ _ _ _ _ Hg).
    + exact (ok_ordered _ _ _ _ _ _ Hg).
    + exact (ok_whole _ _ _ _ _ _ Hg).
    + exact (ok_C _ _ _ _ _ _ Hg).
    + exact (ok_Hc _ _ _ _ _ _ Hg).
    + intros r Hr. apply (ok_T _ _ _ _ _ _ Hg). rewrite HY. set_solver.
    + rewrite Hs Hall. by split.
    + rewrite app_nil_r Hall. by split.
    + destruct (ok_durable _ _ _ _ _ _ Hg) as [|(r & Hr & ?)]; [by left|right; exists r; set_solver].
    + intros r Hr. apply Hlate. set_solver.
    + exact (ok_limit _ _ _ _ _ _ Hg).
    + exact (ok_log _ _ _ _ _ _ Hg).
    + rewrite Hp. exact (ok_private _ _ _ _ _ _ Hg).
Qed.

(** ** Loading a journal *)
Context {JHL : JsonLaws Header}.
Hypothesis (Hjid : String.length jid = 64%nat ∧ string_all is_ascii_hexdigit jid = true).

Lemma read_header_spec i h hb rest fs : contents i fs = header_bytes hb ++ rest → to_vec h = Some hb → Zlen hb ≤ 4096 →
  h_volume h = id → h_id h = jid → acknowledged h ≤ h_sequence h →
  wp (read_header i id) fs (λ r fs', fs' = set_plan (plan fs') fs ∧
    match r with Ok x => x = (h, Zlen (header_bytes hb)) | Err e => e = Store end).
Proof using All.
  intros Hc Hj Hl Hv Hi Ha. pose proof (Zlen_nonneg hb) as H0.
  assert (Zlen MAGIC = 8) as HM by done. pose proof (Zlen_digest hb) as HD.
  assert (from_be_bytes (to_be_bytes 4 (Zlen hb)) = Zlen hb) as Hlen by (apply from_to_be_bytes; lia).
  assert (slice (contents i fs) 0 12 = MAGIC ++ to_be_bytes 4 (Zlen hb)) as Hstart.
  { rewrite Hc /header_bytes -!app_assoc (app_assoc MAGIC). apply slice_here. by rewrite Zlen_app Zlen_to_be_bytes HM. }
  assert (slice (contents i fs) 12 (Zlen hb) = hb) as Hbody.
  { rewrite Hc /header_bytes -!app_assoc (app_assoc MAGIC) slice_skip ?Zlen_app ?Zlen_to_be_bytes HM; [done|].
    by rewrite slice_here. }
  assert (slice (contents i fs) (12 + Zlen hb) 64 = as_bytes (digest hb)) as Hsum.
  { rewrite Hc /header_bytes -!app_assoc (app_assoc MAGIC) (app_assoc _ hb) slice_skip ?Zlen_app ?Zlen_to_be_bytes HM; [lia|].
    replace (12 + Zlen hb - _) with 0 by lia. by rewrite slice_here. }
  rewrite /read_header. wp_step. apply wp_read_exact; intros p; [intros _|done]. rewrite Hstart.
  change (take 8 (MAGIC ++ to_be_bytes 4 (Zlen hb))) with MAGIC.
  change (drop 8 (MAGIC ++ to_be_bytes 4 (Zlen hb))) with (to_be_bytes 4 (Zlen hb)). rewrite Hlen. cbv zeta.
  rewrite bool_decide_true // (proj2 (Z.leb_le _ _) Hl). wp_step. wp_step; [|done].
  wp_step. apply wp_read_exact; intros p2; [intros _|done]. change (contents i (set_plan p fs)) with (contents i fs). rewrite Hbody.
  wp_step. apply wp_read_exact; intros p3; [intros _|done].
  change (contents i (set_plan p2 (set_plan p fs))) with (contents i fs). rewrite Hsum. rewrite bool_decide_true //.
  wp_step. wp_step; [|done]. rewrite (json_roundtrip _ _ Hj). wp_step. apply wp_ret.
  assert (header_ok id h = true) as ->.
  { destruct Hjid as [Hj1 Hj2]. rewrite /header_ok Hi Hj1 Hj2 Hv bool_decide_true //. by rewrite (proj2 (Z.leb_le _ _) Ha). }
  wp_step. wp_step; [|done]. apply wp_ret. split; [done|]. by rewrite Zlen_header_bytes.
Qed.

(** A whole-record cut of the image's records that keeps all of [H]. *)
Lemma image_cut g H X Q w n : img_ok g H X Q w n → ∃ Y rest torn,
  i_X g = Y ++ rest ∧ data n = journal (i_hb g) (i_C g ++ i_T1 g ++ i_T2 g ++ Y) ++ torn ∧ Zlen torn < RECORD.
Proof.
  intros Hg. destruct (ok_data _ _ _ _ _ _ Hg) as [H1 H2].
  pose proof (ok_whole _ _ _ _ _ _ Hg) as Hw. rewrite /i_all in H2 Hw. rewrite !Forall_app in Hw. destruct Hw as (_ & _ & _ & Hw).
  replace (i_C g ++ i_T1 g ++ i_T2 g ++ i_X g) with ((i_C g ++ i_T1 g ++ i_T2 g) ++ i_X g) in H2 by (by rewrite -!app_assoc).
  destruct (journal_between _ _ _ _ Hw H1 H2) as (Y & rest & torn & HY & Hx & Ht & _).
  exists Y, rest, torn. by rewrite Hx -!app_assoc.
Qed.

(** Trimming the torn end changes nothing that matters. *)
Lemma image_trunc g H X Q w n Y rest torn : img_ok g H X Q w n → i_X g = Y ++ rest →
  data n = journal (i_hb g) (i_C g ++ i_T1 g ++ i_T2 g ++ Y) ++ torn →
  image H X Q w (trunc (Zlen (journal (i_hb g) (i_C g ++ i_T1 g ++ i_T2 g ++ Y))) n).
Proof.
  intros Hg HY Hd. exists g. set (J := journal (i_hb g) (i_C g ++ i_T1 g ++ i_T2 g ++ Y)) in *.
  assert (data (trunc (Zlen J) n) = J) as Hdata.
  { by rewrite /trunc /= Hd /Zlen Nat2Z.id take_app_length. }
  destruct Hg. split; try eassumption. rewrite Hdata. split.
  - rewrite /J. rewrite !app_assoc. apply journal_mono.
  - destruct ok_data0 as [_ H2]. etrans; [|exact H2]. rewrite Hd. by eexists.
Qed.

(** What is known of a loaded journal. *)
Record loaded (H X : list (Z * Pending)) (Q : Z) (w : V) (h : Header) (seq : Z) (m : gmap Z Pending) (H' : list (Z * Pending)) : Prop := {
  ld_hist : H `prefix_of` H' ∧ H' `prefix_of` H ++ X;
  ld_vol : h_volume h = id; ld_id : h_id h = jid;
  ld_ack : 0 ≤ acknowledged h ≤ level w; ld_acked : acknowledged h ≤ seq;
  ld_root : known_root w (h_base h);
  ld_pending : m = newer (level w) (overlay H');
  ld_size : Z.of_nat (base.size m) * CHUNK_BYTES ≤ DIRTY_LIMIT;
  ld_seq : ∀ r, r ∈ H' → seq_of r ≤ seq;
  ld_durable : Q ≤ seq;
}.

Lemma replay_level w h : 0 ≤ acknowledged h → acknowledged h ≤ level w → h_id h = jid → replay_from h w = level w.
Proof.
  rewrite /replay_from /level. intros H0 H1 ->. destruct (r_replication w) as [r|]; [|lia].
  case_bool_decide; lia.
Qed.

Lemma load_journal_spec H X Q w n i fs : image H X Q w n → inodes fs !! i = Some n →
  ordered (H ++ X) → r_size w = sz →
  wp (load_journal i id w) fs (λ r fs',
    (∃ k, trimmed i k fs fs' ∧ image H X Q w (trunc k n)) ∧
    match r with Ok x => ∃ H', loaded H X Q w x.1.1 x.1.2 x.2 H' | Err e => e = Store end).
Proof using All.
  intros [g Hg] Hn Hord Hszw. destruct (image_cut _ _ _ _ _ _ Hg) as (Y & rest & torn & HY & Hd & Ht).
  pose proof (image_trunc _ _ _ _ _ _ _ _ _ Hg HY Hd) as Htr.
  set (J := i_C g ++ i_T1 g ++ i_T2 g ++ Y) in *. set (H' := i_Hc g ++ i_T1 g ++ i_T2 g ++ Y).
  assert (i_all g = J ++ rest) as Hall by (by rewrite /i_all HY /J -!app_assoc).
  assert (contents i fs = header_bytes (i_hb g) ++ records J ++ torn) as Hc.
  { by rewrite /contents Hn /= Hd /journal -app_assoc. }
  pose proof (ok_ordered _ _ _ _ _ _ Hg) as Ho. rewrite Hall in Ho.
  pose proof (ok_whole _ _ _ _ _ _ Hg) as Hw. rewrite Hall in Hw. apply Forall_app in Hw as [Hw _].
  pose proof (ok_ack _ _ _ _ _ _ Hg) as [Ha0 Ha1]. pose proof (ok_level _ _ _ _ _ _ Hg) as Hlv.
  assert (replay_from (i_h g) w = level w) as Hra.
  { apply replay_level; [done|lia|exact (ok_id _ _ _ _ _ _ Hg)]. }
  rewrite /load_journal. wp_step.
  eapply wp_mono; [eapply read_header_spec; [exact Hc|exact (ok_json _ _ _ _ _ _ Hg)|exact (ok_small _ _ _ _ _ _ Hg)|
    exact (ok_vol _ _ _ _ _ _ Hg)|exact (ok_id _ _ _ _ _ _ Hg)|exact (ok_acked _ _ _ _ _ _ Hg)]|].
  assert (∀ p, ∃ k, trimmed i k fs (set_plan p fs) ∧ image H X Q w (trunc k n)) as Hsame.
  { intros p. eexists. split; [apply trimmed_plan|exact Htr]. }
  intros [x|e] fs1 [Hfs1 Hx]; rewrite Hfs1; [|by split]. subst x. wp_step. apply wp_gets.
  change (contents i (set_plan (plan fs1) fs)) with (contents i fs).
  assert (ordered J) as HoJ by (by eapply ordered_prefix).
  pose proof record_pos as HR. pose proof (Zlen_records J Hw) as HlJ.
  wp_step. rewrite Hra Hszw. eapply wp_mono.
  { eapply (replay_spec _ _ J _ _ _ _ _ _ (header_bytes (i_hb g)) torn); [exact Hc|done|exact Ht|done|done| | |].
    - intros r Hr. rewrite /J !elem_of_app in Hr. pose proof (ok_acked _ _ _ _ _ _ Hg).
      destruct Hr as [Hr|Hr]; [pose proof (ok_C _ _ _ _ _ _ Hg r Hr); lia|].
      assert (h_sequence (i_h g) < seq_of r); [|lia]. apply (ok_T _ _ _ _ _ _ Hg). rewrite HY. set_solver.
    - rewrite Hc (Zlen_app (header_bytes _)) (Zlen_app (records J)) HlJ. pose proof (Zlen_nonneg (header_bytes (i_hb g))). pose proof (Zlen_nonneg torn).
      assert (Zlen J ≤ (Zlen (header_bytes (i_hb g)) + (Zlen J * RECORD + Zlen torn)) / RECORD).
      { apply Z.div_le_lower_bound; lia. }
      rewrite /Zlen in H2 |- *. lia.
    - intros P K HP. pose proof (ok_limit _ _ _ _ _ _ Hg) as Hlim. etrans; [|exact Hlim].
      apply Z.mul_le_mono_nonneg_r; [pose proof chunk_bytes_pos; lia|]. apply inj_le.
      rewrite -/(overlay (above (level w) P)) Hall HP -app_assoc. apply size_above. by rewrite app_assoc -HP. }
  intros r fs2 Hpost. cbn beta in Hpost. destruct Hpost as [Htm Hr].
  rewrite -Zlen_app -/(journal (i_hb g) J) in Htm.
  assert (∃ k, trimmed i k fs fs2 ∧ image H X Q w (trunc k n)) as Hk by (eexists; split; [exact Htm|exact Htr]).
  destruct r as [x|e]; [|done]. subst x. apply wp_ret. split; [done|]. exists H'. simpl.
  assert (newer (level w) (overlay J) = newer (level w) (overlay H')) as Hnew.
  { rewrite /J /H' (overlay_app (i_C g)) (overlay_app (i_Hc g)) (ok_compact _ _ _ _ _ _ Hg). by apply newer_compact. }
  rewrite -/(overlay (above (level w) J)) overlay_above // Hnew.
  destruct (top_spec (h_sequence (i_h g)) J) as (Ht1 & Ht2 & _). pose proof (ok_acked _ _ _ _ _ _ Hg).
  split; try done.
  - split.
    + etrans; [exact (ok_hist _ _ _ _ _ _ Hg)|]. rewrite /H' !app_assoc. by apply prefix_app_r.
    + etrans; [|exact (ok_doubt _ _ _ _ _ _ Hg)]. exists rest. by rewrite HY /H' -!app_assoc.
  - exact (ok_vol _ _ _ _ _ _ Hg).
  - exact (ok_id _ _ _ _ _ _ Hg).
  - lia.
  - lia.
  - exact (ok_root _ _ _ _ _ _ Hg).
  - rewrite -Hnew. etrans; [|exact (ok_limit _ _ _ _ _ _ Hg)].
    apply Z.mul_le_mono_nonneg_r; [pose proof chunk_bytes_pos; lia|]. apply inj_le. rewrite -overlay_above // Hall.
    by apply size_above.
  - intros r Hr. rewrite /H' elem_of_app in Hr. destruct Hr as [Hr|Hr].
    + pose proof (ok_Hc _ _ _ _ _ _ Hg r Hr). lia.
    + apply Ht2. rewrite /J elem_of_app. by right.
  - destruct (ok_durable _ _ _ _ _ _ Hg) as [|(r & Hr & ?)]; [lia|].
    assert (seq_of r ≤ top (h_sequence (i_h g)) J); [|lia]. apply Ht2. rewrite /J !elem_of_app. by right; left.
Qed.
End image.
End LocalInv.
