(* ===== verification/LocalCompact.v ===== *)
(** Writing journal files: appending records, and the compaction that renews the
    journal, under failures of every file-system call. *)
From S2P Require Import Prelude Codec ObjectStore Blocks Files Local LocalLog LocalInv.
From Stdlib Require Ascii String.

Module LocalCompact.
Import Files Local LocalLog LocalInv.

Lemma chunk_value : CHUNK_BYTES = 65536.
Proof. vm_compute. reflexivity. Qed.

(** ** The sorted entries *)
#[export] Instance by_sequence_total : Total by_sequence.
Proof. intros x y. rewrite /by_sequence. lia. Qed.
#[export] Instance by_sequence_trans : Transitive by_sequence.
Proof. intros x y z. rewrite /by_sequence. lia. Qed.

Definition sorted_entries (m : gmap Z Pending) : list (Z * Pending) := merge_sort by_sequence (entries m).

Lemma sorted_entries_perm m : sorted_entries m ≡ₚ map_to_list m.
Proof. by rewrite /sorted_entries merge_sort_Permutation entries_Permutation. Qed.

Lemma elem_of_sorted_entries m i q : (i, q) ∈ sorted_entries m ↔ m !! i = Some q.
Proof. by rewrite sorted_entries_perm elem_of_map_to_list. Qed.

Lemma Zlen_sorted_entries m : Zlen (sorted_entries m) = Z.of_nat (base.size m).
Proof. by rewrite /Zlen sorted_entries_perm length_map_to_list. Qed.

Lemma ordered_sorted_entries m : ordered (sorted_entries m).
Proof.
  assert (StronglySorted by_sequence (sorted_entries m)) as H.
  { apply StronglySorted_merge_sort; apply _. }
  rewrite /ordered. induction H as [|x l Hl IH Hx]; constructor; [done|]. eapply Forall_impl; [exact Hx|].
  intros y. rewrite /by_sequence /seq_of. lia.
Qed.

Lemma overlay_nodup l : NoDup l.*1 → overlay l = list_to_map l.
Proof.
  intros Hn. apply map_eq_iff. intros i. apply option_eq. intros q. split.
  - intros H. apply elem_of_list_to_map_1; [done|]. by apply overlay_elem.
  - intros H. apply elem_of_list_to_map_2 in H as H'. destruct (overlay l !! i) as [q'|] eqn:E.
    + apply overlay_elem, (elem_of_list_to_map_1 _ _ _ Hn) in E. congruence.
    + by apply (overlay_none _ _ E) in H'.
Qed.

Lemma overlay_sorted_entries m : overlay (sorted_entries m) = m.
Proof.
  assert (NoDup (sorted_entries m).*1) as Hn by (rewrite sorted_entries_perm; apply NoDup_fst_map_to_list).
  rewrite overlay_nodup //. etrans; [|apply list_to_map_to_list]. by apply list_to_map_proper, sorted_entries_perm.
Qed.

Lemma overlay_entries (m : gmap Z Pending) : overlay (entries m) = m.
Proof.
  rewrite overlay_nodup; [apply NoDup_entries|]. etrans; [|apply list_to_map_to_list].
  apply list_to_map_proper; [apply NoDup_entries|apply entries_Permutation].
Qed.

(** ** Appending *)

Lemma append_append x y n : append y (append x n) = append (x ++ y) n.
Proof. by rewrite /append /= app_assoc. Qed.

Lemma append_nil n : append [] n = n.
Proof. rewrite /append app_nil_r. by destruct n. Qed.

Section records.
Context {SHA : Sha256} {JH : Json Header}.

Lemma log_records_spec i (l : list (Z * Pending)) fs n : inodes fs !! i = Some n →
  wp (for_each l (λ e, record i e.1 e.2)) fs (λ r fs', writes i fs fs' ∧
  match r with
  | Ok _ => inodes fs' !! i = Some (append (records l) n)
  | Err e => e = Store ∧ ∃ x, x `prefix_of` records l ∧ inodes fs' !! i = Some (append x n)
  end).
Proof.
  revert fs n. induction l as [|r l IH]; intros fs n Hn; simpl.
  { apply wp_ret. split; [done|]. by rewrite append_nil. }
  wp_step. eapply wp_mono; [by apply write_all_spec|]. intros [[]|e] fs1 [H1 Hn1].
  - eapply wp_mono; [by eapply IH|]. intros [[]|e] fs2 [H2 Hn2]; (split; [by trans fs1|]).
    + by rewrite Hn2 append_append.
    + destruct Hn2 as (-> & x & Hx & ->). split; [done|]. exists (record_bytes r.1 r.2 ++ x).
      split; [by apply prefix_app|]. by rewrite append_append.
  - split; [done|]. destruct Hn1 as (-> & x & Hx & ->). split; [done|]. exists x. split; [|done].
    etrans; [exact Hx|]. by apply prefix_app_r.
Qed.

Lemma header_spec i h fs n : inodes fs !! i = Some n → data n = [] → wp (header i h) fs (λ r fs', writes i fs fs' ∧
  match r with
  | Ok _ => ∃ hb, to_vec h = Some hb ∧ Zlen hb ≤ 4096 ∧ inodes fs' !! i = Some (append (header_bytes hb) n)
  | Err e => True
  end).
Proof.
  intros Hn Hz. assert (∀ b, Zlen (data (append b n)) = Zlen b) as Hlen by (intros b; by rewrite /append /= Hz).
  rewrite /header. wp_step. apply wp_ok_or; [intros hb Hj|done]. wp_step. apply wp_guard; [intros Hl%Z.leb_le|done].
  wp_step. eapply wp_mono; [apply (write_at_spec i 0 MAGIC fs n Hn); by rewrite Hz|]. intros [[]|e] fs1 [H1 Hn1]; [|done].
  wp_step. eapply wp_mono; [eapply write_at_spec; [exact Hn1|by rewrite Hlen]|]. intros [[]|e] fs2 [H2 Hn2]; [|split; [by trans fs1|done]].
  assert (writes i fs fs2) as H12 by (by trans fs1).
  wp_step. eapply wp_mono; [eapply write_at_spec; [exact Hn2|by rewrite append_append Hlen Zlen_app Zlen_to_be_bytes]|]. intros [[]|e] fs3 [H3 Hn3]; [|split; [by trans fs2|done]].
  assert (writes i fs fs3) as H13 by (by trans fs2).
  eapply wp_mono; [eapply write_at_spec; [exact Hn3|rewrite !append_append Hlen !Zlen_app Zlen_to_be_bytes; change (Zlen MAGIC) with 8; lia]|]. intros [[]|e] fs4 [H4 Hn4]; (split; [by trans fs3|]); [|done].
  exists hb. split; [done|]. split; [done|]. by rewrite Hn4 !append_append.
Qed.
End records.

(** ** What a crash may bring back *)
Definition candidate (fs : Fs) (d : gmap string nat) : Prop := d = dir fs ∨ d ∈ past fs.

(** The journals that a crash may bring back are as they were. *)
Record quiet (fs fs' : Fs) : Prop := {
  quiet_inodes : ∀ j n, inodes fs !! j = Some n → inodes fs' !! j = Some n;
  quiet_past : ∀ d', candidate fs' d' → ∃ d, candidate fs d ∧ d' !! "journal" = d !! "journal";
  quiet_dir : dir fs' !! "journal" = dir fs !! "journal";
  quiet_lock : locked fs' = locked fs ∧ dir_private fs' = dir_private fs;
}.

#[export] Instance quiet_preorder : PreOrder quiet.
Proof.
  split.
  - intros fs. split; try done. intros d Hd. by exists d.
  - intros a b c [H1 H2 H3 [H4 H5]] [H1' H2' H3' [H4' H5']]. split; [by auto| |congruence|split; congruence].
    intros d' (d1 & Hd1 & E1)%H2'. apply H2 in Hd1 as (d & Hd & E). exists d. split; [done|congruence].
Qed.

Lemma quiet_plan fs p : quiet fs (set_plan p fs).
Proof. split; try done. intros d Hd. by exists d. Qed.

Lemma quiet_set_dir fs d : d !! "journal" = dir fs !! "journal" → quiet fs (set_dir d fs).
Proof.
  intros Hd. split; try done. intros d' [->|Hd']; [exists (dir fs); split; [by left|done]|].
  exists d'. split; [|done]. apply elem_of_cons in Hd' as [->|]; [by left|by right].
Qed.

Lemma quiet_writes fs0 fs fs' i : inodes fs0 !! i = None → quiet fs0 fs → writes i fs fs' → quiet fs0 fs'.
Proof.
  intros Hi [H1 H2 H3 H4] (Ed & Ep & El & Epr & Hw). split.
  - intros j n Hj. rewrite Hw; [congruence|by auto].
  - intros d' Hd'. apply H2. rewrite /candidate in Hd' |- *. by rewrite Ed Ep in Hd'.
  - congruence.
  - by rewrite El Epr.
Qed.

Lemma secure_spec name fs : wp (secure name) fs (λ _ fs', quiet fs fs').
Proof.
  rewrite /secure. wp_step. apply wp_sys; intros p; [|apply quiet_plan]. wp_step. apply wp_gets.
  destruct (lookup_file _ _); [apply wp_guard; intros _|apply wp_ret]; apply quiet_plan.
Qed.

Lemma remove_file_spec name fs : name ≠ "journal" → wp (remove_file name) fs (λ _ fs', quiet fs fs').
Proof.
  intros Hne. rewrite /remove_file. wp_step. apply wp_sys; intros p; [|apply quiet_plan]. apply wp_modify.
  etrans; [apply (quiet_plan _ p)|]. apply quiet_set_dir. by rewrite lookup_delete_ne.
Qed.

Lemma make_quiet fs name : name ≠ "journal" → wp (make name) fs (λ _ fs', quiet fs fs').
Proof.
  intros Hne. rewrite /wp /make /=. etrans; [|apply quiet_set_dir; by rewrite /= lookup_insert_ne].
  split; [|intros d Hd; by exists d|done|done]. intros j n Hj. rewrite /= lookup_insert_ne //.
  intros <-. by rewrite fresh_inode_None in Hj.
Qed.

Lemma open_lock_spec fs : wp (open_or_create "lock") fs (λ _ fs', quiet fs fs').
Proof.
  rewrite /open_or_create. wp_step. apply wp_sys; intros p; [|apply quiet_plan]. wp_step. apply wp_gets.
  destruct (dir _ !! _); [apply wp_ret, quiet_plan|]. eapply wp_mono; [by apply make_quiet|].
  intros r fs' Hq. by etrans; [apply (quiet_plan _ p)|].
Qed.

(** The first half of a compaction: an empty new file. *)
Lemma new_file_spec fs0 fs name : quiet fs0 fs → name ≠ "journal" →
  wp (create_new name) fs (λ r fs', quiet fs0 fs' ∧ match r with
    | Ok out => inodes fs0 !! out = None ∧ inodes fs' !! out = Some (mkInode [] [] true) ∧ dir fs' !! name = Some out
    | Err _ => True end).
Proof.
  intros Hq Hne. rewrite /create_new. wp_step.
  apply wp_sys; intros p; [|split; [by trans fs; [|apply quiet_plan]|done]].
  wp_step. apply wp_gets. destruct (dir (set_plan p fs) !! name).
  { apply wp_fail. split; [by trans fs; [|apply quiet_plan]|done]. }
  rewrite /wp /make. set (fs1 := set_plan p fs). simpl.
  assert (inodes fs0 !! fresh_inode fs1 = None) as Hf.
  { destruct (inodes fs0 !! fresh_inode fs1) as [n|] eqn:E; [|done].
    apply (quiet_inodes _ _ Hq) in E. change (inodes fs) with (inodes fs1) in E. by rewrite fresh_inode_None in E. }
  split_and!; [|done|by rewrite lookup_insert_eq|by rewrite lookup_insert_eq].
  trans fs; [done|]. etrans; [|apply quiet_set_dir].
  - split; [|intros d Hd; by exists d|done|done]. intros j n Hj. simpl. rewrite lookup_insert_ne //.
    intros <-. change (inodes fs) with (inodes fs1) in Hj. by rewrite fresh_inode_None in Hj.
  - simpl. by rewrite lookup_insert_ne.
Qed.

Section compaction.
Context {SHA : Sha256} {JH : Json Header} {V S : Type} {R : Remote V S}.
Context {SHAL : Sha256Laws} {JHL : JsonLaws Header}.
Variables (id jid : string) (sz : Z).

(** The state under the lock describes the history. *)
Record sem (H : list (Z * Pending)) (w : V) (a : Z) (s : State V) : Prop := {
  sem_vol : h_volume (hdr s) = id;
  sem_id : h_id (hdr s) = jid;
  sem_ack : 0 ≤ acknowledged (hdr s) ≤ a;
  sem_level : a ≤ level jid w;
  sem_acked : acknowledged (hdr s) ≤ sequence s;
  sem_root : known_root jid w (h_base (hdr s));
  sem_pending : pending s = newer a (overlay H);
  sem_seq : ∀ r, r ∈ H → seq_of r ≤ sequence s;
  sem_size : Z.of_nat (base.size (pending s)) * CHUNK_BYTES ≤ DIRTY_LIMIT;
}.

(** The file shows that the sequence [q] was reached. *)
Definition reached (q : Z) (g : Img) : Prop :=
  q ≤ h_sequence (i_h g) ∨ ∃ r, r ∈ i_T1 g ++ i_T2 g ∧ q ≤ seq_of r.

(** The journal of a running disk: exactly the history up to the sequence [q],
    nothing doubtful. *)
Definition exact (H : list (Z * Pending)) (Q q : Z) (w : V) (n : Inode) : Prop :=
  ∃ g, img_ok id jid sz g H [] Q w n ∧ i_X g = [] ∧ i_Hc g ++ i_T1 g ++ i_T2 g = H ∧
    data n = journal (i_hb g) (i_C g ++ i_T1 g ++ i_T2 g) ∧ reached q g ∧ h_sequence (i_h g) ≤ q.

(** A complete, durable journal of [H]. *)
Definition complete (H : list (Z * Pending)) (q : Z) (w : V) (n : Inode) : Prop :=
  ∀ H0 X, H0 `prefix_of` H → H `prefix_of` H0 ++ X → image id jid sz H0 X q w n.

(** Every journal that a crash may bring back satisfies [P]. *)
Definition journals (P : nat → Inode → Prop) (fs : Fs) : Prop :=
  ∀ d, candidate fs d → ∃ j n, d !! "journal" = Some j ∧ inodes fs !! j = Some n ∧ P j n.

Lemma journals_mono (P P' : nat → Inode → Prop) fs : (∀ j n, P j n → P' j n) → journals P fs → journals P' fs.
Proof. intros HP Hd d (j & n & ?&?&?)%Hd. exists j, n. auto. Qed.

Lemma journals_quiet P fs fs' : quiet fs fs' → journals P fs → journals P fs'.
Proof.
  intros Hq Hd d' (d & Hc & E)%(quiet_past _ _ Hq). destruct (Hd d Hc) as (j & n & Hj & Hn & Hi).
  exists j, n. split; [congruence|]. split; [by apply (quiet_inodes _ _ Hq)|done].
Qed.

(** What compaction leaves alone. *)
Definition kept (s s' : State V) : Prop :=
  h_volume (hdr s') = h_volume (hdr s) ∧ h_id (hdr s') = h_id (hdr s) ∧ h_base (hdr s') = h_base (hdr s) ∧
  acknowledged (hdr s') = acknowledged (hdr s) ∧ reader s' = reader s ∧ pending s' = pending s ∧
  sequence s' = sequence s ∧ replication_failed s' = replication_failed s.

(** A freshly written journal, as an image of any history it may stand for. *)
Lemma compacted_image H w a s hb H0 X Q : sem H w a s → ordered H → Forall (whole sz) H →
  to_vec (mkHeader (h_volume (hdr s)) (h_id (hdr s)) (h_base (hdr s)) (acknowledged (hdr s)) (sequence s)) = Some hb →
  Zlen hb ≤ 4096 → H0 `prefix_of` H → H `prefix_of` H0 ++ X → Q ≤ sequence s →
  let b := journal hb (sorted_entries (pending s)) in
  ∃ g, img_ok id jid sz g H0 X Q w (mkInode b b true) ∧ i_X g = [] ∧ i_Hc g ++ i_T1 g ++ i_T2 g = H ∧
    b = journal (i_hb g) (i_C g ++ i_T1 g ++ i_T2 g) ∧ h_sequence (i_h g) = sequence s.
Proof.
  intros Hs Ho Hw Hj Hl H1 H2 HQ b. set (C := sorted_entries (pending s)) in b.
  exists (mkImg (mkHeader (h_volume (hdr s)) (h_id (hdr s)) (h_base (hdr s)) (acknowledged (hdr s)) (sequence s)) hb C H [] [] [] a).
  assert (∀ r, r ∈ C → r ∈ H ∧ acknowledged (hdr s) < seq_of r ≤ sequence s) as HC.
  { intros [i q] Hr%elem_of_sorted_entries. rewrite (sem_pending _ _ _ _ Hs) newer_lookup in Hr.
    destruct Hr as [Hr Hlt]. apply overlay_elem in Hr. split; [done|]. pose proof (sem_seq _ _ _ _ Hs _ Hr).
    destruct (sem_ack _ _ _ _ Hs). rewrite /seq_of in H3 |- *. simpl in *. lia. }
  assert (overlay C = pending s) as HCo by apply overlay_sorted_entries.
  assert (Forall (whole sz) C) as HwC.
  { apply Forall_forall. intros r Hr. apply HC in Hr as [Hr _]. by eapply Forall_forall in Hw. }
  split; [|by rewrite !app_nil_r]. split; cbn [i_h i_hb i_C i_Hc i_T1 i_T2 i_X i_a]; rewrite /i_all; cbn [i_C i_T1 i_T2 i_X];
    rewrite ?app_nil_r; cbn [h_volume h_id h_base acknowledged h_sequence data synced private].
  - exact (sem_vol _ _ _ _ Hs).
  - exact (sem_id _ _ _ _ Hs).
  - exact Hj.
  - exact Hl.
  - exact (sem_ack _ _ _ _ Hs).
  - exact (sem_acked _ _ _ _ Hs).
  - exact (sem_level _ _ _ _ Hs).
  - exact (sem_root _ _ _ _ Hs).
  - done.
  - done.
  - by rewrite HCo (sem_pending _ _ _ _ Hs).
  - apply ordered_sorted_entries.
  - exact HwC.
  - intros r Hr. by apply HC.
  - exact (sem_seq _ _ _ _ Hs).
  - intros r Hr. by apply not_elem_of_nil in Hr.
  - done.
  - done.
  - by left.
  - intros r Hr. by apply not_elem_of_nil in Hr.
  - rewrite HCo. etrans; [|exact (sem_size _ _ _ _ Hs)]. apply Z.mul_le_mono_nonneg_r; [rewrite chunk_value; lia|].
    apply inj_le, map_subseteq_size, map_filter_subseteq.
  - rewrite /journal (Zlen_app (header_bytes hb)) Zlen_header_bytes (Zlen_records sz C HwC) /C Zlen_sorted_entries.
    pose proof (sem_size _ _ _ _ Hs) as Hsz. rewrite /RECORD chunk_value /DIRTY_LIMIT /LOG_LIMIT in Hsz |- *. lia.
  - done.
Qed.

Lemma wp_on_fs {A} (m : M Error Fs A) (s : State V) fs (Q : Result Error A → State V * Fs → Prop) :
  wp m fs (λ r fs', Q r (s, fs')) → wp (on_fs m) (s, fs) Q.
Proof. intros H. by apply wp_zoom. Qed.

(** The state that a compaction writes, and installs on success. *)
Definition stamped (s : State V) : State V :=
  set_hdr (mkHeader (h_volume (hdr s)) (h_id (hdr s)) (h_base (hdr s)) (acknowledged (hdr s)) (sequence s)) s.

(** Writing the new file: [fs] is as it was but for [out]. *)
Definition new_journal_bytes (s : State V) (hb : list Z) : list Z := journal hb (sorted_entries (pending s)).

Lemma fill_spec s fs0 fs out : quiet fs0 fs → inodes fs0 !! out = None →
  inodes fs !! out = Some (mkInode [] [] true) → dir fs !! "journal.new" = Some out →
  wp (header out (hdr (stamped s));; for_each (sorted_entries (pending s)) (λ e, record out e.1 e.2);; sync_all out) fs
    (λ r fs', quiet fs0 fs' ∧ match r with
     | Ok _ => ∃ hb, to_vec (hdr (stamped s)) = Some hb ∧ Zlen hb ≤ 4096 ∧
         inodes fs' !! out = Some (mkInode (new_journal_bytes s hb) (new_journal_bytes s hb) true) ∧
         dir fs' !! "journal.new" = Some out
     | Err _ => True end).
Proof.
  intros Hq Hout Hn Hd. wp_step. eapply wp_mono; [by apply header_spec|].
  intros [[]|e] fs1 [Hw1 H1]; (assert (quiet fs0 fs1) as Hq1 by (by eapply quiet_writes)); [|done].
  destruct H1 as (hb & Hj & Hl & Hn1). wp_step. eapply wp_mono; [by eapply log_records_spec|].
  intros [[]|e] fs2 [Hw2 Hn2]; (assert (quiet fs0 fs2) as Hq2 by (by eapply quiet_writes)); [|done].
  eapply wp_mono; [by eapply sync_all_spec|].
  intros [[]|e] fs3 [Hw3 Hn3]; (assert (quiet fs0 fs3) as Hq3 by (by eapply quiet_writes)); [|done].
  split; [done|]. exists hb. split; [done|]. split; [done|]. split.
  - rewrite Hn3. done.
  - destruct Hw1 as (E1 & _), Hw2 as (E2 & _), Hw3 as (E3 & _). by rewrite E3 E2 E1.
Qed.

(** What compaction leaves of the file system. *)
Definition compacted (s : State V) (fs fs' : Fs) (r : Result Error unit) (s' : State V) : Prop :=
  match r with
  | Ok _ => s' = set_file (file s') (stamped s) ∧ past fs' = [] ∧ dir fs' !! "journal" = Some (file s') ∧
      ∃ hb, to_vec (hdr (stamped s)) = Some hb ∧ Zlen hb ≤ 4096 ∧
        inodes fs' !! file s' = Some (mkInode (new_journal_bytes s hb) (new_journal_bytes s hb) true)
  | Err _ => (s' = s ∨ s' = stamped s) ∧
      (quiet fs fs' ∨ ∃ out hb, to_vec (hdr (stamped s)) = Some hb ∧ Zlen hb ≤ 4096 ∧
        inodes fs' !! out = Some (mkInode (new_journal_bytes s hb) (new_journal_bytes s hb) true) ∧
        inodes fs !! out = None ∧ (∀ j n, inodes fs !! j = Some n → inodes fs' !! j = Some n) ∧
        (∀ d', candidate fs' d' → d' !! "journal" = Some out ∨ ∃ d, candidate fs d ∧ d' !! "journal" = d !! "journal"))
  end.

Lemma compact_inner_spec s fs : wp compact_inner (s, fs) (λ r t,
  compacted s fs t.2 r t.1 ∧ locked t.2 = locked fs ∧ dir_private t.2 = dir_private fs).
Proof.
  assert (∀ fs' e s', quiet fs fs' → s' = s ∨ s' = stamped s →
    compacted s fs fs' (Err e) s' ∧ locked fs' = locked fs ∧ dir_private fs' = dir_private fs) as Hearly.
  { intros fs' e s' Hq Hs. split; [by split; [|left]|]. exact (quiet_lock _ _ Hq). }
  rewrite /compact_inner. wp_step. apply wp_on_fs. eapply wp_mono; [apply secure_spec|].
  intros [[]|e] fs1 Hq1; [|apply Hearly; [done|by left]].
  wp_step. eapply (wp_mono _ _ (λ _ t, t.1 = s ∧ quiet fs t.2)).
  { apply wp_on_fs, wp_exists; intros p; (split; [done|]); (etrans; [exact Hq1|apply quiet_plan]). }
  intros [there|e] [s1 fs1'] [Hs1 Hq1']; simpl in Hs1, Hq1'; subst s1; [|apply Hearly; [done|by left]].
  wp_step. apply (wp_mono _ _ (λ _ t, t.1 = s ∧ quiet fs t.2)).
  { destruct there; [|by apply wp_ret]. apply wp_on_fs. eapply wp_mono; [by apply remove_file_spec|].
    intros r fs2 Hq2. split; [done|by trans fs1']. }
  intros r [s2 fs2] [Hs2 Hq2]. simpl in Hs2, Hq2. subst s2. destruct r as [[]|e]; [|apply Hearly; [done|by left]].
  wp_step. apply wp_on_fs. eapply wp_mono; [by apply (new_file_spec fs)|].
  intros [out|e] fs3 [Hq3 H3]; [|apply Hearly; [done|by left]]. destruct H3 as (Hout & Hn3 & Hd3).
  wp_step. apply wp_modify. wp_step. apply wp_gets. change ((stamped s, fs3).1) with (stamped s).
  assert (∀ (Q : Result Error unit → State V * Fs → Prop) (k : M Error (State V * Fs) unit) s' fs',
    wp (on_fs (header out (hdr (stamped s));; for_each (sorted_entries (pending s)) (λ e, record out e.1 e.2);; sync_all out);; k) (s', fs') Q →
    wp (on_fs (header out (hdr (stamped s)));; on_fs (for_each (sorted_entries (pending s)) (λ e, record out e.1 e.2));; on_fs (sync_all out);; k) (s', fs') Q) as Hgroup.
  { intros Q k s' fs'. rewrite /wp /mbind /M_bind /on_fs /zoom /=. destruct (header out _ fs') as [[[]|e] f1]; [|done]. simpl.
    destruct (for_each _ _ f1) as [[[]|e] f2]; [|done]. simpl. by destruct (sync_all out f2) as [[[]|e] f3]. }
  apply Hgroup. clear Hgroup. wp_step. apply wp_on_fs. eapply wp_mono; [by apply (fill_spec s fs)|].
  intros [[]|e] fs4 [Hq4 H4]; [|apply Hearly; [done|by right]]. destruct H4 as (hb & Hj & Hl & Hn4 & Hd4).
  wp_step. apply wp_on_fs. rewrite /rename. wp_step. apply wp_sys; intros p5; [|apply Hearly; [|by right]; by etrans; [|apply quiet_plan]].
  wp_step. apply wp_gets. change (dir (set_plan p5 fs4)) with (dir fs4). rewrite Hd4. apply wp_modify.
  set (fs5 := set_dir _ _).
  assert (∀ p, compacted s fs (set_plan p fs5) (Err Store) (stamped s) ∧ locked (set_plan p fs5) = locked fs ∧
    dir_private (set_plan p fs5) = dir_private fs) as Hlate.
  { intros p. split; [|exact (quiet_lock _ _ Hq4)]. split; [by right|]. right. exists out, hb. split_and!; try done.
    - intros j n Hj'. by apply (quiet_inodes _ _ Hq4).
    - intros d' [->|Hd']; [left; simpl; by rewrite lookup_insert_eq|right]. apply (quiet_past _ _ Hq4).
      simpl in Hd'. apply elem_of_cons in Hd' as [->|]; [by left|by right]. }
  wp_step. apply wp_on_fs. rewrite /sync_dir. wp_step. apply wp_sys; intros p6; [|apply Hlate].
  wp_step. apply wp_sys; intros p7; [|apply (Hlate p7)]. apply wp_modify. apply wp_modify.
  split; [|exact (quiet_lock _ _ Hq4)]. split_and!; try done; [simpl; by rewrite lookup_insert_eq|]. exists hb. by split_and!.
Qed.

Lemma new_journal_short H w a s hb : sem H w a s → Forall (whole sz) H → Zlen hb ≤ 4096 →
  Zlen (new_journal_bytes s hb) ≤ 12 + 4096 + 64 + Z.of_nat (base.size (pending s)) * RECORD.
Proof.
  intros Hs Hw Hl. rewrite /new_journal_bytes /journal (Zlen_app (header_bytes hb)) Zlen_header_bytes.
  rewrite (Zlen_records sz); [|rewrite Zlen_sorted_entries; lia].
  apply Forall_forall. intros [i q] Hr%elem_of_sorted_entries. rewrite (sem_pending _ _ _ _ Hs) newer_lookup in Hr.
  destruct Hr as [Hr _]. apply overlay_elem in Hr. by eapply Forall_forall in Hw.
Qed.

Definition compact_post (H : list (Z * Pending)) (w : V) (s : State V) (fs : Fs) (r : Result Error unit) (t : State V * Fs) : Prop :=
  kept s t.1 ∧ locked t.2 = locked fs ∧ dir_private t.2 = dir_private fs ∧
  match r with
  | Ok _ => failed t.1 = failed s ∧ local_sequence t.1 = sequence s ∧ past t.2 = [] ∧
      dir t.2 !! "journal" = Some (file t.1) ∧
      ∃ n, inodes t.2 !! file t.1 = Some n ∧ exact H (sequence s) (sequence s) w n ∧ complete H (sequence s) w n ∧
        Zlen (data n) ≤ 12 + 4096 + 64 + Z.of_nat (base.size (pending s)) * RECORD
  | Err _ => failed t.1 = true ∧ local_sequence t.1 = local_sequence s ∧ file t.1 = file s ∧
      (∀ j n, inodes fs !! j = Some n → inodes t.2 !! j = Some n) ∧
      ∀ P : nat → Inode → Prop, (∀ j n, inodes fs !! j = None → complete H (sequence s) w n → P j n) → journals P fs → journals P t.2
  end.

Lemma compact_spec H w a s fs : sem H w a s → ordered H → Forall (whole sz) H →
  wp compact (s, fs) (compact_post H w s fs).
Proof using All.
  intros Hs Ho Hw.
  assert (∀ hb, to_vec (hdr (stamped s)) = Some hb → Zlen hb ≤ 4096 →
    complete H (sequence s) w (mkInode (new_journal_bytes s hb) (new_journal_bytes s hb) true)) as Hcomp.
  { intros hb Hj Hlen H0 X H1 H2.
    destruct (compacted_image H w a s hb H0 X (sequence s) Hs Ho Hw Hj Hlen H1 H2 ltac:(done)) as (g & Hg & _). by exists g. }
  rewrite /compact. wp_step. wp_step. eapply wp_mono; [apply compact_inner_spec|].
  intros [[]|e] [s' fs'] (Hc & Hl & Hp); simpl in *.
  - destruct Hc as (Hs' & Hpast & Hdir & hb & Hj & Hlen & Hn). apply wp_ret.
    assert (kept s s' ∧ failed s' = failed s ∧ local_sequence s' = sequence s) as (Hk & Hf & Hls) by (by rewrite Hs').
    split_and!; try done. eexists. split; [exact Hn|]. split; [|split; [by apply Hcomp|by eapply new_journal_short]].
    destruct (compacted_image H w a s hb H [] (sequence s) Hs Ho Hw Hj Hlen) as (g & Hg & HX & HH & Hb & Hr); [done|by rewrite app_nil_r|done|].
    exists g. split_and!; try done; [by left; rewrite Hr|by rewrite Hr].
  - destruct Hc as [Hs' Hq]. apply wp_bind, wp_modify, wp_fail. simpl.
    split_and!; [by destruct Hs' as [->| ->]|done|done|done|by destruct Hs' as [->| ->]|by destruct Hs' as [->| ->]| |].
    { destruct Hq as [Hq|(out & hb & _ & _ & _ & _ & Hkeep & _)]; [exact (quiet_inodes _ _ Hq)|done]. }
    intros P HP Hd. destruct Hq as [Hq|(out & hb & Hj & Hlen & Hn & Hout & Hkeep & Hcand)]; [by eapply journals_quiet|].
    intros d' [Hd'|(d & Hd1 & Hd2)]%Hcand.
    + exists out. eexists. split; [done|]. split; [exact Hn|]. apply HP; [done|]. by apply Hcomp.
    + destruct (Hd d Hd1) as (j & n & Hj1 & Hn1 & Hi). exists j, n. split; [congruence|]. split; [by apply Hkeep|done].
Qed.
End compaction.
End LocalCompact.
