(* ===== verification/LocalImage.v ===== *)
(** How the journal of a running disk changes: records appended, the file synced,
    the remote's acknowledgement raised. *)
From S2P Require Import Prelude Codec ObjectStore Blocks Files Local LocalLog LocalInv LocalCompact.

Module LocalImage.
Import Files Local LocalLog LocalInv LocalCompact.

Section image.
Context {SHA : Sha256} {JH : Json Header} {V S : Type} {R : Remote V S} {SHAL : Sha256Laws}.
Variables (id jid : string) (sz : Z).

Abbreviation img_ok := (img_ok id jid sz).
Abbreviation image := (image id jid sz).
Abbreviation exact := (exact id jid sz).

Lemma image_lower H X Q Q' w n : Q' ≤ Q → image H X Q w n → image H X Q' w n.
Proof.
  intros HQ [g Hg]. exists g. destruct Hg. split; try eassumption.
  - destruct ok_durable0 as [|(r & ? & ?)]; [left; lia|right; exists r; split; [done|lia]].
  - intros r Hr. specialize (ok_late0 r Hr). lia.
Qed.

(** The doubtful records of a file are doubtful. *)
Lemma img_doubt g H X Q w n r : img_ok g H X Q w n → r ∈ i_X g → r ∈ X.
Proof.
  intros Hg Hr. destruct (ok_hist _ _ _ _ _ _ _ _ _ Hg) as [m Hm], (ok_doubt _ _ _ _ _ _ _ _ _ Hg) as [k Hk].
  rewrite !app_assoc -(app_assoc (i_Hc g)) Hm -!app_assoc in Hk. apply app_inv_head in Hk. rewrite Hk. set_solver.
Qed.

(** A remote root that has acknowledged at least as much. *)
Definition advanced (w w' : V) : Prop :=
  w' = w ∨ level jid w ≤ level jid w' ∧ ∃ r, r_replication w' = Some r ∧ rep_id r = jid.

Lemma known_root_advanced w w' b : advanced w w' → known_root jid w b → known_root jid w' b.
Proof. intros [->|[_ Hr]] Hk; [done|by right]. Qed.

Lemma level_advanced w w' : advanced w w' → level jid w ≤ level jid w'.
Proof. intros [->|[? _]]; lia. Qed.

Lemma img_advanced g H X Q w w' n : advanced w w' → img_ok g H X Q w n → img_ok g H X Q w' n.
Proof.
  intros Ha Hg. pose proof (level_advanced _ _ Ha) as Hl. destruct Hg. split; try eassumption.
  - lia.
  - by eapply known_root_advanced.
  - etrans; [|exact ok_limit0]. apply Z.mul_le_mono_nonneg_r; [rewrite chunk_value; lia|].
    apply inj_le, map_subseteq_size. by apply newer_sub.
Qed.

Lemma image_advanced H X Q w w' n : advanced w w' → image H X Q w n → image H X Q w' n.
Proof. intros Ha [g Hg]. exists g. by eapply img_advanced. Qed.

Lemma exact_advanced H Q q w w' n : advanced w w' → exact H Q q w n → exact H Q q w' n.
Proof. intros Ha (g & Hg & ?). exists g. split; [by eapply img_advanced|done]. Qed.

(** ** Syncing *)
Lemma img_synced g H X Q q w n : img_ok g H X Q w n → reached q g → Q ≤ q → (∀ r, r ∈ X → q < seq_of r) →
  let n' := mkInode (data n) (data n) (private n) in
  let g' := mkImg (i_h g) (i_hb g) (i_C g) (i_Hc g) (i_T1 g ++ i_T2 g) [] (i_X g) (i_a g) in
  img_ok g' H X q w n'.
Proof.
  intros Hg Hq HQ HX n' g'.
  assert (i_all g' = i_all g) as Hall by (by rewrite /i_all /g' /= -!app_assoc).
  pose proof (img_doubt g H X Q w n) as Hd.
  pose proof Hg as Hg0. destruct Hg. split; rewrite ?Hall; cbn [g' i_h i_hb i_C i_Hc i_T1 i_T2 i_X i_a n' data synced private].
  - exact ok_vol0.
  - exact ok_id0.
  - exact ok_json0.
  - exact ok_small0.
  - exact ok_ack0.
  - exact ok_acked0.
  - exact ok_level0.
  - exact ok_root0.
  - by rewrite app_nil_r.
  - by rewrite -!app_assoc.
  - exact ok_compact0.
  - exact ok_ordered0.
  - exact ok_whole0.
  - exact ok_C0.
  - exact ok_Hc0.
  - intros r Hr. apply ok_T0. set_solver.
  - exact ok_data0.
  - rewrite app_nil_r. exact ok_data0.
  - exact Hq.
  - intros r Hr. apply HX, Hd; [done|]. set_solver.
  - exact ok_limit0.
  - exact ok_log0.
  - exact ok_private0.
Qed.

Lemma exact_synced H Q q w n : exact H Q q w n → Q ≤ q →
  exact H q q w (mkInode (data n) (data n) (private n)).
Proof.
  intros (g & Hg & HX & HH & Hb & Hr & Hs) HQ. eexists. split; [apply (img_synced g H [] Q q w n Hg Hr HQ); set_solver|].
  simpl. rewrite app_nil_r. split_and!; try done. rewrite /reached /= app_nil_r. done.
Qed.

(** ** Appending *)
Section append.
Variables (H W : list (Z * Pending)) (Q q : Z) (w : V) (n : Inode) (m : gmap Z Pending).
Hypotheses (Hx : exact H Q q w n) (HW : Forall (whole sz) W) (Hseq : ∀ r, r ∈ W → seq_of r = q + 1) (HQ : Q ≤ q)
  (Hord : ordered H) (Hle : ∀ r, r ∈ H → seq_of r ≤ q)
  (Hm : ∀ i p, newer (level jid w) (overlay H) !! i = Some p → is_Some (m !! i))
  (Hlimit : Z.of_nat (base.size (overlay W ∪ m)) * CHUNK_BYTES ≤ DIRTY_LIMIT)
  (Hlog : Zlen (data n) + Zlen W * RECORD ≤ LOG_LIMIT).

Lemma W_ordered : ordered W.
Proof using Hseq.
  clear - Hseq. rewrite /ordered. induction W as [|r l IH]; constructor; [apply IH; set_solver|].
  apply Forall_forall. intros r' Hr'. rewrite (Hseq r) ?(Hseq r'); [set_solver..|lia].
Qed.

(** What the appended file describes, when [T2] and [X] together are the old
    tail and the new records. *)
Lemma img_appended g H' X T2 X' x : img_ok g H [] Q w n → i_X g = [] → data n = journal (i_hb g) (i_C g ++ i_T1 g ++ i_T2 g) →
  h_sequence (i_h g) ≤ q → i_Hc g ++ i_T1 g ++ i_T2 g = H →
  T2 ++ X' = i_T2 g ++ W → H' `prefix_of` i_Hc g ++ i_T1 g ++ T2 → i_Hc g ++ i_T1 g ++ T2 ++ X' `prefix_of` H' ++ X →
  journal (i_hb g) (i_C g ++ i_T1 g ++ T2) `prefix_of` data n ++ x → x `prefix_of` records W →
  img_ok (mkImg (i_h g) (i_hb g) (i_C g) (i_Hc g) (i_T1 g) T2 X' (i_a g)) H' X Q w (append x n).
Proof using All.
  intros Hg HX0 Hb Hsq HH HT Hh Hd Hd1 Hd2.
  assert (i_C g ++ i_T1 g ++ T2 ++ X' = i_all g ++ W) as Hall.
  { by rewrite /i_all HX0 app_nil_r HT -!app_assoc. }
  assert (∀ r, r ∈ i_all g → seq_of r ≤ q) as Hold.
  { intros r Hr. rewrite /i_all HX0 app_nil_r !elem_of_app in Hr. destruct Hr as [Hr|Hr].
    - destruct (ok_C _ _ _ _ _ _ _ _ _ Hg r Hr). lia.
    - apply Hle. rewrite -HH. set_solver. }
  assert (ordered (i_all g ++ W)) as HoW.
  { apply ordered_app. split_and!; [exact (ok_ordered _ _ _ _ _ _ _ _ _ Hg)|apply W_ordered|].
    intros r r' Hr Hr'. rewrite (Hseq r') //. specialize (Hold r Hr). lia. }
  destruct Hg. split; rewrite /i_all; cbn [i_h i_hb i_C i_Hc i_T1 i_T2 i_X i_a append data synced private]; rewrite ?Hall.
  - exact ok_vol0.
  - exact ok_id0.
  - exact ok_json0.
  - exact ok_small0.
  - exact ok_ack0.
  - exact ok_acked0.
  - exact ok_level0.
  - exact ok_root0.
  - done.
  - done.
  - exact ok_compact0.
  - done.
  - by apply Forall_app.
  - exact ok_C0.
  - exact ok_Hc0.
  - intros r Hr. rewrite HT in Hr. rewrite !elem_of_app in Hr. rewrite HX0 in ok_T0.
    destruct Hr as [Hr|[Hr|Hr]]; [apply ok_T0; set_solver..|rewrite (Hseq r) //; lia].
  - destruct ok_synced0 as [Hs1 Hs2]. split; [done|]. etrans; [exact Hs2|]. apply journal_mono.
  - split; [done|]. rewrite (journal_app (i_hb g) (i_all g)) Hb /i_all HX0 app_nil_r. by apply prefix_app.
  - exact ok_durable0.
  - intros r Hr. rewrite HT in Hr. rewrite HX0 in ok_late0. apply elem_of_app in Hr as [Hr|Hr].
    + apply ok_late0. set_solver.
    + rewrite (Hseq r) //. lia.
  - etrans; [|exact Hlimit]. apply Z.mul_le_mono_nonneg_r; [rewrite chunk_value; lia|]. apply inj_le, size_sub.
    intros i Hi. apply elem_of_dom in Hi as [p Hp]. apply newer_lookup in Hp as [Hp Hlv].
    rewrite overlay_app lookup_union_Some_raw in Hp. apply elem_of_dom. rewrite lookup_union.
    destruct Hp as [->|[-> Hp]]; [by destruct (m !! i)|].
    destruct (Hm i p) as [p' ->]; [|done]. rewrite -HH (overlay_app (i_Hc g)) -(newer_compact (i_a g)) // -ok_compact0 -overlay_app.
    apply newer_lookup. split; [|done]. by rewrite /i_all HX0 app_nil_r in Hp.
  - rewrite journal_app Zlen_app (Zlen_records sz) //. pose proof Hlog as Hl. rewrite Hb in Hl. rewrite /i_all HX0 app_nil_r. exact Hl.
  - exact ok_private0.
Qed.

(** All the records are written. *)
Lemma exact_append : W ≠ [] → exact (H ++ W) Q (q + 1) w (append (records W) n).
Proof using All.
  intros HWn. destruct Hx as (g & Hg & HX0 & HH & Hb & Hr & Hsq).
  assert (data n ++ records W = journal (i_hb g) (i_C g ++ i_T1 g ++ i_T2 g ++ W)) as Hd.
  { rewrite Hb -journal_app. by rewrite -!app_assoc. }
  eexists. split; [apply (img_appended g (H ++ W) [] (i_T2 g ++ W) [] (records W)); try done|].
  - by rewrite app_nil_r.
  - by rewrite -HH -!app_assoc.
  - by rewrite !app_nil_r -HH -!app_assoc.
  - by rewrite Hd.
  - cbn [i_h i_hb i_C i_Hc i_T1 i_T2 i_X append data]. split_and!; [done|by rewrite -HH -!app_assoc|done| |lia].
    right. destruct W as [|r l]; [done|]. exists r. cbn [i_T1 i_T2]. split; [set_solver|]. rewrite (Hseq r); [set_solver|lia].
Qed.

(** A failed write: some of them, perhaps torn. *)
Lemma torn_append x : x `prefix_of` records W → ∃ g, img_ok g H W Q w (append x n) ∧ reached q g.
Proof using All.
  intros Hpre. destruct Hx as (g & Hg & HX0 & HH & Hb & Hr & Hsq).
  eexists. split; [apply (img_appended g H W (i_T2 g) W x); try done|].
  - by rewrite HH.
  - by rewrite -HH -!app_assoc.
  - rewrite -Hb. by apply prefix_app_r.
  - exact Hr.
Qed.
End append.
End image.
End LocalImage.
