(* ===== verification/LocalSpec.v ===== *)
(** What a local-durable disk promises, as an abstract machine over the history of
    block writes, and the histories of [LocalLog] seen without their sequence
    numbers. *)
From S2P Require Import Prelude Codec ObjectStore Blocks Files Local LocalLog LocalCompact.

Module LocalSpec.
Import Local LocalLog LocalCompact.

Abbreviation Block := (Z * list Z)%type.

(** The disk after a history of block writes. *)
Definition apply_blocks (d : Disk) (l : list Block) : Disk :=
  fold_left (λ d b, disk_write d (b.1 * CHUNK_BYTES) b.2) l d.
(** The blocks that [len > 0] bytes at [at_] touch. *)
Definition touched (at_ len : Z) : list Z :=
  seqZ (at_ / CHUNK_BYTES) ((at_ + len - 1) / CHUNK_BYTES - at_ / CHUNK_BYTES + 1).
(** A write, block by block. *)
Definition block_writes (d : Disk) (at_ : Z) (input : list Z) : list Block :=
  match input with
  | [] => []
  | _ => map (λ i, (i, disk_read (disk_write d at_ input) (i * CHUNK_BYTES) CHUNK_BYTES)) (touched at_ (Zlen input))
  end.

(** *** The machine

    [durable] survives a crash; of [tail] and then of [doubt] (the blocks of a
    write that failed) a crash keeps an initial part.  [remote] is what the remote
    volume holds, [target] the history that a running replication sends. *)
Inductive Mode := Up | Failed | Down.
Record Spec := mkSpec {
  mode : Mode; durable : list Block; tail : list Block; doubt : list Block;
  remote : list Block; target : list Block;
}.
Definition written (p : Spec) : list Block := durable p ++ tail p.

Inductive Label :=
| LOpen (r : Result Error unit)
| LRead (at_ len : Z) (r : Result Error (list Z))
| LWrite (at_ : Z) (input : list Z) (r : Result Error unit)
| LFlush (r : Result Error unit)
| LSync (r : Result Error bool)
| LSnapshot (r : Result Error bool)
| LPush (r : Result Error unit)
| LFinish (r : Result Error unit)
| LCompact (r : Result Error Compaction)
| LTau | LClose | LCrash.

Section spec.
Variables (sz : Z) (D0 : Disk).

Definition content_of (p : Spec) : Disk := apply_blocks D0 (written p).
Definition synced_spec (p : Spec) : Spec := mkSpec (mode p) (written p) [] (doubt p) (remote p) (target p).
Definition set_mode (m : Mode) (p : Spec) : Spec := mkSpec m (durable p) (tail p) (doubt p) (remote p) (target p).
Definition set_remote (l : list Block) (p : Spec) : Spec := mkSpec (mode p) (durable p) (tail p) (doubt p) l (target p).
Definition set_target (l : list Block) (p : Spec) : Spec := mkSpec (mode p) (durable p) (tail p) (doubt p) (remote p) l.
Definition set_tail (l : list Block) (p : Spec) : Spec := mkSpec (mode p) (durable p) l (doubt p) (remote p) (target p).
Definition set_doubt (l : list Block) (p : Spec) : Spec := mkSpec Failed (durable p) (tail p) l (remote p) (target p).

(** Nothing changes, or the disk is retired until it is opened again. *)
Definition retired (p p' : Spec) : Prop := p' = p ∨ mode p = Up ∧ p' = set_mode Failed p.

Inductive allowed : Spec → Label → Spec → Prop :=
| sp_open p kept : mode p = Down → durable p ++ kept `prefix_of` durable p ++ tail p ++ doubt p →
    allowed p (LOpen (Ok tt)) (mkSpec Up (durable p ++ kept) [] [] (remote p) (target p))
| sp_open_err p e : allowed p (LOpen (Err e)) p
| sp_read p at_ len : mode p = Up → 0 ≤ at_ → 0 ≤ len → at_ + len ≤ sz →
    allowed p (LRead at_ len (Ok (disk_read (content_of p) at_ len))) p
| sp_read_err p at_ len e : allowed p (LRead at_ len (Err e)) p
| sp_write p at_ input : mode p = Up → 0 ≤ at_ → at_ + Zlen input ≤ sz →
    allowed p (LWrite at_ input (Ok tt)) (set_tail (tail p ++ block_writes (content_of p) at_ input) p)
| sp_write_reject p at_ input e : allowed p (LWrite at_ input (Err e)) p
| sp_write_fail p at_ input e : mode p = Up → 0 ≤ at_ → at_ + Zlen input ≤ sz →
    allowed p (LWrite at_ input (Err e)) (set_doubt (block_writes (content_of p) at_ input) p)
| sp_flush p : mode p = Up → allowed p (LFlush (Ok tt)) (synced_spec p)
| sp_flush_err p p' e : retired p p' → allowed p (LFlush (Err e)) p'
| sp_sync p : mode p = Up → allowed p (LSync (Ok true)) p
| sp_sync_nothing p : mode p = Up → remote p = written p → allowed p (LSync (Ok false)) p
| sp_sync_err p e : allowed p (LSync (Err e)) p
| sp_snapshot p : mode p ≠ Down → allowed p (LSnapshot (Ok true)) (set_target (written p) (synced_spec p))
| sp_snapshot_nothing p : mode p ≠ Down → remote p = written p → allowed p (LSnapshot (Ok false)) (synced_spec p)
| sp_snapshot_err p p' e : retired p p' → allowed p (LSnapshot (Err e)) p'
| sp_push p : allowed p (LPush (Ok tt)) (set_remote (target p) p)
| sp_push_err p e : allowed p (LPush (Err e)) p
| sp_push_uncertain p e : allowed p (LPush (Err e)) (set_remote (target p) p)
| sp_finish p : remote p = target p → allowed p (LFinish (Ok tt)) p
| sp_finish_err p p' e : retired p p' → allowed p (LFinish (Err e)) p'
| sp_compact p c : mode p = Up → remote p = written p → allowed p (LCompact (Ok c)) (synced_spec p)
| sp_compact_nothing p c : mode p = Up → remote p = written p → rewritten_blocks c = 0 → allowed p (LCompact (Ok c)) p
| sp_compact_err p p' e : retired p p' → allowed p (LCompact (Err e)) p'
| sp_tau p : allowed p LTau p
| sp_close p : mode p ≠ Down → allowed p LClose (set_mode Down p)
| sp_crash p : allowed p LCrash (set_mode Down p).

Inductive trace : Spec → list Label → Spec → Prop :=
| trace_nil p : trace p [] p
| trace_step p l p' ls p'' : trace p ls p' → allowed p' l p'' → trace p (ls ++ [l]) p''.
End spec.

(** What the remote volume holds is durable on the host as well. *)
Lemma remote_durable sz D0 p ls p' : trace sz D0 p ls p' →
  remote p `prefix_of` durable p ∧ target p `prefix_of` durable p →
  remote p' `prefix_of` durable p' ∧ target p' `prefix_of` durable p'.
Proof.
  intros Ht Hp. induction Ht as [|p l p' ls p'' Ht IH Ha]; [done|]. specialize (IH Hp) as [H1 H2].
  assert (remote p' `prefix_of` written p' ∧ target p' `prefix_of` written p') as [H3 H4].
  { split; by apply prefix_app_r. }
  destruct Ha; try done; try (split; by apply prefix_app_r); try (destruct H as [->|[_ ->]]; done); try (split; done).
Qed.

Lemma disk_read_ext (d d' : Disk) at_ len : (∀ q, d q = d' q) → disk_read d at_ len = disk_read d' at_ len.
Proof. intros H. rewrite /disk_read. apply list_fmap_ext. intros. apply H. Qed.

Lemma block_writes_ext (d d' : Disk) at_ input : (∀ q, d q = d' q) → block_writes d at_ input = block_writes d' at_ input.
Proof.
  intros H. rewrite /block_writes. destruct input; [done|]. apply map_ext. intros i. apply (f_equal (pair i)), disk_read_ext.
  intros q. rewrite /disk_write. by case_decide.
Qed.

(** ** Histories without sequence numbers *)
Definition strip (l : list rec) : list Block := map (λ r, (r.1, p_bytes r.2)) l.

Lemma strip_app l k : strip (l ++ k) = strip l ++ strip k.
Proof. apply map_app. Qed.

Lemma apply_blocks_app d l k : apply_blocks d (l ++ k) = apply_blocks (apply_blocks d l) k.
Proof. apply fold_left_app. Qed.

Lemma disk_write_block d i b p : Zlen b = CHUNK_BYTES →
  disk_write d (i * CHUNK_BYTES) b p = if decide (p / CHUNK_BYTES = i) then index b (p mod CHUNK_BYTES) else d p.
Proof.
  intros Hb. rewrite /disk_write Hb. destruct (chunk_pos p) as [Hp Hm]. pose proof chunk_bytes_pos.
  set (q := p / CHUNK_BYTES) in *. set (m := p mod CHUNK_BYTES) in *.
  destruct (decide (q = i)) as [->|Hne]; [rewrite decide_True; [lia|]; f_equal; lia|].
  rewrite decide_False //. nia.
Qed.

Lemma lay_strip d l p : Forall (λ r, Zlen (p_bytes r.2) = CHUNK_BYTES) l → lay d (overlay l) p = apply_blocks d (strip l) p.
Proof.
  induction l as [|r l IH] using rev_ind; intros Hl; [done|]. apply Forall_app in Hl as [Hl Hr].
  apply Forall_cons in Hr as [Hr _]. rewrite strip_app apply_blocks_app /= disk_write_block // overlay_snoc /lay.
  case_decide as Hd; [by rewrite Hd lookup_insert_eq|]. rewrite lookup_insert_ne //. by apply IH.
Qed.

Lemma whole_lengths sz l : Forall (whole sz) l → Forall (λ r, Zlen (p_bytes r.2) = CHUNK_BYTES) l.
Proof. intros H. eapply Forall_impl; [exact H|]. by intros r (_ & _ & ? & _). Qed.

(** ** The blocks of a write *)
Lemma NoDup_touched at_ len : NoDup (touched at_ len).
Proof. apply NoDup_seqZ. Qed.

Lemma elem_of_touched at_ len i : 0 ≤ at_ → 0 < len →
  i ∈ touched at_ len ↔ at_ / CHUNK_BYTES ≤ i ∧ i * CHUNK_BYTES < at_ + len.
Proof.
  intros Hat Hl. rewrite /touched elem_of_seqZ. pose proof chunk_bytes_pos as HC. destruct (chunk_pos (at_ + len - 1)) as [H1 H2].
  split; intros [? ?]; (split; [done|]); [nia|].
  assert (i ≤ (at_ + len - 1) / CHUNK_BYTES); [|lia]. apply Z.div_le_lower_bound; lia.
Qed.

Lemma touched_range sz at_ len i : 0 ≤ at_ → 0 < len → at_ + len ≤ sz → sz mod CHUNK_BYTES = 0 →
  i ∈ touched at_ len → 0 ≤ i < sz / CHUNK_BYTES ∧ 0 ≤ i * CHUNK_BYTES ∧ i * CHUNK_BYTES + CHUNK_BYTES ≤ sz.
Proof.
  intros Hat Hl Hle Hal [H1 H2]%elem_of_touched; [|done..]. pose proof chunk_bytes_pos.
  assert (0 ≤ i) by (etrans; [|exact H1]; apply Z.div_pos; lia).
  assert (i < sz / CHUNK_BYTES) by (apply chunk_index_lt; [done|lia]).
  destruct (chunk_pos sz) as [Hs _]. split_and!; [done|done|nia|nia].
Qed.

Lemma Zlen_touched at_ len : 0 ≤ at_ → 0 < len → Zlen (touched at_ len) * CHUNK_BYTES < len + 2 * CHUNK_BYTES.
Proof.
  intros Hat Hl. rewrite /Zlen length_seqZ. pose proof chunk_bytes_pos as HC.
  destruct (chunk_pos at_) as [Ha ?], (chunk_pos (at_ + len - 1)) as [Hb ?].
  assert (at_ / CHUNK_BYTES ≤ (at_ + len - 1) / CHUNK_BYTES) by (apply Z.div_le_mono; lia). nia.
Qed.

Lemma entries_seqZ {A} (m : gmap Z A) (f : Z → A) a n : (∀ i, m !! i = if decide (a ≤ i < a + n) then Some (f i) else None) →
  entries m = map (λ i, (i, f i)) (seqZ a n).
Proof.
  intros Hm. assert (NoDup (entries m)) as Hn1 by (eapply NoDup_fmap_1, NoDup_entries).
  assert (NoDup (map (λ i, (i, f i)) (seqZ a n))) as Hn2.
  { apply NoDup_fmap_2; [by intros ?? [= ->]|apply NoDup_seqZ]. }
  assert (entries m ≡ₚ map (λ i, (i, f i)) (seqZ a n)) as Hp.
  { apply NoDup_Permutation; [done..|]. intros [i x]. rewrite elem_of_entries Hm list_elem_of_fmap. split.
    - case_decide as Hd; [|done]. intros [= <-]. exists i. split; [done|]. by apply elem_of_seqZ.
    - intros (j & [= -> ->] & Hj%elem_of_seqZ). by rewrite decide_True. }
  apply (StronglySorted_unique_strong key_le); [| | |done].
  - intros [i x] [j y] Hx Hy H1 H2. rewrite /key_le /= in H1 H2. assert (i = j) as -> by lia.
    apply elem_of_entries in Hx. rewrite -Hp in Hy. apply elem_of_entries in Hy. congruence.
  - apply StronglySorted_merge_sort; [|intros x y; rewrite /key_le; lia]. intros x y z. rewrite /key_le. lia.
  - clear. rewrite /seqZ map_map. generalize (Z.to_nat n). intros k. set (g := λ x : nat, Z.of_nat x + a).
    assert (∀ b, StronglySorted key_le (map (λ x, (g x, f (g x))) (seq b k))) as H; [|exact (H 0%nat)].
    induction k as [|k IH]; intros b; simpl; constructor; [apply IH|].
    apply Forall_forall. intros x (y & -> & Hy%elem_of_seq)%list_elem_of_fmap. rewrite /key_le /g /=. lia.
Qed.

Lemma Zlen_strip l : Zlen (strip l) = Zlen l.
Proof. by rewrite /Zlen /strip length_map. Qed.

Lemma Zlen_block_writes d at_ input : input ≠ [] → Zlen (block_writes d at_ input) = Zlen (touched at_ (Zlen input)).
Proof. rewrite /block_writes. destruct input; [done|]. intros _. by rewrite /Zlen length_map. Qed.

(** What [write] stages is the write block by block. *)
Lemma staged_blocks_of sz d d' at_ input m q : 0 ≤ at_ → 0 < Zlen input → at_ + Zlen input ≤ sz → sz mod CHUNK_BYTES = 0 →
  disk_eq sz d d' → staged (disk_write d at_ input) at_ (Zlen input) m →
  strip (entries (mkPending q <$> m)) = block_writes d' at_ input ∧
  (∀ i, is_Some (m !! i) ↔ i ∈ touched at_ (Zlen input)).
Proof.
  intros Hat Hl Hle Hal Hd [H1 H2].
  assert (∀ i, is_Some (m !! i) ↔ i ∈ touched at_ (Zlen input)) as Hdom.
  { intros i. rewrite elem_of_touched //. split; [intros [b Hb]; by destruct (H1 i b Hb) as (? & ? & _)|].
    intros [? ?]. by apply H2. }
  split; [|done]. set (val := λ i, disk_read (disk_write d' at_ input) (i * CHUNK_BYTES) CHUNK_BYTES).
  rewrite (entries_seqZ (mkPending q <$> m) (λ i, mkPending q (val i)) (at_ / CHUNK_BYTES)
    ((at_ + Zlen input - 1) / CHUNK_BYTES - at_ / CHUNK_BYTES + 1)).
  - intros i. rewrite lookup_fmap. pose proof (Hdom i) as Hi. rewrite /touched elem_of_seqZ in Hi.
    destruct (m !! i) as [b|] eqn:Eb.
    + rewrite decide_True; [by apply Hi|]. simpl. do 2 f_equal. destruct (H1 i b Eb) as (_ & _ & Hb & Hk).
      destruct (touched_range sz at_ (Zlen input) i) as (? & ? & ?); [done..| |]; [by apply Hdom; rewrite Eb|].
      pose proof chunk_bytes_pos. apply list_index_eq; [rewrite /val Zlen_disk_read; lia|]. rewrite Hb. intros k Hkk.
      rewrite Hk // /val index_disk_read // /disk_write. case_decide; [done|]. apply Hd. lia.
    + rewrite decide_False //. intros Hin. apply Hi in Hin as [? ?]. done.
  - rewrite /strip map_map /block_writes. by destruct input.
Qed.
End LocalSpec.
