(* ===== verification/LocalRun.v ===== *)
(** The running local-durable disk: the invariant that ties the state under the
    lock, the journal files and the remote volume to the history of the guest's
    writes, and its preservation by every operation. *)
From S2P Require Import Prelude Codec ObjectStore Blocks Files Local LocalLog LocalInv LocalCompact LocalImage LocalSpec.

Module LocalRun.
Import Files Local LocalLog LocalInv LocalCompact LocalImage LocalSpec.

Section run.
Context {SHA : Sha256} {JH : Json Header} {V S : Type} {R : Remote V S} {RL : RemoteLaws V S}.
Context {SHAL : Sha256Laws} {JHL : JsonLaws Header}.
Variables (id jid : string) (sz : Z) (D0 : Disk).
Hypotheses (Hsz : 0 < sz ≤ 2 ^ 50) (Halign : sz mod CHUNK_BYTES = 0) (HD0 : ∀ p, 0 ≤ p < sz → is_byte (D0 p))
  (Hjid : String.length jid = 64%nat ∧ string_all is_ascii_hexdigit jid = true).

Abbreviation log_ok := (log_ok sz).
Abbreviation level := (level jid).
Abbreviation image := (image id jid sz).
Abbreviation img_ok := (img_ok id jid sz).
Abbreviation exact := (exact id jid sz).
Abbreviation sem := (sem id jid).
Implicit Types (H X : list (Z * Pending)) (st : S) (w : V) (s : State V) (fs : Fs).

(** The disk after a history. *)
Definition content H : Disk := lay D0 (overlay H).
(** The part of it that the remote root [w] holds. *)
Definition replicated (w : V) H : Disk := content (upto (level w) H).

(** The remote head is [w]; it holds the history up to a point that is durable
    on the host. *)
Record remote_ok (st : S) (w : V) H (Q : Z) : Prop := {
  rm_good : good st id w;
  rm_based : based st id w;
  rm_clean : clean w;
  rm_size : r_size w = sz;
  rm_disk : disk_eq sz (view st w) (replicated w H);
  rm_level : 0 ≤ level w ≤ Q;
}.

(** A journal that a crash may bring back while the disk runs. *)
Definition live_journal (s : State V) w H X (j : nat) (n : Inode) : Prop :=
  if decide (j = file s) then ∃ g, img_ok g H X (local_sequence s) w n ∧ reached (sequence s) g
  else image H X (sequence s) w n.

Record live_ok (s : State V) fs st w H X : Prop := {
  lv_sem : ∃ a, sem H w a s ∧ a ≤ level (reader s);
  lv_log : log_ok H X (sequence s);
  lv_remote : remote_ok st w H (local_sequence s);
  lv_reader : good st id (reader s) ∧ r_size (reader s) = sz;
  lv_view : disk_eq sz (view st (reader s)) (replicated (reader s) H);
  lv_level : level (reader s) ≤ sequence s;
  lv_local : local_sequence s ≤ sequence s;
  lv_journals : journals (live_journal s w H X) fs;
  lv_file : is_Some (inodes fs !! file s);
  lv_exact : failed s = false → X = [] ∧ (∀ d, candidate fs d → d !! "journal" = Some (file s)) ∧
    ∃ n, inodes fs !! file s = Some n ∧ exact H (local_sequence s) (sequence s) w n;
}.

(** ** Compaction and syncing *)
Lemma sem_kept H w a s s' : kept s s' → sem H w a s → sem H w a s'.
Proof using All.
  intros (K1 & K2 & K3 & K4 & K5 & K6 & K7 & K8) []. split; rewrite ?K1 ?K2 ?K3 ?K4 ?K6 ?K7; done.
Qed.

Lemma compact_live s fs st w H X : live_ok s fs st w H X → wp compact (s, fs) (λ r t,
  kept s t.1 ∧ locked t.2 = locked fs ∧ dir_private t.2 = dir_private fs ∧
  match r with
  | Ok _ => live_ok t.1 t.2 st w H [] ∧ failed t.1 = failed s ∧ local_sequence t.1 = sequence s ∧
      ∃ n, inodes t.2 !! file t.1 = Some n ∧ Zlen (data n) ≤ 12 + 4096 + 64 + Z.of_nat (base.size (pending s)) * RECORD
  | Err _ => live_ok t.1 t.2 st w H X ∧ failed t.1 = true ∧ local_sequence t.1 = local_sequence s
  end).
Proof using All.
  intros Hl. destruct (lv_sem _ _ _ _ _ _ Hl) as (a & Hsem & Ha).
  destruct (log_prefix _ _ _ _ (lv_log _ _ _ _ _ _ Hl)) as (Ho & Hw & Hlog').
  eapply wp_mono; [by apply (compact_spec id jid sz H w a s fs)|].
  intros r [s' fs'] (Hk & Hlk & Hpr & Hpost). split; [done|]. split; [done|]. split; [done|].
  pose proof Hk as (K1 & K2 & K3 & K4 & K5 & K6 & K7 & K8). simpl in K1, K2, K3, K4, K5, K6, K7, K8.
  assert (∃ a, sem H w a s' ∧ a ≤ level (reader s)) as Hsem' by (exists a; split; [by eapply sem_kept|done]).
  destruct r as [[]|e]; cbn [fst snd] in *.
  - destruct Hpost as (Hf & Hls & Hpast & Hdir & n & Hn & Hex & Hcomp & Hlen).
    split; [|split; [done|split; [done|by exists n]]].
    destruct Hl. split; rewrite ?K5 ?K7; try done.
    + destruct lv_remote0. split; try done. rewrite Hls. destruct rm_level0. split; [done|]. lia.
    + lia.
    + intros d Hd. rewrite /candidate Hpast in Hd. destruct Hd as [->|Hd]; [|by apply not_elem_of_nil in Hd].
      exists (file s'), n. split_and!; [done|done|]. rewrite /live_journal decide_True // Hls K7.
      destruct Hex as (g & Hg & _ & _ & _ & Hr & _). by exists g.
    + intros _. split_and!; [done| |].
      { intros d Hd. rewrite /candidate Hpast in Hd. destruct Hd as [->|Hd]; [done|by apply not_elem_of_nil in Hd]. }
      exists n. split; [done|]. by rewrite Hls.
  - destruct Hpost as (Hf & Hls & Hfile & Hkeep & Hj). split; [|done].
    destruct Hl. split; rewrite ?K5 ?K7 ?Hls; try done.
    + apply Hj; [|].
      * intros j n Hnone Hc. rewrite /live_journal decide_False.
        { intros ->. rewrite Hfile in Hnone. destruct lv_file0 as [? Hx]. by rewrite Hx in Hnone. }
        rewrite K7. apply Hc; [done|by apply prefix_app_r].
      * eapply journals_mono; [|exact lv_journals0]. intros j n. by rewrite /live_journal Hfile Hls K7.
    + rewrite Hfile. destruct lv_file0 as [n Hn]. exists n. by apply Hkeep.
    + by rewrite Hf.
Qed.

(** Syncing the journal: everything so far is durable. *)
Lemma sync_journal_live s fs st w H X : live_ok s fs st w H X → wp sync_journal (s, fs) (λ r t,
  locked t.2 = locked fs ∧ dir_private t.2 = dir_private fs ∧ live_ok t.1 t.2 st w H X ∧
  match r with
  | Ok _ => t.1 = set_synced s
  | Err _ => t.1 = set_failed s
  end).
Proof using All.
  intros Hl. destruct (lv_file _ _ _ _ _ _ Hl) as [n Hn]. rewrite /sync_journal. wp_step. apply wp_gets. wp_step. apply wp_try, wp_on_fs.
  eapply wp_mono; [by apply sync_all_spec|]. intros r fs' [Hw Hr]. pose proof Hw as (Ed & Ep & El & Epr & Eo).
  simpl in Hr, Hw. change ((s, fs).1) with s in *.
  assert (∀ d, candidate fs' d ↔ candidate fs d) as Hcand by (intros d; by rewrite /candidate Ed Ep).
  destruct Hl. destruct r as [[]|e].
  - apply wp_modify. split; [done|]. split; [done|]. split; [|done]. cbn [fst snd set_synced].
    split; cbn [set_synced hdr file reader pending sequence local_sequence failed].
    + destruct lv_sem0 as (a & Hs & Ha). exists a. split; [|done]. by destruct Hs.
    + done.
    + destruct lv_remote0. split; try done. lia.
    + done.
    + done.
    + done.
    + done.
    + intros d Hd. apply Hcand in Hd. destruct (lv_journals0 d Hd) as (j & m & Hj & Hm & Hi). exists j.
      rewrite /live_journal /= in Hi |- *. destruct (decide (j = file s)) as [->|Hne].
      * rewrite Hn in Hm. injection Hm as <-. destruct Hi as (g & Hg & Hrg). eexists. split; [done|]. split; [exact Hr|].
        eexists. split; [apply (img_synced id jid sz g H X (local_sequence s) (sequence s) w n Hg Hrg lv_local0)|].
        { apply (log_doubt _ _ _ _ lv_log0). }
        rewrite /reached /= app_nil_r. exact Hrg.
      * exists m. split; [done|]. split; [by rewrite Eo|done].
    + by eexists.
    + intros Hf. destruct (lv_exact0 Hf) as (-> & Hd & m & Hm & Hex). split; [done|]. split; [intros d ?; by apply Hd, Hcand|].
      rewrite Hn in Hm. injection Hm as <-. eexists. split; [exact Hr|]. by eapply exact_synced.
  - destruct Hr as [-> Hr]. wp_step. apply wp_modify, wp_fail. split; [done|]. split; [done|]. split; [|done]. cbn [fst snd set_failed].
    split; cbn [set_failed hdr file reader pending sequence local_sequence failed]; try done.
    + destruct lv_sem0 as (a & Hs & Ha). exists a. split; [|done]. by destruct Hs.
    + intros d Hd. apply Hcand in Hd. destruct (lv_journals0 d Hd) as (j & m & Hj & Hm & Hi). exists j, m.
      split; [done|]. split; [|done]. destruct (decide (j = file s)) as [->|Hne]; [congruence|by rewrite Eo].
Qed.

(** ** Accepting a remote *)
Lemma accept_sem s s' w H a : sem H w a s → accept w s = Ok s' → (∃ a', sem H w a' s') ∧
  reader s' = w ∧ failed s' = failed s ∧ sequence s' = sequence s ∧ local_sequence s' = local_sequence s ∧
  file s' = file s.
Proof using All.
  intros Hs. pose proof Hs as Hs0. destruct Hs.
  rewrite /accept. set (ack := if bool_decide _ then _ else _). destruct ack as [k|] eqn:Ek; [|done]. intros [= <-].
  assert (0 ≤ k ≤ sequence s ∧ k ≤ level w) as [[Hk0 Hk1] Hk2].
  { rewrite /ack in Ek. case_bool_decide; [injection Ek as <-; lia|].
    destruct (r_replication w) as [rp|] eqn:Er; [|done]. case_match eqn:Eb; [|done]. injection Ek as <-.
    apply andb_prop in Eb as [[Hid%bool_decide_eq_true Hb1%Z.leb_le]%andb_prop Hb2%Z.leb_le].
    rewrite /level /LocalInv.level Er bool_decide_true; [congruence|lia]. }
  split; [|done]. exists (Z.max a k).
  split; cbn [hdr file reader pending sequence local_sequence h_volume h_id h_base acknowledged]; try done; try lia.
  - by left.
  - rewrite sem_pending0. change (filter _ _) with (newer k (newer a (overlay H))). rewrite newer_newer. f_equal. lia.
  - etrans; [|exact sem_size0]. apply Z.mul_le_mono_nonneg_r; [rewrite chunk_value; lia|].
    apply inj_le, map_subseteq_size, map_filter_subseteq.
Qed.

Lemma accept_live s s' fs st w H X : live_ok s fs st w H X → accept w s = Ok s' → live_ok s' fs st w H X ∧
  reader s' = w ∧ failed s' = failed s ∧ sequence s' = sequence s ∧ local_sequence s' = local_sequence s ∧
  file s' = file s ∧ h_id (hdr s') = jid ∧ ∃ a, a ≤ level w ∧ pending s' = newer a (overlay H).
Proof using All.
  intros Hl Hacc. destruct (lv_sem _ _ _ _ _ _ Hl) as (a & Hs & Ha).
  destruct (accept_sem _ _ _ _ _ Hs Hacc) as ((a' & Hs') & Hr & Hf & Hsq & Hls & Hfile).
  destruct Hl, lv_remote0. pose proof (sem_level _ _ _ _ _ _ Hs').
  split; [|split_and!; try done; [exact (sem_id _ _ _ _ _ _ Hs')|exists a'; split; [done|exact (sem_pending _ _ _ _ _ _ Hs')]]].
  split; rewrite ?Hr ?Hsq ?Hls ?Hfile ?Hf; try done.
  - by exists a'.
  - lia.
  - eapply journals_mono; [|exact lv_journals0]. intros j n. by rewrite /live_journal Hfile Hls Hsq.
Qed.

(** ** The disk it reads as *)
Lemma live_whole s fs st w H X i p : live_ok s fs st w H X → pending s !! i = Some p → whole sz (i, p).
Proof using All.
  intros Hl Hp. destruct (lv_sem _ _ _ _ _ _ Hl) as (a & Hs & _). rewrite (sem_pending _ _ _ _ _ _ Hs) newer_lookup in Hp.
  destruct Hp as [Hp%overlay_elem _]. pose proof (log_whole _ _ _ _ (lv_log _ _ _ _ _ _ Hl)) as Hw.
  rewrite Forall_forall in Hw. apply Hw. set_solver.
Qed.

Lemma live_view s fs st w H X : live_ok s fs st w H X →
  disk_eq sz (lay (view st (reader s)) (pending s)) (content H).
Proof using All.
  intros Hl. destruct (lv_sem _ _ _ _ _ _ Hl) as (a & Hs & Ha). trans (lay (replicated (reader s) H) (pending s)).
  { by apply lay_eq, (lv_view _ _ _ _ _ _ Hl). }
  intros p _. rewrite (sem_pending _ _ _ _ _ _ Hs). apply lay_newer; [|done].
  by eapply log_prefix, (lv_log _ _ _ _ _ _ Hl).
Qed.

(** The store may have changed in ways nobody observes. *)
Lemma remote_calm st st' w H Q : calm st st' → remote_ok st w H Q → remote_ok st' w H Q.
Proof using All.
  intros Hc []. destruct (later_good st st' id w) as [Hg Hv]; [by eapply calm_later|done|].
  split; try done; [by eapply calm_based|]. by rewrite rm_size0 in Hv; rewrite Hv.
Qed.

Lemma live_calm s fs st st' w H X : calm st st' → live_ok s fs st w H X → live_ok s fs st' w H X.
Proof using All.
  intros Hc []. destruct lv_reader0 as [Hr Hrs].
  destruct (later_good st st' id (reader s)) as [Hg Hv]; [by eapply calm_later|done|].
  split; try done; [by eapply remote_calm|]. by rewrite Hrs in Hv; rewrite Hv.
Qed.

Lemma index_piece (b : list Z) within n (f : Disk) pos : Zlen b = CHUNK_BYTES → 0 ≤ within → 0 ≤ n → within + n ≤ CHUNK_BYTES →
  (∀ k, 0 ≤ k < CHUNK_BYTES → index b k = f (pos - within + k)) → slice b within n = disk_read f pos n.
Proof.
  intros Hb Hw Hn Hle Hf. apply list_index_eq; [rewrite Zlen_slice ?Zlen_disk_read; lia|].
  rewrite Zlen_slice; [lia..|]. intros i Hi. rewrite index_slice ?index_disk_read; [lia..|]. rewrite Hf; [lia|]. f_equal. lia.
Qed.

Lemma read_loop_spec s (d : Disk) at_ len : r_size (reader s) = sz → 0 ≤ at_ → at_ + len ≤ sz →
  (∀ i p, pending s !! i = Some p → Zlen (p_bytes p) = CHUNK_BYTES) →
  ∀ fuel done out st, good st id (reader s) → disk_eq sz (lay (view st (reader s)) (pending s)) d →
  0 ≤ done ≤ len → len - done ≤ Z.of_nat fuel → Zlen out = len → (∀ i, 0 ≤ i < done → index out i = d (at_ + i)) →
  wp (read_loop s fuel at_ len done out) st (λ r st', calm st st' ∧ match r with
    | Ok o => o = disk_read d at_ len | Err _ => True end).
Proof using All.
  intros Hrs Hat Hlen Hp. pose proof chunk_bytes_pos as HC. pose proof Halign as Hal.
  induction fuel as [|fuel IH]; intros done out st Hg Hd Hdn Hf Hl Ho; cbn [read_loop].
  { apply wp_ret. split; [done|]. apply list_index_eq; [rewrite Zlen_disk_read; lia|].
    rewrite Hl. intros i Hi. rewrite index_disk_read; [lia|]. apply Ho. lia. }
  case: Z.ltb_spec => Hlt.
  2: { apply wp_ret. split; [done|]. apply list_index_eq; [rewrite Zlen_disk_read; lia|].
    rewrite Hl. intros i Hi. rewrite index_disk_read; [lia|]. apply Ho. lia. }
  cbv zeta. set (pos := at_ + done). destruct (chunk_pos pos) as [Hpos Hw]. set (within := pos mod CHUNK_BYTES) in *.
  set (n := Z.min (CHUNK_BYTES - within) (len - done)).
  assert (∀ b st', calm st st' → b = disk_read d pos n →
    wp (read_loop s fuel at_ len (done + n) (splice out done b)) st' (λ r st', calm st st' ∧ match r with
      | Ok o => o = disk_read d at_ len | Err _ => True end)) as Hnext.
  { intros b st' Hc ->. pose proof (Zlen_disk_read d pos n ltac:(lia)) as Hn.
    destruct (later_good st st' id (reader s)) as [Hg' Hv]; [by eapply calm_later|done|]. rewrite Hrs in Hv.
    eapply wp_mono; [apply IH; [done| |lia|lia| |]|].
    - etrans; [|exact Hd]. by apply lay_eq.
    - rewrite Zlen_splice ?Hn; lia.
    - intros i Hi. rewrite index_splice ?Hn; [lia..|]. case_decide; [|apply Ho; lia].
      rewrite index_disk_read; [lia|]. f_equal. lia.
    - intros r st2 [Hc2 Hr]. split; [by trans st'|done]. }
  wp_step. destruct (pending s !! (pos / CHUNK_BYTES)) as [p|] eqn:Ep.
  - apply wp_ret. apply Hnext; [done|]. apply index_piece; [by eapply Hp|lia..|].
    intros k Hk. assert (0 ≤ pos - within + k < sz) as Hin.
    { assert (pos / CHUNK_BYTES < sz / CHUNK_BYTES); [apply chunk_index_lt; [done|lia]|].
      destruct (chunk_pos sz) as [Hs _]. rewrite Hal in Hs. pose proof (Z.div_pos pos CHUNK_BYTES). nia. }
    rewrite -Hd // /lay. replace (pos - within + k) with ((pos / CHUNK_BYTES) * CHUNK_BYTES + k) by lia.
    by rewrite chunk_div // Ep chunk_mod.
  - assert (Zlen (slice out done n) = n) as Hsl by (apply Zlen_slice; lia).
    eapply wp_mono; [apply (r_read_law st id); [done|lia|rewrite Hsl; lia]|]. intros [b|e] st' [Hc Hb]; [|done].
    rewrite Hsl in Hb. apply Hnext; [done|]. rewrite Hb. apply list_index_eq; [rewrite !Zlen_disk_read; lia|].
    rewrite Zlen_disk_read; [lia|]. intros i Hi. rewrite !index_disk_read // -Hd; [lia|]. rewrite /lay.
    replace (pos + i) with ((pos / CHUNK_BYTES) * CHUNK_BYTES + (within + i)) by lia. rewrite chunk_div ?Ep //. lia.
Qed.

Lemma check_passed s at_ len : check s at_ len = Ok tt →
  failed s = false ∧ len ≤ WRITE_LIMIT ∧ at_ + len ≤ r_size (reader s) ∧ at_ + len ≤ u64_max.
Proof using All.
  rewrite /check. destruct (failed s); [done|]. rewrite /u64_checked_add. case: Z.leb_spec => Hu; rewrite ?orb_true_r //.
  case: Z.ltb_spec => ?; [done|]. case: Z.ltb_spec => ?; [done|]. intros _. split; [done|]. lia.
Qed.

Lemma read_live s fs st w H X at_ out : live_ok s fs st w H X → 0 ≤ at_ → wp (read at_ out) (s, fs, st) (λ r t,
  t.1 = (s, fs) ∧ calm st t.2 ∧ match r with
  | Ok o => failed s = false ∧ at_ + Zlen out ≤ sz ∧ o = disk_read (content H) at_ (Zlen out) | Err _ => True end).
Proof using All.
  intros Hl Hat. rewrite /read. wp_step. apply wp_gets. wp_step. apply wp_of_result. cbn [fst snd].
  destruct (check s at_ (Zlen out)) as [[]|e] eqn:Ec; [|done]. apply check_passed in Ec as (Hf & _ & Hle & _).
  destruct (lv_reader _ _ _ _ _ _ Hl) as [Hg Hrs]. rewrite Hrs in Hle. pose proof (Zlen_nonneg out).
  apply wp_zoom. cbn [fst snd]. eapply wp_mono; [eapply (read_loop_spec s (content H))|].
  - done.
  - done.
  - exact Hle.
  - intros i p Hp. by destruct (live_whole _ _ _ _ _ _ _ _ Hl Hp) as (_ & _ & ? & _).
  - exact Hg.
  - by eapply live_view.
  - lia.
  - rewrite /fuel_for. lia.
  - done.
  - intros. lia.
  - intros r st' [Hc Hr]. split; [done|]. split; [done|]. by destruct r.
Qed.

Lemma flush_live s fs st w H X : live_ok s fs st w H X → wp flush (s, fs, st) (λ r t,
  t.2 = st ∧ locked t.1.2 = locked fs ∧ dir_private t.1.2 = dir_private fs ∧ live_ok t.1.1 t.1.2 st w H X ∧ match r with
  | Ok _ => failed s = false ∧ t.1.1 = set_synced s
  | Err _ => t.1.1 = set_failed s ∨ t.1.1 = s
  end).
Proof using All.
  intros Hl. rewrite /flush. wp_step. apply wp_gets. wp_step. apply wp_of_result. cbn [fst snd].
  destruct (check s 0 0) as [[]|e] eqn:Ec; [|split_and!; auto]. apply check_passed in Ec as (Hf & _).
  apply wp_zoom. cbn [fst snd]. eapply wp_mono; [by eapply sync_journal_live|].
  intros r [s' fs'] (H1 & H2 & H3 & H4). cbn [fst snd] in *. split_and!; try done. destruct r; auto.
Qed.

(** ** Writing *)
Lemma live_failed s fs st w H X p : live_ok s fs st w H X → live_ok (set_failed s) (set_plan p fs) st w H X.
Proof using All.
  intros []. split; cbn [set_failed hdr file reader pending sequence local_sequence failed]; try done.
  destruct lv_sem0 as (a & Hs & Ha). exists a. split; [|done]. by destruct Hs.
Qed.

(** Records of the next sequence number go to the end of the journal. *)
Lemma append_live s fs st w H (m : gmap Z (list Z)) n : live_ok s fs st w H [] → failed s = false →
  let q := sequence s + 1 in let new := mkPending q <$> m in let W := entries new in
  W ≠ [] → Forall (whole sz) W → Z.of_nat (base.size (new ∪ pending s)) * CHUNK_BYTES ≤ DIRTY_LIMIT →
  inodes fs !! file s = Some n → Zlen (data n) + Zlen W * RECORD ≤ LOG_LIMIT →
  wp (for_each W (λ e, record (file s) e.1 e.2)) fs (λ r fs', locked fs' = locked fs ∧ dir_private fs' = dir_private fs ∧
    match r with
    | Ok _ => live_ok (set_pending q (new ∪ pending s) s) fs' st w (H ++ W) []
    | Err _ => live_ok (set_failed s) fs' st w H W
    end).
Proof using All.
  intros Hl Hf q new W HWn HW Hlim Hn Hlen. destruct (lv_exact _ _ _ _ _ _ Hl Hf) as (_ & Hcand & n' & Hn' & Hex).
  rewrite Hn in Hn'. injection Hn' as <-. destruct (lv_sem _ _ _ _ _ _ Hl) as (a & Hs & Ha).
  pose proof (lv_log _ _ _ _ _ _ Hl) as Hlog. destruct (log_prefix _ _ _ _ Hlog) as (HoH & HwH & _).
  assert (∀ r, r ∈ W → seq_of r = q) as HseqW.
  { intros [i r] Hr. rewrite /W elem_of_entries /new lookup_fmap_Some in Hr. destruct Hr as (b & <- & _). done. }
  assert (overlay W = new) as HovW by apply overlay_entries.
  assert (pending s = newer a (overlay H)) as Hpend by exact (sem_pending _ _ _ _ _ _ Hs).
  assert (0 ≤ a ≤ sequence s) as Ha'.
  { pose proof (sem_ack _ _ _ _ _ _ Hs). pose proof (lv_level _ _ _ _ _ _ Hl). lia. }
  assert (∀ i p, newer (level w) (overlay H) !! i = Some p → is_Some (pending s !! i)) as Hm.
  { intros i p [Hp Hlt]%newer_lookup. exists p. rewrite Hpend newer_lookup. split; [done|]. pose proof (sem_level _ _ _ _ _ _ Hs). lia. }
  pose proof (lv_local _ _ _ _ _ _ Hl) as HQ. pose proof (sem_seq _ _ _ _ _ _ Hs) as Hle.
  assert (Z.of_nat (base.size (overlay W ∪ pending s)) * CHUNK_BYTES ≤ DIRTY_LIMIT) as Hlim' by (by rewrite HovW).
  eapply wp_mono; [by apply log_records_spec|]. intros r fs' [Hw Hr]. pose proof Hw as (Ed & Ep & El & Epr & Eo).
  assert (∀ d, candidate fs' d → d !! "journal" = Some (file s)) as Hcand'.
  { intros d Hd. apply Hcand. by rewrite /candidate -Ed -Ep. }
  assert (ordered (H ++ W)) as HoW.
  { apply ordered_app. split_and!; [done| |].
    - eapply W_ordered. exact HseqW.
    - intros r1 r2 Hr1 Hr2. rewrite (HseqW r2) //. specialize (Hle _ Hr1). lia. }
  assert (Forall (whole sz) (H ++ W)) as HwW by (by apply Forall_app).
  split; [done|]. split; [done|]. destruct r as [[]|e].
  - pose proof (exact_append id jid sz H W _ _ w n (pending s) Hex HW HseqW HQ HoH Hle Hm Hlim' Hlen HWn) as Hex'.
    destruct Hl. split; cbn [set_pending hdr file reader pending sequence local_sequence failed].
    + exists a. split; [|done]. destruct Hs. split; cbn [set_pending hdr file reader pending sequence local_sequence failed]; try done.
      * lia.
      * rewrite overlay_app HovW Hpend newer_union //. intros i p Hp. rewrite lookup_fmap_Some in Hp. destruct Hp as (b & <- & _). simpl. lia.
      * intros r [Hr'|Hr']%elem_of_app; [specialize (Hle _ Hr'); lia|by rewrite HseqW].
    + split; rewrite ?app_nil_r; [done|done|]. intros r Hr'. by apply not_elem_of_nil in Hr'.
    + destruct lv_remote0. split; try done. rewrite rm_disk0. rewrite /replicated upto_app (upto_none _ W) ?app_nil_r //.
      intros r Hr'. rewrite HseqW //. lia.
    + done.
    + rewrite lv_view0. rewrite /replicated upto_app (upto_none _ W) ?app_nil_r //.
      intros r Hr'. rewrite HseqW //. lia.
    + lia.
    + lia.
    + intros d Hd. exists (file s). eexists. split; [by apply Hcand'|]. split; [exact Hr|].
      rewrite /live_journal decide_True //. destruct Hex' as (g & Hg & _ & _ & _ & Hrg & _). exists g. split; [exact Hg|exact Hrg].
    + by eexists.
    + intros _. split; [done|]. split; [exact Hcand'|]. eexists. split; [exact Hr|exact Hex'].
  - destruct Hr as (-> & x & Hx & Hr).
    destruct (torn_append id jid sz H W _ _ w n (pending s) Hex HW HseqW HQ HoH Hle Hm Hlim' Hlen x Hx) as (g & Hg & Hrg).
    destruct Hl. split; cbn [set_failed hdr file reader pending sequence local_sequence failed]; try done.
    + exists a. split; [|done]. by destruct Hs.
    + split; [done|done|]. intros r Hr'. rewrite HseqW //. lia.
    + intros d Hd. exists (file s). eexists. split; [by apply Hcand'|]. split; [exact Hr|].
      rewrite /live_journal decide_True //. by exists g.
Qed.

Lemma content_bytes H p : Forall (whole sz) H → 0 ≤ p < sz → is_byte (content H p).
Proof using HD0.
  intros Hw Hp. rewrite /content /lay. destruct (overlay H !! _) as [r|] eqn:E; [|by apply HD0].
  apply overlay_elem in E. eapply Forall_forall in Hw; [|exact E]. destruct Hw as (_ & _ & Hl & Hb).
  apply bytes_index; [done|]. rewrite Hl. apply chunk_pos.
Qed.

Lemma fetch_spec s fs st0 st w H X offset (input : list Z) copied : live_ok s fs st0 w H X → calm st0 st →
  0 ≤ offset → offset + Zlen input ≤ sz → 0 ≤ copied < Zlen input →
  let pos := offset + copied in
  let within := pos mod CHUNK_BYTES in
  let count := Z.min (CHUNK_BYTES - within) (Zlen input - copied) in
  wp (fetch s (pos / CHUNK_BYTES) within count) st (λ r st', match r with
    | Ok b => calm st0 st' ∧ fetched (content H) (pos / CHUNK_BYTES) within count b
    | Err _ => calm st0 st' end).
Proof using All.
  intros Hl0 Hc0 Hoff Hle Hcp. cbv zeta. set (pos := offset + copied). destruct (chunk_pos pos) as [Hpos Hw].
  set (within := pos mod CHUNK_BYTES) in *. set (n := Z.min (CHUNK_BYTES - within) (Zlen input - copied)).
  pose proof (live_calm _ _ _ _ _ _ _ Hc0 Hl0) as Hl. pose proof (live_view _ _ _ _ _ _ Hl) as Hv.
  destruct (lv_reader _ _ _ _ _ _ Hl) as [Hg Hrs]. pose proof chunk_bytes_pos as HC.
  assert (pos / CHUNK_BYTES ∈ touched pos 1) as Ht by (apply elem_of_touched; [lia..|]; split; [done|lia]).
  destruct (touched_range sz pos 1 (pos / CHUNK_BYTES)) as (Hi & Hi1 & Hi2); [lia..|done|done|].
  rewrite /fetch. destruct (negb (within =? 0) || negb (n =? CHUNK_BYTES)) eqn:Eb.
  - destruct (pending s !! (pos / CHUNK_BYTES)) as [p|] eqn:Ep.
    + apply wp_ret. split; [done|]. destruct (live_whole _ _ _ _ _ _ _ _ Hl Ep) as (_ & _ & Hb & _). split; [done|].
      intros k Hk _. rewrite -Hv /lay; [lia|]. by rewrite chunk_div // Ep chunk_mod.
    + eapply wp_mono; [apply (r_read_law st id); [done|lia|rewrite Zlen_zeros; lia]|]. intros [b|e] st' [Hc Hb]; [|by trans st].
      split; [by trans st|]. rewrite Zlen_zeros in Hb; [lia|]. subst b. split; [rewrite Zlen_disk_read; lia|].
      intros k Hk _. rewrite index_disk_read // -Hv /lay; [lia|]. by rewrite chunk_div ?Ep.
  - apply wp_ret. split; [done|]. apply orb_false_elim in Eb as [E1%negb_false_iff%Z.eqb_eq E2%negb_false_iff%Z.eqb_eq].
    split; [rewrite Zlen_zeros; lia|]. intros k Hk [?|?]; lia.
Qed.

(** The staged blocks fit what [write] checked. *)
Lemma staged_size (s : State V) at_ len (m : gmap Z (list Z)) q : (∀ i, is_Some (m !! i) ↔ i ∈ touched at_ len) →
  Z.of_nat (base.size ((mkPending q <$> m) ∪ pending s)) ≤ Z.of_nat (base.size (pending s)) + extra_blocks s at_ len.
Proof using All.
  intros Hm. rewrite -!size_dom. set (l := filter (λ i, pending s !! i = None) (touched at_ len)).
  change (extra_blocks s at_ len) with (Zlen l). rewrite /Zlen -Nat2Z.inj_add. apply inj_le.
  etrans; [apply (subseteq_size _ (dom (pending s) ∪ list_to_set l))|].
  - intros i. rewrite dom_union elem_of_union elem_of_union elem_of_list_to_set. rewrite !elem_of_dom lookup_fmap fmap_is_Some Hm.
    intros [Hi|Hi]; [|by left]. destruct (pending s !! i) eqn:E; [left; by eexists|right]. by apply list_elem_of_filter.
  - rewrite size_union_alt. apply Nat.add_le_mono_l. etrans; [by apply subseteq_size, subseteq_difference_l|].
    rewrite size_list_to_set //. apply NoDup_filter, NoDup_touched.
Qed.

Lemma live_seq s fs st w H X : live_ok s fs st w H X → 0 ≤ sequence s.
Proof using All.
  intros Hl. destruct (lv_sem _ _ _ _ _ _ Hl) as (a & Hs & _). pose proof (sem_ack _ _ _ _ _ _ Hs). pose proof (sem_acked _ _ _ _ _ _ Hs). lia.
Qed.

Lemma set_failed_live s fs st w H X : live_ok s fs st w H X → live_ok (set_failed s) fs st w H X.
Proof using All. intros Hl. destruct fs as [a b c d e pl]. exact (live_failed s (mkFs a b c d e pl) st w H X pl Hl). Qed.

Lemma log_blocks_live s fs st w H (m : gmap Z (list Z)) : live_ok s fs st w H [] → failed s = false →
  let q := sequence s + 1 in let new := mkPending q <$> m in let W := entries new in
  W ≠ [] → Forall (whole sz) W → Z.of_nat (base.size (new ∪ pending s)) * CHUNK_BYTES ≤ DIRTY_LIMIT →
  Zlen W * CHUNK_BYTES ≤ WRITE_LIMIT + 2 * CHUNK_BYTES →
  wp (log_blocks new) (s, fs) (λ r t, locked t.2 = locked fs ∧ dir_private t.2 = dir_private fs ∧ sequence t.1 = sequence s ∧ match r with
    | Ok _ => live_ok (set_pending q (new ∪ pending t.1) t.1) t.2 st w (H ++ W) [] ∧ failed t.1 = false ∧ local_sequence s ≤ local_sequence t.1
    | Err _ => (live_ok (set_failed t.1) t.2 st w H [] ∨ live_ok (set_failed t.1) t.2 st w H W) ∧ local_sequence s ≤ local_sequence t.1 end).
Proof using All.
  intros Hl Hf q new W HWn HW Hlim Hcount. rewrite /log_blocks. wp_step. apply wp_gets. change ((s, fs).1) with s. wp_step. apply wp_on_fs.
  apply wp_file_len; intros p.
  2: { split_and!; try done. left. by apply live_failed. }
  destruct (lv_exact _ _ _ _ _ _ Hl Hf) as (_ & _ & n & Hn & _).
  assert (Zlen W = Z.of_nat (base.size new)) as HlW.
  { rewrite /W /Zlen entries_Permutation length_map_to_list. done. }
  assert (contents (file s) fs = data n) as -> by (by rewrite /contents Hn).
  assert (∀ s1 fs1 n1, live_ok s1 fs1 st w H [] → failed s1 = false → sequence s1 = sequence s → pending s1 = pending s →
    local_sequence s ≤ local_sequence s1 → locked fs1 = locked fs → dir_private fs1 = dir_private fs →
    inodes fs1 !! file s1 = Some n1 → Zlen (data n1) + Zlen W * RECORD ≤ LOG_LIMIT →
    wp (s ← gets fst; on_fs (for_each (entries new) (λ e, record (file s) e.1 e.2))) (s1, fs1) (λ r t,
      locked t.2 = locked fs ∧ dir_private t.2 = dir_private fs ∧ sequence t.1 = sequence s ∧ match r with
      | Ok _ => live_ok (set_pending q (new ∪ pending t.1) t.1) t.2 st w (H ++ W) [] ∧ failed t.1 = false ∧ local_sequence s ≤ local_sequence t.1
      | Err _ => (live_ok (set_failed t.1) t.2 st w H [] ∨ live_ok (set_failed t.1) t.2 st w H W) ∧ local_sequence s ≤ local_sequence t.1 end)) as Happ.
  { intros s1 fs1 n1 Hl1 Hf1 Hs1 Hp1 Hls1 Hlk Hpr Hn1 Hlen1. wp_step. apply wp_gets. apply wp_on_fs. change ((s1, fs1).1) with s1.
    pose proof (append_live s1 fs1 st w H m n1 Hl1 Hf1) as HA. cbv zeta in HA. rewrite Hs1 Hp1 in HA.
    eapply wp_mono; [by apply HA|]. intros r fs2 (E1 & E2 & Hr). cbn [fst snd]. rewrite E1 E2 Hlk Hpr Hs1.
    split; [done|]. split; [done|]. split; [done|]. destruct r; [|split; [by right|done]]. by rewrite Hp1. }
  pose proof (lv_local _ _ _ _ _ _ Hl) as HQ. rewrite -HlW. wp_step. destruct (LOG_LIMIT <? _) eqn:Eb.
  - assert (live_ok s (set_plan p fs) st w H []) as Hl1.
    { destruct Hl. split; done. }
    eapply wp_mono; [by eapply compact_live|].
    intros r [s1 fs1] (Hk & Hlk & Hpr & Hr). cbn [fst snd] in *. destruct Hk as (K1 & K2 & K3 & K4 & K5 & K6 & K7 & K8).
    destruct r as [[]|e].
    + destruct Hr as (Hl2 & Hf2 & Hls2 & n2 & Hn2 & Hlen2). apply (Happ s1 fs1 n2); try done; [congruence|lia|].
      destruct (lv_sem _ _ _ _ _ _ Hl) as (a & Hs & _). pose proof (sem_size _ _ _ _ _ _ Hs) as Hsz'.
      rewrite /RECORD chunk_value /DIRTY_LIMIT /WRITE_LIMIT /LOG_LIMIT in Hsz' Hlen2 Hcount |- *. lia.
    + destruct Hr as (Hl2 & Hf2 & Hls2). split_and!; try done; [|lia]. left.
      by apply set_failed_live.
  - apply wp_ret. apply Z.ltb_ge in Eb. apply (Happ s (set_plan p fs) n); try done. destruct Hl. split; done.
Qed.

Lemma staged_whole d at_ (input : list Z) m q : 0 ≤ at_ → 0 < Zlen input → at_ + Zlen input ≤ sz → 0 < q ≤ u64_max → bytes input →
  (∀ p, 0 ≤ p < sz → is_byte (d p)) → staged (disk_write d at_ input) at_ (Zlen input) m →
  Forall (whole sz) (entries (mkPending q <$> m)).
Proof using All.
  intros Hat Hl Hle Hq Hb Hd Hst. apply Forall_forall. intros [i p]. rewrite elem_of_entries lookup_fmap_Some.
  intros (b & <- & Hm). pose proof Hst as [H1 _]. destruct (H1 i b Hm) as (Hi1 & Hi2 & Hlb & Hk).
  destruct (touched_range sz at_ (Zlen input) i) as (Hi & Hi3 & Hi4); [done..|by apply elem_of_touched|].
  split; [done|]. split; [done|]. split; [done|]. eapply staged_bytes; [done|done|]. intros k Hkk. rewrite /disk_write.
  case_decide; [|apply Hd; lia]. apply bytes_index; [done|lia].
Qed.

Lemma live_set_plan p s fs st w H X : live_ok s fs st w H X → live_ok s (set_plan p fs) st w H X.
Proof. intros []. split; done. Qed.

Definition write_post at_ (input : list Z) (s : State V) fs st w H X (r : Result Error unit) (t : State V * Fs * S) : Prop :=
  locked t.1.2 = locked fs ∧ dir_private t.1.2 = dir_private fs ∧ calm st t.2 ∧
  match r with
  | Ok _ => failed s = false ∧ X = [] ∧ at_ + Zlen input ≤ sz ∧ failed t.1.1 = false ∧ local_sequence s ≤ local_sequence t.1.1 ∧
      ∃ W, strip W = block_writes (content H) at_ input ∧ (∀ r, r ∈ W → sequence s < seq_of r) ∧ live_ok t.1.1 t.1.2 t.2 w (H ++ W) []
  | Err _ => t.1 = (s, fs) ∨
      failed s = false ∧ X = [] ∧ at_ + Zlen input ≤ sz ∧ failed t.1.1 = true ∧ local_sequence s ≤ local_sequence t.1.1 ∧
      ∃ W, strip W = block_writes (content H) at_ input ∧ (live_ok t.1.1 t.1.2 t.2 w H [] ∨ live_ok t.1.1 t.1.2 t.2 w H W)
  end.

Lemma write_live s fs st w H X at_ input : live_ok s fs st w H X → 0 ≤ at_ → bytes input →
  wp (write at_ input) (s, fs, st) (write_post at_ input s fs st w H X).
Proof using All.
  intros Hl Hat Hb. destruct (lv_reader _ _ _ _ _ _ Hl) as [Hg Hrs]. pose proof (Zlen_nonneg input).
  assert (∀ e st', calm st st' → write_post at_ input s fs st w H X (Err e) (s, fs, st')) as Hrej.
  { intros e st' Hc. split_and!; try done. by left. }
  rewrite /write. wp_step. apply wp_gets. wp_step. apply wp_of_result. cbn [fst snd].
  destruct (check s at_ (Zlen input)) as [[]|e] eqn:Ec; [|by apply Hrej]. apply check_passed in Ec as (Hf & Hlim & Hle & Hu).
  rewrite Hrs in Hle. destruct (lv_exact _ _ _ _ _ _ Hl Hf) as (-> & _ & _). case_bool_decide as Hin.
  { apply wp_ret. split_and!; try done. exists []. subst input. rewrite app_nil_r. split_and!; try done.
    intros r Hr. by apply not_elem_of_nil in Hr. }
  assert (0 < Zlen input) as Hpos by (destruct input; [done|rewrite Zlen_cons; pose proof (Zlen_nonneg input); lia]).
  wp_step; [apply wp_fail; by apply Hrej|]. apply Z.ltb_ge in Heqb as Hbp. wp_step. apply wp_ok_or; [intros q Hq|intros _; by apply Hrej].
  apply u64_checked_add_Some in Hq as [-> Hq].
  pose proof (log_prefix _ _ _ _ (lv_log _ _ _ _ _ _ Hl)) as (_ & HwH & _).
  wp_step. apply wp_zoom. cbn [fst snd]. eapply wp_mono.
  { eapply (wp_write_loop (calm st) (λ _ st', calm st st') (content H)); [done| | | |by left| |done].
    - intros st' copied Hc Hcp. by apply (fetch_spec s fs st st' w H []).
    - lia.
    - rewrite /fuel_for. lia.
    - split; [done|]. intros. lia. }
  intros [m|e] st' Hpost; [|by apply Hrej]. destruct Hpost as [Hc Hst]. cbn [fst snd].
  destruct (staged_blocks_of sz (content H) (content H) at_ input m (sequence s + 1)) as [Hstrip Hdom]; [done..|].
  pose proof (live_seq _ _ _ _ _ _ Hl) as Hs0.
  assert (Forall (whole sz) (entries (mkPending (sequence s + 1) <$> m))) as HW.
  { apply (staged_whole (content H) at_ input); [done|done|done|lia|done| |done]. intros p Hp. by apply content_bytes. }
  assert (Zlen (entries (mkPending (sequence s + 1) <$> m)) * CHUNK_BYTES ≤ WRITE_LIMIT + 2 * CHUNK_BYTES) as Hcount.
  { assert (Zlen (entries (mkPending (sequence s + 1) <$> m)) = Zlen (touched at_ (Zlen input))) as ->.
    { rewrite -Zlen_strip Hstrip. by apply Zlen_block_writes. }
    pose proof (Zlen_touched at_ (Zlen input) Hat Hpos). lia. }
  assert (entries (mkPending (sequence s + 1) <$> m) ≠ []) as HWn.
  { intros E. rewrite E in Hstrip. pose proof (Zlen_block_writes (content H) at_ input Hin) as Hz. rewrite -Hstrip in Hz.
    assert (at_ / CHUNK_BYTES ∈ touched at_ (Zlen input)) as Ht.
    { apply elem_of_touched; [done..|]. split; [done|]. destruct (chunk_pos at_). lia. }
    apply list_elem_of_lookup in Ht as (k & Hk%lookup_lt_Some). assert (0 < Zlen (touched at_ (Zlen input))); [|by rewrite -Hz in H1].
    rewrite {1}/Zlen. lia. }
  pose proof (staged_size s at_ (Zlen input) m (sequence s + 1) Hdom) as Hsz'.
  assert (Z.of_nat (base.size ((mkPending (sequence s + 1) <$> m) ∪ pending s)) * CHUNK_BYTES ≤ DIRTY_LIMIT) as Hlimit.
  { pose proof chunk_bytes_pos. nia. }
  pose proof (live_calm _ _ _ _ _ _ _ Hc Hl) as Hl'.
  wp_step. apply wp_try, wp_zoom. cbn [fst snd]. eapply wp_mono; [eapply log_blocks_live; [exact Hl'|done..]|].
  intros r [s1 fs1] (Hlk & Hpr & Hsq & Hr). cbn [fst snd] in *. destruct r as [[]|e].
  - destruct Hr as (Hl1 & Hf1 & Hls). apply wp_zoom, wp_modify. cbn [fst snd]. split_and!; try done.
    exists (entries (mkPending (sequence s + 1) <$> m)). split; [done|]. split; [|done].
    intros [i p]. rewrite elem_of_entries lookup_fmap_Some. intros (b & <- & _). rewrite /seq_of /=. lia.
  - destruct Hr as (Hl1 & Hls). wp_step. apply wp_zoom, wp_modify. apply wp_fail. cbn [fst snd]. split_and!; try done. right.
    split_and!; try done. by eexists.
Qed.
End run.
End LocalRun.
