(* ===== verification/LocalOpen.v ===== *)
(** The disk that is not running: what a crash, a failed disk or a failed open
    leaves, and opening it again. *)
From S2P Require Import Prelude Codec ObjectStore Blocks Files Local LocalLog LocalInv LocalCompact LocalImage LocalSpec LocalRun.

Module LocalOpen.
Import Files Local LocalLog LocalInv LocalCompact LocalImage LocalSpec LocalRun.

Section down.
Context {SHA : Sha256} {JH : Json Header} {V S : Type} {R : Remote V S} {RL : RemoteLaws V S}.
Context {SHAL : Sha256Laws} {JHL : JsonLaws Header}.
Variables (id jid : string) (sz : Z) (D0 : Disk).
Hypotheses (Hsz : 0 < sz ≤ 2 ^ 50) (Halign : sz mod CHUNK_BYTES = 0) (HD0 : ∀ p, 0 ≤ p < sz → is_byte (D0 p))
  (Hjid : String.length jid = 64%nat ∧ string_all is_ascii_hexdigit jid = true).

Abbreviation level := (level jid).
Abbreviation image := (image id jid sz).
Abbreviation log_ok := (log_ok sz).
Abbreviation live_ok := (live_ok id jid sz D0).
Abbreviation remote_ok := (remote_ok id jid sz D0).
Implicit Types (H X : list rec) (st : S) (w : V) (s : State V) (fs : Fs).

(** Every journal that may be there holds the history [H], perhaps with some of
    [X] behind it; all up to [Q] is durable. *)
Record down_ok fs st w H X (Q : Z) : Prop := {
  dn_log : log_ok H X Q;
  dn_remote : remote_ok st w H Q;
  dn_journals : journals (λ _ n, image H X Q w n) fs;
}.

Lemma live_down s fs st w H X : live_ok s fs st w H X → down_ok fs st w H X (local_sequence s).
Proof using All.
  intros []. split; [|done|].
  - destruct lv_log0. split; [done..|]. intros r Hr. specialize (log_doubt0 r Hr). lia.
  - eapply journals_mono; [|exact lv_journals0]. intros j n. rewrite /live_journal. case_decide.
    + intros (g & Hg & _). by exists g.
    + by apply image_lower.
Qed.

(** Only the directory, its past and the files matter. *)
Lemma down_same fs fs' st w H X Q : dir fs' = dir fs → past fs' = past fs → inodes fs' = inodes fs →
  down_ok fs st w H X Q → down_ok fs' st w H X Q.
Proof using All.
  intros E1 E2 E3 []. split; [done..|]. intros d Hd. rewrite /candidate E1 E2 in Hd. rewrite E3. by apply dn_journals0.
Qed.

Lemma down_plan p fs st w H X Q : down_ok fs st w H X Q → down_ok (set_plan p fs) st w H X Q.
Proof using All. by apply down_same. Qed.

Lemma down_quiet fs fs' st w H X Q : quiet fs fs' → down_ok fs st w H X Q → down_ok fs' st w H X Q.
Proof using All. intros Hq []. split; [done..|]. by eapply journals_quiet. Qed.

Lemma down_calm fs st st' w H X Q : calm st st' → down_ok fs st w H X Q → down_ok fs st' w H X Q.
Proof using All. intros Hc []. split; [done| |done]. by eapply remote_calm. Qed.

(** *** Crashes *)

Lemma survives_remote st w H X Q H1 X1 : log_ok H X Q → survives H X Q H1 X1 → remote_ok st w H Q → remote_ok st w H1 Q.
Proof using All.
  intros Hl Hs []. split; try done. rewrite /replicated (survives_upto _ _ _ _ _ _ _ Hl Hs) //. lia.
Qed.

Lemma crash_down fs fs' st w H X Q : down_ok fs st w H X Q → crashed fs fs' →
  ∃ H1 X1, survives H X Q H1 X1 ∧ down_ok fs' st w H1 X1 Q.
Proof using All.
  intros [Hl Hr Hj] (Hd & Hp & _ & _ & Hi). destruct (Hj (dir fs')) as (j & n & Hj1 & Hn & Him).
  { destruct Hd as [->|Hd]; [by left|by right]. }
  specialize (Hi j). rewrite Hn in Hi. destruct (inodes fs' !! j) as [n'|] eqn:En; [|done].
  destruct (image_settled id jid sz Hsz H X Q w n n' Him Hi) as (H1 & X1 & H2 & H3 & H4); [exact (log_doubt _ _ _ _ Hl)|].
  assert (survives H X Q H1 X1) as Hs by (split; [done|]; intros K r HK Hr'; by eapply H3).
  exists H1, X1. split; [done|]. split; [by eapply survives_log|by eapply survives_remote|].
  intros d Hc. rewrite /candidate Hp in Hc. destruct Hc as [->|Hc]; [|by apply not_elem_of_nil in Hc].
  exists j, n'. done.
Qed.

(** *** Opening *)

(** The journal is loaded, and perhaps trimmed. *)
Lemma down_trimmed fs fs' st w H X Q i n k : down_ok fs st w H X Q → inodes fs !! i = Some n →
  trimmed i k fs fs' → image H X Q w (trunc k n) → down_ok fs' st w H X Q.
Proof using All.
  intros [] Hn (E1 & E2 & _ & _ & Hi) Him. split; [done..|]. intros d Hd. rewrite /candidate E1 E2 in Hd.
  destruct (dn_journals0 d Hd) as (j & m & Hj & Hm & Hjm). exists j. destruct Hi as [->| ->]; [by exists m|].
  destruct (decide (j = i)) as [->|Hne].
  - exists (trunc k n). rewrite lookup_alter_eq Hn. done.
  - exists m. by rewrite lookup_alter_ne.
Qed.

(** What opening makes of a loaded journal. *)
Lemma loaded_sem H X Q w h seq m H' i (copy : V) : loaded id jid H X Q w h seq m H' →
  sem id jid H' w (level w) (mkState h i copy m seq seq false false).
Proof using All.
  intros []. split; cbn [hdr pending sequence]; done.
Qed.

Lemma loaded_log H X Q w h seq m H' : log_ok H X Q → loaded id jid H X Q w h seq m H' → survives H X Q H' [] ∧ log_ok H' [] seq.
Proof using All.
  intros Hl Hld. destruct (ld_hist _ _ _ _ _ _ _ _ _ _ Hld) as [[K HK] Hp].
  assert (survives H X Q H' []) as Hs.
  { split; [by rewrite app_nil_r|]. intros K' r HK' Hr. rewrite HK' in HK. rewrite -app_assoc in HK.
    apply (f_equal length) in HK. rewrite !length_app in HK. destruct K'; [set_solver|simpl in HK; lia]. }
  split; [done|]. destruct (survives_log _ _ _ _ _ _ Hl Hs). split; [done..|]. set_solver.
Qed.

Definition open_post fs st w H X Q (r : Result Error (State V)) (fs' : Fs) (st' : S) : Prop :=
  match r with
  | Ok s => ∃ H', H `prefix_of` H' ∧ H' `prefix_of` H ++ X ∧ live_ok s fs' st' w H' [] ∧ failed s = false ∧
      local_sequence s = sequence s ∧ locked fs' = locked fs
  | Err _ => down_ok fs' st' w H X Q ∧ locked fs' = locked fs
  end.

(** A state that describes the history [H], compacted, runs. *)
Lemma compacted_live fs fs' st w a H s s' : sem id jid H w a s → remote_ok st w H (sequence s) → log_ok H [] (sequence s) →
  reader s = w → failed s = false → compact_post id jid sz H w s fs (Ok tt) (s', fs') →
  live_ok s' fs' st w H [] ∧ failed s' = false ∧ local_sequence s' = sequence s' ∧ locked fs' = locked fs.
Proof using All.
  intros Hs Hr Hlog Hrd Hf (Hk & Hlk & Hpr & Hpost). pose proof Hk as (K1 & K2 & K3 & K4 & K5 & K6 & K7 & K8). pose proof Hr as Hr0. destruct Hr0.
  cbn [fst snd] in *. destruct Hpost as (Hf' & Hls' & Hpast & Hdir & n & Hn & Hex & Hcomp & _).
  split; [|split; [congruence|split; [congruence|done]]].
  assert (∀ d, candidate fs' d → d !! "journal" = Some (file s')) as Hcand.
  { intros d Hd. rewrite /candidate Hpast in Hd. destruct Hd as [->|Hd]; [done|by apply not_elem_of_nil in Hd]. }
  split; rewrite ?K5 ?K7 ?Hrd ?Hls'; try done.
  - exists a. split; [by eapply sem_kept|]. exact (sem_level _ _ _ _ _ _ Hs).
  - lia.
  - intros d Hd. exists (file s'), n. split; [by apply Hcand|]. split; [done|]. rewrite /live_journal decide_True // Hls' K7.
    destruct Hex as (g & Hg & _ & _ & _ & Hre & _). by exists g.
  - intros _. split; [done|]. split; [done|]. by exists n.
Qed.

Lemma first_compact_down fs st w H X Q h seq m H' i s : down_ok fs st w H X Q → loaded id jid H X Q w h seq m H' →
  accept w (mkState h i w m seq seq false false) = Ok s →
  wp (first_compact s) (fs, st) (λ r t, open_post fs st w H X Q r t.1 t.2 ∧ t.2 = st).
Proof using All.
  intros Hdn Hld Hacc. pose proof Hdn as []. destruct (loaded_log _ _ _ _ _ _ _ _ dn_log0 Hld) as [Hsv Hlog].
  pose proof (loaded_sem _ _ _ _ _ _ _ _ i w Hld) as Hs0.
  eapply accept_sem in Hacc as ((a & Hs) & Hrd & Hf & Hsq & Hls & _); [|done..]. simpl in Hf, Hsq, Hls.
  destruct (log_prefix _ _ _ _ Hlog) as (Ho & Hw & _).
  pose proof (compact_spec id jid sz H' w a s fs Hs Ho Hw) as Hc. rewrite /wp in Hc |- *. rewrite /first_compact.
  cbn [fst snd]. destruct (compact (s, fs)) as [r [s' fs']] eqn:Ec. cbn [fst snd] in Hc |- *.
  split; [|by destruct r]. pose proof (ld_hist _ _ _ _ _ _ _ _ _ _ Hld) as [Hp1 Hp2].
  pose proof (ld_durable _ _ _ _ _ _ _ _ _ _ Hld) as Hdur. destruct r as [[]|e].
  - exists H'. split; [done|]. split; [done|]. rewrite -Hsq in Hlog Hdur. eapply compacted_live; [exact Hs| |done..].
    destruct (survives_remote st w _ _ _ _ _ dn_log0 Hsv dn_remote0). split; try done. lia.
  - destruct Hc as (Hk & Hlk & Hpr & Hf' & Hls' & Hfile & Hkeep & Hj). cbn [fst snd] in *. split; [|done]. split; [done..|]. apply Hj; [|done].
    intros j n Hnone Hc. eapply image_lower; [|apply Hc; done]. lia.
Qed.

Lemma open_locked_down random fs st w H X Q : down_ok fs st w H X Q →
  dir fs !! "journal" = None ∨ (∀ k, plan fs !! 1%nat ≠ Some (Some k)) →
  wp (open_locked id random) (fs, st) (λ r t, open_post fs st w H X Q r t.1 t.2).
Proof using All.
  intros Hdn Hseen. pose proof (dn_remote _ _ _ _ _ _ Hdn) as [].
  rewrite /open_locked. wp_step. apply wp_zoom. cbn [fst snd]. eapply wp_mono; [by apply (r_open_law st id w)|].
  intros [v|e] st1 [Hc Hv]; cbn [fst snd]; [subst v|split; [by eapply down_calm|done]].
  pose proof (down_calm _ _ _ _ _ _ _ Hc Hdn) as Hdn1. pose proof (dn_remote _ _ _ _ _ _ Hdn1) as Hr1.
  wp_step. apply wp_zoom. cbn [fst snd]. eapply wp_mono; [apply wp_and; [apply secure_spec|apply uses_secure]|]. intros r fs1 [Hq Hplan]. cbn [fst snd].
  pose proof (down_quiet _ _ _ _ _ _ _ Hq Hdn1) as Hdn2. pose proof (quiet_lock _ _ Hq) as [Hlk _].
  destruct r as [[]|e]; [|done]. destruct (dn_journals _ _ _ _ _ _ Hdn2 (dir fs1)) as (i & n & Hi & Hn & Him); [by left|].
  assert (∀ p e, open_post fs st w H X Q (Err e) (set_plan p fs1) st1) as Hsame.
  { intros p e. split; [|done]. by apply down_plan. }
  wp_step. apply wp_zoom. cbn [fst snd]. apply wp_seen.
  { right. destruct Hseen as [Hno|Hs]; [by rewrite -(quiet_dir _ _ Hq) Hi in Hno|]. intros k. rewrite Hplan lookup_drop. apply Hs. }
  intros p0. rewrite Hi bool_decide_true; [by eexists|]. cbn [fst snd].
  wp_step. apply wp_zoom. cbn [fst snd]. rewrite /open_or_create. wp_step. apply wp_sys; intros p1; [|apply Hsame].
  wp_step. apply wp_gets. change (dir (set_plan p1 (set_plan p0 fs1))) with (dir fs1). rewrite Hi. apply wp_ret. cbn [fst snd].
  wp_step. apply wp_zoom. cbn [fst snd]. apply wp_file_len; intros p2; [|apply Hsame]. cbn [fst snd].
  wp_step. apply wp_guard; [intros _|intros _; apply Hsame]. wp_step. apply wp_zoom. cbn [fst snd].
  change (set_plan p2 (set_plan p1 (set_plan p0 fs1))) with (set_plan p2 fs1).
  assert (down_ok (set_plan p2 fs1) st1 w H X Q) as Hdn3 by (by apply down_plan).
  eapply wp_mono; [eapply (load_journal_spec id jid sz Hsz Hjid H X Q w n i (set_plan p2 fs1)); [done|done| |done]|].
  { exact (log_ordered _ _ _ _ (dn_log _ _ _ _ _ _ Hdn3)). }
  intros r fs2 [(k & Htr & Him2) Hr]. cbn [fst snd].
  assert (down_ok fs2 st1 w H X Q) as Hdn4 by (by eapply (down_trimmed (set_plan p2 fs1))).
  assert (locked fs2 = locked fs) as Hlk2 by (destruct Htr as (_ & _ & E & _); by rewrite E).
  destruct r as [[[h seq] m]|e]; [|done]. destruct Hr as (H' & Hld). cbn [fst snd] in Hld.
  wp_step. apply wp_of_result. rewrite (r_copy_law st1 id w); [exact (rm_good _ _ _ _ _ _ _ _ Hr1)|done|].
  wp_step. apply wp_of_result. destruct (accept w _) as [s|e] eqn:Ea; [|done].
  eapply wp_mono; [by eapply first_compact_down|]. intros r [fs3 st3] [Hr Hst]. cbn [fst snd] in *. subst st3.
  rewrite /open_post Hlk2 in Hr. done.
Qed.

Lemma try_lock_spec fs : wp try_lock fs (λ r fs', dir fs' = dir fs ∧ past fs' = past fs ∧ inodes fs' = inodes fs ∧
  locked fs' = match r with Ok _ => true | Err _ => locked fs end).
Proof.
  rewrite /try_lock. wp_step. apply wp_outcome. intros o p. wp_step. apply wp_gets. wp_step.
  apply wp_guard; intros _; [by apply wp_modify|done].
Qed.

(** The call that looks for the journal, the sixth one in the directory, sees a
    journal that is there. *)
Definition journal_seen fs : Prop := dir fs !! "journal" = None ∨ ∀ k, plan fs !! 5%nat ≠ Some (Some k).

Lemma open_down random fs st w H X Q : down_ok fs st w H X Q → locked fs = false → journal_seen fs →
  wp (open id random) (fs, st) (λ r t, match r with
    | Ok s => ∃ H', H `prefix_of` H' ∧ H' `prefix_of` H ++ X ∧ live_ok s t.1 t.2 w H' [] ∧ failed s = false ∧
        local_sequence s = sequence s ∧ locked t.1 = true
    | Err _ => down_ok t.1 t.2 w H X Q ∧ locked t.1 = false
    end).
Proof using All.
  intros Hdn Hlk Hseen. rewrite /open. wp_step. apply wp_zoom. cbn [fst snd].
  assert (∀ p, down_ok (set_plan p fs) st w H X Q) as Hp by (intros p; by apply down_plan).
  eapply wp_mono; [apply wp_and; [apply (wp_sys fs (λ r f, ∃ p, f = set_plan p fs)); intros p; by exists p|apply uses_sys]|].
  intros r f0 [[p0 ->] Hp0]. cbn [fst snd]. destruct r as [[]|e]; [|done]. wp_step. apply wp_gets. wp_step. apply wp_guard; intros _; [|by split; [apply Hp|]].
  wp_step. apply wp_zoom. cbn [fst snd]. eapply wp_mono; [apply wp_and; [apply secure_spec|apply uses_secure]|]. intros r fs1 [Hq Hp1]. cbn [fst snd].
  pose proof (down_quiet _ _ _ _ _ _ _ Hq (Hp p0)) as Hdn1. pose proof (quiet_lock _ _ Hq) as [Hlk1 _].
  change (locked (set_plan p0 fs)) with (locked fs) in Hlk1. rewrite Hlk in Hlk1. destruct r as [[]|e]; [|done].
  wp_step. apply wp_zoom. cbn [fst snd]. eapply wp_mono; [apply wp_and; [by apply open_lock_spec|apply uses_open]|]. intros r fs2 [Hq2 Hp2]. cbn [fst snd].
  pose proof (down_quiet _ _ _ _ _ _ _ Hq2 Hdn1) as Hdn2. pose proof (quiet_lock _ _ Hq2) as [Hlk2 _].
  rewrite Hlk1 in Hlk2. destruct r as [j|e]; [|done].
  wp_step. apply wp_zoom. cbn [fst snd]. eapply wp_mono; [apply wp_and; [apply try_lock_spec|apply uses_lock]|]. intros r fs3 [(E1 & E2 & E3 & Hlk3) Hp3].
  assert (down_ok fs3 st w H X Q) as Hdn3 by (by eapply (down_same fs2)). destruct r as [[]|e]; [|by rewrite Hlk3].
  wp_step. wp_step. eapply wp_mono; [apply (open_locked_down random fs3 st w H X Q Hdn3)|].
  { destruct Hseen as [Hno|Hs]; [left|right].
    - cbn [fst snd]. rewrite E1 (quiet_dir _ _ Hq2) (quiet_dir _ _ Hq). exact Hno.
    - intros k. cbn [fst snd]. rewrite Hp3 Hp2 Hp1 Hp0 !drop_drop lookup_drop. apply Hs. }
  intros r [fs4 st4] Hr. cbn [fst snd] in Hr. destruct r as [s|e].
  - apply wp_ret. destruct Hr as (H' & H1 & H2 & H3 & H4 & H5 & H6). exists H'. by rewrite Hlk3 in H6; split_and!.
  - destruct Hr as [Hr _]. wp_step. apply wp_zoom, wp_modify. cbn [fst snd]. apply wp_fail. split; [by eapply (down_same fs4)|done].
Qed.

(** *** The first open *)
Lemma wp_write_locked i pos b fs : wp (write_at i pos b) fs (λ _ fs', locked fs' = locked fs).
Proof.
  rewrite /write_at. wp_step. apply wp_outcome. intros [k|] p; [|by apply wp_modify]. wp_step. apply wp_modify. by apply wp_fail.
Qed.

Lemma header_locked i h fs : wp (header i h) fs (λ _ fs', locked fs' = locked fs).
Proof.
  rewrite /header. wp_step. apply wp_ok_or; [intros b _|done]. wp_step. apply wp_guard; intros _; [|done].
  do 3 (wp_step; eapply wp_mono; [apply wp_write_locked|]; intros [[]|e] ? E; [rewrite -{}E|done]).
  apply wp_write_locked.
Qed.

Lemma new_journal_spec i random w fs : wp (new_journal i id random w) fs (λ r fs', locked fs' = locked fs ∧ match r with
  | Ok x => x = (mkHeader id (digest random) (r_revision w) 0 0, 0, ∅) | Err _ => True end).
Proof using All.
  rewrite /new_journal. wp_step. apply wp_sys; intros p1; [|done]. wp_step. apply wp_sys; intros p2; [|done].
  cbv zeta. wp_step. eapply wp_mono; [apply header_locked|]. intros [[]|e] fs1 E1; [|done].
  change (locked (set_plan p2 (set_plan p1 fs))) with (locked fs) in E1.
  rewrite /sync_all. wp_step. wp_step. apply wp_sys; intros p3; [|done]. apply wp_modify.
  rewrite /sync_dir. wp_step. wp_step. apply wp_sys; intros p4; [|done]. wp_step. apply wp_sys; intros p5; [|done]. apply wp_modify.
  by apply wp_ret.
Qed.

(** A directory without a journal, on a remote volume that knows nothing of the
    identity drawn for it. *)
Definition fresh_ok fs st w : Prop := remote_ok st w [] 0 ∧ level w = 0 ∧ ∀ d, candidate fs d → d !! "journal" = None.

Lemma open_fresh random fs st w : digest random = jid → fresh_ok fs st w →
  wp (open id random) (fs, st) (λ r t, match r with
    | Ok s => live_ok s t.1 t.2 w [] [] ∧ failed s = false ∧ local_sequence s = sequence s ∧ locked t.1 = true
    | Err _ => True
    end).
Proof using All.
  intros Hdig (Hr & Hlv & Hno). pose proof Hr as [].
  rewrite /open. wp_step. apply wp_zoom. cbn [fst snd]. apply wp_sys; intros p0; cbn [fst snd]; [|done].
  wp_step. apply wp_gets. wp_step. apply wp_guard; intros _; [|done].
  wp_step. apply wp_zoom. cbn [fst snd]. eapply wp_mono; [apply secure_spec|]. intros [[]|e] fs1 Hq1; cbn [fst snd]; [|done].
  wp_step. apply wp_zoom. cbn [fst snd]. eapply wp_mono; [by apply open_lock_spec|]. intros [j|e] fs2 Hq2; cbn [fst snd]; [|done].
  wp_step. apply wp_zoom. cbn [fst snd]. rewrite /try_lock. wp_step. apply wp_outcome. intros o p. wp_step. apply wp_gets.
  wp_step. apply wp_guard; intros _; [|done]. apply wp_modify. cbn [fst snd]. wp_step. wp_step. set (fs3 := mkFs _ _ _ _ _ _).
  assert (dir fs3 !! "journal" = None) as Hd3.
  { change (dir fs3) with (dir fs2). rewrite (quiet_dir _ _ Hq2) (quiet_dir _ _ Hq1). apply Hno. by left. }
  apply (wp_mono _ _ (λ r t, match r with
    | Ok s => live_ok s t.1 t.2 w [] [] ∧ failed s = false ∧ local_sequence s = sequence s ∧ locked t.1 = true | Err _ => True end)).
  2: { intros [s|e] [fs4 st4] H4; [by apply wp_ret|]. wp_step. apply wp_zoom, wp_modify. by apply wp_fail. }
  rewrite /open_locked. wp_step. apply wp_zoom. cbn [fst snd]. eapply wp_mono; [by apply (r_open_law st id w)|].
  intros [v|e] st1 [Hc Hv]; cbn [fst snd]; [subst v|done]. pose proof (remote_calm id jid sz D0 Hsz Halign HD0 Hjid _ _ _ _ _ Hc Hr) as Hr1.
  wp_step. apply wp_zoom. cbn [fst snd]. eapply wp_mono; [apply secure_spec|]. intros [[]|e] fs4 Hq4; cbn [fst snd]; [|done].
  pose proof (quiet_lock _ _ Hq4) as [Hlk4 _]. change (locked fs3) with true in Hlk4. rewrite -(quiet_dir _ _ Hq4) in Hd3.
  wp_step. apply wp_zoom. cbn [fst snd]. apply wp_seen; [by left|]. intros pe. cbn [fst snd].
  rewrite bool_decide_false; [rewrite Hd3; by intros [? ?]|].
  wp_step. apply wp_zoom. cbn [fst snd]. rewrite /open_or_create. wp_step. apply wp_sys; intros p1; [|done].
  wp_step. apply wp_gets. change (dir (set_plan p1 (set_plan pe fs4))) with (dir fs4). rewrite Hd3.
  apply (wp_mono _ _ (λ _ fs', locked fs' = true)); [done|]. intros [i|e] fs5 Hlk5; [|done].
  wp_step. apply wp_zoom. cbn [fst snd]. apply wp_file_len; intros p2; [|done]. cbn [fst snd].
  wp_step. apply wp_guard; intros _; [|done]. wp_step. apply wp_zoom. cbn [fst snd].
  eapply wp_mono; [apply new_journal_spec|]. intros r fs6 [Hlk6 Hx]. cbn [fst snd]. change (locked (set_plan p2 fs5)) with (locked fs5) in Hlk6.
  destruct r as [[[h q] m]|e]; [|done]. injection Hx as -> -> ->.
  wp_step. apply wp_of_result. rewrite (r_copy_law st1 id w); [exact (rm_good _ _ _ _ _ _ _ _ Hr1)|done|].
  wp_step. apply wp_of_result. destruct (accept w _) as [s|e] eqn:Ea; [|done].
  assert (sem id jid [] w 0 (mkState (mkHeader id (digest random) (r_revision w) 0 0) i w ∅ 0 0 false false)) as Hs0.
  { split; cbn [hdr pending sequence h_volume h_id h_base acknowledged]; try done; [by rewrite Hlv|by left|].
    intros r Hr'. by apply not_elem_of_nil in Hr'. }
  eapply accept_sem in Ea as ((a & Hs) & Hrd & Hf & Hsq & Hls & _); [|done..]. simpl in Hf, Hsq, Hls.
  pose proof (compact_spec id jid sz [] w a s fs6 Hs ltac:(constructor) ltac:(constructor)) as Hcs. rewrite /wp in Hcs |- *. rewrite /first_compact.
  cbn [fst snd]. destruct (compact (s, fs6)) as [[[]|e] [s' fs7]] eqn:Ec; [|done]. cbn [fst snd].
  rewrite -Hlk5 -Hlk6. eapply compacted_live; [exact Hs|by rewrite Hsq| |done..|exact Hcs].
  split; [constructor|constructor|]. intros r Hr'. by apply not_elem_of_nil in Hr'.
Qed.
End down.
End LocalOpen.
