(* ===== verification/LocalSync.v ===== *)
(** Replication of the local-durable disk to the remote volume: each of its
    phases keeps the invariant of the running disk, whatever the guest does in
    between, and what the remote head holds afterwards. *)
From S2P Require Import Prelude Codec ObjectStore Blocks Files Local LocalLog LocalInv LocalCompact LocalImage LocalSpec LocalRun LocalOpen.

Module LocalSync.
Import Files Local LocalLog LocalInv LocalCompact LocalImage LocalSpec LocalRun LocalOpen.

(** The latest block of an index is at least as recent as any. *)
Lemma overlay_last l r : ordered l → r ∈ l → ∃ q, overlay l !! r.1 = Some q ∧ seq_of r ≤ p_sequence q.
Proof.
  induction l as [|x l IH] using rev_ind; intros Ho Hr; [by apply not_elem_of_nil in Hr|].
  apply ordered_app in Ho as (Ho & _ & Hx). rewrite overlay_snoc. destruct (decide (x.1 = r.1)) as [E|E].
  - exists x.2. rewrite E lookup_insert_eq. split; [done|]. apply elem_of_app in Hr as [Hr|Hr]; [|set_solver].
    apply (Hx r x); set_solver.
  - rewrite lookup_insert_ne //. apply IH; [done|]. set_solver.
Qed.

Lemma newer_empty a l : ordered l → newer a (overlay l) = ∅ → upto a l = l.
Proof.
  intros Ho He. apply upto_all. intros r Hr. destruct (overlay_last l r Ho Hr) as (q & Hq & Hle).
  destruct (decide (p_sequence q ≤ a)); [lia|]. assert (newer a (overlay l) !! r.1 = Some q) as H by (apply newer_lookup; split; [done|lia]).
  by rewrite He in H.
Qed.

Lemma wp_run_remote {V S A} (v : V) (m : M Error (V * S) A) (t : State V * Fs * S) Q :
  wp m (v, t.2) (λ r t', Q (Ok (r, t'.1)) (t.1, t'.2)) → wp (run_remote v m) t Q.
Proof. rewrite /wp /run_remote. by destruct (m (v, t.2)) as [r [v' st']]. Qed.

(** A journal that names another root is refused by a head without its mark. *)
Lemma stale_journal_refused {V S} {R : Remote V S} (w : V) (s : State V) : r_revision w ≠ h_base (hdr s) →
  (∀ r, r_replication w = Some r → rep_id r ≠ h_id (hdr s)) → accept w s = Err Conflict.
Proof.
  intros Hne Hid. rewrite /accept bool_decide_false //. destruct (r_replication w) as [r|] eqn:Hr; [|done].
  by rewrite bool_decide_false; [apply Hid|].
Qed.

Section sync.
Context {SHA : Sha256} {JH : Json Header} {V S : Type} {R : Remote V S} {RL : RemoteLaws V S}.
Context {SHAL : Sha256Laws} {JHL : JsonLaws Header}.
Variables (id jid : string) (sz : Z) (D0 : Disk).
Hypotheses (Hsz : 0 < sz ≤ 2 ^ 50) (Halign : sz mod CHUNK_BYTES = 0) (HD0 : ∀ p, 0 ≤ p < sz → is_byte (D0 p))
  (Hjid : String.length jid = 64%nat ∧ string_all is_ascii_hexdigit jid = true).

Abbreviation level := (level jid).
Abbreviation content := (content D0).
Abbreviation live_ok := (live_ok id jid sz D0).
Abbreviation remote_ok := (remote_ok id jid sz D0).
Implicit Types (H X : list rec) (st : S) (w : V) (s : State V) (fs : Fs).

Lemma pending_empty s fs st w H X : live_ok s fs st w H X → pending s = ∅ → upto (level w) H = H.
Proof using All.
  intros Hl He. destruct (lv_sem _ _ _ _ _ _ _ _ _ _ Hl) as (a & Hs & Ha). rewrite (sem_pending _ _ _ _ _ _ Hs) in He.
  assert (ordered H) as Ho by (by eapply ordered_prefix, (log_ordered _ _ _ _ (lv_log _ _ _ _ _ _ _ _ _ _ Hl))).
  apply newer_empty in He; [|done]. apply upto_all. intros r Hr. rewrite -He in Hr. apply list_elem_of_filter in Hr as [Hr _].
  pose proof (sem_level _ _ _ _ _ _ Hs). lia.
Qed.

Lemma sem_positive H w a s : sem id jid H w a s → pending s ≠ ∅ → 0 < sequence s.
Proof using All.
  intros Hs Hne. apply map_choose in Hne as (i & q & Hi). rewrite (sem_pending _ _ _ _ _ _ Hs) newer_lookup in Hi.
  destruct Hi as [Hq%overlay_elem Ha]. pose proof (sem_seq _ _ _ _ _ _ Hs _ Hq) as Hle. pose proof (sem_ack _ _ _ _ _ _ Hs).
  rewrite /seq_of /= in Hle. lia.
Qed.

(** What a snapshot describes while the disk runs on. *)
Definition snap_ok w H (m : gmap Z Pending) (mark : Replication) (Q : Z) : Prop :=
  rep_id mark = jid ∧ 0 < rep_sequence mark ∧ level w ≤ rep_sequence mark ≤ Q ∧ Z.of_nat (base.size m) * CHUNK_BYTES ≤ DIRTY_LIMIT ∧
  ∃ a, a ≤ level w ∧ m = newer a (overlay (upto (rep_sequence mark) H)).

Lemma snap_grows w H W m mark Q Q' : snap_ok w H m mark Q → Q ≤ Q' → (∀ r, r ∈ W → rep_sequence mark < seq_of r) →
  snap_ok w (H ++ W) m mark Q'.
Proof using All.
  intros (H1 & H0 & H2 & H3 & H4) HQ HW. split; [done|]. split; [done|]. split; [lia|]. split; [done|].
  rewrite upto_app (upto_none _ W) // app_nil_r. done.
Qed.

Definition rep_post (s : State V) st w H X (t : State V * Fs * S) : Prop :=
  t.2 = st ∧ ∃ X', (X' = X ∨ X' = []) ∧ live_ok t.1.1 t.1.2 st w H X' ∧ local_sequence s ≤ local_sequence t.1.1.

Lemma rep_snapshot_live s fs st w H X : live_ok s fs st w H X → wp (rep_snapshot w) (s, fs, st) (λ r t,
  rep_post s st w H X t ∧ locked t.1.2 = locked fs ∧ dir_private t.1.2 = dir_private fs ∧
  match r with
  | Ok o => failed t.1.1 = failed s ∧ local_sequence t.1.1 = sequence s ∧ sequence t.1.1 = sequence s ∧
      match o with
      | Some (m, mark) => snap_ok w H m mark (local_sequence t.1.1) ∧ upto (rep_sequence mark) H = H
      | None => upto (level w) H = H
      end
  | Err _ => failed t.1.1 = true
  end).
Proof using All.
  intros Hl. pose proof (lv_remote _ _ _ _ _ _ _ _ _ _ Hl) as Hw. pose proof (lv_local _ _ _ _ _ _ _ _ _ _ Hl) as HQ.
  rewrite /rep_snapshot. wp_step. apply wp_of_result.
  rewrite (r_copy_law st id w) //; [exact (rm_good _ _ _ _ _ _ _ _ Hw)|exact (rm_clean _ _ _ _ _ _ _ _ Hw)|].
  wp_step. apply wp_gets. cbn [fst snd]. destruct (accept w s) as [s1|e] eqn:Ea.
  2: { wp_step. apply wp_zoom, wp_modify, wp_fail. cbn [fst snd]. split_and!; try done. split; [done|]. exists X. split; [by left|].
       split; [|done]. by apply set_failed_live. }
  eapply accept_live in Ea as (Hl1 & _ & Hf1 & Hsq1 & Hls1 & _ & Hid1 & a & Ha & Hp1); [|done..].
  wp_step. apply wp_zoom, wp_modify. wp_step. apply wp_zoom. cbn [fst snd].
  eapply wp_mono; [by eapply (sync_journal_live id jid sz D0)|]. intros r [s2 fs2] (Hlk & Hpr & Hl2 & Hr). cbn [fst snd] in *.
  destruct r as [[]|e].
  2: { subst s2. split_and!; try done. split; [done|]. exists X. split; [by left|]. split; [done|]. simpl. lia. }
  wp_step. apply wp_gets. cbn [fst snd]. case_bool_decide as He.
  - wp_step. apply wp_zoom. cbn [fst snd]. eapply wp_mono; [by eapply (compact_live id jid sz D0)|].
    intros r [s3 fs3] (Hk & Hlk3 & Hpr3 & Hr3). cbn [fst snd] in *. destruct Hk as (_ & _ & _ & _ & _ & _ & Hsq3 & _).
    assert (upto (level w) H = H) as Hup by (by eapply pending_empty).
    subst s2. cbn [set_synced sequence local_sequence failed] in *. destruct r as [[]|e].
    + destruct Hr3 as (Hl3 & Hf3 & Hls3 & _). apply wp_ret. cbn [fst snd]. split_and!; try congruence.
      split; [done|]. exists []. split; [by right|]. split; [done|]. cbn [fst snd]. lia.
    + destruct Hr3 as (Hl3 & Hf3 & Hls3). cbn [fst snd]. split_and!; try congruence.
      split; [done|]. exists X. split; [by left|]. split; [done|]. cbn [fst snd]. lia.
  - subst s2. cbn [set_synced sequence local_sequence failed pending hdr] in *. apply wp_ret. cbn [fst snd].
    assert (upto (sequence s1) H = H) as Hup.
    { apply upto_all. destruct (lv_sem _ _ _ _ _ _ _ _ _ _ Hl1) as (a1 & Hs1 & _). exact (sem_seq _ _ _ _ _ _ Hs1). }
    split_and!; try done.
    + split; [done|]. exists X. split; [by left|]. split; [done|]. cbn [fst snd set_synced local_sequence]. lia.
    + pose proof (rm_level _ _ _ _ _ _ _ _ Hw). destruct (lv_sem _ _ _ _ _ _ _ _ _ _ Hl1) as (a1 & Hs1 & _).
      pose proof (sem_positive _ _ _ _ Hs1 He) as Hpos.
      split; [done|]. cbn [rep_sequence set_synced local_sequence]. rewrite Hsq1 in Hpos |- *. split; [done|]. split; [lia|]. split; [exact (sem_size _ _ _ _ _ _ Hs1)|].
      exists a. split; [done|]. by rewrite -Hsq1 Hup.
Qed.

Lemma rep_finish_live s fs st w H X : live_ok s fs st w H X → wp (rep_finish w) (s, fs, st) (λ r t,
  rep_post s st w H X t ∧ locked t.1.2 = locked fs ∧ dir_private t.1.2 = dir_private fs ∧
  match r with Ok _ => failed t.1.1 = failed s | Err _ => failed t.1.1 = failed s ∨ failed t.1.1 = true end).
Proof using All.
  intros Hl. pose proof (lv_local _ _ _ _ _ _ _ _ _ _ Hl) as HQ. rewrite /rep_finish. wp_step. apply wp_gets. cbn [fst snd]. wp_step. apply wp_of_result.
  destruct (accept w s) as [s1|e] eqn:Ea.
  2: { split_and!; try done; [|by left]. split; [done|]. exists X. split; [by left|]. done. }
  eapply accept_live in Ea as (Hl1 & _ & Hf1 & Hsq1 & Hls1 & _ & Hid1 & _); [|done..].
  wp_step. apply wp_zoom, wp_modify. apply wp_zoom. cbn [fst snd]. eapply wp_mono; [by eapply (compact_live id jid sz D0)|].
  intros r [s3 fs3] (Hk & Hlk3 & Hpr3 & Hr3). cbn [fst snd] in *. destruct r as [[]|e].
  - destruct Hr3 as (Hl3 & Hf3 & Hls3 & _). split_and!; try congruence. split; [done|]. exists []. split; [by right|].
    split; [done|]. cbn [fst snd]. lia.
  - destruct Hr3 as (Hl3 & Hf3 & Hls3). split_and!; try congruence; [|by right]. split; [done|]. exists X. split; [by left|].
    split; [done|]. cbn [fst snd]. lia.
Qed.

(** *** The push *)
Definition push_writes (m : gmap Z Pending) : M Error (V * S) unit :=
  for_each (entries m) (λ e, r_write (e.1 * CHUNK_BYTES) (p_bytes e.2)).
(** The commit at the end meets no digest collision. *)
Definition push_safe (m : gmap Z Pending) w st : Prop :=
  ∀ w' st', push_writes m (w, st) = (Ok tt, (w', st')) → safe st' w'.

Lemma push_writes_spec m w st : good st id w → based st id w → clean w → r_size w = sz →
  (∀ i q, m !! i = Some q → whole sz (i, q)) → Z.of_nat (base.size m) * CHUNK_BYTES ≤ DIRTY_LIMIT →
  wp (push_writes m) (w, st) (λ r t, calm st t.2 ∧ match r with
    | Ok _ => good t.2 id t.1 ∧ based t.2 id t.1 ∧ r_size t.1 = sz ∧ disk_eq sz (view t.2 t.1) (lay (view st w) m)
    | Err _ => True end).
Proof using All.
  intros Hg Hb Hc Hrs Hm Hlim. rewrite /push_writes.
  assert (∀ r, r ∈ entries m → whole sz r) as Hw by (intros [i q] Hr%elem_of_entries; by apply Hm).
  assert (Zlen (entries m) * CHUNK_BYTES ≤ DIRTY_LIMIT) as Hlen by (by rewrite /Zlen entries_Permutation length_map_to_list).
  apply (wp_for_each _ _ _ (λ rest t, ∃ P, entries m = P ++ rest ∧ calm st t.2 ∧ good t.2 id t.1 ∧ based t.2 id t.1 ∧
    r_size t.1 = sz ∧ unsaved t.1 ≤ Zlen P ∧ disk_eq sz (view t.2 t.1) (lay (view st w) (overlay P)))).
  - exists []. cbn [fst snd]. split_and!; try done. by rewrite (clean_unsaved w Hc).
  - intros [i q] rest [v st1] (P & HP & Hcalm & Hg1 & Hb1 & Hrs1 & Hu1 & Hv1). cbn [fst snd] in *.
    assert ((i, q) ∈ entries m) as Hin by (rewrite HP; set_solver). destruct (Hw _ Hin) as (_ & Hi & Hl & Hby). cbn [fst snd] in Hi, Hl, Hby.
    assert (Zlen (entries m) = Zlen P + (1 + Zlen rest)) as HlP by (by rewrite HP Zlen_app Zlen_cons).
    pose proof (Zlen_nonneg rest). pose proof chunk_bytes_pos.
    eapply wp_mono; [apply (r_write_law st1 id v i (p_bytes q)); try done; [by rewrite Hrs1|nia]|].
    intros [[]|e] [v2 st2] [Hc2 Hr]; cbn [fst snd] in *; [|split; [by trans st1|done]].
    destruct Hr as (Hg2 & Hb2 & Hrs2 & Hu2 & Hv2). rewrite Hrs1 in Hrs2, Hv2. exists (P ++ [(i, q)]). split_and!; try done.
    + by rewrite HP -app_assoc.
    + by trans st1.
    + rewrite Zlen_app Zlen_cons Zlen_nil. lia.
    + rewrite Hv2. intros p Hp. rewrite disk_write_block // overlay_snoc /lay /=.
      case_decide as Hd; [by rewrite Hd lookup_insert_eq|]. rewrite lookup_insert_ne //. by apply Hv1.
  - intros [v st1] (P & HP & Hcalm & Hg1 & Hb1 & Hrs1 & Hu1 & Hv1). cbn [fst snd] in *. rewrite app_nil_r in HP. subst P.
    rewrite overlay_entries in Hv1. done.
Qed.

(** The invariant survives a new remote head. *)
Lemma live_advance s fs st st' w w' H X : live_ok s fs st w H X → later st st' → advanced jid w w' →
  remote_ok st' w' H (local_sequence s) → live_ok s fs st' w' H X.
Proof using All.
  intros Hl Hlt Ha Hw. destruct Hl. destruct lv_reader0 as [Hr Hrs].
  destruct (later_good st st' id (reader s) Hlt Hr) as [Hr' Hv']. rewrite Hrs in Hv'. split; try done.
  - destruct lv_sem0 as (a & Hs & Hle). exists a. split; [|done]. destruct Hs. split; try done.
    + pose proof (level_advanced _ _ _ Ha). lia.
    + by eapply known_root_advanced.
  - by rewrite Hv'.
  - eapply journals_mono; [|exact lv_journals0]. intros j n. rewrite /live_journal. case_decide.
    + intros (g & Hg & Hre). exists g. split; [by eapply img_advanced|done].
    + by apply image_advanced.
  - intros Hf. destruct (lv_exact0 Hf) as (-> & Hd & n & Hn & Hex). split_and!; try done. exists n. split; [done|]. by eapply exact_advanced.
Qed.

(** After a push the head is the old one, or holds the snapshot. *)
Lemma rep_push_live s fs st w H X m mark : live_ok s fs st w H X → snap_ok w H m mark (local_sequence s) → push_safe m w st →
  wp (rep_push m mark) (w, st) (λ r t, ∃ w', live_ok s fs t.2 w' H X ∧
    match r with
    | Ok _ => w' = t.1 ∧ level w' = rep_sequence mark
    | Err _ => w' = w ∨ level w' = rep_sequence mark
    end).
Proof using All.
  intros Hl (Hid & Hpos & Hmark & Hlim & a & Ha & Hm) Hsafe. pose proof (lv_remote _ _ _ _ _ _ _ _ _ _ Hl) as Hw. pose proof Hw as Hw0. destruct Hw0.
  assert (ordered H ∧ Forall (whole sz) H) as [Ho HwH].
  { pose proof (lv_log _ _ _ _ _ _ _ _ _ _ Hl) as Hlg. apply log_prefix in Hlg as (? & ? & _); done. }
  set (q := rep_sequence mark) in *. set (Hs := upto q H).
  assert (ordered Hs) as Hos by (by apply ordered_upto).
  assert (∀ v, r_replication v = Some mark → level v = q) as Hlev.
  { intros v Hv. rewrite /level /LocalInv.level Hv bool_decide_true //. }
  assert (∀ v st1, later st st1 → good st1 id v → based st1 id v → clean v → r_size v = sz → r_replication v = Some mark →
    disk_eq sz (view st1 v) (lay (view st w) m) → live_ok s fs st1 v H X) as Hnew.
  { intros v st1 Hlt Hg Hb Hc Hrs Hr Hv. pose proof (Hlev v Hr) as Hlv. eapply live_advance; [done|done| |].
    - right. split; [lia|]. by exists mark.
    - split; try done; [|lia]. rewrite Hv /replicated Hlv. intros p Hp.
      rewrite (lay_eq _ _ _ _ rm_disk0 p Hp) /replicated /LocalRun.content Hm.
      assert (upto (level w) H = upto (level w) Hs) as ->.
      { rewrite /Hs /upto list_filter_filter. apply list_filter_iff. intros r. lia. }
      by apply lay_newer. }
  rewrite /rep_push. wp_step. eapply wp_mono.
  { apply (wp_and _ _ (λ r t, push_writes m (w, st) = (r, t))); [|apply (push_writes_spec m w st); try done].
    - rewrite /wp. apply surjective_pairing.
    - intros i p Hp. rewrite Hm newer_lookup in Hp. destruct Hp as [Hp%overlay_elem _]. apply list_elem_of_filter in Hp as [_ Hp].
      by eapply Forall_forall in HwH. }
  intros [[]|e] [v st1] [Heq [Hc Hr]]; cbn [fst snd] in *.
  2: { exists w. split; [by eapply live_calm|by left]. }
  destruct Hr as (Hg1 & Hb1 & Hrs1 & Hv1). wp_step. eapply wp_mono; [apply (r_commit_law st1 id v mark); [done|done|by apply Hsafe|done]|].
  assert (later st st1) as Hlt by (by eapply calm_later).
  intros [z|e] [v2 st2] [Hlt2 Hr]; cbn [fst snd] in *.
  - destruct Hr as (Hg2 & Hb2 & Hc2 & Hrs2 & Hv2 & Hr2). rewrite Hrs1 in Hrs2, Hv2. apply wp_ret. exists v2. cbn [fst snd].
    split; [|split; [done|by eapply Hlev]]. apply Hnew; try done; [by trans st1|by trans (view st1 v)].
  - destruct Hr as [Hb2|(v' & Hg2 & Hb2 & Hc2 & Hrs2 & Hv2 & Hr2)].
    + exists w. split; [|by left]. eapply live_advance; [by eapply live_calm|exact Hlt2|by left|].
      pose proof (remote_calm id jid sz D0 Hsz Halign HD0 Hjid st st1 w H (local_sequence s) Hc Hw) as [].
      destruct (later_good st1 st2 id w Hlt2) as [Hg3 Hv3]; [done|]. rewrite rm_size0 in Hv3. split; try done; [by apply Hb2|by rewrite Hv3].
    + exists v'. rewrite Hrs1 in Hrs2, Hv2. split; [|right; by eapply Hlev]. apply Hnew; try done; [by trans st1|by trans (view st1 v)].
Qed.

(** ** Compaction of the remote volume *)
(** The head carries this journal's mark: a pass then keeps the mark, so a journal
    from before the pass is still accepted. *)
Definition marked (id : string) (s : State V) st : Prop := ∀ v st', r_open id st = (Ok v, st') →
  ∃ r, r_replication v = Some r ∧ rep_id r = h_id (hdr s).
(** The pass meets no digest collision, and either the mark is there or the call
    succeeds: then the root is the old one, or the journal is bound to the new. *)
Definition pass_safe (id : string) (s : State V) st (r : Result Error Compaction) : Prop :=
  (∀ v st', r_open id st = (Ok v, st') → safe_pass st' v) ∧ (marked id s st ∨ is_ok r = true).

Lemma rebound_live s fs st w H X : live_ok s fs st w H X → live_ok (rebound w s) fs st w H X.
Proof using All.
  intros []. pose proof lv_remote0 as []. split; try done; cbn [rebound reader sequence local_sequence].
  - destruct lv_sem0 as (a & [] & _). exists a. split; [|done]. split; try done. by left.
  - lia.
Qed.

Definition compacted_post (s : State V) w H X (r : Result Error Compaction) (t : State V * Fs * S) : Prop :=
  ∃ w' X', (X' = X ∨ X' = []) ∧ live_ok t.1.1 t.1.2 t.2 w' H X' ∧ level w' = level w ∧
    local_sequence s ≤ local_sequence t.1.1 ∧
    match r with
    | Ok c => failed s = false ∧ failed t.1.1 = false ∧ upto (level w) H = H ∧
        (rewritten_blocks c = 0 ∧ t.1.1 = s ∧ X' = X ∨ local_sequence t.1.1 = sequence s)
    | Err _ => failed t.1.1 = failed s ∨ failed t.1.1 = true
    end.

(** A successful compaction binds the journal to the new root, whatever the files
    were before. *)
Lemma rebind_live s fs st st' w w' H X : live_ok s fs st w H X → failed s = false → remote_ok st' w' H (local_sequence s) → level w' = level w →
  wp compact (rebound w' s, fs) (λ r t, locked t.2 = locked fs ∧ match r with
    | Ok _ => live_ok t.1 t.2 st' w' H [] ∧ failed t.1 = false ∧ local_sequence t.1 = sequence s | Err _ => True end).
Proof using All.
  intros [] Hf Hr Hlv. destruct lv_sem0 as (a & Hs & Ha). destruct (log_prefix _ _ _ _ lv_log0) as (Ho & Hw & Hlog).
  assert (sem id jid H w' a (rebound w' s)) as Hs' by (destruct Hs; split; try done; [by rewrite Hlv|by left]).
  eapply wp_mono; [exact (compact_spec id jid sz H w' a _ fs Hs' Ho Hw)|]. intros r [s3 fs3] Hpost. cbn [fst snd].
  split; [by destruct Hpost as (_ & ? & _)|]. destruct r as [[]|e]; [|done].
  assert (remote_ok st' w' H (sequence (rebound w' s))) as Hr' by (destruct Hr; split; try done; cbn; lia).
  destruct (compacted_live id jid sz D0 Hsz Halign HD0 Hjid fs fs3 st' w' a H (rebound w' s) s3) as (H1 & H2 & H3 & _); try done.
  split; [done|]. split; [done|]. rewrite H3. destruct Hpost as ((_ & _ & _ & _ & _ & _ & E & _) & _). done.
Qed.

Lemma compact_remote_live s fs st w H X after budget cancel : live_ok s fs st w H X →
  (∀ v st', r_open id st = (Ok v, st') → safe_pass st' v) → (∀ s : S, calm s (cancel s).2) →
  wp (compact_remote id after budget cancel) (s, fs, st) (λ r t, locked t.1.2 = locked fs ∧
    (marked id s st ∨ is_ok r = true → compacted_post s w H X r t)).
Proof using All.
  intros Hl Hsafe Hc. pose proof (lv_remote _ _ _ _ _ _ _ _ _ _ Hl) as Hw. pose proof Hw as [].
  assert (∀ e st', calm st st' → locked fs = locked fs ∧ (marked id s st ∨ is_ok (Err (A := Compaction) e) = true → compacted_post s w H X (Err e) (s, fs, st'))) as Hsame.
  { intros e st' Hcalm. split; [done|]. intros _. exists w, X. split_and!; [by left|by eapply live_calm|done|done|by left]. }
  rewrite /compact_remote. wp_step. apply wp_gets. cbn [fst snd].
  wp_step. apply wp_guard; [intros Hf%negb_true_iff|intros _; by apply Hsame].
  wp_step. apply wp_guard; [intros Hp%bool_decide_eq_true|intros _; by apply Hsame].
  pose proof (pending_empty _ _ _ _ _ _ Hl Hp) as Hup.
  wp_step. apply wp_on_store. eapply wp_mono; [apply wp_self, (r_open_law st id w); done|].
  intros [v|e] st1 (Hrun & Hcalm & Hv); [|by apply Hsame]. subst v.
  pose proof (Hsafe _ _ Hrun) as Hsp.
  wp_step. apply wp_guard; [intros _|intros _; by apply Hsame].
  assert (live_ok s fs st1 w H X) as Hl1 by (by eapply live_calm).
  pose proof (lv_remote _ _ _ _ _ _ _ _ _ _ Hl1) as []. wp_step.
  assert (∀ w' st2, later st1 st2 → good st2 id w' → based st2 id w' → clean w' → r_size w' = r_size w →
    disk_eq (r_size w) (view st2 w') (view st1 w) → r_replication w' = r_replication w →
    level w' = level w ∧ remote_ok st2 w' H (local_sequence s) ∧ (marked id s st → live_ok s fs st2 w' H X)) as Hadv.
  { intros w' st2 Hlt Hg Hb Hcl Hs' Hd Hrep. assert (level w' = level w) as Hlv by by rewrite /level /LocalInv.level Hrep.
    destruct (lv_sem _ _ _ _ _ _ _ _ _ _ Hl) as (a & Hsem & _).
    rewrite rm_size0 in Hs', Hd. assert (remote_ok st2 w' H (local_sequence s)) as Hr2.
    { split; try done; [|by rewrite Hlv]. etrans; [exact Hd|]. rewrite /replicated Hlv. done. }
    split; [done|]. split; [done|]. intros Hmark. destruct (Hmark _ _ Hrun) as (mk & Hmk & Hid).
    eapply live_advance; [exact Hl1|exact Hlt| |exact Hr2].
    right. split; [lia|]. exists mk. split; [congruence|]. by rewrite Hid (sem_id _ _ _ _ _ _ Hsem). }
  apply wp_run_remote. cbn [snd]. eapply wp_mono; [by apply r_compact_law|]. intros r [v' st2] [Hlt Hr]. cbn [fst snd] in *. cbv zeta in Hr.
  cbn beta iota. destruct r as [c|e].
  - destruct Hr as [(Hg & Hb & Hcl & Hs' & Hd & Hrep) Hsame0]. destruct (Hadv v' st2) as (Hlv & Hr2 & Hl2); [done..|].
    destruct (Z.eqb_spec (rewritten_blocks c) 0) as [H0|H0].
    + do 2 wp_step. split; [done|]. intros _. specialize (Hsame0 H0). subst v'. exists w, X. cbn [fst snd].
      split; [by left|]. split; [by eapply live_advance; [exact Hl1|exact Hlt|by left|]|]. split; [done|]. split; [done|]. split_and!; [done..|by left].
    + wp_step. wp_step. apply wp_zoom, wp_modify. apply wp_zoom. cbn [fst snd].
      assert (marked id s st → wp compact (rebound v' s, fs) (λ r t, match r with
        | Ok _ => True | Err _ => live_ok t.1 t.2 st2 v' H X ∧ failed t.1 = true ∧ local_sequence t.1 = local_sequence s end)) as Herr.
      { intros Hm. eapply wp_mono; [eapply (compact_live id jid sz D0); try done; by apply rebound_live, Hl2|].
        intros r [s3 fs3] (_ & _ & _ & Hr3). by destruct r. }
      eapply wp_mono; [apply wp_and; [by eapply (rebind_live s fs st1 st2 w v')|apply (wp_implied _ _ _ _ Herr)]|].
      intros r [s3 fs3] [[Hlk3 Hr3] Hr3']. cbn [fst snd] in *. pose proof (lv_local _ _ _ _ _ _ _ _ _ _ Hl1). destruct r as [[]|e].
      * destruct Hr3 as (Hl3 & Hf3 & Hls3). wp_step. split; [done|]. intros _. exists v', [].
        cbn [fst snd]. split; [by right|]. split; [done|]. split; [done|]. split; [lia|]. split_and!; [done|congruence|done|by right].
      * split; [done|]. intros [Hm|[=]]. destruct (Hr3' Hm) as (Hl3 & Hf3 & Hls3). exists v', X.
        cbn [fst snd]. split; [by left|]. split; [done|]. split; [done|]. split; [lia|by right].
  - destruct Hr as (w' & Hg & Hb & Hcl & Hs' & Hd & Hrep). destruct (Hadv w' st2) as (Hlv & Hr2 & Hl2); [done..|].
    wp_step. destruct (moved_head e).
    + apply wp_zoom, wp_modify, wp_fail. split; [done|]. intros [Hm|[=]]. exists w', X. cbn [fst snd].
      split_and!; [by left|by apply set_failed_live, Hl2|done|done|by right].
    + apply wp_ret, wp_fail. split; [done|]. intros [Hm|[=]]. exists w', X. split_and!; [by left|by apply Hl2|done|done|by left].
Qed.
End sync.
End LocalSync.
