(* ===== verification/LocalFresh.v ===== *)
(** Opening a local-durable disk in a directory that never held anything: the
    journal is missing, or an earlier open failed while it made one.  Whatever
    fails, the directory stays like that; an open that succeeds starts from the
    remote volume. *)
From S2P Require Import Prelude Codec ObjectStore Blocks Files Local LocalLog LocalInv LocalCompact LocalImage LocalSpec LocalRun LocalOpen.

Module LocalFresh.
Import Files Local LocalLog LocalInv LocalCompact LocalImage LocalSpec LocalRun LocalOpen.

(** An identity that [open] accepts. *)
Definition hex64 (jid : string) : Prop := String.length jid = 64%nat ∧ string_all is_ascii_hexdigit jid = true.

Lemma string_all_impl (f g : Ascii.ascii → bool) s : (∀ c, f c = true → g c = true) → string_all f s = true → string_all g s = true.
Proof. intros Hfg. induction s as [|c s IH]; [done|]. simpl. intros [? ?]%andb_prop. rewrite Hfg //. by apply IH. Qed.

Lemma digest_hexdigits {SHA : Sha256} {SHAL : Sha256Laws} b :
  String.length (digest b) = 64%nat ∧ string_all is_ascii_hexdigit (digest b) = true.
Proof.
  pose proof (valid_hash_digest b) as [Hl Ha]%andb_prop. split; [by apply Nat.eqb_eq|].
  eapply string_all_impl, Ha. intros c. rewrite /is_hex_lower /is_ascii_hexdigit. intros ->. done.
Qed.

Section fresh.
Context {SHA : Sha256} {JH : Json Header} {V S : Type} {R : Remote V S} {RL : RemoteLaws V S}.
Context {SHAL : Sha256Laws} {JHL : JsonLaws Header}.
Variables (id : string) (sz : Z) (D0 : Disk).
Hypotheses (Hsz : 0 < sz ≤ 2 ^ 50) (Halign : sz mod CHUNK_BYTES = 0) (HD0 : ∀ p, 0 ≤ p < sz → is_byte (D0 p)).
Implicit Types (st : S) (w : V) (s : State V) (fs : Fs) (h : Header) (n : Inode).

(** The header of a journal without records, on a remote volume that does not know
    its identity. *)
Record newborn w h : Prop := {
  nb_vol : h_volume h = id;
  nb_id : hex64 (h_id h);
  nb_ack : acknowledged h = 0;
  nb_seq : 0 ≤ h_sequence h;
  nb_base : h_base h = r_revision w;
  nb_level : level (h_id h) w = 0;
}.
(** What an open leaves of the file it was making. *)
Definition blank w n : Prop := synced n `prefix_of` data n ∧
  (data n = [] ∨ ∃ h hb, newborn w h ∧ to_vec h = Some hb ∧ Zlen hb ≤ 4096 ∧ data n `prefix_of` header_bytes hb).
Definition unborn w fs : Prop := ∀ d, candidate fs d →
  d !! "journal" = None ∨ ∃ j n, d !! "journal" = Some j ∧ inodes fs !! j = Some n ∧ blank w n.

Lemma unborn_quiet w fs fs' : quiet fs fs' → unborn w fs → unborn w fs'.
Proof using.
  intros Hq Hu d' (d & Hd & E)%(quiet_past _ _ Hq). rewrite E. destruct (Hu d Hd) as [?|(j & n & Hj & Hn & Hb)]; [by left|].
  right. exists j, n. split; [done|]. split; [by apply (quiet_inodes _ _ Hq)|done].
Qed.

Lemma unborn_same w fs fs' : dir fs' = dir fs → past fs' = past fs → inodes fs' = inodes fs → unborn w fs → unborn w fs'.
Proof using. intros E1 E2 E3 Hu d Hd. rewrite E3. apply Hu. by rewrite /candidate -E1 -E2. Qed.

Lemma unborn_writes w i n fs fs' : unborn w fs → writes i fs fs' → inodes fs' !! i = Some n → blank w n → unborn w fs'.
Proof using.
  intros Hu (E1 & E2 & _ & _ & Hw) Hn Hb d Hd. rewrite /candidate E1 E2 in Hd. destruct (Hu d Hd) as [?|(j & m & Hj & Hm & Hbm)]; [by left|].
  right. destruct (decide (j = i)) as [->|Hne]; [by exists i, n|]. exists j, m. by rewrite Hw.
Qed.

Lemma blank_settled w n n' : blank w n → settled n n' → blank w n'.
Proof using.
  intros [Hp Hb] (_ & Es & Hd). assert (data n' `prefix_of` data n) as Hd'.
  { destruct Hd as [[_ ?]|[[H1 H2]|[Hn _]]]; [done|by etrans|]. by destruct Hn. }
  split; [by rewrite Es|]. destruct Hb as [Hb|(h & hb & Hh & Hj & Hl & Hx)].
  - left. rewrite Hb in Hd'. by apply prefix_nil_inv.
  - right. exists h, hb. split_and!; try done. by etrans.
Qed.

Lemma unborn_crash w fs fs' : unborn w fs → crashed fs fs' → unborn w fs'.
Proof using.
  intros Hu (Hd & Hp & _ & _ & Hi) d' Hc. rewrite /candidate Hp in Hc. destruct Hc as [->|Hc]; [|by apply not_elem_of_nil in Hc].
  destruct (Hu (dir fs')) as [?|(j & n & Hj & Hn & Hb)]; [by destruct Hd; [left|right]|by left|].
  specialize (Hi j). rewrite Hn in Hi. destruct (inodes fs' !! j) as [n'|] eqn:En; [|done].
  right. exists j, n'. split_and!; try done. by eapply blank_settled.
Qed.

(** *** Reading what is there *)
Lemma load_blank w n i fs : inodes fs !! i = Some n → blank w n →
  wp (load_journal i id w) fs (λ r fs', fs' = set_plan (plan fs') fs ∧
    match r with Ok x => ∃ h, newborn w h ∧ x = (h, h_sequence h, ∅) | Err _ => True end).
Proof using All.
  intros Hn [_ Hb]. assert (contents i fs = data n) as Hc by by rewrite /contents Hn.
  destruct Hb as [He|(h & hb & Hh & Hj & Hl & Hx)].
  - rewrite /load_journal /read_header. wp_step. wp_step. apply wp_read_exact; intros p; [|done]. rewrite Hc He Zlen_nil. lia.
  - destruct (decide (Zlen (header_bytes hb) ≤ Zlen (data n))) as [Hle|Hlt].
    + assert (data n = header_bytes hb) as Hd.
      { destruct Hx as [k Hk]. rewrite Hk Zlen_app in Hle. destruct k as [|x k]; [by rewrite app_nil_r in Hk|].
        rewrite Zlen_cons in Hle. pose proof (Zlen_nonneg k). lia. }
      destruct Hh. pose proof nb_id0 as Hid. rewrite /load_journal. wp_step.
      eapply wp_mono; [apply (read_header_spec id (h_id h) sz Hsz Hid i h hb [] fs); [by rewrite Hc Hd app_nil_r|done|done|done|done|lia]|].
      intros [x|e] fs1 [Hf Hr]; rewrite Hf; [|done]. subst x. wp_step. apply wp_gets. wp_step. cbn [replay].
      wp_step. apply wp_file_len; intros p; [|done].
      assert (contents i (set_plan (plan fs1) fs) = header_bytes hb) as -> by by rewrite -Hd -Hc.
      rewrite Z.sub_diag /=. wp_step. apply wp_ret. split; [done|]. by exists h.
    + rewrite /load_journal /read_header. pose proof (Zlen_nonneg hb) as H0. rewrite Zlen_header_bytes in Hlt.
      wp_step. wp_step. apply wp_read_exact; intros p1; [intros H12|done]. rewrite Hc in H12 |- *. destruct Hx as [k Hk].
      assert (slice (data n) 0 12 = MAGIC ++ to_be_bytes 4 (Zlen hb)) as ->.
      { rewrite -(slice_app_l _ k); [lia..|]. rewrite -Hk /header_bytes (app_assoc MAGIC).
        apply slice_here. by rewrite Zlen_app Zlen_to_be_bytes. }
      change (drop 8 (MAGIC ++ to_be_bytes 4 (Zlen hb))) with (to_be_bytes 4 (Zlen hb)). 
      assert (from_be_bytes (to_be_bytes 4 (Zlen hb)) = Zlen hb) as -> by (apply from_to_be_bytes; lia). cbv zeta.
      wp_step. wp_step; [|done]. wp_step. apply wp_read_exact; intros p2; [intros H2|done].
      change (contents i (set_plan p1 fs)) with (contents i fs). wp_step. apply wp_read_exact; intros p3; [intros H3|done].
      change (contents i (set_plan p2 (set_plan p1 fs))) with (contents i fs) in H3. rewrite Hc in H3. lia.
Qed.

(** *** Compaction *)
Lemma compact_unborn w s fs : newborn w (hdr s) → acknowledged (hdr s) ≤ sequence s → pending s = ∅ → unborn w fs →
  wp compact (s, fs) (λ r t, match r with Ok _ => True | Err _ => unborn w t.2 end).
Proof using All.
  intros Hnb Hq Hp Hu. rewrite /compact. wp_step. wp_step. eapply wp_mono; [apply compact_inner_spec|].
  intros [[]|e] [s' fs'] (Hc & _); cbn beta iota; [by apply wp_ret|].
  destruct Hc as [_ Hq']. wp_step. apply wp_modify, wp_fail. cbn [fst snd] in *.
  destruct Hq' as [Hq'|(out & hb & Hj & Hlen & Hn & Hout & Hkeep & Hcand)]; [by eapply unborn_quiet|].
  intros d' [Hd'|(d & Hd1 & Hd2)]%Hcand.
  - right. exists out. eexists. split; [done|]. split; [exact Hn|]. split; [done|]. right. exists (hdr (stamped s)), hb.
    destruct Hnb. split; [split; cbn; try done; lia|]. split_and!; try done. cbn [data].
    rewrite /new_journal_bytes Hp /journal. replace (sorted_entries ∅) with (@nil (Z * Pending)) by (by vm_compute).
    by rewrite /records /= app_nil_r.
  - rewrite Hd2. destruct (Hu d Hd1) as [?|(j & n & Hj1 & Hn1 & Hb)]; [by left|]. right. exists j, n. split_and!; try done. by apply Hkeep.
Qed.

(** What a successful open is, and a failed one. *)
Definition fresh_post fs w (r : Result Error (State V)) (fs' : Fs) st' : Prop :=
  locked fs' = locked fs ∧ match r with
  | Ok s => ∃ jid, hex64 jid ∧ live_ok id jid sz D0 s fs' st' w [] [] ∧ failed s = false ∧ local_sequence s = sequence s
  | Err _ => unborn w fs'
  end.

Definition remote_is st w : Prop :=
  good st id w ∧ based st id w ∧ clean w ∧ r_size w = sz ∧ disk_eq sz (view st w) D0.

Lemma first_compact_fresh st w h i fs : remote_is st w → newborn w h → unborn w fs →
  wp (s ← of_result (accept w (mkState h i w ∅ (h_sequence h) (h_sequence h) false false)); first_compact s) (fs, st)
    (λ r t, fresh_post fs w r t.1 t.2 ∧ t.2 = st).
Proof using All.
  intros (Hg & Hb & Hc & Hs & Hv) Hnb Hu. pose proof Hnb as []. wp_step. apply wp_of_result.
  rewrite /accept nb_base0 bool_decide_true //. rewrite map_filter_empty. set (s := mkState _ _ _ _ _ _ _ _).
  assert (newborn w (hdr s)) as Hnb' by (by split).
  assert (sem id (h_id h) [] w 0 s) as Hsem.
  { split; cbn; try done; [lia|by rewrite nb_level0|lia|by left|].
    intros r Hr. by apply not_elem_of_nil in Hr. }
  assert (wp compact (s, fs) (λ r t, compact_post id (h_id h) sz [] w s fs r t ∧ match r with Ok _ => True | Err _ => unborn w t.2 end)) as Hcs.
  { apply wp_and; [by eapply compact_spec; [|constructor|constructor]|]. apply compact_unborn; try done. cbn. lia. }
  rewrite /wp in Hcs |- *. rewrite /first_compact. cbn [fst snd]. destruct (compact (s, fs)) as [r [s' fs']]. cbn [fst snd] in *.
  destruct Hcs as [Hpost Hun]. split; [|by destruct r]. destruct r as [[]|e].
  - destruct (compacted_live id (h_id h) sz D0 Hsz Halign HD0 nb_id0 fs fs' st w 0 [] s s') as (Hl & Hf & Hls & Hlk); try done.
    + split; try done. cbn. by rewrite nb_level0.
    + split; [constructor|constructor|]. intros r Hr. by apply not_elem_of_nil in Hr.
    + split; [done|]. by exists (h_id h).
  - by destruct Hpost as (_ & Hlk & _).
Qed.

(** *** Making a journal *)
Lemma blank_torn w i x fs fs1 n : newborn w x → ∀ hb, to_vec x = Some hb → Zlen hb ≤ 4096 →
  n = mkInode [] [] true → ∀ b, b `prefix_of` header_bytes hb → unborn w fs → writes i fs fs1 →
  inodes fs1 !! i = Some (append b n) → unborn w fs1.
Proof using.
  intros Hnb hb Hj Hl -> b Hb Hu Hw Hn. eapply unborn_writes; [done..|]. split; [apply prefix_nil|]. right. by exists x, hb.
Qed.

Definition header_post w h i fs (r : Result Error unit) fs' : Prop :=
  unborn w fs' ∧ writes i fs fs' ∧ match r with
  | Ok _ => ∃ hb, to_vec h = Some hb ∧ Zlen hb ≤ 4096 ∧ inodes fs' !! i = Some (mkInode (header_bytes hb) [] true)
  | Err _ => True end.

Lemma header_fresh w h i fs : newborn w h → unborn w fs → inodes fs !! i = Some (mkInode [] [] true) →
  wp (header i h) fs (header_post w h i fs).
Proof using.
  intros Hnb Hu Hn. rewrite /header. wp_step. apply wp_ok_or; [intros hb Hj|done]. wp_step. apply wp_guard; [intros Hl%Z.leb_le|done].
  set (n0 := mkInode [] [] true). set (h2 := to_be_bytes 4 (Zlen hb)). set (h3 := as_bytes (digest hb)).
  assert (∀ b x fs1 r, b ++ x = header_bytes hb → writes i fs fs1 ∧ (match r : Result Error unit with
      | Ok _ => inodes fs1 !! i = Some (append b n0)
      | Err e => e = Store ∧ ∃ y, y `prefix_of` b ∧ inodes fs1 !! i = Some (append y n0) end) → unborn w fs1) as Htorn.
  { intros b x fs1 r Hbx [Hw Hr]. assert (b `prefix_of` header_bytes hb) as Hb by by exists x.
    destruct r as [|e]; [by eapply (blank_torn w i h fs fs1 n0)|]. destruct Hr as (_ & y & Hy & Hr).
    apply (blank_torn w i h fs fs1 n0 Hnb hb Hj Hl eq_refl y); [by etrans|done..]. }
  assert (∀ pos b c x fs1 (k : M Error Fs unit), Zlen b = pos → b ++ c ++ x = header_bytes hb → writes i fs fs1 → inodes fs1 !! i = Some (append b n0) →
    (∀ fs2, writes i fs fs2 → inodes fs2 !! i = Some (append (b ++ c) n0) → unborn w fs2 →
      wp k fs2 (header_post w h i fs)) →
    wp (write_at i pos c;; k) fs1 (header_post w h i fs)) as Hstep.
  { intros pos b c x fs1 k Hpos Hbx Hw1 Hn1 Hk. wp_step. eapply wp_mono; [by eapply write_at_spec|]. intros r fs2 [Hw2 Hr].
    assert (writes i fs fs2) as Hw by (by trans fs1).
    assert (unborn w fs2) as Hu2.
    { apply (Htorn (b ++ c) x fs2 r); [by rewrite -app_assoc|]. split; [done|]. destruct r as [[]|e]; [by rewrite Hr append_append|].
      destruct Hr as (-> & y & Hy & ->). split; [done|]. exists (b ++ y). split; [by apply prefix_app|]. by rewrite append_append. }
    destruct r as [[]|e]; [|done]. apply Hk; [done| |done]. by rewrite Hr append_append. }
  apply (Hstep 0 [] MAGIC (h2 ++ hb ++ h3)); [done|done|done|by rewrite append_nil|]. intros fs1 Hw1 Hn1 _.
  apply (Hstep 8 MAGIC h2 (hb ++ h3)); [done..|]. intros fs2 Hw2 Hn2 _.
  apply (Hstep 12 (MAGIC ++ h2) hb h3); [by rewrite Zlen_app Zlen_to_be_bytes|by rewrite -app_assoc|done..|]. intros fs3 Hw3 Hn3 _.
  eapply wp_mono; [eapply write_at_spec; [exact Hn3|]; change (Zlen ((MAGIC ++ h2) ++ hb) = 12 + Zlen hb); rewrite !Zlen_app Zlen_to_be_bytes; change (Zlen MAGIC) with 8; lia|]. intros r fs4 [Hw4 Hr]. assert (writes i fs fs4) as Hw by (by trans fs3).
  assert (unborn w fs4) as Hu4.
  { apply (Htorn (header_bytes hb) [] fs4 r); [by rewrite app_nil_r|]. split; [done|]. destruct r as [[]|e].
    - rewrite Hr append_append. by rewrite -!app_assoc.
    - destruct Hr as (-> & y & Hy & ->). split; [done|]. eexists (_ ++ y). rewrite append_append. split; [|done].
      rewrite /header_bytes -!app_assoc. by do 3 apply prefix_app. }
  split; [done|]. split; [done|]. destruct r as [[]|e]; [|done]. exists hb. split; [done|]. split; [done|].
  assert (((MAGIC ++ h2) ++ hb) ++ h3 = header_bytes hb) as <- by by rewrite -!app_assoc.
  by rewrite Hr append_append.
Qed.

Lemma new_journal_fresh i random w fs : level (digest random) w = 0 → unborn w fs → inodes fs !! i = Some (mkInode [] [] true) →
  wp (new_journal i id random w) fs (λ r fs', unborn w fs' ∧ locked fs' = locked fs ∧ match r with
    | Ok x => ∃ h, newborn w h ∧ x = (h, h_sequence h, ∅) | Err _ => True end).
Proof using All.
  intros Hlv Hu Hn. rewrite /new_journal. wp_step. apply wp_sys; intros p1; [|done]. wp_step. apply wp_sys; intros p2; [|done].
  cbv zeta. set (h := mkHeader id (digest random) (r_revision w) 0 0).
  assert (newborn w h) as Hnb by (split; cbn; try done; apply digest_hexdigits).
  wp_step. eapply wp_mono; [by apply header_fresh|]. intros r fs1 (Hu1 & Hw1 & Hr). destruct Hw1 as (_ & _ & Hlk1 & _).
  change (locked (set_plan p2 (set_plan p1 fs))) with (locked fs) in Hlk1. destruct r as [[]|e]; [|done].
  destruct Hr as (hb & Hj & Hl & Hn1).
  wp_step. eapply wp_mono; [by apply sync_all_spec|]. intros r fs2 [Hw2 Hr]. pose proof Hw2 as (_ & _ & Hlk2 & _).
  assert (unborn w fs2) as Hu2.
  { destruct r as [[]|e]; [|destruct Hr as [_ Hr]]; (eapply unborn_writes; [exact Hu1|exact Hw2|exact Hr|]);
      (split; [done || apply prefix_nil|]; right; by exists h, hb). }
  destruct r as [[]|e]; [|split; [done|split; [congruence|done]]].
  rewrite /sync_dir. wp_step. wp_step. apply wp_sys; intros p3; [|split; [done|split; [cbn; congruence|done]]].
  wp_step. apply wp_sys; intros p4; [|split; [done|split; [cbn; congruence|done]]]. apply wp_modify. apply wp_ret.
  split; [|split; [cbn; congruence|by exists h]]. intros d Hd. apply Hu2. rewrite /candidate /= in Hd.
  destruct Hd as [->|Hd]; [by left|by apply not_elem_of_nil in Hd].
Qed.

(** *** Opening *)
Lemma remote_is_calm st st' w : calm st st' → remote_is st w → remote_is st' w.
Proof using.
  intros Hc (Hg & Hb & Hcl & Hs & Hv). destruct (later_good st st' id w) as [Hg' Hv']; [by eapply calm_later|done|].
  split_and!; try done; [by eapply calm_based|]. rewrite Hs in Hv'. by rewrite Hv'.
Qed.

Lemma journal_fresh random st w (e : bool) i fs n : remote_is st w → level (digest random) w = 0 → unborn w fs →
  inodes fs !! i = Some n → blank w n → (e = false → n = mkInode [] [] true) →
  wp ('(h, seq, m) ← on_files (if e then load_journal i id w else new_journal i id random w);
      copy ← of_result (r_copy w);
      s ← of_result (accept w (mkState h i copy m seq seq false false));
      first_compact s) (fs, st) (λ r t, fresh_post fs w r t.1 t.2 ∧ t.2 = st).
Proof using All.
  intros Hrem Hlv Hu Hn Hb He. pose proof Hrem as (Hg & _ & Hcl & _).
  assert (wp (if e then load_journal i id w else new_journal i id random w) fs (λ r fs', unborn w fs' ∧ locked fs' = locked fs ∧
    match r with Ok x => ∃ h, newborn w h ∧ x = (h, h_sequence h, ∅) | Err _ => True end)) as Hj.
  { destruct e.
    - eapply wp_mono; [by eapply load_blank|]. intros r fs' [-> Hr]. by split.
    - apply new_journal_fresh; [done|done|]. by rewrite Hn He. }
  wp_step. apply wp_zoom. cbn [fst snd]. eapply wp_mono; [exact Hj|]. intros r fs1 (Hu1 & Hlk1 & Hr). cbn [fst snd].
  destruct r as [x|e0]; [|done]. destruct Hr as (h & Hnb & ->). wp_step. apply wp_of_result. rewrite (r_copy_law st id w) //.
  eapply wp_mono; [by apply (first_compact_fresh st w h i fs1)|]. intros r [fs2 st2] [[Hlk Hr] Hst]. cbn [fst snd] in *.
  split; [|done]. split; [congruence|done].
Qed.

Lemma open_or_create_fresh w fs : unborn w fs → wp (open_or_create "journal") fs (λ r fs', unborn w fs' ∧ locked fs' = locked fs ∧
  match r with
  | Ok i => ∃ n, inodes fs' !! i = Some n ∧ blank w n ∧ (dir fs !! "journal" = None → n = mkInode [] [] true)
  | Err _ => True
  end).
Proof using.
  intros Hu. rewrite /open_or_create. wp_step. apply wp_sys; intros p; [|done]. wp_step. apply wp_gets.
  change (dir (set_plan p fs)) with (dir fs).
  destruct (Hu (dir fs)) as [Hnone|(i & n & Hi & Hn & Hbl)]; [by left| |].
  - rewrite Hnone /wp /make. cbn [fst snd]. set (i := fresh_inode _). set (fs2 := set_dir _ _).
    assert (inodes fs !! i = None) as Hi by apply (fresh_inode_None fs).
    assert (∀ j, inodes fs2 !! j = <[i := mkInode [] [] true]> (inodes fs) !! j) as Hlk by done. split; [|split; [done|]].
    + intros d Hd. destruct Hd as [->|Hd].
      * right. exists i. eexists. rewrite /= !lookup_insert_eq. split; [done|]. split; [done|]. split; [done|by left].
      * assert (candidate fs d) as Hd1 by (apply elem_of_cons in Hd; by destruct Hd as [->|]; [left|right]).
        destruct (Hu d Hd1) as [?|(j & n & Hj & Hn & Hb1)]; [by left|]. right. exists j, n. rewrite Hlk lookup_insert_ne //.
        intros <-. by rewrite Hn in Hi.
    + exists (mkInode [] [] true). rewrite Hlk lookup_insert_eq. split; [done|]. split; [|done]. split; [done|by left].
  - rewrite Hi. apply wp_ret. split; [done|]. split; [done|]. exists n. split; [done|]. split; [done|]. congruence.
Qed.

Lemma open_locked_fresh random st w fs : remote_is st w → level (digest random) w = 0 → unborn w fs →
  dir fs !! "journal" = None ∨ (∀ k, plan fs !! 1%nat ≠ Some (Some k)) →
  wp (open_locked id random) (fs, st) (λ r t, fresh_post fs w r t.1 t.2 ∧ calm st t.2).
Proof using All.
  intros Hrem Hlv Hu Hseen. pose proof Hrem as (Hg & Hb & Hc & _).
  rewrite /open_locked. wp_step. apply wp_zoom. cbn [fst snd]. eapply wp_mono; [by apply (r_open_law st id w)|].
  intros [v|e] st1 [Hcalm Hv]; cbn [fst snd]; [subst v|done]. pose proof (remote_is_calm _ _ _ Hcalm Hrem) as Hrem1.
  assert (∀ r fs1 fs2 st2, locked fs1 = locked fs → fresh_post fs1 w r fs2 st2 ∧ st2 = st1 → fresh_post fs w r fs2 st2 ∧ calm st st2) as Hend.
  { intros r fs1 fs2 st2 Hlk [[Hl Hr] ->]. split; [|done]. split; [congruence|done]. }
  wp_step. apply wp_zoom. cbn [fst snd]. eapply wp_mono; [apply wp_and; [apply secure_spec|apply uses_secure]|]. intros r fs1 [Hq Hplan]. cbn [fst snd].
  pose proof (unborn_quiet _ _ _ Hq Hu) as Hu1. pose proof (quiet_lock _ _ Hq) as [Hlk1 _]. destruct r as [[]|e]; [|done].
  wp_step. apply wp_zoom. cbn [fst snd]. apply wp_seen.
  { destruct Hseen as [Hno|Hs]; [left; by rewrite (quiet_dir _ _ Hq)|right]. intros k. rewrite Hplan lookup_drop. apply Hs. }
  intros pe. cbn [fst snd].
  wp_step. apply wp_zoom. cbn [fst snd]. eapply wp_mono; [by apply open_or_create_fresh|]. intros r fs2 (Hu2 & Hlk2 & Hr). cbn [fst snd].
  change (locked (set_plan pe fs1)) with (locked fs1) in Hlk2. change (dir (set_plan pe fs1)) with (dir fs1) in Hr.
  destruct r as [i|e]; [|by split; [split; [congruence|]|]]. destruct Hr as (n & Hn & Hbl & Hnew).
  wp_step. apply wp_zoom. cbn [fst snd]. apply wp_file_len; intros p2; [|by split; [split; [cbn; congruence|]|]]. cbn [fst snd].
  wp_step. apply wp_guard; intros _; [|by split; [split; [cbn; congruence|]|]].
  eapply wp_mono; [eapply (journal_fresh random st1 w _ i _ n); try done|].
  - intros Hd%bool_decide_eq_false. apply Hnew. destruct (dir fs1 !! _); [|done]. exfalso. apply Hd. by eexists.
  - intros r [fs3 st3] H3. eapply Hend; [|exact H3]. cbn. congruence.
Qed.

(** An open of a directory that never held anything: it starts from the remote
    volume, or leaves the directory as it was. *)
Lemma open_unborn random st w fs : remote_is st w → level (digest random) w = 0 → unborn w fs → locked fs = false → journal_seen fs →
  wp (open id random) (fs, st) (λ r t, calm st t.2 ∧ match r with
    | Ok s => locked t.1 = true ∧ ∃ jid, hex64 jid ∧ live_ok id jid sz D0 s t.1 t.2 w [] [] ∧ failed s = false ∧ local_sequence s = sequence s
    | Err _ => locked t.1 = false ∧ unborn w t.1
    end).
Proof using All.
  intros Hrem Hlv Hu Hlk Hseen. rewrite /open. wp_step. apply wp_zoom. cbn [fst snd].
  assert (∀ p, unborn w (set_plan p fs)) as Hp by done.
  eapply wp_mono; [apply wp_and; [apply (wp_sys fs (λ r f, ∃ p, f = set_plan p fs)); intros p; by exists p|apply uses_sys]|].
  intros r f0 [[p0 ->] Hp0]. cbn [fst snd]. destruct r as [[]|e]; [|done]. wp_step. apply wp_gets. wp_step. apply wp_guard; intros _; [|done].
  wp_step. apply wp_zoom. cbn [fst snd]. eapply wp_mono; [apply wp_and; [apply secure_spec|apply uses_secure]|]. intros r fs1 [Hq Hp1]. cbn [fst snd].
  pose proof (unborn_quiet _ _ _ Hq (Hp p0)) as Hu1. pose proof (quiet_lock _ _ Hq) as [Hlk1 _].
  change (locked (set_plan p0 fs)) with (locked fs) in Hlk1. rewrite Hlk in Hlk1. destruct r as [[]|e]; [|done].
  wp_step. apply wp_zoom. cbn [fst snd]. eapply wp_mono; [apply wp_and; [by apply open_lock_spec|apply uses_open]|]. intros r fs2 [Hq2 Hp2]. cbn [fst snd].
  pose proof (unborn_quiet _ _ _ Hq2 Hu1) as Hu2. pose proof (quiet_lock _ _ Hq2) as [Hlk2 _]. rewrite Hlk1 in Hlk2. destruct r as [j|e]; [|done].
  wp_step. apply wp_zoom. cbn [fst snd]. eapply wp_mono; [apply wp_and; [apply try_lock_spec|apply uses_lock]|]. intros r fs3 [(E1 & E2 & E3 & Hlk3) Hp3].
  assert (unborn w fs3) as Hu3 by (by eapply (unborn_same w fs2)). destruct r as [[]|e]; [|by rewrite Hlk3].
  wp_step. wp_step. eapply wp_mono; [apply (open_locked_fresh random st w fs3); try done|].
  { destruct Hseen as [Hno|Hs]; [left|right].
    - cbn [fst snd]. rewrite E1 (quiet_dir _ _ Hq2) (quiet_dir _ _ Hq). exact Hno.
    - intros k. cbn [fst snd]. rewrite Hp3 Hp2 Hp1 Hp0 !drop_drop lookup_drop. apply Hs. }
  intros r [fs4 st4] [[Hlk4 Hr] Hc]. cbn [fst snd] in *. destruct r as [s|e].
  - rewrite Hlk3 in Hlk4. by apply wp_ret.
  - wp_step. apply wp_zoom, wp_modify. by apply wp_fail.
Qed.
End fresh.
End LocalFresh.
