(* ===== verification/LocalSystem.v ===== *)
(** The local-durable disk as a system: the process with its guest and its
    replication worker, the journal directory and the remote store, under crashes
    of the host and restarts; and that it refines the machine of [LocalSpec]. *)
From S2P Require Import Prelude Codec ObjectStore Blocks Files Local LocalLog LocalInv LocalCompact LocalImage LocalSpec LocalRun LocalSync LocalOpen LocalFresh.

Module LocalSystem.
Import Files Local LocalLog LocalInv LocalCompact LocalImage LocalSpec LocalRun LocalSync LocalOpen LocalFresh.

Section system.
Context {SHA : Sha256} {JH : Json Header} {V S : Type} {R : Remote V S} {RL : RemoteLaws V S}.

(** How far [sync_remote] is, between the points where it gives up the lock. *)
Inductive Job :=
| Idle
| Begun
| Opened (v : V)
| Snapped (v : V) (m : gmap Z Pending) (mark : Replication)
| Pushed (v : V)
| Ended (ok : bool).
Record Sys := mkSys { disk : option (State V); files : Fs; store : S; job : Job }.

Definition res {A B} (f : A → B) (r : Result Error A) : Result Error B :=
  match r with Ok a => Ok (f a) | Err e => Err e end.
Definition opened (r : Result Error (State V)) : option (State V) :=
  match r with Ok s => Some s | Err _ => None end.

(** One atomic step: a call of the guest, a phase of [sync_remote], closing or
    opening the disk, a crash of the host.  The writer lock of the code is the
    single job.  Every such call of the code is a step, whatever fails in it.  The
    proposition at a step is its proviso, what the guarantees of a run need of it:
    when the disk is opened the look for the journal sees one that is there
    ([journal_seen]); the blocks that are pushed and those that a compaction moves
    collide with no stored digest ([push_safe], [pass_safe]); and a compaction that
    fails finds the mark of this journal at the remote head ([pass_safe]). *)
Inductive step (id : string) : Sys → Label → Prop → Sys → Prop :=
| s_open random fs st r fs' st' : open id random (fs, st) = (r, (fs', st')) →
    step id (mkSys None fs st Idle) (LOpen (res (λ _, tt) r)) (journal_seen fs) (mkSys (opened r) fs' st' Idle)
| s_read at_ out s fs st j r s' fs' st' : 0 ≤ at_ → read at_ out (s, fs, st) = (r, (s', fs', st')) →
    step id (mkSys (Some s) fs st j) (LRead at_ (Zlen out) r) True (mkSys (Some s') fs' st' j)
| s_write at_ input s fs st j r s' fs' st' : 0 ≤ at_ → bytes input → write at_ input (s, fs, st) = (r, (s', fs', st')) →
    step id (mkSys (Some s) fs st j) (LWrite at_ input r) True (mkSys (Some s') fs' st' j)
| s_flush s fs st j r s' fs' st' : flush (s, fs, st) = (r, (s', fs', st')) →
    step id (mkSys (Some s) fs st j) (LFlush r) True (mkSys (Some s') fs' st' j)
| s_sync s fs st r s' fs' st' : rep_begin (s, fs, st) = (r, (s', fs', st')) →
    step id (mkSys (Some s) fs st Idle) (LSync r) True
      (mkSys (Some s') fs' st' (match r with Ok true => Begun | Ok false => Ended true | Err _ => Ended false end))
| s_remote s fs st r st' : r_open id st = (r, st') →
    step id (mkSys (Some s) fs st Begun) LTau True (mkSys (Some s) fs st' (match r with Ok v => Opened v | Err _ => Ended false end))
| s_snapshot v s fs st r s' fs' st' : rep_snapshot v (s, fs, st) = (r, (s', fs', st')) →
    step id (mkSys (Some s) fs st (Opened v)) (LSnapshot (res (λ o, bool_decide (is_Some o)) r)) True
      (mkSys (Some s') fs' st' (match r with
        | Ok (Some (m, mark)) => Snapped v m mark | Ok None => Ended true | Err _ => Ended false end))
| s_push v m mark s fs st r v' st' : rep_push m mark (v, st) = (r, (v', st')) →
    step id (mkSys (Some s) fs st (Snapped v m mark)) (LPush r) (push_safe m v st)
      (mkSys (Some s) fs st' (match r with Ok _ => Pushed v' | Err _ => Ended false end))
| s_finish v s fs st r s' fs' st' : rep_finish v (s, fs, st) = (r, (s', fs', st')) →
    step id (mkSys (Some s) fs st (Pushed v)) (LFinish r) True (mkSys (Some s') fs' st' (Ended (is_ok r)))
| s_end ok s fs st :
    step id (mkSys (Some s) fs st (Ended ok)) LTau True (mkSys (Some (set_replication_failed (negb ok) s)) fs st Idle)
| s_compact s fs st after budget cancel r s' fs' st' : (∀ st : S, calm st (cancel st).2) →
    compact_remote id after budget cancel (s, fs, st) = (r, (s', fs', st')) →
    step id (mkSys (Some s) fs st Idle) (LCompact r) (pass_safe id s st r) (mkSys (Some s') fs' st' Idle)
| s_close s fs st : step id (mkSys (Some s) fs st Idle) LClose True (mkSys None (unlock fs) st Idle)
| s_crash d fs st j fs' : crashed fs fs' → step id (mkSys d fs st j) LCrash True (mkSys None fs' st Idle).

(** A run: steps whose provisos hold. *)
Inductive run (id : string) : Sys → list Label → Sys → Prop :=
| run_nil y : run id y [] y
| run_step y ls y' l y'' : run id y ls y' → ∀ C : Prop, step id y' l C y'' → C → run id y (ls ++ [l]) y''.

Context {SHAL : Sha256Laws} {JHL : JsonLaws Header}.
Variables (id jid : string) (sz : Z) (D0 : Disk).
Hypotheses (Hsz : 0 < sz ≤ 2 ^ 50) (Halign : sz mod CHUNK_BYTES = 0) (HD0 : ∀ p, 0 ≤ p < sz → is_byte (D0 p))
  (Hjid : String.length jid = 64%nat ∧ string_all is_ascii_hexdigit jid = true).

Abbreviation level := (level jid).
Abbreviation live_ok := (live_ok id jid sz D0).
Abbreviation down_ok := (down_ok id jid sz D0).
Abbreviation remote_ok := (remote_ok id jid sz D0).
Implicit Types (H X : list rec) (st : S) (w : V) (s : State V) (fs : Fs) (p : Spec) (y : Sys).

(** *** The simulation *)
Definition job_ok w H s p (j : Job) : Prop :=
  match j with
  | Opened v => v = w
  | Snapped v m mark => v = w ∧ snap_ok jid w H m mark (local_sequence s) ∧ target p = strip (upto (rep_sequence mark) H)
  | Pushed v => v = w ∧ remote p = target p
  | Idle | Begun | Ended _ => True
  end.

(** The durable part [Hd] and the rest of the history are those of the machine. *)
Definition up_rel w H X s p : Prop :=
  (∃ Hd Ht, H = Hd ++ Ht ∧ durable p = strip Hd ∧ tail p = strip Ht ∧ ∀ r, r ∈ Hd → seq_of r ≤ local_sequence s) ∧
  mode p = (if failed s then Failed else Up) ∧ remote p = strip (upto (level w) H) ∧ (X = [] ∨ strip X = doubt p).
Definition down_rel w H X (Q : Z) p : Prop :=
  (∃ Hd Ht, H = Hd ++ Ht ∧ durable p = strip Hd ∧ strip (Ht ++ X) `prefix_of` tail p ++ doubt p ∧ ∀ r, r ∈ Hd → seq_of r ≤ Q) ∧
  mode p = Down ∧ remote p = strip (upto (level w) H).

Definition matches p y : Prop := ∃ w H X,
  match disk y with
  | Some s => live_ok s (files y) (store y) w H X ∧ locked (files y) = true ∧ up_rel w H X s p ∧ job_ok w H s p (job y)
  | None => ∃ Q, down_ok (files y) (store y) w H X Q ∧ locked (files y) = false ∧ down_rel w H X Q p
  end.

Lemma up_written w H X s p : up_rel w H X s p → written p = strip H.
Proof. intros [(Hd & Ht & -> & E1 & E2 & _) _]. by rewrite /written E1 E2 strip_app. Qed.

Lemma live_content s fs st w H X p : live_ok s fs st w H X → up_rel w H X s p → ∀ q, content D0 H q = content_of D0 p q.
Proof using All.
  intros Hl Hu q. rewrite /content_of (up_written _ _ _ _ _ Hu). apply lay_strip. eapply whole_lengths.
  by destruct (log_prefix _ _ _ _ (lv_log _ _ _ _ _ _ _ _ _ _ Hl)) as (_ & ? & _).
Qed.

(** A running disk as one that is down. *)
Lemma up_down w H X s p : up_rel w H X s p → down_rel w H X (local_sequence s) (set_mode Down p).
Proof.
  intros [(Hd & Ht & E & E1 & E2 & Hs) (Hm & Hr & HX)]. split; [|done]. exists Hd, Ht. split; [done|]. split; [done|].
  split; [|done]. cbn [tail doubt set_mode]. rewrite strip_app E2. apply prefix_app. destruct HX as [->|<-]; [apply prefix_nil|done].
Qed.

Lemma down_crash w H X Q p H1 X1 : log_ok sz H X Q → level w ≤ Q → down_rel w H X Q p → survives H X Q H1 X1 →
  down_rel w H1 X1 Q (set_mode Down p).
Proof using All.
  intros Hl Hlv [(Hd & Ht & E & E1 & E2 & Hs) (Hm & Hr)] Hsv.
  assert (Hd `prefix_of` H1) as [Ht1 ->].
  { destruct (survives_split _ _ _ _ _ _ Hl Hsv) as [(K & HK & Hk & _)|(K & -> & _)]; [|rewrite E -app_assoc; by eexists].
    rewrite E in HK. apply app_eq_inv in HK as [(m & Hm1 & Hm2)|(m & -> & _)]; [|by eexists].
    destruct m as [|x m]; [rewrite app_nil_r in Hm1; by exists []; rewrite app_nil_r|].
    assert (x ∈ K) as HxK by (rewrite Hm2; set_solver). assert (x ∈ Hd) as HxD by (rewrite Hm1; set_solver).
    specialize (Hs _ HxD). specialize (Hk _ HxK). lia. }
  split; [|split; [done|]].
  - exists Hd, Ht1. split; [done|]. split; [done|]. split; [|done]. cbn [tail doubt set_mode]. etrans; [|exact E2].
    destruct Hsv as [Hp _]. rewrite E -!app_assoc in Hp. apply prefix_app_inv in Hp as [k Hk]. exists (strip k). by rewrite Hk strip_app.
  - cbn [remote set_mode]. rewrite Hr. by rewrite -(survives_upto sz _ _ _ _ _ _ Hl Hsv Hlv).
Qed.

(** *** Steps of the relation *)
Lemma up_keep w H X X' s s' p : up_rel w H X s p → failed s' = failed s → local_sequence s ≤ local_sequence s' →
  X' = X ∨ X' = [] → up_rel w H X' s' p.
Proof using All.
  intros [(Hd & Ht & E & E1 & E2 & Hs) (Hm & Hr & HX)] Hf Hle HX'. split; [|split; [by rewrite Hf|split; [done|]]].
  - exists Hd, Ht. split_and!; try done. intros r Hr'. specialize (Hs r Hr'). lia.
  - destruct HX' as [->| ->]; [done|by left].
Qed.

Lemma job_keep w H s s' p p' j : job_ok w H s p j → local_sequence s ≤ local_sequence s' → target p' = target p → remote p' = remote p →
  job_ok w H s' p' j.
Proof using All.
  intros Hj Hle Ht Hr. destruct j; try done; cbn [job_ok] in *; rewrite ?Ht ?Hr //.
  destruct Hj as (-> & Hs & Htg). split_and!; try done. rewrite -(app_nil_r H). eapply snap_grows; try done.
  intros r Hr'. by apply not_elem_of_nil in Hr'.
Qed.

Lemma up_retire w H X X' s s' p : up_rel w H X s p → failed s' = true → local_sequence s ≤ local_sequence s' → X' = X ∨ X' = [] →
  ∃ p', retired p p' ∧ up_rel w H X' s' p' ∧ target p' = target p ∧ remote p' = remote p.
Proof using All.
  intros Hu Hf Hle HX. destruct (failed s) eqn:Ef.
  - exists p. split; [by left|]. split; [|done]. eapply up_keep; [done|by rewrite Ef|done|done].
  - exists (set_mode Failed p). pose proof Hu as [_ (Hm & _)]. rewrite Ef in Hm. split; [by right|]. split; [|done].
    destruct (up_keep w H X X' s s p Hu eq_refl ltac:(lia) HX) as [(Hd & Ht & E & E1 & E2 & Hs) (_ & Hr & HX')].
    split; [|split; [by rewrite Hf|done]]. exists Hd, Ht. split_and!; try done. intros r Hr'. specialize (Hs r Hr'). lia.
Qed.

(** Everything written is durable. *)
Lemma up_synced s fs st w H X X' s' p : live_ok s fs st w H X → up_rel w H X s p → failed s' = failed s → local_sequence s' = sequence s →
  X' = X ∨ X' = [] → up_rel w H X' s' (synced_spec p).
Proof using All.
  intros Hl Hu Hf Hls HX'. pose proof (up_written _ _ _ _ _ Hu) as Hw. destruct Hu as [_ (Hm & Hr & HX)].
  split; [|split; [by rewrite Hf|split; [done|]]].
  - exists H, []. rewrite app_nil_r. split_and!; try done. intros r Hr'. rewrite Hls.
    destruct (lv_sem _ _ _ _ _ _ _ _ _ _ Hl) as (a & Hs & _). by apply (sem_seq _ _ _ _ _ _ Hs).
  - destruct HX' as [->| ->]; [done|by left].
Qed.

Lemma matches_up p w H X s fs st j : live_ok s fs st w H X → locked fs = true → up_rel w H X s p → job_ok w H s p j →
  matches p (mkSys (Some s) fs st j).
Proof. intros. by exists w, H, X. Qed.

Lemma sim_read at_ out s fs st j r s' fs' st' p : matches p (mkSys (Some s) fs st j) → 0 ≤ at_ →
  read at_ out (s, fs, st) = (r, (s', fs', st')) →
  ∃ p', allowed sz D0 p (LRead at_ (Zlen out) r) p' ∧ matches p' (mkSys (Some s') fs' st' j).
Proof using All.
  intros (w & H & X & Hl & Hlk & Hu & Hj) Hat Hrun. cbn [files store job] in *.
  eapply wp_run in Hrun; [|by eapply read_live]. destruct Hrun as ([= -> ->] & Hc & Hr). cbn [snd] in Hc.
  exists p. split; [|eapply matches_up; [by eapply live_calm|done..]]. destruct r as [o|e]; [|constructor].
  destruct Hr as (Hf & Hle & ->). rewrite (disk_read_ext _ (content_of D0 p)); [by eapply live_content|].
  destruct Hu as [_ (Hm & _)]. rewrite Hf in Hm. constructor; try done. apply Zlen_nonneg.
Qed.

Lemma sim_flush s fs st j r s' fs' st' p : matches p (mkSys (Some s) fs st j) →
  flush (s, fs, st) = (r, (s', fs', st')) → ∃ p', allowed sz D0 p (LFlush r) p' ∧ matches p' (mkSys (Some s') fs' st' j).
Proof using All.
  intros (w & H & X & Hl & Hlk & Hu & Hj) Hrun. cbn [files store job] in *.
  eapply wp_run in Hrun; [|by eapply flush_live]. destruct Hrun as (Est & Hlk' & _ & Hl' & Hr). cbn [fst snd] in *. subst st'.
  pose proof (lv_local _ _ _ _ _ _ _ _ _ _ Hl). destruct r as [[]|e].
  - destruct Hr as [Hf ->]. exists (synced_spec p). pose proof Hu as [_ (Hm & _)]. rewrite Hf in Hm. split; [by constructor|].
    eapply matches_up; [done|congruence| |]; [eapply (up_synced s fs st w H X X); [done|done|done|done|by left]|by eapply job_keep].
  - assert (∃ p', retired p p' ∧ up_rel w H X s' p' ∧ target p' = target p ∧ remote p' = remote p ∧ local_sequence s ≤ local_sequence s') as (p' & Hp & Hu' & Ht & Hr' & Hle).
    { destruct Hr as [->| ->]; [|exists p; split_and!; try done; by left].
      destruct (up_retire w H X X s (set_failed s) p) as (p' & ?&?&?&?); [done|done|done|by left|]. by exists p'. }
    exists p'. split; [by constructor|]. eapply matches_up; [done|congruence|done|by eapply job_keep].
Qed.

Lemma sim_write at_ input s fs st j r s' fs' st' p : matches p (mkSys (Some s) fs st j) → 0 ≤ at_ → bytes input →
  write at_ input (s, fs, st) = (r, (s', fs', st')) →
  ∃ p', allowed sz D0 p (LWrite at_ input r) p' ∧ matches p' (mkSys (Some s') fs' st' j).
Proof using All.
  intros (w & H & X & Hl & Hlk & Hu & Hj) Hat Hb Hrun. cbn [files store job] in *.
  eapply wp_run in Hrun; [|by eapply write_live]. destruct Hrun as (Hlk' & _ & Hc & Hr). cbn [fst snd] in *.
  pose proof (live_content _ _ _ _ _ _ _ Hl Hu) as Hcont. pose proof Hu as [(Hd & Ht & E & E1 & E2 & Hs) (Hm & Hrem & HX)].
  pose proof (lv_local _ _ _ _ _ _ _ _ _ _ Hl) as Hloc. pose proof (rm_level _ _ _ _ _ _ _ _ (lv_remote _ _ _ _ _ _ _ _ _ _ Hl)) as Hlev.
  destruct r as [[]|e].
  - destruct Hr as (Hf & -> & Hle & Hf' & Hls & W & HW & Hseq & Hl'). rewrite Hf in Hm.
    rewrite (block_writes_ext _ _ _ _ Hcont) in HW. eexists. split; [by constructor|].
    assert (∀ a, a ≤ local_sequence s → upto a (H ++ W) = upto a H) as Hup.
    { intros a Ha. rewrite upto_app (upto_none a W) ?app_nil_r //. intros r Hr. specialize (Hseq r Hr). lia. }
    eapply matches_up; [done|congruence| |].
    + split; [|split; [by rewrite Hf'|split; [by rewrite Hup; [lia|]|by left]]]. exists Hd, (Ht ++ W).
      rewrite E -app_assoc strip_app E2 HW. split_and!; try done. intros r Hr. specialize (Hs r Hr). lia.
    + destruct j; try done; cbn [job_ok] in *. destruct Hj as (-> & Hsn & Htg). pose proof Hsn as (_ & _ & Hq & _). split_and!; try done.
      * eapply snap_grows; try done. intros r Hr. specialize (Hseq r Hr). lia.
      * rewrite Hup; [lia|done].
  - destruct Hr as [[= -> ->]|(Hf & -> & Hle & Hf' & Hls & W & HW & Hl')].
    { exists p. split; [constructor|]. eapply matches_up; [by eapply live_calm|done..]. }
    rewrite Hf in Hm. rewrite (block_writes_ext _ _ _ _ Hcont) in HW. eexists. split; [by apply sp_write_fail|].
    assert (∀ X', X' = [] ∨ X' = W → live_ok s' fs' st' w H X' →
      matches (set_doubt (block_writes (content_of D0 p) at_ input) p) (mkSys (Some s') fs' st' j)) as Hgo.
    { intros X' HX' Hl2. eapply matches_up; [done|congruence| |by eapply job_keep].
      split; [|split; [by rewrite Hf'|split; [done|]]]; [|destruct HX' as [->| ->]; [by left|by right]].
      exists Hd, Ht. split_and!; try done. intros r Hr. specialize (Hs r Hr). lia. }
    destruct Hl' as [Hl'|Hl']; eapply Hgo; try done; [by left|by right].
Qed.

Lemma sim_sync s fs st r s' fs' st' p : matches p (mkSys (Some s) fs st Idle) → rep_begin (s, fs, st) = (r, (s', fs', st')) →
  ∃ p', allowed sz D0 p (LSync r) p' ∧
    matches p' (mkSys (Some s') fs' st' (match r with Ok true => Begun | Ok false => Ended true | Err _ => Ended false end)).
Proof using All.
  intros (w & H & X & Hl & Hlk & Hu & Hj) Hrun. cbn [files store job] in *.
  assert ((s', fs', st') = (s, fs, st) ∧ match r with Ok b => failed s = false ∧ b = negb (bool_decide (pending s = ∅)) | Err _ => True end)
    as [[= -> -> ->] Hr].
  { rewrite /rep_begin in Hrun. eapply (wp_run _ _ (λ r t, t = (s, fs, st) ∧
      match r with Ok b => failed s = false ∧ b = negb (bool_decide (pending s = ∅)) | Err _ => True end)) in Hrun; [done|].
    wp_step. apply wp_gets. cbn [fst snd]. wp_step. apply wp_of_result. destruct (check s 0 0) as [[]|e] eqn:Ec; [|done].
    eapply check_passed in Ec as (Hf & _); [|done..]. by apply wp_ret. }
  exists p. pose proof Hu as [_ (Hm & Hrem & _)].
  split; [|eapply matches_up; [done|done|done|by destruct r as [[]|]]]. destruct r as [b|e]; [|constructor].
  destruct Hr as [Hf ->]. rewrite Hf in Hm. case_bool_decide as Hp; simpl; constructor; try done.
  rewrite (up_written _ _ _ _ _ Hu) Hrem. f_equal. by eapply (pending_empty id jid sz D0).
Qed.

Lemma sim_remote s fs st r st' p : matches p (mkSys (Some s) fs st Begun) → r_open id st = (r, st') →
  matches p (mkSys (Some s) fs st' (match r with Ok v => Opened v | Err _ => Ended false end)).
Proof using All.
  intros (w & H & X & Hl & Hlk & Hu & Hj) Hrun. cbn [files store job] in *. pose proof (lv_remote _ _ _ _ _ _ _ _ _ _ Hl) as [].
  eapply wp_run in Hrun; [|by apply (r_open_law st id w)]. destruct Hrun as [Hc Hr].
  eapply matches_up; [by eapply live_calm|done|done|by destruct r].
Qed.

Lemma sim_snapshot v s fs st r s' fs' st' p : matches p (mkSys (Some s) fs st (Opened v)) →
  rep_snapshot v (s, fs, st) = (r, (s', fs', st')) →
  ∃ p', allowed sz D0 p (LSnapshot (res (λ o, bool_decide (is_Some o)) r)) p' ∧
    matches p' (mkSys (Some s') fs' st' (match r with
      | Ok (Some (m, mark)) => Snapped v m mark | Ok None => Ended true | Err _ => Ended false end)).
Proof using All.
  intros (w & H & X & Hl & Hlk & Hu & Hj) Hrun. cbn [files store job job_ok] in *. subst v.
  eapply wp_run in Hrun; [|by eapply rep_snapshot_live]. destruct Hrun as ((Est & X' & HX' & Hl' & Hle) & Hlk' & _ & Hr). cbn [fst snd] in *. subst st'.
  assert (mode p ≠ Down) as Hnd by (destruct Hu as [_ [-> _]]; by destruct (failed s)).
  destruct r as [o|e].
  - destruct Hr as (Hf & Hls & Hsq & Ho).
    pose proof (up_synced s fs st w H X X' s' p Hl Hu Hf Hls HX') as Hu'.
    destruct o as [[m mark]|]; cbn [res].
    + rewrite bool_decide_true; [by eexists|]. destruct Ho as [Hsn Hup]. eexists. split; [by apply sp_snapshot|].
      eapply matches_up; [done|congruence|exact Hu'|]. cbn [job_ok]. split_and!; try done. cbn [target set_target].
      by rewrite Hup (up_written _ _ _ _ _ Hu).
    + rewrite bool_decide_false; [by intros [? ?]|]. eexists. split.
      * apply sp_snapshot_nothing; [done|]. rewrite (up_written _ _ _ _ _ Hu). destruct Hu as [_ (_ & -> & _)]. by rewrite Ho.
      * eapply matches_up; [done|congruence|exact Hu'|done].
  - destruct (up_retire w H X X' s s' p) as (p' & Hp & Hu' & _); [done..|]. exists p'. split; [by constructor|].
    eapply matches_up; [done|congruence|done|done].
Qed.

Lemma sim_push v m mark s fs st r v' st' p : matches p (mkSys (Some s) fs st (Snapped v m mark)) → push_safe m v st →
  rep_push m mark (v, st) = (r, (v', st')) →
  ∃ p', allowed sz D0 p (LPush r) p' ∧ matches p' (mkSys (Some s) fs st' (match r with Ok _ => Pushed v' | Err _ => Ended false end)).
Proof using All.
  intros (w & H & X & Hl & Hlk & Hu & Hj) Hsafe Hrun. cbn [files store job job_ok] in *. destruct Hj as (-> & Hsn & Htg).
  eapply wp_run in Hrun; [|by eapply rep_push_live]. destruct Hrun as (w' & Hl' & Hr). cbn [fst snd] in *.
  assert (level w' = rep_sequence mark → up_rel w' H X s (set_remote (target p) p)) as Hnew.
  { intros Hlv. destruct Hu as [Hd (Hm & Hrem & HX)]. split; [done|]. split; [done|]. split; [|done]. cbn [remote set_remote]. by rewrite Hlv Htg. }
  destruct r as [[]|e].
  - destruct Hr as [-> Hlv]. eexists. split; [apply sp_push|]. by eapply matches_up; [done|done|by apply Hnew|].
  - destruct Hr as [->|Hlv].
    + exists p. split; [apply sp_push_err|]. by eapply matches_up.
    + eexists. split; [apply sp_push_uncertain|]. by eapply matches_up; [done|done|by apply Hnew|].
Qed.

Lemma sim_finish v s fs st r s' fs' st' p : matches p (mkSys (Some s) fs st (Pushed v)) → rep_finish v (s, fs, st) = (r, (s', fs', st')) →
  ∃ p', allowed sz D0 p (LFinish r) p' ∧ matches p' (mkSys (Some s') fs' st' (Ended (is_ok r))).
Proof using All.
  intros (w & H & X & Hl & Hlk & Hu & Hj) Hrun. cbn [files store job job_ok] in *. destruct Hj as [-> Ht].
  eapply wp_run in Hrun; [|by eapply rep_finish_live]. destruct Hrun as ((Est & X' & HX' & Hl' & Hle) & Hlk' & _ & Hr). cbn [fst snd] in *. subst st'.
  assert (∀ (Hf : failed s' = failed s), up_rel w H X' s' p) as Hsame by (intros Hf; by eapply up_keep).
  destruct r as [[]|e].
  - exists p. split; [by constructor|]. eapply matches_up; [done|congruence|by apply Hsame|done].
  - destruct Hr as [Hf|Hf].
    + exists p. split; [constructor; by left|]. eapply matches_up; [done|congruence|by apply Hsame|done].
    + destruct (up_retire w H X X' s s' p) as (p' & Hp & Hu' & _); [done..|]. exists p'. split; [by constructor|].
      eapply matches_up; [done|congruence|done|done].
Qed.

Lemma up_level w w' H X s p : level w' = level w → up_rel w H X s p → up_rel w' H X s p.
Proof using All. intros E [Hd (Hm & Hr & HX)]. split; [done|]. by rewrite E. Qed.

Lemma sim_compact s fs st after budget cancel r s' fs' st' p : matches p (mkSys (Some s) fs st Idle) →
  (∀ st : S, calm st (cancel st).2) → pass_safe id s st r → compact_remote id after budget cancel (s, fs, st) = (r, (s', fs', st')) →
  ∃ p', allowed sz D0 p (LCompact r) p' ∧ matches p' (mkSys (Some s') fs' st' Idle).
Proof using All.
  intros (w & H & X & Hl & Hlk & Hu & Hj) Hc [Hsafe Hmark] Hrun. cbn [files store job job_ok] in *.
  eapply wp_run in Hrun; [|by eapply compact_remote_live]. destruct Hrun as [Hlk' Hrun].
  destruct (Hrun Hmark) as (w' & X' & HX & Hl' & Hlv & Hle & Hr). cbn [fst snd] in *.
  pose proof (up_written _ _ _ _ _ Hu) as Hwr. pose proof Hu as [_ (Hm & Hrem & _)]. destruct r as [c|e].
  - destruct Hr as (Hf & Hf' & Hup & Hr). rewrite Hf in Hm. rewrite Hup -Hwr in Hrem. destruct Hr as [(H0 & -> & ->)|Hls].
    + exists p. split; [by apply sp_compact_nothing|]. eapply matches_up; [done|congruence|by eapply up_level|done].
    + exists (synced_spec p). split; [by apply sp_compact|]. eapply matches_up; [done|congruence| |done].
      eapply up_level; [done|]. eapply (up_synced s fs st w H X X'); [done|done|congruence|done|done].
  - assert (∃ p', retired p p' ∧ up_rel w H X' s' p') as (p' & Hp & Hu').
    { destruct Hr as [Hf|Hf]; [exists p; split; [by left|by eapply up_keep]|].
      destruct (up_retire w H X X' s s' p) as (p' & ? & ? & _); [done..|]. by exists p'. }
    exists p'. split; [by constructor|]. eapply matches_up; [done|congruence|by eapply up_level|done].
Qed.

Lemma live_flag b s fs st w H X : live_ok s fs st w H X → live_ok (set_replication_failed b s) fs st w H X.
Proof using All.
  intros []. split; try done. destruct lv_sem0 as (a & Hs & Ha). exists a. split; [|done]. by destruct Hs.
Qed.

Lemma sim_open random fs st r fs' st' p : matches p (mkSys None fs st Idle) → journal_seen fs → open id random (fs, st) = (r, (fs', st')) →
  ∃ p', allowed sz D0 p (LOpen (res (λ _, tt) r)) p' ∧ matches p' (mkSys (opened r) fs' st' Idle).
Proof using All.
  intros (w & H & X & Q & Hdn & Hlk & Hrel) Hseen Hrun. cbn [files store disk] in *.
  eapply wp_run in Hrun; [|by apply (open_down id jid sz D0 Hsz Halign HD0 Hjid random fs st w H X Q)].
  destruct r as [s|e]; cbn [res opened].
  2: { destruct Hrun as [Hdn' Hlk']. exists p. split; [constructor|]. exists w, H, X, Q. done. }
  destruct Hrun as (H' & [K ->] & Hp2 & Hl' & Hf & Hls & Hlk'). cbn [fst snd] in *. apply prefix_app_inv in Hp2.
  destruct Hrel as [(Hd & Ht & E & E1 & E2 & Hs) (Hm & Hrem)].
  assert (∀ r, r ∈ K → Q < seq_of r) as HK.
  { intros r Hr. apply (log_doubt _ _ _ _ (dn_log _ _ _ _ _ _ _ _ _ _ Hdn)). destruct Hp2 as [k ->]. set_solver. }
  exists (mkSpec Up (durable p ++ strip (Ht ++ K)) [] [] (remote p) (target p)). split.
  - constructor; [done|]. apply prefix_app. etrans; [|exact E2]. destruct Hp2 as [k ->]. rewrite app_assoc (strip_app _ k). by eexists.
  - eapply matches_up; [exact Hl'|done| |done]. split; [|split; [by rewrite Hf|split; [|by left]]].
    + exists (H ++ K), []. rewrite app_nil_r. cbn [durable tail]. split_and!; try done.
      * by rewrite E E1 -strip_app app_assoc.
      * intros r Hr. rewrite Hls. destruct (lv_sem _ _ _ _ _ _ _ _ _ _ Hl') as (a & Hsm & _). by apply (sem_seq _ _ _ _ _ _ Hsm).
    + cbn [remote]. rewrite Hrem upto_app (upto_none _ K) ?app_nil_r // => r Hr. specialize (HK r Hr).
      pose proof (rm_level _ _ _ _ _ _ _ _ (dn_remote _ _ _ _ _ _ _ _ _ _ Hdn)). lia.
Qed.

Lemma matches_crash p fs fs' st w H X Q : down_ok fs st w H X Q → down_rel w H X Q (set_mode Down p) → crashed fs fs' →
  matches (set_mode Down p) (mkSys None fs' st Idle).
Proof using All.
  intros Hdn Hrel Hcr. destruct (crash_down id jid sz D0 Hsz Halign HD0 Hjid _ _ _ _ _ _ _ Hdn Hcr) as (H1 & X1 & Hsv & Hdn').
  exists w, H1, X1, Q. split; [done|]. split; [by destruct Hcr as (_ & _ & ? & _)|].
  eapply (down_crash w H X Q (set_mode Down p)); [exact (dn_log _ _ _ _ _ _ _ _ _ _ Hdn)| |done|done].
  pose proof (rm_level _ _ _ _ _ _ _ _ (dn_remote _ _ _ _ _ _ _ _ _ _ Hdn)). lia.
Qed.

Lemma simulation y l C y' p : matches p y → step id y l C y' → C → ∃ p', allowed sz D0 p l p' ∧ matches p' y'.
Proof using All.
  intros Hm Hst HC. destruct Hst.
  - by eapply sim_open.
  - by eapply sim_read.
  - by eapply sim_write.
  - by eapply sim_flush.
  - by eapply sim_sync.
  - exists p. split; [constructor|by eapply sim_remote].
  - by eapply sim_snapshot.
  - by eapply sim_push.
  - by eapply sim_finish.
  - exists p. split; [constructor|]. destruct Hm as (w & H & X & Hl & Hlk & Hu & _). exists w, H, X.
    split_and!; [by apply live_flag|done|by eapply up_keep; [| | |left]|done].
  - by eapply sim_compact.
  - destruct Hm as (w & H & X & Hl & Hlk & Hu & _). exists (set_mode Down p). split.
    { constructor. destruct Hu as [_ [-> _]]. by destruct (failed s). }
    exists w, H, X, (local_sequence s). split; [|split; [done|by eapply up_down]].
    apply (down_same id jid sz D0 Hsz Halign HD0 Hjid fs); [done..|]. by apply live_down.
  - exists (set_mode Down p). split; [constructor|]. destruct Hm as (w & G & X & Hm). destruct d as [s|].
    + destruct Hm as (Hl & Hlk & Hu & _). eapply matches_crash; [by apply live_down|by apply up_down|done].
    + destruct Hm as (Q & Hdn & Hlk & Hrel). eapply matches_crash; [done| |done]. destruct Hrel as [? [_ ?]]. by split.
Qed.

Lemma runs_match y ls y' p : matches p y → run id y ls y' → ∃ p', trace sz D0 p ls p' ∧ matches p' y'.
Proof using All.
  intros Hm Hr. induction Hr as [|y ls y' l y'' Hr IH C Hst HC]; [exists p; split; [constructor|done]|].
  destruct (IH Hm) as (p1 & Ht & Hm1). destruct (simulation _ _ _ _ _ Hm1 Hst HC) as (p2 & Ha & Hm2).
  exists p2. split; [by econstructor|done].
Qed.

(** What the remote volume holds, whatever happened. *)
Lemma matches_remote p y : matches p y → ∃ w, good (store y) id w ∧ based (store y) id w ∧ clean w ∧ r_size w = sz ∧
  disk_eq sz (view (store y) w) (apply_blocks D0 (remote p)).
Proof using All.
  intros (w & H & X & Hm). exists w.
  assert (∃ Q, remote_ok (store y) w H Q ∧ log_ok sz H X Q ∧ remote p = strip (upto (level w) H)) as (Q & [] & Hlog & Hrem).
  { destruct (disk y) as [s|].
    - destruct Hm as (Hl & _ & [_ (_ & Hr & _)] & _). pose proof (lv_remote _ _ _ _ _ _ _ _ _ _ Hl) as Hrm.
      exists (sequence s). split; [|split; [exact (lv_log _ _ _ _ _ _ _ _ _ _ Hl)|done]].
      destruct Hrm. split; try done. pose proof (lv_local _ _ _ _ _ _ _ _ _ _ Hl). lia.
    - destruct Hm as (Q & Hdn & _ & [_ (_ & Hr)]). exists Q.
      split; [exact (dn_remote _ _ _ _ _ _ _ _ _ _ Hdn)|split; [exact (dn_log _ _ _ _ _ _ _ _ _ _ Hdn)|done]]. }
  split_and!; try done. intros q Hq. rewrite rm_disk0 // /replicated /content Hrem. apply lay_strip, whole_lengths with sz.
  destruct (log_prefix _ _ _ _ Hlog) as (_ & Hw & _). eapply Forall_forall. intros r Hr.
  rewrite Forall_forall in Hw. apply Hw. by apply list_elem_of_filter in Hr as [_ ?].
Qed.

Lemma matches_fresh s fs st w : live_ok s fs st w [] [] → failed s = false → locked fs = true →
  matches (mkSpec Up [] [] [] [] []) (mkSys (Some s) fs st Idle).
Proof using All.
  intros Hl Hf Hlk. exists w, [], []. split_and!; try done. split; [|rewrite Hf; split_and!; [done|done|by left]].
  exists [], []. split_and!; try done. intros r Hr. by apply not_elem_of_nil in Hr.
Qed.
End system.

(** From a first open on, whatever the guest, the file system and the store do,
    the disk behaves as the machine, and the remote head holds one of its states. *)
Lemma disk_refines {SHA : Sha256} {SHAL : Sha256Laws} {JH : Json Header} {JHL : JsonLaws Header}
    {V S : Type} {R : Remote V S} {RL : RemoteLaws V S} id random (fs0 fs : Fs) (st0 st : S) (w0 : V) s ls y :
  good st0 id w0 → based st0 id w0 → clean w0 → (∀ r, r_replication w0 = Some r → rep_id r ≠ digest random) →
  (∀ d, candidate fs0 d → d !! "journal" = None) →
  open id random (fs0, st0) = (Ok s, (fs, st)) → run id (mkSys (Some s) fs st Idle) ls y →
  ∃ p, trace (r_size w0) (view st0 w0) (mkSpec Up [] [] [] [] []) ls p ∧ remote p `prefix_of` durable p ∧
    ∃ w, good (store y) id w ∧ based (store y) id w ∧ clean w ∧ r_size w = r_size w0 ∧
      disk_eq (r_size w0) (view (store y) w) (apply_blocks (view st0 w0) (remote p)).
Proof.
  intros Hg Hb Hc Hid Hno Hopen Hrun. set (sz := r_size w0). set (D0 := view st0 w0).
  destruct (good_size _ _ _ Hg) as (Hs1 & Hs2 & Hal). assert (0 < sz ≤ 2 ^ 50) as Hsz by done.
  assert (∀ p, 0 ≤ p < sz → is_byte (D0 p)) as HD0 by (intros; by eapply good_bytes).
  pose proof (digest_hexdigits random) as Hjid.
  assert (LocalInv.level (digest random) w0 = 0) as Hlv.
  { rewrite /LocalInv.level. destruct (r_replication w0) as [r|]; [|done]. by rewrite bool_decide_false; [apply Hid|]. }
  eapply wp_run in Hopen; [|eapply (open_fresh id (digest random) sz D0 Hsz Hal HD0 Hjid random fs0 st0 w0); [done|]].
  - destruct Hopen as (Hl & Hf & _ & Hlk). eapply (runs_match id (digest random) sz D0 Hsz Hal HD0 Hjid) in Hrun as (p & Ht & Hm).
    2: { by eapply (matches_fresh id (digest random) sz D0 Hsz Hal HD0 Hjid). }
    exists p. split; [done|]. split.
    + destruct (remote_durable _ _ _ _ _ Ht) as [? _]; [by split; exists []|done].
    + by eapply (matches_remote id (digest random) sz D0 Hsz Hal HD0 Hjid).
  - split; [|done]. split; rewrite ?Hlv; try done.
Qed.
End LocalSystem.
