(* ===== verification/Evict.v ===== *)
(** The directory of an owner, [OwnedDisk::open] and [evict_local] of
    [ahvm-volume/src/owned.rs]: the local journal of a disk is given up once the
    remote volume holds everything, across failures and crashes at any point.
    The claim of the ownership, which precedes, is [Owned.open]. *)
From S2P Require Import Prelude Codec ObjectStore Blocks Files Local LocalLog LocalInv LocalCompact LocalImage LocalSpec LocalRun LocalSync LocalOpen LocalFresh LocalSystem.

Module Evict.
Import Files Local LocalInv LocalCompact LocalSpec LocalSync LocalFresh LocalSystem.

(** The owner's directory and the directory [journal] in it, where there is one;
    [sub_past] are the states of that entry that the last sync did not cover. *)
Record Home := mkHome { own : Fs; sub : option Fs; sub_past : list (option Fs) }.

Definition set_own (f : Fs) (h : Home) : Home := mkHome f (sub h) (sub_past h).
Definition put_sub (f : Fs) (h : Home) : Home := mkHome (own h) (Some f) (sub_past h).
Definition set_sub (x : option Fs) (h : Home) : Home := mkHome (own h) x (sub h :: sub_past h).
Definition on_own {A} (m : M Error Fs A) : M Error Home A := zoom own set_own m.

Definition SYNCED : list Z := as_bytes "synced-v1".

(** [File::open(dir)?.sync_all()] *)
Definition sync_home : M Error Home unit := on_own sync_dir;; modify (λ h, mkHome (own h) (sub h) []).

(** Some names are gone: those whose bit in [k] is not set. *)
Definition unlink_some (k : nat) (fs : Fs) : Fs :=
  set_dir (list_to_map (omap (λ e, if Nat.testbit k e.1 then Some e.2 else None)
    (zip (seq 0 (base.size (dir fs))) (map_to_list (dir fs))))) fs.
(** [fs::remove_dir_all(dir.join("journal"))], where a missing directory is fine;
    an error leaves some of the names. *)
Definition remove_journal : M Error Home unit :=
  o ← on_own outcome;
  match o with
  | None => modify (λ h, match sub h with Some _ => set_sub None h | None => h end)
  | Some k => modify (λ h, match sub h with Some fs => set_sub (Some (unlink_some k fs)) h | None => h end);; fail Store
  end.

(** [finish_eviction] *)
Definition finish_eviction : M Error Home unit :=
  o ← on_own outcome;
  f ← gets (λ h, lookup_file "eviction" (own h));
  match o, f with
  | None, None => mret tt
  | _, _ =>
      guard_err (bool_decide (o = None) && match f with Some n => bool_decide (data n = SYNCED) | None => false end) Corrupt;;
      remove_journal;;
      sync_home;;
      on_own (remove_file "eviction");;
      sync_home
  end.

(** [journal.exists()] *)
Definition journal_there : M Error Home bool :=
  o ← on_own outcome;
  gets (λ h, bool_decide (o = None) && bool_decide (is_Some (sub h))).
(** [create_dir] and [set_permissions]; [plan] is that of the calls in the new
    directory. *)
Definition make_journal (plan : list (option nat)) : M Error Home unit :=
  on_own sys;;
  there ← gets (λ h, bool_decide (is_Some (sub h)));
  guard_err (negb there) Store;;
  modify (set_sub (Some (mkFs ∅ ∅ [] false false plan)));;
  on_own sys;;
  modify (put_sub (mkFs ∅ ∅ [] false true plan)).

(** The marker of a disk that is synchronized. *)
Definition mark_evicted : M Error Home unit :=
  i ← on_own (open_truncate "eviction.tmp");
  on_own (write_all i SYNCED);;
  on_own (sync_all i);;
  on_own (rename "eviction.tmp" "eviction");;
  sync_home.

(** [discard_retired_local], under the owner lock, up to the removal. *)
Definition discard_retired_local (id : string) : M Error Home unit :=
  guard_err (valid_id id) InvalidInput;;
  i ← on_own (open_or_create "owner.lock");
  on_own try_lock;;
  i ← on_own (open_truncate "retired");
  on_own (write_all i (as_bytes id));;
  on_own (sync_all i);;
  sync_home;;
  remove_journal;;
  sync_home.

Section disk.
Context {SHA : Sha256} {JH : Json Header} {V S : Type} {R : Remote V S}.

Definition on_home {A} (m : M Error Home A) : M Error (Home * S) A := zoom fst (λ h t, (h, t.2)) m.
(** A call in the journal directory. *)
Definition on_journal {A} (m : M Error (Fs * S) A) : M Error (Home * S) A := λ t,
  match sub t.1 with
  | Some fs => let '(r, (fs', st')) := m (fs, t.2) in (r, (put_sub fs' t.1, st'))
  | None => (Err Store, t)
  end.

(** [OwnedDisk::open], after [Store::open]. *)
Definition open_home (id : string) (random : list Z) (plan : list (option nat)) : M Error (Home * S) (State V) :=
  on_home finish_eviction;;
  there ← on_home journal_there;
  (if (there : bool) then mret tt else on_home (make_journal plan));;
  on_home sync_home;;
  on_home (on_own sys);; on_home (on_own sys);;
  on_journal (open id random).

(** A call of the disk [d], which is dropped afterwards. *)
Definition last_call {A} (d : State V) (m : M Error (State V * Fs * S) A) : M Error (Fs * S) A := λ t,
  let '(r, (_, fs', st')) := m (d, t.1, t.2) in (r, (unlock fs', st')).

(** [evict_local], after [Store::open]. *)
Definition evict_local (id : string) (random : list Z) (plan : list (option nat)) : M Error (Home * S) unit :=
  d ← open_home id random plan;
  on_journal (last_call d (sync_remote id));;
  on_home mark_evicted;;
  on_home finish_eviction.
End disk.

(** ** Crashes *)

(** Part of a removal under way may be left. *)
Definition torn (h : Home) (f f1 : Fs) : Prop := f1 = f ∨ sub h = None ∧ ∃ k, f1 = unlink_some k f.
Definition home_crashed (h h' : Home) : Prop :=
  crashed (own h) (own h') ∧ sub_past h' = [] ∧
  ∃ o, o ∈ sub h :: sub_past h ∧ match o, sub h' with
    | Some f, Some f' => ∃ f1, torn h f f1 ∧ crashed f1 f'
    | None, None => True
    | _, _ => False
    end.

End Evict.
