(* ===== verification/Lifetime.v ===== *)
(** The whole life of a local-durable disk in the directory of its owner: opens
    that succeed or fail, running, crashes, and evictions of its journal, any
    number of them; and that it refines one abstract disk. *)
From S2P Require Import Prelude Codec ObjectStore Blocks Files Local LocalLog LocalInv LocalCompact LocalImage LocalSpec LocalRun LocalSync LocalOpen LocalFresh LocalSystem Evict.

Module Lifetime.
Import Files Local LocalLog LocalInv LocalCompact LocalSpec LocalRun LocalSync LocalOpen LocalFresh LocalSystem Evict.

(** ** The abstract disk

    A disk and the history written to it since its journal was made; when the
    remote volume holds all of it, the history becomes part of the disk. *)
Definition origin : Spec := mkSpec Down [] [] [] [] [].
Definition absorbed (D : Disk) (p : Spec) : Disk := apply_blocks D (durable p).
(** Everything is at the remote volume. *)
Definition drained_spec (p : Spec) : Prop := mode p = Down ∧ tail p = [] ∧ doubt p = [] ∧ remote p = durable p.

Inductive OLabel := ODisk (l : Label) | OEvict (r : Result Error unit).

(** An opened disk whose synchronization stopped somewhere. *)
Definition stopped (p p' : Spec) : Prop := ∃ kept rm tg,
  mode p = Down ∧ durable p ++ kept `prefix_of` durable p ++ tail p ++ doubt p ∧
  (rm = remote p ∨ rm = durable p ++ kept) ∧ tg `prefix_of` durable p ++ kept ∧
  p' = mkSpec Down (durable p ++ kept) [] [] rm tg.

Section spec.
Variable sz : Z.
Inductive oallowed : Disk * Spec → OLabel → Disk * Spec → Prop :=
| oa_disk D p l p' : allowed sz D p l p' → oallowed (D, p) (ODisk l) (D, p')
| oa_evict D p kept : mode p = Down → durable p ++ kept `prefix_of` durable p ++ tail p ++ doubt p →
    oallowed (D, p) (OEvict (Ok tt)) (apply_blocks D (durable p ++ kept), origin)
| oa_evict_err D p p' e : p' = p ∨ stopped p p' → oallowed (D, p) (OEvict (Err e)) (D, p').

Inductive otrace : Disk * Spec → list OLabel → Disk * Spec → Prop :=
| otrace_nil x : otrace x [] x
| otrace_step x ls y l z : otrace x ls y → oallowed y l z → otrace x (ls ++ [l]) z
| otrace_absorb x ls D p : otrace x ls (D, p) → drained_spec p → otrace x ls (absorbed D p, origin).
End spec.

(** ** The system *)
Section system.
Context {SHA : Sha256} {JH : Json Header} {V S : Type} {R : Remote V S} {RL : RemoteLaws V S}.

Record OSys := mkO { proc : option (State V); home : Home; ostore : S; ojob : Job (V := V) }.

(** The identity drawn for a journal is not that of an earlier one. *)
Definition new_id (id : string) (random : list Z) (st : S) : Prop :=
  ∀ w r, good st id w → based st id w → r_replication w = Some r → rep_id r ≠ digest random.
(** The push of a synchronization meets no digest collision. *)
Definition sync_safe (id : string) (t : State V * Fs * S) : Prop :=
  ∀ v m mark t', rep_prepare id t = (Ok (Some (v, m, mark)), t') → push_safe m v t'.2.
Definition evict_safe (id : string) (random : list Z) (plan : list (option nat)) (t : Home * S) : Prop :=
  ∀ d h' st' fs, open_home id random plan t = (Ok d, (h', st')) → sub h' = Some fs → sync_safe id (d, fs, st').

(** The journal that is there is seen. *)
Definition home_seen (h : Home) : Prop := ∀ f, sub h = Some f → journal_seen f.

(** Every open and eviction is a step, whatever fails in it; the proposition is the
    proviso of the step, as in [LocalSystem.step]. *)
Inductive ostep (id : string) : OSys → OLabel → Prop → OSys → Prop :=
| o_open random plan h st r h' st' : open_home id random plan (h, st) = (r, (h', st')) →
    ostep id (mkO None h st Idle) (ODisk (LOpen (res (λ _, tt) r))) (new_id id random st ∧ home_seen h) (mkO (opened r) h' st' Idle)
| o_disk s h fs st j l C d' fs' st' j' : sub h = Some fs → l ≠ LCrash →
    step id (mkSys (Some s) fs st j) l C (mkSys d' fs' st' j') →
    ostep id (mkO (Some s) h st j) (ODisk l) C (mkO d' (put_sub fs' h) st' j')
| o_evict random plan h st r h' st' : evict_local id random plan (h, st) = (r, (h', st')) →
    ostep id (mkO None h st Idle) (OEvict r) (new_id id random st ∧ home_seen h ∧ evict_safe id random plan (h, st)) (mkO None h' st' Idle)
| o_crash d h st j h' : home_crashed h h' → ostep id (mkO d h st j) (ODisk LCrash) True (mkO None h' st Idle).

(** A run: steps whose provisos hold. *)
Inductive orun (id : string) : OSys → list OLabel → OSys → Prop :=
| orun_nil y : orun id y [] y
| orun_step y ls y' l y'' : orun id y ls y' → ∀ C : Prop, ostep id y' l C y'' → C → orun id y (ls ++ [l]) y''.

Context {SHAL : Sha256Laws} {JHL : JsonLaws Header}.
Variables (id : string) (sz : Z).
Hypotheses (Hsz : 0 < sz ≤ 2 ^ 50) (Halign : sz mod CHUNK_BYTES = 0).
Implicit Types (D : Disk) (p : Spec) (st : S) (w : V) (s : State V) (fs f : Fs) (h : Home).

Abbreviation remote_is D := (remote_is id sz D).
Abbreviation unborn := (unborn id).

(** ** The invariant *)
Definition bytes_disk D : Prop := ∀ q, 0 ≤ q < sz → is_byte (D q).
Definition behind p : Prop := remote p `prefix_of` durable p ∧ target p `prefix_of` durable p.
Definition drained D p st : Prop := drained_spec p ∧ ∃ w, remote_is (absorbed D p) st w.

(** The journal directory of a disk that is down. *)
Definition normal D p f st : Prop := ∃ jid, hex64 jid ∧ matches id jid sz D p (mkSys None f st Idle).
Definition settled_home D p h st : Prop :=
  (sub_past h = [] ∧ ∃ f, sub h = Some f ∧ normal D p f st) ∨
  (p = origin ∧ ∃ w, remote_is D st w ∧ ∀ f, Some f ∈ sub h :: sub_past h → locked f = false ∧ unborn w f).

(** What a removal leaves of a journal directory. *)
Definition shrunk f0 f : Prop := inodes f = inodes f0 ∧ dir_private f = dir_private f0 ∧
  ∀ d, candidate f d → ∃ d0, candidate f0 d0 ∧ d ⊆ d0.
Definition leftover D p h st : Prop := ∀ f, Some f ∈ sub h :: sub_past h → ∃ f0, normal D p f0 st ∧ shrunk f0 f.

Definition unmarked (d : gmap string nat) : Prop := d !! "eviction" = None.
Definition marker f (d : gmap string nat) : Prop := ∃ i n, d !! "eviction" = Some i ∧ inodes f !! i = Some n ∧ data n = SYNCED ∧ synced n = SYNCED.

(** No crash brings the marker back; or the remote volume holds everything, and
    whatever a crash leaves without the marker can be opened. *)
Definition at_rest D p h st : Prop := (∀ d, candidate (own h) d → unmarked d) ∧ settled_home D p h st.
Definition evicting D p h st : Prop := drained D p st ∧
  (∀ d, candidate (own h) d → unmarked d ∨ marker (own h) d) ∧
  ((∀ d, candidate (own h) d → marker (own h) d) ∨
   marker (own h) (dir (own h)) ∧ leftover D p h st ∨
   unmarked (dir (own h)) ∧ settled_home D p h st).
Definition home_ok D p h st : Prop := at_rest D p h st ∨ evicting D p h st.

Definition running D p s h st j : Prop := (∀ d, candidate (own h) d → unmarked d) ∧ sub_past h = [] ∧
  ∃ jid f, hex64 jid ∧ sub h = Some f ∧ matches id jid sz D p (mkSys (Some s) f st j).

Definition omatches (x : Disk * Spec) (y : OSys) : Prop := bytes_disk x.1 ∧ behind x.2 ∧
  match proc y with
  | Some s => running x.1 x.2 s (home y) (ostore y) (ojob y)
  | None => home_ok x.1 x.2 (home y) (ostore y) ∧ ojob y = Idle
  end.

(** ** Crashes *)
Lemma set_mode_down p : mode p = Down → set_mode Down p = p.
Proof using. destruct p; cbn. by intros ->. Qed.

Lemma normal_down D p f st : normal D p f st → mode p = Down ∧ locked f = false.
Proof using. by intros (jid & _ & w & H & X & Q & _ & Hlk & _ & Hm & _). Qed.

Lemma normal_crash D p f f' st : bytes_disk D → normal D p f st → crashed f f' → normal D p f' st.
Proof using All.
  intros HD Hn Hc. destruct (normal_down _ _ _ _ Hn) as [Hm _]. destruct Hn as (jid & Hjid & w & H & X & Q & Hdn & _ & Hrel).
  exists jid. split; [done|]. rewrite -(set_mode_down p) //.
  eapply (matches_crash id jid sz D Hsz Halign HD Hjid); [exact Hdn|by rewrite set_mode_down|done].
Qed.

Lemma normal_quiet D p f f' st : quiet f f' → normal D p f st → normal D p f' st.
Proof using Hsz Halign.
  intros Hq (jid & Hjid & w & H & X & Q & Hdn & Hlk & Hrel). exists jid. split; [done|]. exists w, H, X, Q. cbn [files store disk] in *.
  split; [|split; [by destruct (quiet_lock _ _ Hq) as [-> _]|done]]. destruct Hdn. split; [done..|]. by eapply journals_quiet.
Qed.

Lemma shrunk_refl f : shrunk f f.
Proof using. split; [done|]. split; [done|]. intros d Hd. by exists d. Qed.

Lemma unlink_sub k f : dir (unlink_some k f) ⊆ dir f.
Proof using.
  apply map_subseteq_spec. intros name i Hi. apply elem_of_list_to_map_2, list_elem_of_omap in Hi as ([j e] & Hin & He).
  cbn [fst snd] in He. destruct (Nat.testbit k j); [|done]. injection He as ->.
  apply elem_of_zip_r in Hin. by apply elem_of_map_to_list.
Qed.

Lemma shrunk_unlink k f0 f : shrunk f0 f → shrunk f0 (unlink_some k f).
Proof using.
  intros (E1 & E2 & Hd). split; [done|]. split; [done|]. intros d [->|Hp].
  - destruct (Hd (dir f)) as (d0 & Hd0 & Hs); [by left|]. exists d0. split; [done|]. etrans; [apply unlink_sub|done].
  - apply Hd. apply elem_of_cons in Hp as [->|Hp]; [by left|by right].
Qed.

Lemma shrunk_torn h f0 f f1 : torn h f f1 → shrunk f0 f → shrunk f0 f1.
Proof using. intros [->|(_ & k & ->)]; [done|apply shrunk_unlink]. Qed.

Lemma unborn_shrunk w f0 f : shrunk f0 f → unborn w f0 → unborn w f.
Proof using.
  intros (E & _ & Hd) Hu d (d0 & Hd0 & Hs)%Hd. rewrite E. destruct (d !! "journal") as [j|] eqn:Ej; [|by left].
  eapply lookup_weaken in Ej; [|done]. destruct (Hu d0 Hd0) as [Hn|Hx]; [congruence|]. right. by rewrite -Ej.
Qed.

(** What a crash makes of a partly removed journal directory. *)
Lemma shrunk_crash D p f0 f f' st : bytes_disk D → normal D p f0 st → shrunk f0 f → crashed f f' →
  normal D p f' st ∨ dir f' !! "journal" = None.
Proof using All.
  intros HD Hn (E1 & E2 & Hd) (Hdir & Hp & Hlk & Hpr & Hi). destruct (dir f' !! "journal") as [j|] eqn:Ej; [left|by right].
  destruct (Hd (dir f')) as (d0 & Hd0 & Hs); [by destruct Hdir; [left|right]|].
  set (f2 := mkFs (inodes f') d0 [] false (dir_private f') (plan f')).
  assert (crashed f0 f2) as Hc by (split_and!; [done|done|done|cbn; congruence|cbn; by rewrite -E1]).
  eapply normal_quiet; [|by eapply normal_crash]. pose proof (lookup_weaken _ _ _ _ Ej Hs) as Ej0. split; cbn.
  - done.
  - intros d' [->|Hd']; [|rewrite Hp in Hd'; by apply not_elem_of_nil in Hd']. exists d0. split; [by left|]. congruence.
  - congruence.
  - by rewrite Hlk.
Qed.

Lemma crashed_candidate f f' d : crashed f f' → candidate f' d → d = dir f' ∧ candidate f d.
Proof using.
  intros (Hd & Hp & _) Hc. rewrite /candidate Hp in Hc. destruct Hc as [->|Hc]; [|by apply not_elem_of_nil in Hc].
  split; [done|]. by destruct Hd; [left|right].
Qed.

Lemma marker_crash f f' d : crashed f f' → marker f d → marker f' d.
Proof using.
  intros (_ & _ & _ & _ & Hi) (i & n & Hd & Hn & E1 & E2). specialize (Hi i). rewrite Hn in Hi.
  destruct (inodes f' !! i) as [n'|] eqn:En; [|done]. destruct Hi as (_ & Es & Hx).
  assert (data n' = SYNCED) as Ed.
  { rewrite E1 E2 in Hx. destruct Hx as [[H1 H2]|[[H1 H2]|[H1 _]]]; [by apply (anti_symm prefix)..|by destruct H1]. }
  exists i, n'. split_and!; try done. congruence.
Qed.

Lemma settled_crash D p h h' st : bytes_disk D → settled_home D p h st → home_crashed h h' → settled_home D p h' st.
Proof using All.
  intros HD Hs (_ & Hp & o & Ho & Hx). destruct Hs as [(Hpast & f & Hsub & Hn)|(-> & w & Hw & Hf)].
  - rewrite Hpast Hsub list_elem_of_singleton in Ho. subst o. destruct (sub h') as [f'|] eqn:Es; [|done].
    destruct Hx as (f1 & [->|[Hno _]] & Hc); [|congruence]. left. split; [done|]. exists f'. split; [done|]. by eapply normal_crash.
  - right. split; [done|]. exists w. split; [done|]. intros f'. rewrite Hp list_elem_of_singleton. intros Es. rewrite -Es in Hx.
    destruct o as [f|]; [|done]. destruct Hx as (f1 & Ht & Hc). destruct (Hf f Ho) as [_ Hu].
    split; [by destruct Hc as (_ & _ & ? & _)|]. eapply unborn_crash; [|done].
    eapply unborn_shrunk; [|done]. by eapply shrunk_torn, shrunk_refl.
Qed.

(** The invariant, or that of the disk with its history absorbed. *)
Definition or_absorbed (P : Disk → Spec → Prop) D p st : Prop := P D p ∨ drained D p st ∧ P (absorbed D p) origin.

Lemma home_crash D p h h' st : bytes_disk D → home_ok D p h st → home_crashed h h' →
  or_absorbed (λ D p, home_ok D p h' st) D p st.
Proof using All.
  intros HD Hok Hcr. pose proof Hcr as (Hc & Hp & o & Ho & Hx).
  assert ((∀ d, candidate (own h) d → unmarked d) ∨ unmarked (dir (own h')) → settled_home D p h st → at_rest D p h' st) as Hrest.
  { intros Hu Hs. split; [|by eapply settled_crash]. intros d [-> Hd]%(crashed_candidate _ _ _ Hc). destruct Hu as [Hu|Hu]; [by apply Hu|done]. }
  destruct Hok as [[Hu Hs]|(Hdr & Hm & Hk)]; [left; left; apply Hrest; [by left|done]|].
  assert (candidate (own h) (dir (own h'))) as Hd by (apply (crashed_candidate _ _ _ Hc); by left).
  destruct (Hm _ Hd) as [Hu|Hmk].
  2: { left. right. split; [done|]. assert (∀ d, candidate (own h') d → marker (own h') d) as Hall.
       { intros d [-> _]%(crashed_candidate _ _ _ Hc). by eapply marker_crash. }
       split; [intros d ?; right; by apply Hall|by left]. }
  destruct Hk as [Hall|[[_ Hlo]|[_ Hs]]].
  - destruct (Hall _ Hd) as (i & n & Hi & _). by rewrite Hu in Hi.
  - assert (∀ f', sub h' = Some f' → normal D p f' st ∨ (locked f' = false ∧ dir f' !! "journal" = None ∧ past f' = [])) as Hf'.
    { intros f' Es. rewrite Es in Hx. destruct o as [f|]; [|done]. destruct Hx as (f1 & Ht & Hcf). destruct (Hlo f Ho) as (f0 & Hn & Hsh).
      destruct (shrunk_crash D p f0 f1 f' st) as [?|?]; [done|done|by eapply shrunk_torn|done|by left|right].
      by destruct Hcf as (_ & ? & ? & _). }
    assert (∀ d, candidate (own h') d → unmarked d) as Hun by by intros d [-> _]%(crashed_candidate _ _ _ Hc).
    destruct Hdr as [Hds (w & Hw)].
    assert ((∀ f', sub h' = Some f' → locked f' = false ∧ dir f' !! "journal" = None ∧ past f' = []) →
      or_absorbed (λ D p, home_ok D p h' st) D p st) as Habs.
    { intros Hno. right. split; [split; [done|by exists w]|]. left. split; [done|]. right. split; [done|]. exists w. split; [done|].
      intros f'. rewrite Hp list_elem_of_singleton. intros Es. symmetry in Es. destruct (Hno f' Es) as (H1 & H2 & H3). split; [done|].
      intros d Hd'. rewrite /candidate H3 in Hd'. destruct Hd' as [->|Hd']; [by left|by apply not_elem_of_nil in Hd']. }
    destruct (sub h') as [f'|] eqn:Es; [|by apply Habs].
    destruct (Hf' f' eq_refl) as [Hn|Hn]; [|apply Habs; by intros ? [= <-]].
    left. left. split; [done|]. left. split; [done|]. by exists f'.
  - left. left. apply Hrest; [by right|done].
Qed.

(** ** The owner's directory *)
Lemma wp_on_own {A} (m : M Error Fs A) h (Q : Result Error A → Home → Prop) :
  wp m (own h) (λ r f, Q r (set_own f h)) → wp (on_own m) h Q.
Proof using. intros H. by apply wp_zoom. Qed.

Definition with_plan (q : list (option nat)) h : Home := set_own (set_plan q (own h)) h.
Definition synced_home h : Home :=
  mkHome (mkFs (inodes (own h)) (dir (own h)) [] (locked (own h)) (dir_private (own h)) (plan (own h))) (sub h) [].

Lemma wp_own_sys h (Q : Result Error unit → Home → Prop) :
  (∀ q, Q (Ok tt) (with_plan q h)) → (∀ q, Q (Err Store) (with_plan q h)) → wp (on_own sys) h Q.
Proof using. intros H1 H2. apply wp_on_own, wp_sys; [apply H1|apply H2]. Qed.

Lemma wp_sync_home h (Q : Result Error unit → Home → Prop) :
  (∀ q, Q (Ok tt) (synced_home (with_plan q h))) → (∀ q, Q (Err Store) (with_plan q h)) → wp sync_home h Q.
Proof using.
  intros H1 H2. rewrite /sync_home. wp_step. apply wp_on_own. rewrite /sync_dir. wp_step.
  apply wp_sys; intros q1; [|apply H2]. wp_step. apply wp_sys; intros q2; [|apply (H2 q2)].
  apply wp_modify. cbn beta iota. apply wp_modify. apply (H1 q2).
Qed.

Lemma synced_candidate h d : candidate (own (synced_home h)) d → d = dir (own h).
Proof using. intros [->|Hd]; [done|]. by apply not_elem_of_nil in Hd. Qed.

(** An eviction that is finished leaves the journal directory alone or takes it. *)
Lemma remove_journal_sub h : wp remove_journal h (λ r h', is_ok r = true → sub h' = None).
Proof using.
  rewrite /remove_journal. wp_step. apply wp_on_own, wp_outcome. intros [k|] q; cbn beta iota.
  - wp_step. apply wp_modify. cbn beta iota. by apply wp_fail.
  - apply wp_modify. cbn [sub set_own]. intros _. by destruct (sub h) eqn:E.
Qed.
Lemma sync_home_sub h : wp sync_home h (λ _ h', sub h' = sub h).
Proof using. apply wp_sync_home; by intros. Qed.

Lemma finish_sub h : wp finish_eviction h (λ r h', is_ok r = true → sub h' = sub h ∨ sub h' = None).
Proof using.
  rewrite /finish_eviction. wp_step. apply wp_on_own, wp_outcome. intros o q. wp_step. apply wp_gets. set (f := lookup_file _ _).
  match goal with |- wp _ _ ?Q => assert (wp (guard_err (bool_decide (o = None) && match f with Some n => bool_decide (data n = SYNCED) | None => false end) Corrupt;;
    remove_journal;; sync_home;; on_own (remove_file "eviction");; sync_home) (set_own (set_plan q (own h)) h) Q) as Hgo end.
  { wp_step. wp_step; [|done]. wp_step. eapply wp_mono; [apply remove_journal_sub|]. intros [[]|e] h1 H1; [|done]. specialize (H1 eq_refl).
    wp_step. eapply wp_mono; [apply sync_home_sub|]. intros [[]|e] h2 H2; [|done].
    wp_step. apply wp_on_own. rewrite /remove_file. wp_step. apply wp_sys; intros q1; [|done]. apply wp_modify. cbn beta iota.
    eapply wp_mono; [apply sync_home_sub|]. intros r h3 H3 _. right. rewrite H3. cbn. congruence. }
  destruct o; [exact Hgo|]. destruct f; [exact Hgo|]. apply wp_ret. by left.
Qed.

(** Unmarked now: what can be opened can be opened. *)
Lemma home_settled D p h st : home_ok D p h st → unmarked (dir (own h)) → settled_home D p h st.
Proof using.
  intros [[_ Hs]|(_ & _ & [Hall|[[(i & n & Hi & _) _]|[_ Hs]]])] Hu; [done| | |done].
  - destruct (Hall (dir (own h))) as (i & n & Hi & _); [by left|]. by rewrite Hu in Hi.
  - by rewrite Hu in Hi.
Qed.

Lemma home_resettled D p h h' st st' : home_ok D p h st → unmarked (dir (own h)) → own h' = own h →
  (drained D p st → drained D p st') → settled_home D p h' st' → home_ok D p h' st'.
Proof using.
  intros [[Hu _]|(Hdr & Hm & _)] Hun E Hd Hs; [left|right].
  - split; [by rewrite E|done].
  - split; [by apply Hd|]. rewrite E. split; [done|]. right. by right.
Qed.

Lemma settled_home_synced D p h st : settled_home D p h st → settled_home D p (synced_home h) st.
Proof using.
  intros [(_ & Hf)|(-> & w & Hw & Hf)]; [by left|right]. split; [done|]. exists w. split; [done|].
  intros f. rewrite list_elem_of_singleton. intros Es. apply Hf. cbn [synced_home sub] in Es. rewrite -Es. by left.
Qed.

Lemma drained_absorbed D p st : drained D p st → drained (absorbed D p) origin st.
Proof using. intros [_ Hw]. split; [by split_and!|done]. Qed.

(** *** Finishing an eviction *)

(** The removal is under way. *)
Definition removing D p h st : Prop := drained D p st ∧ marker (own h) (dir (own h)) ∧
  (∀ d, candidate (own h) d → unmarked d ∨ marker (own h) d) ∧
  ((∀ d, candidate (own h) d → marker (own h) d) ∨ leftover D p h st).

Lemma removing_ok D p h st : removing D p h st → home_ok D p h st.
Proof using. intros (Hdr & Hmk & Hm & [Hall|Hlo]); right; (split; [done|]); (split; [done|]); [by left|right; by left]. Qed.

Lemma marked_removing D p h st : home_ok D p h st → ¬ unmarked (dir (own h)) → removing D p h st.
Proof using.
  intros [[Hu _]|(Hdr & Hm & Hk)] Hn; [by destruct Hn; apply Hu; left|].
  destruct Hk as [Hall|[[Hmk Hlo]|[Hu _]]]; [| |done].
  - split; [done|]. split; [by apply Hall; left|]. split; [done|by left].
  - split; [done|]. split; [done|]. split; [done|by right].
Qed.

Lemma remove_journal_ok D p h st : removing D p h st → wp remove_journal h (λ r h', removing D p h' st ∧
  match r with Ok _ => sub h' = None | Err _ => True end).
Proof using.
  intros (Hdr & Hmk & Hm & Hk). rewrite /remove_journal. wp_step. apply wp_on_own, wp_outcome. intros o q.
  assert (∀ x, (∀ f, x = Some f → ∃ f1 k, sub h = Some f1 ∧ f = unlink_some k f1) →
    removing D p (set_sub x (with_plan q h)) st) as Hset.
  { intros x Hx. split; [done|]. split; [done|]. split; [done|]. destruct Hk as [Hall|Hlo]; [by left|right].
    intros f Hf. apply elem_of_cons in Hf as [Hf|Hf]; [|by apply Hlo].
    destruct (Hx f (eq_sym Hf)) as (f1 & k & Es & ->). destruct (Hlo f1) as (f0 & Hn & Hsh); [rewrite Es; by left|].
    exists f0. split; [done|]. by apply shrunk_unlink. }
  destruct o as [k|]; cbn beta iota.
  - wp_step. apply wp_modify. cbn beta iota. apply wp_fail. split; [|done]. cbn [sub set_own].
    destruct (sub h) as [f|] eqn:Es; [|done]. apply Hset. intros f' [= <-]. by exists f, k.
  - apply wp_modify. cbn [sub set_own]. destruct (sub h) as [f|] eqn:Es; [|done]. split; [|done]. apply Hset. by intros f'.
Qed.

Definition absorbed_ok D p h st : Prop := drained D p st ∧ home_ok (absorbed D p) origin h st.

Lemma finish_marked D p h st : removing D p h st → wp finish_eviction h (λ r h', match r with
  | Ok _ => absorbed_ok D p h' st ∧ unmarked (dir (own h'))
  | Err _ => home_ok D p h' st ∨ absorbed_ok D p h' st end).
Proof using.
  intros Hr. pose proof Hr as (Hdr & (i & n & Hi & Hn & Hd & _) & _).
  rewrite /finish_eviction. wp_step. apply wp_on_own, wp_outcome. intros o q. wp_step. apply wp_gets.
  assert (lookup_file "eviction" (own (set_own (set_plan q (own h)) h)) = Some n) as ->.
  { rewrite /lookup_file. change (dir (own _)) with (dir (own h)). by rewrite Hi /= Hn. }
  assert (removing D p (with_plan q h) st) as Hr1 by done.
  match goal with |- wp (match o with _ => _ end) _ ?Q => cut (wp (guard_err (bool_decide (o = None) && bool_decide (data n = SYNCED)) Corrupt;;
    remove_journal;; sync_home;; on_own (remove_file "eviction");; sync_home) (with_plan q h) Q); [by destruct o|] end.
  wp_step. wp_step; [|left; by apply removing_ok].
  wp_step. eapply wp_mono; [by apply remove_journal_ok|]. intros r h1 [Hr2 Hs]. destruct r as [[]|e]; [|left; by apply removing_ok].
  wp_step. apply wp_sync_home; intros q1; [|left; by apply removing_ok].
  destruct Hr2 as (_ & Hmk & _). set (h2 := synced_home (with_plan q1 h1)).
  assert (∀ q, removing D p (with_plan q h2) st) as Hr3.
  { intros q2. assert (∀ d, candidate (own h2) d → marker (own h2) d) as Hall by by intros d ->%synced_candidate.
    split; [done|]. split; [done|]. split; [intros d Hc; right; by apply Hall|by left]. }
  wp_step. apply wp_on_own. rewrite /remove_file. wp_step. apply wp_sys; intros q2; [|left; apply removing_ok, Hr3].
  apply wp_modify. cbn beta iota. set (h3 := set_own _ _).
  assert (unmarked (dir (own h3))) as Hun by by rewrite /unmarked /= lookup_delete_eq.
  assert (settled_home (absorbed D p) origin h3 st) as Hset.
  { destruct Hdr as [_ (w & Hw)]. right. split; [done|]. exists w. split; [done|]. intros f. cbn. rewrite Hs list_elem_of_singleton. done. }
  assert (∀ q, absorbed_ok D p (with_plan q h3) st) as Habs.
  { intros q3. split; [done|]. right. split; [by apply drained_absorbed|]. split; [|by right; right].
    intros d [->|Hc]; [by left|]. right. cbn in Hc. apply list_elem_of_singleton in Hc as ->. done. }
  apply wp_sync_home; intros q3; [|by right]. split; [|done]. split; [done|]. left. split; [by intros d ->%synced_candidate|]. by apply settled_home_synced.
Qed.

Lemma finish_unmarked D p h st : home_ok D p h st → unmarked (dir (own h)) →
  wp finish_eviction h (λ r h', home_ok D p h' st ∧ unmarked (dir (own h'))).
Proof using.
  intros Hok Hu. rewrite /finish_eviction. wp_step. apply wp_on_own, wp_outcome. intros o q. wp_step. apply wp_gets.
  assert (lookup_file "eviction" (own (set_own (set_plan q (own h)) h)) = None) as ->.
  { rewrite /lookup_file. change (dir (own _)) with (dir (own h)). by rewrite Hu. }
  destruct o as [k|]; [|by apply wp_ret]. wp_step. by wp_step.
Qed.

Lemma finish_home_ok D p h st : home_ok D p h st → wp finish_eviction h (λ r h', match r with
  | Ok _ => or_absorbed (λ D p, home_ok D p h' st) D p st ∧ unmarked (dir (own h'))
  | Err _ => or_absorbed (λ D p, home_ok D p h' st) D p st end).
Proof using.
  intros Hok. destruct (decide (dir (own h) !! "eviction" = None)) as [Hu|Hm].
  - eapply wp_mono; [by apply finish_unmarked|]. intros [[]|e] h' [Ho Hu']; [split; [by left|done]|by left].
  - eapply wp_mono; [by apply finish_marked, marked_removing|]. intros [[]|e] h'; [intros [Ho Hu]; split; [by right|done]|].
    intros [Ho|Ho]; [by left|by right].
Qed.

(** ** Opening *)
Lemma make_journal_ok D p h st plan : home_ok D p h st → unmarked (dir (own h)) →
  wp (make_journal plan) h (λ r h', home_ok D p h' st ∧ unmarked (dir (own h')) ∧
    match r with Ok _ => ∃ f, sub h' = Some f ∧ journal_seen f | Err _ => True end).
Proof using.
  intros Hok Hu. destruct (sub h) as [f0|] eqn:Hsub.
  { rewrite /make_journal. wp_step. apply wp_own_sys; intros q1; [|done]. wp_step. apply wp_gets. cbn [sub with_plan set_own]. by rewrite Hsub bool_decide_true. }
  pose proof (home_settled _ _ _ _ Hok Hu) as Hs.
  destruct Hs as [(_ & f & Hf & _)|(-> & w & Hw & Hf)]; [by rewrite Hsub in Hf|].
  assert (∀ b, let f := mkFs ∅ ∅ [] false b plan in locked f = false ∧ unborn w f) as Hnew.
  { intros b f. split; [done|]. intros d [->|Hd]; [left; apply lookup_empty|by apply not_elem_of_nil in Hd]. }
  assert (∀ b h', own h' = own h → (∀ f, Some f ∈ sub h' :: sub_past h' → f = mkFs ∅ ∅ [] false b plan ∨ f = mkFs ∅ ∅ [] false false plan ∨ Some f ∈ sub h :: sub_past h) →
    home_ok D origin h' st) as Hgo.
  { intros b h' E Hin. eapply home_resettled; [exact Hok|done|done|done|]. right. split; [done|]. exists w. split; [done|].
    intros f [->|[->|?]]%Hin; [apply Hnew..|by apply Hf]. }
  rewrite /make_journal. wp_step. apply wp_own_sys; intros q1; [|done]. wp_step. apply wp_gets. wp_step. apply wp_guard; intros _; [|done].
  wp_step. apply wp_modify. cbn beta iota.
  assert (∀ q, home_ok D origin (with_plan q (set_sub (Some (mkFs ∅ ∅ [] false false plan)) (with_plan q1 h))) st) as H1.
  { intros q. apply (Hgo false (set_sub (Some (mkFs ∅ ∅ [] false false plan)) h)); [done|]. intros f [E|Hin]%elem_of_cons; [left; by injection E|by right; right]. }
  wp_step. apply wp_own_sys; intros q2; [|done]. apply wp_modify. split; [|split; [done|eexists; split; [done|by left]]].
  apply (Hgo true (put_sub (mkFs ∅ ∅ [] false true plan) (set_sub (Some (mkFs ∅ ∅ [] false false plan)) h))); [done|].
  intros f [E|Hin]%elem_of_cons; [left; by injection E|by right; right].
Qed.

Lemma wp_on_journal {A} (m : M Error (Fs * S) A) h st f (Q : Result Error A → Home * S → Prop) : sub h = Some f →
  wp m (f, st) (λ r t, Q r (put_sub t.1 h, t.2)) → wp (on_journal m) (h, st) Q.
Proof using. intros Hf. rewrite /wp /on_journal /= Hf. by destruct (m (f, st)) as [r [f' st']]. Qed.

(** The journal directory is opened. *)
Lemma open_settled random D p h st f : bytes_disk D → at_rest D p h st → sub_past h = [] → sub h = Some f → journal_seen f → new_id id random st →
  wp (open id random) (f, st) (λ r t, match r with
    | Ok s => ∃ p', allowed sz D p (LOpen (Ok tt)) p' ∧ running D p' s (put_sub t.1 h) t.2 Idle
    | Err _ => at_rest D p (put_sub t.1 h) t.2 end).
Proof using All.
  intros HD [Hun Hs] Hpast Hf Hseen Hnew. destruct Hs as [(_ & f' & Hf' & jid & Hjid & Hm)|(-> & w & Hw & Hall)].
  - rewrite Hf in Hf'. injection Hf' as <-. rewrite /wp. destruct (open id random (f, st)) as [r [f1 st1]] eqn:E.
    eapply (sim_open id jid sz D Hsz Halign HD Hjid) in E as (p' & Ha & Hm'); [|done..]. cbn [fst snd]. destruct r as [s|e].
    + exists p'. split; [done|]. split; [done|]. split; [done|]. by exists jid, f1.
    + inversion Ha; subst. split; [done|]. left. split; [done|]. exists f1. split; [done|]. by exists jid.
  - destruct (Hall f) as [Hlk Hu]; [rewrite Hf; by left|].
    assert (level (digest random) w = 0) as Hlv.
    { rewrite /level. destruct (r_replication w) as [r|] eqn:Er; [|done]. destruct Hw as (Hg & Hb & _).
      by rewrite bool_decide_false; [by eapply Hnew|]. }
    eapply wp_mono; [by apply (open_unborn id sz D Hsz Halign HD random st w f)|]. intros [s|e] [f1 st1] [Hc Hr]; cbn [fst snd] in *.
    + destruct Hr as (Hlk1 & jid & Hjid & Hl & Hfl & _). exists (mkSpec Up [] [] [] [] []). split; [by apply (sp_open _ _ origin [])|].
      split; [done|]. split; [done|]. exists jid, f1. split; [done|]. split; [done|]. by apply (matches_fresh id jid sz D Hsz Halign HD Hjid s f1 st1 w).
    + split; [done|]. right. split; [done|]. exists w. split; [by eapply remote_is_calm|]. intros f2.
      cbn [put_sub sub sub_past]. rewrite Hpast list_elem_of_singleton. by intros [= ->].
Qed.

Lemma absorbed_bytes D p st : drained D p st → bytes_disk (absorbed D p).
Proof using.
  intros [_ (w & Hg & _ & _ & Hs & Hv)] q Hq. rewrite -Hv //. eapply good_bytes; [done|]. by rewrite Hs.
Qed.

Lemma or_absorbed_case (P Q : Disk → Spec → Prop) D p st : bytes_disk D → or_absorbed P D p st →
  (∀ D p, bytes_disk D → P D p → Q D p) → or_absorbed Q D p st.
Proof using. intros HD [H|[Hd H]] HQ; [left; by apply HQ|right; split; [done|]]. apply HQ; [by eapply absorbed_bytes|done]. Qed.

Definition open_post (h' : Home) st' (r : Result Error (State V)) D p : Prop :=
  match r with
  | Ok s => ∃ p', allowed sz D p (LOpen (Ok tt)) p' ∧ running D p' s h' st' Idle
  | Err _ => home_ok D p h' st'
  end.

Lemma wp_on_home {A} (m : M Error Home A) h st (Q : Result Error A → Home * S → Prop) :
  wp m h (λ r h', Q r (h', st)) → wp (on_home m) (h, st) Q.
Proof using. intros H. by apply wp_zoom. Qed.

Lemma or_absorbed_both (P Q : Disk → Spec → Prop) D p st : or_absorbed P D p st → (∀ D p, P D p → Q D p) → or_absorbed Q D p st.
Proof using. intros [H|[Hd H]] HQ; [left|right; split; [done|]]; by apply HQ. Qed.

(** [open_home] behind [finish_eviction]. *)
Lemma open_rest random plan D p h st : bytes_disk D → home_ok D p h st → unmarked (dir (own h)) → new_id id random st → home_seen h →
  wp (there ← on_home journal_there;
      (if (there : bool) then mret tt else on_home (make_journal plan));;
      on_home sync_home;; on_home (on_own sys);; on_home (on_own sys);;
      on_journal (open id random)) (h, st) (λ r t, open_post t.1 t.2 r D p).
Proof using All.
  intros HD Hok Hu Hnew Hseen. wp_step. apply wp_on_home. rewrite /journal_there. wp_step. apply wp_on_own, wp_outcome. intros o q. apply wp_gets.
  change (set_own (set_plan q (own h)) h) with (with_plan q h). cbn beta iota. wp_step.
  apply (wp_mono _ _ (λ r t, t.2 = st ∧ home_ok D p t.1 st ∧ unmarked (dir (own t.1)) ∧
    match r with Ok _ => ∃ f, sub t.1 = Some f ∧ journal_seen f | Err _ => True end)).
  { destruct (_ && _) eqn:Hs; [|apply wp_on_home; eapply wp_mono; [by apply (make_journal_ok D p (with_plan q h) st plan)|done]]. apply wp_ret.
    apply andb_prop in Hs as [_ [f Hf]%bool_decide_eq_true]. split; [done|]. split; [done|]. split; [done|]. exists f. split; [done|by apply Hseen]. }
  intros r [h1 st1] (Hst & Hok1 & Hu1 & Hs1). cbn [fst snd] in *. subst st1. destruct r as [[]|e]; [|done]. destruct Hs1 as (f & Hf & Hf1).
  wp_step. apply wp_on_home, wp_sync_home; intros q1; [|done]. cbn [fst snd]. set (h2 := synced_home (with_plan q1 h1)).
  assert (∀ q, at_rest D p (with_plan q h2) st) as Hrest.
  { intros q0. split; [by intros d ->%synced_candidate|]. by apply (settled_home_synced D p h1), home_settled. }
  wp_step. apply wp_on_home, wp_own_sys; intros q2; [|left; apply Hrest]. wp_step. apply wp_on_home, wp_own_sys; intros q3; [|left; apply (Hrest q3)].
  eapply wp_on_journal; [exact Hf|]. eapply wp_mono; [apply (open_settled random D p (with_plan q3 h2)); try done; apply Hrest|].
  intros [s|e] [f1 st1] Hr; cbn [fst snd open_post] in *; [done|by left].
Qed.

Lemma open_home_ok random plan D p h st : bytes_disk D → home_ok D p h st → new_id id random st → home_seen h →
  wp (open_home id random plan) (h, st) (λ r t, match r with
    | Ok s => or_absorbed (open_post t.1 t.2 (Ok s)) D p st
    | Err _ => or_absorbed (λ D p, home_ok D p t.1 t.2) D p st end).
Proof using All.
  intros HD Hok Hnew Hseen. rewrite /open_home. wp_step. apply wp_on_home. eapply wp_mono; [apply wp_and; [by apply finish_home_ok|apply finish_sub]|].
  intros [[]|e] h1 [H1 Hsub]; [|done]. destruct H1 as [Ho Hu].
  assert (home_seen h1) as Hs1 by (intros f Hf; destruct (Hsub eq_refl) as [E|E]; [apply Hseen; congruence|congruence]).
  destruct Ho as [Ho|[Hdr Ho]].
  - eapply wp_mono; [by apply (open_rest random plan D p h1 st)|]. intros [s|e] [h2 st2]; by left.
  - eapply wp_mono; [apply (open_rest random plan (absorbed D p) origin h1 st); try done; by eapply absorbed_bytes|].
    intros [s|e] [h2 st2]; by right.
Qed.

(** ** Synchronization of a disk that was just opened *)
Section sync.
Variables (jid : string) (D : Disk) (p : Spec).
Hypotheses (Hjid : hex64 jid) (HD : bytes_disk D) (Hbehind : behind p) (Htail : tail p = []).

Abbreviation matches := (matches id jid sz D).

(** The machine while and after it synchronizes. *)
Record synced (q : Spec) : Prop := {
  sy_durable : durable q = durable p;
  sy_tail : tail q = [];
  sy_doubt : doubt q = [];
  sy_mode : mode q ≠ Down;
  sy_remote : remote q = remote p ∨ remote q = durable p;
  sy_target : target q `prefix_of` durable p;
}.

Lemma synced_retired q q' : synced q → retired q q' → synced q'.
Proof using. intros Hq [->|[_ ->]]; [done|]. by destruct Hq. Qed.

Lemma written_synced q : synced q → written q = durable p.
Proof using. intros []. by rewrite /written sy_durable0 sy_tail0 app_nil_r. Qed.

Lemma matches_idle q s f st j : matches q (mkSys (Some s) f st j) → matches q (mkSys (Some s) f st Idle).
Proof using. by intros (w & H & X & Hl & Hlk & Hu & _); exists w, H, X. Qed.

Lemma wp_calls {St A} (m : M Error St A) (x : St) (Q : Result Error A → St → Prop) : (∀ r y, m x = (r, y) → Q r y) → wp m x Q.
Proof using. intros H. rewrite /wp. destruct (m x) as [r y] eqn:E. by apply H. Qed.

Definition is_synced (t : State V * Fs * S) (P : Spec → Prop) : Prop :=
  ∃ q, synced q ∧ P q ∧ matches q (mkSys (Some t.1.1) t.1.2 t.2 Idle).

Lemma rep_prepare_sim s f st q : synced q → matches q (mkSys (Some s) f st Idle) →
  wp (rep_prepare id) (s, f, st) (λ r t, match r with
    | Ok (Some (v, m, mark)) => ∃ q', synced q' ∧ target q' = durable p ∧ matches q' (mkSys (Some t.1.1) t.1.2 t.2 (Snapped v m mark))
    | Ok None => is_synced t (λ q', remote q' = durable p)
    | Err _ => is_synced t (λ _, True) end).
Proof using All.
  intros Hq Hm. rewrite /rep_prepare. wp_step. apply wp_calls. intros r [[s1 f1] st1] E.
  eapply (sim_sync id jid sz D Hsz Halign HD Hjid) in E as (q1 & Ha & Hm1); [|exact Hm].
  destruct r as [[]|e]; [| |inversion Ha; subst; by exists q1].
  2: { inversion Ha; subst. wp_step. exists q1. split; [done|]. split; [|by eapply matches_idle]. by rewrite -(written_synced q1). }
  assert (q1 = q) as -> by by inversion Ha. wp_step. apply wp_zoom, wp_calls. cbn [fst snd]. intros r st2 E2.
  eapply (sim_remote id jid sz D Hsz Halign HD Hjid) in E2; [|exact Hm1].
  destruct r as [v|e]; [|exists q; split; [done|split; [done|by eapply matches_idle]]].
  wp_step. apply wp_calls. intros r [[s3 f3] st3] E3. eapply (sim_snapshot id jid sz D Hsz Halign HD Hjid) in E3 as (q3 & Ha3 & Hm3); [|exact E2].
  assert (∀ tg, tg `prefix_of` durable p → synced (set_target tg (synced_spec q))) as Hset.
  { intros tg Htg. pose proof (written_synced q Hq) as Hw. destruct Hq. split; cbn; try done. }
  destruct r as [[[m mark]|]|e]; cbn [res] in Ha3.
  - rewrite bool_decide_true in Ha3; [by eexists|]. inversion Ha3; subst. wp_step. exists (set_target (written q) (synced_spec q)). split; [apply Hset; by rewrite (written_synced q)|].
    split; [|exact Hm3]. cbn. by apply written_synced.
  - rewrite bool_decide_false in Ha3; [by intros [? ?]|]. inversion Ha3; subst. wp_step. exists (synced_spec q). split; [|split; [|by eapply matches_idle]].
    + pose proof (written_synced q Hq) as Hw. destruct Hq. by split.
    + cbn [remote synced_spec]. by rewrite -(written_synced q).
  - inversion Ha3; subst. exists q3. split; [by eapply synced_retired|]. split; [done|by eapply matches_idle].
Qed.

Lemma replicate_sim s f st q : synced q → matches q (mkSys (Some s) f st Idle) → sync_safe id (s, f, st) →
  wp (replicate id) (s, f, st) (λ r t, is_synced t (λ q', match r with Ok _ => remote q' = durable p | Err _ => True end)).
Proof using All.
  intros Hq Hm Hsafe. rewrite /replicate. wp_step. eapply wp_mono; [by apply wp_self, (rep_prepare_sim s f st q)|].
  intros [[[[v m] mark]|]|e] [[s1 f1] st1] [E Hr]; [|by apply wp_ret|done]. cbn [fst snd] in *. cbn beta iota.
  destruct Hr as (q1 & Hq1 & Htg & Hm1). pose proof (Hsafe _ _ _ _ E) as Hps. cbn [snd] in Hps.
  wp_step. apply wp_run_remote, wp_calls. cbn [fst snd]. intros r [v2 st2] E2.
  eapply (sim_push id jid sz D Hsz Halign HD Hjid) in E2 as (q2 & Ha2 & Hm2); [|exact Hm1|exact Hps]. cbn [fst snd]. cbn beta iota.
  wp_step. apply wp_of_result.
  assert (synced q2 ∧ (is_ok r = true → remote q2 = durable p)) as [Hq2 Hr2].
  { destruct Hq1. inversion Ha2; subst; cbn; (split; [split; cbn; try done|done]); right; congruence. }
  destruct r as [[]|e]; [|exists q2; split; [done|split; [done|by eapply matches_idle]]].
  specialize (Hr2 eq_refl). apply wp_calls. intros r [[s3 f3] st3] E3.
  eapply (sim_finish id jid sz D Hsz Halign HD Hjid) in E3 as (q3 & Ha3 & Hm3); [|exact Hm2]. exists q3. cbn [fst snd].
  destruct r as [[]|e]; inversion Ha3; subst.
  - split; [done|]. split; [done|by eapply matches_idle].
  - split; [by eapply synced_retired|]. split; [done|by eapply matches_idle].
Qed.

Lemma sync_sim s f st q : synced q → matches q (mkSys (Some s) f st Idle) → sync_safe id (s, f, st) →
  wp (sync_remote id) (s, f, st) (λ r t, is_synced t (λ q', match r with Ok _ => remote q' = durable p | Err _ => True end)).
Proof using All.
  intros Hq Hm Hsafe. rewrite /sync_remote. wp_step. wp_step. eapply wp_mono; [by apply (replicate_sim s f st q)|].
  intros r [[s1 f1] st1] (q1 & Hq1 & Hr1 & Hm1). cbn [fst snd] in *. cbn beta iota. wp_step. apply wp_zoom, wp_modify. cbn [fst snd].
  assert (is_synced (set_replication_failed (negb (is_ok r)) s1, f1, st1) (λ q', match r with Ok _ => remote q' = durable p | Err _ => True end)) as Hend.
  { exists q1. split; [done|]. split; [done|]. destruct Hm1 as (w & H & X & Hl & Hlk & Hu & _). exists w, H, X. cbn [disk files store job fst snd] in *.
    split; [by apply (live_flag id jid sz D)|]. split; [done|]. split; [|done].
    eapply (up_keep id jid sz D Hsz Halign HD Hjid w H X X s1); [exact Hu|done|done|by left]. }
  wp_step. apply wp_of_result. destruct r as [[]|e]; [|done]. by apply wp_gets.
Qed.
End sync.

(** ** Eviction *)
Lemma open_truncate_ok name f : name ≠ "eviction" → (∀ d, candidate f d → unmarked d) → wp (open_truncate name) f (λ r f',
  (∀ d, candidate f' d → unmarked d) ∧ match r with
  | Ok i => dir f' !! name = Some i ∧ ∃ n, inodes f' !! i = Some n ∧ data n = []
  | Err _ => True end).
Proof using.
  intros Hne Hu. rewrite /open_truncate. wp_step. apply wp_sys; intros q; [|done]. wp_step. apply wp_gets.
  change (dir (set_plan q f)) with (dir f). destruct (dir f !! name) as [i|] eqn:Ei.
  - wp_step. apply wp_modify. apply wp_ret. split; [done|]. split; [done|]. eexists. split.
    + cbn. by rewrite lookup_partial_alter_eq.
    + by destruct (inodes f !! i).
  - rewrite /wp /make. cbn. split.
    + intros d [->|Hd]; [by rewrite /unmarked /= lookup_insert_ne //; apply Hu; left|].
      apply elem_of_cons in Hd as [->|Hd]; apply Hu; [by left|by right].
    + rewrite lookup_insert_eq. split; [done|]. eexists. by rewrite lookup_insert_eq.
Qed.

Lemma mark_evicted_ok D p h st f : at_rest D p h st → drained D p st → sub_past h = [] → sub h = Some f → normal D p f st →
  wp mark_evicted h (λ r h', match r with Ok _ => removing D p h' st | Err _ => home_ok D p h' st end).
Proof using.
  intros [Hun Hs] Hdr Hpast Hsub Hn.
  assert (∀ f', (∀ d, candidate f' d → unmarked d) → home_ok D p (set_own f' h) st) as Hrest by (intros f' Hu; left; by split).
  rewrite /mark_evicted. wp_step. apply wp_on_own. eapply wp_mono; [by apply open_truncate_ok|].
  intros r f1 [Hu1 Hr]. destruct r as [i|e]; [|by apply Hrest]. destruct Hr as (Hd & n & Hi & Hn0).
  wp_step. apply wp_on_own. eapply wp_mono; [by apply write_all_spec|]. intros r f2 [(E1 & E2 & _) Hr2].
  assert (∀ d, candidate f2 d → unmarked d) as Hu2 by (intros d; rewrite /candidate /= E1 E2; apply Hu1).
  destruct r as [[]|e]; [|by apply Hrest]. wp_step. apply wp_on_own. eapply wp_mono; [by apply sync_all_spec|].
  intros r f3 [(E3 & E4 & _) Hr3]. assert (∀ d, candidate f3 d → unmarked d) as Hu3 by (intros d; rewrite /candidate /= E3 E4; apply Hu2).
  destruct r as [[]|e]; [|by apply Hrest]. wp_step. apply wp_on_own. rewrite /rename. wp_step. apply wp_sys; intros q; [|by apply (Hrest (set_plan q f3))].
  wp_step. apply wp_gets. cbn [own set_own dir set_plan]. rewrite E3 /= E1 Hd. apply wp_modify. cbn beta iota.
  set (h2 := set_own _ _). set (n2 := mkInode _ _ _) in Hr3.
  assert (marker (own h2) (dir (own h2))) as Hmk.
  { exists i, n2. cbn. rewrite lookup_insert_eq. split; [done|]. split; [exact Hr3|]. by rewrite /n2 /append /= Hn0. }
  assert (∀ q, removing D p (with_plan q h2) st) as Hrem.
  { intros q2. split; [done|]. split; [done|]. split.
    - intros d [->|Hd2]; [by right|left]. apply elem_of_cons in Hd2 as [->|Hd2]; apply Hu3; [by left; rewrite E3|by right].
    - right. intros f'. cbn. rewrite Hpast Hsub list_elem_of_singleton. intros [= ->]. exists f. split; [done|apply shrunk_refl]. }
  apply wp_sync_home; intros q2; [|apply removing_ok, Hrem].
  split; [done|]. split; [done|]. split; [intros d ->%synced_candidate; by right|left; by intros d ->%synced_candidate].
Qed.

Definition evict_post h' st' (r : Result Error unit) D p : Prop :=
  match r with
  | Ok _ => ∃ kept, mode p = Down ∧ durable p ++ kept `prefix_of` durable p ++ tail p ++ doubt p ∧
      bytes_disk (apply_blocks D (durable p ++ kept)) ∧ home_ok (apply_blocks D (durable p ++ kept)) origin h' st'
  | Err _ => ∃ p', (p' = p ∨ stopped p p') ∧ or_absorbed (λ D p, home_ok D p h' st') D p' st'
  end.

Lemma opened_spec D p p1 : allowed sz D p (LOpen (Ok tt)) p1 →
  mode p = Down ∧ ∃ kept, durable p ++ kept `prefix_of` durable p ++ tail p ++ doubt p ∧
    p1 = mkSpec Up (durable p ++ kept) [] [] (remote p) (target p).
Proof using. intros Ha. inversion Ha; subst. split; [done|]. by eexists. Qed.

Lemma behind_origin : behind origin.
Proof using. by split. Qed.

(** The synchronization and the closing of the opened disk. *)
Lemma last_sync D p p1 s h st : bytes_disk D → behind p → allowed sz D p (LOpen (Ok tt)) p1 → running D p1 s h st Idle →
  (∀ f, sub h = Some f → sync_safe id (s, f, st)) →
  wp (on_journal (last_call s (sync_remote id))) (h, st) (λ r t, ∃ p2 f, stopped p p2 ∧ at_rest D p2 t.1 t.2 ∧ sub_past t.1 = [] ∧
    sub t.1 = Some f ∧ normal D p2 f t.2 ∧ durable p2 = durable p1 ∧ match r with Ok _ => drained D p2 t.2 | Err _ => True end).
Proof using All.
  intros HD [Hb1 Hb2] Ha (Hun & Hpast & jid & f & Hjid & Hf & Hm) Hsafe. apply opened_spec in Ha as (Hmode & kept & Hkept & ->).
  set (p1 := mkSpec Up (durable p ++ kept) [] [] (remote p) (target p)) in *.
  assert (synced p1 p1) as Hs1 by (split; cbn; try done; [by left|by apply prefix_app_r]).
  eapply wp_on_journal; [done|]. rewrite /wp /last_call. cbn [fst snd].
  pose proof (sync_sim jid D p1 Hjid HD ltac:(by split; apply prefix_app_r) eq_refl s f st p1 Hs1 Hm (Hsafe f Hf)) as Hsync.
  rewrite /wp in Hsync. destruct (sync_remote id (s, f, st)) as [r [[s2 f2] st2]] eqn:E. cbn [fst snd] in *.
  destruct Hsync as (q & Hq & Hr & Hm2). cbn [fst snd] in *.
  destruct (simulation id jid sz D Hsz Halign HD Hjid _ _ _ _ _ Hm2 (s_close id s2 f2 st2) I) as (p2 & Hcl & Hm3).
  inversion Hcl; subst. exists (set_mode Down q), (unlock f2). pose proof Hq as [].
  assert (normal D (set_mode Down q) (unlock f2) st2) as Hn by by exists jid.
  split; [|split; [|split; [done|split; [done|split; [done|split; [done|]]]]]].
  - exists kept, (remote q), (target q). split_and!; try done. by rewrite /set_mode sy_durable0 sy_tail0 sy_doubt0.
  - split; [done|]. left. split; [done|]. by exists (unlock f2).
  - destruct r as [?|e]; [|done]. split; [split; [done|]; split; [done|]; split; [done|]; cbn; congruence|].
    destruct (matches_remote id jid sz D Hsz Halign HD Hjid _ _ Hm3) as (w & ? & ? & ? & ? & Hv). exists w. split_and!; try done.
    rewrite /absorbed. cbn [durable set_mode remote] in *. rewrite Hr in Hv. rewrite sy_durable0. exact Hv.
Qed.

Lemma evict_ok random plan D p h st : bytes_disk D → behind p → home_ok D p h st → new_id id random st → home_seen h → evict_safe id random plan (h, st) →
  wp (evict_local id random plan) (h, st) (λ r t, or_absorbed (evict_post t.1 t.2 r) D p st).
Proof using All.
  intros HD Hb Hok Hnew Hseen Hsafe. rewrite /evict_local. wp_step. eapply wp_mono; [by apply wp_self, open_home_ok|].
  intros [s|e] [h1 st1] [E Hr]; cbn [fst snd] in *.
  2: { eapply or_absorbed_both; [exact Hr|]. intros D1 p1 H1. exists p1. split; [by left|by left]. }
  specialize (Hsafe s h1 st1). rewrite E in Hsafe.
  assert (∀ D1 p1, bytes_disk D1 → behind p1 → open_post h1 st1 (Ok s) D1 p1 →
    wp (on_journal (last_call s (sync_remote id));; on_home mark_evicted;; on_home finish_eviction) (h1, st1)
      (λ r t, evict_post t.1 t.2 r D1 p1)) as Hrest.
  { intros D1 p1 HD1 Hb1 (p2 & Ha & Hrun). wp_step. eapply wp_mono; [apply (last_sync D1 p1 p2 s h1 st1); try done; intros; by eapply Hsafe|].
    intros r [h2 st2] (p3 & f & Hst & Hat & Hpast & Hsub & Hn & Hdu & Hr3). cbn [fst snd] in *.
    assert (∀ e h' st', or_absorbed (λ D p, home_ok D p h' st') D1 p3 st' → evict_post h' st' (Err e) D1 p1) as Herr.
    { intros e h' st' Ho. exists p3. split; [by right|done]. }
    destruct r as [x|e]; [|apply Herr; left; by left].
    wp_step. apply wp_on_home. eapply wp_mono; [by eapply mark_evicted_ok|]. intros [[]|e] h3 H3; cbn [fst snd]; [|apply Herr; by left].
    apply wp_on_home. eapply wp_mono; [by apply finish_marked|]. intros [[]|e] h4 H4; cbn [fst snd].
    - destruct H4 as [[Hdr4 H4] _]. apply absorbed_bytes in Hdr4. apply opened_spec in Ha as (Hmode & kept & Hkept & ->). exists kept.
      rewrite /absorbed Hdu in H4, Hdr4. by split_and!.
    - apply Herr. destruct H4 as [H4|[? H4]]; [by left|by right]. }
  destruct Hr as [Hr|[Hdr Hr]].
  - eapply wp_mono; [by apply Hrest|]. intros r t Hp. by left.
  - eapply wp_mono; [apply Hrest; [by eapply absorbed_bytes|apply behind_origin|done]|]. intros r t Hp. by right.
Qed.

(** ** The simulation *)
Lemma allowed_behind D p l p' : allowed sz D p l p' → behind p → behind p'.
Proof using. intros Ha. apply (remote_durable sz D p [l]). by apply (trace_step sz D p l p []); [constructor|]. Qed.

Lemma home_down D p h st : home_ok D p h st → mode p = Down.
Proof using.
  intros [[_ [(_ & f & _ & Hn)|(-> & _)]]|(((? & _) & _) & _)]; [|done|done]. by destruct (normal_down _ _ _ _ Hn).
Qed.

Lemma absorb_trace (P : Disk → Spec → Prop) x0 ls D p st : otrace sz x0 ls (D, p) → bytes_disk D → behind p → or_absorbed P D p st →
  ∃ D' p', otrace sz x0 ls (D', p') ∧ bytes_disk D' ∧ behind p' ∧ P D' p'.
Proof using.
  intros Ht HD Hb [HP|[Hd HP]]; [by exists D, p|]. exists (absorbed D p), origin.
  split; [by apply otrace_absorb; [|destruct Hd]|]. split; [by eapply absorbed_bytes|]. split; [apply behind_origin|done].
Qed.

Lemma osim x y l C y' : omatches x y → ostep id y l C y' → C → ∀ x0 ls, otrace sz x0 ls x →
  ∃ x', otrace sz x0 (ls ++ [l]) x' ∧ omatches x' y'.
Proof using All.
  destruct x as [D p]. intros (HD & Hb & Hm) Hst HC x0 ls Ht. cbn [fst snd] in *.
  destruct Hst as [random plan h st r h' st' E|s h f st j l C d' f' st' j' Hf Hl Hst|random plan h st r h' st' E|d h st j h' Hc]; cbn [proc home ostore ojob] in *.
  - destruct Hm as [Hm _]. destruct HC as [Hnew Hseen]. eapply wp_run in E; [|by apply (open_home_ok random plan D p h st)]. destruct r as [s|e]; cbn [res opened fst snd] in *.
    + eapply absorb_trace in E as (D1 & p1 & Ht1 & HD1 & Hb1 & p2 & Ha & Hr); [|done..].
      exists (D1, p2). split; [eapply otrace_step; [exact Ht1|by constructor]|]. split; [done|]. split; [by eapply allowed_behind|done].
    + eapply absorb_trace in E as (D1 & p1 & Ht1 & HD1 & Hb1 & Hok); [|done..].
      exists (D1, p1). split; [eapply otrace_step; [exact Ht1|constructor; constructor]|]. by split.
  - destruct Hm as (Hun & Hpast & jid & f0 & Hjid & Hf0 & Hm). rewrite Hf in Hf0. injection Hf0 as <-.
    destruct (simulation id jid sz D Hsz Halign HD Hjid _ _ _ _ _ Hm Hst HC) as (p' & Ha & Hm').
    exists (D, p'). split; [eapply otrace_step; [exact Ht|by constructor]|]. split; [done|]. split; [by eapply allowed_behind|]. cbn [proc fst snd home].
    destruct d' as [s'|]; [split; [done|]; split; [done|]; by exists jid, f'|].
    assert (j' = Idle) as -> by by inversion Hst.
    split; [|done]. left. split; [done|]. left. split; [done|]. exists f'. split; [done|]. by exists jid.
  - destruct Hm as [Hm _]. destruct HC as (Hnew & Hseen & Hsafe). eapply wp_run in E; [|by apply (evict_ok random plan D p h st)]. cbn [fst snd] in *.
    eapply absorb_trace in E as (D1 & p1 & Ht1 & HD1 & Hb1 & He); [|done..]. destruct r as [[]|e]; cbn [evict_post] in He.
    + destruct He as (kept & Hmode & Hk & HD2 & Hok). exists (apply_blocks D1 (durable p1 ++ kept), origin).
      split; [eapply otrace_step; [exact Ht1|by constructor]|]. split; [done|]. by split; [apply behind_origin|].
    + destruct He as (p2 & Hp2 & Ho). assert (otrace sz x0 (ls ++ [OEvict (Err e)]) (D1, p2)) as Ht2.
      { eapply otrace_step; [exact Ht1|by constructor]. }
      assert (behind p2) as Hb2.
      { destruct Hp2 as [->|(kept & rm & tg & _ & _ & Hrm & Htg & ->)]; [done|]. split; [|done]. destruct Hrm as [->| ->]; [|done].
        apply prefix_app_r, Hb1. }
      eapply absorb_trace in Ho as (D3 & p3 & Ht3 & HD3 & Hb3 & Hok); [|done..]. exists (D3, p3). by split.
  - assert (otrace sz x0 (ls ++ [ODisk LCrash]) (D, set_mode Down p)) as Ht1 by (eapply otrace_step; [exact Ht|constructor; constructor]).
    destruct d as [s|].
    + destruct Hm as (Hun & Hpast & jid & f & Hjid & Hf & Hm). destruct Hc as (Hc & Hp & o & Ho & Hx).
      rewrite Hpast Hf list_elem_of_singleton in Ho. subst o. destruct (sub h') as [f'|] eqn:Es; [|done].
      destruct Hx as (f1 & [->|[Hno _]] & Hcf); [|congruence]. exists (D, set_mode Down p). split; [done|]. split; [done|]. split; [done|].
      split; [|done]. left. split; [by intros d [-> Hd]%(crashed_candidate _ _ _ Hc); apply Hun|]. left. split; [done|]. exists f'. split; [done|].
      destruct (simulation id jid sz D Hsz Halign HD Hjid _ _ _ _ _ Hm (s_crash id _ _ _ _ _ Hcf) I) as (p' & Ha & Hm'). inversion Ha; subst. by exists jid.
    + destruct Hm as [Hok ->]. rewrite set_mode_down in Ht1; [by eapply home_down|].
      eapply home_crash in Hok; [|done|done]. eapply absorb_trace in Hok as (D3 & p3 & Ht3 & HD3 & Hb3 & Hok); [|done..]. exists (D3, p3). by split.
Qed.

Lemma orun_match x0 ls0 x y ls y' : otrace sz x0 ls0 x → omatches x y → orun id y ls y' → ∃ x', otrace sz x0 (ls0 ++ ls) x' ∧ omatches x' y'.
Proof using All.
  intros Ht Hm Hr. induction Hr as [|y ls y' l y'' Hr IH C Hst HC]; [exists x; by rewrite app_nil_r|].
  destruct (IH Hm) as (x1 & Ht1 & Hm1). rewrite app_assoc. by eapply osim.
Qed.

(** What the remote volume holds, whatever happened. *)
Lemma home_remote D p h st : bytes_disk D → home_ok D p h st → ∃ w, remote_is (apply_blocks D (remote p)) st w.
Proof using All.
  intros HD [[_ [(_ & f & _ & jid & Hjid & Hm)|(-> & w & Hw & _)]]|([Hd (w & Hw)] & _)].
  - destruct (matches_remote id jid sz D Hsz Halign HD Hjid _ _ Hm) as (w & ?). by exists w.
  - by exists w.
  - exists w. destruct Hd as (_ & _ & _ & ->). done.
Qed.

Lemma omatches_remote D p y : omatches (D, p) y → ∃ w, remote_is (apply_blocks D (remote p)) (ostore y) w.
Proof using All.
  intros (HD & _ & Hm). destruct (proc y) as [s|]; cbn [fst snd] in *.
  - destruct Hm as (_ & _ & jid & f & Hjid & _ & Hm). destruct (matches_remote id jid sz D Hsz Halign HD Hjid _ _ Hm) as (w & ?). by exists w.
  - destruct Hm as [Hok _]. by eapply home_remote.
Qed.

(** A directory in which no disk was ever opened. *)
Definition empty_home h : Prop := (∀ d, candidate (own h) d → unmarked d) ∧
  ∀ f, Some f ∈ sub h :: sub_past h → locked f = false ∧ ∀ d, candidate f d → d !! "journal" = None.

Lemma omatches_fresh D h st w : bytes_disk D → remote_is D st w → empty_home h → omatches (D, origin) (mkO None h st Idle).
Proof using.
  intros HD Hw [Hun Hf]. split; [done|]. split; [apply behind_origin|]. split; [|done]. left. split; [done|]. right. split; [done|].
  exists w. split; [done|]. intros f Hin. destruct (Hf f Hin) as [? Hno]. split; [done|]. intros d Hd. left. by apply Hno.
Qed.
End system.

(** Nothing durable is ever lost: the durable disk only grows by writes. *)
Lemma allowed_durable sz D p l p' : allowed sz D p l p' → durable p `prefix_of` durable p'.
Proof.
  intros Ha. destruct Ha; try done; try (by apply prefix_app_r); destruct H as [->|[_ ->]]; done.
Qed.

Lemma otrace_durable sz D p ls D' p' : otrace sz (D, p) ls (D', p') →
  ∃ k, apply_blocks D' (durable p') = apply_blocks (apply_blocks D (durable p)) k.
Proof.
  assert (∀ x y : Disk * Spec, otrace sz x ls y → ∃ k, apply_blocks y.1 (durable y.2) = apply_blocks (apply_blocks x.1 (durable x.2)) k) as H.
  { clear. intros x y Ht. induction Ht as [x|x ls y l z Ht [k IH] Ha|x ls D p Ht [k IH] _]; [by exists []| |by exists k].
    assert (∃ j, apply_blocks z.1 (durable z.2) = apply_blocks (apply_blocks y.1 (durable y.2)) j) as [j Hj]; [|exists (k ++ j); by rewrite Hj IH apply_blocks_app].
    destruct Ha as [D p l p' Ha|D p kept _ _|D p p' e Hp]; cbn [fst snd].
    - apply allowed_durable in Ha as [j ->]. exists j. by rewrite apply_blocks_app.
    - exists kept. by rewrite /= -apply_blocks_app.
    - destruct Hp as [->|(kept & rm & tg & _ & _ & _ & _ & ->)]; [by exists []|]. exists kept. by rewrite -apply_blocks_app. }
  apply H.
Qed.

Section theorem.
Context {SHA : Sha256} {SHAL : Sha256Laws} {JH : Json Header} {JHL : JsonLaws Header}.
Context {V S : Type} {R : Remote V S} {RL : RemoteLaws V S}.

(** From an empty directory on, whatever happens, a run is one of the abstract
    disk, before and after any of its states. *)
Lemma lifetime_refines id (h0 : Home) (st0 : S) (w0 : V) ls1 y1 ls2 y2 :
  good st0 id w0 → based st0 id w0 → clean w0 → empty_home h0 →
  orun id (mkO None h0 st0 Idle) ls1 y1 → orun id y1 ls2 y2 →
  let sz := r_size w0 in
  ∃ D1 p1 D2 p2, otrace sz (view st0 w0, origin) ls1 (D1, p1) ∧ otrace sz (D1, p1) ls2 (D2, p2) ∧
    behind p1 ∧ behind p2 ∧
    (∃ w, remote_is id sz (apply_blocks D1 (remote p1)) (ostore y1) w) ∧ ∃ w, remote_is id sz (apply_blocks D2 (remote p2)) (ostore y2) w.
Proof.
  intros Hg Hb Hc He Hr1 Hr2 sz. destruct (good_size _ _ _ Hg) as (Hs1 & Hs2 & Hal). assert (0 < sz ≤ 2 ^ 50) as Hsz by done.
  assert (omatches id sz (view st0 w0, origin) (mkO None h0 st0 Idle)) as Hm.
  { eapply omatches_fresh; [|by split_and!|done]. intros q Hq. by eapply good_bytes. }
  destruct (orun_match id sz Hsz Hal _ [] _ _ ls1 y1 (otrace_nil _ _) Hm Hr1) as ([D1 p1] & Ht1 & Hm1).
  destruct (orun_match id sz Hsz Hal _ [] _ _ ls2 y2 (otrace_nil _ (D1, p1)) Hm1 Hr2) as ([D2 p2] & Ht2 & Hm2).
  exists D1, p1, D2, p2. split; [done|]. split; [done|]. split; [by destruct Hm1 as (_ & ? & _)|]. split; [by destruct Hm2 as (_ & ? & _)|].
  split; by apply omatches_remote.
Qed.
End theorem.
End Lifetime.
