(* ===== verification/LocalRemote.v ===== *)
(** The indexed volume as the remote of a local-durable disk: [IndexedVolume]
    satisfies the interface of [Local] and, for the packed formats, its laws. *)
From S2P Require Import Prelude Codec ObjectStore Blocks Base Page Indexed Staging IndexedCommit IndexedApi Repack Files Local LocalLog LocalInv LocalCompact LocalImage LocalSpec LocalRun LocalSync LocalOpen LocalSystem.

Module LocalRemote.
Import Files Staging IndexedCommit IndexedApi Repack Local LocalInv LocalCompact LocalSpec LocalSystem.

Definition to_local (r : Indexed.Replication) : Replication := mkReplication (Indexed.rep_id r) (Indexed.sequence r).
Definition of_local (r : Replication) : Indexed.Replication := Indexed.mkReplication (rep_id r) (rep_sequence r).

Section remote.
Context {S : Type} {SHA : Sha256} {OS : ObjectStore S} {JR : Json Indexed.Root} {SV : StoreView S}.

#[export] Instance indexed_remote : Remote Indexed.IndexedVolume S := {|
  r_open := Indexed.open;
  r_size v := Indexed.size (Indexed.root v);
  r_revision := Indexed.vol_revision;
  r_replication v := to_local <$> Indexed.replication (Indexed.root v);
  r_copy := Indexed.clean_copy;
  r_read := Indexed.read;
  r_write := Indexed.write;
  r_commit m := Indexed.commit_replication (of_local m);
  r_compact := compact_packs;
|}.

Context {SHAL : Sha256Laws} {OSL : ObjectStoreLaws S} {JL : JsonLaws Indexed.Root}.
Implicit Types (s : S) (v w : Indexed.IndexedVolume) (id : string).

(** A handle that may be used: its unsigned fields are not negative. *)
Record handle_ok s id v : Prop := {
  hd_ok : Indexed.vol_ok s id v;
  hd_poisoned : Indexed.poisoned v = false;
  hd_size : 0 < Indexed.size (Indexed.root v);
  hd_mark : ∀ r, Indexed.replication (Indexed.root v) = Some r → 0 < Indexed.sequence r;
}.
Definition handle_clean v : Prop := Indexed.dirty v = ∅ ∧ Indexed.poisoned v = false.
Definition handle_unsaved v : Z := Z.of_nat (base.size (Indexed.dirty v)).
Definition store_later s s' : Prop := grows s s' ∧ (Indexed.typed s → Indexed.typed s').

#[local] Instance same_view_preorder : PreOrder (@same_view S _).
Proof. split; apply _. Qed.
#[local] Instance store_later_preorder : PreOrder store_later.
Proof.
  split; [by split|]. intros s1 s2 s3 [H1 H2] [H3 H4]. split; [by trans s2|auto].
Qed.

Lemma same_view_typed s s' : same_view s s' → Indexed.typed s → Indexed.typed s'.
Proof. intros (Ho & _ & Hb). by rewrite /Indexed.typed Ho Hb. Qed.

Lemma handle_later s s' id v : store_later s s' → handle_ok s id v →
  handle_ok s' id v ∧ disk_eq (Indexed.size (Indexed.root v)) (Indexed.disk_of s' v) (Indexed.disk_of s v).
Proof.
  intros [Hg Ht] []. destruct (vol_grows s s' id v v) as [Hok Hbv]; [done|done|apply Ht; by destruct hd_ok0|by split|by destruct hd_ok0|].
  split; [done|]. apply of_blocks_ext. intros i Hi Hlt. rewrite /Indexed.block /Indexed.committed Hbv //. by eapply range_lt.
Qed.

Lemma handle_bytes s id v p : handle_ok s id v → 0 ≤ p < Indexed.size (Indexed.root v) → is_byte (Indexed.disk_of s v p).
Proof.
  intros [] Hp. destruct (chunk_pos p) as [Hp1 Hp2]. pose proof chunk_bytes_pos.
  assert (Indexed.in_range v (p / CHUNK_BYTES)) as Hr.
  { eapply range_lt; [done|apply Z.div_pos; lia|]. lia. }
  destruct (block_whole s id v _ hd_ok0 Hr) as [Hl Hb]. rewrite /Indexed.disk_of /of_blocks. apply bytes_index; [done|lia].
Qed.

Lemma handle_size s id v : handle_ok s id v → 0 < Indexed.size (Indexed.root v) ∧ Indexed.size (Indexed.root v) ≤ 2 ^ 50 ∧
  Indexed.size (Indexed.root v) mod CHUNK_BYTES = 0.
Proof.
  intros []. destruct (proj1 (Indexed.root_ok_spec _ _) (Indexed.ok_root _ _ _ hd_ok0)) as (_&_&_&_&_&_&H1&H2&_).
  split_and!; try done. etrans; [exact H1|]. by vm_compute.
Qed.

(** A whole block, written while there is room: no commit happens. *)
Lemma handle_write s id v i b : handle_ok s id v → current s id v → 0 ≤ i < Indexed.nblocks v → Zlen b = CHUNK_BYTES → bytes b →
  (handle_unsaved v + 1) * CHUNK_BYTES ≤ DIRTY_LIMIT →
  wp (Indexed.write (i * CHUNK_BYTES) b) (v, s) (λ r t, same_view s t.2 ∧ match r with
    | Ok _ => handle_ok t.2 id t.1 ∧ current t.2 id t.1 ∧ Indexed.size (Indexed.root t.1) = Indexed.size (Indexed.root v) ∧
        handle_unsaved t.1 ≤ handle_unsaved v + 1 ∧
        disk_eq (Indexed.size (Indexed.root v)) (Indexed.disk_of t.2 t.1) (disk_write (Indexed.disk_of s v) (i * CHUNK_BYTES) b)
    | Err _ => True end).
Proof.
  intros Hh Hcur Hi Hb Hby Hroom. pose proof Hh as []. pose proof chunk_bytes_pos as HC.
  rewrite /Indexed.write. wp_step. apply wp_gets. cbn [fst snd]. wp_step. apply wp_of_result.
  destruct (Indexed.check v (i * CHUNK_BYTES) (Zlen b)) as [[]|e] eqn:Hc; [|done]. apply check_ok in Hc as (_ & _ & Hsz).
  wp_step. apply wp_guard; [intros _|done]. rewrite bool_decide_false; [intros ->; by rewrite Zlen_nil in Hb; lia|].
  assert (Indexed.extra_blocks v (i * CHUNK_BYTES) (Zlen b) ≤ 1) as Hex.
  { rewrite /Indexed.extra_blocks Hb Z.div_mul; [lia|].
    assert ((i * CHUNK_BYTES + CHUNK_BYTES - 1) / CHUNK_BYTES = i) as ->.
    { symmetry. apply (Z.div_unique _ _ _ (CHUNK_BYTES - 1)); lia. }
    rewrite /Zlen. replace (i - i + 1) with 1 by lia. pose proof (length_filter (λ j, Indexed.dirty v !! j = None) (seqZ i 1)) as Hl.
    rewrite length_seqZ in Hl. lia. }
  rewrite /Indexed.dirty_bytes. change Indexed.DIRTY_LIMIT with DIRTY_LIMIT. rewrite /handle_unsaved in Hroom.
  rewrite (proj2 (Z.ltb_ge _ _)); [nia|]. wp_step. apply wp_ret. wp_step. apply wp_gets. cbn [fst snd].
  wp_step. apply wp_on_store. eapply wp_mono; [eapply write_loop_spec; [done|nia|done]|].
  intros [m|e] s2 H2; [|done]. destruct H2 as [Hv2 Hst]. apply wp_modify. cbn [fst snd]. split; [done|].
  destruct (write_staged s s2 id v (i * CHUNK_BYTES) b m) as [Hok2 Hd2]; try done; [nia|].
  split; [by split|]. split; [by eapply current_view|]. split; [done|]. split; [|exact Hd2].
  rewrite /handle_unsaved. cbn [Indexed.dirty].
  assert (dom (m ∪ Indexed.dirty v) ⊆ {[i]} ∪ dom (Indexed.dirty v)) as Hdom.
  { rewrite dom_union. apply union_mono_r. intros k [x Hk]%elem_of_dom. destruct (proj1 Hst k x Hk) as (H1 & H2 & _).
    rewrite Z.div_mul in H1; [lia|]. rewrite Hb in H2. assert (k = i) as -> by nia. set_solver. }
  apply subseteq_size in Hdom. rewrite size_dom in Hdom. etrans; [apply inj_le, Hdom|].
  assert (size ({[i]} ∪ dom (Indexed.dirty v)) ≤ 1 + size (Indexed.dirty v))%nat; [|lia].
  rewrite -(size_dom (Indexed.dirty v)) size_union_alt size_singleton. apply Nat.add_le_mono_l.
  apply subseteq_size. set_solver.
Qed.

Lemma handle_commit s id v m : handle_ok s id v → current s id v → no_collision s v → 0 < rep_sequence m →
  wp (Indexed.commit_replication (of_local m)) (v, s) (λ r t, store_later s t.2 ∧
    let done_ w := handle_ok t.2 id w ∧ current t.2 id w ∧ handle_clean w ∧
      Indexed.size (Indexed.root w) = Indexed.size (Indexed.root v) ∧
      disk_eq (Indexed.size (Indexed.root v)) (Indexed.disk_of t.2 w) (Indexed.disk_of s v) ∧
      Indexed.replication (Indexed.root w) = Some (of_local m) in
    match r with
    | Ok _ => done_ t.1
    | Err _ => (∀ w, current s id w → current t.2 id w) ∨ ∃ w, done_ w
    end).
Proof.
  intros Hh Hcur Hnc Hpos. pose proof Hh as []. eapply wp_mono; [by apply commit_replication_spec|].
  intros r [v' s'] (Hg & Hok & Hsz & Hd & Hr). cbn [fst snd] in *.
  assert (∀ w, Indexed.replication (Indexed.root w) = Some (of_local m) → ∀ r, Indexed.replication (Indexed.root w) = Some r →
    0 < Indexed.sequence r) as Hm by (intros w -> r' [= <-]; done).
  split; [split; [done|intros _; by destruct Hok]|]. cbv zeta. destruct r as [g|e].
  - destruct Hr as (Hc & Hdi & Hp & _ & Hrep & _). split_and!; try done. split; [done|done|by rewrite Hsz|by apply Hm].
  - destruct Hr as (_ & _ & [[Hh' _]|(w & Hc & Hok' & Hdi & Hp & Hs' & Hd' & Hrep)]).
    + left. intros w (h & Hx). exists h. by rewrite Hh'.
    + right. exists w. split_and!; try done. split; [done|done|by rewrite Hs'|by apply Hm].
Qed.

Lemma handle_compact s id v after budget cancel : handle_ok s id v → current s id v → handle_clean v → no_collision_pass s v →
  observes cancel →
  wp (compact_packs after budget cancel) (v, s) (λ r t, store_later s t.2 ∧
    let kept w := handle_ok t.2 id w ∧ current t.2 id w ∧ handle_clean w ∧ Indexed.size (Indexed.root w) = Indexed.size (Indexed.root v) ∧
      disk_eq (Indexed.size (Indexed.root v)) (Indexed.disk_of t.2 w) (Indexed.disk_of s v) ∧
      Indexed.replication (Indexed.root w) = Indexed.replication (Indexed.root v) in
    match r with Ok c => kept t.1 ∧ (rewritten_blocks c = 0 → t.1 = v) | Err _ => ∃ w, kept w end).
Proof.
  intros [] Hcur [Hd Hp] Hnc Hc. eapply wp_mono; [by apply (compact_packs_spec s id v after budget cancel)|].
  intros r [v' s'] [Hr _]. cbn [fst snd] in *. cbv zeta.
  assert (∀ b w, keeps s id v b (w, s') → store_later s s') as Hlt.
  { intros b w [[Hg Hok _ _ _ _] _]. split; [done|]. intros _. apply Hok. }
  destruct r as [c|e].
  - destruct Hr as (Hk & _ & _ & _ & H0). split; [by eapply Hlt|]. split; [|exact H0]. destruct Hk as [[] (Hc' & Hp' & Hrep)]. cbn [fst snd] in *. split_and!; try done.
    + split; [done|congruence|by rewrite pk_size0|by rewrite Hrep].
    + split; [done|congruence].
  - split; [by eapply Hlt|]. destruct Hr as [[_ _ _ _ _ Hper] _]. destruct Hper as (w & Hc' & Hok' & Hd' & Hp' & Hs' & Hdisk & Hrep).
    exists w. cbn [fst snd] in *. split_and!; try done. split; [done|done|by rewrite Hs'|by rewrite Hrep].
Qed.

#[export] Instance indexed_remote_laws : RemoteLaws Indexed.IndexedVolume S.
Proof.
  refine {|
    good := handle_ok; based := current; clean := handle_clean; unsaved := handle_unsaved;
    view := Indexed.disk_of; calm := same_view; later := store_later; safe := no_collision; safe_pass := no_collision_pass |}.
  - intros s s' id v Hv [[] ? ? ?]. split; [by apply same_view_grows|]. by apply same_view_typed.
  - intros s s' id v. apply current_view.
  - intros s s' id v. apply handle_later.
  - intros s id v. apply handle_size.
  - intros s id v p. apply handle_bytes.
  - intros s id v r [] Hr. cbn [r_replication indexed_remote] in Hr. apply fmap_Some in Hr as (m & Hm & ->). by apply hd_mark0.
  - intros v [Hd _]. by rewrite /handle_unsaved Hd.
  - intros s id w [] Hc [Hd _]. by apply open_current_spec.
  - intros s id v [] [Hd _]. cbn [r_copy indexed_remote]. rewrite /Indexed.clean_copy.
    rewrite (proj2 (check_ok v 0 0)); [split_and!; [done|done|lia]|]. rewrite bool_decide_true //. f_equal.
    rewrite -Hd -hd_poisoned0. by destruct v.
  - intros s id v o out [] Ho Hle. eapply wp_mono; [by eapply indexed_read_spec|]. intros [x|e] s' [Hv Hr]; (split; [done|]); [|done].
    by destruct Hr.
  - intros s id v i b ?? Hi ???. by apply handle_write.
  - intros s id v m ????. eapply wp_mono; [by apply handle_commit|]. cbv zeta. intros r t [Hl Hr]. split; [done|].
    assert (∀ w, Indexed.replication (Indexed.root w) = Some (of_local m) → r_replication w = Some m) as Hm.
    { intros w Hw. cbn [r_replication indexed_remote]. rewrite Hw. by destruct m. }
    destruct r as [g|e]; [naive_solver|]. destruct Hr as [Hr|(w & Hr)]; [by left|right]. exists w. naive_solver.
  - intros s id v after budget cancel ?????. eapply wp_mono; [by apply handle_compact|]. cbv zeta. intros r t [Hl Hr]. split; [done|].
    assert (∀ w, Indexed.replication (Indexed.root w) = Indexed.replication (Indexed.root v) → r_replication w = r_replication v) as Hm.
    { intros w Hw. cbn [r_replication indexed_remote]. by rewrite Hw. }
    destruct r as [c|e]; [destruct Hr as [Hr Hsame]; split; [naive_solver|done]|]. destruct Hr as (w & Hr). exists w. naive_solver.
Defined.

Context {JH : Json Header} {JHL : JsonLaws Header}.

(** C2: the local-durable disk refines its abstract machine.  A disk opened for
    the first time on an indexed volume behaves, through any sequence of guest
    reads, writes and flushes, replication phases, compaction passes of the remote
    volume, closes, crashes of the host and reopenings, and whatever calls to the
    file system and the store fail, as the machine of [LocalSpec] allows: reads
    return the blocks written, a flush that succeeds makes everything written
    durable, a crash keeps everything durable and at most loses an end of the rest, and the head of the remote volume always
    reads as one of the histories that the host holds durably.  The run is one in
    which three things do not happen: that a reopening's [exists] call on the
    journal fails (the code then takes the journal for absent and loses it), that a
    compaction fails while the remote head does not carry the mark of this journal
    (the journal may then be refused by every later open), and that a commit or a
    compaction meets a digest collision. *)
Theorem local_disk_refines id random (fs0 fs : Fs) (s0 st : S) (w0 : Indexed.IndexedVolume) d ls y :
  handle_ok s0 id w0 → current s0 id w0 → handle_clean w0 →
  (∀ m, Indexed.replication (Indexed.root w0) = Some m → Indexed.rep_id m ≠ digest random) →
  (∀ dir, candidate fs0 dir → dir !! "journal" = None) →
  open id random (fs0, s0) = (Ok d, (fs, st)) → run id (mkSys (Some d) fs st Idle) ls y →
  let sz := Indexed.size (Indexed.root w0) in
  let D0 := Indexed.disk_of s0 w0 in
  ∃ p, trace sz D0 (mkSpec Up [] [] [] [] []) ls p ∧ remote p `prefix_of` durable p ∧
    persisted (store y) id sz (apply_blocks D0 (remote p)).
Proof.
  intros Hh Hc Hcl Hid Hno Hopen Hrun sz D0.
  destruct (disk_refines id random fs0 fs s0 st w0 d ls y) as (p & Ht & Hp & w & [] & Hcur & [Hd _] & Hsz & Hv); try done.
  - intros r Hr. cbn [r_replication indexed_remote] in Hr. apply fmap_Some in Hr as (m & Hm & ->). by apply Hid.
  - exists p. split; [done|]. split; [done|]. exists (Indexed.replication (Indexed.root w)), w. by split_and!.
Qed.
End remote.

(** ** A concrete disk: on an empty 64-KiB volume of the reference store. *)
Module Example.
Import Memory.

#[local] Existing Instance IndexedApi.Example.sha.
#[local] Existing Instance IndexedApi.Example.sha_laws.

(** The one root of the example. *)
Definition r0 : Indexed.Root := Indexed.mkRoot 8 "v" 65536 0 true ∅ None None.
#[local] Instance json_root : Json Indexed.Root := {|
  to_vec r := None;
  from_slice b := if bool_decide (b = [0]) then Some r0 else None;
|}.
#[local] Instance json_root_laws : JsonLaws Indexed.Root.
Proof. done. Qed.

(** Headers of the one journal of the example. *)
Definition jid0 : string := digest [1].
#[local] Instance json_header : Json Header := {|
  to_vec h := if bool_decide (h_volume h = "v") && bool_decide (h_id h = jid0) && bool_decide (h_base h = "r0")
              then Some [acknowledged h; h_sequence h] else None;
  from_slice b := match b with [a; q] => Some (mkHeader "v" jid0 "r0" a q) | _ => None end;
|}.
#[local] Instance json_header_laws : JsonLaws Header.
Proof.
  intros [v i b a q] l. cbn [to_vec json_header h_volume h_id h_base acknowledged h_sequence].
  destruct (_ && _) eqn:E; [|done]. intros [= <-].
  apply andb_prop in E as [[->%bool_decide_eq_true ->%bool_decide_eq_true]%andb_prop ->%bool_decide_eq_true]. done.
Qed.

Definition fs0 : Fs := mkFs ∅ ∅ [] false true [].
Definition s0 : Mem := mkMem ∅ {["v" := mkHead "r0" [0]]} ∅ 0 [] [].
Definition w0 : Indexed.IndexedVolume := Indexed.mkIndexed r0 None "r0" ∅ false.
Definition opened0 : Result Error (State Indexed.IndexedVolume) * (Fs * Mem) := open "v" [1] (fs0, s0).
Definition flushed0 : Result Error unit * (State Indexed.IndexedVolume * Fs * Mem) :=
  match opened0 with
  | (Ok d, (fs, st)) => flush (d, fs, st)
  | (Err e, (fs, st)) => (Err e, (mkState (mkHeader "" "" "" 0 0) 0 w0 ∅ 0 0 true true, fs, st))
  end.


(** Reopened after a flush and a close. *)
Definition reopened0 : bool :=
  match flushed0 with
  | (Ok _, (_, fs, st)) => match plan (unlock fs) with [] => is_ok (open "v" [1] (unlock fs, st)).1 | _ => false end
  | _ => false
  end.
Lemma reopened0_ok : reopened0 = true.
Proof. vm_compute. done. Qed.

Lemma store0_typed : Indexed.typed s0.
Proof. split; intros k b; by rewrite lookup_empty. Qed.
Lemma root0_ok : Indexed.root_ok r0 "v" = true.
Proof. vm_compute. done. Qed.
Lemma w0_ok : handle_ok s0 "v" w0.
Proof. split; [by apply (fresh_ok s0 "v" r0 "r0" root0_ok eq_refl eq_refl eq_refl store0_typed)|done..]. Qed.
Lemma fs0_fresh dir : candidate fs0 dir → dir !! "journal" = None.
Proof. intros [-> |Hp]; [reflexivity|]. cbn [past fs0] in Hp. set_solver. Qed.
Lemma w0_current : current s0 "v" w0.
Proof. by exists (mkHead "r0" [0]). Qed.

Definition ls0 : list Label := [LFlush (Ok tt); LClose; LOpen (Ok tt)].

Lemma run0 d fs st : opened0 = (Ok d, (fs, st)) → ∃ y : @Sys Indexed.IndexedVolume Mem, run "v" (mkSys (Some d) fs st Idle) ls0 y.
Proof.
  intros Ho. pose proof reopened0_ok as Hr. unfold reopened0, flushed0 in Hr. rewrite Ho in Hr.
  destruct (flush (d, fs, st)) as [[[]|e] [[d' fs'] st']] eqn:Hfl; [|done]. destruct (plan (unlock fs')) eqn:Hp; [|done].
  destruct (open "v" [1] (unlock fs', st')) as [[d2|e] [fs2 st2]] eqn:Ho2; [|done].
  exists (mkSys (Some d2) fs2 st2 Idle).
  eapply (run_step "v" _ [_; _]); [eapply (run_step "v" _ [_]); [eapply (run_step "v" _ []); [apply run_nil|..]|..]|..].
  - exact (s_flush "v" d fs st Idle (Ok tt) d' fs' st' Hfl).
  - done.
  - apply s_close.
  - done.
  - exact (s_open "v" [1] (unlock fs') st' (Ok d2) fs2 st2 Ho2).
  - right. intros k. by rewrite Hp.
Qed.

Lemma local_disk_refines_witness : ∃ (p : Spec) (y : @Sys Indexed.IndexedVolume Mem),
  trace 65536 (Indexed.disk_of s0 w0) (mkSpec Up [] [] [] [] []) ls0 p ∧
  remote p `prefix_of` durable p ∧ persisted (store y) "v" 65536 (apply_blocks (Indexed.disk_of s0 w0) (remote p)).
Proof.
  pose proof reopened0_ok as Hr. unfold reopened0, flushed0 in Hr. destruct opened0 as [[d|e] [fs st]] eqn:Ho; [|done]. clear Hr.
  destruct (run0 d fs st Ho) as [y Hy].
  destruct (local_disk_refines "v" [1] fs0 fs s0 st w0 d ls0 y) as (p & Hp).
  - exact w0_ok.
  - exact w0_current.
  - split; reflexivity.
  - intros m Hm. discriminate Hm.
  - exact fs0_fresh.
  - exact Ho.
  - exact Hy.
  - exists p, y. exact Hp.
Defined.
End Example.
End LocalRemote.
