(* ===== verification/LifetimeRemote.v ===== *)
(** The whole life of a local-durable disk over an indexed volume: the refinement
    of [Lifetime] where the remote is [IndexedVolume], and a life evaluated on the
    reference store. *)
From S2P Require Import Prelude Codec ObjectStore Blocks Base Page Indexed Staging IndexedCommit IndexedApi Repack Files Local LocalLog LocalInv LocalCompact LocalSpec LocalRun LocalSync LocalOpen LocalFresh LocalSystem Evict Lifetime LocalRemote.

Module LifetimeRemote.
Import Files IndexedCommit IndexedApi Local LocalInv LocalCompact LocalSpec LocalSync LocalFresh LocalSystem Evict Lifetime LocalRemote.

Section remote.
Context {S : Type} {SHA : Sha256} {OS : ObjectStore S} {JR : Json Indexed.Root} {SV : StoreView S}.
Context {SHAL : Sha256Laws} {OSL : ObjectStoreLaws S} {JL : JsonLaws Indexed.Root}.
Context {JH : Json Header} {JHL : JsonLaws Header}.

Lemma remote_persisted id sz D (s : S) w : remote_is id sz D s w → persisted s id sz D.
Proof.
  intros ([] & Hcur & [Hd _] & Hsz & Hv). exists (Indexed.replication (Indexed.root w)), w. by split_and!.
Qed.

(** C1: the local-durable disk refines one abstract disk for its whole life.  From
    a directory in which no disk was ever opened on, through opens that succeed or
    fail, reads, writes, flushes, replication, compaction of the remote volume,
    crashes of the host and evictions of the local journal, each of them stopped
    by a failure at any call or not, the disk behaves as the abstract disk allows:
    an eviction that succeeds leaves everything that was written at the remote
    volume, one that fails or is cut short loses nothing, what was durable at any
    time stays part of the disk, and the remote head always reads as a history that
    is durable.  The run is one in which four things do not happen: that [exists]
    fails on a journal that is there when the disk is opened (the code then takes it
    for absent: [Example.missed_journal_is_lost]), that a compaction of the remote
    volume fails while the remote head does not carry the mark of the journal (which
    may then be refused by every later open), that a commit or a compaction meets a
    digest collision, and that an identity drawn for a new journal is the one in the
    remote head. *)
Theorem disk_lifetime id (h0 : Home) (s0 : S) (w0 : Indexed.IndexedVolume) ls1 y1 ls2 y2 :
  handle_ok s0 id w0 → current s0 id w0 → handle_clean w0 → empty_home h0 →
  orun id (mkO None h0 s0 Idle) ls1 y1 → orun id y1 ls2 y2 →
  let sz := Indexed.size (Indexed.root w0) in
  ∃ D1 p1 D2 p2 k, otrace sz (Indexed.disk_of s0 w0, origin) ls1 (D1, p1) ∧ otrace sz (D1, p1) ls2 (D2, p2) ∧
    apply_blocks D2 (durable p2) = apply_blocks (apply_blocks D1 (durable p1)) k ∧
    remote p1 `prefix_of` durable p1 ∧ persisted (ostore y1) id sz (apply_blocks D1 (remote p1)) ∧
    remote p2 `prefix_of` durable p2 ∧ persisted (ostore y2) id sz (apply_blocks D2 (remote p2)).
Proof.
  intros Hh Hc Hcl He Hr1 Hr2 sz.
  destruct (lifetime_refines id h0 s0 w0 ls1 y1 ls2 y2) as (D1 & p1 & D2 & p2 & Ht1 & Ht2 & [Hb1 _] & [Hb2 _] & [w1 Hw1] & [w2 Hw2]); [done..|].
  destruct (otrace_durable _ _ _ _ _ _ Ht2) as [k Hk]. exists D1, p1, D2, p2, k.
  split_and!; [done|done|done|done|by eapply remote_persisted|done|by eapply remote_persisted].
Qed.
End remote.

(** ** A life: a block is written, the journal evicted, the disk opened again *)
Module Example.
Import Memory.
#[local] Existing Instance IndexedApi.Example.sha.
#[local] Existing Instance IndexedApi.Example.sha_laws.
#[local] Existing Instance IndexedApi.Example.Root_eq_dec.
#[local] Existing Instance IndexedApi.Example.json.
#[local] Existing Instance IndexedApi.Example.json_laws.
#[local] Instance Header_eq_dec : EqDecision Header.
Proof. solve_decision. Defined.
#[local] Instance Header_countable : Countable Header :=
  inj_countable' (λ h, (h_volume h, h_base h, acknowledged h, h_sequence h, h_id h))
    (λ '(v, b, a, q, i), mkHeader v i b a q) ltac:(by intros []).
#[local] Instance json_header : Json Header := BitJson.bit_json Header.
#[local] Instance json_header_laws : JsonLaws Header := BitJson.bit_json_laws Header.

Definition s0 : Mem := IndexedApi.Example.s0.
Definition block7 : list Z := IndexedApi.Example.block7.
Definition w0 : Indexed.IndexedVolume := Indexed.mkIndexed IndexedApi.Example.r0 None "r0" ∅ false.
Definition h0 : Home := mkHome (mkFs ∅ ∅ [] false true []) None [].

(** The identity drawn is new to the head. *)
Definition newb (random : list Z) (st : Mem) : bool :=
  match mem_heads st !! "v" with
  | Some h => match from_slice (manifest h) with
              | Some r => match Indexed.replication r with
                          | Some m => negb (bool_decide (Indexed.rep_id m = digest random))
                          | None => true end
              | None => false end
  | None => false
  end.
Definition same_mem (a b : Mem) : bool :=
  bool_decide (mem_objects a = mem_objects b) && bool_decide (mem_heads a = mem_heads b) && bool_decide (mem_base a = mem_base b) &&
  bool_decide (mem_next a = mem_next b) && match mem_faults a, mem_faults b with [], [] => true | _, _ => false end &&
  match mem_clock a, mem_clock b with [], [] => true | _, _ => false end.
(** Nothing is left to push when the disk is given up. *)
Definition idleb (t : Home * Mem) : bool :=
  match open_home "v" [1] [] t with
  | (Ok d, (h, st)) =>
      match sub h with
      | Some f => match rep_prepare "v" (d, f, st) with (Ok (Some _), _) => false | _ => true end
      | None => true
      end
  | _ => true
  end.

(** The journal there has no failing calls ahead. *)
Definition seenb (h : Home) : bool := match sub h with Some f => match plan f with [] => true | _ => false end | None => true end.

Definition life : bool :=
  match open_home "v" [1] [] (h0, s0) with
  | (Ok d1, (h1, st1)) =>
      match sub h1 with
      | Some f1 =>
          let h3 := put_sub (unlock f1) h1 in
          newb [1] s0 && newb [1] st1 && seenb h3 && idleb (h3, st1) &&
          match evict_local "v" [1] [] (h3, st1) with
          | (Ok _, (h4, st4)) =>
              newb [2] st4 && seenb h4 &&
              match open_home "v" [2] [] (h4, st4) with
              | (Ok d5, (h5, st5)) =>
                  match sub h5 with
                  | Some f5 =>
                      match Local.write 0 block7 (d5, f5, st5) with
                      | (Ok _, t6) =>
                          match Local.read 100 [0; 0; 0] t6 with
                          | (Ok o, _) => bool_decide (o = [7; 7; 7])
                          | _ => false end
                      | _ => false end
                  | None => false end
              | _ => false end
          | _ => false end
      | None => false end
  | _ => false end.
Lemma life_ok : life = true.
Proof. vm_compute. done. Qed.

Lemma newb_ok random st : newb random st = true → new_id "v" random st.
Proof.
  rewrite /newb. intros Hb w r _ (h & Hh & _ & _ & _ & Hj) Hr. change (heads st !! "v") with (mem_heads st !! "v") in Hh.
  rewrite Hh Hj in Hb. cbn [r_replication indexed_remote] in Hr. apply fmap_Some in Hr as (m & Hm & ->). rewrite Hm in Hb.
  by apply negb_true_iff, bool_decide_eq_false in Hb.
Qed.

Lemma seenb_ok h : seenb h = true → home_seen h.
Proof. rewrite /seenb. intros Hb f Hf. rewrite Hf in Hb. right. intros k. by destruct (plan f). Qed.

Lemma idleb_ok t : idleb t = true → evict_safe "v" [1] [] t.
Proof. rewrite /idleb. intros Hb d h st f Ho Hf v m mark t' Hp. by rewrite Ho Hf Hp in Hb. Qed.

Definition ls1 : list OLabel := [ODisk (LOpen (Ok tt)); ODisk LClose; OEvict (Ok tt)].
Definition ls2 : list OLabel := [ODisk (LOpen (Ok tt)); ODisk (LWrite 0 block7 (Ok tt)); ODisk (LRead 100 3 (Ok [7; 7; 7]))].

Lemma life_run : ∃ y1 y2 : @OSys Indexed.IndexedVolume Mem, orun "v" (mkO None h0 s0 Idle) ls1 y1 ∧ orun "v" y1 ls2 y2.
Proof.
  pose proof life_ok as H. unfold life in H.
  destruct (open_home "v" [1] [] (h0, s0)) as [[d1|e] [h1 st1]] eqn:E1; [|done]. destruct (sub h1) as [f1|] eqn:F1; [|done]. cbv zeta in H.
  apply andb_prop in H as [[[[N1 N2]%andb_prop S1]%andb_prop P]%andb_prop H].
  destruct (evict_local "v" [1] [] (put_sub (unlock f1) h1, st1)) as [[[]|e] [h4 st4]] eqn:E4; [|done].
  apply andb_prop in H as [[N4 S4]%andb_prop H].
  destruct (open_home "v" [2] [] (h4, st4)) as [[d5|e] [h5 st5]] eqn:E5; [|done]. destruct (sub h5) as [f5|] eqn:F5; [|done].
  destruct (Local.write 0 block7 (d5, f5, st5)) as [[[]|e] [[d6 f6] st6]] eqn:E6; [|done].
  destruct (Local.read 100 [0; 0; 0] (d6, f6, st6)) as [[o|e] [[d7 f7] st7]] eqn:E7; [|done]. apply bool_decide_eq_true in H. subst o.
  exists (mkO None h4 st4 Idle), (mkO (Some d7) (put_sub f7 (put_sub f6 h5)) st7 Idle). split.
  - eapply (orun_step "v" _ [_; _]); [eapply (orun_step "v" _ [_]); [eapply (orun_step "v" _ []); [apply orun_nil|..]|..]|..].
    + exact (o_open "v" [1] [] h0 s0 (Ok d1) h1 st1 E1).
    + split; [exact (newb_ok _ _ N1)|by apply seenb_ok].
    + eapply (o_disk "v" d1 h1 f1 st1 Idle); [exact F1|done|apply s_close].
    + done.
    + exact (o_evict "v" [1] [] _ st1 (Ok tt) h4 st4 E4).
    + split; [exact (newb_ok _ _ N2)|]. split; [by apply seenb_ok|exact (idleb_ok _ P)].
  - eapply (orun_step "v" _ [_; _]); [eapply (orun_step "v" _ [_]); [eapply (orun_step "v" _ []); [apply orun_nil|..]|..]|..].
    + exact (o_open "v" [2] [] h4 st4 (Ok d5) h5 st5 E5).
    + split; [exact (newb_ok _ _ N4)|by apply seenb_ok].
    + eapply (o_disk "v" d5 h5 f5 st5 Idle); [exact F5|done|]. apply (s_write "v" 0 block7 d5 f5 st5 Idle (Ok tt)); [done| |exact E6].
      exact (proj2 IndexedApi.Example.block7_whole).
    + done.
    + eapply (o_disk "v" d6 (put_sub f6 h5) f6 st6 Idle); [done|done|]. exact (s_read "v" 100 [0; 0; 0] d6 f6 st6 Idle (Ok [7; 7; 7]) d7 f7 st7 ltac:(done) E7).
    + done.
Qed.

(** Outside of the provisos: a block is written and flushed, the disk is closed and
    opened again; the sixth call, [exists] on the journal, fails; the open succeeds
    with a new journal in place of the old one, and the block is gone. *)
Definition missed_journal : option (list Z) :=
  match open "v" [1] (mkFs ∅ ∅ [] false true [], s0) with
  | (Ok d1, (f1, st1)) =>
      match Local.write 0 block7 (d1, f1, st1) with
      | (Ok _, t2) =>
          match flush t2 with
          | (Ok _, (_, f3, st3)) =>
              match open "v" [2] (set_plan [None; None; None; None; None; Some 0%nat] (unlock f3), st3) with
              | (Ok d4, (f4, st4)) => match Local.read 100 [1; 1; 1] (d4, f4, st4) with (Ok o, _) => Some o | _ => None end
              | _ => None end
          | _ => None end
      | _ => None end
  | _ => None end.
Example missed_journal_is_lost : missed_journal = Some [0; 0; 0].
Proof. vm_compute. done. Qed.

Lemma life_handle_ok : handle_ok s0 "v" w0.
Proof.
  split; [|done..]. apply (fresh_ok s0 "v" IndexedApi.Example.r0 "r0" IndexedApi.Example.r0_ok eq_refl eq_refl eq_refl IndexedApi.Example.s0_typed).
Qed.
Lemma life_current : current s0 "v" w0.
Proof. destruct IndexedApi.Example.disk1_current as (h & ? & ? & ? & ? & ?). by exists h. Qed.
Lemma h0_empty : empty_home h0.
Proof.
  split; [intros d [->|Hd]; [by vm_compute|by apply not_elem_of_nil in Hd]|].
  intros f Hf. cbn in Hf. by apply list_elem_of_singleton in Hf.
Qed.

Lemma disk_lifetime_witness : ∃ (y1 y2 : @OSys Indexed.IndexedVolume Mem) D1 p1 D2 p2 k,
  otrace 65536 (Indexed.disk_of s0 w0, origin) ls1 (D1, p1) ∧ otrace 65536 (D1, p1) ls2 (D2, p2) ∧
  apply_blocks D2 (durable p2) = apply_blocks (apply_blocks D1 (durable p1)) k ∧
  remote p1 `prefix_of` durable p1 ∧ persisted (ostore y1) "v" 65536 (apply_blocks D1 (remote p1)) ∧
  remote p2 `prefix_of` durable p2 ∧ persisted (ostore y2) "v" 65536 (apply_blocks D2 (remote p2)).
Proof.
  destruct life_run as (y1 & y2 & R1 & R2). exists y1, y2.
  apply (disk_lifetime "v" h0 s0 w0 ls1 y1 ls2 y2); [exact life_handle_ok|exact life_current|split; reflexivity|exact h0_empty|exact R1|exact R2].
Defined.
End Example.
End LifetimeRemote.
