(* ===== verification/Owned.v ===== *)
(** Exclusive ownership of a volume, [ahvm-volume/src/owned.rs]: the envelope around
    a disk map that names its owner, the private identity of a host directory, and
    the object store that an owner's disk is built on.  Every change of the head,
    of data or of ownership, is one conditional publication. *)
From S2P Require Import Prelude Codec ObjectStore Base Indexed IndexedApi Files.

Module Owned.
Import Files.

Record Envelope (V : Type) := mkEnvelope {
  e_format : Z;
  e_volume : string;
  e_epoch : Z;
  e_owner : option string;
  e_manifest : V;
}.
Arguments mkEnvelope {V}. Arguments e_format {V}. Arguments e_volume {V}. Arguments e_epoch {V}.
Arguments e_owner {V}. Arguments e_manifest {V}.

Record Identity := mkIdentity { i_volume : string; i_token : string; i_epoch : Z }.
Record Tombstone := mkTombstone { t_format : Z; t_volume : string; t_deleted : bool }.

(** What the code uses of [serde_json]: the documents, the codecs of the three
    structures, and [value["format"]] where it is an integer; further fields of a
    document as [retire] reads them. *)
Class Serde := {
  Value : Type;
  value_to_vec : Value → option (list Z);
  value_from_slice : list Z → option Value;
  value_format : Value → option Z;
  value_ready : Value → bool;
  value_size : Value → option Z;
  envelope_to_vec : Envelope Value → option (list Z);
  envelope_from_value : Value → option (Envelope Value);
  tombstone_to_vec : Tombstone → option (list Z);
  tombstone_from_value : Value → option Tombstone;
  identity_json :: Json Identity;
}.

(** [hash] *)
Definition hash (s : string) : bool := valid_hash s.

Section owned.
Context {S : Type} {SHA : Sha256} {OS : ObjectStore S} {JR : Json Indexed.Root} {SJ : Serde}.

Definition encode (e : Envelope Value) : Result Error (list Z) :=
  match envelope_to_vec e with
  | Some b => if MAX_MANIFEST_BYTES <? Zlen b then Err Corrupt else Ok b
  | None => Err Corrupt
  end.

(** The envelope in a document: format 4, or a map that is not enrolled. *)
Definition unwrap (id : string) (v : Value) : Result Error (Envelope Value) :=
  if bool_decide (value_format v = Some 4) then
    match envelope_from_value v with
    | Some e =>
        if negb (bool_decide (e_volume e = id)) || (e_epoch e =? 0)
           || match e_owner e with Some s => negb (hash s) | None => false end
        then Err Corrupt else Ok e
    | None => Err Corrupt
    end
  else Ok (mkEnvelope 4 id 0 None v).

Definition decode (id : string) (h : Head) : M Error S (Envelope Value) :=
  guard_err (negb ((MAX_MANIFEST_BYTES <? Zlen (manifest h)) || bool_decide (revision h = ""%string))) Corrupt;;
  v ← ok_or (value_from_slice (manifest h)) Corrupt;
  e ← of_result (unwrap id v);
  b ← ok_or (value_to_vec (e_manifest e)) Corrupt;
  Indexed.from_head id (mkHead (revision h) b);;
  mret e.

(** [reclaim::tombstone], [reclaim::retired] *)
Definition tombstone (id : string) : Result Error (list Z) :=
  match tombstone_to_vec (mkTombstone 5 id true) with Some b => Ok b | None => Err Corrupt end.
Definition retired (id : string) (h : Head) : Result Error bool :=
  if (MAX_MANIFEST_BYTES <? Zlen (manifest h)) || bool_decide (revision h = ""%string) then Err Corrupt
  else match value_from_slice (manifest h) with
       | None => Err Corrupt
       | Some v =>
           if bool_decide (value_format v = Some 5) then
             match tombstone_from_value v with
             | Some t => if negb (bool_decide (t_volume t = id)) || negb (t_deleted t) then Err Corrupt else Ok true
             | None => Err Corrupt
             end
           else Ok false
       end.

Definition matches (i : Identity) (e : Envelope Value) : bool :=
  (e_epoch e =? i_epoch i) && bool_decide (e_owner e = Some (i_token i)).

(** [raw.publish(..).map_err(publication_error)?], refused when the reply names no
    revision. *)
Definition replace_head (id : string) (h : Head) (e : Envelope Value) : M Error S unit :=
  b ← of_result (encode e);
  rev ← map_err publication_error (publish id (Some (revision h)) b);
  guard_err (negb (bool_decide (rev = ""%string))) Uncertain.

(** *** The identity of a directory *)
Definition on_raw {A} (m : M Error S A) : M Error (S * Fs) A := zoom fst (λ s t, (s, t.2)) m.
Definition on_dir {A} (m : M Error Fs A) : M Error (S * Fs) A := zoom snd (λ f t, (t.1, f)) m.

(** [symlink_metadata(path)]: a missing path passes, any other failure does not. *)
Definition private_path (name : string) : M Error Fs unit :=
  r ← try_ sys;
  guard_err (is_ok r) InvalidInput;;
  f ← gets (lookup_file name);
  guard_err (match f with Some n => private n | None => true end) InvalidInput.

Definition open_file (name : string) : M Error Fs nat :=
  sys;; i ← gets (λ fs, dir fs !! name); ok_or i Store.

Definition load_identity (id : string) : M Error Fs Identity :=
  i ← open_file "owner.json";
  sys;;
  b ← gets (λ fs, take 4097 (contents i fs));
  guard_err (negb (4096 <? Zlen b)) Corrupt;;
  ident ← ok_or (from_slice b) Corrupt;
  guard_err (negb (negb (bool_decide (i_volume ident = id)) || negb (hash (i_token ident)) || (i_epoch ident =? 0))) Corrupt;;
  mret ident.

(** [random]: the 32 bytes read from /dev/urandom. *)
Definition new_identity (id : string) (random : list Z) (e : Envelope Value) : M Error Fs Identity :=
  guard_err (bool_decide (e_owner e = None)) Conflict;;
  sys;; sys;;
  ep ← ok_or (u64_checked_add (e_epoch e) 1) Corrupt;
  let ident := mkIdentity id (hex random) ep in
  f ← create_new "owner.json";
  b ← ok_or (to_vec ident) Corrupt;
  write_all f b;;
  sync_all f;;
  sync_dir;;
  mret ident.

(** The identity, made durable again before a claim. *)
Definition identity (id : string) (random : list Z) (e : Envelope Value) : M Error Fs Identity :=
  known ← exists_ "owner.json";
  ident ← (if (known : bool) then load_identity id else new_identity id random e);
  f ← open_file "owner.json";
  sync_all f;;
  sync_dir;;
  sys;; sys;;
  mret ident.

(** Only an unowned predecessor can be claimed. *)
Definition claim (id : string) (h : Head) (e : Envelope Value) (ident : Identity) : M Error S unit :=
  if matches ident e then mret tt
  else
    guard_err (bool_decide (e_owner e = None) && bool_decide (u64_checked_add (e_epoch e) 1 = Some (i_epoch ident))) Conflict;;
    replace_head id h (mkEnvelope (e_format e) (e_volume e) (i_epoch ident) (Some (i_token ident)) (e_manifest e)).

(** What precedes the claim: the head, its envelope and the identity. *)
Definition prepare (id : string) (random : list Z) (retiring : bool) : M Error (S * Fs) (Head * Envelope Value * Identity) :=
  gone ← on_dir (exists_ "retired");
  guard_err (retiring || negb gone) Conflict;;
  oh ← on_raw (head id);
  h ← ok_or oh NotFound;
  e ← on_raw (decode id h);
  guard_err (negb (e_epoch e =? 0)) NotReady;;
  ident ← on_dir (identity id random e);
  mret (h, e, ident).
Definition open_locked (id : string) (random : list Z) (retiring : bool) : M Error (S * Fs) Identity :=
  '(h, e, ident) ← prepare id random retiring;
  on_raw (claim id h e ident);;
  mret ident.

(** The lock is given back when opening fails. *)
Definition unlock (fs : Fs) : Fs := mkFs (inodes fs) (dir fs) (past fs) false (dir_private fs) (plan fs).
Definition lock (id : string) : M Error (S * Fs) unit :=
  guard_err (valid_id id) InvalidInput;;
  on_dir sys;;
  ok ← gets (λ t, dir_private t.2);
  guard_err ok InvalidInput;;
  on_dir (private_path "owner.lock");;
  on_dir (private_path "owner.json");;
  on_dir (open_or_create "owner.lock");;
  on_dir try_lock.
Definition open_inner (id : string) (random : list Z) (retiring : bool) : M Error (S * Fs) Identity :=
  lock id;;
  r ← try_ (open_locked id random retiring);
  match r with
  | Ok ident => mret ident
  | Err x => on_dir (modify unlock);; fail x
  end.
(** [open_inner] up to the claim. *)
Definition begin_open (id : string) (random : list Z) (retiring : bool) : M Error (S * Fs) (Head * Envelope Value * Identity) :=
  lock id;;
  r ← try_ (prepare id random retiring);
  match r with
  | Ok p => mret p
  | Err x => on_dir (modify unlock);; fail x
  end.
Definition open (id : string) (random : list Z) : M Error (S * Fs) Identity := open_inner id random false.

(** *** The store of an owner: its [active] flag and the raw store *)
Definition on_store {A} (m : M Error S A) : M Error (bool * S) A := zoom snd (λ s t, (t.1, s)) m.
Definition active : M Error (bool * S) unit := a ← gets fst; guard_err a ReopenRequired.

(** [release], up to the publication: [None] when the ownership is over already. *)
Definition release_check (id : string) (ident : Identity) : M Error (bool * S) (option (Head * Envelope Value)) :=
  modify (λ t, (false, t.2));;
  oh ← on_store (head id);
  h ← ok_or oh NotFound;
  e ← on_store (decode id h);
  if (i_epoch ident <? e_epoch e) || ((e_epoch e =? i_epoch ident) && bool_decide (e_owner e = None)) then mret None
  else guard_err (matches ident e) Conflict;; mret (Some (h, e)).
Definition released (e : Envelope Value) : Envelope Value :=
  mkEnvelope (e_format e) (e_volume e) (e_epoch e) None (e_manifest e).
Definition release (id : string) (ident : Identity) : M Error (bool * S) unit :=
  p ← release_check id ident;
  match p with
  | None => mret tt
  | Some (h, e) => on_store (replace_head id h (released e))
  end.

Definition owned_head (self : string) (ident : Identity) (id : string) : M Error (bool * S) (option Head) :=
  active;;
  guard_err (bool_decide (id = self)) InvalidInput;;
  oh ← on_store (head id);
  h ← ok_or oh NotFound;
  e ← on_store (decode id h);
  guard_err (matches ident e) Conflict;;
  b ← ok_or (value_to_vec (e_manifest e)) Corrupt;
  mret (Some (mkHead (revision h) b)).

Definition owned_publish_cancellable (self : string) (ident : Identity) (id : string) (expected : option string) (m : list Z)
    (cancel : S → bool * S) : M Error (bool * S) string :=
  on_store (check_cancel cancel);;
  active;;
  guard_err (bool_decide (id = self)) InvalidInput;;
  rev ← ok_or expected InvalidInput;
  e ← on_store (decode id (mkHead rev m));
  guard_err (e_epoch e =? 0) InvalidInput;;
  b ← of_result (encode (mkEnvelope (e_format e) (e_volume e) (i_epoch ident) (Some (i_token ident)) (e_manifest e)));
  on_store (publish_cancellable id expected b cancel).

(** [&|| false] *)
Definition never (s : S) : bool * S := (false, s).

Definition guarded {A} (self id : string) (m : M Error S A) : M Error (bool * S) A :=
  active;; guard_err (bool_decide (id = self)) InvalidInput;; on_store m.
Definition owned_put_chunk_cancellable (self id d : string) (b : list Z) (cancel : S → bool * S) : M Error (bool * S) unit :=
  on_store (check_cancel cancel);;
  guarded self id (put_chunk_cancellable id d b cancel).

(** [impl ObjectStore for Store]; listing and deletion keep the refusing defaults of
    the trait. *)
Definition owned_store (self : string) (ident : Identity) : ObjectStore (bool * S) := {|
  base_chunk image d at_ := active;; on_store (base_chunk image d at_);
  prefetch_base image ds := λ t, if t.1 then (t.1, prefetch_base image ds t.2) else t;
  prefetch id ds := λ t, if t.1 && bool_decide (id = self) then (t.1, prefetch id ds t.2) else t;
  cached_chunk id d := λ t, if t.1 && bool_decide (id = self) then cached_chunk id d t.2 else None;
  list_chunks_after _ _ _ := fail InvalidInput;
  delete_chunk _ _ := fail InvalidInput;
  head := owned_head self ident;
  chunk id d := guarded self id (chunk id d);
  put_chunk id d b := guarded self id (put_chunk id d b);
  publish id expected m := owned_publish_cancellable self ident id expected m never;
  cancelled := λ t, let '(b, s) := cancelled t.2 in (b, (t.1, s));
  past_deadline := λ t, let '(b, s) := past_deadline t.2 in (b, (t.1, s));
|}.

(** *** Enrollment and retirement *)
Definition enroll_check (id : string) : M Error S (option (Head * Envelope Value)) :=
  guard_err (valid_id id) InvalidInput;;
  oh ← head id;
  h ← ok_or oh NotFound;
  e ← decode id h;
  if negb (e_epoch e =? 0) then mret None else mret (Some (h, e)).
Definition enrolled (e : Envelope Value) : Envelope Value :=
  mkEnvelope (e_format e) (e_volume e) 1 (e_owner e) (e_manifest e).
Definition enroll (id : string) : M Error S unit :=
  p ← enroll_check id;
  match p with
  | None => mret tt
  | Some (h, e) => replace_head id h (enrolled e)
  end.

(** [raw.publish(id, expected, &tombstone(id)?).map_err(publication_error)?] *)
Definition bury (id : string) (expected : option string) : M Error S unit :=
  b ← of_result (tombstone id);
  map_err publication_error (publish id expected b);;
  mret tt.

(** What the head allows: nothing is left to do, the tombstone may replace it, or
    the owner has to do it. *)
Inductive Burial := Done | Bury (expected : option string) | AsOwner.
Definition retire_check (id : string) : M Error S Burial :=
  guard_err (valid_id id) InvalidInput;;
  oh ← head id;
  match oh with
  | None => mret (Bury None)
  | Some h =>
      dead ← of_result (retired id h);
      if (dead : bool) then mret Done
      else
        v ← ok_or (value_from_slice (manifest h)) Corrupt;
        if negb (match value_format v with Some f => Indexed.one_of f [2; 6; 8; 10] | None => false end) then
          e ← decode id h;
          mret (if negb (e_epoch e =? 0) && bool_decide (e_owner e = None) then Bury (Some (revision h)) else AsOwner)
        else
          (if value_ready v then Indexed.from_head id h
           else sz ← ok_or (value_size v) Corrupt; Indexed.resume_import id sz);;
          mret (Bury (Some (revision h)))
  end.

(** The owner looks at the head once more under its lock. *)
Definition own_check (id : string) (ident : Identity) : M Error S (option string) :=
  oh ← head id;
  h ← ok_or oh NotFound;
  e ← decode id h;
  guard_err (matches ident e) Conflict;;
  mret (Some (revision h)).
Definition retire_owned (id : string) (random : list Z) : M Error (S * Fs) unit :=
  ident ← open_inner id random true;
  r ← try_ (on_raw (expected ← own_check id ident; bury id expected));
  on_dir (modify unlock);;
  of_result r.

Definition retire (id : string) (random : list Z) : M Error (S * Fs) unit :=
  b ← on_raw (retire_check id);
  match b with
  | Done => mret tt
  | Bury expected => on_raw (bury id expected)
  | AsOwner => retire_owned id random
  end.

(** ** What an opening uses of the directory *)
Lemma exists_plan name fs : wp (exists_ name) fs (λ r fs', ∃ p b, r = Ok b ∧ fs' = set_plan p fs).
Proof. apply wp_exists; intros p; eauto. Qed.

(** The sixth outcome of an opening is that of the look for [retired]. *)
Definition retired_seen (fs : Fs) : Prop := dir fs !! "retired"%string = None ∨ ∀ k, plan fs !! 5%nat ≠ Some (Some k).

Lemma uses_private_path name fs : uses 1 (private_path name) fs.
Proof.
  rewrite /uses /private_path. wp_step. wp_step. eapply wp_mono; [apply uses_sys|]. intros r fs1 E. wp_step.
  wp_step; [|done]. destruct r; [|done]. wp_step. wp_step. by wp_step.
Qed.

Lemma lock_uses id (s : S) fs : wp (lock id) (s, fs) (λ r t, match r with Ok _ => plan t.2 = drop 5 (plan fs) | Err _ => True end).
Proof.
  rewrite /lock. wp_step. wp_step; [|done]. wp_step. apply wp_zoom. eapply wp_mono; [apply uses_sys|]. intros [u|x] fs1 E1; [|done].
  wp_step. wp_step. wp_step. wp_step; [|done].
  wp_step. apply wp_zoom. eapply wp_mono; [apply uses_private_path|]. intros [u1|x] fs2 E2; [|done].
  wp_step. apply wp_zoom. eapply wp_mono; [apply uses_private_path|]. intros [u2|x] fs3 E3; [|done].
  wp_step. apply wp_zoom. eapply wp_mono; [apply uses_open|]. intros [u3|x] fs4 E4; [|done].
  apply wp_zoom. eapply wp_mono; [apply uses_lock|]. intros [u4|x] fs5 E5; [|done]. cbn [snd fst] in *.
  by rewrite E5 E4 E3 E2 E1 !drop_drop.
Qed.
End owned.
End Owned.
