(* ===== verification/Mark.v ===== *)
(** Marking, [IndexedVolume::references] of [ahvm-volume/src/indexed.rs]: the objects
    that the committed root of a volume needs.  The walk returns exactly the reachable
    private objects, and a volume reads the same from any store that still holds
    them. *)
From S2P Require Import Prelude Codec ObjectStore Blocks Base Page Indexed Staging IndexedCommit IndexedApi.

Module Mark.
Import Page Indexed Staging IndexedCommit IndexedApi.

(** The order of [[u8; 32]]. *)
Fixpoint bytes_leb (x y : list Z) : bool :=
  match x, y with
  | [], _ => true
  | _ :: _, [] => false
  | a :: x, b :: y => (a <? b) || ((a =? b) && bytes_leb x y)
  end.
Definition bytes_le (x y : list Z) : Prop := bytes_leb x y = true.
#[export] Instance bytes_le_dec x y : Decision (bytes_le x y) := bool_eq_dec _ _.

(** [Vec::dedup] *)
Fixpoint dedup (l : list (list Z)) : list (list Z) :=
  match l with
  | [] => []
  | x :: l => match dedup l with
              | y :: k => if bool_decide (x = y) then y :: k else x :: y :: k
              | [] => [x]
              end
  end.
(** [live.sort_unstable(); live.dedup()] *)
Definition normal (live : list (list Z)) : list (list Z) := dedup (merge_sort bytes_le live).

Section mark.
Context {S : Type} {SHA : Sha256} {OS : ObjectStore S}.

(** One slot of a private page, and the base image's page at the same place. *)
Definition mark_slot (page base_page : list Z) (live : list (list Z)) (j : Z) : M Error S (list (list Z)) :=
  match object_slot page j with
  | Some (object, _) =>
      if bool_decide (slot page j = slot base_page j) && bool_decide (object_slot page j = object_slot base_page j)
      then mret live
      else raw ← of_result (decode object); mret (live ++ [raw])
  | None => mret live
  end.

Definition mark_page (v : IndexedVolume) (cancel : S → bool * S) (live : list (list Z)) (e : Z * string) : M Error S (list (list Z)) :=
  check_cancel cancel;;
  if match cat v with Some c => bool_decide (Base.cat_pages c !! e.1 = Some e.2) | None => false end then mret live
  else
    p ← page v e.1;
    q ← base_page v e.1;
    raw ← of_result (decode e.2);
    foldM (mark_slot p q) (live ++ [raw]) (seqZ 0 SLOTS).

Definition references (v : IndexedVolume) (cancel : S → bool * S) : M Error S (list (list Z)) :=
  live ← foldM (mark_page v cancel) [] (entries (pages (root v)));
  check_cancel cancel;;
  mret (normal live).

(** ** The reachable objects *)
Context {SV : StoreView S}.

(** A page of the map that is not the base image's. *)
Definition private_page (v : IndexedVolume) (i : Z) (h : string) : Prop :=
  pages (root v) !! i = Some h ∧ cat_page v i ≠ Some h.
(** The object of a slot that differs from the base image's slot. *)
Definition private_slot (p q : list Z) (o : string) (j : Z) : Prop :=
  0 ≤ j < SLOTS ∧ ∃ off, object_slot p j = Some (o, off) ∧ ¬ (slot p j = slot q j ∧ object_slot p j = object_slot q j).
(** The page object itself, and the objects that its slots name. *)
Definition page_reaches (s : S) (v : IndexedVolume) (e : Z * string) (d : string) : Prop :=
  private_page v e.1 e.2 ∧
  (d = e.2 ∨ ∃ p q, page_view s v e.1 = Some p ∧ base_view s v e.1 = Some q ∧ ∃ j, private_slot p q d j).
Definition reachable (s : S) (v : IndexedVolume) (d : string) : Prop := ∃ e, page_reaches s v e d.

(** The decoded digests that satisfy [P], and no others. *)
Definition marks (P : string → Prop) (live : list (list Z)) : Prop := ∀ raw, raw ∈ live ↔ ∃ d, P d ∧ decode d = Ok raw.

Lemma marks_nil (P : string → Prop) : (∀ d, ¬ P d) → marks P [].
Proof. intros H raw. split; [by intros ?%not_elem_of_nil|]. intros (d & Hd & _). by destruct (H d). Qed.

Lemma marks_snoc (P Q : string → Prop) live d raw : marks P live → decode d = Ok raw → (∀ x, Q x ↔ P x ∨ x = d) → marks Q (live ++ [raw]).
Proof.
  intros HP Hd HQ r. rewrite elem_of_app list_elem_of_singleton (HP r). split.
  - intros [(x & Hx & Hr)| ->]; [exists x|exists d]; rewrite HQ; auto.
  - intros (x & [Hx| ->]%HQ & Hr); [left; eauto|right; congruence].
Qed.

Lemma marks_iff (P Q : string → Prop) live : (∀ x, P x ↔ Q x) → marks P live → marks Q live.
Proof. intros H HP raw. rewrite (HP raw). by setoid_rewrite H. Qed.

Lemma dedup_in l x : x ∈ dedup l ↔ x ∈ l.
Proof.
  induction l as [|y l IH]; [done|]. rewrite elem_of_cons -IH. simpl. destruct (dedup l) as [|z k]; [set_solver|].
  case_bool_decide; set_solver.
Qed.
Lemma normal_in l x : x ∈ normal l ↔ x ∈ l.
Proof. by rewrite dedup_in merge_sort_Permutation. Qed.
Lemma normal_marks P live : marks P live → marks P (normal live).
Proof. intros H raw. by rewrite normal_in. Qed.

(** ** What the walk returns *)
Lemma mark_slot_spec p q P l1 j l2 live s : seqZ 0 SLOTS = l1 ++ j :: l2 →
  marks (λ d, P d ∨ ∃ i, i ∈ l1 ∧ private_slot p q d i) live →
  wp (mark_slot p q live j) s (λ r s', s' = s ∧
    match r with Ok live' => marks (λ d, P d ∨ ∃ i, i ∈ l1 ++ [j] ∧ private_slot p q d i) live' | Err _ => True end).
Proof.
  intros Hl Hm. assert (0 ≤ j < SLOTS) as Hj.
  { assert (j ∈ seqZ 0 SLOTS) as Hj%elem_of_seqZ; [|lia]. rewrite Hl. apply elem_of_app. right. by left. }
  assert (∀ Q : Prop, (∀ d, private_slot p q d j → Q) → (Q → False) → ∀ x,
    (P x ∨ ∃ i, i ∈ l1 ∧ private_slot p q x i) ↔ (P x ∨ ∃ i, i ∈ l1 ++ [j] ∧ private_slot p q x i)) as Hskip.
  { intros Q HQ Hno x. setoid_rewrite elem_of_app. setoid_rewrite list_elem_of_singleton. split; [naive_solver|].
    intros [?|(i & [Hi| ->] & Hp)]; eauto. by destruct Hno; eapply HQ. }
  rewrite /mark_slot. destruct (object_slot p j) as [[o off]|] eqn:Ho.
  - destruct (bool_decide (slot p j = slot q j) && bool_decide (object_slot p j = object_slot q j)) eqn:Hi.
    + rewrite Ho in Hi. rewrite Hi. wp_step. split; [done|]. eapply marks_iff, Hm. apply (Hskip False); [|done].
      apply andb_prop in Hi as [H1%bool_decide_eq_true H2%bool_decide_eq_true].
      intros d (_ & off' & E & Hd). apply Hd. by rewrite Ho.
    + rewrite Ho in Hi. rewrite Hi. wp_step. wp_step. destruct (decode o) as [raw|x] eqn:Hd; [|done]. wp_step. split; [done|].
      eapply (marks_snoc _ _ _ o); [exact Hm|done|]. intros x. setoid_rewrite elem_of_app. setoid_rewrite list_elem_of_singleton. split.
      * intros [?|(i & [?| ->] & Hp)]; eauto. destruct Hp as (_ & off' & E & _). rewrite Ho in E. simplify_eq. by right.
      * intros [[?|(i & ? & ?)]| ->]; [by left|by eauto|]. right. exists j. split; [by right|]. split; [done|]. exists off. split; [done|].
        intros [E1 E2]. rewrite E1 -E2 Ho !bool_decide_eq_true_2 // in Hi.
  - wp_step. split; [done|]. eapply marks_iff, Hm. apply (Hskip False); [|done]. intros d (_ & off & E & _). by rewrite Ho in E.
Qed.

Lemma mark_slots_spec p q P live s : marks P live →
  wp (foldM (mark_slot p q) live (seqZ 0 SLOTS)) s (λ r s', s' = s ∧
    match r with Ok live' => marks (λ d, P d ∨ ∃ j, private_slot p q d j) live' | Err _ => True end).
Proof.
  intros Hm. apply (wp_foldM _ _ _ _ (λ live l s', s' = s ∧ ∃ l1, seqZ 0 SLOTS = l1 ++ l ∧
    marks (λ d, P d ∨ ∃ i, i ∈ l1 ∧ private_slot p q d i) live)).
  - split; [done|]. exists []. split; [done|]. eapply marks_iff, Hm. set_solver.
  - intros b j l s' (-> & l1 & Hl & Hb). eapply wp_mono; [by eapply mark_slot_spec|]. intros [b'|x] s' [-> Hb']; [|done].
    split; [done|]. exists (l1 ++ [j]). by rewrite -app_assoc.
  - intros b s' (-> & l1 & Hl & Hb). split; [done|]. rewrite app_nil_r in Hl. subst l1. eapply marks_iff, Hb. intros d. simpl. split.
    + intros [?|(j & _ & ?)]; eauto.
    + intros [?|(j & Hj)]; [by left|]. right. exists j. split; [|done]. apply elem_of_seqZ. destruct Hj; lia.
Qed.

Context {OSL : ObjectStoreLaws S}.

Lemma mark_page_spec s0 s v cancel P live e : same_view s0 s → observes cancel → pages (root v) !! e.1 = Some e.2 → marks P live →
  wp (mark_page v cancel live e) s (λ r s', same_view s0 s' ∧
    match r with Ok live' => marks (λ d, P d ∨ page_reaches s0 v e d) live' | Err _ => True end).
Proof.
  intros Hv Hc He Hm. rewrite /mark_page. wp_step. eapply wp_mono; [by apply check_cancel_law|].
  intros r s1 Hv1. assert (same_view s0 s1) as Hv01 by (by etrans). destruct r as [u|x]; [|done].
  assert (match cat v with Some c => bool_decide (Base.cat_pages c !! e.1 = Some e.2) | None => false end = bool_decide (cat_page v e.1 = Some e.2)) as ->.
  { rewrite /cat_page. by destruct (cat v). }
  case_bool_decide as Hb; [wp_step; split; [done|]|].
  { eapply marks_iff, Hm. intros d. rewrite /page_reaches /private_page. tauto. }
  wp_step. eapply wp_mono; [by apply page_spec|]. intros [p|x] s2 [Hv2 Hp]; [|done].
  wp_step. eapply wp_mono; [by apply base_page_spec|]. intros [q|x] s3 [Hv3 Hq]; [|done].
  wp_step. wp_step. destruct (decode e.2) as [raw|x] eqn:Hd; [|done].
  eapply wp_mono; [eapply (mark_slots_spec p q (λ d, P d ∨ d = e.2)), (marks_snoc _ _ _ e.2); [exact Hm|done|done]|].
  intros [live'|x] s4 [-> H4]; [|done]. split; [done|]. eapply marks_iff, H4. intros d. rewrite /page_reaches /private_page. simpl. split.
  - intros [[?| ->]|Hj]; [by left|by eauto|]. right. split; [done|]. right. by exists p, q.
  - intros [?|(_ & [?|(p' & q' & Hp' & Hq' & Hj)])]; [by eauto..|]. simplify_eq. by right.
Qed.

Lemma references_spec s0 s v cancel : same_view s0 s → observes cancel →
  wp (references v cancel) s (λ r s', same_view s0 s' ∧ match r with Ok live => marks (reachable s0 v) live | Err _ => True end).
Proof.
  intros Hv Hc. rewrite /references. wp_step.
  apply (wp_foldM _ _ _ _ (λ live l s', same_view s0 s' ∧ ∃ l1, entries (pages (root v)) = l1 ++ l ∧
    marks (λ d, ∃ e, e ∈ l1 ∧ page_reaches s0 v e d) live)).
  - split; [done|]. exists []. split; [done|]. apply marks_nil. intros d (e & He & _). by apply not_elem_of_nil in He.
  - intros b e l s1 (Hv1 & l1 & Hl & Hb). assert (pages (root v) !! e.1 = Some e.2) as He.
    { apply elem_of_entries. rewrite Hl. apply elem_of_app. right. destruct e. by left. }
    eapply wp_mono; [by eapply mark_page_spec|]. intros [b'|x] s2 [Hv2 Hb']; [|done]. split; [done|]. exists (l1 ++ [e]).
    split; [by rewrite -app_assoc|]. eapply marks_iff, Hb'. intros d. setoid_rewrite elem_of_app. setoid_rewrite list_elem_of_singleton. naive_solver.
  - intros b s1 (Hv1 & l1 & Hl & Hb). rewrite app_nil_r in Hl. subst l1. wp_step. eapply wp_mono; [by apply check_cancel_law|].
    intros r s2 Hv2. assert (same_view s0 s2) as Hv02 by (by etrans). destruct r as [u|x]; [|done]. wp_step. split; [done|]. apply normal_marks. eapply marks_iff, Hb. intros d. rewrite /reachable. split; [naive_solver|].
    intros ([i h] & He). exists (i, h). split; [|done]. apply elem_of_entries. by destruct He as [[? _] _].
Qed.

(** ** What a volume reads depends on the reachable objects only *)
Context {SHAL : Sha256Laws} {JR : Json Root} {JL : JsonLaws Root}.

(** The second store holds what the volume needs of the first. *)
Definition serves_as (s s' : S) (v : IndexedVolume) : Prop :=
  base_objects s' = base_objects s ∧ ∀ d, reachable s v d → objects s' !! (volume (root v), d) = objects s !! (volume (root v), d).

Lemma slot_mod p i : slot p (i mod SLOTS) = slot p i ∧ object_slot p (i mod SLOTS) = object_slot p i.
Proof. rewrite /object_slot /slot /slot_at. by rewrite !Z.mod_mod. Qed.

Lemma object_slot_some p j o : object_slot p j = Some o → is_Some (slot p j).
Proof. rewrite /object_slot. by destruct (slot p j). Qed.

Lemma serves_base s s' v i : serves_as s s' v → base_view s' v i = base_view s v i.
Proof. intros [Hb _]. by apply base_view_same. Qed.

Lemma serves_page s s' v i : packed (root v) = true → serves_as s s' v → page_view s' v i = page_view s v i.
Proof.
  intros Hp [Hb Ho]. rewrite /page_view /=. destruct (page_inherited v i (pages (root v) !! i)) eqn:Hi.
  - by rewrite /view_from Hb.
  - destruct (pages (root v) !! i) as [h|] eqn:Hh; [|done]. rewrite !view_private // Ho //. exists (i, h). split; [|by left].
    split; [done|]. simpl. intros Hc. rewrite /page_inherited /cat_page in Hi Hc. destruct (cat v); [|done]. simpl in *. by rewrite Hc bool_decide_eq_true_2 in Hi.
Qed.

(** The base image's page as [load] looks it up. *)
Definition base_page_of (s : S) (v : IndexedVolume) (i : Z) : option (option (list Z)) :=
  match cat v with Some _ => q ← base_view s v i; Some (Some q) | None => Some None end.

(** A block that the base image does not provide names a reachable object. *)
Lemma private_reachable s v i p bp hash o : packed (root v) = true → page_view s v (i / SLOTS) = Some p →
  base_page_of s v (i / SLOTS) = Some bp → slot p i = Some hash → inherited bp p i hash = false →
  object_slot p i = Some o → reachable s v o.1.
Proof.
  intros Hp Hpv Hbp Hs Hi Ho. destruct (pages (root v) !! (i / SLOTS)) as [h|] eqn:Hh.
  2: { rewrite page_view_none // in Hpv. simplify_eq. by rewrite slot_blank in Hs. }
  destruct (decide (cat_page v (i / SLOTS) = Some h)) as [Hc|Hc].
  - exfalso. assert (page_view s v (i / SLOTS) = base_view s v (i / SLOTS)) as E.
    { rewrite /page_view Hh /base_view Hc. f_equal. rewrite /page_inherited bool_decide_eq_true_2 //=.
      rewrite /cat_page in Hc. destruct (cat v) as [c|]; [|done]. by apply bool_decide_eq_true. }
    rewrite /base_page_of -E Hpv in Hbp. rewrite /cat_page in Hc. destruct (cat v); [|done]. apply (inj Some) in Hbp as <-.
    by rewrite /inherited Hs !bool_decide_eq_true_2 in Hi.
  - exists (i / SLOTS, h). split; [done|]. right. simpl. destruct (slot_mod p i) as [Es Eo]. destruct o as [o off]. simpl.
    assert (∃ q, base_view s v (i / SLOTS) = Some q ∧ ¬ (slot p i = slot q i ∧ object_slot p i = object_slot q i)) as (q & Hq & Hne).
    { rewrite /base_page_of in Hbp. destruct (cat v) as [c|] eqn:Hcat.
      - destruct (base_view s v (i / SLOTS)) as [q|]; [|done]. apply (inj Some) in Hbp as <-. exists q. split; [done|].
        intros [E1 E2]. by rewrite /inherited -E1 Hs E2 !bool_decide_eq_true_2 in Hi.
      - exists (blank true (i / SLOTS)). split; [apply base_view_blank; [done|by rewrite /cat_page Hcat]|].
        rewrite slot_blank Hs. by intros [? _]. }
    exists p, q. split; [done|]. split; [done|]. exists (i mod SLOTS). split; [apply slot_mod_bound|].
    destruct (slot_mod q i) as [Es' Eo']. rewrite Es Eo Es' Eo'. by exists off.
Qed.

Lemma serves_block s s' v i : packed (root v) = true → serves_as s s' v → block_view s' v i = block_view s v i.
Proof.
  intros Hp Hs. rewrite /block_view (serves_page s s') //. destruct (page_view s v (i / SLOTS)) as [p|] eqn:Hpv; [|done]. simpl.
  destruct (slot p i) as [hash|] eqn:Hsl; [|done].
  change (match cat v with Some _ => q ← base_view s' v (i / SLOTS); Some (Some q) | None => Some None end) with (base_page_of s' v (i / SLOTS)).
  change (match cat v with Some _ => q ← base_view s v (i / SLOTS); Some (Some q) | None => Some None end) with (base_page_of s v (i / SLOTS)).
  assert (base_page_of s' v (i / SLOTS) = base_page_of s v (i / SLOTS)) as -> by (by rewrite /base_page_of (serves_base s s')).
  destruct (base_page_of s v (i / SLOTS)) as [bp|] eqn:Hbp; [|done]. simpl.
  destruct (object_slot p i) as [o|] eqn:Ho; [|done]. simpl. destruct Hs as [Hb Hobj]. rewrite Hb.
  destruct (inherited bp p i hash) eqn:Hi; [done|]. rewrite Hobj //. by eapply private_reachable.
Qed.

(** Nothing is there that was not there before. *)
Definition shrinks (s s' : S) : Prop := objects s' ⊆ objects s.

Lemma serves_typed s s' v : shrinks s s' → serves_as s s' v → typed s → typed s'.
Proof. intros Hsh [Hb _] [To Tb]. split; intros k b; [|rewrite Hb; apply Tb]. intros Hk. eapply To, lookup_weaken; [exact Hk|done]. Qed.

(** The invariant and the disk of a volume survive the loss of what is unreachable. *)
Lemma serves_vol s s' id v : vol_ok s id v → shrinks s s' → serves_as s s' v → vol_ok s' id v ∧ ∀ i, block s' v i = block s v i.
Proof.
  intros Hok Hsh Hs. pose proof (ok_packed _ _ _ Hok) as Hp. pose proof (proj1 Hs) as Hb. split.
  - split; [apply Hok|done|by eapply serves_typed, Hok|..|apply Hok].
    + pose proof (ok_cat _ _ _ Hok) as Hc. destruct (base (root v)), (cat v); try done. by rewrite /cat_stored Hb.
    + intros i Hi. rewrite (serves_base s s') // Hb. by apply Hok.
    + intros i Hi. rewrite (serves_block s s') //. by apply Hok.
    + intros i p q Hi. rewrite (serves_page s s') // (serves_base s s') //. by apply Hok.
  - intros i. by rewrite /block /committed (serves_block s s').
Qed.
End mark.
End Mark.
