(* ===== verification/Fencing.v ===== *)
(** The abstract machine of epochs that the ownership of a volume follows, a store
    that logs the publications sent to it, and what each operation of the owner's
    protocol reads and sends: at most one publication, which is a move of the
    machine. *)
From S2P Require Import Prelude Codec ObjectStore Base Indexed IndexedApi Files Owned.

Module Fencing.
Import Files Owned.

(** ** The abstract machine *)
Inductive Status (V : Type) := Live (epoch : Z) (owner : option string) (map : V) | Dead.
Arguments Live {V}. Arguments Dead {V}.

(** A change of the head, by a writer with the given token or by nobody's. *)
Inductive move {V : Type} : option string → Status V → Status V → Prop :=
| mv_enroll m : move None (Live 0 None m) (Live 1 None m)
| mv_claim k t m : k ≠ 0 → move (Some t) (Live k None m) (Live (k + 1) (Some t) m)
| mv_write k t m m' : move (Some t) (Live k (Some t) m) (Live k (Some t) m')
| mv_release k t m : move (Some t) (Live k (Some t) m) (Live k None m)
| mv_bury k m : move None (Live k None m) Dead
| mv_bury_own k t m : move (Some t) (Live k (Some t) m) Dead.

(** The epoch [k] of the token [t] is over. *)
Definition over {V} (k : Z) (t : string) (x : Status V) : Prop :=
  match x with Live e o _ => k < e ∨ k = e ∧ o ≠ Some t | Dead => True end.

Lemma move_over {V} who k t (x y : Status V) : over k t x → move who x y → over k t y.
Proof.
  intros Ho Hm. destruct Hm; simpl in *; try done.
  - left. lia.
  - left. lia.
  - destruct Ho as [Ho|[-> Ho]]; [by left|by right].
Qed.

(** ** Requests *)
Record Request := mkRequest { q_id : string; q_expected : option string; q_bytes : list Z }.

(** The store with a log of the publications that were ever sent. *)
Section logged.
Context {T : Type} {OT : ObjectStore T}.

Definition lift {A} (m : M Error T A) : M Error (T * list Request) A := zoom fst (λ s t, (s, t.2)) m.
#[export] Instance logged : ObjectStore (T * list Request) := {
  base_chunk image d at_ := lift (base_chunk image d at_);
  prefetch_base image ds := λ t, (prefetch_base image ds t.1, t.2);
  prefetch id ds := λ t, (prefetch id ds t.1, t.2);
  cached_chunk id d := λ t, cached_chunk id d t.1;
  list_chunks_after id after limit := lift (list_chunks_after id after limit);
  delete_chunk id d := lift (delete_chunk id d);
  head id := lift (head id);
  chunk id d := lift (chunk id d);
  put_chunk id d b := lift (put_chunk id d b);
  publish id expected m := λ t, let '(r, s) := publish id expected m t.1 in (r, (s, mkRequest id expected m :: t.2));
  cancelled := λ t, let '(b, s) := cancelled t.1 in (b, (s, t.2));
  past_deadline := λ t, let '(b, s) := past_deadline t.1 in (b, (s, t.2));
}.
#[export] Instance logged_view {SV : StoreView T} : StoreView (T * list Request) :=
  {| objects t := objects t.1; heads t := heads t.1; base_objects t := base_objects t.1 |}.

Context {SHA : Sha256} {SV : StoreView T} {OSL : ObjectStoreLaws T}.
#[export] Instance logged_laws : ObjectStoreLaws (T * list Request).
Proof.
  split; intros.
  - apply wp_zoom. eapply wp_mono; [apply head_law|]. done.
  - apply wp_zoom. eapply wp_mono; [apply chunk_law|]. done.
  - apply wp_zoom. eapply wp_mono; [apply base_chunk_law|]. done.
  - by eapply (cached_chunk_law (S := T)).
  - apply (prefetch_law (S := T)).
  - apply (prefetch_base_law (S := T)).
  - apply wp_zoom. eapply wp_mono; [apply put_chunk_law|]. done.
  - pose proof (publish_law s.1 id expected m) as H. rewrite /wp /=. rewrite /wp in H.
    by destruct (publish id expected m s.1) as [r s1].
  - apply wp_zoom. eapply wp_mono; [apply list_law|]. done.
  - apply wp_zoom. eapply wp_mono; [apply delete_chunk_law|]. done.
  - pose proof (cancelled_law s.1) as H. simpl. by destruct (cancelled s.1).
  - pose proof (past_deadline_law s.1) as H. simpl. by destruct (past_deadline s.1).
Qed.
End logged.

(** ** What the operations send *)
Class SerdeLaws {JR : Json Indexed.Root} {SJ : Serde} : Prop := {
  envelope_json e b : envelope_to_vec e = Some b → ∃ v, value_from_slice b = Some v ∧
    value_format v = Some (e_format e) ∧ envelope_from_value v = Some e;
  envelope_format v e : envelope_from_value v = Some e → value_format v = Some (e_format e);
  envelope_u64 v e : envelope_from_value v = Some e → 0 ≤ e_epoch e;
  tombstone_json t b : tombstone_to_vec t = Some b → ∃ v, value_from_slice b = Some v ∧
    value_format v = Some (t_format t) ∧ tombstone_from_value v = Some t;
  (* the field of the document is the field of the structure *)
  root_json v b r : value_to_vec v = Some b → from_slice b = Some r → value_format v = Some (Indexed.format r);
  identity_laws :: JsonLaws Identity;
  (* an identity of a valid volume fits in the bound of the reader *)
  identity_short i b : to_vec i = Some b → valid_id (i_volume i) = true → hash (i_token i) = true → Zlen b ≤ 4096;
}.

Section sends.
Context {T : Type} {SHA : Sha256} {OT : ObjectStore T} {JR : Json Indexed.Root} {SJ : Serde}.
Context {SV : StoreView T} {OSL : ObjectStoreLaws T} {SL : SerdeLaws}.
Abbreviation S := (T * list Request)%type.

Definition abs (e : Envelope Value) : Status Value := Live (e_epoch e) (e_owner e) (e_manifest e).
(** What the bytes of a head say. *)
Definition status (id : string) (m : list Z) : option (Status Value) :=
  v ← value_from_slice m;
  if bool_decide (value_format v = Some 5) then Some Dead
  else match unwrap id v with Ok e => Some (abs e) | Err _ => None end.

(** Nothing was sent and nothing changed. *)
Definition quiet (s s' : S) : Prop := same_view s s' ∧ s'.2 = s.2.
#[export] Instance quiet_preorder : PreOrder quiet.
Proof. split; [by split|]. intros s1 s2 s3 [H1 E1] [H2 E2]. split; [by trans s2|congruence]. Qed.

(** At most one publication was sent for the volume, and it satisfies [P]. *)
Definition sends (id : string) (P : option string → list Z → Prop) (s s' : S) : Prop :=
  quiet s s' ∨
  ∃ expected m, P expected m ∧ s'.2 = mkRequest id expected m :: s.2 ∧
    (heads s' = heads s ∨ ∃ rev, published s s' id expected rev m).

Lemma sends_quiet id P s s' : quiet s s' → sends id P s s'.
Proof. by left. Qed.
Lemma quiet_sends id P s s1 s' : quiet s s1 → sends id P s1 s' → sends id P s s'.
Proof.
  intros [Hv E] [Hq|(x & m & HP & Es & Hh)]; [left; by trans s1|]. destruct Hv as (Ho & Hh1 & Hb). right. exists x, m.
  split; [done|]. split; [congruence|]. rewrite /published Hh1 in Hh |- *. done.
Qed.
Lemma sends_mono id (P Q : option string → list Z → Prop) s s' : (∀ x m, P x m → Q x m) → sends id P s s' → sends id Q s s'.
Proof. intros HPQ [Hq|(x & m & HP & H)]; [by left|]. right. exists x, m. by split; [apply HPQ|]. Qed.

Lemma head_quiet (s : S) id : wp (head id) s (λ r s', quiet s s' ∧ match r with Ok h => h = heads s !! id | Err _ => True end).
Proof. apply wp_zoom. eapply wp_mono; [apply head_law|]. intros r s' [Hv Hr]. by split; [split|]. Qed.

Lemma check_cancel_quiet (s : S) (cancel : S → bool * S) : (∀ s, quiet s (cancel s).2) → wp (check_cancel cancel) s (λ _ s', quiet s s').
Proof. intros Hc. specialize (Hc s). rewrite /wp /check_cancel. by destruct (cancel s) as [[] s']. Qed.

Lemma publish_sends (s : S) id expected m : wp (publish id expected m) s (λ r s',
  s'.2 = mkRequest id expected m :: s.2 ∧
  match r with
  | Ok rev => ∃ rev', published s s' id expected rev' m ∧ (rev = ""%string ∨ rev = rev')
  | Err _ => heads s' = heads s ∨ ∃ rev, published s s' id expected rev m
  end).
Proof.
  pose proof (publish_law s.1 id expected m) as H. rewrite /wp /=. rewrite /wp in H.
  destruct (publish id expected m s.1) as [r s1]. simpl in *. split; [done|]. destruct H as (_ & _ & H). destruct r as [|[]]; auto.
Qed.

Lemma load_quiet (s : S) r : wp (Base.load r) s (λ _ s', quiet s s').
Proof.
  rewrite /Base.load. wp_step. wp_step. destruct (Codec.decode (Base.image r)); [|done].
  wp_step. wp_step. destruct (Codec.decode (Base.catalog r)); [|done].
  wp_step. apply wp_zoom. eapply wp_mono; [apply base_chunk_law|]. intros [b|x] s' [Hv _]; [wp_step|]; by split.
Qed.

(** Only maps of the known formats pass. *)
Lemma decode_head_quiet (s : S) id h rdy : wp (Indexed.decode_head id h rdy) s (λ r s', quiet s s' ∧
  match r with
  | Ok _ => ∃ r, from_slice (manifest h) = Some r ∧ Indexed.one_of (Indexed.format r) [2; 3; 6; 7; 8; 9; 10; 11] = true
  | Err _ => True
  end).
Proof.
  rewrite /Indexed.decode_head. wp_step. wp_step; [|done]. wp_step. wp_step; [|done]. wp_step. wp_step; [|done].
  wp_step. wp_step; [|done]. wp_step. eapply (wp_mono _ _ (λ _ s', quiet s s')).
  { wp_step; [|by wp_step]. wp_step. eapply wp_mono; [apply load_quiet|]. intros [] s' Hq; wp_steps; done. }
  intros [c|x] s' Hq; [|done]. wp_steps; [|done]. split; [done|]. eexists. split; [done|].
  match goal with H : Indexed.root_ok _ _ = true |- _ => rewrite /Indexed.root_ok in H; apply negb_true_iff in H; rewrite !orb_false_iff in H end.
  apply negb_false_iff. tauto.
Qed.

(** A decoded head is no tombstone; its map is a map of the volume. *)
Lemma decode_spec (s : S) id h : wp (decode id h) s (λ r s', quiet s s' ∧
  match r with
  | Ok e => status id (manifest h) = Some (abs e) ∧ e_format e = 4 ∧ e_volume e = id ∧ revision h ≠ ""%string ∧
      (e_epoch e = 0 → e_owner e = None) ∧ match e_owner e with Some t => hash t = true | None => True end ∧ 0 ≤ e_epoch e ∧
      value_format (e_manifest e) ≠ Some 4 ∧ value_format (e_manifest e) ≠ Some 5
  | Err _ => True
  end).
Proof.
  rewrite /decode /status. wp_step. wp_step; [|done]. wp_step. wp_step; [|done]. wp_step. wp_step. destruct (unwrap id a) as [e|] eqn:Hu; [|done].
  wp_step. wp_step; [|done]. rename a0 into b. wp_step. eapply wp_mono; [apply decode_head_quiet|]. intros [vol|x] s' [Hq Hr]; [|done].
  wp_step. split; [done|]. destruct Hr as (r & Hr & Hf). simpl in Hr. match goal with H : value_to_vec _ = _ |- _ => pose proof (root_json _ _ _ H Hr) as Hfmt end.
  assert (value_format (e_manifest e) ≠ Some 4 ∧ value_format (e_manifest e) ≠ Some 5) as [H4 H5].
  { rewrite Hfmt. split; intros [= Hx]; by rewrite Hx in Hf. }
  assert (revision h ≠ ""%string) as Hrev.
  { match goal with H : negb (_ || bool_decide (revision h = _)) = true |- _ => apply negb_true_iff, orb_false_iff in H; destruct H as [_ H];
      by apply bool_decide_eq_false in H end. }
  match goal with H : value_from_slice _ = Some a |- _ => rewrite H /= end. revert Hu. rewrite /unwrap.
  destruct (decide (value_format a = Some 4)) as [Hv|Hv].
  - rewrite Hv (bool_decide_true (Some 4 = Some 4)) // (bool_decide_false (Some 4 = Some 5)) //.
    destruct (envelope_from_value a) as [e'|] eqn:He; [|done].
    match goal with |- context [if ?b then Err Corrupt else Ok e'] => destruct b eqn:Hok; [done|] end.
    intros [= ->]. rewrite !orb_false_iff in Hok. destruct Hok as [[Hid Hne] Hh].
    split_and!; try done.
    + pose proof (envelope_format _ _ He). congruence.
    + by apply negb_false_iff, bool_decide_eq_true in Hid.
    + intros E. by rewrite E in Hne.
    + destruct (e_owner e); [by apply negb_false_iff in Hh|done].
    + by eapply envelope_u64.
  - rewrite (bool_decide_false (value_format a = Some 4)) //. intros [= <-]. rewrite (bool_decide_false (value_format a = Some 5)) //.
Qed.

(** *** Publications *)
Definition ident_ok (id : string) (i : Identity) : Prop := i_volume i = id ∧ hash (i_token i) = true ∧ i_epoch i ≠ 0.
Definition owner_ok (e : Envelope Value) : Prop := match e_owner e with Some t => hash t = true | None => True end.

Lemma encode_status id e b : encode e = Ok b → e_format e = 4 → e_volume e = id → e_epoch e ≠ 0 → owner_ok e → status id b = Some (abs e).
Proof.
  rewrite /encode. destruct (envelope_to_vec e) as [b'|] eqn:He; [|done]. case_match; [done|]. intros [= ->] Hf Hid Hne Ho.
  destruct (envelope_json _ _ He) as (v & Hv & Hvf & Hev). rewrite /status Hv /= /unwrap Hvf Hf Hev.
  rewrite (bool_decide_false (Some 4 = Some 5)) // !bool_decide_true //. apply Z.eqb_neq in Hne. rewrite Hne. simpl.
  rewrite /owner_ok in Ho. destruct (e_owner e); [by rewrite Ho|done].
Qed.

Lemma tombstone_status id b : tombstone id = Ok b → status id b = Some Dead.
Proof.
  rewrite /tombstone. destruct (tombstone_to_vec _) as [b'|] eqn:Ht; [|done]. intros [= ->].
  destruct (tombstone_json _ _ Ht) as (v & Hv & Hf & _). by rewrite /status Hv /= Hf bool_decide_true.
Qed.

(** A process that saw the head [h] and the envelope [e] in it. *)
Definition saw (id : string) (h : Head) (e : Envelope Value) : Prop :=
  status id (manifest h) = Some (abs e) ∧ e_format e = 4 ∧ e_volume e = id ∧ owner_ok e ∧ 0 ≤ e_epoch e.

Lemma replace_head_spec (s : S) id h e : e_format e = 4 → e_volume e = id → e_epoch e ≠ 0 → owner_ok e →
  wp (replace_head id h e) s (λ r s', sends id (λ x m, x = Some (revision h) ∧ status id m = Some (abs e)) s s' ∧
    match r with Ok _ => ∃ h', heads s' !! id = Some h' ∧ status id (manifest h') = Some (abs e) | Err _ => True end).
Proof.
  intros Hf Hid Hne Ho. rewrite /replace_head. wp_step. wp_step. destruct (encode e) as [b|] eqn:He; [|split; [by left|done]].
  pose proof (encode_status id e b He Hf Hid Hne Ho) as Hst.
  wp_step. wp_step. eapply wp_mono; [apply publish_sends|]. intros r s1 [Hq Hr].
  assert (sends id (λ x m, x = Some (revision h) ∧ status id m = Some (abs e)) s s1) as Hs.
  { right. exists (Some (revision h)), b. split; [done|]. split; [done|]. destruct r as [rev|x]; [|done]. destruct Hr as (rev' & Hp & _). eauto. }
  destruct r as [rev|x]; [|by split]. destruct Hr as (rev' & (_ & _ & Hp) & _). wp_step; [|by split].
  split; [done|]. exists (mkHead rev' b). rewrite Hp lookup_insert_eq. done.
Qed.

Lemma matches_spec i e : matches i e = true ↔ e_epoch e = i_epoch i ∧ e_owner e = Some (i_token i).
Proof. rewrite /matches andb_true_iff Z.eqb_eq bool_decide_eq_true. done. Qed.

(** The volume is owned by the identity. *)
Definition owned_by (id : string) (i : Identity) (s : S) : Prop :=
  ∃ h m, heads s !! id = Some h ∧ status id (manifest h) = Some (Live (i_epoch i) (Some (i_token i)) m).

Definition moves (id : string) (who : option string) (h : Head) (x : option string) (m : list Z) : Prop :=
  x = Some (revision h) ∧ ∃ a b, status id (manifest h) = Some a ∧ status id m = Some b ∧ move who a b.

(** A claim is sent only where nobody owns the volume. *)
Lemma claim_sends (s : S) id h e i : saw id h e → ident_ok id i → e_epoch e ≠ 0 →
  wp (claim id h e i) s (λ r s', sends id (moves id (Some (i_token i)) h) s s' ∧
    match r with Ok _ => if matches i e then s' = s else owned_by id i s' | Err _ => True end).
Proof.
  intros (Hst & Hf & Hid & Ho & _) (Hv & Ht & Hpos) Hne. rewrite /claim. destruct (matches i e) eqn:Hm.
  { wp_step. split; [by left|done]. }
  wp_step. wp_step; [|split; [by left|done]]. match goal with H : _ && _ = true |- _ => apply andb_prop in H; destruct H as [Hn%bool_decide_eq_true He%bool_decide_eq_true] end.
  apply u64_checked_add_Some in He as [He _].
  eapply wp_mono; [apply replace_head_spec; simpl; try done; lia|]. intros r s' [Hs Hr]. split.
  - eapply sends_mono; [|exact Hs]. intros x m [-> Hm']. split; [done|]. eexists _, _. split; [done|]. split; [done|].
    rewrite /abs /= Hn He. by apply mv_claim.
  - destruct r as [[]|]; [|done]. destruct Hr as (h' & Hh & Hs'). by exists h', (e_manifest e).
Qed.

Lemma saw_spec (s : S) id h : wp (decode id h) s (λ r s', quiet s s' ∧
  match r with Ok e => saw id h e ∧ (e_epoch e = 0 → e_owner e = None) | Err _ => True end).
Proof.
  eapply wp_mono; [apply decode_spec|]. intros [e|x] s' [Hq Hr]; [|done]. split; [done|].
  destruct Hr as (Hst & Hf & Hid & _ & H0 & Ho & Hu & _). done.
Qed.

(** *** The owner's store *)
Abbreviation P := (bool * S)%type.
Lemma active_step (t : P) (Q : Result Error unit → P → Prop) : (t.1 = true → Q (Ok tt) t) → (t.1 = false → Q (Err ReopenRequired) t) → wp active t Q.
Proof. intros H1 H2. rewrite /active. wp_step. wp_step. by apply wp_guard. Qed.

Lemma owned_head_spec (t : P) id i : wp (owned_head id i id) t (λ r t', t'.1 = t.1 ∧ quiet t.2 t'.2 ∧
  match r with
  | Ok (Some h) => t.1 = true ∧ ∃ h0 m, heads t.2 !! id = Some h0 ∧ revision h = revision h0 ∧ value_to_vec m = Some (manifest h) ∧
      status id (manifest h0) = Some (Live (i_epoch i) (Some (i_token i)) m)
  | Ok None => False
  | Err _ => True
  end).
Proof.
  rewrite /owned_head. wp_step. apply active_step; [intros Hact|done]. wp_step. wp_step; [|done].
  wp_step. apply wp_zoom. eapply wp_mono; [apply head_quiet|]. intros [oh|x] s1 [Hq1 Hh]; [|done]. subst oh.
  wp_step. wp_step; [|done]. wp_step. apply wp_zoom. eapply wp_mono; [apply saw_spec|]. intros [e|x] s2 [Hq2 Hs]; [|split_and!; [done|by trans s1|done]].
  assert (quiet t.2 s2) as Hq by (by trans s1). wp_step. simpl in *. wp_step; [|done]. wp_step. wp_step; [|done].
  wp_step. split; [done|]. split; [done|]. split; [done|].
  match goal with H : matches _ _ = true |- _ => apply matches_spec in H as [He Ho] end. destruct Hs as [(Hst & _) _].
  rewrite /abs He Ho in Hst. eexists _, _. split; [done|]. done.
Qed.

Lemma owned_publish_spec (t : P) id i expected m cancel : ident_ok id i → (∀ s, quiet s (cancel s).2) →
  wp (owned_publish_cancellable id i id expected m cancel) t (λ r t', t'.1 = t.1 ∧
    (t.1 = false → t'.2.2 = t.2.2 ∧ heads t'.2 = heads t.2) ∧
    sends id (λ x b, x = expected ∧ is_Some expected ∧ ∃ mp, status id b = Some (Live (i_epoch i) (Some (i_token i)) mp)) t.2 t'.2 ∧
    match r with
    | Ok rev => (∃ rv b, published t.2 t'.2 id expected rv b) ∧ (rev = ""%string ∨ ∃ b mp, heads t'.2 !! id = Some (mkHead rev b) ∧ status id b = Some (Live (i_epoch i) (Some (i_token i)) mp))
    | Err _ => True
    end).
Proof.
  intros (Hv & Ht & Hne) Hc. rewrite /owned_publish_cancellable.
  assert (∀ (s : S), quiet t.2 s → t.1 = t.1 ∧ (t.1 = false → s.2 = t.2.2 ∧ heads s = heads t.2) ∧
    sends id (λ x b, x = expected ∧ is_Some expected ∧ ∃ mp, status id b = Some (Live (i_epoch i) (Some (i_token i)) mp)) t.2 s ∧ True) as Hno.
  { intros s Hq. split; [done|]. split; [by destruct Hq as [(_ & Hh & _) Hs]|]. split; [by left|done]. }
  wp_step. apply wp_zoom. eapply wp_mono; [by apply check_cancel_quiet|]. intros [u|x] s1 Hq1; simpl; [|by apply Hno].
  wp_step. apply active_step; simpl; intros Hact; [|by apply Hno]. wp_step. wp_step; [|by apply Hno].
  wp_step. wp_step; [|by apply Hno]. wp_step. apply wp_zoom. eapply wp_mono; [apply decode_spec|].
  intros [e|x] s2 [Hq2 He]; [|apply Hno; by trans s1]. assert (quiet t.2 s2) as Hq02 by (by trans s1).
  wp_step. simpl in *. wp_step; [|by apply Hno]. wp_step. wp_step. destruct (encode _) as [b|] eqn:Hb; [|by apply Hno].
  destruct He as (_ & Hf & Hid & _). pose proof (encode_status id _ b Hb Hf Hid Hne Ht) as Hst.
  rewrite /publish_cancellable. apply wp_zoom. wp_step. eapply wp_mono; [by apply check_cancel_quiet|].
  intros [u2|x] s3 Hq3; [|apply Hno; by trans s2]. assert (quiet t.2 s3) as Hq03 by (by trans s2).
  eapply wp_mono; [apply publish_sends|]. intros r s4 [Hlog Hr]. split; [done|]. split; [by rewrite Hact|]. split.
  - eapply quiet_sends; [exact Hq03|]. right. exists expected, b. split; [by subst; eauto|]. split; [done|].
    destruct r as [rev|x]; [|done]. destruct Hr as (rev' & Hp & _). eauto.
  - destruct r as [rev|x]; [|done]. destruct Hr as (rev' & Hpub & Hrev). split.
    { exists rev', b. destruct Hq03 as [Hview _]. by eapply published_view. }
    destruct Hpub as (_ & _ & Hp). destruct Hrev as [->| ->]; [by left|]. right.
    exists b, (e_manifest e). split; [|exact Hst]. change (heads s4 !! id = Some (mkHead rev' b)). by rewrite Hp lookup_insert_eq.
Qed.

Lemma release_check_spec (t : P) id i : wp (release_check id i) t (λ r t', t'.1 = false ∧ quiet t.2 t'.2 ∧
  match r with
  | Ok (Some (h, e)) => heads t.2 !! id = Some h ∧ saw id h e ∧ e_epoch e = i_epoch i ∧ e_owner e = Some (i_token i)
  | Ok None => ∃ h x, heads t.2 !! id = Some h ∧ status id (manifest h) = Some x ∧ over (i_epoch i) (i_token i) x
  | Err _ => True
  end).
Proof.
  rewrite /release_check. wp_step. wp_step. wp_step. apply wp_zoom. eapply wp_mono; [apply head_quiet|].
  intros [oh|x] s1 [Hq1 Hh]; [|done]. subst oh. wp_step. wp_step; [|done]. rename a into h.
  wp_step. apply wp_zoom. eapply wp_mono; [apply saw_spec|]. intros [e|x] s2 [Hq2 Hs]; [|split_and!; [done|by trans s1|done]].
  assert (quiet t.2 s2) as Hq by (by trans s1). destruct Hs as [Hs _]. wp_step.
  - wp_step. split; [done|]. split; [done|]. destruct Hs as (Hst & _). exists h, (abs e). split; [done|]. split; [done|]. simpl.
    match goal with H : _ || _ = true |- _ => apply orb_prop in H; destruct H as [H|H] end; [left; by apply Z.ltb_lt|].
    match goal with H : _ && _ = true |- _ => apply andb_prop in H; destruct H as [He%Z.eqb_eq Ho%bool_decide_eq_true] end. right. by rewrite Ho.
  - wp_step. wp_step; [|done]. match goal with H : matches _ _ = true |- _ => apply matches_spec in H as [He Ho] end. wp_step. done.
Qed.

(** *** Reading before writing *)
Lemma enroll_check_spec (s : S) id : wp (enroll_check id) s (λ r s', quiet s s' ∧
  match r with
  | Ok (Some (h, e)) => heads s !! id = Some h ∧ saw id h e ∧ e_epoch e = 0 ∧ e_owner e = None
  | _ => True
  end).
Proof.
  rewrite /enroll_check. wp_step. wp_step; [|done]. wp_step. eapply wp_mono; [apply head_quiet|].
  intros [oh|x] s1 [Hq1 Hh]; [|done]. subst oh. wp_step. wp_step; [|done].
  wp_step. eapply wp_mono; [apply saw_spec|]. intros [e|x] s2 [Hq2 Hs]; [|split; [by trans s1|done]].
  wp_step; wp_step; (split; [by trans s1|]); [done|]. destruct Hs as [Hs Hz].
  match goal with H : negb (_ =? 0) = false |- _ => apply negb_false_iff, Z.eqb_eq in H; rename H into He end. auto.
Qed.

Lemma own_check_spec (s : S) id i : wp (own_check id i) s (λ r s', quiet s s' ∧
  match r with
  | Ok x => ∃ h m, heads s !! id = Some h ∧ x = Some (revision h) ∧ status id (manifest h) = Some (Live (i_epoch i) (Some (i_token i)) m)
  | Err _ => True
  end).
Proof.
  rewrite /own_check. wp_step. eapply wp_mono; [apply head_quiet|]. intros [oh|x] s1 [Hq1 Hh]; [|done]. subst oh. wp_step. wp_step; [|done].
  wp_step. eapply wp_mono; [apply saw_spec|]. intros [e|x] s2 [Hq2 Hs]; [|split; [by trans s1|done]]. assert (quiet s s2) as Hq by (by trans s1).
  wp_step. wp_step; [|done]. wp_step. split; [done|].
  match goal with H : matches _ _ = true |- _ => apply matches_spec in H as [He Ho] end. destruct Hs as [(Hst & _) _].
  rewrite /abs He Ho in Hst. eauto 6.
Qed.

(** A tombstone is sent for a volume that is absent or that nobody owns. *)
Lemma retire_check_spec (s : S) id : wp (retire_check id) s (λ r s', quiet s s' ∧
  match r with
  | Ok (Bury None) => heads s !! id = None
  | Ok (Bury (Some rev)) => ∃ h k m, heads s !! id = Some h ∧ rev = revision h ∧ status id (manifest h) = Some (Live k None m)
  | _ => True
  end).
Proof.
  rewrite /retire_check. wp_step. wp_step; [|done]. wp_step. eapply wp_mono; [apply head_quiet|].
  intros [oh|x] s1 [Hq1 Hh]; [|done]. subst oh. destruct (heads s !! id) as [h|] eqn:Hh; [|by wp_step].
  wp_step. wp_step. destruct (retired id h) as [dead|] eqn:Hd; [|done]. destruct dead; [by wp_step|]. wp_step. wp_step; [|done].
  rename a into v. match goal with H : value_from_slice _ = _ |- _ => rename H into Hv end.
  wp_step.
  - wp_step. eapply wp_mono; [apply saw_spec|]. intros [e|x] s2 [Hq2 Hs]; [|split; [by trans s1|done]]. wp_step. split; [by trans s1|].
    destruct (_ && _) eqn:E; [|done]. apply andb_prop in E as [_ Ho%bool_decide_eq_true]. destruct Hs as [(Hst & _) _].
    rewrite /abs Ho in Hst. eauto 6.
  - match goal with H : negb _ = false |- _ => apply negb_false_iff in H; rename H into Hf end.
    assert (status id (manifest h) = Some (Live 0 None v)) as Hst.
    { rewrite /status Hv /= /unwrap. destruct (value_format v) as [f|]; [|done].
      rewrite !bool_decide_false //; intros [= ->]; done. }
    wp_step. eapply (wp_mono _ _ (λ _ s', quiet s s')); [|intros [] s2 Hq; [wp_step|]; split; eauto 6].
    wp_step; [eapply wp_mono; [apply decode_head_quiet|]; intros r s2 [Hq2 _]; by trans s1|].
    wp_step. wp_step; [|done]. rewrite /Indexed.resume_import. wp_step. wp_step; [|done]. wp_step.
    eapply wp_mono; [apply head_quiet|]. intros [oh|x] s2 [Hq2 _]; [|by trans s1]. assert (quiet s s2) as Hq by (by trans s1).
    wp_step. wp_step; [|done]. wp_step. eapply wp_mono; [apply decode_head_quiet|]. intros [vol|x] s3 [Hq3 _]; [|by trans s2].
    wp_step. wp_step; [|by trans s2]. wp_step. by trans s2.
Qed.

Lemma bury_spec (s : S) id x : wp (bury id x) s (λ r s', sends id (λ x' m, x' = x ∧ status id m = Some Dead) s s').
Proof.
  rewrite /bury. wp_step. wp_step. destruct (tombstone id) as [b|] eqn:Hb; [|by left]. wp_step. wp_step.
  eapply wp_mono; [apply publish_sends|]. intros r s1 [Hlog Hr].
  assert (sends id (λ x' m, x' = x ∧ status id m = Some Dead) s s1) as Hs.
  { right. exists x, b. split; [by split; [|by apply tombstone_status]|]. split; [done|]. destruct r; [|done]. destruct Hr as (rev & Hp & _). eauto. }
  destruct r; [by wp_step|done].
Qed.

(** *** Opening *)
Definition random_ok (random : list Z) : Prop := Zlen random = 32 ∧ bytes random.
Lemma hash_random random : random_ok random → hash (hex random) = true.
Proof.
  intros [Hl Hb]. rewrite /hash /valid_hash. apply andb_true_intro. split; [|by apply hex_all].
  apply Nat.eqb_eq. rewrite length_hex. rewrite /Zlen in Hl. lia.
Qed.

Lemma identity_spec id random e fs : random_ok random → 0 ≤ e_epoch e →
  wp (identity id random e) fs (λ r _, match r with Ok i => ident_ok id i | Err _ => True end).
Proof.
  intros Hr He. rewrite /identity. wp_step. eapply wp_true; intros [known|] fs0; [|done]. wp_step.
  eapply (wp_mono _ _ (λ r _, match r with Ok i => ident_ok id i | Err _ => True end)).
  - wp_step.
    + rewrite /load_identity. wp_step. eapply wp_true; intros [f|] fs1; [|done]. wp_step. eapply wp_true; intros [u|] fs2; [|done].
      wp_step. wp_step. wp_step. wp_step; [|done]. wp_step. wp_step; [|done]. wp_step. wp_step; [|done]. wp_step.
      match goal with H : negb (_ || _ || _) = true |- _ => apply negb_true_iff in H; rewrite !orb_false_iff in H; destruct H as [[Hv Ht] Hne] end.
      split_and!; [by apply negb_false_iff, bool_decide_eq_true in Hv|by apply negb_false_iff in Ht|by apply Z.eqb_neq in Hne].
    + rewrite /new_identity. wp_step. wp_step; [|done]. wp_step. eapply wp_true; intros [u|] fs1; [|done]. wp_step. eapply wp_true; intros [u2|] fs2; [|done].
      wp_step. wp_step; [|done]. match goal with H : u64_checked_add _ _ = _ |- _ => apply u64_checked_add_Some in H as [-> _] end.
      wp_step. eapply wp_true; intros [f|] fs3; [|done]. wp_step. wp_step; [|done]. wp_step. eapply wp_true; intros [u3|] fs4; [|done].
      wp_step. eapply wp_true; intros [u4|] fs5; [|done]. wp_step. eapply wp_true; intros [u5|] fs6; [|done]. wp_step.
      split_and!; [done|by apply hash_random|simpl; lia].
  - intros [i|] fs1 Hi; [|done]. wp_step. eapply wp_true; intros [f|] fs2; [|done]. wp_step. eapply wp_true; intros [u|] fs3; [|done].
    wp_step. eapply wp_true; intros [u2|] fs4; [|done]. wp_step. eapply wp_true; intros [u3|] fs5; [|done].
    wp_step. eapply wp_true; intros [u4|] fs6; [|done]. by wp_step.
Qed.

Lemma prepare_spec id random retiring (s : S) fs : random_ok random → wp (prepare id random retiring) (s, fs) (λ r t, quiet s t.1 ∧
  match r with Ok (h, e, i) => heads s !! id = Some h ∧ saw id h e ∧ e_epoch e ≠ 0 ∧ ident_ok id i | Err _ => True end).
Proof.
  intros Hr. rewrite /prepare. wp_step. apply wp_zoom, wp_true. intros [gone|] fs0; [|done]. wp_step. wp_step; [|done]. wp_step. apply wp_zoom. eapply wp_mono; [apply head_quiet|].
  intros [oh|x] s1 [Hq1 Hh]; [|done]. subst oh. wp_step. wp_step; [|done]. wp_step. apply wp_zoom. eapply wp_mono; [apply saw_spec|].
  intros [e|x] s2 [Hq2 Hs]; [|split; [by trans s1|done]]. assert (quiet s s2) as Hq by (by trans s1). destruct Hs as [Hs _].
  wp_step. wp_step; [|done]. wp_step. apply wp_zoom. eapply wp_mono; [apply identity_spec; [done|apply Hs]|].
  intros [i|] fs1 Hi; [|done]. wp_step. split; [done|].
  match goal with H : negb (_ =? 0) = true |- _ => apply negb_true_iff, Z.eqb_neq in H end. done.
Qed.

Lemma lock_quiet id (s : S) fs : wp (lock id) (s, fs) (λ _ t, t.1 = s).
Proof.
  rewrite /lock. wp_step. wp_step; [|done]. wp_step. apply wp_zoom, wp_true. intros [u|] fs1; [|done]. wp_step. wp_step.
  wp_step. wp_step; [|done]. do 3 (wp_step; apply wp_zoom, wp_true; intros [?|] ?; [|done]).
  apply wp_zoom, wp_true. done.
Qed.

Lemma begin_open_spec id random retiring (s : S) fs : random_ok random → wp (begin_open id random retiring) (s, fs) (λ r t, quiet s t.1 ∧
  match r with Ok (h, e, i) => heads s !! id = Some h ∧ saw id h e ∧ e_epoch e ≠ 0 ∧ ident_ok id i | Err _ => True end).
Proof.
  intros Hr. rewrite /begin_open. wp_step. eapply wp_mono; [apply lock_quiet|]. intros [u|x] [s1 fs1]; simpl; intros ->; [|done]. wp_step. wp_step. eapply wp_mono; [by apply prepare_spec|].
  intros [p|x] t [Hq Hp]; [by wp_step|]. wp_step. apply wp_zoom. wp_step. by wp_step.
Qed.
End sends.

(** ** Toy documents *)
Module Toy.
Inductive Json := JRoot (r : Indexed.Root) | JEnvelope (f : Z) (v : string) (k : Z) (o : option string) (m : Indexed.Root)
  | JTombstone (f : Z) (v : string) (d : bool).
#[local] Existing Instance Base.BaseRef_eq_dec.
#[local] Existing Instance Indexed.Replication_eq_dec.
#[local] Instance BaseRef_countable : Countable Base.BaseRef :=
  inj_countable' (λ r, (Base.image r, Base.catalog r)) (λ '(a, b), Base.mkBaseRef a b) ltac:(by intros []).
#[local] Instance Replication_countable : Countable Indexed.Replication :=
  inj_countable' (λ r, (Indexed.rep_id r, Indexed.sequence r)) (λ '(a, b), Indexed.mkReplication a b) ltac:(by intros []).
#[export] Instance Root_eq_dec : EqDecision Indexed.Root.
Proof. solve_decision. Defined.
#[export] Instance Root_countable : Countable Indexed.Root :=
  inj_countable' (λ r, (Indexed.format r, Indexed.volume r, Indexed.size r, Indexed.generation r, Indexed.ready r, Indexed.pages r, Indexed.replication r, Indexed.base r))
    (λ '(a, b, c, d, e, f, g, h), Indexed.mkRoot a b c d e f g h) ltac:(by intros []).
#[export] Instance Json_eq_dec : EqDecision Json.
Proof. solve_decision. Defined.
#[export] Instance Json_countable : Countable Json :=
  inj_countable' (λ j, match j with JRoot r => inl (inl r) | JEnvelope f v k o m => inl (inr (f, v, k, o, m)) | JTombstone f v d => inr (f, v, d) end)
    (λ x, match x with inl (inl r) => JRoot r | inl (inr (f, v, k, o, m)) => JEnvelope f v k o m | inr (f, v, d) => JTombstone f v d end)
    ltac:(by intros []).
#[export] Instance Identity_eq_dec : EqDecision Identity.
Proof. solve_decision. Defined.
#[export] Instance Identity_countable : Countable Identity :=
  inj_countable' (λ i, (i_volume i, i_token i, i_epoch i)) (λ '(a, b, c), mkIdentity a b c) ltac:(by intros []).

Definition write (j : Json) : list Z := BitJson.bits (countable.encode j).
Definition read (b : list Z) : option Json := countable.decode (BitJson.unbits b).
Lemma read_write j : read (write j) = Some j.
Proof. rewrite /read /write BitJson.unbits_bits. apply decode_encode. Qed.

#[export] Instance root_json : ObjectStore.Json Indexed.Root := {|
  to_vec r := Some (write (JRoot r));
  from_slice b := match read b with Some (JRoot r) => Some r | _ => None end;
|}.
#[export] Instance identity_json : ObjectStore.Json Identity := {|
  to_vec i := let b := BitJson.bits (countable.encode i) in if Zlen b <=? 4096 then Some b else None;
  from_slice b := countable.decode (BitJson.unbits b);
|}.
#[export] Instance serde : Serde := {|
  Value := Json;
  value_to_vec j := Some (write j);
  value_from_slice := read;
  value_format j := Some (match j with JRoot r => Indexed.format r | JEnvelope f _ _ _ _ => f | JTombstone f _ _ => f end);
  value_ready j := match j with JRoot r => Indexed.ready r | _ => false end;
  value_size j := match j with JRoot r => Some (Indexed.size r) | _ => None end;
  envelope_to_vec e := match e_manifest e with
    | JRoot m => if 0 <=? e_epoch e then Some (write (JEnvelope (e_format e) (e_volume e) (e_epoch e) (e_owner e) m)) else None
    | _ => None end;
  envelope_from_value j := match j with
    | JEnvelope f v k o m => if 0 <=? k then Some (mkEnvelope f v k o (JRoot m)) else None
    | _ => None end;
  tombstone_to_vec t := Some (write (JTombstone (t_format t) (t_volume t) (t_deleted t)));
  tombstone_from_value j := match j with JTombstone f v d => Some (mkTombstone f v d) | _ => None end;
|}.
#[export] Instance serde_laws : SerdeLaws.
Proof.
  split; simpl.
  - intros [f v k o m] b. simpl. destruct m as [r| |]; [|done|done]. destruct (0 <=? k) eqn:Hk; [|done]. intros [= <-].
    exists (JEnvelope f v k o r). rewrite read_write /= Hk. done.
  - intros [r|f v k o m|f v d] e; [done| |done]. destruct (0 <=? k); [|done]. by intros [= <-].
  - intros [r|f v k o m|f v d] e; [done| |done]. destruct (Z.leb_spec 0 k); [|done]. by intros [= <-].
  - intros [f v d] b [= <-]. exists (JTombstone f v d). by rewrite read_write.
  - intros v b r [= <-]. rewrite read_write. destruct v; [|done..]. by intros [= ->].
  - intros i b. simpl. case_match; [|done]. intros [= <-]. rewrite BitJson.unbits_bits. apply countable.decode_encode.
  - intros i b. simpl. destruct (Z.leb_spec (Zlen (BitJson.bits (countable.encode i))) 4096); [|done]. by intros [= <-].
Qed.
End Toy.
End Fencing.
