(* ===== verification/Ownership.v ===== *)
(** Ownership as a protocol: any number of hosts with their directories, processes
    and crashes, one object store, and requests that the network may deliver late or
    twice.  The head of the volume follows the abstract machine, and only the current
    owner changes the disk. *)
From S2P Require Import Prelude Codec ObjectStore Base Indexed IndexedApi Files Owned Fencing.

Module Ownership.
Import Files Owned Fencing.

Section system.
Context {T : Type} {SHA : Sha256} {OT : ObjectStore T} {JR : Json Indexed.Root} {SJ : Serde}.
Context {SV : StoreView T} {OSL : ObjectStoreLaws T} {SL : SerdeLaws}.
Abbreviation S := (T * list Request)%type.

(** ** The system *)
(** A process, where it stands between two requests to the store; [n] is its host.
    [POpen] is a running owner: [known] are the revisions that its store returned. *)
Inductive Proc :=
| PClaim (n : nat) (retiring : bool) (h : Head) (e : Envelope Value) (i : Identity)
| POpen (n : nat) (retiring act : bool) (i : Identity) (known : gset string)
| PRelease (n : nat) (i : Identity) (h : Head) (e : Envelope Value) (known : gset string)
| PBuryOwn (n : nat) (i : Identity) (expected : option string)
| PEnroll (h : Head) (e : Envelope Value)
| PBury (expected : option string).
Definition on_host (n : nat) (p : Proc) : bool :=
  match p with
  | PClaim m _ _ _ _ | POpen m _ _ _ _ | PRelease m _ _ _ _ | PBuryOwn m _ _ => (m =? n)%nat
  | PEnroll _ _ | PBury _ => false
  end.

(** [hist] is what the heads so far contained. *)
Record World := mkWorld { store : S; hist : gmap string (list Z); dirs : gmap nat Fs; procs : gmap nat Proc }.
Definition record_head (id : string) (H : gmap string (list Z)) (s : S) : gmap string (list Z) :=
  match heads s !! id with Some h => <[revision h := manifest h]> H | None => H end.
(** A revision names one content. *)
Definition named (id : string) (H : gmap string (list Z)) (s : S) : Prop :=
  ∀ h, heads s !! id = Some h → H !! revision h = None ∨ H !! revision h = Some (manifest h).
Definition set_world (id : string) (w : World) (s : S) (d : gmap nat Fs) (p : gmap nat Proc) : World :=
  mkWorld s (record_head id (hist w) s) d p.
Definition known_rev (rev : string) : gset string := if bool_decide (rev = ""%string) then ∅ else {[rev]}.

(** One atomic step of a process, of the network or of a host; the operations read
    first and send later, with other steps in between. *)
Inductive step (id : string) (w : World) : World → Prop :=
| st_begin p n random retiring fs r s' fs' : dirs w !! n = Some fs → random_ok random →
    begin_open id random retiring (store w, fs) = (r, (s', fs')) → named id (hist w) s' →
    step id w (set_world id w s' (<[n := fs']> (dirs w))
      (match r with Ok (h, e, i) => <[p := PClaim n retiring h e i]> (procs w) | Err _ => procs w end))
| st_claim p n retiring h e i r s' : procs w !! p = Some (PClaim n retiring h e i) →
    claim id h e i (store w) = (r, s') → named id (hist w) s' →
    step id w (set_world id w s' (if is_ok r then dirs w else alter unlock n (dirs w))
      (if is_ok r then <[p := POpen n retiring true i ∅]> (procs w) else delete p (procs w)))
| st_head p n act i known r act' s' : procs w !! p = Some (POpen n false act i known) →
    owned_head id i id (act, store w) = (r, (act', s')) → named id (hist w) s' →
    step id w (set_world id w s' (dirs w)
      (match r with Ok (Some h) => <[p := POpen n false act i ({[revision h]} ∪ known)]> (procs w) | _ => procs w end))
| st_publish p n act i known rev m cancel r act' s' : procs w !! p = Some (POpen n false act i known) → rev ∈ known →
    (∀ s : S, quiet s (cancel s).2) →
    owned_publish_cancellable id i id (Some rev) m cancel (act, store w) = (r, (act', s')) → named id (hist w) s' →
    step id w (set_world id w s' (dirs w)
      (match r with Ok rev' => <[p := POpen n false act i (known_rev rev' ∪ known)]> (procs w) | _ => procs w end))
| st_release p n act i known r act' s' : procs w !! p = Some (POpen n false act i known) →
    release_check id i (act, store w) = (r, (act', s')) → named id (hist w) s' →
    step id w (set_world id w s' (dirs w)
      (<[p := match r with Ok (Some (h, e)) => PRelease n i h e known | _ => POpen n false act' i known end]> (procs w)))
| st_released p n i h e known r s' : procs w !! p = Some (PRelease n i h e known) →
    replace_head id h (released e) (store w) = (r, s') → named id (hist w) s' →
    step id w (set_world id w s' (dirs w) (<[p := POpen n false false i known]> (procs w)))
| st_own_check p n act i known r s' : procs w !! p = Some (POpen n true act i known) →
    own_check id i (store w) = (r, s') → named id (hist w) s' →
    step id w (set_world id w s' (if is_ok r then dirs w else alter unlock n (dirs w))
      (match r with Ok x => <[p := PBuryOwn n i x]> (procs w) | Err _ => delete p (procs w) end))
| st_bury_own p n i x r s' : procs w !! p = Some (PBuryOwn n i x) →
    bury id x (store w) = (r, s') → named id (hist w) s' →
    step id w (set_world id w s' (alter unlock n (dirs w)) (delete p (procs w)))
| st_enroll_check p r s' : enroll_check id (store w) = (r, s') → named id (hist w) s' →
    step id w (set_world id w s' (dirs w) (match r with Ok (Some (h, e)) => <[p := PEnroll h e]> (procs w) | _ => procs w end))
| st_enroll p h e r s' : procs w !! p = Some (PEnroll h e) →
    replace_head id h (enrolled e) (store w) = (r, s') → named id (hist w) s' →
    step id w (set_world id w s' (dirs w) (delete p (procs w)))
| st_retire_check p r s' : retire_check id (store w) = (r, s') → named id (hist w) s' →
    step id w (set_world id w s' (dirs w) (match r with Ok (Bury x) => <[p := PBury x]> (procs w) | _ => procs w end))
| st_bury p x r s' : procs w !! p = Some (PBury x) →
    bury id x (store w) = (r, s') → named id (hist w) s' →
    step id w (set_world id w s' (dirs w) (delete p (procs w)))
| st_exit p n : (∀ x, procs w !! p = Some x → on_host n x = true) →
    step id w (mkWorld (store w) (hist w) (alter unlock n (dirs w)) (delete p (procs w)))
| st_crash n fs fs' : dirs w !! n = Some fs → crashed fs fs' →
    step id w (mkWorld (store w) (hist w) (<[n := fs']> (dirs w)) (filter (λ x, on_host n x.2 = false) (procs w)))
(* a request that was sent takes effect later, or once more *)
| st_late q rev s' : q ∈ (store w).2 → q_id q = id → published (store w) s' id (q_expected q) rev (q_bytes q) → s'.2 = (store w).2 →
    named id (hist w) s' → step id w (set_world id w s' (dirs w) (procs w))
(* requests on objects and on other volumes *)
| st_objects s' : heads s' !! id = heads (store w) !! id → s'.2 = (store w).2 → named id (hist w) s' →
    step id w (set_world id w s' (dirs w) (procs w)).

(** *** The invariant *)
Definition at_head (id : string) (H : gmap string (list Z)) (rev : string) (a : Status Value) : Prop :=
  ∃ m, H !! rev = Some m ∧ status id m = Some a.
Definition sound (id : string) (H : gmap string (list Z)) (x : option string) (m : list Z) : Prop :=
  ∃ rev a b who, x = Some rev ∧ at_head id H rev a ∧ status id m = Some b ∧ move who a b.
Definition evolves : relation (Status Value) := rtc (λ a b, ∃ who, move who a b).
Definition core (id : string) (x0 : Status Value) (H : gmap string (list Z)) (s : S) : Prop :=
  (∃ h a, heads s !! id = Some h ∧ H !! revision h = Some (manifest h) ∧ status id (manifest h) = Some a ∧ evolves x0 a) ∧
  ∀ q, q ∈ s.2 → q_id q = id → sound id H (q_expected q) (q_bytes q).
Definition owner_state (i : Identity) (m : Value) : Status Value := Live (i_epoch i) (Some (i_token i)) m.
Definition proc_ok (id : string) (H : gmap string (list Z)) (p : Proc) : Prop :=
  match p with
  | PClaim _ _ h e i => H !! revision h = Some (manifest h) ∧ saw id h e ∧ e_epoch e ≠ 0 ∧ ident_ok id i
  | POpen _ _ _ i known => ident_ok id i ∧ ∀ rev, rev ∈ known → ∃ m, at_head id H rev (owner_state i m)
  | PRelease _ i h e known => ident_ok id i ∧ (∀ rev, rev ∈ known → ∃ m, at_head id H rev (owner_state i m)) ∧
      H !! revision h = Some (manifest h) ∧ saw id h e ∧ e_epoch e = i_epoch i ∧ e_owner e = Some (i_token i)
  | PBuryOwn _ i x => ∃ rev m, x = Some rev ∧ at_head id H rev (owner_state i m)
  | PEnroll h e => H !! revision h = Some (manifest h) ∧ saw id h e ∧ e_epoch e = 0 ∧ e_owner e = None
  | PBury x => ∃ rev k m, x = Some rev ∧ at_head id H rev (Live k None m)
  end.
Definition inv (id : string) (x0 : Status Value) (w : World) : Prop :=
  core id x0 (hist w) (store w) ∧ ∀ p x, procs w !! p = Some x → proc_ok id (hist w) x.

Lemma record_grows id H s : named id H s → H ⊆ record_head id H s.
Proof.
  intros Hn. rewrite /record_head. destruct (heads s !! id) as [h|] eqn:Hh; [|done]. destruct (Hn h Hh) as [E|E]; [by apply insert_subseteq|].
  by rewrite insert_id.
Qed.
Lemma at_head_mono id H H' rev a : H ⊆ H' → at_head id H rev a → at_head id H' rev a.
Proof. intros Hs (m & Hm & Hst). exists m. split; [by eapply lookup_weaken|done]. Qed.
Lemma sound_mono id H H' x m : H ⊆ H' → sound id H x m → sound id H' x m.
Proof. intros Hs (rev & a & b & who & ? & Ha & ?). exists rev, a, b, who. split_and!; try done. by eapply at_head_mono. by destruct_and?. by destruct_and?. Qed.
Lemma proc_ok_mono id H H' p : H ⊆ H' → proc_ok id H p → proc_ok id H' p.
Proof.
  intros Hs. destruct p; simpl; intros Hp.
  - destruct Hp as (Hh & Hp). split; [by eapply lookup_weaken|done].
  - destruct Hp as (Hi & Hk). split; [done|]. intros rev Hrev. destruct (Hk rev Hrev) as [m Hm]. exists m. by eapply at_head_mono.
  - destruct Hp as (Hi & Hk & Hh & Hp). split; [done|]. split; [|split; [by eapply lookup_weaken|done]].
    intros rev Hrev. destruct (Hk rev Hrev) as [m Hm]. exists m. by eapply at_head_mono.
  - destruct Hp as (rev & m & ? & Hm). exists rev, m. split; [done|]. by eapply at_head_mono.
  - destruct Hp as (Hh & Hp). split; [by eapply lookup_weaken|done].
  - destruct Hp as (rev & k & m & ? & Hm). exists rev, k, m. split; [done|]. by eapply at_head_mono.
Qed.

(** A head that is replaced follows the machine. *)
Lemma core_published id x0 H (s s' : S) x rev m : core id x0 H s → sound id H x m → published s s' id x rev m →
  (∀ q, q ∈ s'.2 → q_id q = id → sound id H (q_expected q) (q_bytes q)) → named id H s' → core id x0 (record_head id H s') s'.
Proof.
  intros [(h & a & Hh & HH & Hst & Hev) _] (rev0 & a' & b & who & -> & (m0 & Hm0 & Hst0) & Hb & Hmv) (Hrev & _ & Hp) Hq Hn.
  pose proof (record_grows id H s' Hn) as Hg. split; [|intros q Hin Hid; eapply sound_mono; [done|by apply Hq]].
  rewrite Hh in Hrev. injection Hrev as <-. simplify_eq.
  assert (heads s' !! id = Some (mkHead rev m)) as Hh' by (by rewrite Hp lookup_insert_eq).
  exists (mkHead rev m), b. split; [done|]. split; [by rewrite /record_head Hh' lookup_insert_eq|]. split; [done|].
  eapply rtc_r; [exact Hev|]. by exists who.
Qed.

Lemma core_same id x0 H (s s' : S) : core id x0 H s → heads s' !! id = heads s !! id →
  (∀ q, q ∈ s'.2 → q_id q = id → sound id H (q_expected q) (q_bytes q)) → named id H s' → core id x0 (record_head id H s') s'.
Proof.
  intros [(h & a & Hh & HH & Hst & Hev) _] E Hq Hn. pose proof (record_grows id H s' Hn) as Hg.
  split; [|intros q Hin Hid; eapply sound_mono; [done|by apply Hq]]. exists h, a. split; [congruence|]. split; [by eapply lookup_weaken|done].
Qed.

Lemma core_sends id x0 H (s s' : S) (Q : option string → list Z → Prop) : core id x0 H s → sends id Q s s' → (∀ x m, Q x m → sound id H x m) →
  named id H s' → core id x0 (record_head id H s') s'.
Proof.
  intros Hc [[(_ & Hh & _) Hl]|(x & m & HQ & Hl & Hh)] HQs Hn; pose proof (proj2 Hc) as Hlog.
  - eapply core_same; [done|by rewrite Hh| |done]. by rewrite Hl.
  - assert (∀ q, q ∈ s'.2 → q_id q = id → sound id H (q_expected q) (q_bytes q)) as Hq.
    { rewrite Hl. intros q [->|Hin]%elem_of_cons Hid; [by apply HQs|by apply Hlog]. }
    destruct Hh as [Hh|[rev Hp]]; [eapply core_same; [done|by rewrite Hh|done|done]|]. eapply core_published; [done|by apply HQs|done..].
Qed.

Lemma inv_intro id x0 w s' d (Q : option string → list Z → Prop) ps : inv id x0 w → sends id Q (store w) s' →
  (∀ x m, Q x m → sound id (hist w) x m) → named id (hist w) s' →
  (∀ p x, ps !! p = Some x → procs w !! p = Some x ∨ proc_ok id (record_head id (hist w) s') x) → inv id x0 (set_world id w s' d ps).
Proof.
  intros [Hc Hp] Hs HQ Hn Hps. split; [by eapply core_sends|]. intros p x Hx. destruct (Hps p x Hx) as [Ho|?]; [|done].
  eapply proc_ok_mono; [by apply record_grows|]. by eapply Hp.
Qed.

Lemma head_known id x0 w h : inv id x0 w → heads (store w) !! id = Some h → hist w !! revision h = Some (manifest h).
Proof. intros [[(h' & a & Hh & HH & _) _] _] E. congruence. Qed.
Lemma head_recorded id x0 w s' h : inv id x0 w → named id (hist w) s' → heads (store w) !! id = Some h →
  record_head id (hist w) s' !! revision h = Some (manifest h).
Proof. intros Hi Hn Hh. eapply lookup_weaken; [by eapply head_known|by apply record_grows]. Qed.

(** The process table after a step of one process. *)
Lemma procs_insert id H (ps : gmap nat Proc) k y : proc_ok id H y → ∀ p x, <[k := y]> ps !! p = Some x → ps !! p = Some x ∨ proc_ok id H x.
Proof. intros Hy p x. rewrite lookup_insert_Some. intros [[<- <-]|[_ ?]]; auto. Qed.
Lemma procs_delete id H (ps : gmap nat Proc) k : ∀ p x, delete k ps !! p = Some x → ps !! p = Some x ∨ proc_ok id H x.
Proof. intros p x. rewrite lookup_delete_Some. intros [_ ?]. auto. Qed.

Lemma sound_move id H rev a m b who : at_head id H rev a → status id m = Some b → move who a b → sound id H (Some rev) m.
Proof. intros Ha Hb Hm. by exists rev, a, b, who. Qed.
Lemma saw_at id H h e : H !! revision h = Some (manifest h) → saw id h e → at_head id H (revision h) (abs e).
Proof. intros Hh (Hst & _). by exists (manifest h). Qed.

Lemma inv_begin id x0 w n random retiring fs r s' fs' p d : inv id x0 w → random_ok random →
  begin_open id random retiring (store w, fs) = (r, (s', fs')) → named id (hist w) s' →
  inv id x0 (set_world id w s' d (match r with Ok (h, e, i) => <[p := PClaim n retiring h e i]> (procs w) | Err _ => procs w end)).
Proof.
  intros Hi Hr Hrun Hn. eapply wp_run in Hrun; [|by apply begin_open_spec]. destruct Hrun as [Hq Hrun].
  apply (inv_intro _ _ _ _ _ (λ _ _, False)); [done|by left|done|done|]. destruct r as [[[h e] i]|]; [|by left]. apply procs_insert.
  destruct Hrun as (Hh & Hs & Hne & Hid). split; [by eapply head_recorded|done].
Qed.

Lemma inv_claim id x0 w p n retiring h e i r s' d : inv id x0 w → procs w !! p = Some (PClaim n retiring h e i) →
  claim id h e i (store w) = (r, s') → named id (hist w) s' →
  inv id x0 (set_world id w s' d (if is_ok r then <[p := POpen n retiring true i ∅]> (procs w) else delete p (procs w))).
Proof.
  intros Hi Hp Hrun Hn. destruct (proj2 Hi p _ Hp) as (Hh & Hs & Hne & Hid).
  eapply wp_run in Hrun; [|by apply claim_sends]. destruct Hrun as [Hsend _].
  eapply inv_intro; [done|exact Hsend| |done|].
  - intros x m (-> & a & b & Ha & Hb & Hm). eapply sound_move; [|done..]. by exists (manifest h).
  - destruct r; simpl; [apply procs_insert; split; [done|intros rev Hr; set_solver]|apply procs_delete].
Qed.

Lemma inv_head id x0 w p n act i known r act' s' d : inv id x0 w → procs w !! p = Some (POpen n false act i known) →
  owned_head id i id (act, store w) = (r, (act', s')) → named id (hist w) s' →
  inv id x0 (set_world id w s' d
    (match r with Ok (Some h) => <[p := POpen n false act i ({[revision h]} ∪ known)]> (procs w) | _ => procs w end)).
Proof.
  intros Hi Hp Hrun Hn. destruct (proj2 Hi p _ Hp) as (Hid & Hk).
  eapply wp_run in Hrun; [|by apply owned_head_spec]. simpl in Hrun. destruct Hrun as (_ & Hq & Hrun).
  apply (inv_intro _ _ _ _ _ (λ _ _, False)); [done|by left|done|done|]. destruct r as [[h|]|]; [|by left|by left]. apply procs_insert.
  destruct Hrun as (_ & h0 & m & Hh & Hr & _ & Hst). split; [done|]. intros rev [->%elem_of_singleton|Hin]%elem_of_union.
  - exists m, (manifest h0). split; [|done]. rewrite Hr. by eapply head_recorded.
  - destruct (Hk rev Hin) as [m' Hm']. exists m'. eapply at_head_mono; [by apply record_grows|done].
Qed.

Lemma inv_publish id x0 w p n act i known rev m cancel r act' s' d : inv id x0 w → procs w !! p = Some (POpen n false act i known) →
  rev ∈ known → (∀ s : S, quiet s (cancel s).2) →
  owned_publish_cancellable id i id (Some rev) m cancel (act, store w) = (r, (act', s')) → named id (hist w) s' →
  inv id x0 (set_world id w s' d
    (match r with Ok rev' => <[p := POpen n false act i (known_rev rev' ∪ known)]> (procs w) | _ => procs w end)).
Proof.
  intros Hi Hp Hrev Hc Hrun Hn. destruct (proj2 Hi p _ Hp) as (Hid & Hk).
  eapply wp_run in Hrun; [|by apply owned_publish_spec]. simpl in Hrun. destruct Hrun as (_ & _ & Hsend & Hr).
  eapply inv_intro; [done|exact Hsend| |done|].
  - intros x b (-> & _ & mp & Hst). destruct (Hk rev Hrev) as [m0 Hm0]. eapply sound_move; [done..|]. apply mv_write.
  - destruct r as [rev'|]; [|by left]. apply procs_insert. split; [done|]. intros rv [Hrv|Hin]%elem_of_union.
    + rewrite /known_rev in Hrv. case_bool_decide; [by apply not_elem_of_empty in Hrv|]. apply elem_of_singleton in Hrv as ->.
      destruct Hr as [_ [|(b & mp & Hh & Hst)]]; [done|]. exists mp, b. split; [|done].
      by rewrite /record_head Hh lookup_insert_eq.
    + destruct (Hk rv Hin) as [m' Hm']. exists m'. eapply at_head_mono; [by apply record_grows|done].
Qed.

Lemma inv_release id x0 w p n act i known r act' s' d : inv id x0 w → procs w !! p = Some (POpen n false act i known) →
  release_check id i (act, store w) = (r, (act', s')) → named id (hist w) s' →
  inv id x0 (set_world id w s' d
    (<[p := match r with Ok (Some (h, e)) => PRelease n i h e known | _ => POpen n false act' i known end]> (procs w))).
Proof.
  intros Hi Hp Hrun Hn. pose proof (proj2 Hi p _ Hp) as Hpo. pose proof Hpo as (Hid & Hk).
  eapply wp_run in Hrun; [|by apply release_check_spec]. simpl in Hrun. destruct Hrun as (_ & Hq & Hr).
  apply (inv_intro _ _ _ _ _ (λ _ _, False)); [done|by left|done|done|]. apply procs_insert.
  pose proof (proc_ok_mono id _ _ _ (record_grows _ _ _ Hn) Hpo) as (_ & Hk').
  destruct r as [[[h e]|]|]; [|done|done]. destruct Hr as (Hh & Hs & He & Ho). split; [done|]. split; [done|]. split; [by eapply head_recorded|done].
Qed.

Lemma inv_released id x0 w p n i h e known r s' d : inv id x0 w → procs w !! p = Some (PRelease n i h e known) →
  replace_head id h (released e) (store w) = (r, s') → named id (hist w) s' →
  inv id x0 (set_world id w s' d (<[p := POpen n false false i known]> (procs w))).
Proof.
  intros Hi Hp Hrun Hn. destruct (proj2 Hi p _ Hp) as (Hid & Hk & Hh & Hs & He & Ho). pose proof Hs as (Hst & Hf & Hv & _ & _).
  eapply wp_run in Hrun; [|apply replace_head_spec; simpl; try done; rewrite He; apply Hid]. destruct Hrun as [Hsend _].
  eapply inv_intro; [done|exact Hsend| |done|].
  - intros x m [-> Hm]. eapply sound_move; [by eapply saw_at|done|]. rewrite /abs /= Ho. apply mv_release.
  - apply procs_insert. split; [done|]. intros rv Hin. destruct (Hk rv Hin) as [m' Hm']. exists m'. eapply at_head_mono; [by apply record_grows|done].
Qed.

Lemma inv_own_check id x0 w p n act i known r s' d : inv id x0 w → procs w !! p = Some (POpen n true act i known) →
  own_check id i (store w) = (r, s') → named id (hist w) s' →
  inv id x0 (set_world id w s' d (match r with Ok x => <[p := PBuryOwn n i x]> (procs w) | Err _ => delete p (procs w) end)).
Proof.
  intros Hi Hp Hrun Hn. eapply wp_run in Hrun; [|by apply own_check_spec]. destruct Hrun as [Hq Hr].
  apply (inv_intro _ _ _ _ _ (λ _ _, False)); [done|by left|done|done|]. destruct r as [x|]; [apply procs_insert|apply procs_delete].
  destruct Hr as (h & m & Hh & -> & Hst). exists (revision h), m. split; [done|]. exists (manifest h). split; [by eapply head_recorded|done].
Qed.

Lemma inv_bury_sound id x0 w s' d ps who a rev : inv id x0 w → at_head id (hist w) rev a → move who a Dead →
  sends id (λ x' m, x' = Some rev ∧ status id m = Some Dead) (store w) s' → named id (hist w) s' →
  (∀ p x, ps !! p = Some x → procs w !! p = Some x) → inv id x0 (set_world id w s' d ps).
Proof.
  intros Hi Ha Hm Hsend Hn Hps. eapply inv_intro; [done|exact Hsend| |done|by left; apply Hps].
  intros x m [-> Hst]. by eapply sound_move.
Qed.

Lemma inv_retire_check id x0 w p r s' d : inv id x0 w → retire_check id (store w) = (r, s') → named id (hist w) s' →
  inv id x0 (set_world id w s' d (match r with Ok (Bury x) => <[p := PBury x]> (procs w) | _ => procs w end)).
Proof.
  intros Hi Hrun Hn. eapply wp_run in Hrun; [|by apply retire_check_spec]. destruct Hrun as [Hq Hr].
  apply (inv_intro _ _ _ _ _ (λ _ _, False)); [done|by left|done|done|]. destruct r as [[|x|]|]; [by left| |by left..]. apply procs_insert.
  destruct x as [rev|].
  - destruct Hr as (h & k & m & Hh & -> & Hst). exists (revision h), k, m. split; [done|]. exists (manifest h). split; [by eapply head_recorded|done].
  - destruct Hi as [[(h & _ & Hh & _) _] _]. congruence.
Qed.

Lemma inv_enroll_check id x0 w p r s' d : inv id x0 w → enroll_check id (store w) = (r, s') → named id (hist w) s' →
  inv id x0 (set_world id w s' d (match r with Ok (Some (h, e)) => <[p := PEnroll h e]> (procs w) | _ => procs w end)).
Proof.
  intros Hi Hrun Hn. eapply wp_run in Hrun; [|by apply enroll_check_spec]. destruct Hrun as [Hq Hr].
  apply (inv_intro _ _ _ _ _ (λ _ _, False)); [done|by left|done|done|]. destruct r as [[[h e]|]|]; [|by left..]. apply procs_insert.
  destruct Hr as (Hh & Hr). split; [by eapply head_recorded|done].
Qed.

Lemma inv_enroll id x0 w p h e r s' d : inv id x0 w → procs w !! p = Some (PEnroll h e) →
  replace_head id h (enrolled e) (store w) = (r, s') → named id (hist w) s' → inv id x0 (set_world id w s' d (delete p (procs w))).
Proof.
  intros Hi Hp Hrun Hn. destruct (proj2 Hi p _ Hp) as (Hh & Hs & He & Ho). pose proof Hs as (Hst & Hf & Hv & Hoo & _).
  eapply wp_run in Hrun; [|by apply replace_head_spec]. destruct Hrun as [Hsend _].
  eapply inv_intro; [done|exact Hsend| |done|apply procs_delete].
  intros x m [-> Hm]. eapply sound_move; [by eapply saw_at|done|]. rewrite /abs /= Ho He. apply mv_enroll.
Qed.

Lemma inv_late id x0 w q rev s' d : inv id x0 w → q ∈ (store w).2 → q_id q = id →
  published (store w) s' id (q_expected q) rev (q_bytes q) → s'.2 = (store w).2 → named id (hist w) s' →
  inv id x0 (set_world id w s' d (procs w)).
Proof.
  intros [Hc Hp] Hin Hid Hpub Hl Hn. pose proof (proj2 Hc) as Hlog. split.
  - eapply core_published; [done|by apply Hlog|done| |done]. by rewrite Hl.
  - intros p x Hx. eapply proc_ok_mono; [by apply record_grows|]. by eapply Hp.
Qed.

(** Every step keeps the invariant. *)
Lemma inv_step id x0 w w' : inv id x0 w → step id w w' → inv id x0 w'.
Proof.
  intros Hi Hs. destruct Hs.
  - by eapply inv_begin.
  - by eapply inv_claim.
  - by eapply inv_head.
  - by eapply inv_publish.
  - by eapply inv_release.
  - by eapply inv_released.
  - by eapply inv_own_check.
  - destruct (proj2 Hi p _ H) as (rev & m & -> & Ha). pose proof (bury_spec (store w) id (Some rev)) as Hb.
    eapply wp_run in Hb; [|done]. eapply inv_bury_sound; [done|exact Ha|apply mv_bury_own|exact Hb|done|]. intros q y [_ ?]%lookup_delete_Some. done.
  - by eapply inv_enroll_check.
  - by eapply inv_enroll.
  - by eapply inv_retire_check.
  - destruct (proj2 Hi p _ H) as (rev & k & m & -> & Ha). pose proof (bury_spec (store w) id (Some rev)) as Hb.
    eapply wp_run in Hb; [|done]. eapply inv_bury_sound; [done|exact Ha|apply mv_bury|exact Hb|done|]. intros q y [_ ?]%lookup_delete_Some. done.
  - split; [apply Hi|]. cbn [procs hist]. intros q y [_ Hy]%lookup_delete_Some. by eapply Hi.
  - split; [apply Hi|]. cbn [procs hist]. intros q y [Hy _]%map_lookup_filter_Some. by eapply Hi.
  - by eapply inv_late.
  - split; [by eapply core_same; [apply Hi|done|rewrite H0; apply Hi|done]|]. intros p x Hx.
    eapply proc_ok_mono; [by apply record_grows|]. by eapply Hi.
Qed.

Lemma inv_run id x0 w w' : inv id x0 w → rtc (step id) w w' → inv id x0 w'.
Proof. intros Hi Hs. induction Hs as [|w w1 w2 Hs _ IH]; [done|]. by apply IH, (inv_step id x0 w). Qed.

(** The invariant from the present status on. *)
Lemma inv_from id x0 w : inv id x0 w → ∃ h a, heads (store w) !! id = Some h ∧ status id (manifest h) = Some a ∧ evolves x0 a ∧ inv id a w.
Proof.
  intros [[(h & a & Hh & HH & Hst & Hev) Hl] Hp]. exists h, a. split_and!; try done. split; [|done]. split; [|done].
  exists h, a. by split_and!.
Qed.

Lemma evolves_over k t (a b : Status Value) : over k t a → evolves a b → over k t b.
Proof. intros Ho Hs. induction Hs as [|a b c [who Hm] _ IH]; [done|]. apply IH. by eapply move_over. Qed.

Definition initial (id : string) (x0 : Status Value) (w : World) : Prop :=
  ∃ h, heads (store w) !! id = Some h ∧ hist w = {[revision h := manifest h]} ∧ status id (manifest h) = Some x0 ∧
    (store w).2 = [] ∧ procs w = ∅.
Lemma inv_initial id x0 w : initial id x0 w → inv id x0 w.
Proof.
  intros (h & Hh & HH & Hst & Hl & Hp). split; [split|].
  - exists h, x0. rewrite HH lookup_singleton_eq. done.
  - rewrite Hl. intros q Hq. by apply not_elem_of_nil in Hq.
  - rewrite Hp. intros p x Hx. by apply lookup_empty_Some in Hx.
Qed.

(** The status of the volume. *)
Definition stands (id : string) (w : World) (x : Status Value) : Prop :=
  ∃ h, heads (store w) !! id = Some h ∧ status id (manifest h) = Some x.

(** ** Properties *)
(** C38: the protocol implements the machine of epochs.  Whatever the hosts, their
    crashes and reopenings, the faults of the store and of the directories, and the
    requests that arrive late or twice, the head of the volume moves only by
    enrollment, by claims of an unowned volume, by writes and the release of the
    current owner, and by its retirement. *)
Theorem ownership_machine (id : string) (x0 : Status Value) (w0 w1 w2 : World) :
  initial id x0 w0 → rtc (step id) w0 w1 → rtc (step id) w1 w2 →
  ∃ x1 x2, stands id w1 x1 ∧ stands id w2 x2 ∧ evolves x0 x1 ∧ evolves x1 x2.
Proof.
  intros Hi%inv_initial H1 H2. eapply inv_run in H1; [|exact Hi]. apply inv_from in H1 as (h1 & a1 & Hh1 & Hst1 & Hev1 & Hi1).
  eapply inv_run in H2; [|exact Hi1]. destruct H2 as [[(h2 & a2 & Hh2 & _ & Hst2 & Hev2) _] _].
  exists a1, a2. split_and!; [by exists h1|by exists h2|done|done].
Qed.

(** C39: a fenced owner cannot write.  Once the epoch of an owner is over (released,
    claimed by the next, or the volume retired), whatever happens since: a process
    that still runs with that identity gets an error from every publication, which
    leaves the head as it is, and from every read of the head. *)
Theorem stale_owner_fenced (id : string) (x0 : Status Value) (w0 w1 w2 : World) (x1 : Status Value) p n act i known :
  initial id x0 w0 → rtc (step id) w0 w1 → rtc (step id) w1 w2 →
  stands id w1 x1 → over (i_epoch i) (i_token i) x1 → procs w2 !! p = Some (POpen n false act i known) →
  (∀ rev m cancel r act' s', rev ∈ known → (∀ s : S, quiet s (cancel s).2) →
    owned_publish_cancellable id i id (Some rev) m cancel (act, store w2) = (r, (act', s')) →
    is_ok r = false ∧ heads s' !! id = heads (store w2) !! id) ∧
  (∀ r act' s', owned_head id i id (act, store w2) = (r, (act', s')) → is_ok r = false).
Proof.
  intros Hi%inv_initial H1 H2 (h & Hh & Hst) Ho Hp. eapply inv_run in H1; [|exact Hi].
  apply inv_from in H1 as (h1 & a1 & Hh1 & Hst1 & _ & Hi1). simplify_eq. eapply inv_run in H2; [|exact Hi1].
  pose proof (proj2 H2 p _ Hp) as (Hid & Hk). destruct H2 as [[(h2 & a2 & Hh2 & HH2 & Hst2 & Hev2) _] _].
  eapply evolves_over in Hev2; [|exact Ho].
  assert (∀ m, a2 ≠ owner_state i m) as Hne.
  { intros m ->. destruct Hev2 as [?|[_ ?]]; [lia|done]. }
  split.
  - intros rev m cancel r act' s' Hrev Hc Hrun. destruct (Hk rev Hrev) as (m0 & b & Hb & Hstb).
    assert (∀ rv b', ¬ published (store w2) s' id (Some rev) rv b') as Hnp.
    { intros rv b' (E & _). rewrite Hh2 in E. injection E as E. subst rev. simplify_eq. by apply (Hne m0). }
    eapply wp_run in Hrun; [|by apply owned_publish_spec]. simpl in Hrun. destruct Hrun as (_ & _ & Hsend & Hr).
    assert (heads s' !! id = heads (store w2) !! id) as Hsame.
    { destruct Hsend as [[(_ & -> & _) _]|(x & b' & (-> & _) & _ & [->|[rv Hpub]])]; [done|done|]. by destruct (Hnp rv b'). }
    split; [|done]. destruct r as [rev'|]; [|done]. destruct Hr as [(rv & b' & Hpub) _]. by destruct (Hnp rv b').
  - intros r act' s' Hrun. eapply wp_run in Hrun; [|by apply owned_head_spec]. simpl in Hrun. destruct Hrun as (_ & _ & Hr).
    destruct r as [[h'|]|]; [|done|done]. destruct Hr as (_ & h0 & m & Hh0 & _ & _ & Hst0).
    assert (h0 = h2) as -> by (change (heads (store w2) !! id = Some h0) in Hh0; rewrite Hh0 in Hh2; by injection Hh2).
    exfalso. apply (Hne m). rewrite Hst0 in Hst2. by injection Hst2 as <-.
Qed.
End system.

(** ** A concrete run: a release that arrives after its process *)
Module Example.
Import Memory Toy.
#[local] Instance toy : Sha256 := ToySha.toy.
Abbreviation W := (World (T := Mem)).

Definition namedb (H : gmap string (list Z)) (s : Mem * list Request) : bool :=
  match heads s !! "v"%string with
  | Some h => bool_decide (H !! revision h = None) || bool_decide (H !! revision h = Some (manifest h))
  | None => true
  end.
Lemma namedb_named H s : namedb H s = true → named "v" H s.
Proof.
  rewrite /namedb /named. intros Hn h Hh. rewrite Hh in Hn. apply orb_prop in Hn as [Hn|Hn]; apply bool_decide_eq_true in Hn; auto.
Qed.

(** The next world of a step, where it can happen. *)
Definition next (w : W) s d (p : gmap nat Proc) : option W :=
  if namedb (hist w) s then Some (set_world "v" w s d p) else None.
Lemma next_named w s d p w' : next w s d p = Some w' → named "v" (hist w) s ∧ w' = set_world "v" w s d p.
Proof. rewrite /next. destruct (namedb _ _) eqn:E; [|done]. intros [= <-]. split; [by apply namedb_named|done]. Qed.

Inductive Act := ABegin (p n : nat) (random : list Z) | AClaim (p : nat) | AHead (p : nat) | ARelease (p : nat) | ASend (p : nat)
  | ACrash (n : nat) | ALate (rev : string).
Definition random_fits (l : list Z) : bool := (Zlen l =? 32) && bool_decide (bytes l).
Definition exec (a : Act) (w : W) : option W :=
  match a with
  | ABegin p n random =>
      fs ← dirs w !! n;
      if random_fits random then
        let '(r, (s', fs')) := begin_open "v" random false (store w, fs) in
        next w s' (<[n := fs']> (dirs w)) (match r with Ok (h, e, i) => <[p := PClaim n false h e i]> (procs w) | Err _ => procs w end)
      else None
  | AClaim p =>
      match procs w !! p with
      | Some (PClaim n retiring h e i) =>
          let '(r, s') := claim "v" h e i (store w) in
          next w s' (if is_ok r then dirs w else alter unlock n (dirs w))
            (if is_ok r then <[p := POpen n retiring true i ∅]> (procs w) else delete p (procs w))
      | _ => None
      end
  | AHead p =>
      match procs w !! p with
      | Some (POpen n false act i known) =>
          let '(r, (_, s')) := owned_head "v" i "v" (act, store w) in
          next w s' (dirs w) (match r with Ok (Some h) => <[p := POpen n false act i ({[revision h]} ∪ known)]> (procs w) | _ => procs w end)
      | _ => None
      end
  | ARelease p =>
      match procs w !! p with
      | Some (POpen n false act i known) =>
          let '(r, (act', s')) := release_check "v" i (act, store w) in
          next w s' (dirs w) (<[p := match r with Ok (Some (h, e)) => PRelease n i h e known | _ => POpen n false act' i known end]> (procs w))
      | _ => None
      end
  | ASend p =>
      match procs w !! p with
      | Some (PRelease n i h e known) =>
          let '(_, s') := replace_head "v" h (released e) (store w) in
          next w s' (dirs w) (<[p := POpen n false false i known]> (procs w))
      | _ => None
      end
  | ACrash n =>
      fs ← dirs w !! n;
      if bool_decide (map_Forall (λ _ x, synced x = data x) (inodes fs)) then
        Some (mkWorld (store w) (hist w) (<[n := mkFs (inodes fs) (dir fs) [] false (dir_private fs) []]> (dirs w))
          (filter (λ x, on_host n x.2 = false) (procs w)))
      else None
  | ALate rev =>
      q ← (store w).2 !! 0%nat;
      h ← heads (store w) !! "v"%string;
      if bool_decide (q_id q = "v"%string ∧ q_expected q = Some (revision h) ∧ rev ≠ ""%string) then
        let m := (store w).1 in
        next w (mkMem (mem_objects m) (<["v"%string := mkHead rev (q_bytes q)]> (mem_heads m)) (mem_base m) (mem_next m) (mem_faults m) (mem_clock m), (store w).2)
          (dirs w) (procs w)
      else None
  end.

Lemma exec_step a w w' : exec a w = Some w' → step "v" w w'.
Proof.
  destruct a as [p n random|p|p|p|p|n|rev]; simpl.
  - destruct (dirs w !! n) as [fs|] eqn:Hd; [|done]. simpl. destruct (random_fits random) eqn:Hr; [|done].
    destruct (begin_open _ _ _ _) as [r [s' fs']] eqn:Hb. intros [Hn ->]%next_named.
    assert (random_ok random) as Hrand by (by apply andb_prop in Hr as [Hl%Z.eqb_eq Hb'%bool_decide_eq_true]).
    exact (st_begin "v" w p n random false fs r s' fs' Hd Hrand Hb Hn).
  - destruct (procs w !! p) as [[]|] eqn:Hp; try done. destruct (claim _ _ _ _ _) as [r s'] eqn:Hc. intros [Hn ->]%next_named.
    exact (st_claim "v" w p _ _ _ _ _ r s' Hp Hc Hn).
  - destruct (procs w !! p) as [[]|] eqn:Hp; try done. destruct retiring; [done|]. destruct (owned_head _ _ _ _) as [r [b s']] eqn:Hc.
    intros [Hn ->]%next_named. exact (st_head "v" w p _ _ _ _ r b s' Hp Hc Hn).
  - destruct (procs w !! p) as [[]|] eqn:Hp; try done. destruct retiring; [done|]. destruct (release_check _ _ _) as [r [b s']] eqn:Hc.
    intros [Hn ->]%next_named. exact (st_release "v" w p _ _ _ _ r b s' Hp Hc Hn).
  - destruct (procs w !! p) as [[]|] eqn:Hp; try done. destruct (replace_head _ _ _ _) as [r s'] eqn:Hc. intros [Hn ->]%next_named.
    exact (st_released "v" w p _ _ _ _ _ r s' Hp Hc Hn).
  - destruct (dirs w !! n) as [fs|] eqn:Hd; [|done]. simpl. case_bool_decide as Hs; [|done]. intros [= <-]. eapply st_crash; [exact Hd|].
    split; [by left|]. split; [done|]. split; [done|]. split; [done|]. intros i. simpl. destruct (inodes fs !! i) as [x|] eqn:Hx; [|done].
    specialize (Hs i x Hx). simpl in Hs. split; [done|]. split; [done|]. left. by rewrite Hs.
  - destruct (store w).2 as [|q l] eqn:Hl; [done|]. simpl.
    destruct (mem_heads (store w).1 !! "v"%string) as [h|] eqn:Hh; [|done]. simpl.
    case_bool_decide as Hq; [|done]. destruct Hq as (Hid & He & Hne). intros [Hn ->]%next_named.
    eapply (st_late _ _ q rev); [rewrite Hl; left|done| |simpl; by rewrite Hl|done]. split; [|by split].
    change (revision <$> mem_heads (store w).1 !! "v"%string = q_expected q). by rewrite Hh He.
Qed.

Definition r0 : Indexed.Root := Indexed.mkRoot 8 "v" 65536 0 true ∅ None None.
Definition free : list Z := write (JEnvelope 4 "v" 1 None r0).
Definition st1 : Status (Value (Serde := serde)) := Live 1 None (JRoot r0).
Definition st2 : Status (Value (Serde := serde)) := Live 2 None (JRoot r0).
(** The second publication, the release, is not answered and not performed yet. *)
Definition w0 : W := mkWorld (mkMem ∅ {["v"%string := mkHead "h" free]} ∅ 0 [None; Some Refused] [], [])
  {["h"%string := free]} {[0%nat := mkFs ∅ ∅ [] false true []]} ∅.
Definition open_release : list Act := [ABegin 0 0 (replicate 32 7); AClaim 0; AHead 0; ARelease 0; ASend 0].
(** The host crashes, opens again as the same owner, and the release arrives. *)
Definition reopen_late : list Act := [ACrash 0; ABegin 1 0 (replicate 32 9); AClaim 1; AHead 1; ALate "late"].
Definition w1 : W := default w0 (steps exec open_release w0).
Definition w2 : W := default w0 (steps exec reopen_late w1).
Definition me : Identity := mkIdentity "v" (hex (replicate 32 7)) 2.

Lemma runs_rtc acts (w w' : W) : steps exec acts w = Some w' → rtc (step "v") w w'.
Proof.
  revert w. induction acts as [|a acts IH]; intros w; simpl; [by intros [= ->]|].
  destruct (exec a w) as [w''|] eqn:E; [|done]. simpl. intros H. eapply rtc_l; [by apply exec_step in E|by apply IH].
Qed.
Definition possible (acts : list Act) (w : W) : bool := match steps exec acts w with Some _ => true | None => false end.
Lemma possible_rtc acts w : possible acts w = true → rtc (step "v") w (default w0 (steps exec acts w)).
Proof. rewrite /possible. destruct (steps exec acts w) as [w'|] eqn:E; [|done]. intros _. by apply (runs_rtc acts). Qed.
Lemma run1 : rtc (step "v") w0 w1.
Proof. apply possible_rtc. vm_compute. reflexivity. Qed.
Lemma run2 : rtc (step "v") w1 w2.
Proof. apply possible_rtc. vm_compute. reflexivity. Qed.
Lemma run12 : rtc (step "v") w0 w2.
Proof. etrans; [exact run1|exact run2]. Qed.
Lemma w0_initial : initial "v" st1 w0.
Proof. exists (mkHead "h" free). split; [vm_compute; reflexivity|]. split; [reflexivity|]. split; [vm_compute; reflexivity|]. split; reflexivity. Qed.
(** The process of the reopened owner runs, but its epoch is over. *)
Lemma w2_stands : stands "v" w2 st2.
Proof. exists (mkHead "late" (write (JEnvelope 4 "v" 2 None r0))). split; vm_compute; reflexivity. Qed.
Lemma w2_runs : procs w2 !! 1%nat = Some (POpen 0 false true me {["r0"%string]}).
Proof. vm_compute. reflexivity. Qed.

Lemma ownership_machine_witness : ∃ x1 x2, stands "v" w1 x1 ∧ stands "v" w2 x2 ∧ evolves st1 x1 ∧ evolves x1 x2.
Proof. exact (ownership_machine "v" st1 w0 w1 w2 w0_initial run1 run2). Defined.

Lemma stale_owner_fenced_witness :
  (∀ rev m cancel r act' s', rev ∈ ({["r0"%string]} : gset string) → (∀ s, quiet s (cancel s).2) →
    owned_publish_cancellable "v" me "v" (Some rev) m cancel (true, store w2) = (r, (act', s')) →
    is_ok r = false ∧ heads s' !! "v"%string = heads (store w2) !! "v"%string) ∧
  (∀ r act' s', owned_head "v" me "v" (true, store w2) = (r, (act', s')) → is_ok r = false).
Proof.
  apply (stale_owner_fenced "v" st1 w0 w2 w2 st2 1 0 true me {["r0"%string]}).
  - exact w0_initial.
  - exact run12.
  - exact (rtc_refl _ _).
  - exact w2_stands.
  - right. split; [reflexivity|discriminate].
  - exact w2_runs.
Defined.
End Example.
End Ownership.
