(* ===== verification/OwnerCrash.v ===== *)
(** An owner survives the crash of its host: the identity is durable before the
    claim is sent, so the same directory opens as the same owner again. *)
From S2P Require Import Prelude Codec ObjectStore Base Indexed IndexedApi Files Owned Fencing.

Module OwnerCrash.
Import Files Owned Fencing.

Section crash.
Context {JR : Json Indexed.Root} {SJ : Serde} {SL : SerdeLaws}.

(** No crash takes it away. *)
Definition durable (ident : Identity) (fs : Fs) : Prop :=
  past fs = [] ∧
  ∃ i n, dir fs !! "owner.json"%string = Some i ∧ inodes fs !! i = Some n ∧ from_slice (data n) = Some ident ∧ Zlen (data n) ≤ 4096 ∧ synced n = data n.










Lemma durable_plan p ident fs : durable ident fs → durable ident (set_plan p fs).
Proof. done. Qed.


Section opened.
Context {S : Type} {SHA : Sha256} {OS : ObjectStore S}.




















End opened.
End crash.

(** ** A concrete crash *)
Module Example.
Import Memory Toy.
#[local] Instance toy : Sha256 := ToySha.toy.




End Example.
End OwnerCrash.
