(* ===== verification/Collect.v ===== *)
(** Reclamation, [ahvm-volume/src/reclaim.rs] and [OwnedDisk::collect_offline_cached]
    of [owned.rs]: one bounded pass over the objects of a retired volume deletes them,
    one over the objects of an owned volume deletes what its head does not reach.
    Whatever fails, and however much of a batch was deleted, the volume reads as
    before; repeating the passes removes all the garbage. *)
From S2P Require Import Prelude Codec ObjectStore Blocks Base Page Indexed Staging IndexedCommit IndexedApi Files Local Owned Mark Fencing.

Module Collect.
Import Page Indexed Staging IndexedCommit IndexedApi Owned Mark.

Record Progress := mkProgress { swept_objects : Z; swept : bool }.
Record Collection := mkCollection {
  scanned_objects : Z;
  deleted_objects : Z;
  complete : bool;
  next_after : option string;
}.
Record OfflineMark := mkOfflineMark { m_id : string; m_revision : string; m_live : list (list Z) }.
Inductive Phase := Active | Closing | Released.
#[export] Instance Phase_eq_dec : EqDecision Phase.
Proof. solve_decision. Defined.

(** What a pass uses of the handle: the store's volume and identity, the phase, and
    the status of the local disk. *)
Record OwnedDisk := mkOwnedDisk {
  d_id : string;
  d_ident : Identity;
  d_phase : Phase;
  d_status : Local.Status;
}.

(** [w[0] >= w[1]] on the bytes of two strings. *)
Definition string_ge (a b : string) : bool := String.leb b a.
(** [hashes.windows(2).any(..)] *)
Fixpoint unordered (l : list string) : bool :=
  match l with
  | a :: (b :: _) as l' => string_ge a b || unordered l'
  | _ => false
  end.
Definition beyond (after : option string) (h : string) : bool :=
  match after with Some a => negb (String.leb h a) | None => true end.

Section collect.
Context {S : Type} {SHA : Sha256} {OS : ObjectStore S} {JR : Json Root} {SJ : Serde}.

(** ** Sweeping a retired volume *)
Definition list_chunks (id : string) (limit : Z) : M Error S (list string) := list_chunks_after id None limit.

Definition sweep (id : string) (limit : Z) : M Error S Progress :=
  guard_err (valid_id id && ((1 <=? limit) && (limit <=? 1000))) InvalidInput;;
  oh ← head id;
  h ← ok_or oh NotFound;
  dead ← of_result (retired id h);
  guard_err dead Conflict;;
  hashes ← list_chunks id limit;
  guard_err (negb ((limit <? Zlen hashes) || existsb (λ h, negb (hash h)) hashes)) Corrupt;;
  delete_chunks id hashes;;
  mret (mkProgress (Zlen hashes) (bool_decide (hashes = []))).

(** ** Collecting an owned volume

    The state is the cached mark, the [active] flag of the owner's store and the raw
    store. *)
Definition on_owner {A} (m : M Error (bool * S) A) : M Error (option OfflineMark * (bool * S)) A := zoom snd (λ t u, (u.1, t)) m.
Definition on_remote {A} (m : M Error S A) : M Error (option OfflineMark * (bool * S)) A := on_owner (Owned.on_store m).
(** The caller's closure, seen by the owner's store. *)
Definition through (cancel : S → bool * S) (t : bool * S) : bool * (bool * S) := let '(c, s) := cancel t.2 in (c, (t.1, s)).

(** The reachable objects of the head: the caller's mark when it is for this head. *)
Definition fresh (d : OwnedDisk) (h : Head) (m : option OfflineMark) : bool :=
  match m with Some m => bool_decide (m_id m = d_id d) && bool_decide (m_revision m = revision h) | None => false end.
Definition remark (d : OwnedDisk) (h : Head) (cancel : S → bool * S) : M Error (option OfflineMark * (bool * S)) (list (list Z)) :=
  modify (λ t, (None, t.2));;
  v ← on_owner (from_head (OS := owned_store (d_id d) (d_ident d)) (d_id d) h);
  live ← on_owner (references (OS := owned_store (d_id d) (d_ident d)) v (through cancel));
  modify (λ t, (Some (mkOfflineMark (d_id d) (revision h) live), t.2));;
  mret live.
Definition live_objects (d : OwnedDisk) (h : Head) (cancel : S → bool * S) : M Error (option OfflineMark * (bool * S)) (list (list Z)) :=
  m ← gets fst;
  match m with
  | Some k => if fresh d h m then mret (m_live k) else remark d h cancel
  | None => remark d h cancel
  end.

(** [live.binary_search(..).is_err()]: the list is sorted, so the search decides
    membership. *)
Definition pick (live : list (list Z)) (cancel : S → bool * S) (garbage : list string) (h : string) : M Error S (list string) :=
  check_cancel cancel;;
  raw ← of_result (Codec.decode h);
  mret (if bool_decide (raw ∈ live) then garbage else garbage ++ [h]).

Definition page_bad (after : option string) (limit : Z) (hashes : list string) : bool :=
  (limit <? Zlen hashes) || unordered hashes || existsb (λ h, negb (hash h) || negb (beyond after h)) hashes.

Definition collect_offline_cached (d : OwnedDisk) (after : option string) (limit : Z) (cancel : S → bool * S)
    : M Error (option OfflineMark * (bool * S)) Collection :=
  guard_err ((1 <=? limit) && (limit <=? 1000) && match after with Some a => hash a | None => true end) InvalidInput;;
  guard_err (bool_decide (d_phase d = Active)) ReopenRequired;;
  on_remote (check_cancel cancel);;
  guard_err (negb (Local.local_failed (d_status d))) ReopenRequired;;
  guard_err (Local.pending_bytes (d_status d) =? 0) Backpressure;;
  oh ← on_owner (owned_head (d_id d) (d_ident d) (d_id d));
  h ← ok_or oh NotFound;
  live ← live_objects d h cancel;
  hashes ← on_remote (list_chunks_after (d_id d) after limit);
  guard_err (negb (page_bad after limit hashes)) Corrupt;;
  on_remote (check_cancel cancel);;
  oh ← on_owner (owned_head (d_id d) (d_ident d) (d_id d));
  guard_err (match oh with Some h' => bool_decide (revision h' = revision h) | None => false end) Conflict;;
  garbage ← on_remote (foldM (pick live cancel) [] hashes);
  on_remote (delete_chunks (d_id d) garbage);;
  mret (mkCollection (Zlen hashes) (Zlen garbage) (bool_decide (hashes = [])) (last hashes)).

Definition collect_offline (d : OwnedDisk) (after : option string) (limit : Z) (cancel : S → bool * S) : M Error (bool * S) Collection :=
  zoom (λ t, (None, t)) (λ u _, u.2) (collect_offline_cached d after limit cancel).

Context {SV : StoreView S} {OSL : ObjectStoreLaws S}.

(** ** The walk through the owner's store *)

(** An active owner's store runs the operation on the raw store. *)
Definition runs {A} (m' : M Error (bool * S) A) (m : M Error S A) : Prop := ∀ s, m' (true, s) = let '(r, s') := m s in (r, (true, s')).

Lemma runs_ret {A} (a : A) : runs (mret a) (mret a).
Proof. done. Qed.
Lemma runs_result {A} (r : Result Error A) : runs (of_result r) (of_result r).
Proof. done. Qed.
Lemma runs_guard b e : runs (guard_err b e) (guard_err b e).
Proof. by destruct b. Qed.
Lemma runs_ok_or {A} (o : option A) e : runs (ok_or o e) (ok_or o e).
Proof. by destruct o. Qed.
Lemma runs_bind {A B} (m' : M Error (bool * S) A) m (f' : A → M Error (bool * S) B) f :
  runs m' m → (∀ a, runs (f' a) (f a)) → runs (m' ≫= f') (m ≫= f).
Proof. intros Hm Hf s. rewrite /mbind /M_bind Hm. destruct (m s) as [[a|e] s1]; [apply Hf|done]. Qed.
Lemma runs_foldM {A B} (f' : B → A → M Error (bool * S) B) f b l : (∀ b a, runs (f' b a) (f b a)) → runs (foldM f' b l) (foldM f b l).
Proof. intros Hf. revert b. induction l as [|a l IH]; intros b; simpl; [apply runs_ret|]. by apply runs_bind. Qed.
Lemma runs_cancel cancel : runs (check_cancel (through cancel)) (check_cancel cancel).
Proof. intros s. rewrite /check_cancel /through /=. by destruct (cancel s) as [[] s1]. Qed.
Lemma runs_guarded {A} self (m : M Error S A) : runs (guarded self self m) m.
Proof. intros s. rewrite /guarded /active /gets /Owned.on_store /zoom /mbind /M_bind /= bool_decide_eq_true_2 //=. Qed.
Lemma runs_active {A} (m : M Error S A) : runs (active;; Owned.on_store m) m.
Proof. done. Qed.

Lemma wp_runs {A} (m' : M Error (bool * S) A) m s Q : runs m' m → wp m s (λ r s', Q r (true, s')) → wp m' (true, s) Q.
Proof. intros Hr. rewrite /wp Hr. by destruct (m s). Qed.

Section owner.
Variables (self : string) (ident : Identity).
#[local] Instance mine : ObjectStore (bool * S) := owned_store self ident.

Lemma runs_page_from v i hash fb : volume (root v) = self → runs (page_from v i hash fb) (page_from v i hash fb).
Proof.
  intros Hv. rewrite /page_from. apply runs_bind; [|intros; apply runs_ret]. destruct hash as [h|]; [|apply runs_ret].
  apply runs_bind; [|intros b; apply runs_bind; [apply runs_guard|intros; apply runs_ret]]. destruct fb.
  - apply runs_bind; [apply runs_ok_or|]. intros r. apply runs_active.
  - rewrite Hv. apply runs_guarded.
Qed.

Lemma runs_references v cancel : volume (root v) = self → runs (references v (through cancel)) (references v cancel).
Proof.
  intros Hv. apply runs_bind; [|intros; apply runs_bind; [apply runs_cancel|intros; apply runs_ret]].
  apply runs_foldM. intros live e. apply runs_bind; [apply runs_cancel|]. intros _.
  destruct (match cat v with Some _ => _ | None => _ end); [apply runs_ret|].
  apply runs_bind; [by apply runs_page_from|]. intros p. apply runs_bind; [by apply runs_page_from|]. intros q.
  apply runs_bind; [apply runs_result|]. intros raw. apply runs_foldM. intros l j. rewrite /mark_slot.
  destruct (object_slot p j) as [[o off]|]; [|apply runs_ret]. destruct (_ && _); [apply runs_ret|].
  apply runs_bind; [apply runs_result|]. intros; apply runs_ret.
Qed.

Lemma runs_from_head h : runs (from_head self h) (from_head self h).
Proof.
  apply runs_bind; [apply runs_guard|]. intros _. apply runs_bind; [apply runs_ok_or|]. intros r.
  apply runs_bind; [apply runs_guard|]. intros _. apply runs_bind; [apply runs_guard|]. intros _.
  apply runs_bind; [|intros c; apply runs_bind; [apply runs_guard|intros; apply runs_ret]].
  destruct (base r) as [b|]; [|apply runs_ret]. apply runs_bind; [|intros; apply runs_ret].
  apply runs_bind; [apply runs_result|]. intros _. apply runs_bind; [apply runs_result|]. intros _.
  apply runs_bind; [apply runs_active|]. intros; apply runs_result.
Qed.
End owner.

(** ** A pass *)
Context {SHAL : Sha256Laws} {JL : JsonLaws Root}.

(** The volume's head carries the map of the handle [v]. *)
Definition names (s : S) (id : string) (v : IndexedVolume) : Prop :=
  ∃ h w e b, heads s !! id = Some h ∧ value_from_slice (manifest h) = Some w ∧ unwrap id w = Ok e ∧
    value_to_vec (e_manifest e) = Some b ∧ from_slice b = Some (root v) ∧ revision h = vol_revision v.
(** A cached mark for the current head is the mark of that head. *)
Definition valid_mark (s : S) (id : string) (v : IndexedVolume) (m : option OfflineMark) : Prop :=
  ∀ k, m = Some k → m_id k = id → m_revision k = vol_revision v → marks (reachable s v) (m_live k).

Lemma from_head_view s id h : wp (from_head id h) s (λ _ s', same_view s s').
Proof.
  rewrite /from_head /decode_head. wp_step. wp_step; [|done]. wp_step. wp_step; [|done]. wp_step. wp_step; [|done]. wp_step. wp_step; [|done].
  wp_step. eapply (wp_mono _ _ (λ _ s', same_view s s')).
  - destruct (base a) as [b|]; [|by wp_step]. wp_step. eapply wp_mono; [apply load_catalog_spec|]. intros [c|x] s' [Hv _]; [|done]. by wp_step.
  - intros [c|x] s' Hv; [|done]. wp_step. wp_step; [|done]. by wp_step.
Qed.

Lemma decode_view s id h : wp (Owned.decode id h) s (λ r s', same_view s s' ∧
  match r with Ok e => ∃ w, value_from_slice (manifest h) = Some w ∧ unwrap id w = Ok e | Err _ => True end).
Proof.
  rewrite /Owned.decode. wp_step. wp_step; [|done]. wp_step. wp_step; [|done]. wp_step. wp_step.
  destruct (unwrap id a) as [e|x] eqn:Hu; [|done]. wp_step. wp_step; [|done]. wp_step. eapply wp_mono; [apply from_head_view|].
  intros [v|x] s' Hv; [|done]. wp_step. split; [done|]. by exists a.
Qed.

Lemma owned_head_view s s1 self ident v : same_view s s1 → names s self v →
  wp (owned_head self ident self) (true, s1) (λ r t, t.1 = true ∧ same_view s t.2 ∧
    match r with Ok oh => ∃ h, oh = Some h ∧ from_slice (manifest h) = Some (root v) ∧ revision h = vol_revision v | Err _ => True end).
Proof.
  intros Hv (h & w & e & b & Hh & Hw & He & Hb & Hr & Hrev). rewrite /owned_head /active.
  wp_step. wp_step. wp_step. wp_step; [|done]. wp_step. wp_step; [|done]. wp_step. apply wp_zoom.
  eapply wp_mono; [apply head_law|]. intros [oh|x] s2 [Hv2 Hoh]; simpl; [|split; [done|split; [by etrans|done]]].
  assert (same_view s s2) as Hv02 by (by etrans). wp_step. destruct Hv as (_ & Hhd & _). rewrite Hhd Hh in Hoh. subst oh. apply wp_ret.
  wp_step. apply wp_zoom. eapply wp_mono; [apply decode_view|]. intros [e'|x] s3 [Hv3 He']; simpl; (assert (same_view s s3) by (by etrans)); [|done].
  destruct He' as (w' & Hw' & He'). assert (e' = e) as -> by congruence. wp_step. wp_step; [|done]. wp_step. rewrite Hb. apply wp_ret. wp_step.
  split; [done|]. split; [done|]. by exists (mkHead (revision h) b).
Qed.

Lemma reachable_root s v w d : root w = root v → cat w = cat v → reachable s w d ↔ reachable s v d.
Proof.
  intros Hr Hc. rewrite /reachable /page_reaches /private_page /page_view /base_view /view_from /page_inherited /cat_page. by rewrite Hr Hc.
Qed.

Lemma remark_spec d h cancel s s1 v m : observes cancel → same_view s s1 → vol_ok s (d_id d) v →
  from_slice (manifest h) = Some (root v) → revision h = vol_revision v →
  wp (remark d h cancel) (m, (true, s1)) (λ r t, t.2.1 = true ∧ same_view s t.2.2 ∧ valid_mark s (d_id d) v t.1 ∧
    match r with Ok live => marks (reachable s v) live | Err _ => True end).
Proof.
  intros Hc Hv Hok Hj Hrev. assert (valid_mark s (d_id d) v None) as Hnone by done.
  rewrite /remark. wp_step. wp_step. wp_step. apply wp_zoom. eapply wp_runs; [apply runs_from_head|].
  eapply wp_mono; [by eapply from_head_spec|]. intros [w|x] s2 [Hv2 Hw]; simpl; [|done]. subst w.
  wp_step. apply wp_zoom. eapply wp_runs.
  { apply runs_references. by destruct (proj1 (root_ok_spec _ _) (ok_root _ _ _ Hok)) as (_ & _ & _ & _ & ? & _). }
  eapply wp_mono; [by apply references_spec|]. intros [live|x] s3 [Hv3 Hl]; simpl; [|done].
  assert (marks (reachable s v) live) as Hm by (eapply marks_iff, Hl; intros; by apply reachable_root).
  wp_step. wp_step. wp_step. split; [done|]. split; [done|]. split; [|done]. by intros k [= <-] _ _.
Qed.

Lemma live_objects_spec d h cancel s s1 v m : observes cancel → same_view s s1 → vol_ok s (d_id d) v →
  from_slice (manifest h) = Some (root v) → revision h = vol_revision v → valid_mark s (d_id d) v m →
  wp (live_objects d h cancel) (m, (true, s1)) (λ r t, t.2.1 = true ∧ same_view s t.2.2 ∧ valid_mark s (d_id d) v t.1 ∧
    match r with Ok live => marks (reachable s v) live | Err _ => True end).
Proof.
  intros Hc Hv Hok Hj Hrev Hm. rewrite /live_objects. wp_step. wp_step. simpl. destruct m as [k|]; [|by apply remark_spec].
  destruct (fresh d h (Some k)) eqn:Hf; [|by apply remark_spec]. wp_step. split; [done|]. split; [done|]. split; [done|].
  apply andb_prop in Hf as [Hi%bool_decide_eq_true Hr%bool_decide_eq_true]. apply Hm; [done|done|congruence].
Qed.

(** What is picked: the hashes of the page that are not marked. *)
Lemma pick_spec live cancel s0 s hashes : observes cancel → same_view s0 s →
  wp (foldM (pick live cancel) [] hashes) s (λ r s', same_view s0 s' ∧ match r with
    | Ok gs => Zlen gs ≤ Zlen hashes ∧ ∀ h, h ∈ gs ↔ h ∈ hashes ∧ ∃ raw, Codec.decode h = Ok raw ∧ raw ∉ live
    | Err _ => True end).
Proof.
  intros Hc Hv. apply (wp_foldM _ _ _ _ (λ gs l s', same_view s0 s' ∧ ∃ l1, hashes = l1 ++ l ∧ Zlen gs ≤ Zlen l1 ∧
    ∀ h, h ∈ gs ↔ h ∈ l1 ∧ ∃ raw, Codec.decode h = Ok raw ∧ raw ∉ live)).
  - split; [done|]. exists []. split; [done|]. split; [done|]. set_solver.
  - intros gs h l s1 (Hv1 & l1 & Hl & Hlen & Hg). rewrite /pick. wp_step. eapply wp_mono; [by apply check_cancel_law|].
    intros r s2 Hv2. assert (same_view s0 s2) by (by etrans). destruct r as [u|x]; [|done].
    wp_step. wp_step. destruct (Codec.decode h) as [raw|x] eqn:Hd; [|done]. wp_step. split; [done|]. exists (l1 ++ [h]).
    split; [by rewrite -app_assoc|]. split; [destruct (bool_decide _); rewrite ?Zlen_app ?Zlen_cons ?Zlen_nil; lia|].
    intros h'. rewrite elem_of_app list_elem_of_singleton.
    case_bool_decide as Hb; [|rewrite elem_of_app list_elem_of_singleton]; rewrite Hg; [|naive_solver].
    split; [naive_solver|]. intros [[?| ->] (raw' & Hd' & Hn)]; [by eauto|]. destruct Hn. by assert (raw' = raw) as -> by congruence.
  - intros gs s1 (Hv1 & l1 & Hl & Hg). rewrite app_nil_r in Hl. by subst l1.
Qed.

(** ** What a pass leaves *)

(** Deleting what is not reachable. *)
Definition cleans (s : S) (id : string) (v : IndexedVolume) (s' : S) : Prop :=
  ∃ gs, prunes id gs s s' ∧ ∀ h, h ∈ gs → ¬ reachable s v h.

Lemma cleans_view s id v s' : same_view s s' → cleans s id v s'.
Proof. intros Hv. exists []. split; [by apply prunes_view|]. by intros h ?%not_elem_of_nil. Qed.

Lemma cleans_serves s id v s' : root_ok (root v) id = true → cleans s id v s' → serves_as s s' v ∧ shrinks s s'.
Proof.
  intros Hr (gs & Hp & Hg). split; [|by eapply prunes_sub]. destruct Hp as (_ & Hb & Ho). split; [done|]. intros d Hd.
  destruct (Ho (volume (root v), d)) as [|(_ & _ & Hin)]; [done|]. by destruct (Hg d Hin).
Qed.

Lemma serves_reachable s s' v d : packed (root v) = true → serves_as s s' v → reachable s' v d ↔ reachable s v d.
Proof.
  intros Hp Hs. rewrite /reachable /page_reaches. setoid_rewrite (serves_page s s' v _ Hp Hs). by setoid_rewrite (serves_base s s' v _ Hs).
Qed.

Lemma cleans_trans s1 s2 s3 id v : vol_ok s1 id v → cleans s1 id v s2 → cleans s2 id v s3 → cleans s1 id v s3.
Proof.
  intros Hok H1 (gs2 & Hp2 & Hg2). destruct (cleans_serves _ _ _ _ (ok_root _ _ _ Hok) H1) as [Hs _]. destruct H1 as (gs1 & Hp1 & Hg1).
  exists (gs1 ++ gs2). split.
  - eapply prunes_trans; [|eapply prunes_mono; [|exact Hp2]]; [eapply prunes_mono; [|exact Hp1]|]; set_solver.
  - intros h [?|Hin]%elem_of_app; [by apply Hg1|]. rewrite -(serves_reachable s1 s2); [apply (ok_packed _ _ _ Hok)|done|by apply Hg2].
Qed.

Lemma cleans_reachable s s' id v d : vol_ok s id v → cleans s id v s' → reachable s' v d ↔ reachable s v d.
Proof.
  intros Hok Hcl. destruct (cleans_serves _ _ _ _ (ok_root _ _ _ Hok) Hcl) as [Hs _]. apply serves_reachable; [apply (ok_packed _ _ _ Hok)|done].
Qed.

(** Everything the owner relies on. *)
Record owned (s : S) (id : string) (v : IndexedVolume) (m : option OfflineMark) : Prop := {
  own_vol : vol_ok s id v;
  own_head : names s id v;
  own_mark : valid_mark s id v m;
}.

Lemma cleans_owned s s' id v m m' : owned s id v m → cleans s id v s' → valid_mark s id v m' → owned s' id v m' ∧ ∀ i, block s' v i = block s v i.
Proof.
  intros [Hok Hn _] Hcl Hm. destruct (cleans_serves _ _ _ _ (ok_root _ _ _ Hok) Hcl) as [Hs Hsh].
  destruct (serves_vol s s' id v Hok Hsh Hs) as [Hok' Hb]. split; [|done]. split; [done|..].
  - destruct Hcl as (gs & (Hh & _) & _). destruct Hn as (h & w & e & b & Hx & Hrest). exists h, w, e, b. by rewrite Hh.
  - intros k Hk Hi Hr. eapply marks_iff; [|by eapply Hm]. intros d. symmetry. apply serves_reachable; [apply (ok_packed _ _ _ Hok)|done].
Qed.

(** A pass that may run. *)
Definition quiescent (d : OwnedDisk) : Prop :=
  d_phase d = Active ∧ Local.local_failed (d_status d) = false ∧ Local.pending_bytes (d_status d) = 0.

Definition collect_post (d : OwnedDisk) (v : IndexedVolume) (after : option string) (limit : Z) (s : S) (r : Result Error Collection)
    (t : option OfflineMark * (bool * S)) : Prop :=
  let s' := t.2.2 in
  t.2.1 = true ∧ cleans s (d_id d) v s' ∧ valid_mark s (d_id d) v t.1 ∧ (quiescent d ∨ same_view s s') ∧
  match r with
  | Ok c => quiescent d ∧ ∃ hashes, page_bad after limit hashes = false ∧
      scanned_objects c = Zlen hashes ∧ 0 ≤ deleted_objects c ≤ limit ∧ complete c = bool_decide (hashes = []) ∧ next_after c = last hashes ∧
      (∃ s1 s2, same_view s s1 ∧ list_chunks_after (d_id d) after limit s1 = (Ok hashes, s2)) ∧
      ∀ h, h ∈ hashes → objects s' !! (d_id d, h) = None ∨ reachable s v h
  | Err _ => True
  end.

Lemma page_good after limit hashes : page_bad after limit hashes = false →
  Zlen hashes ≤ limit ∧ (∀ h, h ∈ hashes → valid_hash h = true) ∧ ∀ h, h ∈ hashes → beyond after h = true.
Proof.
  rewrite /page_bad !orb_false_iff. intros [[Hl _] He]. split; [by apply Z.ltb_ge|].
  rewrite -not_true_iff_false existsb_exists in He.
  assert (∀ h, h ∈ hashes → negb (hash h) || negb (beyond after h) = false) as H.
  { intros h Hh. apply not_true_iff_false. intros E. apply He. exists h. split; [by apply list_elem_of_In|done]. }
  split; intros h [H1 H2]%H%orb_false_iff; by apply negb_false_iff.
Qed.

Lemma collect_spec d v after limit cancel s m : observes cancel → owned s (d_id d) v m →
  wp (collect_offline_cached d after limit cancel) (m, (true, s)) (collect_post d v after limit s).
Proof.
  intros Hc [Hok Hn Hm]. set (Q := collect_post d v after limit s).
  assert (∀ x m' s', valid_mark s (d_id d) v m' → same_view s s' → Q (Err x) (m', (true, s'))) as Herr.
  { intros x m' s' Hm' Hv'. split; [done|]. split; [by apply cleans_view|]. split; [done|]. split; [by right|done]. }
  rewrite /collect_offline_cached. wp_step. wp_step; [|by apply Herr]. wp_step. wp_step; [|by apply Herr].
  wp_step. apply wp_zoom, wp_zoom. eapply wp_mono; [by apply check_cancel_law|]. intros [u|x] s1 Hv1; [|by apply Herr].
  wp_step. wp_step; [|by apply Herr]. wp_step. wp_step; [|by apply Herr].
  wp_step. apply wp_zoom. eapply wp_mono; [by apply owned_head_view|]. intros [oh|x] [a s2] (Ha & Hv2 & Hh); simpl in Ha, Hv2; subst a; [|by apply Herr].
  destruct Hh as (h & -> & Hj & Hrev). wp_step. apply wp_ret. wp_step. eapply wp_mono; [by eapply live_objects_spec|].
  intros [live|x] [m3 [a s3]] (Ha & Hv3 & Hm3 & Hl); simpl in Ha, Hv3, Hm3; subst a; [|by apply Herr].
  wp_step. apply wp_zoom, wp_zoom. eapply wp_mono; [apply wp_self, list_law|]. cbn [fst snd]. intros [hashes|x] s4 [E4 Hv4]; (assert (same_view s s4) as Hv04 by (by etrans)); [|by apply Herr].
  wp_step. wp_step; [|by apply Herr]. wp_step. apply wp_zoom, wp_zoom. eapply wp_mono; [by apply check_cancel_law|]. cbn [fst snd].
  intros r5 s5 Hv5. assert (same_view s s5) as Hv05 by (by etrans). destruct r5 as [u5|x]; [|by apply Herr].
  wp_step. apply wp_zoom. eapply wp_mono; [by apply owned_head_view|]. intros [oh|x] [a s6] (Ha & Hv6 & _); simpl in Ha, Hv6; subst a; [|by apply Herr].
  wp_step. wp_step; [|by apply Herr]. wp_step. apply wp_zoom, wp_zoom. eapply wp_mono; [by apply pick_spec|]. cbn [fst snd].
  intros [gs|x] s7 [Hv7 Hgs]; [destruct Hgs as [Hlen Hgs]|by apply Herr]. wp_step. apply wp_zoom, wp_zoom. eapply wp_mono; [apply delete_chunks_spec|]. cbn [fst snd].
  intros r8 s8 [Hp Hdel].
  assert (cleans s (d_id d) v s8) as Hcl.
  { exists gs. split; [eapply prunes_trans; [by apply prunes_view|done]|]. intros g [_ (raw & Hd & Hni)]%Hgs Hre. apply Hni, Hl. by exists g. }
  assert (quiescent d) as Hq.
  { split; [by apply bool_decide_eq_true in H0|]. split; [by apply negb_true_iff in H1|by apply Z.eqb_eq]. }
  destruct r8 as [u8|x]; [|split; [done|]; split; [done|]; split; [done|]; split; [by left|done]].
  wp_step. split; [done|]. split; [done|]. split; [done|]. split; [by left|]. split; [done|]. exists hashes.
  match goal with H : negb (page_bad _ _ _) = true |- _ => apply negb_true_iff in H; rename H into Hpage end.
  destruct (page_good _ _ _ Hpage) as (Hlim & Hhash & _).
  split; [done|]. split; [done|]. split; [pose proof (Zlen_nonneg gs); simpl; lia|]. split; [done|]. split; [done|].
  split; [by exists s3, s4|]. intros h' Hin. destruct (decode_valid h' (Hhash h' Hin)) as (raw & Hd & Hx & _).
  destruct (decide (raw ∈ live)) as [Hl'|]; [right|left; apply Hdel, Hgs; by eauto].
  apply Hl in Hl' as (d' & Hd' & E). apply hex_decode in E as [E _]. by rewrite -Hx E.
Qed.

(** ** Pages of a listing *)

(** The first objects after a hash: what is missing lies beyond the last one. *)
Definition page_of (s : S) (id : string) (after : option string) (l : list string) : Prop :=
  (∀ h, h ∈ l → is_Some (objects s !! (id, h))) ∧
  ∀ h, is_Some (objects s !! (id, h)) → beyond after h = true → h ∈ l ∨ ∃ z, last l = Some z ∧ beyond (Some z) h = true.

Lemma beyond_iff after h : beyond after h = true ↔ ∀ a, after = Some a → ¬ String.le h a.
Proof. destruct after as [a|]; simpl; [|done]. rewrite negb_true_iff /String.le -not_true_iff_false -Is_true_true. naive_solver. Qed.
Lemma beyond_self h : beyond (Some h) h = false.
Proof. apply not_true_iff_false. rewrite beyond_iff. intros H. by apply (H h). Qed.
Lemma beyond_trans after z h : beyond after z = true → beyond (Some z) h = true → beyond after h = true.
Proof.
  rewrite !beyond_iff. intros Hz Hh a ->. specialize (Hz a eq_refl). specialize (Hh z eq_refl). intros Hle. apply Hz.
  destruct (total String.le z h) as [|]; [by trans h|done].
Qed.

(** The objects of the volume beyond a hash. *)
Definition ahead (s : S) (id : string) (after : option string) : gmap (string * string) (list Z) :=
  filter (λ kb, kb.1.1 = id ∧ beyond after kb.1.2 = true) (objects s).

Lemma ahead_lookup s id after h : is_Some (ahead s id after !! (id, h)) ↔ is_Some (objects s !! (id, h)) ∧ beyond after h = true.
Proof. rewrite /ahead /is_Some. setoid_rewrite map_lookup_filter_Some. simpl. naive_solver. Qed.

Lemma ahead_next s s' id after z : objects s' ⊆ objects s → is_Some (objects s !! (id, z)) → beyond after z = true →
  (base.size (ahead s' id (Some z)) < base.size (ahead s id after))%nat.
Proof.
  intros Hsub Hz Hb. apply map_subset_size, map_subset_alt. split.
  - apply map_subseteq_spec. intros k b. rewrite !map_lookup_filter_Some. intros (Hk & Hi & Hk2). split; [by eapply lookup_weaken|].
    split; [done|]. by eapply beyond_trans.
  - exists (id, z). split; [|by apply ahead_lookup]. apply eq_None_not_Some. rewrite ahead_lookup beyond_self. by intros [_ ?].
Qed.
End collect.

(** What [list_chunks_after] documents: an ordered page after an exclusive hash, empty
    when nothing is left. *)
Class ListingLaws (S : Type) {OS : ObjectStore S} {SV : StoreView S} : Prop :=
  listing_law (s : S) id after limit : 1 ≤ limit → wp (list_chunks_after id after limit) s (λ r _,
    match r with Ok l => page_of s id after l | Err _ => True end).

(** A store that is up lists and deletes. *)
Class ReliableReclaim (S : Type) {OS : ObjectStore S} (up : S → Prop) : Prop := {
  up_list s id after limit : up s → 1 ≤ limit → wp (list_chunks_after id after limit) s (λ r s', (∃ l, r = Ok l ∧ Zlen l ≤ limit) ∧ up s');
  up_delete s id h : up s → wp (delete_chunk id h) s (λ r s', r = Ok tt ∧ up s');
}.

Section passes.
Context {S : Type} {SHA : Sha256} {OS : ObjectStore S} {JR : Json Root} {SJ : Serde} {SV : StoreView S}.
Context {OSL : ObjectStoreLaws S} {LL : ListingLaws S} {SHAL : Sha256Laws} {JL : JsonLaws Root}.

(** The caller's cycle: passes that resume after the last listed hash, until one
    finds nothing. *)
Fixpoint cycle (fuel : nat) (d : OwnedDisk) (after : option string) (limit : Z) (cancel : S → bool * S)
    : M Error (option OfflineMark * (bool * S)) bool :=
  match fuel with
  | O => mret false
  | Datatypes.S fuel =>
      c ← collect_offline_cached d after limit cancel;
      if complete c then mret true else cycle fuel d (next_after c) limit cancel
  end.

(** What is stored and was passed is reachable. *)
Definition clean_to (s : S) (id : string) (v : IndexedVolume) (after : option string) : Prop :=
  ∀ h, is_Some (objects s !! (id, h)) → beyond after h = false → reachable s v h.

(** C9: collection is safe.  One pass over the objects of an owned volume, whatever
    fails or is cancelled in it and however much of its batch was deleted, leaves every
    block of the volume as it was and the volume, its head and the cached mark sound;
    it touches no object of another volume and none that the volume reaches, and it
    touches nothing unless the handle is active and the local disk has no failure and
    no pending writes. *)
Theorem collect_safe (d : OwnedDisk) (v : IndexedVolume) (after : option string) (limit : Z) (cancel : S → bool * S) (s : S) (m : option OfflineMark) :
  observes cancel → owned s (d_id d) v m →
  wp (collect_offline_cached d after limit cancel) (m, (true, s)) (λ r t,
    let s' := t.2.2 in
    owned s' (d_id d) v t.1 ∧ (∀ i, block s' v i = block s v i) ∧ heads s' = heads s ∧
    (∀ k, objects s' !! k ≠ objects s !! k → quiescent d ∧ k.1 = d_id d ∧ ¬ reachable s v k.2) ∧
    match r with Ok c => quiescent d ∧ scanned_objects c ≤ limit ∧ 0 ≤ deleted_objects c ≤ limit | Err _ => True end).
Proof.
  intros Hc Ho. eapply wp_mono; [by apply collect_spec|]. intros r [m' [a s']] (_ & Hcl & Hm & Hq & Hr). simpl in *.
  destruct (cleans_owned _ _ _ _ _ _ Ho Hcl Hm) as [Ho' Hb]. destruct Hcl as (gs & (Hh & _ & Hobj) & Hg).
  split; [done|]. split; [done|]. split; [done|]. split.
  - intros k Hk. destruct (Hobj k) as [|(_ & Hi & Hin)]; [done|]. split; [|split; [done|by apply Hg]].
    destruct Hq as [|(E & _)]; [done|]. by rewrite E in Hk.
  - destruct r as [c|x]; [|done]. destruct Hr as (Hqu & hashes & Hp & -> & Hd & _). split; [done|]. split; [by apply (page_good _ _ _ Hp)|done].
Qed.

(** One pass of the cycle makes progress. *)
Lemma pass_spec d v after limit cancel s m : observes cancel → owned s (d_id d) v m → clean_to s (d_id d) v after →
  wp (collect_offline_cached d after limit cancel) (m, (true, s)) (λ r t, let s' := t.2.2 in t.2.1 = true ∧ owned s' (d_id d) v t.1 ∧
    cleans s (d_id d) v s' ∧ match r with
    | Ok c => if complete c then ∀ h, is_Some (objects s' !! (d_id d, h)) → reachable s' v h
        else clean_to s' (d_id d) v (next_after c) ∧ (base.size (ahead s' (d_id d) (next_after c)) < base.size (ahead s (d_id d) after))%nat
    | Err _ => True
    end).
Proof.
  intros Hc Ho Hto. eapply wp_mono; [apply wp_self; by apply collect_spec|]. intros r [m' [a s']] [Hrun (Ha & Hcl & Hm & _ & Hr)]. simpl in *.
  destruct (cleans_owned _ _ _ _ _ _ Ho Hcl Hm) as [Ho' _]. split; [done|]. split; [done|]. split; [done|]. destruct r as [c|x]; [|done].
  destruct Hr as (_ & hashes & Hp & _ & _ & -> & Hna & (s1 & s2 & Hv1 & Hlist) & Hgone).
  destruct (cleans_serves _ _ _ _ (ok_root _ _ _ (own_vol _ _ _ _ Ho)) Hcl) as [Hs Hsh].
  assert (∀ h, reachable s' v h ↔ reachable s v h) as Hre by (intros; apply serves_reachable; [apply (ok_packed _ _ _ (own_vol _ _ _ _ Ho))|done]).
  assert (1 ≤ limit) as Hlim.
  { revert Hrun. rewrite /collect_offline_cached /mbind /M_bind /guard_err. destruct (Z.leb_spec 1 limit); [done|]. simpl. by intros [=]. }
  assert (page_of s (d_id d) after hashes) as [Hin Hpage].
  { pose proof (listing_law s1 (d_id d) after limit Hlim) as Hll. rewrite /wp Hlist /= in Hll. destruct Hv1 as (Eo & _). by rewrite /page_of Eo in Hll. }
  assert (∀ h, is_Some (objects s' !! (d_id d, h)) → h ∈ hashes → reachable s v h) as Hkept.
  { intros h Hh Hl. destruct (Hgone h Hl) as [E|]; [|done]. rewrite E in Hh. by destruct Hh. }
  assert (∀ h, is_Some (objects s' !! (d_id d, h)) → is_Some (objects s !! (d_id d, h))) as Hold.
  { intros h [b Hb]. exists b. by eapply lookup_weaken. }
  case_bool_decide as He.
  - subst hashes. intros h Hh. apply Hre. destruct (beyond after h) eqn:Hb; [|by apply Hto; [apply Hold|]].
    by destruct (Hpage h (Hold h Hh) Hb) as [?%not_elem_of_nil|(z & ? & _)].
  - rewrite Hna. destruct (last hashes) as [z|] eqn:Hlast; [|by apply last_None in Hlast]. split.
    + intros h Hh Hb. apply Hre. destruct (beyond after h) eqn:Hb'; [|by apply Hto; [apply Hold|]].
      destruct (Hpage h (Hold h Hh) Hb') as [|(z' & E & Hz')]; [by apply Hkept|]. simplify_eq. by rewrite Hz' in Hb.
    + assert (z ∈ hashes) as Hz by (by apply last_Some_elem_of). apply ahead_next; [done|by apply Hin|]. by eapply page_good.
Qed.

Lemma cycle_spec n d v after limit cancel s0 s m : observes cancel → vol_ok s0 (d_id d) v → owned s (d_id d) v m →
  cleans s0 (d_id d) v s → clean_to s (d_id d) v after → (base.size (ahead s (d_id d) after) < n)%nat →
  wp (cycle n d after limit cancel) (m, (true, s)) (λ r t, let s' := t.2.2 in cleans s0 (d_id d) v s' ∧ owned s' (d_id d) v t.1 ∧
    match r with Ok b => b = true ∧ ∀ h, is_Some (objects s' !! (d_id d, h)) → reachable s' v h | Err _ => True end).
Proof.
  intros Hc Ho0. revert s m after. induction n as [|n IH]; intros s m after Ho Hcl Hto Hf; [lia|].
  simpl. wp_step. eapply wp_mono; [by apply pass_spec|]. intros r [m' [a s']] (Ha & Ho' & Hcl' & Hr). simpl in *. subst a.
  assert (cleans s0 (d_id d) v s') as Hcl0 by (by eapply cleans_trans).
  destruct r as [c|x]; [|done]. destruct (complete c); [by wp_step|]. destruct Hr as [Hto' Hlt]. apply IH; [done|done|done|lia].
Qed.

(** C10: collection completes.  A cycle of passes, however its calls fail, ends: with
    more fuel than the volume has objects it never runs out, and when it ends without
    an error exactly the reachable objects of the volume are left. *)
Theorem collect_completes (n : nat) (d : OwnedDisk) (v : IndexedVolume) (limit : Z) (cancel : S → bool * S) (s : S) (m : option OfflineMark) :
  observes cancel → owned s (d_id d) v m → (base.size (objects s) < n)%nat →
  wp (cycle n d None limit cancel) (m, (true, s)) (λ r t, let s' := t.2.2 in
    owned s' (d_id d) v t.1 ∧ (∀ i, block s' v i = block s v i) ∧
    match r with
    | Ok b => b = true ∧ ∀ h, is_Some (objects s' !! (d_id d, h)) ↔ is_Some (objects s !! (d_id d, h)) ∧ reachable s v h
    | Err _ => True
    end).
Proof.
  intros Hc Ho Hn. eapply wp_mono; [apply (cycle_spec n d v None limit cancel s s m); try done|].
  - apply Ho.
  - by apply cleans_view.
  - eapply Nat.le_lt_trans; [apply map_subseteq_size, map_filter_subseteq|done].
  - intros r [m' [a s']] (Hcl & Ho' & Hr). simpl in *. destruct (cleans_owned s s' (d_id d) v m m' Ho Hcl) as [_ Hb].
    { intros k Hk Hi Hrv. eapply marks_iff; [|by eapply (own_mark _ _ _ _ Ho')]. intros h. apply (cleans_reachable s s' (d_id d)); [apply Ho|done]. }
    split; [done|]. split; [done|]. destruct r as [b|x]; [|done]. destruct Hr as [-> Hr]. split; [done|]. intros h.
    destruct (cleans_serves _ _ _ _ (ok_root _ _ _ (own_vol _ _ _ _ Ho)) Hcl) as [[_ Hs] Hsh].
    assert (volume (root v) = d_id d) as Hvol by (by destruct (proj1 (root_ok_spec _ _) (ok_root _ _ _ (own_vol _ _ _ _ Ho))) as (_ & _ & _ & _ & ? & _)).
    rewrite Hvol in Hs. split.
    + intros Hh. assert (reachable s v h) as Hre by (apply (cleans_reachable s s' (d_id d)); [apply Ho|done|by apply Hr]).
      split; [|done]. by rewrite -Hs.
    + intros [Hh Hre]. by rewrite Hs.
Qed.

(** ** Sweeping *)
Fixpoint sweeps (fuel : nat) (id : string) (limit : Z) : M Error S bool :=
  match fuel with
  | O => mret false
  | Datatypes.S fuel => p ← sweep id limit; if swept p then mret true else sweeps fuel id limit
  end.

Context {up : S → Prop} {RS : ReliableStore S up} {RR : ReliableReclaim S up}.

Lemma delete_chunks_up s id gs : up s → valid_id id = true → Zlen gs ≤ 1000 → (∀ h, h ∈ gs → valid_hash h = true) →
  wp (delete_chunks id gs) s (λ r s', (r = Ok tt ∧ up s') ∧ prunes id gs s s' ∧ ∀ h, h ∈ gs → objects s' !! (id, h) = None).
Proof.
  intros Hup Hid Hl Hh. eapply (wp_mono _ _ (λ r s', (r = Ok tt ∧ up s') ∧ prunes id gs s s' ∧ match r with Ok _ => _ | Err _ => True end));
    [apply wp_and; [|apply delete_chunks_spec]|by intros r s' ([-> ?] & ? & ?)].
  rewrite /delete_chunks Hid. destruct (Z.ltb_spec 1000 (Zlen gs)); [lia|]. destruct (existsb _ gs) eqn:He.
  { apply existsb_exists in He as (h & Hin & Hb). apply list_elem_of_In in Hin. by rewrite /Codec.decode (Hh h Hin) in Hb. }
  simpl. apply (wp_join_ok _ s up); [done|]. intros m s1 Hm Hup1. apply list_elem_of_fmap in Hm as (w & -> & _).
  apply (wp_for_each _ _ _ (λ _, up)); [done| |done]. intros h l s2 Hup2. eapply wp_mono; [by apply up_delete|]. by intros r s3 [-> ?].
Qed.

Lemma sweep_up s id limit h : up s → valid_id id = true → 1 ≤ limit ≤ 1000 → heads s !! id = Some h → retired id h = Ok true →
  (∀ d, is_Some (objects s !! (id, d)) → valid_hash d = true) →
  wp (sweep id limit) s (λ r s', up s' ∧ ∃ l, r = Ok (mkProgress (Zlen l) (bool_decide (l = []))) ∧ page_of s id None l ∧
    prunes id l s s' ∧ ∀ d, d ∈ l → objects s' !! (id, d) = None).
Proof.
  intros Hup Hid Hlim Hh Hret Hkeys. rewrite /sweep Hid. destruct (Z.leb_spec 1 limit), (Z.leb_spec limit 1000); try lia. simpl.
  wp_step. wp_step. wp_step. eapply wp_mono; [apply wp_and; [apply head_law|by apply (up_head s id)]|].
  intros r s1 [[Hv1 _] [-> Hup1]]. rewrite Hh. wp_step. apply wp_ret. wp_step. rewrite Hret. apply wp_of_result. wp_step. wp_step; [|done].
  wp_step. eapply wp_mono; [apply wp_and; [apply list_law|apply wp_and; [apply (listing_law s1 id None limit); lia|apply up_list; [done|lia]]]|].
  intros r s2 (Hv2 & Hpg & (l & -> & Hl) & Hup2). destruct Hv1 as (Eo1 & Eh1 & Eb1). rewrite /page_of Eo1 in Hpg.
  assert (∀ d, d ∈ l → valid_hash d = true) as Hhash by (intros d Hd; by apply Hkeys, Hpg).
  assert (same_view s s2) as Hv02 by (destruct Hv2 as (A & B & C); by rewrite /same_view A B C).
  wp_step. wp_step.
  2: { match goal with E : negb _ = false |- _ => apply negb_false_iff, orb_true_iff in E as [E|E]; [apply Z.ltb_lt in E; lia|rename E into Hbad] end.
       apply existsb_exists in Hbad as (d & Hin & Hb). apply list_elem_of_In in Hin. by rewrite /hash (Hhash d Hin) in Hb. }
  wp_step. eapply wp_mono; [apply (delete_chunks_up s2 id l); [done|done|lia|done]|]. intros r s3 [[-> Hup3] [Hp Hd]]. wp_step.
  split; [done|]. exists l. split; [done|]. split; [done|]. split; [|done]. eapply prunes_trans; [by apply prunes_view|done].
Qed.

(** C11: sweeping terminates.  On a store that is up, the passes over a retired volume
    end, whatever their size, with none of its objects left and every other object and
    every head in place. *)
Theorem sweep_terminates (n : nat) (id : string) (limit : Z) (s : S) (h : Head) :
  up s → valid_id id = true → 1 ≤ limit ≤ 1000 → heads s !! id = Some h → retired id h = Ok true →
  (∀ d, is_Some (objects s !! (id, d)) → valid_hash d = true) → (base.size (objects s) < n)%nat →
  wp (sweeps n id limit) s (λ r s', r = Ok true ∧ heads s' = heads s ∧ base_objects s' = base_objects s ∧
    ∀ k, objects s' !! k = if decide (k.1 = id) then None else objects s !! k).
Proof.
  intros Hup Hid Hlim Hh Hret Hkeys Hn. revert s Hup Hh Hkeys Hn. induction n as [|n IH]; intros s Hup Hh Hkeys Hn; [lia|]. simpl.
  wp_step. eapply wp_mono; [by eapply sweep_up|]. intros r s1 (Hup1 & l & -> & [Hin Hpage] & Hp & Hgone). pose proof Hp as (Eh & Eb & Ho). simpl.
  case_bool_decide as He.
  - subst l. wp_step. split; [done|]. split; [done|]. split; [done|]. intros [i d]. simpl.
    destruct (Ho (i, d)) as [E|(_ & _ & ?%not_elem_of_nil)]; [|done]. rewrite E. case_decide as Hi; [subst i|done].
    apply eq_None_not_Some. intros Hs. by destruct (Hpage d Hs eq_refl) as [?%not_elem_of_nil|(z & ? & _)].
  - eapply wp_mono; [apply IH; [done|by rewrite Eh| |]|].
    + intros d Hd. apply Hkeys. destruct (Ho (id, d)) as [E|(E & _)]; [by rewrite -E|]. rewrite E in Hd. by destruct Hd.
    + destruct l as [|d l]; [done|]. assert (base.size (objects s1) < base.size (objects s))%nat; [|lia].
      apply map_subset_size, map_subset_alt. split; [by eapply prunes_sub|]. exists (id, d). split; [apply Hgone; by left|apply Hin; by left].
    + intros r s2 (-> & Eh2 & Eb2 & Ho2). split; [done|]. split; [congruence|]. split; [congruence|]. intros k. rewrite Ho2.
      case_decide as Hi; [done|]. by destruct (Ho k) as [|(_ & ? & _)].
Qed.
End passes.

(** ** The reference store *)
Module Instances.
Import Memory.

#[export] Instance string_le_total : Total string_le.
Proof. intros a b. apply String.leb_total. Qed.
#[export] Instance string_le_trans : Transitive string_le.
Proof. intros a b c. rewrite /string_le -!Is_true_true. apply (transitivity (R := String.le)). Qed.

Lemma string_le_anti a b : string_le a b → string_le b a → a = b.
Proof. apply String.leb_antisym. Qed.

Definition keys_after (id : string) (after : option string) (s : Mem) : list (string * string) :=
  filter (λ k, k.1 = id ∧ match after with Some a => String.ltb a k.2 | None => true end = true) (fst <$> map_to_list (mem_objects s)).

Lemma ltb_beyond a h : String.ltb a h = negb (String.leb h a).
Proof.
  rewrite /String.ltb /String.leb (String.compare_antisym a h). by destruct (String.compare h a).
Qed.

Lemma keys_after_in id after s h : h ∈ snd <$> keys_after id after s ↔ is_Some (mem_objects s !! (id, h)) ∧ beyond after h = true.
Proof.
  rewrite list_elem_of_fmap /keys_after /beyond. setoid_rewrite list_elem_of_filter. setoid_rewrite list_elem_of_fmap.
  assert (∀ a, match a with Some a => String.ltb a h | None => true end = match a with Some a => negb (String.leb h a) | None => true end) as E.
  { intros [a|]; [apply ltb_beyond|done]. }
  rewrite -E. split.
  - intros ([i h'] & -> & [Hi Hb] & ([k b] & Hk & Hm)). simpl in *. subst. split; [|done]. exists b. by apply elem_of_map_to_list.
  - intros [[b Hb] Hd]. exists (id, h). split; [done|]. split; [done|]. exists ((id, h), b). split; [done|]. by apply elem_of_map_to_list.
Qed.

Lemma NoDup_keys_after id after s : NoDup (snd <$> keys_after id after s).
Proof.
  rewrite /keys_after. apply NoDup_fmap_2_strong.
  - intros [i h] [j k] [[Hi _] _]%list_elem_of_filter [[Hj _] _]%list_elem_of_filter. simpl in *. congruence.
  - apply NoDup_filter, NoDup_fst_map_to_list.
Qed.

#[export] Instance mem_listing : ListingLaws Mem.
Proof.
  intros s id after limit Hlim. rewrite /wp /=. set (L := merge_sort string_le (snd <$> keys_after id after s)).
  assert (∀ h, h ∈ L ↔ is_Some (mem_objects s !! (id, h)) ∧ beyond after h = true) as Hin.
  { intros h. by rewrite /L merge_sort_Permutation keys_after_in. }
  assert (NoDup L) as Hnd by (rewrite /L merge_sort_Permutation; apply NoDup_keys_after).
  assert (StronglySorted string_le L) as Hs by (apply StronglySorted_merge_sort; apply _).
  change (listing id after limit s) with (take (Z.to_nat limit) L). split.
  - intros h Hh. apply Hin. by eapply elem_of_take in Hh as (i & Hi%list_elem_of_lookup_2 & _).
  - intros h Hh Hb. assert (h ∈ L) as HL by (by apply Hin). rewrite -(take_drop (Z.to_nat limit) L) in HL.
    apply elem_of_app in HL as [|Hd]; [by left|]. right. destruct (last (take (Z.to_nat limit) L)) as [z|] eqn:Hz.
    + exists z. split; [done|]. apply last_Some_elem_of in Hz. simpl. apply negb_true_iff, not_true_iff_false. intros Hle.
      assert (string_le z h) as Hzh.
      { rewrite -(take_drop (Z.to_nat limit) L) in Hs. by eapply StronglySorted_app_1_elem_of. }
      rewrite (string_le_anti h z Hle Hzh) in Hd. rewrite -(take_drop (Z.to_nat limit) L) in Hnd.
      apply NoDup_app in Hnd as (_ & Hdis & _). by eapply Hdis.
    + apply last_None in Hz. destruct L as [|x L']; [by destruct (not_elem_of_nil h); rewrite drop_nil in Hd|].
      destruct (Z.to_nat limit) eqn:E; [lia|done].
Qed.

#[export] Instance mem_reclaim : ReliableReclaim Mem calm.
Proof.
  split; rewrite /wp /=.
  - intros s id after limit Hup Hl. split; [|done]. eexists. split; [done|]. rewrite /listing /Zlen length_take. lia.
  - intros s id h [Hf Hc]. rewrite /remove /pop_fault Hf. done.
Qed.
End Instances.

(** ** A concrete volume with garbage *)
Module Example.
Import Memory Fencing.Toy Instances.
#[local] Instance toy : Sha256 := ToySha.toy.
#[local] Instance toy_laws : Sha256Laws := ToySha.toy_laws.
#[local] Instance root_laws : JsonLaws Root.
Proof. intros r b [= <-]. simpl. by rewrite read_write. Qed.

Definition r0 : Root := mkRoot 8 "v" 65536 0 true ∅ None None.
Definition token : string := hex (replicate 32 7).
Definition head0 : Head := mkHead "h" (write (JEnvelope 4 "v" 2 (Some token) r0)).
(** An object that no page names, and one of another volume. *)
Definition orphan : string := hex (replicate 32 1).
Definition foreign : string := hex (replicate 32 2).
Definition mem0 : Mem := mkMem {[("v"%string, orphan) := [1]; ("w"%string, foreign) := [2]]} {["v"%string := head0]} ∅ 0 [] [].
Definition disk : OwnedDisk := mkOwnedDisk "v" (mkIdentity "v" token 2) Active (Local.mkStatus false 0 0 0 false).
Definition v0 : IndexedVolume := mkIndexed r0 None "h" ∅ false.

(** A whole cycle takes the orphan and nothing else. *)
Definition collected : Result Error bool * (option OfflineMark * (bool * Mem)) := cycle 3 disk None 16 Indexed.never (None, (true, mem0)).
Example cycle_run : (let c := collected in (c.1, fst <$> map_to_list (mem_objects c.2.2.2))) = (Ok true, [("w"%string, foreign)]).
Proof. vm_compute. reflexivity. Qed.
(** With pending local writes nothing is touched. *)
Example pending_run :
  let d := mkOwnedDisk "v" (mkIdentity "v" token 2) Active (Local.mkStatus false 1 0 65536 false) in
  collect_offline d None 16 Indexed.never (true, mem0) = (Err Backpressure, (true, mem0)).
Proof. vm_compute. reflexivity. Qed.

Lemma mem0_objects k b : objects mem0 !! k = Some b → bytes b.
Proof.
  change (objects mem0) with ({[("v"%string, orphan) := [1]; ("w"%string, foreign) := [2]]} : gmap (string * string) (list Z)).
  intros [[_ <-]|[_ [_ <-]%lookup_singleton_Some]]%lookup_insert_Some; by repeat constructor.
Qed.
Lemma mem0_typed : typed mem0.
Proof. split; [exact mem0_objects|]. intros k b Hk. by destruct (lookup_empty_Some (M := gmap (string * string)) k b Hk). Qed.

Lemma owned0 : owned mem0 "v" v0 None.
Proof.
  split; [|exists head0, (JEnvelope 4 "v" 2 (Some token) r0), (mkEnvelope 4 "v" 2 (Some token) (JRoot r0)), (write (JRoot r0))|done].
  - refine (proj1 (fresh_ok mem0 "v" r0 "h" _ eq_refl eq_refl eq_refl mem0_typed)). by vm_compute.
  - repeat split; vm_compute; reflexivity.
Qed.
Lemma quiet_never : observes (S := Mem) Indexed.never.
Proof. done. Qed.

Lemma collect_safe_witness : wp (collect_offline_cached disk None 16 Indexed.never) (None, (true, mem0)) (λ r t,
  let s' := t.2.2 in
  owned s' "v" v0 t.1 ∧ (∀ i, block s' v0 i = block mem0 v0 i) ∧ heads s' = heads mem0 ∧
  (∀ k, objects s' !! k ≠ objects mem0 !! k → quiescent disk ∧ k.1 = "v"%string ∧ ¬ reachable mem0 v0 k.2) ∧
  match r with Ok c => quiescent disk ∧ scanned_objects c ≤ 16 ∧ 0 ≤ deleted_objects c ≤ 16 | Err _ => True end).
Proof. exact (collect_safe disk v0 None 16 Indexed.never mem0 None quiet_never owned0). Defined.

Lemma few : (base.size (objects mem0) < 3)%nat.
Proof. vm_compute. lia. Qed.
Lemma collect_completes_witness : wp (cycle 3 disk None 16 Indexed.never) (None, (true, mem0)) (λ r t, let s' := t.2.2 in
  owned s' "v" v0 t.1 ∧ (∀ i, block s' v0 i = block mem0 v0 i) ∧
  match r with
  | Ok b => b = true ∧ ∀ h, is_Some (objects s' !! ("v"%string, h)) ↔ is_Some (objects mem0 !! ("v"%string, h)) ∧ reachable mem0 v0 h
  | Err _ => True
  end).
Proof. exact (collect_completes 3 disk v0 16 Indexed.never mem0 None quiet_never owned0 few). Defined.

(** A retired volume with two objects. *)
Definition grave : Head := mkHead "h" (write (JTombstone 5 "v" true)).
Definition mem1 : Mem := mkMem {[("v"%string, orphan) := [1]; ("v"%string, foreign) := [2]; ("w"%string, foreign) := [2]]} {["v"%string := grave]} ∅ 0 [] [].
Example sweep_run : (let c := sweeps 3 "v" 1 mem1 in (c.1, fst <$> map_to_list (mem_objects c.2))) = (Ok true, [("w"%string, foreign)]).
Proof. vm_compute. reflexivity. Qed.

Lemma mem1_keys d : is_Some (objects mem1 !! ("v"%string, d)) → valid_hash d = true.
Proof.
  assert (map_Forall (λ k _, valid_hash k.2 = true) (mem_objects mem1)) as H.
  { eapply bool_decide_eq_true_1. vm_compute. reflexivity. }
  intros [b Hb]. exact (H _ _ Hb).
Qed.
Lemma sweep_terminates_witness : wp (sweeps 4 "v" 1) mem1 (λ r s', r = Ok true ∧ heads s' = heads mem1 ∧ base_objects s' = base_objects mem1 ∧
  ∀ k, objects s' !! k = if decide (k.1 = "v"%string) then None else objects mem1 !! k).
Proof.
  apply (sweep_terminates (up := calm) 4 "v" 1 mem1 grave).
  - split; reflexivity.
  - vm_compute. reflexivity.
  - lia.
  - vm_compute. reflexivity.
  - vm_compute. reflexivity.
  - exact mem1_keys.
  - vm_compute. lia.
Defined.
End Example.
End Collect.
