(* ===== verification/Cache.v ===== *)
(** The object cache, [ahvm-volume/src/cache.rs] and [cache/metadata.rs]: a bounded
    first-in-first-out map of verified objects in front of an object store, with
    bounded read-ahead, a shared directory of image metadata and a local copy of the
    base image as further sources.  The bytes of every source are compared with the
    requested digest, so a cache can be wrong only about what the store still has.
    The methods are stated whole, as one caller runs them; the threads of the cache
    are interleaved as [Atom]s, one for each call of the store or the host and each
    section under the lock, of which every method that runs alone is a sequence
    ([alone]).  [Elsewhere] is what other hosts do to the shared store, and the single
    deletions of an unfinished call. *)
From S2P Require Import Prelude Codec ObjectStore Sums.

Module Cache.

Abbreviation Key := (string * string)%type.

Record State := mkState {
  c_objects : gmap Key (list Z);
  c_bytes : Z;
  c_order : list Key;
  c_pending : gset Key;
}.
Definition empty : State := mkState ∅ 0 [] ∅.

(** The handle: its capacity, the digest of the image that a local file holds, whether
    that file failed, and whether there is a metadata directory. *)
Record Cached := mkCached {
  state : State;
  capacity : Z;
  local_base : option string;
  local_failed : bool;
  has_metadata : bool;
}.
Definition set_state (c : State) (h : Cached) : Cached := mkCached c (capacity h) (local_base h) (local_failed h) (has_metadata h).
Definition fail_local (h : Cached) : Cached := mkCached (state h) (capacity h) (local_base h) true (has_metadata h).

(** [new], with the options of [with_local_base] and [with_metadata_cache]; the type,
    owner and mode of the host's file and directory are theirs to check. *)
Definition new (bytes : Z) (image : option string) (metadata : bool) : Result Error Cached :=
  if negb ((CHUNK_BYTES <=? bytes) && (bytes <=? 256 * 1024 * 1024)) then Err InvalidInput
  else if match image with Some i => negb (is_ok (decode i)) | None => false end then Err InvalidInput
  else Ok (mkCached empty bytes image false metadata).

(** [while s.bytes + bytes.len() > capacity]: [None] where one of the two [unwrap]s
    would panic. *)
Fixpoint evict (limit len : Z) (order : list Key) (objs : gmap Key (list Z)) (bytes : Z)
    : option (gmap Key (list Z) * Z * list Key) :=
  if limit <? bytes + len then
    match order with
    | [] => None
    | old :: order =>
        match objs !! old with
        | Some removed => evict limit len order (delete old objs) (bytes - Zlen removed)
        | None => None
        end
    end
  else Some (objs, bytes, order).

(** The body of [insert_into] under the lock. *)
Definition keep (limit : Z) (k : Key) (b : list Z) (c : State) : option State :=
  match c_objects c !! k with
  | Some _ => Some c
  | None =>
      '(objs, n, order) ← evict limit (Zlen b) (c_order c) (c_objects c) (c_bytes c);
      Some (mkState (<[k := b]> objs) (n + Zlen b) (order ++ [k]) (c_pending c))
  end.

Definition base_key (image : string) : string := ("base:" +:+ image)%string.

(** What the host's file system does: reading the slot of a metadata directory
    ([None] when it cannot be opened or read) and writing it, and reading a block of
    the local image.  Other processes share the directory, so a slot may hold
    anything. *)
Class HostFiles (S : Type) := {
  read_slot : Z → S → option (list Z) * S;
  write_slot : Z → list Z → S → S;
  read_image : Z → S → option (list Z) * S;
}.

Section cache.
Context {S : Type} {SHA : Sha256} {OS : ObjectStore S} {HF : HostFiles S}.

Definition insert_into (limit : Z) (k : Key) (b : list Z) : M Error State unit :=
  guard_err ((CHUNK_BYTES <=? Zlen b) && (Zlen b <=? MAX_OBJECT_BYTES) && is_multiple_of (Zlen b) CHUNK_BYTES
    && bool_decide (digest b = k.2)) Corrupt;;
  if limit <? Zlen b then mret tt else modify (λ c, default c (keep limit k b c)).

Definition on_inner {A} (m : M Error S A) : M Error (Cached * S) A := zoom snd (λ s t, (t.1, s)) m.
Definition insert (k : Key) (b : list Z) : M Error (Cached * S) unit :=
  limit ← gets (λ t, capacity t.1);
  zoom (λ t, state t.1) (λ c t, (set_state c t.1, t.2)) (insert_into limit k b).
Definition observe {A} (f : S → A * S) : M Error (Cached * S) A := λ t, let '(a, s) := f t.2 in (Ok a, (t.1, s)).

Definition cached_chunk (k : Key) (t : Cached * S) : option (list Z) := c_objects (state t.1) !! k.

(** *** The metadata directory *)
Definition slot (hash : string) : option Z := match decode hash with Ok raw => Some (index raw 0) | Err _ => None end.
Definition meta_get (hash : string) : M Error (Cached * S) (option (list Z)) :=
  match slot hash with
  | Some i =>
      r ← observe (read_slot i);
      mret (b ← r; if (Zlen b =? CHUNK_BYTES) && bool_decide (digest b = hash) then Some b else None)
  | None => mret None
  end.
Definition meta_put (hash : string) (b : list Z) : M Error (Cached * S) unit :=
  if negb (Zlen b =? CHUNK_BYTES) || negb (bool_decide (digest b = hash)) then mret tt
  else match slot hash with Some i => modify (λ t, (t.1, write_slot i b t.2)) | None => mret tt end.

(** *** Reading *)
Definition from_metadata (image hash : string) (offset : option Z) : M Error (Cached * S) (option (list Z)) :=
  use ← gets (λ t, has_metadata t.1 && bool_decide (offset = None));
  if (use : bool) then
    r ← meta_get hash;
    match r with
    | Some b => insert (base_key image, hash) b;; mret (Some b)
    | None => mret None
    end
  else mret None.

(** A block of the local image; the first block that differs disables it. *)
Definition from_image (image hash : string) (offset : option Z) : M Error (Cached * S) (option (list Z)) :=
  match offset with
  | Some at_ =>
      use ← gets (λ t, bool_decide (local_base t.1 = Some image) && negb (local_failed t.1));
      if (use : bool) then
        r ← observe (read_image at_);
        match r with
        | Some b => if bool_decide (digest b = hash) then mret (Some b) else modify (λ t, (fail_local t.1, t.2));; mret None
        | None => modify (λ t, (fail_local t.1, t.2));; mret None
        end
      else mret None
  | None => mret None
  end.

Definition fetch_base (image hash : string) (offset : option Z) : M Error (Cached * S) (list Z) :=
  b ← on_inner (base_chunk image hash offset);
  use ← gets (λ t, has_metadata t.1 && bool_decide (offset = None));
  (if (use : bool) then meta_put hash b else mret tt);;
  insert (base_key image, hash) b;;
  mret b.

Definition cached_base_chunk (image hash : string) (offset : option Z) : M Error (Cached * S) (list Z) :=
  r ← gets (cached_chunk (base_key image, hash));
  match r with
  | Some b => mret b
  | None =>
      r ← from_metadata image hash offset;
      match r with
      | Some b => mret b
      | None =>
          r ← from_image image hash offset;
          match r with Some b => mret b | None => fetch_base image hash offset end
      end
  end.

Definition cached_chunk_of (id hash : string) : M Error (Cached * S) (list Z) :=
  r ← gets (cached_chunk (id, hash));
  match r with
  | Some b => mret b
  | None => b ← on_inner (chunk id hash); insert (id, hash) b;; mret b
  end.

Definition cached_put_chunk (id hash : string) (b : list Z) : M Error (Cached * S) unit :=
  on_inner (put_chunk id hash b);; insert (id, hash) b.
Definition cached_put_chunk_cancellable (id hash : string) (b : list Z) (cancel : S → bool * S) : M Error (Cached * S) unit :=
  on_inner (put_chunk_cancellable id hash b cancel);; insert (id, hash) b.

(** *** Read-ahead *)
Definition source_key (is_base : bool) (id : string) : string := if is_base then base_key id else id.

(** Reservation of the requests: at most seven are in flight. *)
Fixpoint reserve (name : string) (hashes : list string) (c : State) : State :=
  match hashes with
  | [] => c
  | hash :: hashes =>
      if (7 <=? Z.of_nat (base.size (c_pending c))) then c
      else if bool_decide (is_Some (c_objects c !! (name, hash))) || bool_decide ((name, hash) ∈ c_pending c)
      then reserve name hashes c
      else reserve name hashes (mkState (c_objects c) (c_bytes c) (c_order c) ({[(name, hash)]} ∪ c_pending c))
  end.
Definition prefetch_objects (is_base : bool) (id : string) (hashes : list string) (t : Cached * S) : Cached * S :=
  (set_state (reserve (source_key is_base id) hashes (state t.1)) t.1, t.2).
Definition cached_prefetch_base (image : string) (hashes : list string) (t : Cached * S) : Cached * S :=
  if bool_decide (local_base t.1 = Some image) && negb (local_failed t.1) then t else prefetch_objects true image hashes t.

(** A reservation is given back when its thread is done, or could not be spawned. *)
Definition drop_pending (k : Key) (t : Cached * S) : Cached * S :=
  let c := state t.1 in (set_state (mkState (c_objects c) (c_bytes c) (c_order c) (c_pending c ∖ {[k]})) t.1, t.2).

(** *** Deletion *)
Definition forget (id : string) (c : State) (hash : string) : State :=
  match c_objects c !! (id, hash) with
  | Some b => mkState (delete (id, hash) (c_objects c)) (c_bytes c - Zlen b) (c_order c) (c_pending c)
  | None => c
  end.
Definition retain (c : State) : State :=
  mkState (c_objects c) (c_bytes c) (filter (λ k, is_Some (c_objects c !! k)) (c_order c)) (c_pending c).
(** What a deletion does under the lock. *)
Definition forget_all (id : string) (hashes : list string) (t : Cached * S) : Cached * S :=
  (set_state (retain (fold_left (forget id) hashes (state t.1))) t.1, t.2).
Definition cached_delete_chunks (id : string) (hashes : list string) : M Error (Cached * S) unit :=
  on_inner (delete_chunks id hashes);; modify (forget_all id hashes).

(** [impl ObjectStore for CachedStore] *)
Definition cached_store : ObjectStore (Cached * S) := {|
  base_chunk := cached_base_chunk;
  prefetch_base := cached_prefetch_base;
  prefetch id hashes := prefetch_objects false id hashes;
  ObjectStore.cached_chunk id hash t := cached_chunk (id, hash) t;
  list_chunks_after id after limit := on_inner (list_chunks_after id after limit);
  delete_chunk id hash := cached_delete_chunks id [hash];
  head id := on_inner (head id);
  chunk := cached_chunk_of;
  put_chunk := cached_put_chunk;
  publish id expected m := on_inner (publish id expected m);
  cancelled := λ t, let '(b, s) := cancelled t.2 in (b, (t.1, s));
  past_deadline := λ t, let '(b, s) := past_deadline t.2 in (b, (t.1, s));
|}.

(** *** The threads of the cache

    The methods run on any number of threads, and so does read-ahead; the lock is
    held only to look an object up, to insert one, to reserve, and to forget.  An
    object that a thread has got from the store, and has not inserted yet, is in
    flight; a deletion that the store has done, and the cache has not, is to be
    forgotten. *)
Record Sys := mkSys {
  y_cache : Cached * S;
  y_flight : list (Key * list Z);
  y_forget : list (string * list string);
}.
Definition on_cache {A} (m : M Error (Cached * S) A) : M Error Sys A := zoom y_cache (λ t y, mkSys t (y_flight y) (y_forget y)) m.
Definition take_off (k : Key) (b : list Z) : M Error Sys unit := modify (λ y, mkSys (y_cache y) (y_flight y ++ [(k, b)]) (y_forget y)).

(** The first half of a read, of read-ahead and of an upload ... *)
Definition fetch (is_base : bool) (id hash : string) (offset : option Z) : M Error Sys unit :=
  b ← on_cache (on_inner (if is_base then base_chunk id hash offset else chunk id hash));
  take_off (source_key is_base id, hash) b.
Definition upload (id hash : string) (b : list Z) : M Error Sys unit :=
  on_cache (on_inner (put_chunk id hash b));; take_off (id, hash) b.
Definition upload_cancellable (id hash : string) (b : list Z) (cancel : S → bool * S) : M Error Sys unit :=
  on_cache (on_inner (put_chunk_cancellable id hash b cancel));; take_off (id, hash) b.
Definition look_up (image hash : string) : M Error Sys unit :=
  r ← on_cache (meta_get hash);
  match r with Some b => take_off (base_key image, hash) b | None => mret tt end.
(** ... and the second half of each, under the lock, at any later time. *)
Definition land (n : nat) : M Error Sys unit :=
  o ← gets (λ y, y_flight y !! n);
  match o with
  | Some (k, b) => modify (λ y, mkSys (y_cache y) (delete n (y_flight y)) (y_forget y));; on_cache (insert k b)
  | None => mret tt
  end.
(** The two halves of a deletion. *)
Definition unstore (id : string) (hashes : list string) : M Error Sys unit :=
  on_cache (on_inner (delete_chunks id hashes));;
  modify (λ y, mkSys (y_cache y) (y_flight y) (y_forget y ++ [(id, hashes)])).
Definition forget_next (n : nat) : M Error Sys unit :=
  o ← gets (λ y, y_forget y !! n);
  match o with
  | Some (id, hashes) =>
      modify (λ y, mkSys (y_cache y) (y_flight y) (delete n (y_forget y)));; on_cache (modify (forget_all id hashes))
  | None => mret tt
  end.

Inductive Atom :=
| Fetch (is_base : bool) (id hash : string) (offset : option Z)
| Upload (id hash : string) (b : list Z)
| UploadCancellable (id hash : string) (b : list Z) (cancel : S → bool * S)
| LookUp (image hash : string)
| Land (n : nat)
| SaveMeta (hash : string) (b : list Z)
| ReadImage (at_ : Z)
| FailLocal
| Reserve (is_base : bool) (id hash : string)
| Release (k : Key)
| Unstore (id : string) (hashes : list string)
| Forget (n : nat)
| Publish (id : string) (expected : option string) (m : list Z)
| Elsewhere (f : S → S).
Definition exec (a : Atom) : M Error Sys unit :=
  match a with
  | Fetch is_base id hash offset => fetch is_base id hash offset
  | Upload id hash b => upload id hash b
  | UploadCancellable id hash b cancel => upload_cancellable id hash b cancel
  | LookUp image hash => look_up image hash
  | Land n => land n
  | SaveMeta hash b => on_cache (meta_put hash b)
  | ReadImage at_ => on_cache (observe (read_image at_));; mret tt
  | FailLocal => on_cache (modify (λ t, (fail_local t.1, t.2)))
  | Reserve is_base id hash => on_cache (modify (prefetch_objects is_base id [hash]))
  | Release k => on_cache (modify (drop_pending k))
  | Unstore id hashes => unstore id hashes
  | Forget n => forget_next n
  | Publish id expected m => on_cache (on_inner (publish id expected m));; mret tt
  | Elsewhere f => on_cache (modify (λ t, (t.1, f t.2)))
  end.
Definition run (l : list Atom) (y : Sys) : Sys := fold_left (λ y a, (exec a y).2) l y.
Definition start (h : Cached) (s : S) : Sys := mkSys (h, s) [] [].
End cache.

(** ** The bounds of the cache *)
Definition verified {SHA : Sha256} (k : Key) (b : list Z) : Prop :=
  CHUNK_BYTES ≤ Zlen b ≤ MAX_OBJECT_BYTES ∧ Zlen b mod CHUNK_BYTES = 0 ∧ digest b = k.2.

(** The objects are exactly the keys of the queue and their sizes add up. *)
Record kept {SHA : Sha256} (objs : gmap Key (list Z)) (n : Z) (order : list Key) : Prop := {
  kept_once : NoDup order;
  kept_keys k : k ∈ order ↔ is_Some (objs !! k);
  kept_bytes : n = total (λ _ b, Zlen b) objs;
  kept_verified k b : objs !! k = Some b → verified k b;
}.
Record sound {SHA : Sha256} (limit : Z) (c : State) : Prop := {
  sound_kept : kept (c_objects c) (c_bytes c) (c_order c);
  sound_limit : c_bytes c ≤ limit;
  sound_pending : (base.size (c_pending c) ≤ 7)%nat;
}.

Section bounds.
Context {SHA : Sha256}.

Lemma kept_empty : kept ∅ 0 [].
Proof.
  split; [constructor| |by rewrite total_empty|done]. intros k. rewrite lookup_empty. split; [by intros ?%not_elem_of_nil|by intros []].
Qed.

Lemma sizes_nonneg (objs : gmap Key (list Z)) : 0 ≤ total (λ _ b, Zlen b) objs.
Proof. apply total_nonneg. intros. apply Zlen_nonneg. Qed.

Lemma kept_tail old order objs n b : kept objs n (old :: order) → objs !! old = Some b → kept (delete old objs) (n - Zlen b) order.
Proof.
  intros [Hnd Hk Hn Hv] Hb. apply NoDup_cons in Hnd as [Hni Hnd]. split; [done|..].
  - intros k. rewrite lookup_delete_is_Some -Hk elem_of_cons. split; [|naive_solver]. intros Hin. split; [by intros ->|by right].
  - rewrite Hn (total_delete _ objs old b Hb). lia.
  - intros k b' [_ ?]%lookup_delete_Some. by apply Hv.
Qed.

(** Eviction ends before the queue does. *)
Lemma evict_spec limit len order objs n : kept objs n order → len ≤ limit →
  ∃ objs' n' order', evict limit len order objs n = Some (objs', n', order') ∧ kept objs' n' order' ∧ n' + len ≤ limit ∧ objs' ⊆ objs.
Proof.
  revert objs n. induction order as [|old order IH]; intros objs n Hk Hl; simpl; (destruct (Z.ltb_spec limit (n + len)); [|by exists objs, n; eexists]).
  - exfalso. assert (objs = ∅) as ->.
    { apply map_empty. intros k. apply eq_None_not_Some. rewrite -(kept_keys _ _ _ Hk). by intros ?%not_elem_of_nil. }
    rewrite (kept_bytes _ _ _ Hk) total_empty in H. lia.
  - destruct (proj1 (kept_keys _ _ _ Hk old)) as [b Hb]; [by left|]. rewrite Hb.
    destruct (IH (delete old objs) (n - Zlen b)) as (objs' & n' & order' & E & Hk' & Hn' & Hsub); [by eapply kept_tail|done|].
    exists objs', n', order'. split; [done|]. split; [done|]. split; [done|]. etrans; [exact Hsub|apply delete_subseteq].
Qed.

Lemma keep_spec limit k b c : sound limit c → verified k b → Zlen b ≤ limit →
  ∃ c', keep limit k b c = Some c' ∧ sound limit c' ∧
    (∀ k' b', c_objects c' !! k' = Some b' → c_objects c !! k' = Some b' ∨ k' = k ∧ b' = b ∧ c_objects c !! k = None).
Proof.
  intros [Hk Hl Hp] Hv Hb. rewrite /keep. destruct (c_objects c !! k) as [b0|] eqn:Hk0.
  { exists c. split; [done|]. split; [done|]. by left. }
  destruct (evict_spec limit (Zlen b) _ _ _ Hk Hb) as (objs' & n' & order' & -> & [Hnd Hkk Hn Hvv] & Hn' & Hsub). simpl.
  assert (objs' !! k = None) as Hno.
  { apply eq_None_not_Some. intros [b' Hb']. eapply lookup_weaken in Hb'; [|exact Hsub]. congruence. }
  eexists. split; [done|]. split; [split; simpl; [split|lia|done]|].
  - apply NoDup_app. split; [done|]. split; [|apply NoDup_singleton]. intros k' Hin ->%list_elem_of_singleton. apply Hkk in Hin. rewrite Hno in Hin. by destruct Hin.
  - intros k'. rewrite elem_of_app list_elem_of_singleton Hkk lookup_insert_is_Some. destruct (decide (k = k')); naive_solver.
  - rewrite total_insert_new // Hn. lia.
  - intros k' b' [[<- <-]|[_ ?]]%lookup_insert_Some; [done|by apply Hvv].
  - simpl. intros k' b' [[<- <-]|[_ ?]]%lookup_insert_Some; [by right|left]. by eapply lookup_weaken.
Qed.

Lemma reserve_sound limit name hashes c : sound limit c → sound limit (reserve name hashes c) ∧ c_objects (reserve name hashes c) = c_objects c.
Proof.
  revert c. induction hashes as [|h hs IH]; intros c Hs; simpl; [done|]. destruct (Z.leb_spec 7 (Z.of_nat (base.size (c_pending c)))); [done|].
  destruct (_ || _); [by apply IH|]. edestruct (IH (mkState (c_objects c) (c_bytes c) (c_order c) ({[(name, h)]} ∪ c_pending c))) as [H1 H2]; [|by split].
  destruct Hs as [Hk Hl Hp]. split; [done|done|]. simpl.
  assert (base.size ({[(name, h)]} ∪ c_pending c) ≤ 1 + base.size (c_pending c))%nat; [|lia].
  rewrite -(size_singleton (C := gset Key) (name, h)). rewrite size_union_alt. apply Nat.add_le_mono_l, subseteq_size. set_solver.
Qed.

Lemma forget_spec id hs c : c_bytes c = total (λ _ b, Zlen b) (c_objects c) →
  let c' := fold_left (forget id) hs c in c_bytes c' = total (λ _ b, Zlen b) (c_objects c') ∧ c_order c' = c_order c ∧ c_pending c' = c_pending c ∧
  ∀ k b, c_objects c' !! k = Some b ↔ c_objects c !! k = Some b ∧ ¬ (k.1 = id ∧ k.2 ∈ hs).
Proof.
  revert c. induction hs as [|h hs IH]; intros c Hb; simpl.
  { split; [done|]. split; [done|]. split; [done|]. intros k b. split; [|by intros []]. intros Hk. split; [done|]. by intros [_ ?%not_elem_of_nil]. }
  assert (c_bytes (forget id c h) = total (λ _ b, Zlen b) (c_objects (forget id c h)) ∧ c_order (forget id c h) = c_order c ∧
    c_pending (forget id c h) = c_pending c ∧ c_objects (forget id c h) = delete (id, h) (c_objects c)) as (H1 & H2 & H3 & H4).
  { rewrite /forget. destruct (c_objects c !! (id, h)) as [b|] eqn:Hh; simpl; [|by rewrite delete_id].
    rewrite Hb (total_delete _ _ _ _ Hh). split; [lia|done]. }
  destruct (IH (forget id c h) H1) as (E1 & E2 & E3 & E4). split; [done|]. split; [congruence|]. split; [congruence|].
  intros k b. rewrite E4 H4 lookup_delete_Some elem_of_cons. destruct k as [i d]. simpl. naive_solver.
Qed.

Lemma delete_sound limit id hs c : sound limit c → let c' := retain (fold_left (forget id) hs c) in sound limit c' ∧
  ∀ k b, c_objects c' !! k = Some b ↔ c_objects c !! k = Some b ∧ ¬ (k.1 = id ∧ k.2 ∈ hs).
Proof.
  intros [[Hnd Hk Hn Hv] Hl Hp]. destruct (forget_spec id hs c Hn) as (E1 & E2 & E3 & E4). cbv zeta. split; [|done].
  split; simpl; [split| |by rewrite E3].
  - apply NoDup_filter. by rewrite E2.
  - intros k. rewrite list_elem_of_filter E2 Hk. split; [by intros []|]. intros [b Hb]. split; [by eexists|]. exists b. by apply E4.
  - done.
  - intros k b Hb. apply Hv, E4, Hb.
  - rewrite E1. etrans; [|exact Hl]. rewrite Hn. apply total_dom_le; [intros; apply Zlen_nonneg|]. intros k b [Hb _]%E4. by rewrite Hb.
Qed.
End bounds.

(** The host's files are not the store. *)
Class HostLaws (S : Type) {SV : StoreView S} {HF : HostFiles S} : Prop := {
  read_slot_law i s : same_view s (read_slot i s).2;
  write_slot_law i b s : same_view s (write_slot i b s);
  read_image_law at_ s : same_view s (read_image at_ s).2;
}.

Section runs.
Context {S : Type} {SHA : Sha256} {OS : ObjectStore S} {HF : HostFiles S}.
Implicit Types t : Cached * S.
Implicit Types y : Sys (S := S).

(** ** The methods are made of the atoms *)
Definition reaches y y' : Prop := ∃ l, run l y = y'.
Lemma reaches_nil y : reaches y y.
Proof. by exists []. Qed.
Lemma reaches_trans y1 y2 y3 : reaches y1 y2 → reaches y2 y3 → reaches y1 y3.
Proof. intros [l1 <-] [l2 <-]. exists (l1 ++ l2). by rewrite /run fold_left_app. Qed.
Lemma reaches_one a y : reaches y (exec a y).2.
Proof. by exists [a]. Qed.
Lemma reaches_cons a y y' : reaches (exec a y).2 y' → reaches y y'.
Proof. intros [l <-]. by exists (a :: l). Qed.

(** A method that runs alone is a sequence of atoms, and leaves nothing in flight. *)
Definition alone {A} (m : M Error (Cached * S) A) : Prop :=
  ∀ t f g, wp m t (λ _ t', reaches (mkSys t f g) (mkSys t' f g)).

Lemma alone_ret {A} (a : A) : alone (mret a).
Proof. intros t f g. wp_step. apply reaches_nil. Qed.
Lemma alone_gets {A} (f : Cached * S → A) : alone (gets f).
Proof. intros t fl g. apply wp_gets. apply reaches_nil. Qed.
Lemma alone_bind {A B} (m : M Error (Cached * S) A) (k : A → M Error (Cached * S) B) : alone m → (∀ a, alone (k a)) → alone (m ≫= k).
Proof.
  intros Hm Hk t f g. wp_step. eapply wp_mono; [apply (Hm t f g)|]. intros [a|x] t1 H1; [|done].
  eapply wp_mono; [apply (Hk a t1 f g)|]. intros r t2 H2. by eapply reaches_trans.
Qed.

Lemma exec_land t f g k b : (exec (Land (length f)) (mkSys t (f ++ [(k, b)]) g)).2 = mkSys (insert k b t).2 f g.
Proof.
  rewrite /exec /land /gets /mbind /M_bind /modify /=. rewrite list_lookup_middle // /= (delete_middle f [] (k, b)) app_nil_r.
  rewrite /on_cache /zoom /=. by destruct (insert k b t).
Qed.

Lemma alone_ext {A} (m m' : M Error (Cached * S) A) : (∀ t, m t = m' t) → alone m' → alone m.
Proof. intros E H t f g. rewrite /wp E. apply H. Qed.

(** A call whose answer is inserted, after something that cannot fail. *)
Lemma alone_insert (a : Atom) k (m : M Error S (list Z)) (w : list Z → M Error (Cached * S) unit) :
  (∀ y, exec a y = (b ← on_cache (on_inner m); take_off k b) y) →
  (∀ b t f g, wp (w b) t (λ r t', r = Ok tt ∧ reaches (mkSys t f g) (mkSys t' f g))) →
  alone (b ← on_inner m; w b;; insert k b;; mret b).
Proof.
  intros Ha Hw t f g. wp_step. apply wp_zoom. rewrite /wp. pose proof (reaches_one a (mkSys t f g)) as H1. rewrite Ha in H1.
  rewrite /on_cache /on_inner /zoom /mbind /M_bind /= in H1. destruct (m t.2) as [[b|x] s1]; [|exact H1]. simpl in *.
  change (wp (w b;; insert k b;; mret b) (t.1, s1) (λ _ t', reaches (mkSys t f g) (mkSys t' f g))).
  wp_step. eapply wp_mono; [apply (Hw b (t.1, s1) (f ++ [(k, b)]) g)|]. intros r t2 [-> H2]. wp_step.
  assert (reaches (mkSys t f g) (mkSys (insert k b t2).2 f g)) as H3.
  { rewrite -exec_land. eapply reaches_trans; [exact H1|]. eapply reaches_trans; [exact H2|apply reaches_one]. }
  rewrite /wp. by destruct (insert k b t2) as [[u|x] t3].
Qed.

Lemma alone_put (a : Atom) k b (m : M Error S unit) : (∀ y, exec a y = (on_cache (on_inner m);; take_off k b) y) → alone (on_inner m;; insert k b).
Proof.
  intros Ha t f g. wp_step. apply wp_zoom. rewrite /wp. pose proof (reaches_one a (mkSys t f g)) as H1. rewrite Ha in H1.
  rewrite /on_cache /on_inner /zoom /mbind /M_bind /= in H1. destruct (m t.2) as [[u|x] s1]; [|exact H1]. simpl in *.
  eapply reaches_trans; [exact H1|]. rewrite -exec_land. apply reaches_one.
Qed.

Lemma alone_atom (a : Atom) {A} (m : M Error (Cached * S) A) : (∀ y, (exec a y).2 = (on_cache m y).2) → alone m.
Proof.
  intros Ha t f g. pose proof (reaches_one a (mkSys t f g)) as H1. rewrite Ha in H1. rewrite /on_cache /zoom /= in H1.
  rewrite /wp. by destruct (m t) as [r t'].
Qed.

Lemma chunk_alone id hash : alone (cached_chunk_of id hash).
Proof.
  rewrite /cached_chunk_of. apply alone_bind; [apply alone_gets|]. intros [b|]; [apply alone_ret|].
  eapply alone_ext, (alone_insert (Fetch false id hash None) (id, hash) (chunk id hash) (λ _, mret tt)); [done|done|].
  intros b t f g. apply wp_ret. split; [done|apply reaches_nil].
Qed.

Lemma put_alone id hash b : alone (cached_put_chunk id hash b).
Proof. by apply (alone_put (Upload id hash b)). Qed.
Lemma put_cancellable_alone id hash b cancel : alone (cached_put_chunk_cancellable id hash b cancel).
Proof. by apply (alone_put (UploadCancellable id hash b cancel)). Qed.

Lemma observe_alone {A} at_ (k : option (list Z) → M Error (Cached * S) A) : (∀ r, alone (k r)) → alone (r ← observe (read_image at_); k r).
Proof.
  intros Hk. apply alone_bind; [|done]. apply (alone_atom (ReadImage at_)). intros y.
  rewrite /exec /on_cache /observe /zoom /mbind /M_bind /=. by destruct (read_image at_ _).
Qed.
Lemma fail_alone : alone (modify (λ t, (fail_local t.1, t.2))).
Proof. by apply (alone_atom FailLocal). Qed.

Lemma from_image_alone image hash offset : alone (from_image image hash offset).
Proof.
  rewrite /from_image. destruct offset as [at_|]; [|apply alone_ret]. apply alone_bind; [apply alone_gets|]. intros [|]; [|apply alone_ret].
  apply observe_alone. assert (alone (modify (λ t, (fail_local t.1, t.2));; mret (M := M Error (Cached * S)) (@None (list Z)))) as Hf.
  { apply alone_bind; [apply fail_alone|intros; apply alone_ret]. }
  intros [b|]; [|exact Hf]. destruct (bool_decide _); [apply alone_ret|exact Hf].
Qed.

Lemma from_metadata_alone image hash offset : alone (from_metadata image hash offset).
Proof.
  rewrite /from_metadata. apply alone_bind; [apply alone_gets|]. intros [|]; [|apply alone_ret].
  intros t f g. pose proof (reaches_one (LookUp image hash) (mkSys t f g)) as H1.
  rewrite /exec /look_up /on_cache /zoom /mbind /M_bind /= in H1. rewrite /wp /mbind /M_bind.
  destruct (meta_get hash t) as [[[b|]|x] t1]; [|exact H1..]. simpl in H1.
  assert (reaches (mkSys t f g) (mkSys (insert (base_key image, hash) b t1).2 f g)) as H2.
  { rewrite -exec_land. eapply reaches_trans; [exact H1|apply reaches_one]. }
  by destruct (insert (base_key image, hash) b t1) as [[u|x] t2].
Qed.

Lemma fetch_base_alone image hash offset : alone (fetch_base image hash offset).
Proof.
  rewrite /fetch_base. eapply alone_ext, (alone_insert (Fetch true image hash offset) (base_key image, hash) (base_chunk image hash offset)
    (λ b, use ← gets (λ t, has_metadata t.1 && bool_decide (offset = None)); if (use : bool) then meta_put hash b else mret tt)); [|done|].
  - intros t. rewrite /mbind /M_bind. by destruct (on_inner _ t) as [[b|x] t1].
  - intros b t f g. wp_step. apply wp_gets. destruct (_ && _); [|wp_step; split; [done|apply reaches_nil]].
    pose proof (reaches_one (SaveMeta hash b) (mkSys t f g)) as H1. rewrite /exec /on_cache /zoom /= in H1.
    rewrite /wp. revert H1. rewrite /meta_put. destruct (negb _ || _); [done|]. by destruct (slot hash).
Qed.

Lemma base_chunk_alone image hash offset : alone (cached_base_chunk image hash offset).
Proof.
  rewrite /cached_base_chunk. apply alone_bind; [apply alone_gets|]. intros [b|]; [apply alone_ret|].
  apply alone_bind; [apply from_metadata_alone|]. intros [b|]; [apply alone_ret|].
  apply alone_bind; [apply from_image_alone|]. intros [b|]; [apply alone_ret|]. apply fetch_base_alone.
Qed.

Lemma delete_alone id hashes : alone (cached_delete_chunks id hashes).
Proof.
  intros t f g. rewrite /cached_delete_chunks. wp_step. apply wp_zoom. rewrite /wp. pose proof (reaches_one (Unstore id hashes) (mkSys t f g)) as H1.
  rewrite /exec /unstore /on_cache /on_inner /zoom /mbind /M_bind /= in H1. destruct (delete_chunks id hashes t.2) as [[u|x] s1]; [|exact H1].
  eapply reaches_trans; [exact H1|]. eapply reaches_trans; [apply (reaches_one (Forget (length g)))|].
  rewrite /exec /forget_next /gets /mbind /M_bind /modify /=. rewrite list_lookup_middle // /= (delete_middle g [] (id, hashes)) app_nil_r. apply reaches_nil.
Qed.

Lemma reserve_step name h hs c : reserve name (h :: hs) c = reserve name hs (reserve name [h] c).
Proof.
  simpl. destruct (7 <=? _) eqn:E; [|by destruct (_ || _)]. destruct hs; [done|]. by rewrite /= E.
Qed.
Lemma prefetch_alone is_base id hs : alone (modify (prefetch_objects is_base id hs)).
Proof.
  intros t f g. wp_step. revert t. induction hs as [|h hs IH]; intros [[c limit lb lf hm] s]; [apply reaches_nil|].
  eapply reaches_trans; [apply (reaches_one (Reserve is_base id h))|]. eapply reaches_trans; [apply IH|].
  rewrite /prefetch_objects /= -reserve_step. apply reaches_nil.
Qed.
Lemma prefetch_base_alone image hs : alone (modify (cached_prefetch_base image hs)).
Proof.
  intros t f g. wp_step. rewrite /cached_prefetch_base. destruct (_ && _); [apply reaches_nil|]. exact (prefetch_alone true image hs t f g).
Qed.

(** The thread of one reservation, when nothing comes in between. *)
Lemma read_ahead_alone (is_base : bool) id hash b s1 t f g :
  (if is_base then base_chunk id hash None else chunk id hash : M Error S (list Z)) t.2 = (Ok b, s1) →
  reaches (mkSys t f g) (mkSys (drop_pending (source_key is_base id, hash) (insert (source_key is_base id, hash) b (t.1, s1)).2) f g).
Proof.
  intros E. eapply reaches_trans; [apply (reaches_one (Fetch is_base id hash None))|].
  rewrite /exec /fetch /on_cache /on_inner /zoom /mbind /M_bind /= E /=.
  eapply reaches_trans; [apply (reaches_one (Land (length f)))|]. rewrite exec_land. apply (reaches_one (Release (source_key is_base id, hash))).
Qed.

(** ** The bounds *)
Definition fits t : Prop := sound (capacity t.1) (state t.1).
Definition fit_step t t' : Prop := capacity t'.1 = capacity t.1 ∧ (fits t → fits t').

Lemma insert_fits k b t : fit_step t (insert k b t).2.
Proof.
  enough (wp (insert k b) t (λ _ t', fit_step t t')) as H by done. rewrite /insert. wp_step. apply wp_gets. apply wp_zoom. rewrite /insert_into. wp_step.
  destruct t as [[c limit lb lf hm] s]. simpl. wp_step; [|done].
  rewrite !andb_true_iff bool_decide_eq_true !Z.leb_le /is_multiple_of Z.eqb_eq in H. destruct H as [[[H1 H2] H3] H4].
  destruct (Z.ltb_spec limit (Zlen b)); [by wp_step|]. wp_step. split; [done|]. rewrite /fits /=. intros Hs.
  by destruct (keep_spec limit k b c Hs) as (c' & -> & Hs' & _).
Qed.

Lemma exec_fits a y : fit_step (y_cache y) (y_cache (exec a y).2).
Proof.
  destruct y as [[h s] f g].
  assert (∀ {A} (m : M Error S A) (k : A → M Error (Sys (S := S)) unit), (∀ a y, y_cache (k a y).2 = y_cache y) →
    fit_step (h, s) (y_cache ((on_cache (on_inner m) ≫= k) (mkSys (h, s) f g)).2)) as Hin.
  { intros A m k Hk. rewrite /on_cache /on_inner /zoom /mbind /M_bind /=. destruct (m s) as [[x|x] s1]; [by rewrite Hk|done]. }
  destruct a as [ib id hash off|id hash b|id hash b cancel|image hash|n|hash b|at_| |ib id hash|k|id hs|n|id e m|fn]; try (by apply Hin).
  - rewrite /exec /look_up /on_cache /zoom /mbind /M_bind /=.
    assert (fit_step (h, s) (meta_get hash (h, s)).2) as H.
    { rewrite /meta_get. destruct (slot hash); [|done]. rewrite /observe /mbind /M_bind /=. by destruct (read_slot z s). }
    by destruct (meta_get hash (h, s)) as [[[b|]|x] t1].
  - rewrite /exec /land /gets /mbind /M_bind /=. destruct (f !! n) as [[k b]|]; [|done]. rewrite /on_cache /zoom /=.
    pose proof (insert_fits k b (h, s)). by destruct (insert k b (h, s)).
  - rewrite /exec /on_cache /zoom /= /meta_put. destruct (negb _ || _); [done|]. by destruct (slot hash).
  - rewrite /exec /on_cache /zoom /observe /mbind /M_bind /=. by destruct (read_image at_ s).
  - done.
  - split; [done|]. intros Hf. by apply reserve_sound.
  - split; [done|]. intros [Hk Hl Hp]. split; [done|done|]. simpl. etrans; [apply subseteq_size|exact Hp]. set_solver.
  - rewrite /exec /forget_next /gets /mbind /M_bind /=. destruct (g !! n) as [[id hs]|]; [|done]. split; [done|]. intros Hf. by apply delete_sound.
  - done.
Qed.

Lemma run_fits l y : fit_step (y_cache y) (y_cache (run l y)).
Proof.
  revert y. induction l as [|a l IH]; intros y; [done|]. destruct (exec_fits a y) as [E1 H1]. destruct (IH (exec a y).2) as [E2 H2].
  split; [by rewrite -E1 -E2|auto].
Qed.

Lemma new_fits bytes image metadata h : new bytes image metadata = Ok h →
  capacity h = bytes ∧ CHUNK_BYTES ≤ bytes ≤ 256 * 1024 * 1024 ∧ sound bytes (state h) ∧ c_objects (state h) = ∅.
Proof.
  rewrite /new. destruct (Z.leb_spec CHUNK_BYTES bytes), (Z.leb_spec bytes (256 * 1024 * 1024)); simpl; try done.
  destruct (match image with Some i => _ | None => _ end); [done|]. intros [= <-]. split; [done|]. split; [done|]. split; [|done].
  split; [apply kept_empty|change CHUNK_BYTES with 65536 in *; simpl; lia|]. change (base.size (∅ : gset Key) ≤ 7)%nat. rewrite size_empty. lia.
Qed.

(** C12: the cache is bounded.  After any interleaving of its threads, whatever the
    store and the host's files answer and whenever a fetch comes back, the cached
    objects take at most the configured bytes and are counted exactly, the eviction
    queue lists exactly their keys, each once, every entry has the digest it is filed
    under, at most seven requests are reserved, and the next insertion cannot exhaust
    the queue. *)
Theorem cache_bounded (bytes : Z) (image : option string) (metadata : bool) (h : Cached) (s : S) (l : list (Atom (S := S))) :
  new bytes image metadata = Ok h →
  let c := state (y_cache (run l (start h s))).1 in
  c_bytes c = total (λ _ b, Zlen b) (c_objects c) ∧ c_bytes c ≤ bytes ≤ 256 * 1024 * 1024 ∧
  NoDup (c_order c) ∧ (∀ k, k ∈ c_order c ↔ is_Some (c_objects c !! k)) ∧
  (∀ k b, c_objects c !! k = Some b → digest b = k.2) ∧ (base.size (c_pending c) ≤ 7)%nat ∧
  ∀ k b, verified k b → Zlen b ≤ bytes → is_Some (keep bytes k b c).
Proof.
  intros Hnew. destruct (new_fits _ _ _ _ Hnew) as (Hcap & Hrange & Hfit & _). destruct (run_fits l (start h s)) as [E Hf].
  rewrite /fits /= Hcap in E Hf. specialize (Hf Hfit). rewrite E in Hf. pose proof Hf as [[Hnd Hk Hn Hv] Hl Hp].
  split; [done|]. split; [lia|]. split; [done|]. split; [done|]. split; [|split; [done|]].
  - intros k b Hb. by destruct (Hv k b Hb) as (_ & _ & ?).
  - intros k b Hvb Hb. by destruct (keep_spec bytes k b _ Hf Hvb Hb) as (c' & -> & _).
Qed.

(** ** What is cached, and what the store holds *)
Context {SV : StoreView S} {OSL : ObjectStoreLaws S} {HL : HostLaws S}.

(** The name of a volume, not of the objects of a base image. *)
Definition volume_name (id : string) : Prop := ∀ image, id ≠ base_key image.

Definition held y : gmap Key (list Z) := objects (y_cache y).2.

(** A key is doubtful from a deletion that names it, or from its loss at the store by
    another host, until a deletion of it has been carried out in the cache while no
    object for it is in flight. *)
Definition names (id : string) (hashes : list string) : gset Key := list_to_set (pair id <$> hashes).
Definition lost (m m' : gmap Key (list Z)) : gset Key := dom (filter (λ kb, m' !! kb.1 ≠ Some kb.2) m).
Definition doubts (a : Atom (S := S)) y (d : gset Key) : gset Key :=
  match a with
  | Unstore id hashes => d ∪ names id hashes
  | Forget n =>
      match y_forget y !! n with
      | Some (id, hashes) => filter (λ k, k ∉ names id hashes ∨ k ∈ (fst <$> y_flight y)) d
      | None => d
      end
  | Elsewhere f => d ∪ lost (held y) (held (exec a y).2)
  | _ => d
  end.
Fixpoint doubtful (l : list (Atom (S := S))) y (d : gset Key) : gset Key :=
  match l with
  | [] => d
  | a :: l => doubtful l (exec a y).2 (doubts a y d)
  end.

(** A cancellation closure only observes. *)
Definition atom_ok (a : Atom (S := S)) : Prop := match a with UploadCancellable _ _ _ cancel => observes cancel | _ => True end.

(** What a read can return of a key: what is cached, or will be. *)
Definition entry y (k : Key) (b : list Z) : Prop :=
  c_objects (state (y_cache y).1) !! k = Some b ∨ (k, b) ∈ y_flight y ∧ digest b = k.2.
(** [P]: the key had these bytes at the store at some time. *)
Definition traced (P : Key → list Z → Prop) (d : gset Key) y : Prop :=
  ∀ k b, volume_name k.1 → entry y k b → P k b ∧ (k ∉ d → held y !! k = Some b).

Lemma traced_step P d d' y y' :
  (∀ k b, volume_name k.1 → entry y' k b → (held y' !! k = Some b) ∨
    entry y k b ∧ (k ∉ d' → (k ∉ d) ∧ (held y !! k = Some b → held y' !! k = Some b))) →
  traced P d y → traced (λ k b, P k b ∨ held y' !! k = Some b) d' y'.
Proof.
  intros H Ht k b Hn He. destruct (H k b Hn He) as [Hh|[He0 Hd]]; [by split; [right|]|]. destruct (Ht k b Hn He0) as [HP Hh].
  split; [by left|]. intros Hnd. destruct (Hd Hnd) as [Hnd0 Hk]. by apply Hk, Hh.
Qed.

(** The objects stay, and nothing new can be read. *)
Lemma traced_same y y' (d d' : gset Key) : held y' = held y → d ⊆ d' → (∀ k b, entry y' k b → entry y k b) → ∀ k b, volume_name k.1 → entry y' k b →
  (held y' !! k = Some b) ∨ entry y k b ∧ (k ∉ d' → (k ∉ d) ∧ (held y !! k = Some b → held y' !! k = Some b)).
Proof. intros E Hd H k b _ He. right. split; [by apply H|]. rewrite E. intros Hnd. split; [set_solver|done]. Qed.

(** A call of the store that gets an object for a volume's key. *)
Lemma traced_fly P d y (m : M Error S (list Z)) k : 
  wp m (y_cache y).2 (λ r s', objects s' = held y ∧ match r with Ok b => volume_name k.1 → digest b = k.2 → held y !! k = Some b | Err _ => True end) →
  traced P d y → let y' := ((b ← on_cache (on_inner m); take_off k b) y).2 in traced (λ k b, P k b ∨ held y' !! k = Some b) d y'.
Proof.
  intros Hm Ht. rewrite /wp in Hm. cbv zeta. rewrite /on_cache /on_inner /zoom /mbind /M_bind /=. destruct (m (y_cache y).2) as [[b|x] s1]; simpl in *; destruct Hm as [E Hb].
  - eapply traced_step; [|exact Ht]. intros k0 b0 Hn He. rewrite /held /= E. destruct He as [He|[[He|[= -> ->]%list_elem_of_singleton]%elem_of_app Hd]].
    + right. split; [by left|done].
    + right. split; [by right|done].
    + left. by apply Hb.
  - eapply traced_step; [|exact Ht]. apply traced_same; done.
Qed.

Lemma traced_put P d y (m : M Error S unit) k b :
  wp m (y_cache y).2 (λ r s', match r with
    | Ok _ => objects s' = <[k := b]> (held y) ∧ (∀ b0, held y !! k = Some b0 → b0 = b)
    | Err _ => objects s' = held y ∨ objects s' = <[k := b]> (held y) ∧ (∀ b0, held y !! k = Some b0 → b0 = b)
    end) →
  traced P d y → let y' := ((on_cache (on_inner m);; take_off k b) y).2 in traced (λ k b, P k b ∨ held y' !! k = Some b) d y'.
Proof.
  intros Hm Ht. rewrite /wp in Hm. cbv zeta. rewrite /on_cache /on_inner /zoom /mbind /M_bind /=.
  assert (∀ m', m' = held y ∨ m' = <[k := b]> (held y) ∧ (∀ b0, held y !! k = Some b0 → b0 = b) → ∀ k0 b0, held y !! k0 = Some b0 → m' !! k0 = Some b0) as Hkeep.
  { intros m' [->|[-> Hsame]] k0 b0 Hk0; [done|]. destruct (decide (k0 = k)) as [->|]; [|by rewrite lookup_insert_ne]. rewrite lookup_insert_eq. f_equal. symmetry. by apply Hsame. }
  destruct (m (y_cache y).2) as [[u|x] s1]; simpl in *; (eapply traced_step; [|exact Ht]); intros k0 b0 Hn He; rewrite /held /=.
  - pose proof (Hkeep _ (or_intror Hm)) as Hk. destruct Hm as [E _]. destruct He as [He|[[He|[= -> ->]%list_elem_of_singleton]%elem_of_app Hd]].
    + right. split; [by left|]. intros Hnd. split; [done|]. apply Hk.
    + right. split; [by right|]. intros Hnd. split; [done|]. apply Hk.
    + left. by rewrite E lookup_insert_eq.
  - right. split; [done|]. intros Hnd. split; [done|]. by apply Hkeep.
Qed.

Lemma insert_entries k b t k' b' : sound (capacity t.1) (state t.1) → c_objects (state (insert k b t).2.1) !! k' = Some b' →
  c_objects (state t.1) !! k' = Some b' ∨ k' = k ∧ b' = b ∧ digest b = k.2.
Proof.
  intros Hs. enough (wp (insert k b) t (λ _ t', c_objects (state t'.1) !! k' = Some b' → c_objects (state t.1) !! k' = Some b' ∨ k' = k ∧ b' = b ∧ digest b = k.2)) as H by exact H.
  rewrite /insert. wp_step. apply wp_gets. apply wp_zoom. rewrite /insert_into. wp_step. destruct t as [[c limit lb lf hm] s]. simpl in *. wp_step; [|by left].
  rewrite !andb_true_iff bool_decide_eq_true !Z.leb_le /is_multiple_of Z.eqb_eq in H. destruct H as [[[H1 H2] H3] H4].
  destruct (Z.ltb_spec limit (Zlen b)); [wp_step; by left|]. wp_step. simpl.
  destruct (keep_spec limit k b c Hs) as (c' & -> & _ & Hc'); [by split_and!|done|]. simpl. intros Hb. destruct (Hc' _ _ Hb) as [?|(-> & -> & _)]; [by left|by right].
Qed.

Lemma traced_land P d y n : fits (y_cache y) → traced P d y → let y' := (land n y).2 in traced (λ k b, P k b ∨ held y' !! k = Some b) d y'.
Proof.
  intros Hf Ht. cbv zeta. eapply traced_step; [|exact Ht]. rewrite /land /gets /mbind /M_bind /=. destruct (y_flight y !! n) as [[k b]|] eqn:Hn; [|by apply traced_same].
  rewrite /modify /on_cache /zoom /=. pose proof (λ k' b', insert_entries k b (y_cache y) k' b' Hf) as Hi.
  assert ((insert k b (y_cache y)).2.2 = (y_cache y).2) as E.
  { rewrite /insert /gets /zoom /mbind /M_bind /=. by destruct (insert_into _ _ _ _). }
  destruct (insert k b (y_cache y)) as [r t']. simpl in *. apply traced_same; [by rewrite /held /= E|done|].
  intros k' b' [He|[He Hd]]; simpl in He.
  - destruct (Hi _ _ He) as [?|(-> & -> & Hd)]; [by left|]. right. split; [|done]. by eapply list_elem_of_lookup_2.
  - right. split; [|done]. by eapply elem_of_submseteq; [exact He|apply sublist_submseteq, sublist_delete].
Qed.

Lemma lost_spec m m' k b : k ∉ lost m m' → m !! k = Some b → m' !! k = Some b.
Proof.
  intros Hl Hk. destruct (decide (m' !! k = Some b)) as [|Hne]; [done|]. destruct Hl. apply elem_of_dom. exists b. by apply map_lookup_filter_Some.
Qed.
Lemma elem_of_names id hs k : k ∈ names id hs ↔ k.1 = id ∧ k.2 ∈ hs.
Proof.
  rewrite /names elem_of_list_to_set list_elem_of_fmap. split; [by intros (h & -> & ?)|]. destruct k as [i h]. simpl. intros [-> ?]. by exists h.
Qed.

(** A call of the store that changes no object and brings none. *)
Lemma traced_view {A} P d y (m : M Error S A) (f : A → unit) :
  wp m (y_cache y).2 (λ _ s', objects s' = held y) → traced P d y →
  let y' := ((on_cache (on_inner m);; mret tt) y).2 in traced (λ k b, P k b ∨ held y' !! k = Some b) d y'.
Proof.
  intros Hm Ht. rewrite /wp in Hm. cbv zeta. rewrite /on_cache /on_inner /zoom /mbind /M_bind /=.
  destruct (m (y_cache y).2) as [[a|x] s1]; simpl in *; (eapply traced_step; [|exact Ht]; by apply traced_same).
Qed.

Lemma meta_get_reply hash t : wp (meta_get hash) t (λ _ t', t'.1 = t.1 ∧ objects t'.2 = objects t.2).
Proof.
  rewrite /meta_get. destruct (slot hash); [|by wp_step]. wp_step. rewrite /wp /observe. pose proof (read_slot_law z t.2) as (Ho & _).
  destruct (read_slot z t.2) as [r s']. simpl in *. by split.
Qed.

Lemma traced_look P d y image hash : traced P d y → let y' := (look_up image hash y).2 in traced (λ k b, P k b ∨ held y' !! k = Some b) d y'.
Proof.
  intros Ht. cbv zeta. eapply traced_step; [|exact Ht]. pose proof (meta_get_reply hash (y_cache y)) as H. rewrite /wp in H.
  rewrite /look_up /on_cache /zoom /mbind /M_bind /=. destruct (meta_get hash (y_cache y)) as [[[b|]|x] t1]; simpl in *; destruct H as [E1 E2].
  - intros k0 b0 Hn He. rewrite /held /= E2. right. split; [|done]. destruct He as [He|[[He|[= -> ->]%list_elem_of_singleton]%elem_of_app Hd]]; [left; by rewrite /= E1 in He|by right|].
    by destruct (Hn image).
  - apply traced_same; [done|done|]. intros k0 b0 [He|He]; [left; by rewrite /= E1 in He|by right].
  - apply traced_same; [done|done|]. intros k0 b0 [He|He]; [left; by rewrite /= E1 in He|by right].
Qed.

Lemma traced_unstore P d y id hs : traced P d y →
  let y' := (unstore id hs y).2 in traced (λ k b, P k b ∨ held y' !! k = Some b) (d ∪ names id hs) y'.
Proof.
  intros Ht. cbv zeta. eapply traced_step; [|exact Ht]. pose proof (delete_chunks_spec (y_cache y).2 id hs) as H. rewrite /wp in H.
  rewrite /unstore /on_cache /on_inner /zoom /mbind /M_bind /=. destruct (delete_chunks id hs (y_cache y).2) as [[u|x] s1]; simpl in *; destruct H as [(_ & _ & Ho) _];
    (intros k b Hn He; right; split; [exact He|]; intros Hnd; split; [set_solver|]; rewrite /held /=; destruct (Ho k) as [->|(_ & Hi & Hin)]; [done|];
     destruct Hnd; apply elem_of_union; right; by apply elem_of_names).
Qed.

Lemma traced_forget P d y n : fits (y_cache y) → traced P d y →
  let y' := (forget_next n y).2 in traced (λ k b, P k b ∨ held y' !! k = Some b) (doubts (Forget n) y d) y'.
Proof.
  intros Hf Ht. cbv zeta. rewrite /forget_next /gets /mbind /M_bind /= /doubts. destruct (y_forget y !! n) as [[id hs]|]; [|by eapply traced_step; [apply traced_same|]].
  simpl. intros k b Hn He. rewrite /entry /= in He. destruct (delete_sound _ id hs _ Hf) as [_ Hd].
  assert (entry y k b) as He0 by (destruct He as [He|He]; [left; by apply Hd in He as [? _]|by right]).
  destruct (Ht k b Hn He0) as [HP Hh]. split; [by left|]. intros Hnd. apply Hh. intros Hin. apply Hnd. apply elem_of_filter. split; [|done].
  destruct He as [He|[He _]]; [left|right].
  - apply Hd in He as [_ Hno]. by rewrite elem_of_names.
  - apply list_elem_of_fmap. by exists (k, b).
Qed.

Lemma traced_exec a P d y : atom_ok a → fits (y_cache y) → traced P d y →
  let y' := (exec a y).2 in traced (λ k b, P k b ∨ held y' !! k = Some b) (doubts a y d) y'.
Proof.
  intros Hok Hf Ht. destruct a as [ib id hash off|id hash b|id hash b cancel|image hash|n|hash b|at_| |ib id hash|k|id hs|n|id e m|fn]; cbn [exec doubts].
  - apply traced_fly; [|done]. destruct ib.
    + eapply wp_mono; [apply base_chunk_law|]. intros r s' [(E & _) _]. split; [done|]. destruct r; [|done]. intros Hn. by destruct (Hn id).
    + eapply wp_mono; [apply chunk_law|]. intros r s' [(E & _) Hb]. split; [done|]. destruct r; [|done]. auto.
  - apply traced_put; [|done]. eapply wp_mono; [apply put_chunk_law|]. intros [u|x] s' (_ & _ & Ho); [done|].
    destruct Ho as [?|[Hno ?]]; [by left|right]. split; [done|]. intros b0. rewrite /held Hno. done.
  - apply traced_put; [|done]. eapply wp_mono; [by apply put_chunk_cancellable_law|]. by intros [u|x] s' (_ & _ & Ho).
  - by apply traced_look.
  - by apply traced_land.
  - eapply traced_step; [|exact Ht]. apply traced_same; [|done|]; rewrite /on_cache /zoom /meta_put /held.
    + destruct (negb _ || _); [done|]. destruct (slot hash); [|done]. apply write_slot_law.
    + destruct (negb _ || _); [done|]. by destruct (slot hash).
  - eapply traced_step; [|exact Ht]. pose proof (read_image_law at_ (y_cache y).2) as (Ho & _). rewrite /on_cache /zoom /observe /mbind /M_bind.
    destruct (read_image at_ (y_cache y).2) as [r s']. by apply traced_same.
  - eapply traced_step; [|exact Ht]. by apply traced_same.
  - eapply traced_step; [|exact Ht]. apply traced_same; [done|done|]. intros k b. rewrite /entry /=.
    destruct (reserve_sound _ (source_key ib id) [hash] _ Hf) as [_ E]. simpl in E. by rewrite E.
  - eapply traced_step; [|exact Ht]. by apply traced_same.
  - by apply traced_unstore.
  - by apply traced_forget.
  - apply (traced_view _ _ _ _ (λ _, tt)); [|done]. eapply wp_mono; [apply publish_law|]. by intros r s' (Ho & _ & _).
  - eapply traced_step; [|exact Ht]. intros k b Hn He. right. split; [exact He|]. intros Hnd. apply not_elem_of_union in Hnd as [Hnd Hl].
    split; [done|]. by apply lost_spec.
Qed.

Lemma traced_mono (P P' : Key → list Z → Prop) d y : (∀ k b, P k b → P' k b) → traced P d y → traced P' d y.
Proof. intros HP H k b Hn He. destruct (H k b Hn He). auto. Qed.

(** The object was at the store at some time of the run. *)
Definition once_held (l : list (Atom (S := S))) y (k : Key) (b : list Z) : Prop := ∃ n, held (run (take n l) y) !! k = Some b.

Lemma traced_run l P d y : Forall atom_ok l → fits (y_cache y) → traced P d y →
  traced (λ k b, P k b ∨ once_held l y k b) (doubtful l y d) (run l y).
Proof.
  revert P d y. induction l as [|a l IH]; intros P d y Hok Hf Ht; [by eapply traced_mono; [|exact Ht]; left|].
  apply Forall_cons in Hok as [Ha Hok]. simpl. eapply traced_mono; [|apply IH; [done|by apply exec_fits|by apply traced_exec]].
  intros k b [[HP|Hh]|[n Hn]]; [by left|right; by exists 1%nat|right; by exists (Datatypes.S n)].
Qed.

(** ** Reads *)
Lemma insert_view k b t : wp (insert k b) t (λ r t', t'.2 = t.2 ∧ match r with Ok _ => digest b = k.2 | Err _ => True end).
Proof.
  rewrite /insert. wp_step. apply wp_gets. apply wp_zoom. rewrite /insert_into. wp_step. wp_step; [|done].
  rewrite !andb_true_iff bool_decide_eq_true in H. destruct H as [_ H]. destruct (_ <? _); by wp_step.
Qed.

Lemma chunk_read id hash t : fits t → wp (cached_chunk_of id hash) t (λ r t', same_view t.2 t'.2 ∧
  match r with Ok b => digest b = hash ∧ (c_objects (state t.1) !! (id, hash) = Some b ∨ objects t.2 !! (id, hash) = Some b) | Err _ => True end).
Proof.
  intros Hf. rewrite /cached_chunk_of. wp_step. apply wp_gets. destruct (cached_chunk (id, hash) t) as [b|] eqn:Hc.
  - wp_step. split; [done|]. split; [|by left]. by destruct (kept_verified _ _ _ (sound_kept _ _ Hf) _ _ Hc) as (_ & _ & ?).
  - wp_step. apply wp_zoom. eapply wp_mono; [apply chunk_law|]. intros [b|x] s1 [Hv Hb]; [|done]. wp_step. eapply wp_mono; [apply insert_view|].
    intros [u|x] t2 [E Hd]; simpl in E; [wp_step|]; rewrite E; [|done]. split; [done|]. split; [done|right; by apply Hb].
Qed.

Lemma observe_view {A} (f : S → A * S) t : same_view t.2 (f t.2).2 → wp (observe f) t (λ r t', same_view t.2 t'.2 ∧ ∃ a, r = Ok a).
Proof. destruct t as [h s]. rewrite /wp /observe /=. destruct (f s) as [a s'] eqn:E. intros Hv. split; [done|]. by exists a. Qed.

Definition base_reply t (hash : string) (r : Result Error (option (list Z))) t' : Prop :=
  same_view t.2 t'.2 ∧ match r with Ok (Some b) => digest b = hash | _ => True end.

Lemma meta_get_spec hash t : wp (meta_get hash) t (base_reply t hash).
Proof.
  rewrite /meta_get. destruct (slot hash); [|by wp_step]. wp_step. eapply wp_mono; [apply observe_view, read_slot_law|].
  intros r t1 (Hq & a & ->). wp_step. split; [done|]. destruct a as [b|]; [|done]. simpl.
  destruct (Zlen b =? CHUNK_BYTES); simpl; [|done]. by case_bool_decide.
Qed.

Lemma from_metadata_spec image hash offset t : wp (from_metadata image hash offset) t (base_reply t hash).
Proof.
  rewrite /from_metadata. wp_step. apply wp_gets. wp_step; [|by wp_step]. wp_step. eapply wp_mono; [apply meta_get_spec|].
  intros [[b|]|x] t1 [Hq Hb]; [|by wp_step|done]. wp_step. eapply wp_mono; [apply insert_view|].
  intros [u|x] t2 [E _]; [wp_step|]; rewrite /base_reply E; done.
Qed.

Lemma from_image_spec image hash offset t : wp (from_image image hash offset) t (base_reply t hash).
Proof.
  rewrite /from_image. destruct offset as [at_|]; [|by wp_step]. wp_step. apply wp_gets. wp_step; [|by wp_step].
  wp_step. eapply wp_mono; [apply observe_view, read_image_law|]. intros r t1 (Hq & a & ->).
  destruct a as [b|]; [destruct (bool_decide (digest b = hash)) eqn:Hd|]; wp_steps; (split; [done|]); [by apply bool_decide_eq_true in Hd|done..].
Qed.

Lemma base_read image hash offset t : fits t → wp (cached_base_chunk image hash offset) t (λ r t', same_view t.2 t'.2 ∧
  match r with Ok b => digest b = hash | Err _ => True end).
Proof.
  intros Hf. rewrite /cached_base_chunk. wp_step. apply wp_gets. destruct (cached_chunk _ t) as [b|] eqn:Hc.
  { wp_step. split; [done|]. by destruct (kept_verified _ _ _ (sound_kept _ _ Hf) _ _ Hc) as (_ & _ & ?). }
  wp_step. eapply wp_mono; [apply from_metadata_spec|]. intros [[b|]|x] t1 [Hq1 H1]; [by wp_step| |done].
  wp_step. eapply wp_mono; [apply from_image_spec|]. intros r t2 [Hq2 H2]. assert (same_view t.2 t2.2) as Hq02 by (by trans t1.2).
  destruct r as [[b|]|x]; [by wp_step| |done]. rewrite /fetch_base. wp_step.
  apply wp_zoom. eapply wp_mono; [apply base_chunk_law|]. intros [b|x] s3 [Hq3 _]; assert (same_view t.2 s3) as Hq03 by (by trans t2.2); [|done].
  wp_step. apply wp_gets. wp_step. eapply (wp_mono _ _ (λ _ t', same_view t.2 t'.2)).
  { wp_step; [|by wp_step]. rewrite /meta_put. wp_step; [by wp_step|]. destruct (slot hash); [|by wp_step]. wp_step. trans s3; [done|apply write_slot_law]. }
  intros [u|x] t4 Hq4; [|done]. wp_step. eapply wp_mono; [apply insert_view|]. intros [u5|x] t5 [E Hd]; [wp_step|]; by rewrite E.
Qed.

(** C13: the cache is transparent.  After any interleaving of its threads, with fetches
    that come back at any time and other hosts changing the store meanwhile, a read of
    a volume's object through the cache changes nothing at the store and, when it
    succeeds, returns bytes with the requested digest that the store held under that
    key at some time of the run; unless the key is doubtful, they are what the store
    holds now.  A read of an image's object returns bytes with the requested digest.
    The answer of a read is settled at one moment, that of the look-up under the lock
    or, after a miss, that of the fetch, so that a read that runs alone stands for any.
    A key is doubtful ([doubts]) from a deletion that names it, or from its loss at
    the store by another host, until a deletion of it has been carried out in the
    cache while no object for it was in flight: a fetch that began before the deletion
    and ends after it leaves the deleted object cached. *)
Theorem cache_transparent (bytes : Z) (image : option string) (metadata : bool) (h : Cached) (s : S) (l : list (Atom (S := S))) :
  new bytes image metadata = Ok h → Forall atom_ok l →
  let y := run l (start h s) in
  (∀ id hash, volume_name id → wp (cached_chunk_of id hash) (y_cache y) (λ r t', same_view (y_cache y).2 t'.2 ∧
    match r with
    | Ok b => digest b = hash ∧ once_held l (start h s) (id, hash) b ∧
        ((id, hash) ∉ doubtful l (start h s) ∅ → held y !! (id, hash) = Some b)
    | Err _ => True
    end)) ∧
  (∀ img hash offset, wp (cached_base_chunk img hash offset) (y_cache y) (λ r t', same_view (y_cache y).2 t'.2 ∧
    match r with Ok b => digest b = hash | Err _ => True end)).
Proof.
  intros Hnew Hok y. destruct (new_fits _ _ _ _ Hnew) as (Hcap & _ & Hfit & Hempty).
  assert (fits (h, s)) as Hf0 by (by rewrite /fits /= Hcap). assert (fits (y_cache y)) as Hf by (by apply run_fits).
  assert (traced (λ _ _, False) ∅ (start h s)) as Ht0.
  { intros k b _ [He|[He _]]; [|by apply not_elem_of_nil in He]. rewrite /= Hempty in He. by destruct (lookup_empty_Some (M := gmap Key) k b He). }
  pose proof (traced_run l _ _ (start h s) Hok Hf0 Ht0) as Ht. split.
  - intros id hash Hid. eapply wp_mono; [by apply chunk_read|]. intros [b|x] t' [Hv Hb]; [|done]. destruct Hb as [Hd Hb].
    split; [done|]. split; [done|]. destruct Hb as [Hc|Hh].
    + destruct (Ht (id, hash) b Hid) as [[[]|Ho] Hn]; [by left|]. by split.
    + split; [|done]. exists (length l). rewrite take_ge //.
  - intros img hash off. by apply base_read.
Qed.
End runs.

(** ** A concrete cache *)
Module Example.
Import Memory.
#[local] Instance toy : Sha256 := ToySha.toy.

(** A host without a metadata directory, whose image file reads as nines. *)
#[local] Instance host : HostFiles Mem := {|
  read_slot _ s := (None, s);
  write_slot _ _ s := s;
  read_image _ s := (Some (replicate (Z.to_nat 65536) 9), s);
|}.
#[local] Instance host_laws : HostLaws Mem.
Proof. by split. Qed.

Definition block (z : Z) : list Z := replicate (Z.to_nat 65536) z.
Definition h0 : Cached := mkCached Cache.empty 131072 None false false.
Definition atom := Atom (S := Mem).
Definition one : string := digest (block 1).
(** Room for two blocks, and three are put; the first of them is read ahead, and the
    last is deleted. *)
Definition atoms : list atom := [
  Upload "v" one (block 1); Land 0; Upload "v" (digest (block 2)) (block 2); Land 0; Upload "v" (digest (block 3)) (block 3); Land 0;
  Reserve false "v" (digest (block 2)); Reserve false "v" one; Fetch false "v" one None; Land 0; Release ("v"%string, one);
  Unstore "v" [digest (block 3)]; Forget 0
].
Definition after : Sys (S := Mem) := run atoms (start h0 Memory.empty).
Example atoms_run : let c := state (y_cache after).1 in
  (c_bytes c, c_order c, base.size (c_pending c), fst <$> map_to_list (mem_objects (y_cache after).2))
  = (65536, [("v"%string, one)], O, [("v"%string, one); ("v"%string, digest (block 2))]).
Proof. vm_compute. reflexivity. Qed.

Lemma v_name : volume_name "v".
Proof. by intros image. Qed.
Lemma h0_new : new 131072 None false = Ok h0.
Proof. reflexivity. Qed.
Lemma atoms_fine : Forall atom_ok atoms.
Proof. repeat (constructor; [done|]). constructor. Qed.

Lemma cache_bounded_witness : let c := state (y_cache after).1 in
  c_bytes c = total (λ _ b, Zlen b) (c_objects c) ∧ c_bytes c ≤ 131072 ≤ 256 * 1024 * 1024 ∧
  NoDup (c_order c) ∧ (∀ k, k ∈ c_order c ↔ is_Some (c_objects c !! k)) ∧
  (∀ k b, c_objects c !! k = Some b → digest b = k.2) ∧ (base.size (c_pending c) ≤ 7)%nat ∧
  ∀ k b, verified k b → Zlen b ≤ 131072 → is_Some (keep 131072 k b c).
Proof. exact (cache_bounded 131072 None false h0 Memory.empty atoms h0_new). Defined.

(** No key is doubtful at the end, and the first block is read from the cache. *)
Lemma nothing_doubtful : doubtful atoms (start h0 Memory.empty) ∅ = ∅.
Proof. vm_compute. reflexivity. Qed.
Definition reads (y : Sys (S := Mem)) (b : list Z) : bool :=
  match (cached_chunk_of "v" (digest b) (y_cache y)).1 with Ok b' => bool_decide (b' = b) | Err _ => false end.
Example first_read : reads after (block 1) = true.
Proof. vm_compute. reflexivity. Qed.
Lemma cache_transparent_witness : wp (cached_chunk_of "v" one) (y_cache after) (λ r t', same_view (y_cache after).2 t'.2 ∧
  match r with Ok b => digest b = one ∧ held after !! ("v"%string, one) = Some b | Err _ => True end).
Proof.
  pose proof (proj1 (cache_transparent 131072 None false h0 Memory.empty atoms h0_new atoms_fine) "v"%string one v_name) as H.
  rewrite nothing_doubtful in H. eapply wp_mono; [exact H|]. intros r t' [Hv Hr]. split; [exact Hv|]. destruct r; [|done].
  destruct Hr as (Hd & _ & Hh). split; [exact Hd|]. apply Hh, not_elem_of_empty.
Defined.

(** Read-ahead fetches an object, the object is deleted, and only then is what was
    fetched inserted: every call has succeeded, nothing is in flight any more, and a
    read returns what the store does not hold. *)
Definition stored : Mem := (put_chunk "v" one (block 1) Memory.empty).2.
Definition overtaken : list atom := [
  Reserve false "v" one; Fetch false "v" one None; Unstore "v" [one]; Forget 0; Land 0; Release ("v"%string, one)
].
Definition overtook : Sys (S := Mem) := run overtaken (start h0 stored).
Example deleted_object_is_read :
  reads overtook (block 1) = true ∧ held overtook !! ("v"%string, one) = None ∧
  y_flight overtook = [] ∧ y_forget overtook = [] ∧ ("v"%string, one) ∈ doubtful overtaken (start h0 stored) ∅ ∧
  snd (fold_left (λ '(y, ok) a, ((exec a y).2, ok && is_ok (exec a y).1)) overtaken (start h0 stored, true)) = true.
Proof. split_and!; try (vm_compute; reflexivity). Qed.
End Example.
End Cache.
