(* ===== verification/Discard.v ===== *)
(** Giving up the local state of a deleted disk, [discard_retired_local] of
    [ahvm-volume/src/owned.rs]: from then on the directory never opens as an owner
    again, whatever crashes, while its identity and the remote head stay. *)
From S2P Require Import Prelude Codec ObjectStore Base Indexed Files LocalCompact Owned Evict Lifetime.

Module Discard.
Import Files LocalCompact Evict Lifetime.

Definition retired_entry (d : gmap string nat) : Prop := is_Some (d !! "retired").

(** The entry stays through the calls on open files. *)
Lemma open_truncate_names name f : wp (open_truncate name) f (λ r f', match r with Ok _ => is_Some (dir f' !! name) | Err _ => True end).
Proof.
  rewrite /open_truncate. wp_step. apply wp_sys; intros q; [|done]. wp_step. apply wp_gets.
  destruct (dir (set_plan q f) !! name) as [i|] eqn:Ei; [wp_step; apply wp_modify, wp_ret; by exists i|].
  rewrite /wp /make /=. rewrite lookup_insert_eq. by eexists.
Qed.

Lemma write_all_dir i b f : wp (write_all i b) f (λ _ f', dir f' = dir f).
Proof.
  rewrite /write_all. wp_step. apply wp_outcome. intros [k|] p; [|by apply wp_modify]. wp_step. apply wp_modify. by apply wp_fail.
Qed.

Lemma remove_journal_gone h : wp remove_journal h (λ r h', match r with Ok _ => sub h' = None ∧ dir (own h') = dir (own h) | Err _ => True end).
Proof.
  rewrite /remove_journal. wp_step. apply wp_on_own, wp_outcome. intros [k|] q; [wp_step; apply wp_modify; by apply wp_fail|].
  apply wp_modify. cbn beta iota. rewrite /set_own /=. destruct (sub h) eqn:E; cbn; by rewrite ?E.
Qed.

Lemma discard_marks id h : wp (discard_retired_local id) h (λ r h',
  match r with Ok _ => sub h' = None ∧ sub_past h' = [] ∧ ∀ d, candidate (own h') d → retired_entry d | Err _ => True end).
Proof.
  rewrite /discard_retired_local. wp_step. wp_step; [|done]. wp_step. apply wp_on_own, wp_true. intros [l|e] f0; [|done].
  wp_step. apply wp_on_own, wp_true. intros [[]|e] f1; [|done]. wp_step. apply wp_on_own.
  eapply wp_mono; [apply open_truncate_names|]. intros [i|e] f2 H2; [|done].
  wp_step. apply wp_on_own. eapply wp_mono; [apply write_all_dir|]. intros [[]|e] f3 E3; [|done]. cbn [own set_own] in E3.
  wp_step. apply wp_on_own. rewrite /sync_all. wp_step. apply wp_sys; intros q4; [|done]. apply wp_modify.
  wp_step. apply wp_sync_home; intros q5; [|done]. wp_step. eapply wp_mono; [apply remove_journal_gone|].
  intros [[]|e] h6 H6; [|done]. destruct H6 as [Hs E6]. apply wp_sync_home; intros q7; [|done].
  split; [by rewrite /= Hs|]. split; [done|]. intros d ->%synced_candidate.
  cbn in E6 |- *. by rewrite /retired_entry E6 E3.
Qed.

Section open.
Context {S : Type} {SHA : Sha256} {OS : ObjectStore S} {JR : Json Indexed.Root} {SJ : Owned.Serde}.

Lemma private_path_dir name f : wp (Owned.private_path name) f (λ _ f', dir f' = dir f).
Proof.
  rewrite /Owned.private_path. wp_step. wp_step. apply wp_sys; intros p; cbn beta iota; (wp_step; wp_step; [|done]; wp_step; wp_step; by wp_step).
Qed.

Lemma lock_keeps id (s : S) f : retired_entry (dir f) → wp (Owned.lock id) (s, f) (λ _ t, t.1 = s ∧ retired_entry (dir t.2)).
Proof.
  intros Hr. rewrite /Owned.lock. wp_step. wp_step; [|done]. wp_step. apply wp_zoom, wp_sys; intros q0; [|done].
  wp_step. wp_step. wp_step. wp_step; [|done].
  wp_step. apply wp_zoom. eapply wp_mono; [apply private_path_dir|]. intros r f1 E1. cbn [snd fst] in *.
  assert (retired_entry (dir f1)) as Hr1 by (rewrite E1; done). destruct r; [|done].
  wp_step. apply wp_zoom. eapply wp_mono; [apply private_path_dir|]. intros r f2 E2. cbn [snd fst] in *.
  assert (retired_entry (dir f2)) as Hr2 by (rewrite E2; done). destruct r; [|done].
  wp_step. apply wp_zoom. apply (wp_mono _ _ (λ _ f', retired_entry (dir f'))).
  - rewrite /open_or_create. wp_step. apply wp_sys; intros q; [|done]. wp_step. wp_step. wp_step; [by wp_step|].
    rewrite /wp /make /retired_entry /=. by rewrite lookup_insert_ne.
  - intros [i|e] f3 H3; [|done]. apply wp_zoom. rewrite /try_lock. wp_step. apply wp_outcome. intros o q. wp_step. wp_step. wp_step.
    wp_step; [by wp_step|done].
Qed.

(** A retired directory claims nothing, if the look for [retired] does not fail. *)
Lemma retired_refused id random (s : S) f : retired_entry (dir f) → (∀ k, plan f !! 5%nat ≠ Some (Some k)) →
  wp (Owned.open id random) (s, f) (λ r t, is_ok r = false ∧ t.1 = s ∧ retired_entry (dir t.2)).
Proof.
  intros Hr Hk. rewrite /Owned.open /Owned.open_inner. wp_step. pose proof (lock_keeps id s f Hr) as Hl. pose proof (Owned.lock_uses id s f) as Hu. eapply wp_mono; [exact (wp_and _ _ _ _ Hl Hu)|]. clear Hl Hu.
  intros [[]|e] [s1 f1] [[Hs H1] Hu]; [|done].
  wp_step. wp_step. rewrite /Owned.open_locked. wp_step. rewrite /Owned.prepare. wp_step. cbn [fst snd] in *.
  apply wp_zoom, wp_seen; [right; intros k; rewrite Hu lookup_drop; apply Hk|]. intros p. rewrite bool_decide_true //.
Qed.

(** After the discard of a deleted disk has succeeded, whatever crashes follow, the
    directory holds no journal, and an attempt to become the owner whose look for
    [retired] does not fail is refused without touching the remote head. *)
Theorem discard_fences id id' random h h1 h2 (s : S) : discard_retired_local id h = (Ok tt, h1) → h2 = h1 ∨ home_crashed h1 h2 → (∀ k, plan (own h2) !! 5%nat ≠ Some (Some k)) →
  sub h2 = None ∧ wp (Owned.open id' random) (s, own h2) (λ r t, is_ok r = false ∧ t.1 = s ∧ retired_entry (dir t.2)).
Proof.
  intros Hrun Hc Hk. pose proof (discard_marks id h) as Hd. rewrite /wp Hrun in Hd. destruct Hd as (Hs & Hp & Hd). cbn [fst snd] in *.
  split.
  - destruct Hc as [->|(_ & _ & o & Ho & Hx)]; [by rewrite Hs|]. rewrite Hs Hp in Ho. apply list_elem_of_singleton in Ho as ->. by destruct (sub h2).
  - apply retired_refused; [|done]. destruct Hc as [->|((Hdir & _) & _)]; [apply Hd; by left|]. apply Hd. by destruct Hdir; [left|right].
Qed.
End open.
End Discard.
